(* ===== verification/_CoqProject ===== *)
-Q . S2P
Prelude.v
Topics.v
Matcher.v
CSTrie.v
Interest.v
Policy.v
Authz.v
Stream.v
MemoryBroker.v
Hub.v
Splice.v
HubSubs.v
NodeSubs.v
Strconv.v
Epoch.v
Directory.v
Lease.v
Frame.v
Hmac.v
Recover.v
Session.v
Batcher.v
Effect.v
Handlers.v
HandlerSafety.v
HandlerReplies.v
ServerApi.v
ServerApiSafety.v
ServerApiReplies.v
Commands.v
CommandRouting.v
ServerAuth.v
Survey.v
Occupancy.v
Heartbeat.v
Redis.v
RedisDirectory.v
RedisHistory.v
RedisPresence.v
RedisBus.v
Config.v
Proxy.v
SdkMessage.v
SdkClient.v
SdkCalls.v
SdkRecovery.v
SdkPing.v
