(* ===== verification/Prelude.v ===== *)
(** * MessageLoop verification: overview and shared prelude

    MessageLoop is a real-time messaging server written in Go.  Clients connect
    over WebSocket, gRPC, QUIC or KCP, subscribe to channels of the form
    [namespace:topic] (wildcards [*] and [**] allowed), publish to them and
    recover what they missed.  Several nodes form a cluster that shares session
    ownership through a directory.  The parts modelled here, bottom up:

    - Topics and matching.  [Topics] is the grammar and matcher of pkg/topics
      (topics.go, namespace.go); [Matcher] is the interface of matcher.go as a
      class with laws; [CSTrie] is the concurrent trie of cstrie.go over an
      explicit heap, whose sequential operations discharge that class and whose
      interleavings are steps of small programs; [Interest] compiles a
      subscription key to a broker interest (internal/channel/interest.go).
    - Decisions.  [Policy] is the policy overlay of channel_policy.go; [Authz]
      is internal/authz (authorizer.go, identity.go) with the configuration
      check that guards it.
    - Streams.  [Stream] is publications, history pages and the ring of one
      channel; [MemoryBroker] is broker_memory.go: the sequential broker, the
      abstract broker it refines, and the system of publishers, subscribers and
      delivery workers that interleave at every lock boundary.
    - The hub.  [Hub] is the connection registry of session/hub.go, [HubSubs]
      its subscription registry, delivery record and fan-out, [Splice] the raw
      JSON splicing of the fan-out frames.
    - The node.  [NodeSubs] runs the subscription sagas of runtime/node.go and
      subscription_saga.go over the hub, a broker and a cluster store, both
      interfaces; [Recover] is runtime/recover.go over the broker's History;
      [Batcher] is runtime/broadcast_batcher.go, the accumulators between the
      broker's delivery workers and the hub's fan-out.
    - The session.  [Session] is session/session.go and takeover.go: the two-lane
      send queue, the writer goroutine, attach, detach, takeover, fence and
      close, as interleaved critical sections over heap objects.
      [Heartbeat] is session/heartbeat.go with the configuration it runs on: the
      timers, loops and callbacks of one session with explicit time.
    - Presence.  [Occupancy] is internal/occupancy and the occupancy half of
      runtime/node.go: the presence store, generations, join and leave events,
      their fan-out, snapshots and gap notices.
    - The handlers.  [Effect] is the language the handlers are written in: a
      program returns or calls another component, whose answer is arbitrary,
      with a calculus of guards on calls.  [Handlers] is session/client.go and
      namespace.go in it (every client message, connect and resume, close);
      [HandlerSafety] and [HandlerReplies] hold the theorems.
    - The Server API.  [ServerAuth] is serverapi/auth.go (admission, backend
      verification with cache, in-flight calls and breaker); [ServerApi] is
      scope.go and api_handler.go over the calls to the node, with theorems in
      [ServerApiSafety] and [ServerApiReplies]; [Commands] is
      runtime/cluster_commands.go and cluster_user_index.go, which carry its
      operations to the node that owns a session, with theorems in
      [CommandRouting]; [Survey] is internal/survey and the survey half of
      runtime/node.go.
    - The cluster.  [Epoch] is cluster/epoch.go, [Directory] the session
      directory (cluster/state.go, sim/directory.go, user_index.go), [Lease] the
      ownership protocols of runtime/cluster_state.go, cluster_resume.go and
      cluster_repair.go as programs whose directory calls interleave with any
      other node's, [Hmac] the signed commands of cluster/hmac.
    - Redis (pkg/redisbroker).  [Strconv] is the number formats; [Redis] is the
      client side: commands as an interface whose documented effect on a key space
      is a law, blocks the server runs in one step, and programs of such blocks
      among other clients' requests; [RedisDirectory] is cluster_directory.go,
      [RedisHistory] the streams of redis.go, history.go and message.go,
      [RedisPresence] presence_redis.go, [RedisBus] the live bus of pubsub.go and
      the broker's interest: the queue of subscription changes, the connection
      step by step, delivery and the catch-up after a reconnect.
    - The wire.  [Frame] is protocol/streamframe.go and pkg/transport/framing.
    - Backends and configuration.  [Proxy] is the router of internal/proxy and
      the connection pool of its service proxies; [Config] is Config.Validate of
      internal/config with the settings it resolves.
    - The Go SDK (sdks/go).  [SdkMessage] is message.go; [SdkClient] the state of
      client.go and its handlers: waiting calls, subscriptions, cursors,
      reconnects; [SdkCalls] its operations; [SdkPing] its ping loop;
      [SdkRecovery] composes it with the server's recovery and fan-out.

    How the code is represented.  A Go error result is [result], a panic or a
    blocked call is [None]; 64-bit counters are [Z] with [u64] or [i64] written
    where the code can wrap; maps are [gmap], objects compared by pointer live in
    a heap [gmap positive _].  A goroutine is a thread whose critical sections
    are single steps of a relation, so checks made outside a lock can become
    stale.  Code outside the repository is a parameter: time.ParseDuration,
    protobuf and JSON codecs, HMAC and SHA-256, globs, service discovery,
    transports, Redis.  What is
    assumed of it is stated in the theorem that needs it, and each such theorem
    has a witness with concrete functions.

    What the theorems show.
    - [Topics], [CSTrie], [Interest]: the splitter and matcher agree with their
      declarative grammar, namespaces isolate, the trie used sequentially
      on topics none of which extends another refines a set of subscriptions, an
      interest covers its key.  Two theorems
      give interleavings in which the trie livelocks or loses a subscription.
    - [Authz], [Policy]: decisions are equal to declarative ones (language
      intersection for subscribe, per-rule scans otherwise), deny-all binds
      whatever else is configured, effects are the last matching override, a
      validated configuration builds.
    - [Stream], [MemoryBroker]: refinement of an abstract broker with one log per
      channel, exactness of gap reports, per-channel delivery order under
      concurrency, payload round trip; one interleaving in which the reclaim in
      Unsubscribe reuses an offset.
    - [Hub], [HubSubs], [Splice]: the registries and the connection limit are
      exact after any sequence of calls (session IDs registered again for the same
      user included; two theorems show what a duplicate ID of another user and a
      removal in the middle of a migration do), recipients are exactly the matching
      subscribers, every recipient gets each publication in its encoding.
    - [NodeSubs]: whatever calls fail, hub and session tracking stay consistent,
      remote resumes that seed a session's channels included, and so do broker
      interest and gauge unless the error of a compensating call was dropped; a
      failed operation leaves no trace; one theorem shows the snapshot that a
      rollback leaves behind.
    - [Recover]: replays are the missed publications in order, bounded per
      request and channel; one theorem lists the cases that are misreported.
    - [Batcher]: buffers stay within their caps, nobody waits for a dead flusher,
      and order is kept while routing is stable; one theorem shows a reordering
      and a loss.
    - [Session]: bounded FIFO lanes, no accepted frame lost or signalled twice,
      no frame in a wrong encoding or over the size limit across resumes; one
      theorem shows the resume races.
    - [Epoch], [Directory], [Lease], [Hmac]: incarnations increase, a node that
      lost a session cannot write its lease or snapshot, sync and resume do what
      the directory's answers require, signed bytes determine every field, so that
      two different commands with one signature are a collision of the MAC.
    - [RedisDirectory], [RedisHistory], [RedisPresence], [RedisBus]: every directory
      operation takes effect in one step of a run among other clients, pages and
      catch-ups hold exactly what Redis retains and report what is lost under
      stated conditions, publishing extends the log of its channel only, the
      presence store refines the interface, the connection converges to the
      interest up to refused changes; theorems show where the conditions fail (a
      marker left behind, an expired stream, restarted numbers, a prune that hides
      a member, changes queued in the wrong order, dropped or refused).
    - [Frame]: frames written over any partial-write behaviour read back, and
      writing terminates on any stream with a prefix of the frames on the wire.
    - [HandlerSafety], [HandlerReplies]: whatever the other components answer, a
      session never reaches outside its namespace, every effect follows the
      authorization, rate limit and survey caps it needs, connect and resume are gated, every request is
      answered, a publish is acknowledged as it was published; some theorems
      show faults (a refused connect that spoofs a disconnect, an unchecked
      refresh).
    - [ServerAuth]: cached admissions are justified by the backend's answers in
      every interleaving and at most one caller per credential is at the backend,
      the clamp on a grant and the admission order are exact;
      two theorems show the lock-out by failed calls and the reserved key ids.
    - [ServerApiSafety], [ServerApiReplies]: every call of an RPC is within the
      caller's capabilities, namespaces and channel rules, foreign sessions look
      like missing ones, results are exact; one theorem shows a history cap that
      leaks from one destination channel to the next.
    - [Commands], [CommandRouting]: a command runs on exactly the incarnation
      that owns the session, its values survive their text form, success is
      reported exactly, takeovers respect lease versions, users expand to exactly
      their sessions.
    - [Survey]: the collected answers are exact under every interleaving and the
      client's result is bounded; one theorem shows an older reply winning.
    - [Occupancy]: a node applies the generations of each channel and session in
      increasing order whatever the order and repetition of the events, and a join or leave
      announces exactly the change of the member set.
    - [Heartbeat]: every disconnect is justified by an expired ping or idle
      timeout, deadlines and leases outlive them; two theorems show a resumed
      session that inherits a deadline and pings that starve it.
    - [Config]: a validated configuration is safe to start with, validating twice
      changes nothing; two theorems show the bind the loopback gate misses and the
      batch size whose double wraps.
    - [Proxy]: routing is first match over what was registered, no pooled
      connection is lost or closed twice; two theorems show what Close misses.
    - [SdkMessage], [SdkClient], [SdkCalls], [SdkPing]: messages survive the wire,
      every call is settled at most once and with a reply of its own kind,
      acknowledged calls have taken effect, a Connected frame resynchronises the
      subscriptions, reconnecting is bounded, only a half-open connection is
      closed; some theorems show faults (a mislabelled payload panics, ephemeral
      flags are forgotten, a manual reconnect loses the pings).
    - [SdkRecovery]: consecutive reconnects, on the same node or with a session's
      snapshot on another, deliver the publications after their start each once
      and in order when no gap is reported; one theorem shows a transient publication rewinding the
      cursor.

    Fuel and bounds.  Frame.write_loop has the slice length as fuel (every
    successful Write takes a byte, otherwise the code stops); the trie's retry
    loops take a bound, and in the refinement theorem every call returns on its
    first attempt, whatever the bound; Session.root has the number of sessions, more
    than any chain of delegates.  History statements assume fewer than 2^64
    publications per channel where they say so.

    Not modelled.  Projection repair and the simulator's bus; the Redis server and
    the go-redis client, whose documented behaviour is a parameter, and of
    pkg/redisbroker the cluster command bus, the query store, listings by SCAN and
    the waits for acknowledgements; the requests to backends (HTTP, gRPC and their conversions) and the library backends are
    written with; the parsing of the configuration file; metrics; transports and
    the SDKs' transports; SDKs in other languages, command-line programs and
    examples.  In the parts that are modelled, logging and metrics are left
    out. *)

From Stdlib Require Export Ascii ZArith Lia.
From stdpp Require Export base numbers strings pretty gmap list.

(** stdpp's options, made explicit so that every file behaves the same. *)
#[export] Set Default Goal Selector "!".

(** ** Scope and notations *)

Declare Scope ml_scope.
Delimit Scope ml_scope with ml.

(** The result of a Go call that returns [(value, error)]. *)
Inductive result (E A : Type) : Type :=
| Ok (a : A)
| Err (e : E).
Arguments Ok {E A} a.
Arguments Err {E A} e.

Definition result_bind {E A B} (m : result E A) (k : A → result E B) : result E B :=
  match m with Ok a => k a | Err e => Err e end.

Notation "'try' x ':=' m 'in' k" := (result_bind m (λ x, k))
  (at level 10, x name, m at level 100, k at level 200,
   format "'try'  x  ':='  m  'in'  '//' k") : ml_scope.

Definition is_ok {E A} (r : result E A) : bool :=
  match r with Ok _ => true | Err _ => false end.

(** ** Machine integers *)

(** Go's [uint64] is a [Z] kept in [0, 2^64); arithmetic wraps explicitly. *)
Definition u64_modulus : Z := 2 ^ 64.
Definition u64 (z : Z) : Z := z mod u64_modulus.
Definition is_u64 (z : Z) : Prop := (0 ≤ z < u64_modulus)%Z.

(** Go's [int64] (and [int]): two's complement. *)
Definition i64 (z : Z) : Z := ((z + 2 ^ 63) mod 2 ^ 64 - 2 ^ 63)%Z.

Lemma i64_small z : (- 2 ^ 63 ≤ z < 2 ^ 63)%Z → i64 z = z.
Proof. intros Hz. unfold i64. rewrite Z.mod_small by lia. lia. Qed.

(** ** Automation *)

(** Split the first boolean connective or comparison that occurs in a
    hypothesis [_ = true] / [_ = false]. *)
Ltac bool_hyps :=
  repeat match goal with
  | H : (_ && _)%bool = true |- _ => apply andb_true_iff in H; destruct H
  | H : (_ || _)%bool = false |- _ => apply orb_false_iff in H; destruct H
  | H : negb _ = true |- _ => apply negb_true_iff in H
  | H : negb _ = false |- _ => apply negb_false_iff in H
  | H : bool_decide _ = true |- _ => apply bool_decide_eq_true in H
  | H : bool_decide _ = false |- _ => apply bool_decide_eq_false in H
  | H : Z.eqb _ _ = true |- _ => apply Z.eqb_eq in H
  | H : Z.eqb _ _ = false |- _ => apply Z.eqb_neq in H
  | H : Z.ltb _ _ = true |- _ => apply Z.ltb_lt in H
  | H : Z.ltb _ _ = false |- _ => apply Z.ltb_ge in H
  | H : Z.leb _ _ = true |- _ => apply Z.leb_le in H
  | H : Z.leb _ _ = false |- _ => apply Z.leb_gt in H
  end.

(** Destruct every [match]/[if] scrutinee of the goal and clean up. *)
Ltac crush_match := repeat (case_match || case_bool_decide || case_decide); simplify_eq/=.

Create HintDb ml.
Create Rewrite HintDb ml_str.

(** ** Integers *)

Lemma u64_range z : is_u64 (u64 z).
Proof. apply Z.mod_pos_bound. unfold u64_modulus. lia. Qed.

Lemma u64_small z : is_u64 z → u64 z = z.
Proof. intros ?. by apply Z.mod_small. Qed.

#[export] Hint Resolve u64_range : ml.

(** ** Strings *)

Lemma str_app_cons x (a b : string) : String x a +:+ b = String x (a +:+ b).
Proof. done. Qed.

Lemma str_app_nil_l (a : string) : "" +:+ a = a.
Proof. done. Qed.

Lemma str_app_assoc (a b c : string) : (a +:+ b) +:+ c = a +:+ (b +:+ c).
Proof. induction a as [|x a IH]; [done|]. by rewrite !str_app_cons, IH. Qed.

Lemma str_app_nil_r (a : string) : a +:+ "" = a.
Proof. induction a as [|x a IH]; [done|]. by rewrite str_app_cons, IH. Qed.

Lemma str_length_app (a b : string) :
  String.length (a +:+ b) = String.length a + String.length b.
Proof. induction a as [|x a IH]; [done|]. rewrite str_app_cons; simpl. by rewrite IH. Qed.

(** [has_char c s]: the byte [c] occurs in [s] (Go's [strings.Contains] with a
    one-byte needle). *)
Fixpoint has_char (c : ascii) (s : string) : bool :=
  match s with
  | EmptyString => false
  | String x s => bool_decide (x = c) || has_char c s
  end.

Lemma has_char_app c a b : has_char c (a +:+ b) = has_char c a || has_char c b.
Proof.
  induction a as [|x a IH]; [done|]. rewrite str_app_cons; simpl.
  by rewrite IH, orb_assoc.
Qed.

(** Two strings that agree up to the first occurrence of a separator byte. *)
Lemma str_sep_inj c (a b a' b' : string) :
  has_char c a = false → has_char c a' = false →
  a +:+ String c b = a' +:+ String c b' → a = a' ∧ b = b'.
Proof.
  revert a'. induction a as [|x a IH]; intros [|x' a'] Ha Ha' Heq;
    rewrite ?str_app_cons, ?str_app_nil_l in Heq; simpl in *; bool_hyps; simplify_eq; try done.
  edestruct IH as [-> ->]; eauto.
Qed.

(** Two strings of equal length that start equal concatenations agree. *)
Lemma str_app_inj_len (a b a' b' : string) :
  String.length a = String.length a' →
  a +:+ b = a' +:+ b' → a = a' ∧ b = b'.
Proof.
  revert a'. induction a as [|x a IH]; intros [|x' a'] Hl Heq;
    rewrite ?str_app_cons, ?str_app_nil_l in Heq; simpl in *; simplify_eq; try done.
  edestruct IH as [-> ->]; eauto.
Qed.

(** The part after the last separator is determined. *)
Lemma str_last_sep_inj c (a b a' b' : string) :
  has_char c b = false → has_char c b' = false →
  a +:+ String c b = a' +:+ String c b' → a = a' ∧ b = b'.
Proof.
  revert a'. induction a as [|x a IH]; intros [|x' a'] Hb Hb' Heq;
    rewrite ?str_app_cons, ?str_app_nil_l in Heq; simplify_eq.
  - done.
  - by rewrite has_char_app in Hb; simpl in Hb; rewrite bool_decide_eq_true_2, orb_true_r in Hb.
  - by rewrite has_char_app in Hb'; simpl in Hb'; rewrite bool_decide_eq_true_2, orb_true_r in Hb'.
  - destruct (IH a') as [-> ->]; done.
Qed.

(** Decimal numerals consist of digits. *)
Definition is_digit (c : ascii) : bool := (48 <=? N_of_ascii c)%N && (N_of_ascii c <=? 57)%N.

Lemma pretty_N_no_char c (n : N) : is_digit c = false → has_char c (pretty n) = false.
Proof.
  intros Hc.
  assert (∀ x s, has_char c s = false → has_char c (pretty_N_go x s) = false) as Hgo.
  { intros x. induction (N.lt_wf_0 x) as [x _ IH]. intros s Hs.
    destruct (decide (0 < x)%N) as [Hx|Hx].
    - rewrite pretty_N_go_step by done. apply IH; [apply N.div_lt; lia|]. simpl.
      rewrite Hs, orb_false_r. apply bool_decide_eq_false. intros <-. revert Hc.
      unfold pretty_N_char. by repeat case_match.
    - assert (x = 0%N) as -> by lia. by rewrite pretty_N_go_0. }
  unfold pretty, pretty_N. case_decide; [|by apply Hgo]. simpl. rewrite orb_false_r.
  apply bool_decide_eq_false. by intros <-.
Qed.

#[export] Hint Rewrite str_app_assoc str_app_nil_r str_length_app has_char_app : ml_str.

(** ** Lists *)

Lemma Forall_forallb {A} (p : A → bool) (l : list A) :
  forallb p l = true ↔ Forall (λ x, p x = true) l.
Proof. rewrite forallb_forall, <-List.Forall_forall. done. Qed.

Lemma last_snoc_inv {A} (l : list A) : l = [] ∨ ∃ k x, l = k ++ [x].
Proof. destruct l as [|x k _] using rev_ind; eauto. Qed.

(** A pointwise boolean test on two lists of equal length. *)
Lemma forallb_zip_Forall2 {A B} (f : A → B → bool) (l : list A) (k : list B) :
  length l = length k →
  forallb (λ x, f x.1 x.2) (zip l k) = true ↔ Forall2 (λ x y, f x y = true) l k.
Proof.
  revert k. induction l as [|x l IH]; intros [|y k] Hl; simplify_eq/=; [naive_solver|].
  rewrite andb_true_iff, IH, Forall2_cons by done. done.
Qed.

Lemma existsb_false_Forall {A} (f : A → bool) (l : list A) :
  existsb f l = false ↔ Forall (λ x, f x = false) l.
Proof.
  induction l as [|x l IH]; simpl; [naive_solver|].
  rewrite orb_false_iff, IH, Forall_cons. done.
Qed.

Lemma forall_elem_cons {A} (P : A → Prop) x (l : list A) :
  (∀ y, y ∈ x :: l → P y) ↔ P x ∧ ∀ y, y ∈ l → P y.
Proof. setoid_rewrite elem_of_cons. naive_solver. Qed.

Lemma exists_elem_cons {A} (P : A → Prop) x (l : list A) :
  (∃ y, y ∈ x :: l ∧ P y) ↔ P x ∨ ∃ y, y ∈ l ∧ P y.
Proof. setoid_rewrite elem_of_cons. naive_solver. Qed.

Lemma NoDup_omap_inj {A B} (f : A → option B) (l : list A) :
  (∀ x1 x2 y, x1 ∈ l → x2 ∈ l → f x1 = Some y → f x2 = Some y → x1 = x2) →
  NoDup l → NoDup (omap f l).
Proof.
  intros Hinj Hnd. induction Hnd as [|x l Hx Hnd IH]; [constructor|]. simpl.
  assert (NoDup (omap f l)) as IH'.
  { apply IH. intros x1 x2 y ??. apply Hinj; by right. }
  destruct (f x) as [y|] eqn:Hf; [|done]. constructor; [|done].
  intros (x' & Hx' & Hf')%list_elem_of_omap. apply Hx.
  rewrite (Hinj x x' y); [done|by left|by right|done..].
Qed.

Lemma NoDup_fmap_filter {A B} (f : A → B) (Q : A → Prop) `{!∀ x, Decision (Q x)} (l : list A) :
  NoDup (f <$> l) → NoDup (f <$> filter Q l).
Proof. intros Hl. eapply sublist_NoDup; [exact Hl|]. apply fmap_sublist, sublist_filter. Qed.

Lemma length_omap_le {A B} (f : A → option B) (l : list A) : length (omap f l) ≤ length l.
Proof. induction l as [|x l IH]; [done|]. simpl. destruct (f x); simpl; [by apply le_n_S|by apply le_S]. Qed.

(** ** hash/fnv *)

(** fnv.New64a: xor the byte, multiply by the FNV prime modulo 2^64. *)
Fixpoint fnv64a (h : Z) (s : string) : Z :=
  match s with
  | EmptyString => h
  | String c s' => fnv64a (u64 (Z.lxor h (Z.of_N (N_of_ascii c)) * 1099511628211)) s'
  end.

Definition fnv_sum64a (s : string) : Z := fnv64a 14695981039346656037 s.
