(* ===== verification/Topics.v ===== *)
(** * Topics: the topic and pattern grammar (pkg/topics)

    Models [matcher.go] (segment splitting, structural validation, pattern
    matching) and [namespace.go] (the namespaced channel grammar).  Go strings
    are byte sequences, modelled by [string]. *)

From S2P Require Import Prelude.

Module Topics.

(** ** Constants of matcher.go and namespace.go *)

Definition delimiter : ascii := "."%char.
Definition NSDelimiter : ascii := ":"%char.
Definition wildcard : string := "*".
Definition multiWildcard : string := "**".
Definition namespaceMaxLen : nat := 32.

Inductive TopicError := ErrBadTopic | ErrBadSubscriber | ErrBadNamespace | ErrBadChannel.

Definition is_delim (c : ascii) : bool :=
  bool_decide (c = delimiter) || bool_decide (c = NSDelimiter).

(** The loop of [SplitSegments]: [cur] is [s[start:i]], the rest is [s[i:]]. *)
Fixpoint split_from (cur s : string) : list string :=
  match s with
  | EmptyString => [cur]
  | String c s' =>
      if is_delim c then cur :: split_from "" s'
      else split_from (cur +:+ String c "") s'
  end.

Definition SplitSegments (s : string) : list string := split_from "" s.

Definition IsWildcard (ch : string) : bool := has_char "*"%char ch.

(** Go's [strings.Contains(s, needle)]. *)
Fixpoint str_contains (needle s : string) : bool :=
  String.prefix needle s ||
  match s with
  | EmptyString => false
  | String _ s' => str_contains needle s'
  end.

(** The loop body of [validTopic]; [rest = []] is the test [i == last]. *)
Fixpoint valid_constituents (segs : list string) : bool :=
  match segs with
  | [] => true
  | constituent :: rest =>
      if bool_decide (constituent = "") then false
      else if str_contains multiWildcard constituent &&
              (bool_decide (rest ≠ []) || bool_decide (constituent ≠ multiWildcard))
      then false
      else valid_constituents rest
  end.

Definition validTopic (topic : string) : bool :=
  valid_constituents (SplitSegments topic).

Definition ValidateTopic (topic : string) : result TopicError unit :=
  if validTopic topic then Ok tt else Err ErrBadTopic.

(** The per-segment test of the last loop of [matchCriteria]. *)
Definition constituent_matches (t p : string) : bool :=
  bool_decide (t = p) || bool_decide (p = wildcard).

Definition matchCriteria (pattern topic : string) : bool :=
  let patternConstituents := SplitSegments pattern in
  let topicConstituents := SplitSegments topic in
  if existsb (λ c, bool_decide (c = "")) topicConstituents then false
  else
    let multi := bool_decide (last patternConstituents = Some multiWildcard) in
    let pc := if multi then take (length patternConstituents - 1) patternConstituents
              else patternConstituents in
    if multi && bool_decide (length topicConstituents < length pc) then false
    else
      let tc := if multi then take (length pc) topicConstituents
                else topicConstituents in
      if negb (bool_decide (length pc = length tc)) then false
      else forallb (λ tp, constituent_matches tp.1 tp.2) (zip tc pc).

Definition Match (pattern topic : string) : bool := matchCriteria pattern topic.

(** ** namespace.go *)

(** [strings.Index] followed by the two slices: cut at the first [c]. *)
Fixpoint cut (c : ascii) (s : string) : option (string * string) :=
  match s with
  | EmptyString => None
  | String x s' =>
      if bool_decide (x = c) then Some ("", s')
      else match cut c s' with
           | Some (a, b) => Some (String x a, b)
           | None => None
           end
  end.

Definition splitNamespace (channel : string) : option (string * string) :=
  match cut NSDelimiter channel with
  | None => None
  | Some (ns, topic) => if has_char NSDelimiter topic then None else Some (ns, topic)
  end.

Definition is_lower_or_digit (c : ascii) : bool :=
  let n := N_of_ascii c in
  ((97 <=? n)%N && (n <=? 122)%N) || ((48 <=? n)%N && (n <=? 57)%N).

(** The loop of [validNamespace]; [first] is [i == 0], an empty rest is
    [i == len(ns)-1]. *)
Fixpoint ns_chars (first : bool) (s : string) : bool :=
  match s with
  | EmptyString => true
  | String c s' =>
      if is_lower_or_digit c then ns_chars false s'
      else if bool_decide (c = "-"%char) then
        if first || bool_decide (s' = "") then false else ns_chars false s'
      else false
  end.

Definition validNamespace (ns : string) : bool :=
  if bool_decide (String.length ns = 0) || bool_decide (namespaceMaxLen < String.length ns)
  then false
  else ns_chars true ns.

Definition ValidateNamespace (ns : string) : result TopicError unit :=
  if validNamespace ns then Ok tt else Err ErrBadNamespace.

Definition ValidateChannel (channel : string) : result TopicError unit :=
  match splitNamespace channel with
  | Some (ns, topic) =>
      if negb (validNamespace ns) || negb (validTopic topic) then Err ErrBadChannel else Ok tt
  | None => Err ErrBadChannel
  end.

Definition NamespaceOf (channel : string) : result TopicError string :=
  match splitNamespace channel with
  | Some (ns, _) => if validNamespace ns then Ok ns else Err ErrBadChannel
  | None => Err ErrBadChannel
  end.

(** ** Declarative specifications *)

(** [joined segs s]: [s] is [segs] separated by single delimiter bytes. *)
Inductive joined : list string → string → Prop :=
| joined_one x : joined [x] x
| joined_cons x d segs s :
    is_delim d = true → joined segs s → joined (x :: segs) (x +:+ String d s).

Fixpoint delim_free (s : string) : bool :=
  match s with
  | EmptyString => true
  | String c s' => negb (is_delim c) && delim_free s'
  end.

(** The segment-wise matching relation documented on the [Matcher] interface:
    "*" stands for one segment, a final "**" for any number of segments. *)
Inductive seg_match : list string → list string → Prop :=
| sm_nil : seg_match [] []
| sm_multi ts : seg_match [multiWildcard] ts
| sm_seg p t ps ts :
    p = t ∨ p = wildcard → seg_match ps ts → seg_match (p :: ps) (t :: ts).

(** The same relation as an executable test, by recursion on the pattern. *)
Fixpoint seg_matchb (ps ts : list string) : bool :=
  match ps with
  | [] => bool_decide (ts = [])
  | p :: ps' =>
      (bool_decide (p = multiWildcard) && bool_decide (ps' = [])) ||
      match ts with
      | [] => false
      | t :: ts' => constituent_matches t p && seg_matchb ps' ts'
      end
  end.

(** ** Segment splitting *)

Lemma delim_free_app a b : delim_free (a +:+ b) = delim_free a && delim_free b.
Proof.
  induction a as [|x a IH]; [done|]. rewrite str_app_cons; simpl.
  by rewrite IH, andb_assoc.
Qed.

Lemma split_from_ne cur s : split_from cur s ≠ [].
Proof. revert cur. induction s as [|c s IH]; intros cur; simpl; [done|]. by case_match. Qed.

Lemma SplitSegments_ne s : SplitSegments s ≠ [].
Proof. apply split_from_ne. Qed.

Lemma split_from_free_app cur x :
  delim_free x = true → split_from cur x = [cur +:+ x].
Proof.
  revert cur. induction x as [|c x IH]; intros cur Hf; simpl in *.
  { by rewrite str_app_nil_r. }
  bool_hyps. rewrite H, IH by done. by rewrite str_app_assoc.
Qed.

Lemma split_from_free_delim cur x d s :
  delim_free x = true → is_delim d = true →
  split_from cur (x +:+ String d s) = (cur +:+ x) :: SplitSegments s.
Proof.
  revert cur. induction x as [|c x IH]; intros cur Hf Hd.
  { rewrite str_app_nil_l; simpl. by rewrite Hd, str_app_nil_r. }
  rewrite str_app_cons; simpl in *. bool_hyps.
  rewrite H, IH by done. by rewrite str_app_assoc.
Qed.

Lemma SplitSegments_joined segs s :
  joined segs s → forallb delim_free segs = true → SplitSegments s = segs.
Proof.
  induction 1 as [x|x d segs s Hd Hj IH]; simpl; intros Hf; bool_hyps.
  - unfold SplitSegments. by rewrite split_from_free_app.
  - unfold SplitSegments. rewrite split_from_free_delim by done. by rewrite IH.
Qed.

Lemma split_from_spec cur s :
  delim_free cur = true →
  joined (split_from cur s) (cur +:+ s) ∧ forallb delim_free (split_from cur s) = true.
Proof.
  revert cur. induction s as [|c s IH]; intros cur Hc; simpl.
  { rewrite str_app_nil_r, Hc. split; [constructor|done]. }
  destruct (is_delim c) eqn:Hd.
  - destruct (IH "" eq_refl) as [Hj Hf]. simpl. rewrite Hc, Hf.
    split; [by apply joined_cons|done].
  - destruct (IH (cur +:+ String c "")) as [Hj Hf].
    { rewrite delim_free_app, Hc. simpl. by rewrite Hd. }
    rewrite str_app_assoc in Hj. by split.
Qed.

Lemma SplitSegments_spec s :
  joined (SplitSegments s) s ∧ forallb delim_free (SplitSegments s) = true.
Proof. apply (split_from_spec "" s eq_refl). Qed.
(** ** Pattern matching *)

Lemma constituent_matches_spec t p :
  constituent_matches t p = true ↔ p = t ∨ p = wildcard.
Proof.
  unfold constituent_matches.
  rewrite orb_true_iff, !bool_decide_eq_true. naive_solver.
Qed.

Lemma seg_matchb_spec ps ts : seg_matchb ps ts = true ↔ seg_match ps ts.
Proof.
  revert ts. induction ps as [|p ps IH]; intros ts; simpl.
  { rewrite bool_decide_eq_true. split; [intros ->; constructor|by inversion 1]. }
  rewrite orb_true_iff, andb_true_iff, !bool_decide_eq_true. split.
  - intros [[-> ->]|Hm]; [constructor|]. destruct ts as [|t ts]; [done|].
    apply andb_true_iff in Hm as [Hc Hm]. apply constituent_matches_spec in Hc.
    constructor; [done|]. by apply IH.
  - inversion 1; subst; [by left|]. right.
    rewrite andb_true_iff, constituent_matches_spec, IH. done.
Qed.

Lemma seg_match_multi k ts :
  seg_match (k ++ [multiWildcard]) ts ↔
  length k ≤ length ts ∧
  Forall2 (λ t p, constituent_matches t p = true) (take (length k) ts) k.
Proof.
  revert ts. induction k as [|p k IH]; intros ts; simpl.
  { split; [intros _; split; [lia|constructor]|constructor]. }
  split.
  - inversion 1 as [|? Heq|? t ? ts' Hp Hm]; simplify_eq.
    { by destruct k. }
    apply IH in Hm as [Hl Hf]. simpl. split; [lia|]. constructor; [|done].
    by apply constituent_matches_spec.
  - intros [Hl Hf]. destruct ts as [|t ts]; simpl in *; [lia|].
    apply Forall2_cons in Hf as [Hc Hf]. constructor; [by apply constituent_matches_spec|].
    apply IH. split; [lia|done].
Qed.

Lemma seg_match_plain ps ts :
  last ps ≠ Some multiWildcard →
  seg_match ps ts ↔ Forall2 (λ t p, constituent_matches t p = true) ts ps.
Proof.
  revert ts. induction ps as [|p ps IH]; intros ts Hl.
  { split; inversion 1; constructor. }
  assert (ps ≠ [] → last ps ≠ Some multiWildcard) as Hl'.
  { intros Hne. destruct ps; [done|]. by rewrite last_cons_cons in Hl. }
  split.
  - inversion 1 as [|?|? t ? ts' Hp Hm]; simplify_eq/=; try done.
    constructor; [by apply constituent_matches_spec|].
    destruct (decide (ps = [])) as [->|Hne]; [inversion Hm; constructor|].
    apply IH; auto.
  - inversion 1 as [|t ? ts' ? Hc Hf]; simplify_eq.
    constructor; [by apply constituent_matches_spec|].
    destruct (decide (ps = [])) as [->|Hne]; [inversion Hf; constructor|].
    apply IH; auto.
Qed.

Lemma no_empty_constituent (l : list string) :
  existsb (λ c, bool_decide (c = "")) l = false ↔ Forall (λ c, c ≠ "") l.
Proof.
  rewrite existsb_false_Forall. apply Forall_iff. intros x.
  by rewrite bool_decide_eq_false.
Qed.

Lemma matchCriteria_segs pattern topic :
  matchCriteria pattern topic = true ↔
  Forall (λ c, c ≠ "") (SplitSegments topic) ∧
  seg_match (SplitSegments pattern) (SplitSegments topic).
Proof.
  unfold matchCriteria.
  generalize (SplitSegments pattern) as ps, (SplitSegments topic) as ts. intros ps ts.
  destruct (existsb _ ts) eqn:He.
  { split; [done|]. intros [Hf%no_empty_constituent _]. congruence. }
  apply no_empty_constituent in He.
  destruct (bool_decide (last ps = _)) eqn:Hm; bool_hyps; simpl.
  - apply last_Some in Hm as [k ->]. rewrite length_app, Nat.add_sub, take_app_length.
    rewrite seg_match_multi. case_bool_decide.
    { split; [done|]. intros (_&?&_). lia. }
    assert (length (take (length k) ts) = length k) as Hl by (rewrite length_take; lia).
    rewrite Hl, (bool_decide_eq_true_2 (length k = length k)) by done. simpl.
    rewrite forallb_zip_Forall2 by done. intuition lia.
  - rewrite seg_match_plain by done. case_bool_decide as Hl; simpl.
    + rewrite forallb_zip_Forall2 by done. naive_solver.
    + split; [done|]. intros [_ Hf%Forall2_length]. congruence.
Qed.

(** ** Structural validity *)

Lemma valid_constituents_spec segs :
  valid_constituents segs = true ↔
  Forall (λ c, c ≠ "") segs ∧
  ∀ i c, segs !! i = Some c → str_contains multiWildcard c = true →
    c = multiWildcard ∧ S i = length segs.
Proof.
  induction segs as [|c segs IH]; simpl; [by split; [split|]|].
  case_bool_decide as Hc; subst.
  { split; [done|]. rewrite Forall_cons. naive_solver. }
  destruct (str_contains multiWildcard c && _) eqn:Hb; bool_hyps.
  - split; [done|]. intros [_ Hall]. destruct (Hall 0 c eq_refl) as [-> Hlen]; [done|].
    apply orb_true_iff in H0 as [?|?]; bool_hyps; [|done].
    destruct segs; simpl in *; [done|lia].
  - rewrite IH, Forall_cons. split.
    + intros [Hf Hall]. split; [done|]. intros [|i] c' Hi Hm; simplify_eq/=.
      * rewrite Hm in Hb. simpl in Hb. bool_hyps.
        destruct segs; [|exfalso; naive_solver]. split; [|done].
        destruct (decide (c' = multiWildcard)); naive_solver.
      * destruct (Hall _ _ Hi Hm). auto.
    + intros [[_ Hf] Hall]. split; [done|]. intros i c' Hi Hm.
      destruct (Hall (S i) c' Hi Hm). auto.
Qed.

(** ** The namespaced channel grammar *)

Lemma cut_spec c s a b :
  cut c s = Some (a, b) ↔ s = a +:+ String c b ∧ has_char c a = false.
Proof.
  revert a. induction s as [|x s IH]; intros a; simpl.
  { split; [done|]. intros [Ha _]. by destruct a. }
  case_bool_decide as Hx; subst.
  - split; [intros ?; by simplify_eq|]. intros [Ha Hf].
    destruct a as [|y a]; rewrite ?str_app_cons, ?str_app_nil_l in Ha; simplify_eq/=; [done|].
    by rewrite bool_decide_eq_true_2 in Hf.
  - destruct (cut c s) as [[a' b']|] eqn:Hcut.
    + split.
      * intros ?; simplify_eq. destruct (proj1 (IH a') eq_refl) as [-> Hf].
        simpl. by rewrite bool_decide_eq_false_2.
      * intros [Ha Hf]. destruct a as [|y a];
          rewrite ?str_app_cons, ?str_app_nil_l in Ha; simplify_eq/=; bool_hyps.
        assert (Some (a', b') = Some (a, b)) as [= -> ->] by (by apply IH). done.
    + split; [done|]. intros [Ha Hf]. destruct a as [|y a];
        rewrite ?str_app_cons, ?str_app_nil_l in Ha; simplify_eq/=; bool_hyps.
      assert (None = Some (a, b)) by (by apply IH). done.
Qed.

Lemma splitNamespace_spec ch ns topic :
  splitNamespace ch = Some (ns, topic) ↔
  ch = ns +:+ String NSDelimiter topic ∧
  has_char NSDelimiter ns = false ∧ has_char NSDelimiter topic = false.
Proof.
  unfold splitNamespace. split.
  - destruct (cut _ _) as [[a b]|] eqn:Hc; [|done]. apply cut_spec in Hc as [-> Ha].
    case_match; intros; by simplify_eq.
  - intros (Hch & Hns & Ht). rewrite (proj2 (cut_spec NSDelimiter ch ns topic)) by done.
    by rewrite Ht.
Qed.

Lemma ns_chars_class first s :
  ns_chars first s = true → delim_free s = true ∧ has_char "*" s = false ∧ has_char "000" s = false.
Proof.
  revert first. induction s as [|c s IH]; intros first; simpl; [done|].
  destruct (is_lower_or_digit c) eqn:Hc.
  - intros Hs%IH. destruct Hs as (-> & -> & ->). unfold is_delim.
    rewrite !bool_decide_eq_false_2 by (intros ->; discriminate Hc). done.
  - case_bool_decide as Hd; [|done]. case_match; [done|].
    intros Hs%IH. subst c. destruct Hs as (-> & -> & ->). done.
Qed.

Lemma validNamespace_class ns :
  validNamespace ns = true →
  ns ≠ "" ∧ delim_free ns = true ∧ has_char "*" ns = false ∧ has_char "000" ns = false.
Proof.
  unfold validNamespace. case_match eqn:He; [done|]. intros Hc%ns_chars_class.
  bool_hyps. split; [|done]. by intros ->.
Qed.

Lemma SplitSegments_ns ns topic :
  delim_free ns = true →
  SplitSegments (ns +:+ String NSDelimiter topic) = ns :: SplitSegments topic.
Proof. intros ?. unfold SplitSegments at 1. by rewrite split_from_free_delim. Qed.

Lemma NamespaceOf_spec ch ns :
  NamespaceOf ch = Ok ns ↔
  ∃ topic, ch = ns +:+ String NSDelimiter topic ∧
    has_char NSDelimiter topic = false ∧ validNamespace ns = true.
Proof.
  unfold NamespaceOf. split.
  - destruct (splitNamespace ch) as [[ns' topic]|] eqn:Hs; [|done].
    case_match; [|done]. intros ?; simplify_eq.
    apply splitNamespace_spec in Hs as (-> & _ & Ht). eauto.
  - intros (topic & -> & Ht & Hv).
    rewrite (proj2 (splitNamespace_spec _ ns topic)); [by rewrite Hv|].
    split_and!; [done| |done]. apply validNamespace_class in Hv as (_ & Hd & _).
    clear Ht. induction ns as [|c ns IH]; simpl in *; [done|]. bool_hyps.
    rewrite IH by done. unfold is_delim in H. bool_hyps.
    by rewrite bool_decide_eq_false_2.
Qed.

Lemma NamespaceOf_segments ch ns :
  NamespaceOf ch = Ok ns →
  ∃ topic, SplitSegments ch = ns :: SplitSegments topic ∧ ch = ns +:+ String NSDelimiter topic.
Proof.
  intros (topic & -> & _ & Hv)%NamespaceOf_spec. exists topic.
  apply validNamespace_class in Hv as (_ & Hd & _). by rewrite SplitSegments_ns.
Qed.

(** ** Properties *)

(** [SplitSegments s] is the one list of delimiter-free segments from
    which [s] is obtained by putting single "." or ":" bytes between them; in
    particular explicit empty segments are kept and no byte is lost. *)
Theorem SplitSegments_correct s segs :
  SplitSegments s = segs ↔ joined segs s ∧ forallb delim_free segs = true.
Proof.
  split; [intros <-; apply SplitSegments_spec|].
  intros [??]. by apply SplitSegments_joined.
Qed.

(** C11: pattern matching and structural validation agree with the documented
    language: [Match] holds exactly when the topic has no empty segment and its
    segments match the pattern's segment by segment ("*" one segment, a final
    "**" any remainder), and [ValidateTopic] accepts exactly the topics without
    empty segments whose "**" occurs only as the whole final segment. *)
Theorem Match_ValidateTopic_correct pattern topic :
  (Match pattern topic = true ↔
     Forall (λ c, c ≠ "") (SplitSegments topic) ∧
     seg_match (SplitSegments pattern) (SplitSegments topic)) ∧
  (ValidateTopic topic = Ok tt ↔
     Forall (λ c, c ≠ "") (SplitSegments topic) ∧
     ∀ i c, SplitSegments topic !! i = Some c → str_contains multiWildcard c = true →
       c = multiWildcard ∧ S i = length (SplitSegments topic)).
Proof.
  split; [apply matchCriteria_segs|].
  rewrite <-valid_constituents_spec. unfold ValidateTopic, validTopic.
  by destruct (valid_constituents _).
Qed.

(** Namespaces isolate subscriptions: a pattern of one namespace never
    matches a channel of another one, whatever wildcards it carries. *)
Theorem namespace_isolation pattern channel ns1 ns2 :
  NamespaceOf pattern = Ok ns1 → NamespaceOf channel = Ok ns2 →
  Match pattern channel = true → ns1 = ns2.
Proof.
  intros Hp Hc [_ Hm]%matchCriteria_segs.
  assert (validNamespace ns1 = true) as (_ & _ & Hw & _)%validNamespace_class
    by (apply NamespaceOf_spec in Hp; naive_solver).
  apply NamespaceOf_segments in Hp as (tp & Hp & _), Hc as (tc & Hc & _).
  rewrite Hp, Hc in Hm. inversion Hm as [|? Hns Htp|? ? ? ? Hseg]; subst.
  { by destruct (SplitSegments_ne tp). }
  by destruct Hseg as [?| ->].
Qed.

Lemma namespace_isolation_witness :
  NamespaceOf "acme:chat.*" = Ok "acme" ∧ NamespaceOf "acme:chat.room1" = Ok "acme" ∧
  Match "acme:chat.*" "acme:chat.room1" = true ∧ "acme" = "acme".
Proof.
  split_and!; [vm_compute; reflexivity..|].
  apply (namespace_isolation "acme:chat.*" "acme:chat.room1"); vm_compute; reflexivity.
Defined.

End Topics.
