(* ===== verification/Matcher.v ===== *)
(** * Matcher: the interface of pkg/topics/matcher.go

    [Matcher] is the Go interface with its three methods as state-passing
    functions ([None]: the call does not return).  [MatcherLaws F] is what the
    clients (the memory broker and the hub) rely on: for topics whose segment
    lists lie in [F], every call returns and the matcher behaves like a set of
    registrations.  The clients register only topics accepted by
    [CompileInterest], a prefix-free family ([trailing_wildcard]). *)

From S2P Require Import Prelude Topics.
Import Topics.

Module Matcher.

Class Matcher (Sub M : Type) := {
  m_new : M;
  m_Subscribe : string → Sub → M → option (result TopicError unit * M);
  m_Unsubscribe : string → Sub → M → option M;
  m_Lookup : string → M → option (list Sub);
}.

Class MatcherLaws (F : list string → Prop) (Sub M : Type) `{Countable Sub, Matcher Sub M} := {
  m_repr : M → gset (list string * Sub) → Prop;
  m_new_repr : m_repr m_new ∅;
  m_Subscribe_bad m topic s :
    validTopic topic = false → m_Subscribe topic s m = Some (Err ErrBadTopic, m);
  m_Subscribe_repr m R topic s :
    m_repr m R → validTopic topic = true → F (SplitSegments topic) →
    ∃ m', m_Subscribe topic s m = Some (Ok tt, m') ∧
          m_repr m' ({[ (SplitSegments topic, s) ]} ∪ R);
  m_Unsubscribe_repr m R topic s :
    m_repr m R →
    ∃ m', m_Unsubscribe topic s m = Some m' ∧ m_repr m' (R ∖ {[ (SplitSegments topic, s) ]});
  m_Lookup_repr m R topic :
    m_repr m R →
    ∃ S, m_Lookup topic m = Some S ∧ NoDup S ∧
      ∀ s, s ∈ S ↔ Forall (λ c, c ≠ "") (SplitSegments topic) ∧
        ∃ ps, (ps, s) ∈ R ∧ seg_match ps (SplitSegments topic);
}.

(** Segment lists with wildcards in the last position only. *)
Definition trailing_wildcard (ws : list string) : Prop :=
  ∃ lit w, ws = lit ++ [w] ∧ (w = wildcard ∨ w = multiWildcard) ∧
    Forall (λ c, c ≠ wildcard ∧ c ≠ multiWildcard) lit.

Lemma trailing_wildcard_prefix_free a x ext :
  trailing_wildcard a → trailing_wildcard (a ++ x :: ext) → False.
Proof.
  intros (lit & w & -> & Hw & _) (lit' & w' & Heq & _ & Hlit).
  destruct (exists_last (l := x :: ext)) as (ext' & y & Hext); [done|].
  rewrite Hext, app_assoc in Heq. apply app_inj_tail in Heq as [<- ->].
  rewrite <-app_assoc in Hlit. apply Forall_app in Hlit as [_ Hlit].
  inversion Hlit; naive_solver.
Qed.

End Matcher.
