(* ===== verification/CSTrie.v ===== *)
(** * CSTrie: the concurrent subscription trie (pkg/topics/cstrie.go)

    The trie is a heap of I-nodes whose [main] pointer is read with an atomic
    load and written with compare-and-swap.  Operations are programs of type
    [prog]: every atomic load, every CAS and every allocation of an I-node is
    one instruction, so the same definitions can be run without interference
    ([run]) or interleaved instruction by instruction ([run2]). *)

From S2P Require Import Prelude Topics Matcher.
Import Topics Matcher.

Module CSTrie.

(** ** Programs over the I-node heap *)

Section Prog.
Context {Sub : Type} `{Countable Sub}.

(** [branch]: subscribers stored at this word, and the I-node below it. *)
Record branch := Branch { br_iNode : option positive; br_subs : gset Sub }.

(** [mainNode]: the struct has a [cNode] and a [tNode] pointer of which exactly
    one is set; a [cNode] is its [branches] map. *)
Inductive mainNode :=
| MC (branches : gmap string branch)
| MT.

(** A [*mainNode] as returned by an atomic load: CAS compares the pointer
    ([mp_id]), the node behind it is immutable. *)
Record mainPtr := MainPtr { mp_id : positive; mp_node : mainNode }.

(** The store: I-node address to its current [main] pointer.  [h_next] is the
    allocator of fresh addresses, for I-nodes and main nodes alike. *)
Record heap := Heap { h_inodes : gmap positive mainPtr; h_next : positive }.

Inductive prog (A : Type) :=
| Ret (a : A)
| Alloc (m : mainNode) (k : positive → prog A)
| LoadMain (i : positive) (k : mainPtr → prog A)
| CASMain (i : positive) (old : mainPtr) (new : mainNode) (k : bool → prog A)
| Panic
| OutOfFuel.
#[global] Arguments Ret {A} a.
#[global] Arguments Alloc {A} m k.
#[global] Arguments LoadMain {A} i k.
#[global] Arguments CASMain {A} i old new k.
#[global] Arguments Panic {A}.
#[global] Arguments OutOfFuel {A}.

(** How a run ends: with a value, with a Go panic, or still inside a retry loop
    after as many rounds as it was given. *)
Inductive outcome (A : Type) :=
| Done (h : heap) (a : A)
| Crashed
| Spinning.
#[global] Arguments Done {A} h a.
#[global] Arguments Crashed {A}.
#[global] Arguments Spinning {A}.

#[global] Instance prog_ret : MRet prog := λ A a, Ret a.
#[global] Instance prog_bind : MBind prog := λ A B f,
  fix go m := match m with
  | Ret a => f a
  | Alloc m k => Alloc m (λ l, go (k l))
  | LoadMain i k => LoadMain i (λ p, go (k p))
  | CASMain i old new k => CASMain i old new (λ b, go (k b))
  | Panic => Panic
  | OutOfFuel => OutOfFuel
  end.

Definition alloc (m : mainNode) : prog positive := Alloc m Ret.
Definition load (i : positive) : prog mainPtr := LoadMain i Ret.
Definition cas (i : positive) (old : mainPtr) (new : mainNode) : prog bool :=
  CASMain i old new Ret.

(** One instruction against the store; [None] is a nil or dangling pointer. *)
Definition heap_alloc (h : heap) (m : mainNode) : positive * heap :=
  (h_next h,
   Heap (<[h_next h := MainPtr (h_next h) m]> (h_inodes h)) (Pos.succ (h_next h))).

Definition heap_cas (h : heap) (i : positive) (old : mainPtr) (new : mainNode)
    : option (bool * heap) :=
  match h_inodes h !! i with
  | None => None
  | Some cur =>
      if bool_decide (mp_id cur = mp_id old)
      then Some (true, Heap (<[i := MainPtr (h_next h) new]> (h_inodes h))
                            (Pos.succ (h_next h)))
      else Some (false, h)
  end.

(** Run a program to completion without interference. *)
Fixpoint run {A} (p : prog A) (h : heap) : outcome A :=
  match p with
  | Ret a => Done h a
  | Alloc m k => let '(l, h') := heap_alloc h m in run (k l) h'
  | LoadMain i k =>
      match h_inodes h !! i with Some mp => run (k mp) h | None => Crashed end
  | CASMain i old new k =>
      match heap_cas h i old new with Some (b, h') => run (k b) h' | None => Crashed end
  | Panic => Crashed
  | OutOfFuel => Spinning
  end.

(** Execute one instruction of a program; a finished one stays as it is. *)
Definition step1 {A} (p : prog A) (h : heap) : prog A * heap :=
  match p with
  | Alloc m k => let '(l, h') := heap_alloc h m in (k l, h')
  | LoadMain i k =>
      match h_inodes h !! i with Some mp => (k mp, h) | None => (Panic, h) end
  | CASMain i old new k =>
      match heap_cas h i old new with Some (b, h') => (k b, h') | None => (Panic, h) end
  | p => (p, h)
  end.

(** Interleave two programs: the schedule picks who executes next ([true] the
    first one); afterwards both run to completion, the first one first. *)
Fixpoint run2 {A B} (schedule : list bool) (p : prog A) (q : prog B) (h : heap)
    : outcome (A * B) :=
  match schedule with
  | [] =>
      match run p h with
      | Done h' a =>
          match run q h' with
          | Done h'' b => Done h'' (a, b) | Crashed => Crashed | Spinning => Spinning
          end
      | Crashed => Crashed
      | Spinning => Spinning
      end
  | true :: s => let '(p', h') := step1 p h in run2 s p' q h'
  | false :: s => let '(q', h') := step1 q h in run2 s p q' h'
  end.

(** ** C-node and branch operations *)

Fixpoint newCNode (words : list string) (sub : Sub) : prog (gmap string branch) :=
  match words with
  | [] => Panic
  | [w] => Ret {[ w := Branch None {[ sub ]} ]}
  | w :: rest =>
      c ← newCNode rest sub;
      nin ← alloc (MC c);
      Ret {[ w := Branch (Some nin) ∅ ]}
  end.

Definition cNode_inserted (c : gmap string branch) (words : list string) (sub : Sub)
    : prog (gmap string branch) :=
  match words with
  | [] => Panic
  | [w] => Ret (<[w := Branch None {[ sub ]}]> c)
  | w :: rest =>
      c' ← newCNode rest sub;
      nin ← alloc (MC c');
      Ret (<[w := Branch (Some nin) ∅]> c)
  end.

Definition cNode_updated (c : gmap string branch) (word : string) (sub : Sub)
    : gmap string branch :=
  let newBranch :=
    match c !! word with
    | Some br => Branch (br_iNode br) ({[ sub ]} ∪ br_subs br)
    | None => Branch None {[ sub ]}
    end in
  <[word := newBranch]> c.

Definition branch_updated (b : branch) (nin : option positive) : branch :=
  Branch nin (br_subs b).

Definition cNode_updatedBranch (c : gmap string branch) (word : string)
    (nin : option positive) (br : branch) : gmap string branch :=
  <[word := branch_updated br nin]> c.

Definition branch_removed (b : branch) (sub : Sub) : branch :=
  Branch (br_iNode b) (br_subs b ∖ {[ sub ]}).

Definition cNode_removed (c : gmap string branch) (word : string) (sub : Sub)
    : gmap string branch :=
  match c !! word with
  | None => c
  | Some br =>
      let br' := branch_removed br sub in
      if bool_decide (br_subs br' = ∅) && bool_decide (br_iNode br' = None)
      then delete word c
      else <[word := br']> c
  end.

(** ** Contraction *)

Definition prunable (br : branch) : prog bool :=
  if negb (bool_decide (br_subs br = ∅)) then Ret false
  else match br_iNode br with
       | None => Ret true
       | Some l =>
           main ← load l;
           Ret (match mp_node main with MT => true | MC _ => false end)
       end.

(** The loop of [toCompressed] over the entries of the branch map. *)
Fixpoint compress_loop (entries : list (string * branch)) (acc : gmap string branch)
    : prog (gmap string branch) :=
  match entries with
  | [] => Ret acc
  | (key, br) :: rest =>
      p ← prunable br;
      compress_loop rest (if p : bool then acc else <[key := br]> acc)
  end.

Definition toCompressed (c : gmap string branch) : prog (gmap string branch) :=
  compress_loop (map_to_list c) ∅.

Definition toContracted (root : positive) (c : gmap string branch) (parent : positive)
    : mainNode :=
  if bool_decide (root ≠ parent) && bool_decide (c = ∅) then MT else MC c.

(** [clean(i)]; a nil [i] is a nil-pointer dereference. *)
Definition clean (i : option positive) : prog unit :=
  match i with
  | None => Panic
  | Some i =>
      main ← load i;
      match mp_node main with
      | MC c => c' ← toCompressed c; _ ← cas i main (MC c'); Ret tt
      | MT => Ret tt
      end
  end.

(** The search loop of [contract]: the first branch that points to [parent]. *)
Fixpoint find_child (entries : list (string * branch)) (parent : positive)
    : option (string * branch) :=
  match entries with
  | [] => None
  | (k, b) :: rest =>
      if bool_decide (br_iNode b = Some parent) then Some (k, b) else find_child rest parent
  end.

Definition contract (root : positive) (parentsParent : option positive)
    (parent : positive) (pMain : mainPtr) : prog bool :=
  match mp_node pMain with
  | MT => Panic
  | MC pc =>
      ncn ← toCompressed pc;
      match parentsParent with
      | Some pp =>
          if bool_decide (ncn = ∅) then
            ppMain ← load pp;
            match mp_node ppMain with
            | MT => Panic
            | MC ppc =>
                match find_child (map_to_list ppc) parent with
                | None => Ret true
                | Some (pKey, pBranch) =>
                    let updated := cNode_updatedBranch ppc pKey None pBranch in
                    let updated := if bool_decide (br_subs pBranch = ∅)
                                   then delete pKey updated else updated in
                    c' ← toCompressed updated;
                    cas pp ppMain (MC c')
                end
            end
          else
            pMain' ← load parent;
            cas parent pMain' (toContracted root ncn parent)
      | None =>
          pMain' ← load parent;
          cas parent pMain' (toContracted root ncn parent)
      end
  end.

(** [cleanParent]; the self-call after a lost CAS consumes fuel. *)
Fixpoint cleanParent (fuel : nat) (root i parent : positive)
    (parentsParent : option positive) (word : string) : prog unit :=
  main ← load i;
  pMain ← load parent;
  match mp_node pMain with
  | MT => Ret tt
  | MC pc =>
      match pc !! word with
      | None => Ret tt
      | Some br =>
          if negb (bool_decide (br_iNode br = Some i)) then Ret tt
          else match mp_node main with
               | MC _ => Ret tt
               | MT =>
                   ok ← contract root parentsParent parent pMain;
                   if ok : bool then Ret tt
                   else match fuel with
                        | O => OutOfFuel
                        | S fuel' => cleanParent fuel' root i parent parentsParent word
                        end
               end
      end
  end.

(** ** Insertion *)

Fixpoint iinsert (i : positive) (parent : option positive) (words : list string)
    (sub : Sub) : prog bool :=
  match words with
  | [] => Panic
  | w :: rest =>
      main ← load i;
      match mp_node main with
      | MC cn =>
          match cn !! w with
          | None =>
              ncn ← cNode_inserted cn words sub;
              cas i main (MC ncn)
          | Some br =>
              match rest with
              | _ :: _ =>
                  match br_iNode br with
                  | Some l => iinsert l (Some i) rest sub
                  | None =>
                      c ← newCNode rest sub;
                      nin ← alloc (MC c);
                      cas i main (MC (cNode_updatedBranch cn w (Some nin) br))
                  end
              | [] =>
                  if bool_decide (sub ∈ br_subs br) then Ret true
                  else cas i main (MC (cNode_updated cn w sub))
              end
          end
      | MT => _ ← clean parent; Ret false
      end
  end.

(** ** Removal.  [prev] is [words[wordIdx-1]], [words] is [words[wordIdx:]]. *)

Fixpoint iremove (fuel : nat) (root i : positive) (parent parentsParent : option positive)
    (prev : string) (words : list string) (sub : Sub) : prog bool :=
  match words with
  | [] => Panic
  | w :: rest =>
      main ← load i;
      match mp_node main with
      | MC cn =>
          match cn !! w with
          | None => Ret true
          | Some br =>
              match rest with
              | _ :: _ =>
                  match br_iNode br with
                  | Some l => iremove fuel root l (Some i) parent w rest sub
                  | None => Ret true
                  end
              | [] =>
                  if negb (bool_decide (sub ∈ br_subs br)) then Ret true
                  else
                    let ncn := cNode_removed cn w sub in
                    let cntr := toContracted root ncn i in
                    swapped ← cas i main cntr;
                    if swapped : bool then
                      match parent with
                      | None => Ret true
                      | Some p =>
                          main' ← load i;
                          match mp_node main' with
                          | MT => _ ← cleanParent fuel root i p parentsParent prev; Ret true
                          | MC _ => Ret true
                          end
                      end
                    else Ret false
              end
          end
      | MT => _ ← clean parent; Ret false
      end
  end.

(** ** Lookup.  [None] asks the caller to retry. *)

(** [bLookup]; [down] is the recursive [ilookup] call one level below and
    [rest] is [words[1:]]. *)
Definition bLookup (down : positive → prog (option (gset Sub))) (b : branch)
    (rest : list string) : prog (option (gset Sub)) :=
  match rest with
  | _ :: _ =>
      match br_iNode b with
      | None => Ret (Some ∅)
      | Some l => down l
      end
  | [] =>
      match br_iNode b with
      | None => Ret (Some (br_subs b))
      | Some l =>
          child ← load l;
          match mp_node child with
          | MT => Ret (Some (br_subs b))
          | MC cc =>
              match cc !! multiWildcard with
              | Some multi => Ret (Some (br_subs b ∪ br_subs multi))
              | None => Ret (Some (br_subs b))
              end
          end
      end
  end.

(** [getBranches] and the guarded [bLookup] call on one of its results. *)
Definition lookup_branch (down : positive → prog (option (gset Sub)))
    (ob : option branch) (rest : list string) : prog (option (gset Sub)) :=
  match ob with
  | None => Ret (Some ∅)
  | Some b => bLookup down b rest
  end.

Fixpoint ilookup (i : positive) (parent : option positive) (words : list string)
    : prog (option (gset Sub)) :=
  match words with
  | [] => Panic
  | w :: rest =>
      main ← load i;
      match mp_node main with
      | MC cn =>
          if bool_decide (w = "") then Ret (Some ∅)
          else
            s1 ← lookup_branch (λ l, ilookup l (Some i) rest) (cn !! w) rest;
            match s1 with
            | None => Ret None
            | Some s1 =>
                s2 ← lookup_branch (λ l, ilookup l (Some i) rest) (cn !! wildcard) rest;
                match s2 with
                | None => Ret None
                | Some s2 =>
                    let s3 := match cn !! multiWildcard with
                              | Some multi => br_subs multi | None => ∅ end in
                    Ret (Some (s1 ∪ s2 ∪ s3))
                end
            end
      | MT => _ ← clean parent; Ret None
      end
  end.

(** ** The Matcher operations and their retry loops *)

(** [for attempt := 0; ; attempt++]: one round per unit of fuel. *)
Fixpoint retry {A} (fuel : nat) (attempt : prog (option A)) : prog A :=
  match fuel with
  | O => OutOfFuel
  | S fuel' =>
      r ← attempt;
      match r with Some a => Ret a | None => retry fuel' attempt end
  end.

Record Subscription := mkSubscription { sub_Topic : string; sub_Subscriber : Sub }.

(** A [Subscriber] argument: a comparable dynamic value, or one that the
    reflect check of [validateSubscriber] rejects. *)
Inductive SubscriberArg := Comparable (s : Sub) | NotComparable.

Definition NewCSTrieMatcher : heap * positive :=
  (Heap {[ 1%positive := MainPtr 1%positive (MC ∅) ]} 2%positive, 1%positive).

Definition Subscribe (fuel : nat) (root : positive) (topic : string) (arg : SubscriberArg)
    : prog (result TopicError Subscription) :=
  match arg with
  | NotComparable => Ret (Err ErrBadSubscriber)
  | Comparable sub =>
      if negb (validTopic topic) then Ret (Err ErrBadTopic)
      else
        retry fuel
          (ok ← iinsert root None (SplitSegments topic) sub;
           Ret (if ok : bool then Some (Ok (mkSubscription topic sub)) else None))
  end.

Definition Unsubscribe (fuel : nat) (root : positive) (sub : option Subscription)
    : prog unit :=
  match sub with
  | None => Ret tt
  | Some sub =>
      retry fuel
        (ok ← iremove fuel root root None None "" (SplitSegments (sub_Topic sub))
                (sub_Subscriber sub);
         Ret (if ok : bool then Some tt else None))
  end.

Definition Lookup (fuel : nat) (root : positive) (topic : string) : prog (gset Sub) :=
  let words := SplitSegments topic in
  if existsb (λ w, bool_decide (w = "")) words then Ret ∅
  else retry fuel (ilookup root None words).

(** ** Running programs *)

Lemma run_bind {A B} (m : prog A) (f : A → prog B) h :
  run (m ≫= f) h =
  match run m h with
  | Done h' a => run (f a) h' | Crashed => Crashed | Spinning => Spinning
  end.
Proof.
  revert h. induction m as [a|m k IH|i k IH|i old new k IH| |]; intros h; simpl.
  - done.
  - apply IH.
  - case_match; [apply IH|done].
  - destruct (heap_cas h i old new) as [[b h']|]; [apply IH|done].
  - done.
  - done.
Qed.

Lemma run_ret {A B} (a : A) (f : A → prog B) h : run (Ret a ≫= f) h = run (f a) h.
Proof. done. Qed.

Lemma run_bind_assoc {A B C} (m : prog A) (f : A → prog B) (g : B → prog C) h :
  run ((m ≫= f) ≫= g) h = run (m ≫= λ x, f x ≫= g) h.
Proof. rewrite !run_bind. destruct (run m h); [by rewrite run_bind|done|done]. Qed.

Definition node (h : heap) (l : positive) : option mainNode := mp_node <$> h_inodes h !! l.

(** The store after a successful CAS on [i]. *)
Definition upd (h : heap) (i : positive) (n : mainNode) : heap :=
  Heap (<[i := MainPtr (h_next h) n]> (h_inodes h)) (Pos.succ (h_next h)).

Lemma run_load i n h :
  node h i = Some n →
  ∃ mp, h_inodes h !! i = Some mp ∧ mp_node mp = n ∧
    ∀ B (f : mainPtr → prog B), run (load i ≫= f) h = run (f mp) h.
Proof.
  unfold node. intros (mp & Hmp & ->)%fmap_Some. exists mp.
  split_and!; [done..|]. intros B f. simpl. by rewrite Hmp.
Qed.

(** Execute the leading [load] of the goal, whose I-node is described by [Hn]. *)
Ltac exec_load Hn mp Hmp :=
  let Hnode := fresh in let Hrun := fresh in
  destruct (run_load _ _ _ Hn) as (mp & Hmp & Hnode & Hrun);
  rewrite Hrun; clear Hrun; rewrite ?Hnode.

Lemma run_cas {B} i mp n (f : bool → prog B) h :
  h_inodes h !! i = Some mp → run (cas i mp n ≫= f) h = run (f true) (upd h i n).
Proof.
  intros Hi. simpl. unfold heap_cas. rewrite Hi.
  by rewrite bool_decide_eq_true_2.
Qed.

Lemma run_cas_last i mp n h :
  h_inodes h !! i = Some mp → run (cas i mp n) h = Done (upd h i n) true.
Proof.
  intros Hi. simpl. unfold heap_cas. rewrite Hi. by rewrite bool_decide_eq_true_2.
Qed.

Lemma node_upd h i n l : node (upd h i n) l = if decide (i = l) then Some n else node h l.
Proof. unfold node, upd; simpl. rewrite lookup_insert. by case_decide. Qed.

Lemma node_upd_eq h i n : node (upd h i n) i = Some n.
Proof. rewrite node_upd. by rewrite decide_True. Qed.

Lemma node_upd_ne h i n l : i ≠ l → node (upd h i n) l = node h l.
Proof. intros ?. rewrite node_upd. by rewrite decide_False. Qed.

(** ** Paths from an I-node *)

Definition child (c : gmap string branch) (w : string) : option positive := c !! w ≫= br_iNode.

Definition subs_of (c : gmap string branch) (w : string) : gset Sub :=
  match c !! w with Some b => br_subs b | None => ∅ end.

Fixpoint walk (h : heap) (l : positive) (ws : list string) : option positive :=
  match ws with
  | [] => Some l
  | w :: ws' =>
      match node h l with
      | Some (MC c) => match child c w with Some l' => walk h l' ws' | None => None end
      | _ => None
      end
  end.

(** [stored h l ws s]: below [l], subscriber [s] sits at the end of path [ws]. *)
Definition stored (h : heap) (l : positive) (ws : list string) (s : Sub) : Prop :=
  ∃ p w l' c, ws = p ++ [w] ∧ walk h l p = Some l' ∧ node h l' = Some (MC c) ∧ s ∈ subs_of c w.

Lemma walk_app h l a b :
  walk h l (a ++ b) = match walk h l a with Some l' => walk h l' b | None => None end.
Proof.
  revert l. induction a as [|w a IH]; intros l; simpl; [done|].
  destruct (node h l) as [[c|]|]; try done. destruct (child c w); [apply IH|done].
Qed.

(** Overwriting an I-node the walk never enters does not change the walk. *)
Lemma walk_upd_away h i n l ws :
  (∀ pre w rest, ws = pre ++ w :: rest → walk h l pre ≠ Some i) →
  walk (upd h i n) l ws = walk h l ws.
Proof.
  revert l. induction ws as [|w ws IH]; intros l Haway; simpl; [done|].
  assert (i ≠ l) as Hil. { intros ->. by apply (Haway [] w ws). }
  rewrite node_upd_ne by done.
  destruct (node h l) as [[c|]|] eqn:Hn; try done.
  destruct (child c w) as [l'|] eqn:Hc; [|done].
  apply IH. intros pre w' rest -> Hw. apply (Haway (w :: pre) w' rest); [done|].
  simpl. by rewrite Hn, Hc.
Qed.

(** Two stores that agree on a set of I-nodes closed under children. *)
Lemma walk_ext h h' l ws :
  (∀ pre l', walk h l pre = Some l' → node h' l' = node h l') →
  walk h' l ws = walk h l ws.
Proof.
  revert l. induction ws as [|w ws IH]; intros l Heq; simpl; [done|].
  rewrite (Heq [] l) by done.
  destruct (node h l) as [[c|]|] eqn:Hn; try done.
  destruct (child c w) as [l'|] eqn:Hc; [|done].
  apply IH. intros pre l'' Hw. apply (Heq (w :: pre)). simpl. by rewrite Hn, Hc.
Qed.

Lemma stored_cons h l c w ws s :
  node h l = Some (MC c) →
  stored h l (w :: ws) s ↔
  (ws = [] ∧ s ∈ subs_of c w) ∨ (∃ l', child c w = Some l' ∧ stored h l' ws s).
Proof.
  intros Hn. split.
  - intros (p & w' & l' & c' & Heq & Hw & Hn' & Hs). destruct p as [|x p]; simplify_eq/=.
    { by left. }
    rewrite Hn in Hw. destruct (child c x) as [l1|] eqn:Hc; [|done].
    right. exists l1. split; [done|]. by exists p, w', l', c'.
  - intros [[-> Hs]|(l' & Hc & p & w' & l'' & c' & -> & Hw & Hn' & Hs)].
    + by exists [], w, l, c.
    + exists (w :: p), w', l'', c'. simpl. by rewrite Hn, Hc.
Qed.

Lemma stored_nil h l s : ¬ stored h l [] s.
Proof. intros (p & w & ? & ? & Heq & _). by destruct p. Qed.

(** ** Lookup on a trie without reachable tombs *)

(** Every I-node reachable from [l] holds a C-node. *)
Definition live (h : heap) (l : positive) : Prop :=
  ∀ ws l', walk h l ws = Some l' → ∃ c, node h l' = Some (MC c).

Lemma live_node h l : live h l → ∃ c, node h l = Some (MC c).
Proof. intros Hl. by apply (Hl []). Qed.

Lemma live_child h l c w l' :
  live h l → node h l = Some (MC c) → child c w = Some l' → live h l'.
Proof.
  intros Hl Hn Hc ws l'' Hw. apply (Hl (w :: ws)). simpl. by rewrite Hn, Hc.
Qed.

Lemma child_branch c w b : c !! w = Some b → child c w = br_iNode b.
Proof. unfold child. by intros ->. Qed.

Lemma subs_of_branch c w b : c !! w = Some b → subs_of c w = br_subs b.
Proof. unfold subs_of. by intros ->. Qed.

(** What one branch contributes to a lookup of [w :: rest] below [p]. *)
Lemma run_lookup_branch h c p rest down :
  (∀ l', child c p = Some l' → live h l') →
  (∀ l', child c p = Some l' → rest ≠ [] →
     ∃ S, run (down l') h = Done h (Some S) ∧
          ∀ s, s ∈ S ↔ ∃ ps, stored h l' ps s ∧ seg_match ps rest) →
  ∃ S, run (lookup_branch down (c !! p) rest) h = Done h (Some S) ∧
    ∀ s, s ∈ S ↔ (rest = [] ∧ s ∈ subs_of c p) ∨
                 (∃ l' ps, child c p = Some l' ∧ stored h l' ps s ∧ seg_match ps rest).
Proof.
  intros Hlive Hdown. unfold lookup_branch, bLookup.
  destruct (c !! p) as [b|] eqn:Hb; last first.
  { exists ∅. split; [done|]. unfold child, subs_of. rewrite Hb. set_solver. }
  rewrite (child_branch _ _ _ Hb) in *. rewrite (subs_of_branch _ _ _ Hb).
  destruct rest as [|w' rest].
  - destruct (br_iNode b) as [l'|]; last first.
    { exists (br_subs b). split; [done|]. set_solver. }
    destruct (live_node h l') as [cc Hcc]; [by apply Hlive|].
    assert (∀ s, (∃ ps, stored h l' ps s ∧ seg_match ps []) ↔ s ∈ subs_of cc multiWildcard)
      as Hmulti.
    { intros s. split.
      - intros (ps & Hst & Hm). inversion Hm; subst; [by apply stored_nil in Hst|].
        apply (stored_cons _ _ _ _ _ _ Hcc) in Hst as [[_ ?]|(? & _ & []%stored_nil)]. done.
      - intros Hs. exists [multiWildcard]. split; [|constructor].
        apply (stored_cons _ _ _ _ _ _ Hcc). by left. }
    exec_load Hcc mp Hmp.
    unfold subs_of in Hmulti. destruct (cc !! multiWildcard) as [mb|].
    + eexists. split; [done|]. set_solver.
    + eexists. split; [done|]. set_solver.
  - destruct (br_iNode b) as [l'|].
    + destruct (Hdown l') as (S & HS & Hspec); [done..|]. exists S. split; [done|].
      set_solver.
    + exists ∅. split; [done|]. set_solver.
Qed.

Lemma run_ilookup h words : ∀ l parent,
  live h l → Forall (λ c, c ≠ "") words → words ≠ [] →
  ∃ S, run (ilookup l parent words) h = Done h (Some S) ∧
    ∀ s, s ∈ S ↔ ∃ ps, stored h l ps s ∧ seg_match ps words.
Proof.
  induction words as [|w rest IH]; intros l parent Hlive Hne Hwords; [done|]. clear Hwords.
  apply Forall_cons in Hne as [Hw Hne].
  destruct (live_node h l Hlive) as [c Hc].
  assert (∀ p, ∃ S, run (lookup_branch (λ l', ilookup l' (Some l) rest) (c !! p) rest) h
      = Done h (Some S) ∧ ∀ s, s ∈ S ↔ (rest = [] ∧ s ∈ subs_of c p) ∨
        (∃ l' ps, child c p = Some l' ∧ stored h l' ps s ∧ seg_match ps rest)) as Hbr.
  { intros p. apply run_lookup_branch.
    - intros l' Hl'. by eapply live_child.
    - intros l' Hl' Hr. apply IH; [by eapply live_child|done..]. }
  cbn [ilookup]. exec_load Hc mp Hmp. rewrite bool_decide_eq_false_2 by done.
  destruct (Hbr w) as (S1 & HS1 & Hspec1), (Hbr wildcard) as (S2 & HS2 & Hspec2).
  rewrite run_bind, HS1, run_bind, HS2. eexists. split; [done|].
  intros s. rewrite !elem_of_union, Hspec1, Hspec2.
  change (match c !! multiWildcard with Some multi => br_subs multi | None => ∅ end)
    with (subs_of c multiWildcard).
  assert (∀ p ps, stored h l (p :: ps) s ↔
    (ps = [] ∧ s ∈ subs_of c p) ∨ (∃ l', child c p = Some l' ∧ stored h l' ps s)) as Hst.
  { intros. by apply stored_cons. }
  clear HS1 HS2 Hspec1 Hspec2 Hbr. split.
  - assert (∀ p, p = w ∨ p = wildcard →
      (rest = [] ∧ s ∈ subs_of c p) ∨
      (∃ l' ps, child c p = Some l' ∧ stored h l' ps s ∧ seg_match ps rest) →
      ∃ ps, stored h l ps s ∧ seg_match ps (w :: rest)) as Hcase.
    { intros p Hp [[-> Hs]|(l' & ps & Hl' & Hs & Hm)].
      - exists [p]. rewrite Hst. split; [by left|]. apply sm_seg; [done|constructor].
      - exists (p :: ps). rewrite Hst. split; [right; eauto|]. by apply sm_seg. }
    intros [[?|?]|Hs]; [apply (Hcase w); auto|apply (Hcase wildcard); auto|].
    exists [multiWildcard]. rewrite Hst. split; [by left|constructor].
  - intros (ps & Hs & Hm). inversion Hm as [|?|p t ps' ? Hp Hm']; subst.
    + apply Hst in Hs as [[_ ?]|(? & _ & []%stored_nil)]. auto.
    + apply Hst in Hs as Hs'.
      assert ((rest = [] ∧ s ∈ subs_of c p) ∨
        (∃ l' ps, child c p = Some l' ∧ stored h l' ps s ∧ seg_match ps rest)) as Hgoal.
      { destruct Hs' as [[-> ?]|(l' & ? & ?)]; [left|right; eauto 6].
        by inversion Hm'. }
      destruct Hp as [->| ->]; [left; by left|left; by right].
Qed.

(** ** Shape invariant

    [F] is the family of segment lists the matcher is used with, [P] gives
    every allocated I-node the path it was created for.  Reachable I-nodes are
    reached along their own path only, so the reachable part is a tree. *)

Section Family.
Context (F : list string → Prop).

(** A C-node at path [p] whose edges and subscribers respect [P] and [F]. *)
Definition cgood (P : positive → list string) (h : heap) (p : list string)
    (c : gmap string branch) : Prop :=
  (∀ w l', child c w = Some l' →
     P l' = p ++ [w] ∧ is_Some (node h l') ∧ ∃ x ext, F (p ++ w :: x :: ext)) ∧
  (∀ w s, s ∈ subs_of c w → F (p ++ [w])).

Record shape (P : positive → list string) (h : heap) (root : positive) : Prop := {
  sh_root : P root = [];
  sh_alloc : is_Some (node h root);
  sh_good : ∀ l c, node h l = Some (MC c) → cgood P h (P l) c;
  sh_fresh : ∀ l, is_Some (node h l) → (l < h_next h)%positive
}.

Lemma shape_walk P h root l ws l' :
  shape P h root → walk h l ws = Some l' → P l' = P l ++ ws.
Proof.
  intros Hsh. revert l. induction ws as [|w ws IH]; intros l; simpl.
  { intros ?; simplify_eq. by rewrite app_nil_r. }
  destruct (node h l) as [[c|]|] eqn:Hn; try done.
  destruct (child c w) as [l1|] eqn:Hc; [|done]. intros Hw%IH.
  destruct (sh_good _ _ _ Hsh _ _ Hn) as [Hch _].
  destruct (Hch _ _ Hc) as [HP _]. rewrite Hw, HP, <-app_assoc. done.
Qed.

Lemma shape_walk_root P h root ws l :
  shape P h root → walk h root ws = Some l → P l = ws.
Proof.
  intros Hsh Hw. rewrite (shape_walk _ _ _ _ _ _ Hsh Hw), (sh_root _ _ _ Hsh). done.
Qed.

(** [l] is reached only through its own path, so a walk that starts at the root
    with another path, or strictly below [l], never meets it. *)
Lemma walk_upd_other P h root l n ws :
  shape P h root → ¬ (∃ w rest, ws = P l ++ w :: rest) →
  walk (upd h l n) root ws = walk h root ws.
Proof.
  intros Hsh Hno. apply walk_upd_away. intros pre w rest -> Hw.
  apply (shape_walk_root _ _ _ _ _ Hsh) in Hw as <-. eauto.
Qed.

Lemma walk_upd_below P h root l n l' w ws :
  shape P h root → P l' = P l ++ [w] → walk (upd h l n) l' ws = walk h l' ws.
Proof.
  intros Hsh HP. apply walk_upd_away. intros pre x rest -> Hw.
  apply (shape_walk _ _ _ _ _ _ Hsh) in Hw. rewrite HP in Hw.
  apply (f_equal length) in Hw. rewrite !length_app in Hw. simpl in Hw. lia.
Qed.

Lemma cgood_mono P P' h h' p c :
  (∀ l, is_Some (node h l) → P' l = P l ∧ is_Some (node h' l)) →
  cgood P h p c → cgood P' h' p c.
Proof.
  intros Hm [Hch Hs]. split; [|done]. intros w l' Hc.
  destruct (Hch _ _ Hc) as (HP & Hn & Hx). destruct (Hm _ Hn) as [-> ?]. done.
Qed.

Lemma node_upd_is_Some h l n l' : is_Some (node h l') → is_Some (node (upd h l n) l').
Proof. intros ?. rewrite node_upd. case_decide; eauto. Qed.

Lemma shape_upd P h root l n :
  shape P h root → is_Some (node h l) →
  (∀ c, n = MC c → cgood P h (P l) c) → shape P (upd h l n) root.
Proof.
  intros Hsh Hl Hn. split.
  - apply Hsh.
  - apply node_upd_is_Some, Hsh.
  - intros l' c. rewrite node_upd. case_decide as Hd.
    + subst. intros ?; simplify_eq. eapply cgood_mono; [|by apply Hn].
      intros; split; [done|]. by apply node_upd_is_Some.
    + intros Hc. eapply cgood_mono; [|by eapply sh_good].
      intros; split; [done|]. by apply node_upd_is_Some.
  - intros l'. rewrite node_upd. simpl. case_decide; intros H'.
    + subst. apply (sh_fresh _ _ _ Hsh) in Hl. lia.
    + apply (sh_fresh _ _ _ Hsh) in H'. lia.
Qed.

Lemma shape_path P h root p l :
  shape P h root → walk h root p = Some l → P l = p.
Proof. apply shape_walk_root. Qed.

(** ** Effect of replacing one reachable C-node *)

(** What a C-node stores below itself. *)
Definition cstored (h : heap) (c : gmap string branch) (ws : list string) (s : Sub) : Prop :=
  match ws with
  | [] => False
  | w :: rest =>
      (rest = [] ∧ s ∈ subs_of c w) ∨ ∃ l', child c w = Some l' ∧ stored h l' rest s
  end.

Lemma stored_at h l c ws s :
  node h l = Some (MC c) → stored h l ws s ↔ cstored h c ws s.
Proof.
  intros Hn. destruct ws as [|w ws].
  - split; [|done]. by intros ?%stored_nil.
  - by apply stored_cons.
Qed.

Lemma stored_app h root p l ws s :
  walk h root p = Some l → ws ≠ [] → stored h root (p ++ ws) s ↔ stored h l ws s.
Proof.
  intros Hp Hws. split.
  - intros (q & w & l' & c & Heq & Hw & Hn & Hs).
    destruct (exists_last Hws) as (ws' & x & ->). rewrite app_assoc in Heq.
    apply app_inj_tail in Heq as [<- ->]. rewrite walk_app, Hp in Hw.
    by exists ws', w, l', c.
  - intros (q & w & l' & c & -> & Hw & Hn & Hs). exists (p ++ q), w, l', c.
    rewrite app_assoc, walk_app, Hp. done.
Qed.

Lemma stored_ext h h' l l' ws s :
  (∀ p, walk h' l p = walk h l p) →
  (∀ p l0, walk h l p = Some l0 → node h' l0 = node h l0) →
  l' = l → stored h' l' ws s ↔ stored h l ws s.
Proof.
  intros Hw Hn ->. split; intros (p & w & l0 & c & -> & Hp & Hc & Hs).
  - rewrite Hw in Hp. rewrite (Hn _ _ Hp) in Hc. by exists p, w, l0, c.
  - exists p, w, l0, c. rewrite Hw. split_and!; [done|done| |done]. by erewrite Hn.
Qed.

Lemma stored_upd_below P h root l n l' w ws s :
  shape P h root → P l' = P l ++ [w] →
  stored (upd h l n) l' ws s ↔ stored h l' ws s.
Proof.
  intros Hsh HP. apply stored_ext; [|  |done].
  - intros p. by eapply walk_upd_below.
  - intros p l0 Hp. apply node_upd_ne. intros ->.
    apply (shape_walk _ _ _ _ _ _ Hsh) in Hp. rewrite HP in Hp.
    apply (f_equal length) in Hp. rewrite !length_app in Hp. simpl in Hp. lia.
Qed.

(** No list is a proper extension of itself. *)
Lemma no_self_ext (p : list string) : ¬ ∃ w rest, p = p ++ w :: rest.
Proof.
  intros (w & rest & Heq%(f_equal length)). rewrite length_app in Heq. simpl in Heq. lia.
Qed.

Lemma prefix_ext_dec (p ws : list string) :
  {wr | ws = p ++ wr.1 :: wr.2} + {¬ ∃ w rest, ws = p ++ w :: rest}.
Proof.
  destruct (decide (p `prefix_of` ws)) as [Hpre|Hno].
  - destruct (drop (length p) ws) as [|w rest] eqn:Hd.
    + right. intros (w & rest & ->). by rewrite drop_app_length in Hd.
    + left. exists (w, rest). simpl. rewrite <-Hd. destruct Hpre as [k ->].
      by rewrite drop_app_length.
  - right. intros (w & rest & ->). apply Hno. by eexists.
Qed.

Lemma walk_upd_self P h root l n p :
  shape P h root → walk h root p = Some l → walk (upd h l n) root p = Some l.
Proof.
  intros Hsh Hp. erewrite walk_upd_other; [done|done|].
  rewrite (shape_path _ _ _ _ _ Hsh Hp). apply no_self_ext.
Qed.

Lemma stored_upd_in P h root l p c' w rest s :
  shape P h root → walk h root p = Some l →
  (∀ w l', child c' w = Some l' → P l' = p ++ [w]) →
  stored (upd h l (MC c')) root (p ++ w :: rest) s ↔ cstored h c' (w :: rest) s.
Proof.
  intros Hsh Hp Hch. pose proof (shape_path _ _ _ _ _ Hsh Hp) as HPl.
  rewrite (stored_app _ _ p l) by eauto using walk_upd_self.
  rewrite (stored_at _ _ c') by apply node_upd_eq. simpl.
  apply or_iff_compat_l. split; intros (l' & Hc & Hs); exists l'; (split; [done|]);
    eapply stored_upd_below; eauto; rewrite HPl; eauto.
Qed.

Lemma stored_upd_out P h root l p n ws s :
  shape P h root → walk h root p = Some l → ¬ (∃ w rest, ws = p ++ w :: rest) →
  stored (upd h l n) root ws s ↔ stored h root ws s.
Proof.
  intros Hsh Hp Hno. pose proof (shape_path _ _ _ _ _ Hsh Hp) as HPl.
  assert (∀ q w, ws = q ++ [w] → walk (upd h l n) root q = walk h root q ∧
      (∀ l0, walk h root q = Some l0 → node (upd h l n) l0 = node h l0)) as Hq.
  { intros q w ->. split.
    - eapply walk_upd_other; [done|]. rewrite HPl. intros (x & rest & ->).
      apply Hno. exists x, (rest ++ [w]). by rewrite <-app_assoc.
    - intros l0 Hl0. apply node_upd_ne. intros ->.
      apply (shape_path _ _ _ _ _ Hsh) in Hl0. subst q. apply Hno. exists w, []. congruence. }
  split; intros (q & w & l0 & c & Heq & Hw & Hn & Hs);
    destruct (Hq _ _ Heq) as [Hwq Hnq]; exists q, w, l0, c.
  - rewrite Hwq in Hw. rewrite (Hnq _ Hw) in Hn. done.
  - rewrite Hwq. split_and!; [done|done| |done]. by rewrite Hnq.
Qed.

Lemma live_upd P h root l p c' :
  shape P h root → live h root → walk h root p = Some l →
  (∀ w l', child c' w = Some l' → P l' = p ++ [w] ∧ live h l') →
  live (upd h l (MC c')) root.
Proof.
  intros Hsh Hlive Hp Hch ws l0 Hw. pose proof (shape_path _ _ _ _ _ Hsh Hp) as HPl.
  rewrite node_upd. case_decide; [eauto|].
  destruct (prefix_ext_dec p ws) as [[[w rest] ->]|Hno]; simpl in *.
  - rewrite walk_app, (walk_upd_self _ _ _ _ _ _ Hsh Hp) in Hw.
    simpl in Hw. rewrite node_upd_eq in Hw.
    destruct (child c' w) as [l'|] eqn:Hc; [|done]. destruct (Hch _ _ Hc) as [HP Hl'].
    erewrite walk_upd_below in Hw; [|done|by rewrite HPl]. by eapply Hl'.
  - erewrite walk_upd_other in Hw; [by eapply Hlive|done|]. by rewrite HPl.
Qed.

(** ** Allocation *)

(** [h1] extends [h] with fresh I-nodes only. *)
Definition grows (P : positive → list string) (h : heap) (P1 : positive → list string)
    (h1 : heap) : Prop :=
  ∀ l, is_Some (node h l) → h_inodes h1 !! l = h_inodes h !! l ∧ P1 l = P l.

Lemma grows_refl P h : grows P h P h.
Proof. by intros l _. Qed.

Lemma grows_node P h P1 h1 l :
  grows P h P1 h1 → is_Some (node h l) → node h1 l = node h l ∧ P1 l = P l.
Proof. intros Hg Hl. destruct (Hg _ Hl) as [Hi ->]. unfold node. by rewrite Hi. Qed.

Lemma grows_trans P h P1 h1 P2 h2 :
  grows P h P1 h1 → grows P1 h1 P2 h2 → grows P h P2 h2.
Proof.
  intros H1 H2 l Hl. destruct (H1 _ Hl) as [Hn HP].
  destruct (H2 l) as [Hn' HP']; [|split; congruence].
  by rewrite (proj1 (grows_node _ _ _ _ _ H1 Hl)).
Qed.

Lemma walk_is_Some P h root l ws l' :
  shape P h root → is_Some (node h l) → walk h l ws = Some l' → is_Some (node h l').
Proof.
  intros Hsh. revert l. induction ws as [|w ws IH]; intros l Hl; simpl; [by intros; simplify_eq|].
  destruct (node h l) as [[c|]|] eqn:Hn; try done.
  destruct (child c w) as [l1|] eqn:Hc; [|done]. apply IH.
  destruct (sh_good _ _ _ Hsh _ _ Hn) as [Hch _]. by apply Hch in Hc as (_ & ? & _).
Qed.

Lemma grows_walk P h P1 h1 root l ws :
  shape P h root → grows P h P1 h1 → is_Some (node h l) → walk h1 l ws = walk h l ws.
Proof.
  intros Hsh Hg Hl. apply walk_ext. intros pre l' Hw.
  eapply grows_node; [done|]. by eapply walk_is_Some.
Qed.

Lemma grows_stored P h P1 h1 root l ws s :
  shape P h root → grows P h P1 h1 → is_Some (node h l) →
  stored h1 l ws s ↔ stored h l ws s.
Proof.
  intros Hsh Hg Hl. apply stored_ext; [|  |done].
  - intros p. by eapply grows_walk.
  - intros p l0 Hw. eapply grows_node; [done|]. by eapply walk_is_Some.
Qed.

Lemma grows_live P h P1 h1 root l :
  shape P h root → grows P h P1 h1 → is_Some (node h l) → live h l → live h1 l.
Proof.
  intros Hsh Hg Hl Hlive ws l' Hw. erewrite grows_walk in Hw by done.
  destruct (Hlive _ _ Hw) as [c Hc]. exists c.
  destruct (grows_node _ _ _ _ l' Hg) as [-> _]; [by eapply walk_is_Some|done].
Qed.

Lemma shape_alloc P h root p c :
  shape P h root → cgood P h p c →
  ∃ P1, shape P1 (heap_alloc h (MC c)).2 root ∧ grows P h P1 (heap_alloc h (MC c)).2 ∧
    P1 (h_next h) = p ∧ node (heap_alloc h (MC c)).2 (h_next h) = Some (MC c).
Proof.
  intros Hsh Hc. set (l := h_next h).
  assert (node h l = None) as Hfresh.
  { apply eq_None_not_Some. intros Hs%(sh_fresh _ _ _ Hsh). unfold l in Hs. lia. }
  assert (∀ l', node (heap_alloc h (MC c)).2 l' = if decide (l = l') then Some (MC c) else node h l')
    as Hnode.
  { intros l'. unfold node, heap_alloc. simpl. rewrite lookup_insert.
    fold l. destruct (decide (l = l')); done. }
  set (P1 := λ x, if decide (x = l) then p else P x). exists P1.
  assert (grows P h P1 (heap_alloc h (MC c)).2) as Hg.
  { intros l' Hl'. unfold P1.
    destruct (decide (l = l')) as [->|]; [by rewrite Hfresh in Hl'; destruct Hl'|].
    rewrite decide_False by done. split; [|done]. simpl. by apply lookup_insert_ne. }
  split_and!; [|done|unfold P1; by rewrite decide_True|by rewrite Hnode, decide_True].
  assert (∀ l', is_Some (node h l') →
    P1 l' = P l' ∧ is_Some (node (heap_alloc h (MC c)).2 l')) as Hm.
  { intros l' Hl'. destruct (grows_node _ _ _ _ _ Hg Hl') as [-> ->]. done. }
  split.
  - destruct (Hg root) as [_ ->]; apply Hsh.
  - apply Hm, Hsh.
  - intros l' c'. rewrite Hnode. case_decide as Hd.
    + subst. intros ?; simplify_eq. unfold P1. rewrite decide_True by done.
      by eapply cgood_mono.
    + intros Hn. unfold P1. rewrite decide_False by done.
      eapply cgood_mono; [done|]. by eapply sh_good.
  - intros l'. rewrite Hnode. simpl. case_decide; intros Hs; [subst; lia|].
    apply (sh_fresh _ _ _ Hsh) in Hs. lia.
Qed.

(** ** Insertion *)

Lemma child_insert c w b w' :
  child (<[w := b]> c) w' = if decide (w = w') then br_iNode b else child c w'.
Proof. unfold child. rewrite lookup_insert. by case_decide. Qed.

Lemma subs_of_insert c w b w' :
  subs_of (<[w := b]> c) w' = if decide (w = w') then br_subs b else subs_of c w'.
Proof. unfold subs_of. rewrite lookup_insert. by case_decide. Qed.

Lemma child_empty w : child ∅ w = None.
Proof. done. Qed.

Lemma subs_of_empty w : subs_of ∅ w = ∅.
Proof. done. Qed.

Lemma cstored_grows P h P1 h1 root p c ws s :
  shape P h root → grows P h P1 h1 → cgood P h p c → cstored h1 c ws s ↔ cstored h c ws s.
Proof.
  intros Hsh Hg [Hch _]. destruct ws as [|w ws]; simpl; [done|].
  apply or_iff_compat_l.
  split; intros (l' & Hc & Hs); exists l'; (split; [done|]);
    pose proof (Hch _ _ Hc) as (_ & Hn & _);
    by apply (grows_stored P h P1 h1 root l' ws s Hsh Hg Hn).
Qed.

(** Allocating an I-node for a good C-node. *)
Lemma alloc_run P h root p c :
  shape P h root → cgood P h p c → (∀ w l', child c w = Some l' → live h l') →
  ∃ h1 l P1, run (alloc (MC c)) h = Done h1 l ∧ shape P1 h1 root ∧ grows P h P1 h1 ∧
    P1 l = p ∧ is_Some (node h1 l) ∧ live h1 l ∧ (∀ ws s, stored h1 l ws s ↔ cstored h c ws s).
Proof.
  intros Hsh Hc Hlive. destruct (shape_alloc P h root p c) as (P1 & Hsh1 & Hg & HP & Hn); [done..|].
  assert (run (alloc (MC c)) h = Done (heap_alloc h (MC c)).2 (h_next h)) as Hrun by done.
  revert Hrun Hsh1 Hg HP Hn. generalize (heap_alloc h (MC c)).2, (h_next h).
  intros h1 l Hrun Hsh1 Hg HP Hn. exists h1, l, P1.
  split_and!; [done..|by rewrite Hn| | ].
  - intros [|w ws] l'; simpl; [intros; simplify_eq; eauto|]. rewrite Hn.
    destruct (child c w) as [l1|] eqn:Hw; [|done]. intros Hwalk.
    destruct Hc as [Hch _]. pose proof (Hch _ _ Hw) as (_ & Hl1 & _).
    exact (grows_live _ _ _ _ _ _ Hsh Hg Hl1 (Hlive _ _ Hw) _ _ Hwalk).
  - intros ws s. rewrite (stored_at _ _ _ _ _ Hn). by eapply cstored_grows.
Qed.

Lemma newCNode_cons w w' rest sub :
  newCNode (w :: w' :: rest) sub =
  (c ← newCNode (w' :: rest) sub; nin ← alloc (MC c);
   Ret ({[ w := Branch (Some nin) ∅ ]} : gmap string branch)).
Proof. done. Qed.

(** A freshly built chain of C-nodes stores exactly one subscription. *)
Lemma newCNode_run root sub words : ∀ p P h,
  shape P h root → words ≠ [] → F (p ++ words) →
  ∃ h1 c P1, run (newCNode words sub) h = Done h1 c ∧ shape P1 h1 root ∧ grows P h P1 h1 ∧
    cgood P1 h1 p c ∧ (∀ w l', child c w = Some l' → live h1 l') ∧
    (∀ ws s, cstored h1 c ws s ↔ ws = words ∧ s = sub).
Proof.
  induction words as [|w [|w' rest] IH]; intros p P h Hsh Hne HF; [done| |].
  - exists h, (<[ w := Branch None {[ sub ]} ]> ∅), P.
    split_and!; [done|done|apply grows_refl| | | ].
    + split; intros w'; rewrite ?child_insert, ?subs_of_insert; case_decide; set_solver.
    + intros w'. rewrite child_insert. by case_decide.
    + intros [|x ws] s; simpl; [by split; [|intros [? _]]|].
      rewrite child_insert, subs_of_insert. case_decide; simpl; set_solver.
  - destruct (IH (p ++ [w]) P h) as (h1 & c1 & P1 & Hrun & Hsh1 & Hg1 & Hc1 & Hl1 & Hst1);
      [done|done|by rewrite <-app_assoc|].
    destruct (alloc_run P1 h1 root (p ++ [w]) c1) as
      (h2 & l & P2 & Hrun2 & Hsh2 & Hg2 & HP2 & Hn2 & Hl2 & Hst2); [done..|].
    exists h2, (<[ w := Branch (Some l) ∅ ]> ∅), P2.
    split_and!; [|done|by eapply grows_trans| | | ].
    + rewrite newCNode_cons, run_bind, Hrun, run_bind, Hrun2. done.
    + split; intros x; rewrite ?child_insert, ?subs_of_insert; case_decide; subst; simpl; try done.
      intros l' ?; simplify_eq. eauto.
    + intros x l'. rewrite child_insert. case_decide; [|done]. by intros [= <-].
    + intros [|x ws] s; simpl; [by split; [|intros [? _]]|].
      rewrite child_insert, subs_of_insert. case_decide as Hx; simpl; [|set_solver].
      subst x. split.
      * intros [[_ ?]|(l' & [= <-] & Hs)]; [set_solver|].
        by apply Hst2, Hst1 in Hs as [-> ->].
      * intros [[= ->] ->]. right. exists l. split; [done|]. by apply Hst2, Hst1.
Qed.

(** Both halves together: the new I-node for the remaining words. *)
Lemma chain_run {B} P h root p rest sub (k : positive → prog B) :
  shape P h root → rest ≠ [] → F (p ++ rest) →
  ∃ h1 l P1, run (c ← newCNode rest sub; nin ← alloc (MC c); k nin) h = run (k l) h1 ∧
    shape P1 h1 root ∧ grows P h P1 h1 ∧ P1 l = p ∧ is_Some (node h1 l) ∧ live h1 l ∧
    (∀ ws s, stored h1 l ws s ↔ ws = rest ∧ s = sub).
Proof.
  intros Hsh Hr HF.
  destruct (newCNode_run root sub rest p P h) as (h1 & c & P1 & Hrun & Hsh1 & Hg1 & Hc & Hl & Hst);
    [done..|].
  destruct (alloc_run P1 h1 root p c) as (h2 & l & P2 & Hrun2 & Hsh2 & Hg2 & HP & Hn & Hl2 & Hst2);
    [done..|].
  exists h2, l, P2. split_and!; try done.
  - by rewrite run_bind, Hrun, run_bind, Hrun2.
  - by eapply grows_trans.
  - intros ws s. by rewrite Hst2, Hst.
Qed.

(** Replacing the C-node of a reachable I-node by another good one. *)
Lemma live_at h root p l : live h root → walk h root p = Some l → live h l.
Proof. intros Hlive Hp ws l0 Hw. apply (Hlive (p ++ ws)). by rewrite walk_app, Hp. Qed.

Lemma commit_node P h root p l c' :
  shape P h root → walk h root p = Some l → cgood P h p c' →
  shape P (upd h l (MC c')) root ∧
  (∀ w rest s, stored (upd h l (MC c')) root (p ++ w :: rest) s ↔ cstored h c' (w :: rest) s) ∧
  (∀ ws s, ¬ (∃ w rest, ws = p ++ w :: rest) →
     stored (upd h l (MC c')) root ws s ↔ stored h root ws s).
Proof.
  intros Hsh Hp Hc. pose proof (shape_path _ _ _ _ _ Hsh Hp) as HPl. split_and!.
  - apply shape_upd; [done|by eapply walk_is_Some, Hp; [|apply Hsh]|].
    intros ? [= <-]. by rewrite HPl.
  - intros w rest s. eapply stored_upd_in; [done..|]. intros x l' Hx. by apply Hc in Hx as [? _].
  - intros ws s Hno. by eapply stored_upd_out.
Qed.

(** The relation between the stored subscriptions before and after a commit,
    reduced to the replaced C-node. *)
Lemma commit_spec P h root p l c c' (R : Sub → list string → Prop → Prop) :
  shape P h root → walk h root p = Some l → node h l = Some (MC c) → cgood P h p c' →
  (∀ w rest s, R s (p ++ w :: rest) (cstored h c (w :: rest) s) ↔ cstored h c' (w :: rest) s) →
  (∀ ws s, ¬ (∃ w rest, ws = p ++ w :: rest) → R s ws (stored h root ws s) ↔ stored h root ws s) →
  (∀ s ws, Proper (iff ==> iff) (R s ws)) →
  ∀ ws s, stored (upd h l (MC c')) root ws s ↔ R s ws (stored h root ws s).
Proof.
  intros Hsh Hp Hn Hc Hin Hout HR ws s.
  destruct (commit_node P h root p l c') as (_ & Hi & Ho); [done..|].
  destruct (prefix_ext_dec p ws) as [[[w rest] ->]|Hno]; simpl in *.
  - rewrite Hi, <-Hin. apply HR.
    by rewrite (stored_app _ _ _ _ _ _ Hp), (stored_at _ _ _ _ _ Hn).
  - rewrite Ho by done. symmetry. by apply Hout.
Qed.

(** The two kinds of C-node replacement an insertion commits. *)
Lemma commit_leaf P h root p l c w sub :
  shape P h root → live h root → walk h root p = Some l → node h l = Some (MC c) →
  F (p ++ [w]) →
  let h' := upd h l (MC (<[w := Branch (child c w) ({[ sub ]} ∪ subs_of c w)]> c)) in
  shape P h' root ∧ live h' root ∧
  ∀ ws s, stored h' root ws s ↔ stored h root ws s ∨ (ws = p ++ [w] ∧ s = sub).
Proof.
  intros Hsh Hlive Hp Hn HF.
  pose proof (sh_good _ _ _ Hsh _ _ Hn) as Hgood.
  rewrite (shape_path _ _ _ _ _ Hsh Hp) in Hgood. set (c' := <[w := _]> c).
  assert (∀ x, child c' x = child c x) as Hchild.
  { intros x. unfold c'. rewrite child_insert. case_decide; by subst. }
  assert (∀ x, subs_of c' x = if decide (w = x) then {[ sub ]} ∪ subs_of c x else subs_of c x)
    as Hsubs.
  { intros x. unfold c'. rewrite subs_of_insert. case_decide; by subst. }
  assert (cgood P h p c') as Hc'.
  { split; [intros x l'; rewrite Hchild; apply Hgood|].
    intros x s. rewrite Hsubs. case_decide; [by subst|]. apply Hgood. }
  simpl. split_and!.
  - by eapply commit_node.
  - eapply live_upd; [done..|]. intros x l' Hx. split; [by apply Hc' in Hx as [? _]|].
    rewrite Hchild in Hx. apply (live_child h l c x l'); [by apply (live_at h root p)|done..].
  - eapply (commit_spec P h root p l c c' (λ s ws X, X ∨ (ws = p ++ [w] ∧ s = sub))); [done..| | |solve_proper].
    + intros x rest s. simpl. rewrite Hchild, Hsubs. case_decide; [subst|]; set_solver.
    + intros ws s Hno. split; [|auto]. intros [?|[-> _]]; [done|]. exfalso. eauto.
Qed.

Lemma commit_chain P h root p l c w l1 rest sub :
  shape P h root → live h root → walk h root p = Some l → node h l = Some (MC c) →
  F (p ++ w :: rest) → rest ≠ [] → child c w = None →
  P l1 = p ++ [w] → is_Some (node h l1) → live h l1 →
  (∀ ws s, stored h l1 ws s ↔ ws = rest ∧ s = sub) →
  let h' := upd h l (MC (<[w := Branch (Some l1) (subs_of c w)]> c)) in
  shape P h' root ∧ live h' root ∧
  ∀ ws s, stored h' root ws s ↔ stored h root ws s ∨ (ws = p ++ w :: rest ∧ s = sub).
Proof.
  intros Hsh Hlive Hp Hn HF Hr Hcw HP1 Hn1 Hl1 Hst1.
  pose proof (sh_good _ _ _ Hsh _ _ Hn) as Hgood.
  rewrite (shape_path _ _ _ _ _ Hsh Hp) in Hgood. set (c' := <[w := _]> c).
  assert (∀ x, child c' x = if decide (w = x) then Some l1 else child c x) as Hchild.
  { intros x. unfold c'. by rewrite child_insert. }
  assert (∀ x, subs_of c' x = subs_of c x) as Hsubs.
  { intros x. unfold c'. rewrite subs_of_insert. case_decide; by subst. }
  assert (cgood P h p c') as Hc'.
  { split; [|intros x s; rewrite Hsubs; apply Hgood].
    intros x l'. rewrite Hchild. case_decide; [|apply Hgood]. intros [= <-]. subst x.
    split_and!; [done..|]. destruct rest as [|y rest]; [done|]. eauto. }
  simpl. split_and!.
  - by eapply commit_node.
  - eapply live_upd; [done..|]. intros x l' Hx. split; [by apply Hc' in Hx as [? _]|].
    rewrite Hchild in Hx. case_decide; [by simplify_eq|].
    apply (live_child h l c x l'); [by apply (live_at h root p)|done..].
  - eapply (commit_spec P h root p l c c' (λ s ws X, X ∨ (ws = p ++ w :: rest ∧ s = sub))); [done..| | |solve_proper].
    + intros x rest' s. simpl. rewrite Hchild, Hsubs. case_decide; [subst x|set_solver].
      rewrite Hcw. split.
      * intros [[?|(? & ? & _)]|[[= ->]%app_inv_head ->]]; [by left|done|].
        right. exists l1. split; [done|]. by apply Hst1.
      * intros [?|(l' & [= <-] & Hs)]; [by left; left|]. apply Hst1 in Hs as [-> ->]. by right.
    + intros ws s Hno. split; [|auto]. intros [?|[-> _]]; [done|]. exfalso. eauto.
Qed.

(** Building a chain for the remaining words and linking it below [l]. *)
Lemma insert_chain P h root p l c mp w rest sub :
  shape P h root → live h root → walk h root p = Some l → node h l = Some (MC c) →
  h_inodes h !! l = Some mp → F (p ++ w :: rest) → rest ≠ [] → child c w = None →
  ∃ h1 P1, run (c0 ← newCNode rest sub; nin ← alloc (MC c0);
                cas l mp (MC (<[w := Branch (Some nin) (subs_of c w)]> c))) h = Done h1 true ∧
    shape P1 h1 root ∧ live h1 root ∧
    ∀ ws s, stored h1 root ws s ↔ stored h root ws s ∨ (ws = p ++ w :: rest ∧ s = sub).
Proof.
  intros Hsh Hlive Hp Hn Hmp HF Hrest Hch.
  destruct (chain_run P h root (p ++ [w]) rest sub
    (λ nin, cas l mp (MC (<[w := Branch (Some nin) (subs_of c w)]> c))))
    as (h1 & l1 & P1 & -> & Hsh1 & Hg & HP1 & Hn1 & Hl1 & Hst1);
    [done|done|by rewrite <-app_assoc|].
  assert (is_Some (node h l)) as Hl by (by rewrite Hn).
  destruct (Hg _ Hl) as [Hmp1 HPl], (grows_node _ _ _ _ _ Hg Hl) as [Hn' _].
  pose proof (sh_alloc _ _ _ Hsh) as Hroot.
  destruct (commit_chain P1 h1 root p l c w l1 rest sub) as (Hsh2 & Hlive2 & Hst2); [done| | | |done..| ].
  - exact (grows_live P h P1 h1 root root Hsh Hg Hroot Hlive).
  - by rewrite (grows_walk P h P1 h1 root).
  - by rewrite Hn'.
  - eexists _, P1. rewrite run_cas_last by (by rewrite Hmp1). split_and!; [done..|].
    intros ws s. rewrite Hst2. by rewrite (grows_stored P h P1 h1 root).
Qed.

Lemma iinsert_run P root sub words : ∀ h p l parent,
  shape P h root → live h root → walk h root p = Some l → words ≠ [] → F (p ++ words) →
  ∃ h1 P1, run (iinsert l parent words sub) h = Done h1 true ∧ shape P1 h1 root ∧ live h1 root ∧
    ∀ ws s, stored h1 root ws s ↔ stored h root ws s ∨ (ws = p ++ words ∧ s = sub).
Proof.
  induction words as [|w rest IH]; intros h p l parent Hsh Hlive Hp Hne HF; [done|].
  destruct (Hlive _ _ Hp) as [c Hn]. cbn [iinsert]. exec_load Hn mp Hmp.
  destruct rest as [|w' rest].
  - (* the last word *)
    destruct (commit_leaf P h root p l c w sub) as (Hsh' & Hlive' & Hst'); [done..|].
    destruct (c !! w) as [br|] eqn:Hw.
    + rewrite (child_branch _ _ _ Hw), (subs_of_branch _ _ _ Hw) in *.
      case_bool_decide as Hin.
      * exists h, P. split_and!; [done..|]. intros ws s. split; [auto|]. intros [?|[-> ->]]; [done|].
        apply (stored_app _ _ _ _ _ _ Hp); [done|]. apply (stored_at _ _ _ _ _ Hn). left.
        by rewrite (subs_of_branch _ _ _ Hw).
      * eexists _, P. rewrite (run_cas_last _ _ _ _ Hmp). split; [done|].
        unfold cNode_updated. by rewrite Hw.
    + eexists _, P. cbn [cNode_inserted]. rewrite run_ret, (run_cas_last _ _ _ _ Hmp).
      split; [done|]. unfold child, subs_of in *. rewrite Hw in *.
      by rewrite (right_id_L ∅ (∪)) in *.
  - (* more words below *)
    pose proof (insert_chain P h root p l c mp w (w' :: rest) sub Hsh Hlive Hp Hn Hmp HF) as Hchain.
    destruct (c !! w) as [br|] eqn:Hw.
    + rewrite (child_branch _ _ _ Hw), (subs_of_branch _ _ _ Hw) in Hchain.
      destruct (br_iNode br) as [l1|] eqn:Hch; [|by apply Hchain].
      destruct (IH h (p ++ [w]) l1 (Some l)) as (h1 & P1 & Hrun & Hsh1 & Hl1 & Hst1);
        [done..| |done|by rewrite <-app_assoc|].
      { rewrite walk_app, Hp. simpl. by rewrite Hn, (child_branch _ _ _ Hw), Hch. }
      exists h1, P1. split_and!; [done..|]. intros ws s. by rewrite Hst1, <-app_assoc.
    + unfold child, subs_of in Hchain. rewrite Hw in Hchain.
      cbn [cNode_inserted]. rewrite run_bind_assoc. by apply Hchain.
Qed.

(** ** Contraction *)

Definition prunableb (h : heap) (b : branch) : bool :=
  bool_decide (br_subs b = ∅) &&
  match br_iNode b with
  | None => true
  | Some l => match node h l with Some MT => true | _ => false end
  end.

Lemma run_prunable h b :
  (∀ l, br_iNode b = Some l → is_Some (node h l)) →
  run (prunable b) h = Done h (prunableb h b).
Proof.
  intros Hl. unfold prunable, prunableb. case_bool_decide as Hs; cbn [negb andb]; [|done].
  destruct (br_iNode b) as [l|]; [|done]. destruct (Hl l eq_refl) as [n Hn].
  exec_load Hn mp Hmp. rewrite Hn. by destruct n.
Qed.

Lemma run_compress_loop h entries acc :
  (∀ k b l, (k, b) ∈ entries → br_iNode b = Some l → is_Some (node h l)) →
  NoDup entries.*1 →
  ∃ c, run (compress_loop entries acc) h = Done h c ∧
    ∀ x, c !! x = match (list_to_map entries : gmap string branch) !! x with
                  | Some b => if prunableb h b then acc !! x else Some b
                  | None => acc !! x
                  end.
Proof.
  revert acc. induction entries as [|[k b] rest IH]; intros acc Hall Hnd.
  { exists acc. done. }
  rewrite fmap_cons in Hnd. apply NoDup_cons in Hnd as [Hk Hnd].
  rewrite list_to_map_cons. cbn [compress_loop].
  rewrite run_bind, run_prunable by (intros l; eapply Hall; left).
  destruct (IH (if prunableb h b then acc else <[k := b]> acc)) as (c & Hrun & Hc);
    [intros; eapply Hall; [by right|done]|done|].
  exists c. split; [done|]. intros x. rewrite Hc, lookup_insert.
  case_decide as Hx; subst.
  - rewrite (not_elem_of_list_to_map_1 rest x Hk).
    destruct (prunableb h b); [done|]. by rewrite lookup_insert_eq.
  - destruct (list_to_map rest !! x) as [b'|] eqn:Hb';
      destruct (prunableb h b); rewrite ?lookup_insert_ne by done; done.
Qed.

Lemma run_toCompressed h c :
  (∀ w l, child c w = Some l → is_Some (node h l)) →
  ∃ c', run (toCompressed c) h = Done h c' ∧
    ∀ x, c' !! x = match c !! x with
                   | Some b => if prunableb h b then None else Some b
                   | None => None
                   end.
Proof.
  intros Hall. destruct (run_compress_loop h (map_to_list c) ∅) as (c' & Hrun & Hc').
  - intros k b l Hk%elem_of_map_to_list Hb. apply (Hall k). by rewrite (child_branch _ _ _ Hk).
  - apply NoDup_fst_map_to_list.
  - exists c'. split; [done|]. intros x. rewrite Hc', list_to_map_to_list.
    repeat case_match; done.
Qed.

Lemma find_child_spec entries l1 k b :
  find_child entries l1 = Some (k, b) → (k, b) ∈ entries ∧ br_iNode b = Some l1.
Proof.
  induction entries as [|[k' b'] rest IH]; simpl; [done|].
  case_bool_decide.
  - intros; simplify_eq. split; [left|done].
  - intros [? ?]%IH. split; [by right|done].
Qed.

Lemma find_child_complete entries l1 k b :
  (k, b) ∈ entries → br_iNode b = Some l1 → is_Some (find_child entries l1).
Proof.
  induction entries as [|[k' b'] rest IH]; simpl; [by intros ?%elem_of_nil|].
  intros Hin Hb. case_bool_decide as Hd; [by eexists|].
  apply elem_of_cons in Hin as [?|?]; [by simplify_eq|by apply IH].
Qed.

(** [c'] is [c] without some branches below which nothing is stored. *)
Definition pruning (h : heap) (c c' : gmap string branch) : Prop :=
  ∀ x, c' !! x = c !! x ∨ (c' !! x = None ∧ ∀ rest s, ¬ cstored h c (x :: rest) s).

Lemma prune_commit P h root p l c c' :
  shape P h root → walk h root p = Some l → node h l = Some (MC c) →
  pruning h c c' →
  shape P (upd h l (MC c')) root ∧
  (∀ ws s, stored (upd h l (MC c')) root ws s ↔ stored h root ws s) ∧
  (∀ ws l0, walk (upd h l (MC c')) root ws = Some l0 → walk h root ws = Some l0).
Proof.
  intros Hsh Hp Hn Hsub. pose proof (shape_path _ _ _ _ _ Hsh Hp) as HPl.
  pose proof (sh_good _ _ _ Hsh _ _ Hn) as Hgood. rewrite HPl in Hgood.
  assert (∀ x l', child c' x = Some l' → child c x = Some l') as Hchild.
  { intros x l'. unfold child. by destruct (Hsub x) as [->|[-> _]]. }
  assert (∀ x s, s ∈ subs_of c' x → s ∈ subs_of c x) as Hsubs.
  { intros x s. unfold subs_of. by destruct (Hsub x) as [->|[-> _]]. }
  assert (cgood P h p c') as Hc'.
  { split; [intros x l' Hx; by apply Hgood, Hchild|intros x s Hx; by eapply Hgood, Hsubs]. }
  split_and!.
  - by eapply commit_node.
  - eapply (commit_spec P h root p l c c' (λ _ _ X, X)); [done..| |done|solve_proper].
    intros x rest s. destruct (Hsub x) as [Heq|[Heq Hno]].
    + unfold cstored, child, subs_of. by rewrite Heq.
    + split; [by intros ?%Hno|]. unfold cstored, child, subs_of. rewrite Heq. set_solver.
  - intros ws l0 Hw. destruct (prefix_ext_dec p ws) as [[[x rest] ->]|Hno]; simpl in *.
    + rewrite walk_app, (walk_upd_self _ _ _ _ _ _ Hsh Hp) in Hw.
      rewrite walk_app, Hp. simpl in *. rewrite node_upd_eq in Hw. rewrite Hn.
      destruct (child c' x) as [l'|] eqn:Hx; [|done].
      rewrite (Hchild _ _ Hx). apply Hc' in Hx as [HP' _].
      erewrite walk_upd_below in Hw; [done..|]. by rewrite HPl.
    + erewrite walk_upd_other in Hw; [done..|]. by rewrite HPl.
Qed.

Lemma prunable_barren h c x b rest s :
  c !! x = Some b → prunableb h b = true → ¬ cstored h c (x :: rest) s.
Proof.
  intros Hx Hb. unfold prunableb in Hb. bool_hyps. simpl.
  rewrite (child_branch _ _ _ Hx), (subs_of_branch _ _ _ Hx). intros [[_ ?]|(l & Hl & Hs)].
  - set_solver.
  - rewrite Hl in *. destruct (node h l) as [[|]|] eqn:Hn; try done.
    destruct Hs as (q & w & l' & c' & -> & Hw & Hn' & Hs).
    destruct q as [|y q]; simpl in *; [by simplify_eq|by rewrite Hn in Hw].
Qed.

(** ** Removal *)

Context (prefix_free : ∀ a x ext, F a → F (a ++ x :: ext) → False).

(** With a prefix-free family a branch never carries both subscribers and an
    I-node. *)
Lemma child_no_subs P h root l c w l' :
  shape P h root → node h l = Some (MC c) → child c w = Some l' → subs_of c w = ∅.
Proof.
  intros Hsh Hn Hc. destruct (sh_good _ _ _ Hsh _ _ Hn) as [Hch Hs].
  apply set_eq. intros s. split; [|set_solver]. intros HF%Hs. exfalso.
  destruct (Hch _ _ Hc) as (_ & _ & x & ext & HF').
  apply (prefix_free _ x ext HF). by rewrite <-app_assoc.
Qed.

(** Every reachable I-node except possibly [l] holds a C-node. *)
Definition live_but (h : heap) (root l : positive) : Prop :=
  ∀ ws l0, walk h root ws = Some l0 → l0 = l ∨ ∃ c, node h l0 = Some (MC c).

Lemma prune_live P h root qx lx c cx l y p' :
  shape P h root → walk h root qx = Some lx → node h lx = Some (MC c) →
  pruning h c cx →
  live_but h root l → P l = qx ++ y :: p' → cx !! y = None →
  live (upd h lx (MC cx)) root.
Proof.
  intros Hsh Hp Hn Hsub Hlive HPl Hy ws l0 Hw. rewrite node_upd. case_decide; [eauto|].
  destruct (prune_commit P h root qx lx c cx) as (_ & _ & Hwalk); [done..|].
  destruct (Hlive ws l0) as [->|?]; [by apply Hwalk| |done].
  pose proof (shape_path _ _ _ _ _ Hsh (Hwalk _ _ Hw)) as HP. exfalso.
  rewrite <-HP, HPl, walk_app, (walk_upd_self _ _ _ _ _ _ Hsh Hp) in Hw. simpl in Hw.
  rewrite node_upd_eq in Hw. unfold child in Hw. by rewrite Hy in Hw.
Qed.

Lemma compress_prunes P h root l (c : gmap string branch) :
  shape P h root → node h l = Some (MC c) →
  ∃ c', run (toCompressed c) h = Done h c' ∧ pruning h c c' ∧
    ∀ x, c' !! x = match c !! x with
                   | Some b => if prunableb h b then None else Some b
                   | None => None
                   end.
Proof.
  intros Hsh Hn. destruct (run_toCompressed h c) as (c' & Hrun & Hc').
  { intros w l' Hw. by apply (sh_good _ _ _ Hsh _ _ Hn) in Hw as (_ & ? & _). }
  exists c'. split_and!; [done| |done].
  intros x. rewrite Hc'. destruct (c !! x) as [b|] eqn:Hx; [|by left].
  destruct (prunableb h b) eqn:Hb; [|by left]. right. split; [done|].
  intros. by eapply prunable_barren.
Qed.

(** The effect every contraction has: it commits at once, the tomb [l] is no
    longer reachable, and the stored subscriptions are the same. *)
Definition contracts (P : positive → list string) (h : heap) (root : positive)
    (r : outcome bool) : Prop :=
  ∃ h2, r = Done h2 true ∧ shape P h2 root ∧ live h2 root ∧
    ∀ ws s, stored h2 root ws s ↔ stored h root ws s.

Lemma prune_contracts P h root q lx mp (c cx : gmap string branch) l y p' :
  shape P h root → live_but h root l → walk h root q = Some lx →
  node h lx = Some (MC c) → h_inodes h !! lx = Some mp → pruning h c cx →
  P l = q ++ y :: p' → cx !! y = None →
  contracts P h root (run (cas lx mp (MC cx)) h).
Proof.
  intros Hsh Hlive Hq Hn Hmp Hpr HPl Hy. rewrite (run_cas_last _ _ _ _ Hmp).
  destruct (prune_commit P h root q lx c cx) as (? & ? & _); [done..|].
  eexists. split_and!; [done|done| |done]. by eapply prune_live.
Qed.

(** The branch of the parent that points to the tomb is dropped by compression. *)
Lemma tomb_branch_pruned P h root lp (pc ncn : gmap string branch) prev l :
  shape P h root → node h lp = Some (MC pc) → child pc prev = Some l → node h l = Some MT →
  (∀ x, ncn !! x = match pc !! x with
                   | Some b => if prunableb h b then None else Some b
                   | None => None
                   end) →
  ncn !! prev = None.
Proof.
  intros Hsh Hn Hch Htomb Hncn. rewrite Hncn.
  pose proof (child_no_subs _ _ _ _ _ _ _ Hsh Hn Hch) as Hno.
  unfold child, subs_of in *. destruct (pc !! prev) as [b|]; [|done]. simpl in Hch.
  unfold prunableb. by rewrite Hch, Htomb, bool_decide_eq_true_2.
Qed.

(** The branch of the parent's parent found by [contract]. *)
Lemma find_child_unique P h root q w lpp ppc lp :
  shape P h root → walk h root q = Some lpp → node h lpp = Some (MC ppc) →
  walk h root (q ++ [w]) = Some lp →
  ∃ b, find_child (map_to_list ppc) lp = Some (w, b) ∧ ppc !! w = Some b ∧ br_subs b = ∅.
Proof.
  intros Hsh Hq Hn Hlp. rewrite walk_app, Hq in Hlp. simpl in Hlp. rewrite Hn in Hlp.
  destruct (child ppc w) as [l'|] eqn:Hc; simplify_eq.
  pose proof (child_no_subs _ _ _ _ _ _ _ Hsh Hn Hc) as Hno.
  assert (∃ b, ppc !! w = Some b ∧ br_iNode b = Some lp) as (b & Hb & Hbl).
  { unfold child in Hc. destruct (ppc !! w) as [b|]; [by exists b|done]. }
  destruct (find_child_complete (map_to_list ppc) lp w b) as [[k b'] Hfind];
    [by apply elem_of_map_to_list|done|].
  pose proof (find_child_spec _ _ _ _ Hfind) as [Hk%elem_of_map_to_list Hkl].
  assert (k = w) as ->.
  { assert (child ppc k = Some lp) as Hck by (by rewrite (child_branch _ _ _ Hk)).
    apply (sh_good _ _ _ Hsh _ _ Hn) in Hc as [HP1 _], Hck as [HP2 _].
    rewrite HP1 in HP2. by apply app_inv_head in HP2 as [= ->]. }
  rewrite (subs_of_branch _ _ _ Hk) in Hno. eauto.
Qed.

(** Unlinking an emptied I-node [lp] from its parent is a pruning. *)
Lemma drop_child_pruning P h root q lpp ppc w lp pc ncn c3 :
  shape P h root → walk h root q = Some lpp → node h lpp = Some (MC ppc) →
  walk h root (q ++ [w]) = Some lp → node h lp = Some (MC pc) →
  subs_of ppc w = ∅ → pruning h pc ncn → (∀ x, ncn !! x = None) →
  (∀ x, c3 !! x = match delete w ppc !! x with
                  | Some b => if prunableb h b then None else Some b
                  | None => None
                  end) →
  pruning h ppc c3.
Proof.
  intros Hsh Hq Hpp Hlp Hn Hno Hpr Hempty Hc3 x. rewrite Hc3, lookup_delete.
  case_decide as Hx; subst.
  - right. split; [done|]. intros rest s [[_ ?]|(l' & Hl' & Hs)]; [set_solver|].
    rewrite walk_app, Hq in Hlp. simpl in Hlp. rewrite Hpp, Hl' in Hlp. simplify_eq.
    apply (stored_at _ _ _ _ _ Hn) in Hs. destruct rest as [|y rest]; [done|].
    destruct (Hpr y) as [Heq|[_ Hnone]]; [|by apply Hnone in Hs].
    rewrite Hempty in Heq. unfold cstored, child, subs_of in Hs. rewrite <-Heq in Hs. set_solver.
  - destruct (ppc !! x) as [b'|] eqn:Hx'; [|by left].
    destruct (prunableb h b') eqn:Hb'; [|by left]. right. split; [done|].
    intros. by eapply prunable_barren.
Qed.

Lemma contract_run P h root q prev lp pc pMain pp l :
  shape P h root → live_but h root l → node h l = Some MT →
  walk h root q = Some lp → h_inodes h !! lp = Some pMain → mp_node pMain = MC pc →
  child pc prev = Some l →
  (q = [] ∧ pp = None) ∨
    (∃ q' w' lpp, q = q' ++ [w'] ∧ pp = Some lpp ∧ walk h root q' = Some lpp) →
  contracts P h root (run (contract root pp lp pMain) h).
Proof.
  intros Hsh Hlive Htomb Hq Hmp Hpc Hch Hctx.
  assert (node h lp = Some (MC pc)) as Hn by (unfold node; by rewrite Hmp, <-Hpc).
  assert (P l = q ++ [prev]) as HPl.
  { rewrite <-(shape_path _ _ _ _ _ Hsh Hq). by apply (sh_good _ _ _ Hsh _ _ Hn) in Hch as [? _]. }
  destruct (compress_prunes P h root lp pc) as (ncn & Hrun & Hpr & Hncn); [done..|].
  pose proof (tomb_branch_pruned _ _ _ _ _ _ _ _ Hsh Hn Hch Htomb Hncn) as Hprev.
  unfold contract. rewrite Hpc, run_bind, Hrun.
  assert ((root ≠ lp → ncn ≠ ∅) → contracts P h root
    (run (pMain' ← load lp; cas lp pMain' (toContracted root ncn lp)) h)) as Hsimple.
  { intros Hcn. exec_load Hn mp' Hmp'.
    replace (toContracted root ncn lp) with (MC ncn); [by eapply prune_contracts|].
    unfold toContracted. destruct (decide (root = lp)) as [->|Hr].
    - rewrite bool_decide_eq_false_2 by naive_solver. done.
    - rewrite (bool_decide_eq_false_2 (ncn = ∅)) by auto. by rewrite andb_false_r. }
  destruct Hctx as [[-> ->]|(q' & w' & lpp & -> & -> & Hq')].
  { apply Hsimple. simpl in Hq. by intros []; simplify_eq. }
  case_bool_decide as Hempty; [|by apply Hsimple].
  assert (∃ ppc, node h lpp = Some (MC ppc)) as [ppc Hpp].
  { destruct (Hlive _ _ Hq') as [->|?]; [|done].
    pose proof (shape_path _ _ _ _ _ Hsh Hq') as HP. rewrite HPl in HP.
    apply (f_equal length) in HP. rewrite !length_app in HP. simpl in HP. lia. }
  exec_load Hpp ppMain HppMain.
  destruct (find_child_unique P h root q' w' lpp ppc lp) as (b & -> & Hb & Hbs); [done..|].
  rewrite bool_decide_eq_true_2 by done. unfold cNode_updatedBranch. rewrite delete_insert_eq.
  destruct (run_toCompressed h (delete w' ppc)) as (c3 & Hrun3 & Hc3).
  { intros x l' Hx. apply (sh_good _ _ _ Hsh _ _ Hpp) with x.
    unfold child in *. rewrite lookup_delete in Hx. by case_decide. }
  rewrite run_bind, Hrun3.
  eapply (prune_contracts P h root q' lpp ppMain ppc c3 l w' [prev]); [done..| | |].
  - eapply (drop_child_pruning P h root q' lpp ppc w' lp pc ncn); [done..|by rewrite (subs_of_branch _ _ _ Hb)|done| |done].
    by intros x; rewrite Hempty, lookup_empty.
  - rewrite HPl, <-app_assoc. done.
  - rewrite Hc3. by rewrite lookup_delete_eq.
Qed.

Lemma removed_child c w sub x : child (cNode_removed c w sub) x = child c x.
Proof.
  unfold cNode_removed. destruct (c !! w) as [br|] eqn:Hw; [|done]. simpl.
  destruct (_ && _) eqn:Hb; bool_hyps; unfold child.
  - rewrite lookup_delete. destruct (decide (w = x)) as [<-|]; [|done]. rewrite Hw. simpl in *. set_solver.
  - rewrite lookup_insert. destruct (decide (w = x)) as [<-|]; [|done]. rewrite Hw. simpl. set_solver.
Qed.

Lemma removed_subs c w sub x :
  subs_of (cNode_removed c w sub) x = if decide (w = x) then subs_of c x ∖ {[ sub ]} else subs_of c x.
Proof.
  unfold cNode_removed. destruct (c !! w) as [br|] eqn:Hw; simpl; last first.
  { case_decide; [subst|done]. unfold subs_of. rewrite Hw. set_solver. }
  destruct (_ && _) eqn:Hb; bool_hyps; unfold subs_of.
  - rewrite lookup_delete. destruct (decide (w = x)) as [<-|]; [|done]. rewrite Hw. simpl in *. set_solver.
  - rewrite lookup_insert. destruct (decide (w = x)) as [<-|]; [|done]. rewrite Hw. simpl. set_solver.
Qed.

(** Where [iremove] stands: the I-node at path [p], its parent and the parent's
    parent, and the last word of [p]. *)
Definition rm_ctx (h : heap) (root : positive) (p : list string)
    (parent pp : option positive) (prev : string) : Prop :=
  (p = [] ∧ parent = None ∧ pp = None) ∨
  ∃ q lp, p = q ++ [prev] ∧ parent = Some lp ∧ walk h root q = Some lp ∧
    ((q = [] ∧ pp = None) ∨
     ∃ q' w' lpp, q = q' ++ [w'] ∧ pp = Some lpp ∧ walk h root q' = Some lpp).

Lemma rm_ctx_down h root p l parent pp prev w :
  walk h root p = Some l → rm_ctx h root p parent pp prev → rm_ctx h root (p ++ [w]) (Some l) parent w.
Proof.
  intros Hp Hctx. right. exists p, l. split_and!; [done..|].
  destruct Hctx as [(-> & -> & ->)|(q & lp & -> & -> & Hq & _)]; [by left|]. right. eauto 7.
Qed.

(** Turning an emptied I-node into a tomb removes exactly the last subscriber. *)
Lemma tomb_step P h root p l c w sub :
  shape P h root → live h root → walk h root p = Some l → node h l = Some (MC c) →
  sub ∈ subs_of c w → cNode_removed c w sub = ∅ →
  shape P (upd h l MT) root ∧ live_but (upd h l MT) root l ∧
  ∀ ws s, stored (upd h l MT) root ws s ↔ stored h root ws s ∧ ¬ (ws = p ++ [w] ∧ s = sub).
Proof.
  intros Hsh Hlive Hp Hn Hin Hempty. pose proof (shape_path _ _ _ _ _ Hsh Hp) as HPl. split_and!.
  - apply shape_upd; [done|by rewrite Hn|done].
  - intros ws l0 Hw. destruct (decide (l0 = l)) as [|Hne]; [by left|]. right.
    rewrite node_upd_ne by done. destruct (prefix_ext_dec p ws) as [[[x rest] ->]|Hno]; simpl in *.
    + rewrite walk_app, (walk_upd_self _ _ _ _ _ _ Hsh Hp) in Hw. simpl in Hw.
      by rewrite node_upd_eq in Hw.
    + erewrite walk_upd_other in Hw; [by eapply Hlive|done|by rewrite HPl].
  - intros ws s. destruct (prefix_ext_dec p ws) as [[[x rest] ->]|Hno]; simpl in *.
    + rewrite (stored_app _ _ p l) by eauto using walk_upd_self.
      rewrite (stored_app _ _ _ _ _ _ Hp), (stored_at _ _ _ _ _ Hn) by done.
      assert (child c x = None) as Hcx by (rewrite <-(removed_child c w sub), Hempty; done).
      pose proof (removed_subs c w sub x) as Hsx. rewrite Hempty, subs_of_empty in Hsx.
      split.
      * intros (q & y & l' & c' & Heq & Hw & Hn' & Hs). destruct q; simpl in Hw.
        -- simplify_eq. by rewrite node_upd_eq in Hn'.
        -- by rewrite node_upd_eq in Hw.
      * simpl. rewrite Hcx. intros [[[-> Hs]|(? & ? & _)] Hne]; [|done]. exfalso.
        case_decide; [subst|set_solver]. apply Hne. split; [done|set_solver].
    + erewrite stored_upd_out by done. split; [|by intros [? _]]. intros ?. split; [done|].
      intros [-> _]. eauto.
Qed.


Lemma cleanParent_run fuel P h root q prev lp pc pp l :
  shape P h root → live_but h root l → node h l = Some MT →
  walk h root q = Some lp → node h lp = Some (MC pc) → child pc prev = Some l →
  (q = [] ∧ pp = None) ∨
    (∃ q' w' lpp, q = q' ++ [w'] ∧ pp = Some lpp ∧ walk h root q' = Some lpp) →
  ∃ h2, run (cleanParent fuel root l lp pp prev) h = Done h2 tt ∧ shape P h2 root ∧ live h2 root ∧
    ∀ ws s, stored h2 root ws s ↔ stored h root ws s.
Proof.
  intros Hsh Hlive Htomb Hq Hn Hch Hctx.
  destruct (run_load _ _ _ Hn) as (pMain & Hmp & Hpc & _).
  destruct (contract_run P h root q prev lp pc pMain pp l) as (h2 & Hrun & ? & ? & ?); [done..|].
  exists h2. split_and!; [|done..]. destruct fuel; cbn [cleanParent].
  all: exec_load Htomb mt Hmt.
  all: exec_load Hn mp Hmp'.
  all: assert (mp = pMain) as -> by congruence.
  all: unfold child in Hch; destruct (pc !! prev) as [br|]; [|done]; simpl in Hch.
  all: rewrite Hch, bool_decide_eq_true_2 by done; cbn [negb].
  all: by rewrite run_bind, Hrun.
Qed.

(** Dropping a subscriber from a C-node that stays in place. *)
Lemma commit_removed P h root p l c w sub :
  shape P h root → live h root → walk h root p = Some l → node h l = Some (MC c) →
  let h' := upd h l (MC (cNode_removed c w sub)) in
  shape P h' root ∧ live h' root ∧
  ∀ ws s, stored h' root ws s ↔ stored h root ws s ∧ ¬ (ws = p ++ [w] ∧ s = sub).
Proof.
  intros Hsh Hlive Hp Hn. pose proof (sh_good _ _ _ Hsh _ _ Hn) as Hgood.
  rewrite (shape_path _ _ _ _ _ Hsh Hp) in Hgood. set (c' := cNode_removed c w sub).
  assert (cgood P h p c') as Hc'.
  { split; [intros x l'; unfold c'; rewrite removed_child; apply Hgood|].
    intros x s. unfold c'. rewrite removed_subs. intros Hs. apply (proj2 Hgood x s).
    case_decide; set_solver. }
  simpl. split_and!.
  - by eapply commit_node.
  - eapply live_upd; [done..|]. intros x l' Hx. split; [by apply Hc' in Hx as [? _]|].
    unfold c' in Hx. rewrite removed_child in Hx.
    apply (live_child h l c x l'); [by apply (live_at h root p)|done..].
  - eapply (commit_spec P h root p l c c' (λ s ws X, X ∧ ¬ (ws = p ++ [w] ∧ s = sub)));
      [done..| | |solve_proper].
    + intros x rest s. simpl. unfold c'. rewrite removed_child, removed_subs.
      split.
      * intros [[[-> Hs]|Hs] Hne]; [|by right]. left. split; [done|].
        case_decide; [subst|done]. apply elem_of_difference. split; [done|]. set_solver.
      * intros [[-> Hs]|(l' & Hl' & Hs)].
        -- case_decide as Hx; [subst; set_solver|]. split; [by left|].
           intros [[= ->]%app_inv_head _]. done.
        -- split; [right; eauto|]. intros [[= -> ->]%app_inv_head _].
           by apply stored_nil in Hs.
    + intros ws s Hno. split; [by intros [? _]|]. intros ?. split; [done|].
      intros [-> _]. apply Hno. eauto.
Qed.

(** After the tombing, [iremove] unlinks the tomb. *)
Lemma tomb_clean fuel P h root p l c w sub parent pp prev :
  shape P h root → live h root → walk h root p = Some l → node h l = Some (MC c) → root ≠ l →
  rm_ctx h root p parent pp prev →
  shape P (upd h l MT) root → live_but (upd h l MT) root l →
  (∀ ws s, stored (upd h l MT) root ws s ↔ stored h root ws s ∧ ¬ (ws = p ++ [w] ∧ s = sub)) →
  ∃ h1, run (match parent with
             | None => Ret true
             | Some p =>
                 main' ← load l;
                 match mp_node main' with
                 | MT => _ ← cleanParent fuel root l p pp prev; Ret true
                 | MC _ => Ret true
                 end
             end) (upd h l MT) = Done h1 true ∧
    shape P h1 root ∧ live h1 root ∧
    ∀ ws s, stored h1 root ws s ↔ stored h root ws s ∧ ¬ (ws = p ++ [w] ∧ s = sub).
Proof.
  intros Hsh Hlive Hp Hn Hroot Hctx Hsh1 Hl1 Hst1.
  pose proof (shape_path _ _ _ _ _ Hsh Hp) as HPl.
  destruct Hctx as [(-> & _ & _)|(q & lp & -> & -> & Hq & Hpp)]; [simpl in Hp; congruence|].
  assert (∀ a b, q ++ [prev] = a ++ b → b ≠ [] → walk (upd h l MT) root a = walk h root a) as Hsame.
  { intros a b Hab Hb. eapply walk_upd_other; [done|]. rewrite HPl, Hab. intros (x & rest & Heq).
    apply (f_equal length) in Heq. rewrite !length_app in Heq. destruct b; simpl in *; [done|lia]. }
  destruct (Hlive _ _ Hq) as [pc Hpc].
  assert (child pc prev = Some l) as Hch.
  { rewrite walk_app, Hq in Hp. simpl in Hp. rewrite Hpc in Hp. by destruct (child pc prev). }
  exec_load (node_upd_eq h l MT) mp' Hmp'.
  destruct (cleanParent_run fuel P (upd h l MT) root q prev lp pc pp l)
    as (h2 & Hrun & Hsh2 & Hl2 & Hst2); [done..|by apply node_upd_eq| | |done| |].
  - by rewrite (Hsame q [prev]).
  - rewrite node_upd_ne; [done|]. intros ->.
    apply (sh_good _ _ _ Hsh _ _ Hpc) in Hch as [HP _]. apply (f_equal length) in HP. rewrite length_app in HP. simpl in HP. lia.
  - destruct Hpp as [[-> ->]|(q' & w' & lpp & -> & -> & Hq')]; [by left|right].
    exists q', w', lpp. split_and!; [done..|]. rewrite (Hsame q' [w'; prev]); [done| |done].
    by rewrite <-app_assoc.
  - exists h2. rewrite run_bind, Hrun. split_and!; [done..|]. intros ws s. by rewrite Hst2.
Qed.

Lemma iremove_run fuel P root sub words : ∀ h p l parent pp prev,
  shape P h root → live h root → walk h root p = Some l → words ≠ [] →
  rm_ctx h root p parent pp prev →
  ∃ h1, run (iremove fuel root l parent pp prev words sub) h = Done h1 true ∧
    shape P h1 root ∧ live h1 root ∧
    ∀ ws s, stored h1 root ws s ↔ stored h root ws s ∧ ¬ (ws = p ++ words ∧ s = sub).
Proof.
  induction words as [|w rest IH]; intros h p l parent pp prev Hsh Hlive Hp Hne Hctx; [done|].
  destruct (Hlive _ _ Hp) as [c Hn]. cbn [iremove]. exec_load Hn mp Hmp.
  assert (¬ stored h root (p ++ w :: rest) sub → ∃ h1,
    run (Ret true) h = Done h1 true ∧ shape P h1 root ∧ live h1 root ∧
    ∀ ws s, stored h1 root ws s ↔ stored h root ws s ∧ ¬ (ws = p ++ w :: rest ∧ s = sub)) as Hsame.
  { intros Hno. exists h. split_and!; [done..|]. intros ws s. split; [|by intros [? _]].
    intros Hs. split; [done|]. intros [-> ->]. done. }
  rewrite (stored_app _ _ _ _ _ _ Hp), (stored_at _ _ _ _ _ Hn) in Hsame by done.
  cbn [cstored] in Hsame. unfold subs_of, child in Hsame.
  destruct (c !! w) as [br|] eqn:Hw; cbn [mbind option_bind] in Hsame;
    [|apply Hsame; intros [[_ ?]|(? & ? & _)]; [set_solver|done]].
  destruct rest as [|w' rest].
  - case_bool_decide as Hin; cbn [negb]; [|apply Hsame; intros [[_ ?]|(? & _ & ?%stored_nil)]; done].
    rewrite (run_cas _ _ _ _ _ Hmp). unfold toContracted.
    destruct (commit_removed P h root p l c w sub) as (Hsh' & Hlive' & Hst'); [done..|].
    set (ncn := cNode_removed c w sub) in *.
    destruct (bool_decide (root ≠ l) && bool_decide (ncn = ∅)) eqn:Hcn; bool_hyps; last first.
    + exists (upd h l (MC ncn)). split_and!; [|done..]. destruct parent as [lp|]; [|done].
      by exec_load (node_upd_eq h l (MC ncn)) mp' Hmp'.
    + destruct (tomb_step P h root p l c w sub) as (Hsh1 & Hl1 & Hst1);
        [done..|by rewrite (subs_of_branch _ _ _ Hw)|done|].
      eapply tomb_clean; done.
  - destruct (br_iNode br) as [l1|] eqn:Hch; [|apply Hsame; naive_solver].
    destruct (IH h (p ++ [w]) l1 (Some l) parent w) as (h1 & Hrun & Hsh1 & Hl1 & Hst1);
      [done..| |done|by eapply rm_ctx_down|].
    { rewrite walk_app, Hp. simpl. by rewrite Hn, (child_branch _ _ _ Hw), Hch. }
    exists h1. split_and!; [done..|]. intros ws s. by rewrite Hst1, <-app_assoc.
Qed.

(** ** The Matcher operations on a represented trie *)

(** [repr h root R]: the trie at [root] holds exactly the registrations [R]. *)
Definition repr (h : heap) (root : positive) (R : gset (list string * Sub)) : Prop :=
  live h root ∧ (∃ P, shape P h root) ∧ ∀ ws s, stored h root ws s ↔ (ws, s) ∈ R.

Lemma repr_new : repr NewCSTrieMatcher.1 NewCSTrieMatcher.2 ∅.
Proof.
  assert (∀ l n, node NewCSTrieMatcher.1 l = Some n → l = 1%positive ∧ n = MC ∅) as Hnode.
  { intros l n. unfold node, NewCSTrieMatcher; cbn [h_inodes fst].
    intros (mp & [<- <-]%lookup_singleton_Some & ->)%fmap_Some. done. }
  assert (∀ ws l, walk NewCSTrieMatcher.1 1 ws = Some l → ws = [] ∧ l = 1%positive) as Hwalk.
  { intros [|w ws] l; [by intros [= <-]|done]. }
  unfold repr. split_and!.
  - intros ws l [-> ->]%Hwalk. by exists ∅.
  - exists (λ _, []). split; [done|by exists (MC ∅)| |].
    + intros l c [-> [= ->]]%Hnode. split; intros w; [done|]. rewrite subs_of_empty. set_solver.
    + intros l [n [-> _]%Hnode]. cbn. lia.
  - intros ws s. split; [|set_solver]. intros (p & w & l & c & _ & [_ ->]%Hwalk & Hn & Hs).
    apply Hnode in Hn as [_ [= ->]]. rewrite subs_of_empty in Hs. set_solver.
Qed.

Lemma Subscribe_run fuel h root R topic sub :
  repr h root R → validTopic topic = true → F (SplitSegments topic) →
  ∃ h', run (Subscribe (S fuel) root topic (Comparable sub)) h
          = Done h' (Ok (mkSubscription topic sub)) ∧
        repr h' root ({[ (SplitSegments topic, sub) ]} ∪ R).
Proof.
  intros (Hlive & [P Hsh] & Hst) Hv HF. unfold Subscribe. rewrite Hv. cbn [negb retry].
  destruct (iinsert_run P root sub (SplitSegments topic) h [] root None)
    as (h1 & P1 & Hrun & Hsh1 & Hlive1 & Hst1); [done..|apply SplitSegments_ne|done|].
  exists h1. rewrite run_bind_assoc, run_bind, Hrun. split; [done|].
  split_and!; [done|by exists P1|]. intros ws s. rewrite Hst1, Hst. set_solver.
Qed.

Lemma Unsubscribe_run fuel h root R topic sub :
  repr h root R →
  ∃ h', run (Unsubscribe (S fuel) root (Some (mkSubscription topic sub))) h = Done h' tt ∧
        repr h' root (R ∖ {[ (SplitSegments topic, sub) ]}).
Proof.
  intros (Hlive & [P Hsh] & Hst). unfold Unsubscribe. cbn [sub_Topic sub_Subscriber retry].
  destruct (iremove_run (S fuel) P root sub (SplitSegments topic) h [] root None None "")
    as (h1 & Hrun & Hsh1 & Hlive1 & Hst1); [done..|apply SplitSegments_ne|by left|].
  exists h1. rewrite run_bind_assoc, run_bind, Hrun. split; [done|].
  split_and!; [done|by exists P|]. intros ws s. rewrite Hst1, Hst. set_solver.
Qed.

Lemma Lookup_run fuel h root R topic :
  repr h root R →
  ∃ S, run (Lookup (Datatypes.S fuel) root topic) h = Done h S ∧
    ∀ s, s ∈ S ↔ Forall (λ c, c ≠ "") (SplitSegments topic) ∧
      ∃ ps, (ps, s) ∈ R ∧ seg_match ps (SplitSegments topic).
Proof.
  intros (Hlive & _ & Hst). unfold Lookup. destruct (existsb _ _) eqn:He.
  { exists ∅. split; [done|]. intros s. split; [set_solver|]. intros [Hf%no_empty_constituent _].
    congruence. }
  apply no_empty_constituent in He. cbn [retry].
  destruct (run_ilookup h (SplitSegments topic) root None) as (S & Hrun & HS);
    [done..|apply SplitSegments_ne|].
  exists S. rewrite run_bind, Hrun. split; [done|]. intros s. rewrite HS. split.
  - intros (ps & ?%Hst & ?). eauto.
  - intros [_ (ps & ?%Hst & ?)]. eauto.
Qed.

End Family.

(** ** Sequences of operations *)

Inductive op :=
| OSub (topic : string) (arg : SubscriberArg)
| OUnsub (sub : option Subscription).

Fixpoint exec (fuel : nat) (root : positive) (ops : list op) (h : heap) : outcome unit :=
  match ops with
  | [] => Done h tt
  | o :: ops' =>
      match (match o with
             | OSub t a => run (_ ← Subscribe fuel root t a; Ret tt) h
             | OUnsub s => run (Unsubscribe fuel root s) h
             end) with
      | Done h' _ => exec fuel root ops' h'
      | Crashed => Crashed
      | Spinning => Spinning
      end
  end.

(** The promise of the Matcher interface, on a set of registrations. *)
Definition spec_op (R : gset (list string * Sub)) (o : op) : gset (list string * Sub) :=
  match o with
  | OSub t (Comparable s) => if validTopic t then {[ (SplitSegments t, s) ]} ∪ R else R
  | OSub _ NotComparable => R
  | OUnsub (Some s) => R ∖ {[ (SplitSegments (sub_Topic s), sub_Subscriber s) ]}
  | OUnsub None => R
  end.

(** The topics subscribed by a sequence of operations, as segment lists. *)
Definition op_family (ops : list op) (ws : list string) : Prop :=
  ∃ t a, OSub t a ∈ ops ∧ validTopic t = true ∧ ws = SplitSegments t.

Definition prefix_free_ops (ops : list op) : Prop :=
  ∀ t1 a1 t2 a2 x ext, OSub t1 a1 ∈ ops → OSub t2 a2 ∈ ops →
    validTopic t1 = true → validTopic t2 = true →
    SplitSegments t2 ≠ SplitSegments t1 ++ x :: ext.

Lemma exec_repr (F : list string → Prop) fuel root ops : ∀ h R,
  (∀ a x ext, F a → F (a ++ x :: ext) → False) →
  (∀ ws, op_family ops ws → F ws) → repr F h root R →
  ∃ h', exec (S fuel) root ops h = Done h' tt ∧ repr F h' root (foldl spec_op R ops).
Proof.
  induction ops as [|o ops IH]; intros h R Hpf HF Hr; [by exists h|].
  assert (∀ ws, op_family ops ws → F ws) as HF'.
  { intros ws (t & a & Hin & ? & ?). apply HF. exists t, a. split; [by right|done]. }
  cbn [exec foldl]. destruct o as [t [s|]|[[t s]|]]; cbn [spec_op sub_Topic sub_Subscriber].
  - destruct (validTopic t) eqn:Hv.
    + destruct (Subscribe_run F Hpf fuel h root R t s) as (h1 & Hrun & Hr1);
        [done..|apply HF; exists t, (Comparable s); by split; [left|]|].
      rewrite run_bind, Hrun. by apply IH.
    + rewrite run_bind. unfold Subscribe. rewrite Hv. by apply IH.
  - rewrite run_bind. by apply IH.
  - destruct (Unsubscribe_run F Hpf fuel h root R t s) as (h1 & Hrun & Hr1); [done|].
    rewrite Hrun. by apply IH.
  - by apply IH.
Qed.

(** C1: The trie refines the Matcher contract on prefix-free topic sets.  For
    every sequence of Subscribe and Unsubscribe calls (rejected topics,
    non-comparable subscribers and nil subscriptions included) in which no
    subscribed topic's segment list is a strict prefix of another's, every call
    returns on its first attempt, whatever the retry bound, and afterwards
    Lookup also returns at once with exactly the subscribers of the
    registrations that match the topic, segment by segment (none for a topic with
    an empty segment).  A "**" inside the looked-up topic is a segment like any
    other: such topics do match, see [middle_dstar_topic_matches]. *)
Theorem matcher_refines fuel ops topic :
  prefix_free_ops ops →
  ∃ h' S, exec (Datatypes.S fuel) NewCSTrieMatcher.2 ops NewCSTrieMatcher.1 = Done h' tt ∧
    run (Lookup (Datatypes.S fuel) NewCSTrieMatcher.2 topic) h' = Done h' S ∧
    ∀ s, s ∈ S ↔ Forall (λ c, c ≠ "") (SplitSegments topic) ∧
      ∃ ps, (ps, s) ∈ foldl spec_op ∅ ops ∧ seg_match ps (SplitSegments topic).
Proof.
  intros Hpf.
  assert (∀ a x ext, op_family ops a → op_family ops (a ++ x :: ext) → False) as Hpf'.
  { intros ws x ext (t1 & a1 & ? & ? & ->) (t2 & a2 & ? & ? & Heq).
    by apply (Hpf t1 a1 t2 a2 x ext). }
  destruct (exec_repr (op_family ops) fuel NewCSTrieMatcher.2 ops NewCSTrieMatcher.1 ∅)
    as (h' & Hrun & Hr); [done..|by apply repr_new|].
  destruct (Lookup_run _ Hpf' fuel h' _ _ topic Hr) as (S & HS & Hspec). eauto 6.
Qed.

End Prog.

(** ** The trie as an implementation of the Matcher interface

    The state is the I-node store; one retry round is enough, so a larger bound
    would not change any result on the represented tries. *)

Section Instance_.
Context {Sub : Type} `{Countable Sub}.

Local Abbreviation trie_root := (NewCSTrieMatcher (Sub:=Sub)).2.

#[global] Instance cstrie_matcher : Matcher Sub (heap (Sub:=Sub)) := {
  m_new := NewCSTrieMatcher.1;
  m_Subscribe topic s h :=
    match run (Subscribe 1 trie_root topic (Comparable s)) h with
    | Done h' r => Some (result_bind r (λ _, Ok tt), h')
    | _ => None
    end;
  m_Unsubscribe topic s h :=
    match run (Unsubscribe 1 trie_root (Some (mkSubscription topic s))) h with
    | Done h' _ => Some h' | _ => None
    end;
  m_Lookup topic h :=
    match run (Lookup 1 trie_root topic) h with
    | Done _ subs => Some (elements subs) | _ => None
    end;
}.

#[global] Program Instance cstrie_laws (F : list string → Prop)
    (prefix_free : ∀ a x ext, F a → F (a ++ x :: ext) → False) : MatcherLaws F Sub heap := {
  m_repr h R := repr F h trie_root R;
}.
Next Obligation. intros. by apply repr_new. Qed.
Next Obligation.
  intros F Hpf h topic s Hv. cbn [m_Subscribe cstrie_matcher]. unfold Subscribe. by rewrite Hv.
Qed.
Next Obligation.
  intros F Hpf h R topic s Hr Hv HF.
  destruct (Subscribe_run F Hpf 0 h trie_root R topic s) as (h' & Hrun & Hr'); [done..|].
  cbn [m_Subscribe cstrie_matcher]. rewrite Hrun. eauto.
Qed.
Next Obligation.
  intros F Hpf h R topic s Hr.
  destruct (Unsubscribe_run F Hpf 0 h trie_root R topic s) as (h' & Hrun & Hr'); [done..|].
  cbn [m_Unsubscribe cstrie_matcher]. rewrite Hrun. eauto.
Qed.
Next Obligation.
  intros F Hpf h R topic Hr.
  destruct (Lookup_run F Hpf 0 h trie_root R topic Hr) as (S & Hrun & HS).
  cbn [m_Lookup cstrie_matcher]. rewrite Hrun. exists (elements S).
  split_and!; [done|apply NoDup_elements|]. intros s. by rewrite elem_of_elements.
Qed.

(** The laws the clients use. *)
#[global] Instance cstrie_trailing_laws : MatcherLaws trailing_wildcard Sub heap :=
  cstrie_laws trailing_wildcard trailing_wildcard_prefix_free.

End Instance_.

(** ** A concrete trie with string subscribers *)

Definition heap0 : heap (Sub:=string) := NewCSTrieMatcher.1.
Definition root0 : positive := (NewCSTrieMatcher (Sub:=string)).2.

Definition ops0 : list (op (Sub:=string)) :=
  [OSub "a.*" (Comparable "s1"); OSub "a.b" (Comparable "s2"); OSub "a..b" (Comparable "s3");
   OSub "a.d" NotComparable; OUnsub None; OUnsub (Some (mkSubscription "a.b" "s2"))].

(** The comment on Matcher says that a topic with "**" in the middle never matches
    in Lookup.  It is refused by Subscribe, but Lookup only refuses empty segments:
    it finds the subscribers of "a.*.b" and of "**". *)
Theorem middle_dstar_topic_matches :
  ValidateTopic "a.**.b" = Err ErrBadTopic ∧
  (∃ h' S, exec 1 root0 [OSub "a.*.b" (Comparable "s1")] heap0 = Done h' tt ∧
     run (Lookup 1 root0 "a.**.b") h' = Done h' S ∧ S = {[ "s1" ]}) ∧
  (∃ h' S, exec 1 root0 [OSub "**" (Comparable "s1")] heap0 = Done h' tt ∧
     run (Lookup 1 root0 "a.**.b") h' = Done h' S ∧ S = {[ "s1" ]}).
Proof. split; [by vm_compute|]. split; do 2 eexists; (split; [vm_compute; reflexivity|]); split; vm_compute; reflexivity. Qed.

Lemma matcher_refines_witness :
  prefix_free_ops ops0 ∧
  ∃ h' S, exec 1 root0 ops0 heap0 = Done h' tt ∧
    run (Lookup 1 root0 "a.b") h' = Done h' S ∧ "s1" ∈ S ∧ ¬ "s2" ∈ S.
Proof.
  assert (prefix_free_ops ops0) as Hpf.
  { intros t1 a1 t2 a2 x ext H1 H2 Hv1 Hv2. unfold ops0 in *.
    set_unfold in H1; set_unfold in H2.
    repeat match goal with H : _ ∨ _ |- _ => destruct H | H : OSub _ _ = _ |- _ => simplify_eq end;
      try done; intros Heq; vm_compute in Heq; simplify_eq. }
  split; [exact Hpf|].
  destruct (matcher_refines 0 ops0 "a.b" Hpf) as (h' & S & He & Hl & HS).
  exists h', S. split_and!; [exact He|exact Hl| |].
  - apply HS. split; [by repeat constructor|]. exists ["a"; "*"].
    split; [by apply (bool_decide_unpack _); vm_compute|]. apply seg_matchb_spec. by vm_compute.
  - intros (_ & ps & Hin & _)%HS. revert Hin.
    replace (foldl spec_op ∅ ops0) with ({[ (["a"; "*"], "s1") ]} : gset (list string * string));
      [set_solver|]. apply (bool_decide_unpack _). by vm_compute.
Defined.

(** ** What happens outside prefix-free topic sets *)

(** The trie in which the word "a" has a subscriber and a tomb below it. *)
Definition stuck (h : heap (Sub:=string)) : Prop :=
  ∃ l, node h root0 = Some (MC {[ "a" := Branch (Some l) {[ "s1" ]} ]}) ∧ node h l = Some MT.

Lemma stuck_clean h : stuck h → ∃ h', run (clean (Some root0)) h = Done h' tt ∧ stuck h'.
Proof.
  intros (l & Hr & Hl). destruct (run_load _ _ _ Hr) as (mp & Hmp & Hnode & Hload).
  assert (root0 ≠ l) as Hne by congruence.
  exists (upd h root0 (MC {[ "a" := Branch (Some l) {[ "s1" ]} ]})).
  unfold clean. rewrite Hload, Hnode. split.
  - rewrite run_bind.
    replace (run (toCompressed _) h) with (Done h ({[ "a" := Branch (Some l) {[ "s1" ]} ]} : gmap string (branch (Sub:=string)))).
    + by rewrite (run_cas _ _ _ _ _ Hmp).
    + unfold toCompressed. rewrite map_to_list_singleton. done.
  - exists l. by rewrite node_upd_eq, node_upd_ne.
Qed.

Lemma stuck_retry {A} (attempt : prog (option A)) fuel : ∀ h,
  (∀ h, stuck h → ∃ h', run attempt h = Done h' None ∧ stuck h') →
  stuck h → run (retry fuel attempt) h = Spinning.
Proof.
  induction fuel as [|fuel IH]; intros h Hstep Hs; [done|].
  destruct (Hstep h Hs) as (h' & Hrun & Hs'). cbn [retry]. rewrite run_bind, Hrun. by apply IH.
Qed.

(** Reaching the tomb below "a" makes the operation clean up and retry. *)
Lemma stuck_lookup h :
  stuck h → ∃ h', run (ilookup root0 None ["a"; "c"]) h = Done h' None ∧ stuck h'.
Proof.
  intros Hs. destruct (stuck_clean h Hs) as (h' & Hrun & Hs'). exists h'. split; [|done].
  destruct Hs as (l & Hr & Hl). destruct (run_load _ _ _ Hr) as (mp & Hmp & Hnode & Hload).
  destruct (run_load _ _ _ Hl) as (mt & Hmt & Hnodet & Hloadt).
  cbn [ilookup]. rewrite Hload, Hnode, bool_decide_eq_false_2, run_bind by done.
  replace (run (lookup_branch _ _ _) h) with (Done h' (@None (gset string))); [done|].
  rewrite lookup_singleton_eq. cbn [lookup_branch bLookup br_iNode].
  rewrite Hloadt, Hnodet. by rewrite run_bind, Hrun.
Qed.

Lemma stuck_insert h s :
  stuck h → ∃ h', run (ok ← iinsert root0 None ["a"; "c"] s;
    Ret (if ok : bool then Some (Ok (E:=TopicError) (mkSubscription "a.c" s)) else None)) h
    = Done h' None ∧ stuck h'.
Proof.
  intros Hs. destruct (stuck_clean h Hs) as (h' & Hrun & Hs'). exists h'. split; [|done].
  destruct Hs as (l & Hr & Hl). destruct (run_load _ _ _ Hr) as (mp & Hmp & Hnode & Hload).
  destruct (run_load _ _ _ Hl) as (mt & Hmt & Hnodet & Hloadt).
  cbn [iinsert]. rewrite run_bind, Hload, Hnode.
  rewrite lookup_singleton_eq. cbn [br_iNode].
  rewrite Hloadt, Hnodet. by rewrite run_bind, Hrun.
Qed.

(** The prefix-free hypothesis of C4 is needed: after Subscribe("a"),
    Subscribe("a.b") and Unsubscribe of "a.b", the branch of "a" has a
    subscriber and a tomb below it, which [toCompressed] never removes.  Lookup
    and Subscribe of "a.c" then retry without end, for every retry bound. *)
Theorem tomb_livelock :
  ∃ h, exec 1 root0 [OSub "a" (Comparable "s1"); OSub "a.b" (Comparable "s2");
                     OUnsub (Some (mkSubscription "a.b" "s2"))] heap0 = Done h tt ∧
    ∀ fuel, run (Lookup fuel root0 "a.c") h = Spinning ∧
            run (Subscribe fuel root0 "a.c" (Comparable "s3")) h = Spinning.
Proof.
  match goal with |- ∃ h, ?e = _ ∧ _ => destruct e as [h []| |] eqn:He end;
    [|by vm_compute in He..].
  exists h. split; [done|].
  assert (stuck h) as Hs.
  { vm_compute in He. injection He as <-. by eexists. }
  intros fuel. split.
  - apply stuck_retry; [apply stuck_lookup|done].
  - apply stuck_retry; [intros; by apply stuck_insert|done].
Qed.

(** Unsubscribe("a.b.c") interleaved with Subscribe("a.x"): the subscriber of
    "a.x" is registered by a successful CAS on the I-node that the contraction
    then unlinks, so a Subscribe that returned without error has no effect. *)
Theorem contract_loses_subscription :
  ∃ h h', exec 1 root0 [OSub "a.b.c" (Comparable "s1")] heap0 = Done h tt ∧
    run2 (replicate 7 true ++ replicate 3 false)
      (Unsubscribe 5 root0 (Some (mkSubscription "a.b.c" "s1")))
      (Subscribe 5 root0 "a.x" (Comparable "s2")) h
      = Done h' (tt, Ok (mkSubscription "a.x" "s2")) ∧
    run (Lookup 5 root0 "a.x") h' = Done h' ∅.
Proof.
  eexists _, _. split_and!; [by vm_compute|by vm_compute|by vm_compute].
Qed.

End CSTrie.
