(* ===== verification/Interest.v ===== *)
(** * Interest: compiling subscription keys for the live bus
      (internal/channel/interest.go)

    A subscription key becomes an exact channel or a literal-prefix glob.  The
    glob language itself belongs to Redis: it is the parameter [glob] of
    [covers], used through the one documented fact that a pattern without
    metacharacters followed by a star matches exactly the names with that
    literal prefix. *)

From S2P Require Import Prelude Topics Matcher.
Import Topics Matcher.

Module Interest.

Inductive InterestError := BadTopic (e : TopicError) | ErrPatternNotRoutable.

Record CompiledInterest := mkCompiledInterest {
  ci_Exact : string;
  ci_Pattern : string;
  ci_AlsoExact : string;
}.

(** Go's [strings.Join(segs, ".")]. *)
Fixpoint join_dot (segs : list string) : string :=
  match segs with
  | [] => ""
  | [x] => x
  | x :: rest => x +:+ String delimiter (join_dot rest)
  end.

(** The empty prefix of a key with a ":" would index [prefixSegs[0]] out of
    range: [None] is that panic. *)
Definition joinPrefix (key : string) (prefixSegs : list string) : option (string * string) :=
  if negb (has_char NSDelimiter key) then Some (join_dot prefixSegs, ".")
  else match prefixSegs with
       | [] => None
       | [x] => Some (x, ":")
       | x :: rest => Some (x +:+ String NSDelimiter (join_dot rest), ".")
       end.

(** [None]: panic. *)
Definition CompileInterest (key : string) : option (result InterestError CompiledInterest) :=
  match ValidateTopic key with
  | Err e => Some (Err (BadTopic e))
  | Ok _ =>
      if negb (has_char "*" key) then Some (Ok (mkCompiledInterest key "" ""))
      else
        let segments := SplitSegments key in
        let init := take (length segments - 1) segments in
        match last segments with
        | None => None
        | Some lst =>
            if negb (bool_decide (lst = "*")) && negb (bool_decide (lst = "**"))
            then Some (Err ErrPatternNotRoutable)
            else if existsb (has_char "*") init then Some (Err ErrPatternNotRoutable)
            else match joinPrefix key init with
                 | None => None
                 | Some (prefix, sep) =>
                     if bool_decide (prefix = "") then Some (Err ErrPatternNotRoutable)
                     else Some (Ok (mkCompiledInterest "" (prefix +:+ sep +:+ "*")
                                      (if bool_decide (lst = "**") then prefix else "")))
                 end
        end
  end.

Definition MatchAfterCompile (key concrete : string) : bool := Match key concrete.

(** A key covers [ch]: the same exact name, or a pattern that matches. *)
Definition key_covers (key ch : string) : bool :=
  if IsWildcard key then Match key ch else bool_decide (key = ch).

(** ** The live bus *)

(** The names on which a connection with interest [ci] receives messages. *)
Definition covers (glob : string → string → bool) (ci : CompiledInterest) (ch : string) : Prop :=
  (ci_Exact ci ≠ "" ∧ ch = ci_Exact ci) ∨
  (ci_Pattern ci ≠ "" ∧ glob (ci_Pattern ci) ch = true) ∨
  (ci_AlsoExact ci ≠ "" ∧ ch = ci_AlsoExact ci).

(** The metacharacters of Redis glob patterns. *)
Definition no_glob_meta (s : string) : Prop :=
  has_char "*" s = false ∧ has_char "?" s = false ∧ has_char "[" s = false ∧
  has_char "\" s = false.

(** Redis PSUBSCRIBE documentation: a star matches any characters, every other
    character but the metacharacters stands for itself. *)
Definition literal_prefix_glob (glob : string → string → bool) : Prop :=
  ∀ lit ch, no_glob_meta lit → glob (lit +:+ "*") ch = String.prefix lit ch.

(** ** Lemmas *)

Lemma join_dot_cons x y rest : join_dot (x :: y :: rest) = x +:+ String delimiter (join_dot (y :: rest)).
Proof. done. Qed.

(** Without a ":" the segments are separated by dots only. *)
Lemma joined_dot segs s : joined segs s → has_char NSDelimiter s = false → s = join_dot segs.
Proof.
  induction 1 as [x|x d segs s Hd Hj IH]; [done|]. rewrite has_char_app. simpl.
  intros (Hx & Hs)%orb_false_iff. bool_hyps. unfold is_delim in Hd.
  rewrite (bool_decide_eq_false_2 (d = NSDelimiter)) in Hd by done.
  rewrite orb_false_r in Hd. bool_hyps. subst d.
  rewrite IH at 1 by done. destruct segs; [by inversion Hj|done].
Qed.

Lemma SplitSegments_dot s : has_char NSDelimiter s = false → s = join_dot (SplitSegments s).
Proof. intros ?. apply joined_dot; [apply SplitSegments_spec|done]. Qed.

Lemma join_dot_app a b :
  a ≠ [] → b ≠ [] → join_dot (a ++ b) = join_dot a +:+ String delimiter (join_dot b).
Proof.
  intros Ha Hb. induction a as [|x [|y a] IH]; [done| |].
  - destruct b; done.
  - change ((x :: y :: a) ++ b) with (x :: (y :: a) ++ b).
    destruct ((y :: a) ++ b) as [|z l] eqn:Heq; [done|].
    rewrite join_dot_cons, IH by done. rewrite join_dot_cons.
    by rewrite str_app_assoc, str_app_cons.
Qed.

Lemma prefix_app lit s : String.prefix lit (lit +:+ s) = true.
Proof.
  induction lit as [|c lit IH]; [by destruct s|]. rewrite str_app_cons. simpl.
  by destruct (ascii_dec c c).
Qed.

Lemma has_char_segments c s :
  is_delim c = false → has_char c s = false ↔ Forall (λ x, has_char c x = false) (SplitSegments s).
Proof.
  intros Hc. destruct (SplitSegments_spec s) as [Hj _]. revert Hj.
  generalize (SplitSegments s) as segs. induction 1 as [x|x d segs s' Hd Hj IH].
  - rewrite Forall_singleton. done.
  - rewrite has_char_app, Forall_cons, <-IH. simpl.
    rewrite bool_decide_eq_false_2 by (intros ->; congruence). simpl.
    by rewrite orb_false_iff.
Qed.

Lemma ns_segments key : has_char NSDelimiter key = true → ∃ x y rest, SplitSegments key = x :: y :: rest.
Proof.
  intros Hc. destruct (SplitSegments_spec key) as [Hj Hd]. revert Hj Hd.
  generalize (SplitSegments key). intros segs Hj. destruct Hj as [x|x d segs s' Hd Hj].
  - intros Hf. exfalso. simpl in Hf. rewrite andb_true_r in Hf. clear -Hc Hf.
    induction x as [|c x IH]; simpl in *; [done|]. bool_hyps.
    unfold is_delim in H. bool_hyps. rewrite bool_decide_eq_false_2 in Hc by done. by apply IH.
  - intros _. destruct segs as [|y segs]; [by inversion Hj|]. eauto.
Qed.

(** The wildcard keys that are accepted. *)
Definition routable_wildcard (key : string) : Prop :=
  ∃ lit w, SplitSegments key = lit ++ [w] ∧ lit ≠ [] ∧ (w = "*" ∨ w = "**") ∧
    Forall (λ s, has_char "*" s = false) lit.

Lemma routable_trailing key : routable_wildcard key → trailing_wildcard (SplitSegments key).
Proof.
  intros (lit & w & -> & _ & Hw & Hlit). exists lit, w. split_and!; [done..|].
  eapply Forall_impl; [done|]. intros s Hs. split; intros ->; done.
Qed.

Lemma segs_nonempty key : validTopic key = true → Forall (λ c, c ≠ "") (SplitSegments key).
Proof. by intros [? _]%valid_constituents_spec. Qed.

Lemma join_dot_ne segs : segs ≠ [] → Forall (λ c, c ≠ "") segs → join_dot segs ≠ "".
Proof.
  destruct segs as [|x [|y rest]]; [done|..]; intros _ [Hx _]%Forall_cons; [done|].
  rewrite join_dot_cons. by destruct x.
Qed.

Lemma joinPrefix_ne key lit w :
  SplitSegments key = lit ++ [w] → validTopic key = true → lit ≠ [] →
  ∃ prefix sep, joinPrefix key lit = Some (prefix, sep) ∧ prefix ≠ "".
Proof.
  intros Hs Hv%segs_nonempty Hlit. rewrite Hs in Hv. apply Forall_app in Hv as [Hne _].
  unfold joinPrefix. destruct (has_char NSDelimiter key); cbn [negb].
  - destruct lit as [|x [|y rest]]; [done|..]; apply Forall_cons in Hne as [Hx _];
      eexists _, _; (split; [done|]); [done|by destruct x].
  - eexists _, _. split; [done|]. by apply join_dot_ne.
Qed.

Lemma compile_wildcard key lit w :
  validTopic key = true → SplitSegments key = lit ++ [w] → lit ≠ [] → w = "*" ∨ w = "**" →
  Forall (λ s, has_char "*" s = false) lit →
  ∃ prefix sep, joinPrefix key lit = Some (prefix, sep) ∧ prefix ≠ "" ∧
    CompileInterest key = Some (Ok (mkCompiledInterest "" (prefix +:+ sep +:+ "*")
                                      (if bool_decide (w = "**") then prefix else ""))).
Proof.
  intros Hv Hs Hlit Hw Hno. destruct (joinPrefix_ne key lit w) as (prefix & sep & Hj & Hne); [done..|].
  exists prefix, sep. split_and!; [done..|]. unfold CompileInterest, ValidateTopic.
  rewrite Hv, Hs, last_snoc, length_app. simpl.
  rewrite Nat.add_sub, take_app_length, Hj.
  assert (has_char "*" key = true) as ->.
  { apply not_false_iff_true. rewrite has_char_segments, Hs, Forall_app by done.
    intros [_ [Hf _]%Forall_cons]. by destruct Hw as [-> | ->]. }
  rewrite (proj2 (existsb_false_Forall _ lit)) by done.
  rewrite (bool_decide_eq_false_2 (prefix = "")) by done.
  by destruct Hw as [-> | ->].
Qed.

Lemma compile_exact key :
  validTopic key = true → has_char "*" key = false →
  CompileInterest key = Some (Ok (mkCompiledInterest key "" "")).
Proof. intros Hv Hc. unfold CompileInterest, ValidateTopic. by rewrite Hv, Hc. Qed.

(** Every accepted key is of one of the two forms. *)
Lemma compile_cases key :
  (validTopic key = false ∧ CompileInterest key = Some (Err (BadTopic ErrBadTopic))) ∨
  (validTopic key = true ∧ (has_char "*" key = false ∨ routable_wildcard key) ∧
     ∃ ci, CompileInterest key = Some (Ok ci)) ∨
  (validTopic key = true ∧ has_char "*" key = true ∧ ¬ routable_wildcard key ∧
     CompileInterest key = Some (Err ErrPatternNotRoutable)).
Proof.
  destruct (validTopic key) eqn:Hv; [right|left]; last first.
  { split; [done|]. unfold CompileInterest, ValidateTopic. by rewrite Hv. }
  destruct (has_char "*" key) eqn:Hc; [|left; rewrite (compile_exact key) by done; by eauto].
  destruct (last_snoc_inv (SplitSegments key)) as [Hn|(lit & w & Hs)];
    [by apply SplitSegments_ne in Hn|].
  assert (¬ routable_wildcard key → CompileInterest key = Some (Err ErrPatternNotRoutable)) as Herr.
  { intros Hnr. unfold CompileInterest, ValidateTopic.
    rewrite Hv, Hc, Hs, last_snoc, length_app. simpl. rewrite Nat.add_sub, take_app_length.
    destruct (negb _ && _) eqn:Hw; [done|]. destruct (existsb _ _) eqn:He; [done|].
    apply existsb_false_Forall in He. apply andb_false_iff in Hw.
    assert (w = "*" ∨ w = "**") as Hw' by (destruct Hw; bool_hyps; auto).
    destruct (decide (lit = [])) as [->|Hne]; [|exfalso; apply Hnr; exists lit, w; auto].
    unfold joinPrefix. destruct (has_char NSDelimiter key) eqn:Hns; [|done].
    apply ns_segments in Hns as (x & y & rest & Hns). by rewrite Hns in Hs. }
  destruct (decide (lit ≠ [] ∧ (w = "*" ∨ w = "**") ∧ Forall (λ s, has_char "*" s = false) lit))
    as [(Hne & Hw & Hlit)|Hnr].
  - left. destruct (compile_wildcard key lit w) as (prefix & sep & _ & _ & ->); [done..|].
    split_and!; [done| |by eauto]. right. exists lit, w. auto.
  - assert (¬ routable_wildcard key) as Hnr'.
    { intros (lit' & w' & Hs' & Hok). rewrite Hs in Hs'. by apply app_inj_tail in Hs' as [<- <-]. }
    right. auto.
Qed.

(** A trailing-wildcard pattern matches exactly the extensions of its literal
    prefix by one segment, or by any number of them for "**". *)
Lemma literal_prefix_match lit w ts :
  Forall (λ s, has_char "*" s = false) lit →
  seg_match (lit ++ [w]) ts → w = "*" ∨ w = "**" →
  ∃ rest, ts = lit ++ rest ∧ (rest = [] → w = "**").
Proof.
  revert ts. induction lit as [|x lit IH]; intros ts Hlit Hm Hw; simpl in Hm.
  - exists ts. split; [done|]. intros ->. destruct Hw as [->|]; [|done].
    by inversion Hm.
  - apply Forall_cons in Hlit as [Hx Hlit]. inversion Hm as [|? Hn|? ? ? ? Hseg Hm']; subst.
    { done. }
    destruct (IH _ Hlit Hm' Hw) as (rest & -> & Hr). exists rest. split; [|done].
    by destruct Hseg as [->| ->].
Qed.

Lemma literal_match ps ts :
  Forall (λ s, has_char "*" s = false) ps → seg_match ps ts → ps = ts.
Proof.
  intros Hps Hm. induction Hm as [|ts|p t ps ts Hp Hm IH]; [done|..];
    apply Forall_cons in Hps as [Hp' Hps]; [done|].
  rewrite (IH Hps). by destruct Hp as [->| ->].
Qed.

Lemma ValidateChannel_segments ch :
  ValidateChannel ch = Ok tt →
  ∃ ns segs, SplitSegments ch = ns :: segs ∧ segs ≠ [] ∧ has_char "*" ns = false ∧
    has_char NSDelimiter ch = true ∧ ch = ns +:+ String NSDelimiter (join_dot segs).
Proof.
  unfold ValidateChannel. destruct (splitNamespace ch) as [[ns topic]|] eqn:Hs; [|done].
  case_match eqn:Hv; [done|]. intros _. apply orb_false_iff in Hv as [Hns Ht]. bool_hyps.
  apply splitNamespace_spec in Hs as (-> & _ & Hno).
  apply validNamespace_class in Hns as (_ & Hd & Hstar & _).
  exists ns, (SplitSegments topic). rewrite SplitSegments_ns by done.
  split_and!; [done|apply SplitSegments_ne|done| |by rewrite <-SplitSegments_dot].
  rewrite has_char_app. simpl. by rewrite orb_true_r.
Qed.

(** Valid channels are determined by their segments. *)
Lemma ValidateChannel_inj a b :
  ValidateChannel a = Ok tt → ValidateChannel b = Ok tt → SplitSegments a = SplitSegments b → a = b.
Proof.
  intros (na & sa & Ha & _ & _ & _ & ->)%ValidateChannel_segments
         (nb & sb & Hb & _ & _ & _ & ->)%ValidateChannel_segments.
  congruence.
Qed.

(** The compiled glob of a namespaced key, and the names it stands for. *)
Lemma namespaced_prefix key ns lit w rest prefix sep :
  SplitSegments key = (ns :: lit) ++ [w] → has_char NSDelimiter key = true →
  joinPrefix key (ns :: lit) = Some (prefix, sep) →
  (rest ≠ [] → ∃ tl, ns +:+ String NSDelimiter (join_dot (lit ++ rest)) = (prefix +:+ sep) +:+ tl) ∧
  (lit ≠ [] → ns +:+ String NSDelimiter (join_dot lit) = prefix).
Proof.
  intros Hs Hns. unfold joinPrefix. rewrite Hns. cbn [negb].
  destruct lit as [|x lit]; intros [= <- <-].
  - split; [|done]. intros Hr. exists (join_dot rest). by rewrite str_app_assoc.
  - split; [|done]. intros Hr. exists (join_dot rest).
    rewrite (join_dot_app (x :: lit)) by done. change (match lit with [] => x | _ => _ end) with (join_dot (x :: lit)).
    by rewrite !str_app_assoc, str_app_cons.
Qed.

Definition key_no_glob_meta (key : string) : Prop :=
  has_char "?" key = false ∧ has_char "[" key = false ∧ has_char "\" key = false.

Lemma join_dot_no_star segs :
  Forall (λ s, has_char "*" s = false) segs → has_char "*" (join_dot segs) = false.
Proof.
  induction segs as [|x [|y segs] IH]; intros Hall; [done|..]; apply Forall_cons in Hall as [Hx Hl];
    [done|].
  rewrite join_dot_cons, has_char_app, Hx. by apply IH.
Qed.

(** Dropping the trailing star of the compiled pattern leaves no metacharacter. *)
Lemma prefix_no_meta key ns lit w prefix sep :
  key = ns +:+ String NSDelimiter (join_dot (lit ++ [w])) → w = "*" ∨ w = "**" →
  SplitSegments key = (ns :: lit) ++ [w] → has_char NSDelimiter key = true →
  joinPrefix key (ns :: lit) = Some (prefix, sep) →
  Forall (λ s, has_char "*" s = false) (ns :: lit) → key_no_glob_meta key →
  no_glob_meta (prefix +:+ sep).
Proof.
  intros Hkey Hw Hs Hns Hj Hstar (H1 & H2 & H3).
  destruct (namespaced_prefix key ns lit w [w] prefix sep Hs Hns Hj) as [Hpre _].
  destruct Hpre as [tl Htl]; [done|]. rewrite <-Hkey in Htl. rewrite Htl in H1, H2, H3.
  rewrite (has_char_app _ (prefix +:+ sep)) in H1.
  rewrite (has_char_app _ (prefix +:+ sep)) in H2.
  rewrite (has_char_app _ (prefix +:+ sep)) in H3.
  apply orb_false_iff in H1 as [? _], H2 as [? _], H3 as [? _].
  split_and!; [|done..]. unfold joinPrefix in Hj. rewrite Hns in Hj. cbn [negb] in Hj.
  apply Forall_cons in Hstar as [Hn Hl]. destruct lit as [|x lit]; simplify_eq.
  - by rewrite has_char_app, Hn.
  - rewrite !has_char_app, Hn. cbn [has_char orb].
    change (match lit with [] => x | _ => _ end) with (join_dot (x :: lit)).
    by rewrite join_dot_no_star.
Qed.

(** Compiling loses no message.  For a valid namespaced key that is accepted
    (and has no glob metacharacter other than its wildcard), every valid channel
    the key matches is received on the live bus: it is the exact name, the
    extra exact name of a trailing "**", or a name the compiled glob matches. *)
Theorem interest_covers glob key ci ch :
  literal_prefix_glob glob →
  ValidateChannel key = Ok tt → key_no_glob_meta key → CompileInterest key = Some (Ok ci) →
  ValidateChannel ch = Ok tt → MatchAfterCompile key ch = true →
  covers glob ci ch.
Proof.
  intros Hglob Hk Hmeta Hci Hc [Hne Hm]%matchCriteria_segs.
  apply ValidateChannel_segments in Hk as (ns & ksegs & Hks & _ & Hns & Hkns & Hkey).
  apply ValidateChannel_segments in Hc as (cns & csegs & Hcs & Hcne & _ & _ & Hch).
  rewrite Hcs in Hm.
  destruct (compile_cases key) as [[_ ?]|[(Hv & Hform & _)|(_ & _ & _ & ?)]]; [congruence| |congruence].
  destruct Hform as [Hstar|(lit0 & w & Hs & Hlne & Hw & Hlit)].
  - rewrite compile_exact in Hci by done. injection Hci as <-. left. simpl.
    apply has_char_segments in Hstar; [|done].
    apply literal_match in Hm; [|done]. rewrite Hks in Hm. injection Hm as <- <-.
    split; [by intros Hk; rewrite Hk in Hkns|]. congruence.
  - destruct (compile_wildcard key lit0 w) as (prefix & sep & Hj & Hpne & Hci'); [done..|].
    rewrite Hci' in Hci. injection Hci as <-. destruct lit0 as [|ns' lit]; [done|].
    assert (ns' = ns ∧ ksegs = lit ++ [w]) as [-> ->] by (rewrite Hks in Hs; by injection Hs as -> ->).
    rewrite Hs in Hm. destruct (literal_prefix_match (ns :: lit) w _ Hlit Hm Hw)
      as (rest & Heq & Hrest). injection Heq as -> ->.
    destruct (namespaced_prefix key ns lit w rest prefix sep) as [Hpre Hall]; [done..|].
    destruct (decide (rest = [])) as [->|Hrne].
    + right; right. rewrite (Hrest eq_refl). simpl. split; [done|].
      rewrite app_nil_r in *. subst ch. by apply Hall.
    + right; left. simpl. split; [by destruct prefix|]. destruct (Hpre Hrne) as [tl Htl]. rewrite Hch, Htl.
      rewrite <-str_app_assoc, Hglob by (by eapply (prefix_no_meta key)). apply prefix_app.
Qed.

(** A glob that knows the star only. *)
Fixpoint star_glob (p s : string) {struct p} : bool :=
  match p with
  | EmptyString => bool_decide (s = "")
  | String c p' =>
      if bool_decide (c = "*"%char) then
        (fix any s := star_glob p' s || match s with EmptyString => false | String _ s' => any s' end) s
      else match s with
           | EmptyString => false
           | String x s' => bool_decide (x = c) && star_glob p' s'
           end
  end.

Lemma star_glob_literal : literal_prefix_glob star_glob.
Proof.
  intros lit ch (Hs & _). revert ch. induction lit as [|c lit IH]; intros ch; cbn [has_char] in Hs.
  - replace (String.prefix "" ch) with true by (by destruct ch). simpl.
    induction ch as [|x ch IHc]; [done|]. simpl. by rewrite IHc.
  - bool_hyps. rewrite str_app_cons. cbn [star_glob].
    rewrite bool_decide_eq_false_2 by done. destruct ch as [|x ch]; [done|].
    rewrite IH by done. simpl. destruct (ascii_dec c x) as [->|Hne].
    + by rewrite bool_decide_eq_true_2.
    + by rewrite bool_decide_eq_false_2 by congruence.
Qed.

Lemma interest_covers_witness :
  ValidateChannel "acme:im.**" = Ok tt ∧
  covers star_glob (mkCompiledInterest "" "acme:im.*" "acme:im") "acme:im.room.1".
Proof.
  split; [vm_compute; reflexivity|].
  apply (interest_covers star_glob "acme:im.**");
    [exact star_glob_literal|vm_compute; reflexivity|repeat split|vm_compute; reflexivity..].
Defined.

(** CompileInterest never panics and decides exactly: a malformed topic is
    ErrBadTopic, a key without "*" is exact, a key with a literal non-empty
    prefix and a final "*" or "**" compiles to a glob, everything else is
    ErrPatternNotRoutable; and the accepted wildcard keys form the prefix-free
    family on which the subscription trie is proved correct. *)
Theorem CompileInterest_decides key :
  (CompileInterest key = Some (Err (BadTopic ErrBadTopic)) ↔ validTopic key = false) ∧
  ((∃ ci, CompileInterest key = Some (Ok ci)) ↔
     validTopic key = true ∧ (IsWildcard key = false ∨ routable_wildcard key)) ∧
  (CompileInterest key = Some (Err ErrPatternNotRoutable) ↔
     validTopic key = true ∧ IsWildcard key = true ∧ ¬ routable_wildcard key) ∧
  (∀ ci, CompileInterest key = Some (Ok ci) → IsWildcard key = true →
     trailing_wildcard (SplitSegments key)).
Proof.
  pose proof (routable_trailing key) as Htr. unfold IsWildcard.
  destruct (compile_cases key) as [[Hv ->]|[(Hv & Hform & ci & ->)|(Hv & Hstar & Hnr & ->)]];
    rewrite Hv; clear Hv; set (Q := routable_wildcard key) in *; clearbody Q.
  all: split; [|split; [|split]].
  all: first [naive_solver|destruct (has_char "*" key); naive_solver].
Qed.

End Interest.
