(* ===== verification/Policy.v ===== *)
(** * Policy: effective channel policies (internal/channel/channel_policy.go)

    Durations are nanosecond counts in [Z].  [time.ParseDuration] is an
    argument [parseDuration] of the definitions that call it: the theorems hold
    for every parser. *)

From S2P Require Import Prelude.

Module Policy.

Record ChannelPolicy := mkPolicy {
  History : bool;
  HistorySize : Z;
  HistoryTTL : Z;
  Presence : bool;
  Recover : bool;
  Survey : bool;
  TransientOnly : bool;
  RecoverLimit : Z;
  MaxSurveySubscribers : Z;
  MaxSurveyTimeout : Z;
  LegacyPresenceChannel : bool;
  PresenceSnapshotLimit : Z;
  Batching : option bool;
}.

Definition second : Z := 1000000000.

Definition DefaultChannelPolicy : ChannelPolicy := {|
  History := true; HistorySize := 0; HistoryTTL := 0; Presence := true; Recover := true;
  Survey := false; TransientOnly := false; RecoverLimit := 0;
  MaxSurveySubscribers := 256; MaxSurveyTimeout := 5 * second;
  LegacyPresenceChannel := false; PresenceSnapshotLimit := 256; Batching := None;
|}.

(** config.ChannelPolicySpec: a nil pointer is [None]. *)
Record ChannelPolicySpec := mkSpec {
  s_History : option bool;
  s_HistorySize : option Z;
  s_HistoryTTL : string;
  s_Presence : option bool;
  s_Recover : option bool;
  s_Survey : option bool;
  s_TransientOnly : option bool;
  s_RecoverLimit : option Z;
  s_MaxSurveySubscribers : option Z;
  s_MaxSurveyTimeout : string;
  s_LegacyPresenceChannel : option bool;
  s_PresenceSnapshotLimit : option Z;
  s_Batching : option bool;
}.

(** A duration with its "set" flag is an optional duration. *)
Record CompiledPolicySpec := mkCompiled {
  c_history : option bool;
  c_historySize : option Z;
  c_historyTTL : option Z;
  c_presence : option bool;
  c_recover : option bool;
  c_survey : option bool;
  c_transientOnly : option bool;
  c_recoverLimit : option Z;
  c_maxSurveySubscribers : option Z;
  c_maxSurveyTimeout : option Z;
  c_legacyPresenceChannel : option bool;
  c_presenceSnapshotLimit : option Z;
  c_batching : option bool;
}.

Definition CompilePolicySpec (parseDuration : string → option Z) (spec : ChannelPolicySpec)
    : CompiledPolicySpec := {|
  c_history := s_History spec;
  c_historySize := s_HistorySize spec;
  c_historyTTL := if bool_decide (s_HistoryTTL spec = "") then None
                  else parseDuration (s_HistoryTTL spec);
  c_presence := s_Presence spec;
  c_recover := s_Recover spec;
  c_survey := s_Survey spec;
  c_transientOnly := s_TransientOnly spec;
  c_recoverLimit := s_RecoverLimit spec;
  c_maxSurveySubscribers := s_MaxSurveySubscribers spec;
  c_maxSurveyTimeout := if bool_decide (s_MaxSurveyTimeout spec = "") then None
                        else parseDuration (s_MaxSurveyTimeout spec);
  c_legacyPresenceChannel := s_LegacyPresenceChannel spec;
  c_presenceSnapshotLimit := s_PresenceSnapshotLimit spec;
  c_batching := s_Batching spec;
|}.

Definition Overlay (pol : ChannelPolicy) (spec : CompiledPolicySpec) : ChannelPolicy := {|
  History := default (History pol) (c_history spec);
  HistorySize := default (HistorySize pol) (c_historySize spec);
  HistoryTTL := default (HistoryTTL pol) (c_historyTTL spec);
  Presence := default (Presence pol) (c_presence spec);
  Recover := default (Recover pol) (c_recover spec);
  Survey := default (Survey pol) (c_survey spec);
  TransientOnly := default (TransientOnly pol) (c_transientOnly spec);
  RecoverLimit := default (RecoverLimit pol) (c_recoverLimit spec);
  MaxSurveySubscribers := default (MaxSurveySubscribers pol) (c_maxSurveySubscribers spec);
  MaxSurveyTimeout := default (MaxSurveyTimeout pol) (c_maxSurveyTimeout spec);
  LegacyPresenceChannel := default (LegacyPresenceChannel pol) (c_legacyPresenceChannel spec);
  PresenceSnapshotLimit := default (PresenceSnapshotLimit pol) (c_presenceSnapshotLimit spec);
  Batching := match c_batching spec with Some b => Some b | None => Batching pol end;
|}.

(** ** Specification and lemmas *)

(** The last explicit value of one field wins over the base value. *)
Definition last_set {A} (base : A) (vals : list (option A)) : A :=
  foldl (λ cur v, default cur v) base vals.

(** A field that [Overlay] overrides pointwise. *)
Definition overlays {A} (get : ChannelPolicy → A) (override : CompiledPolicySpec → option A) : Prop :=
  ∀ pol spec, get (Overlay pol spec) = default (get pol) (override spec).

Lemma overlays_foldl {A} (get : ChannelPolicy → A) override pol specs :
  overlays get override →
  get (foldl Overlay pol specs) = last_set (get pol) (map override specs).
Proof.
  intros Hov. revert pol. induction specs as [|spec specs IH]; intros pol; [done|].
  simpl. by rewrite IH, Hov.
Qed.

End Policy.
