(* ===== verification/Authz.v ===== *)
(** * Authz: the authorizer table (internal/authz/authorizer.go, identity.go)

    One rule table, one pattern language.  A nil Go slice is [None], an empty
    one [Some []].  The RWMutex makes every method atomic, so a method is a
    function of the table. *)

From S2P Require Import Prelude Topics Interest Policy.
Import Topics Policy.

Module Authz.

(** ** Subjects, actions and capabilities *)

Inductive Action :=
| ActionSubscribePattern | ActionPublish | ActionRecover | ActionPresence | ActionSurvey.

Inductive PrincipalKind := PrincipalUser | PrincipalServer.

(** [Capability] is a uint32; the nine bits are [1 << iota]. *)
Definition Capability := Z.

Record Principal := mkPrincipal {
  p_Kind : PrincipalKind;
  p_UserID : string;
  p_Caps : Capability;
}.

Definition CapPresenceLargeSnapshot : Capability := Z.shiftl 1 0.
Definition CapSurveyBypassGate : Capability := Z.shiftl 1 1.
Definition CapHistoryRead : Capability := Z.shiftl 1 2.
Definition CapPresenceRead : Capability := Z.shiftl 1 3.
Definition CapChannelsList : Capability := Z.shiftl 1 4.
Definition CapSessionAct : Capability := Z.shiftl 1 5.
Definition CapUserFanout : Capability := Z.shiftl 1 6.
Definition CapSubscribeAny : Capability := Z.shiftl 1 7.
Definition CapPatternGlobal : Capability := Z.shiftl 1 8.

Definition ClosedCapabilityNames : gmap string Capability :=
  list_to_map [
    ("presence.large_snapshot", CapPresenceLargeSnapshot);
    ("survey.bypass_gate", CapSurveyBypassGate);
    ("history.read", CapHistoryRead);
    ("presence.read", CapPresenceRead);
    ("channels.list", CapChannelsList);
    ("session.act", CapSessionAct);
    ("user.fanout", CapUserFanout);
    ("subscribe.any", CapSubscribeAny);
    ("pattern.global", CapPatternGlobal)].

Definition ParseCapabilityNames (names : list string) : Capability :=
  foldl (λ caps name,
    match ClosedCapabilityNames !! name with
    | Some bit => Z.lor caps bit
    | None => caps
    end) 0%Z names.

Definition DefaultCapabilityCeiling : Capability :=
  foldl Z.lor CapPresenceLargeSnapshot
    [CapSurveyBypassGate; CapHistoryRead; CapPresenceRead; CapChannelsList; CapSessionAct;
     CapUserFanout; CapSubscribeAny].

Record Decision := mkDecision { Allow : bool; Reason : string; Effects_ : ChannelPolicy }.

(** ** Rule patterns *)

Inductive patternKind := patternExact | patternStar | patternDStar.

Record compiledRulePattern := mkPattern { kind : patternKind; segments : list string }.

Inductive PatternError :=
| InvalidTopic | WildcardNotFinal | OnlyFinalWildcard | EmptyLiteralPrefix.

Definition compilePattern (pattern : string) : result PatternError compiledRulePattern :=
  match ValidateTopic pattern with
  | Err _ => Err InvalidTopic
  | Ok _ =>
      let segs := SplitSegments pattern in
      if negb (has_char "*" pattern) then Ok (mkPattern patternExact segs)
      else
        let lst := default "" (last segs) in
        if negb (bool_decide (lst = "*")) && negb (bool_decide (lst = "**"))
        then Err WildcardNotFinal
        else
          let prefix := take (length segs - 1) segs in
          if existsb (has_char "*") prefix then Err OnlyFinalWildcard
          else if bool_decide (length prefix = 0) then Err EmptyLiteralPrefix
          else Ok (mkPattern (if bool_decide (lst = "**") then patternDStar else patternStar) prefix)
  end.

(** The copy of the same check in internal/config (config.go). *)
Definition validateAuthorizerPattern (pattern : string) : result PatternError unit :=
  match ValidateTopic pattern with
  | Err _ => Err InvalidTopic
  | Ok _ =>
      if negb (has_char "*" pattern) then Ok tt
      else
        let segs := SplitSegments pattern in
        let lst := default "" (last segs) in
        if negb (bool_decide (lst = "*")) && negb (bool_decide (lst = "**"))
        then Err WildcardNotFinal
        else if existsb (has_char "*") (take (length segs - 1) segs) then Err OnlyFinalWildcard
        else if bool_decide (length segs = 1) then Err EmptyLiteralPrefix
        else Ok tt
  end.

Fixpoint isPrefix (shorter longer : list string) : bool :=
  match shorter, longer with
  | [], _ => true
  | _ :: _, [] => false
  | x :: s, y :: l => bool_decide (x = y) && isPrefix s l
  end.

Definition starIntersectsDStar (S D : list string) : bool :=
  if isPrefix D S then true
  else if isPrefix S D then bool_decide (length D = length S + 1)
  else false.

Definition exact_intersects (a b : compiledRulePattern) : bool :=
  match kind b with
  | patternExact => bool_decide (segments a = segments b)
  | patternStar =>
      bool_decide (length (segments a) = length (segments b) + 1) &&
      isPrefix (segments b) (segments a)
  | patternDStar => isPrefix (segments b) (segments a)
  end.

Definition patternsIntersect (a b : compiledRulePattern) : bool :=
  match kind a with
  | patternExact => exact_intersects a b
  | patternStar =>
      match kind b with
      | patternExact => exact_intersects b a
      | patternStar => bool_decide (segments a = segments b)
      | patternDStar => starIntersectsDStar (segments a) (segments b)
      end
  | patternDStar =>
      match kind b with
      | patternExact => exact_intersects b a
      | patternStar => starIntersectsDStar (segments b) (segments a)
      | patternDStar => isPrefix (segments a) (segments b) || isPrefix (segments b) (segments a)
      end
  end.

(** ** The table *)

(** config.AuthorizerRule and config.AuthorizerConfig. *)
Record AuthorizerRule := mkRule {
  ar_Pattern : string;
  ar_DenyAll : bool;
  ar_AllowSubscribe : option (list string);
  ar_AllowPublish : option (list string);
  ar_AllowSurvey : option (list string);
  ar_Spec : ChannelPolicySpec;
}.

Record AuthorizerConfig := mkConfig { ac_Default : ChannelPolicySpec; ac_Rules : list AuthorizerRule }.

Record compiledRule := mkCompiledRule {
  raw : string;
  pattern : compiledRulePattern;
  denyAll : bool;
  allowSubscribe : option (list string);
  subscribeAll : bool;
  allowPublish : option (list string);
  publishAll : bool;
  allowSurvey : option (list string);
  surveyAll : bool;
  surveySet : bool;
  effects : CompiledPolicySpec;
}.

Record Authorizer := mkAuthorizer { base : ChannelPolicy; rules : list compiledRule }.

Definition slices_Contains (l : list string) (x : string) : bool :=
  existsb (λ y, bool_decide (y = x)) l.

Definition compileAllowList (l : option (list string)) : option (list string) * bool :=
  match l with
  | None => (None, false)
  | Some us => (Some us, slices_Contains us "*")
  end.

Definition compileRule (parseDuration : string → option Z) (rule : AuthorizerRule)
    : result PatternError compiledRule :=
  match compilePattern (ar_Pattern rule) with
  | Err e => Err e
  | Ok pat =>
      let '(aSub, subAll) := compileAllowList (ar_AllowSubscribe rule) in
      let '(aPub, pubAll) := compileAllowList (ar_AllowPublish rule) in
      let '(aSur, surAll) := compileAllowList (ar_AllowSurvey rule) in
      Ok {| raw := ar_Pattern rule; pattern := pat; denyAll := ar_DenyAll rule;
            allowSubscribe := aSub; subscribeAll := subAll;
            allowPublish := aPub; publishAll := pubAll;
            allowSurvey := aSur; surveyAll := surAll;
            surveySet := bool_decide (is_Some (s_Survey (ar_Spec rule)));
            effects := CompilePolicySpec parseDuration (ar_Spec rule) |}
  end.

(** The loop of [NewAuthorizer]: the index of the first bad rule is reported. *)
Fixpoint compileRules (parseDuration : string → option Z) (i : nat) (rs : list AuthorizerRule)
    : result (nat * PatternError) (list compiledRule) :=
  match rs with
  | [] => Ok []
  | rule :: rest =>
      match compileRule parseDuration rule with
      | Err e => Err (i, e)
      | Ok c =>
          match compileRules parseDuration (S i) rest with
          | Err e => Err e
          | Ok cs => Ok (c :: cs)
          end
      end
  end.

Definition NewAuthorizer (parseDuration : string → option Z) (cfg : AuthorizerConfig)
    : result (nat * PatternError) Authorizer :=
  match compileRules parseDuration 0 (ac_Rules cfg) with
  | Err e => Err e
  | Ok cs =>
      Ok (mkAuthorizer
            (Overlay DefaultChannelPolicy (CompilePolicySpec parseDuration (ac_Default cfg))) cs)
  end.

(** [ReplaceRules]: the new table, and the old one when the config is bad. *)
Definition ReplaceRules (parseDuration : string → option Z) (a : Authorizer)
    (cfg : AuthorizerConfig) : Authorizer * option (nat * PatternError) :=
  match NewAuthorizer parseDuration cfg with
  | Err e => (a, Some e)
  | Ok replacement => (mkAuthorizer (base replacement) (rules replacement), None)
  end.

Definition ruleDenies (rule : compiledRule) (allowList : option (list string)) (wild : bool)
    (p : Principal) : bool :=
  if denyAll rule then true
  else match allowList with
       | None => false
       | Some us => if wild then false else negb (slices_Contains us (p_UserID p))
       end.

Definition effectsLocked (a : Authorizer) (channel : string) : ChannelPolicy :=
  let pol := foldl (λ pol rule, if Match (raw rule) channel then Overlay pol (effects rule) else pol)
               (base a) (rules a) in
  if TransientOnly pol then
    mkPolicy false (HistorySize pol) (HistoryTTL pol) (Presence pol) false (Survey pol)
      (TransientOnly pol) (RecoverLimit pol) (MaxSurveySubscribers pol) (MaxSurveyTimeout pol)
      (LegacyPresenceChannel pol) (PresenceSnapshotLimit pol) (Batching pol)
  else pol.

Definition Effects (a : Authorizer) (channel : string) : ChannelPolicy := effectsLocked a channel.

(** ** The evaluator *)

(** The rule loop of ActionPublish: the reason of the first denying rule. *)
Fixpoint publish_loop (rs : list compiledRule) (p : Principal) (channel : string) : option string :=
  match rs with
  | [] => None
  | rule :: rest =>
      if negb (Match (raw rule) channel) then publish_loop rest p channel
      else if denyAll rule then Some "deny_all"
      else if ruleDenies rule (allowPublish rule) (publishAll rule) p then Some "allow_list"
      else publish_loop rest p channel
  end.

Record surveyScan := mkScan { sv_denied : string; sv_allowed : bool; sv_touched : bool }.

(** One iteration of the ActionSurvey loop. *)
Definition survey_step (p : Principal) (channel : string) (s : surveyScan) (rule : compiledRule)
    : surveyScan :=
  if negb (Match (raw rule) channel) then s
  else
    let touched := surveySet rule || sv_touched s in
    let denied := if denyAll rule then "deny_all" else sv_denied s in
    match allowSurvey rule with
    | None => mkScan denied (sv_allowed s) touched
    | Some us =>
        if surveyAll rule || slices_Contains us (p_UserID p)
        then mkScan denied true touched
        else mkScan (if bool_decide (denied = "") then "allow_list" else denied)
                    (sv_allowed s) touched
    end.

Definition survey_scan (a : Authorizer) (p : Principal) (channel : string) : surveyScan :=
  foldl (survey_step p channel)
    (mkScan "" false (negb (eqb (Survey (base a)) (Survey DefaultChannelPolicy)))) (rules a).

Definition deny_all_matches (a : Authorizer) (channel : string) : bool :=
  existsb (λ rule, denyAll rule && Match (raw rule) channel) (rules a).

Definition decideLocked (a : Authorizer) (p : Principal) (action : Action) (channel : string)
    : Decision :=
  let eff := effectsLocked a channel in
  match action with
  | ActionSubscribePattern =>
      match compilePattern channel with
      | Err _ => mkDecision false "not_routable" eff
      | Ok key =>
          if existsb (λ rule, ruleDenies rule (allowSubscribe rule) (subscribeAll rule) p &&
                              patternsIntersect key (pattern rule)) (rules a)
          then mkDecision false "language" eff
          else mkDecision true "default" eff
      end
  | ActionPublish =>
      match publish_loop (rules a) p channel with
      | Some reason => mkDecision false reason eff
      | None => mkDecision true "default" eff
      end
  | ActionSurvey =>
      let s := survey_scan a p channel in
      if negb (Survey eff) then
        mkDecision false (if sv_touched s then "effects" else "default") eff
      else if negb (bool_decide (sv_denied s = "")) then mkDecision false (sv_denied s) eff
      else if negb (sv_allowed s) then mkDecision false "default" eff
      else mkDecision true "default" eff
  | ActionRecover =>
      if IsWildcard channel then mkDecision false "default" eff
      else if deny_all_matches a channel then mkDecision false "deny_all" eff
      else if negb (Recover eff) then mkDecision false "effects" eff
      else mkDecision true "default" eff
  | ActionPresence =>
      if IsWildcard channel then mkDecision false "default" eff
      else if deny_all_matches a channel then mkDecision false "deny_all" eff
      else if negb (Presence eff) then mkDecision false "effects" eff
      else mkDecision true "default" eff
  end.

Definition Decide (a : Authorizer) (p : Principal) (action : Action) (channel : string) : Decision :=
  decideLocked a p action channel.

Definition DecideSubscribeSkipAllowLists (a : Authorizer) (channel : string) : Decision :=
  let eff := effectsLocked a channel in
  match compilePattern channel with
  | Err _ => mkDecision false "not_routable" eff
  | Ok key =>
      if existsb (λ rule, denyAll rule && patternsIntersect key (pattern rule)) (rules a)
      then mkDecision false "language" eff
      else mkDecision true "default" eff
  end.

Definition PatternsToRevoke (a : Authorizer) (p : Principal) (subscribed : list string)
    : list string :=
  List.filter (λ key, negb (Allow (Decide a p ActionSubscribePattern key))) subscribed.

(** ** identity.go *)

Record APIIdentity := mkIdentity {
  id_KeyID : string;
  id_Namespaces : list string;
  id_Caps : Capability;
}.

Definition apiKeyIDStatic : string := "static-token".
Definition apiKeyIDInsecure : string := "insecure".
Definition superadminPrincipalUserID : string := "admin".

Definition identity_Principal (i : APIIdentity) : Principal :=
  let userID :=
    if negb (bool_decide (id_KeyID i = apiKeyIDStatic)) &&
       negb (bool_decide (id_KeyID i = apiKeyIDInsecure))
    then "key:" +:+ id_KeyID i else superadminPrincipalUserID in
  mkPrincipal PrincipalServer userID (id_Caps i).

Definition AllowsNamespace (i : APIIdentity) (ns : string) : bool :=
  if slices_Contains (id_Namespaces i) "*" then true else slices_Contains (id_Namespaces i) ns.

Definition AllowsChannel (i : APIIdentity) (ch : string) : bool :=
  match NamespaceOf ch with Err _ => false | Ok ns => AllowsNamespace i ns end.

(** ** The language of a compiled pattern *)

Definition lang (cp : compiledRulePattern) (ts : list string) : Prop :=
  Forall (λ c, c ≠ "") ts ∧
  match kind cp with
  | patternExact => ts = segments cp
  | patternStar => ∃ x, ts = segments cp ++ [x]
  | patternDStar => ∃ rest, ts = segments cp ++ rest
  end.

(** What compilation guarantees of the literal segments. *)
Definition good_segs (ts : list string) : Prop :=
  ts ≠ [] ∧ Forall (λ c, c ≠ "") ts ∧ forallb delim_free ts = true.

Lemma compilePattern_shape p cp :
  compilePattern p = Ok cp →
  validTopic p = true ∧
  ((kind cp = patternExact ∧ segments cp = SplitSegments p ∧ has_char "*" p = false) ∨
   ∃ w, SplitSegments p = segments cp ++ [w] ∧ segments cp ≠ [] ∧
     Forall (λ s, has_char "*" s = false) (segments cp) ∧
     ((kind cp = patternStar ∧ w = "*") ∨ (kind cp = patternDStar ∧ w = "**"))).
Proof.
  unfold compilePattern, ValidateTopic. destruct (validTopic p); [|done]. intros Hc. split; [done|].
  destruct (has_char "*" p) eqn:Hs; cbn [negb] in Hc; [right|by simplify_eq; left].
  destruct (last_snoc_inv (SplitSegments p)) as [Hn|(lit & w & Hsegs)];
    [by apply SplitSegments_ne in Hn|].
  rewrite Hsegs, last_snoc, length_app in Hc. simpl in Hc. rewrite Nat.add_sub, take_app_length in Hc.
  destruct (negb _ && _) eqn:Hw; [done|]. destruct (existsb _ lit) eqn:He; [done|].
  apply existsb_false_Forall in He. case_bool_decide as Hl; [done|]. simplify_eq/=.
  exists w. split_and!; [done|by intros ->|done|]. apply andb_false_iff in Hw.
  destruct (bool_decide (w = "**")) eqn:Hd; bool_hyps; [by right|left]. split; [done|].
  destruct Hw; bool_hyps; done.
Qed.

Lemma compilePattern_good p cp : compilePattern p = Ok cp → good_segs (segments cp).
Proof.
  intros (Hv & Hshape)%compilePattern_shape. apply Interest.segs_nonempty in Hv.
  destruct (SplitSegments_spec p) as [_ Hd].
  destruct Hshape as [(_ & -> & _)|(w & Hs & Hne & _)]; [split_and!; [apply SplitSegments_ne|done..]|].
  rewrite Hs in *. apply Forall_app in Hv as [Hv _]. rewrite forallb_app in Hd.
  apply andb_true_iff in Hd as [Hd _]. by split_and!.
Qed.

Lemma compilePattern_lang p cp ch :
  compilePattern p = Ok cp → Match p ch = true ↔ lang cp (SplitSegments ch).
Proof.
  intros (_ & Hshape)%compilePattern_shape. unfold Match, lang. rewrite matchCriteria_segs.
  apply and_iff_compat_l. destruct Hshape as [(-> & -> & Hs)|(w & Hs & Hne & Hlit & Hk)].
  - apply Interest.has_char_segments in Hs; [|done]. split.
    + intros Hm. symmetry. by apply Interest.literal_match.
    + intros ->. induction (SplitSegments p); [constructor|]. constructor; [by left|].
      apply IHl. by inversion Hs.
  - assert (∀ rest, seg_match [w] rest → seg_match (segments cp ++ [w]) (segments cp ++ rest)) as Hpre.
    { intros rest Hr. clear Hs Hne Hlit. induction (segments cp); [done|]. simpl. constructor; [by left|done]. }
    rewrite Hs. split.
    + intros Hm. destruct Hk as [[-> ->]|[-> ->]].
      * assert (∀ ps ts, Forall (λ s, has_char "*" s = false) ps → seg_match (ps ++ ["*"]) ts →
          ∃ x, ts = ps ++ [x]) as Hstar; [|by eapply Hstar].
        induction ps as [|q ps IH]; intros ts Hps Hm'; simpl in Hm'.
        -- inversion Hm' as [| |? t ? ts' _ Hnil]; subst. inversion Hnil; subst. by exists t.
        -- apply Forall_cons in Hps as [Hq Hps]. inversion Hm' as [|? Hx Hy|? ? ? ? Hseg Hm2]; subst.
           { by destruct ps. }
           destruct (IH _ Hps Hm2) as [x ->]. exists x. by destruct Hseg as [->| ->].
      * destruct (Interest.literal_prefix_match _ _ _ Hlit Hm) as (rest & -> & _); [by right|]. eauto.
    + intros Hl. destruct Hk as [[Hk ->]|[Hk ->]]; rewrite Hk in Hl; destruct Hl as [r ->]; apply Hpre;
        [|constructor].
      apply sm_seg; [by right|constructor].
Qed.

Lemma isPrefix_spec s l : isPrefix s l = true ↔ ∃ r, l = s ++ r.
Proof.
  revert l. induction s as [|x s IH]; intros [|y l]; simpl; [naive_solver..| |].
  { split; [done|]. by intros [r ?]. }
  rewrite andb_true_iff, bool_decide_eq_true, IH. split.
  - intros [-> [r ->]]. by exists r.
  - intros [r ?]. simplify_eq. eauto.
Qed.

Lemma starIntersectsDStar_spec S D :
  starIntersectsDStar S D = true ↔ ∃ x r, S ++ [x] = D ++ r.
Proof.
  unfold starIntersectsDStar. destruct (isPrefix D S) eqn:H1.
  - apply isPrefix_spec in H1 as [r ->]. split; [|done]. intros _.
    exists "x", (r ++ ["x"]). by rewrite app_assoc.
  - assert (¬ ∃ r, S = D ++ r) as Hno by (rewrite <-isPrefix_spec; congruence).
    split.
    + destruct (isPrefix S D) eqn:H2; [|done]. apply isPrefix_spec in H2 as [r ->].
      rewrite length_app, bool_decide_eq_true. intros Hl. destruct r as [|x [|]]; simpl in Hl; try lia.
      exists x, []. by rewrite app_nil_r.
    + intros (x & r & Heq). destruct (last_snoc_inv r) as [->|(r' & y & ->)].
      * rewrite app_nil_r in Heq. subst D. rewrite (proj2 (isPrefix_spec S (S ++ [x]))) by eauto.
        by rewrite length_app, bool_decide_eq_true.
      * rewrite app_assoc in Heq. apply app_inj_tail in Heq as [-> _]. exfalso. eauto.
Qed.

Lemma patternsIntersect_sym a b : patternsIntersect a b = patternsIntersect b a.
Proof.
  destruct a as [[] sa], b as [[] sb]; unfold patternsIntersect, exact_intersects; simpl; try done.
  - by apply bool_decide_ext.
  - by apply bool_decide_ext.
  - by rewrite orb_comm.
Qed.

Lemma good_segs_snoc S : good_segs S → good_segs (S ++ ["x"]).
Proof.
  intros (? & ? & Hd). split_and!; [by destruct S| |].
  - apply Forall_app. by split; [|repeat constructor].
  - by rewrite forallb_app, Hd.
Qed.

(** One direction of the kind order, the other follows by symmetry. *)
Definition kind_rank (k : patternKind) : nat :=
  match k with patternExact => 0 | patternStar => 1 | patternDStar => 2 end.

Lemma patternsIntersect_spec_le a b :
  kind_rank (kind a) ≤ kind_rank (kind b) →
  good_segs (segments a) → good_segs (segments b) →
  patternsIntersect a b = true ↔ ∃ ts, good_segs ts ∧ lang a ts ∧ lang b ts.
Proof.
  intros Hr Ha Hb. pose proof (good_segs_snoc _ Ha) as Hax. unfold lang.
  assert (∀ (Q1 Q2 : list string → Prop) ts, good_segs ts → Q1 ts → Q2 ts →
    ∃ ts, good_segs ts ∧ (Forall (λ c, c ≠ "") ts ∧ Q1 ts) ∧ (Forall (λ c, c ≠ "") ts ∧ Q2 ts)) as Hmk.
  { intros Q1 Q2 ts Hg ??. exists ts. pose proof Hg as (_ & ? & _). auto. }
  destruct a as [[] sa], b as [[] sb]; unfold patternsIntersect, exact_intersects;
    cbn [kind segments kind_rank] in *; try lia;
    rewrite ?andb_true_iff, ?orb_true_iff, ?bool_decide_eq_true, ?isPrefix_spec, ?starIntersectsDStar_spec.
  - split; [intros <-; by apply Hmk with sa|]. intros (ts & _ & [_ ->] & [_ ->]). done.
  - split.
    + intros [Hl [r ->]]. apply Hmk with (sb ++ r); [done..|]. rewrite length_app in Hl.
      destruct r as [|x [|]]; simpl in Hl; [lia|eauto|lia].
    + intros (ts & _ & [_ ->] & _ & x & ->). rewrite length_app. simpl. split; [lia|eauto].
  - split; [intros [r ->]; apply Hmk with (sb ++ r); eauto|].
    intros (ts & _ & [_ ->] & _ & r & ->). eauto.
  - split; [intros <-; apply Hmk with (sa ++ ["x"]); eauto|].
    intros (ts & _ & [_ [x ->]] & _ & y & Heq). by apply app_inj_tail in Heq as [-> _].
  - split.
    + intros (x & r & Heq). destruct (last_snoc_inv r) as [->|(r' & y & ->)].
      * rewrite app_nil_r in Heq. apply Hmk with sb; [done|by exists x|]. exists []. by rewrite app_nil_r.
      * rewrite app_assoc in Heq. apply app_inj_tail in Heq as [-> _].
        apply Hmk with ((sb ++ r') ++ ["x"]); [done|eauto|]. exists (r' ++ ["x"]). by rewrite app_assoc.
    + intros (ts & _ & [_ [x ->]] & _ & r & ?). eauto.
  - split.
    + intros [[r ->]|[r ->]]; [apply Hmk with (sa ++ r)|apply Hmk with (sb ++ r)]; eauto.
      * exists []. by rewrite app_nil_r.
      * exists []. by rewrite app_nil_r.
    + intros (ts & _ & [_ [r1 ->]] & _ & r2 & Heq). apply app_eq_inv in Heq as [(k & -> & _)|(k & -> & _)];
        [right|left]; eauto.
Qed.

(** Two patterns have a common channel exactly when [patternsIntersect] says so;
    the common channel can be taken delimiter-free, so it has a name. *)
Lemma patternsIntersect_spec a b :
  good_segs (segments a) → good_segs (segments b) →
  patternsIntersect a b = true ↔ ∃ ts, good_segs ts ∧ lang a ts ∧ lang b ts.
Proof.
  intros Ha Hb. destruct (decide (kind_rank (kind a) ≤ kind_rank (kind b))).
  - by apply patternsIntersect_spec_le.
  - rewrite patternsIntersect_sym, patternsIntersect_spec_le by (done || lia). naive_solver.
Qed.

(** A good segment list is the segment list of its dotted name. *)
Lemma good_segs_channel ts : good_segs ts → SplitSegments (Interest.join_dot ts) = ts.
Proof.
  intros (Hne & _ & Hd). apply SplitSegments_joined; [|done]. clear Hd.
  induction ts as [|x [|y ts] IH]; [done|constructor|]. rewrite Interest.join_dot_cons.
  constructor; [done|]. by apply IH.
Qed.

Lemma intersect_channel p q cp cq :
  compilePattern p = Ok cp → compilePattern q = Ok cq →
  patternsIntersect cp cq = true ↔ ∃ ch, Match p ch = true ∧ Match q ch = true.
Proof.
  intros Hp Hq. rewrite patternsIntersect_spec by eauto using compilePattern_good. split.
  - intros (ts & Hg & Hl1 & Hl2). exists (Interest.join_dot ts).
    rewrite (compilePattern_lang p cp), (compilePattern_lang q cq), good_segs_channel by done. done.
  - intros (ch & Hl1%(compilePattern_lang p cp) & Hl2%(compilePattern_lang q cq)); [|done..].
    exists (SplitSegments ch). split_and!; [|done..].
    split_and!; [apply SplitSegments_ne|apply Hl1|apply SplitSegments_spec].
Qed.

(** ** Tables built from a configuration *)

Definition wf_table (a : Authorizer) : Prop :=
  Forall (λ r, compilePattern (raw r) = Ok (pattern r)) (rules a).

Lemma compileRules_wf pd rs : ∀ i cs,
  compileRules pd i rs = Ok cs → Forall (λ r, compilePattern (raw r) = Ok (pattern r)) cs.
Proof.
  induction rs as [|r rs IH]; intros i cs; simpl; [intros [= <-]; constructor|].
  destruct (compileRule pd r) as [c|] eqn:Hc; [|done].
  destruct (compileRules pd (S i) rs) as [cs'|] eqn:Hcs; [|done]. intros [= <-].
  constructor; [|by eapply IH]. unfold compileRule in Hc.
  destruct (compilePattern (ar_Pattern r)) as [pat|] eqn:Hp; [|done].
  repeat destruct (compileAllowList _). by simplify_eq/=.
Qed.

Lemma NewAuthorizer_wf pd cfg a : NewAuthorizer pd cfg = Ok a → wf_table a.
Proof.
  unfold NewAuthorizer. destruct (compileRules pd 0 (ac_Rules cfg)) as [cs|] eqn:Hc; [|done].
  intros [= <-]. by apply compileRules_wf in Hc.
Qed.

(** [shared key r]: some channel is matched by [key] and by the rule. *)
Definition shared (key : string) (r : compiledRule) : Prop :=
  ∃ ch, Match key ch = true ∧ Match (raw r) ch = true.

(** The two subscribe evaluators differ in the rules they consider only. *)
Lemma subscribe_scan a key cp (denies : compiledRule → bool) :
  wf_table a → compilePattern key = Ok cp →
  existsb (λ r, denies r && patternsIntersect cp (pattern r)) (rules a) = false ↔
  ∀ r, r ∈ rules a → denies r = true → ¬ shared key r.
Proof.
  unfold wf_table. intros Hwf Hk. rewrite existsb_false_Forall, Forall_forall.
  rewrite Forall_forall in Hwf. split.
  - intros Hall r Hr Hd Hsh. specialize (Hall r Hr). simpl in Hall. rewrite Hd in Hall. simpl in Hall.
    apply (intersect_channel key (raw r) cp (pattern r)) in Hsh; [congruence|auto..].
  - intros Hall r Hr. destruct (denies r) eqn:Hd; [simpl|done]. apply not_true_iff_false.
    rewrite (intersect_channel key (raw r) cp (pattern r)) by auto. by apply Hall.
Qed.

(** C10: SubscribePattern is decided on languages.  For a table built from a
    configuration, a subscription key is allowed exactly when it is a routable
    pattern and no rule that denies the principal has a channel in common with
    it; with subscribe.any (DecideSubscribeSkipAllowLists) exactly when no
    deny_all rule has one. *)
Theorem subscribe_decision pd cfg a p key :
  NewAuthorizer pd cfg = Ok a →
  (Allow (Decide a p ActionSubscribePattern key) = true ↔
     is_ok (compilePattern key) = true ∧
     ∀ r, r ∈ rules a → ruleDenies r (allowSubscribe r) (subscribeAll r) p = true → ¬ shared key r) ∧
  (Allow (DecideSubscribeSkipAllowLists a key) = true ↔
     is_ok (compilePattern key) = true ∧ ∀ r, r ∈ rules a → denyAll r = true → ¬ shared key r).
Proof.
  intros Hwf%NewAuthorizer_wf. unfold Decide, decideLocked, DecideSubscribeSkipAllowLists.
  destruct (compilePattern key) as [cp|] eqn:Hk; [|split; simpl; naive_solver].
  rewrite <-(subscribe_scan a key cp) by done.
  rewrite <-(subscribe_scan a key cp denyAll) by done.
  simpl. split; (destruct (existsb _ _); simpl; naive_solver).
Qed.

Definition cfg0 : AuthorizerConfig := mkConfig
  (mkSpec None None "" None None None None None None "" None None None)
  [mkRule "acme:admin.**" true None None None
     (mkSpec None None "" None None None None None None "" None None None);
   mkRule "acme:im.*" false (Some ["alice"]) (Some []) None
     (mkSpec (Some false) None "1h" None None None None None None "" None None None)].

Definition user (id : string) : Principal := mkPrincipal PrincipalUser id 0%Z.

Definition a0 : Authorizer :=
  match NewAuthorizer (λ _, None) cfg0 with Ok a => a | Err _ => mkAuthorizer DefaultChannelPolicy [] end.

Lemma subscribe_decision_witness :
  NewAuthorizer (λ _, None) cfg0 = Ok a0 ∧
  Allow (Decide a0 (user "alice") ActionSubscribePattern "acme:im.*") = true ∧
  Allow (Decide a0 (user "bob") ActionSubscribePattern "acme:im.**") = false ∧
  ∀ r, r ∈ rules a0 → denyAll r = true → ¬ shared "acme:im.**" r.
Proof.
  assert (NewAuthorizer (λ _, None) cfg0 = Ok a0) as Ha by (vm_compute; reflexivity).
  split_and!; [exact Ha|vm_compute; reflexivity..|].
  apply (subscribe_decision (λ _, None) cfg0 a0 (user "bob") "acme:im.**" Ha).
  vm_compute; reflexivity.
Defined.

(** ** Exact-channel actions *)

Lemma publish_loop_spec rs p channel :
  publish_loop rs p channel = None ↔
  ∀ r, r ∈ rs → Match (raw r) channel = true →
    ruleDenies r (allowPublish r) (publishAll r) p = false.
Proof.
  induction rs as [|r rs IH]; cbn [publish_loop]; [split; [set_solver|done]|].
  rewrite forall_elem_cons, <-IH. clear IH.
  destruct (Match (raw r) channel); cbn [negb]; [|intuition congruence].
  unfold ruleDenies. destruct (denyAll r).
  { split; [done|]. intros [Hf _]. by specialize (Hf eq_refl). }
  destruct (match allowPublish r with Some _ => _ | None => _ end).
  - split; [done|]. intros [Hf _]. by specialize (Hf eq_refl).
  - intuition.
Qed.

(** A matching rule's verdict on a survey. *)
Definition survey_lists (r : compiledRule) (p : Principal) : option bool :=
  (λ us, surveyAll r || slices_Contains us (p_UserID p)) <$> allowSurvey r.

Lemma survey_scan_spec p channel rs : ∀ s,
  let s' := foldl (survey_step p channel) s rs in
  (sv_denied s' = "" ↔ sv_denied s = "" ∧
     ∀ r, r ∈ rs → Match (raw r) channel = true → denyAll r = false ∧ survey_lists r p ≠ Some false) ∧
  (sv_allowed s' = true ↔ sv_allowed s = true ∨
     ∃ r, r ∈ rs ∧ Match (raw r) channel = true ∧ survey_lists r p = Some true).
Proof.
  induction rs as [|r rs IH]; intros s; cbn [foldl]; [set_solver|].
  destruct (IH (survey_step p channel s r)) as [-> ->]. clear IH.
  rewrite forall_elem_cons, exists_elem_cons.
  set (Q := ∀ y, y ∈ rs → _). set (E := ∃ y, y ∈ rs ∧ _). clearbody Q E.
  unfold survey_step, survey_lists.
  destruct (Match (raw r) channel); simpl; [|intuition congruence].
  destruct (allowSurvey r) as [us|]; simpl; [|destruct (denyAll r); simpl; intuition congruence].
  destruct (surveyAll r || _); simpl; [destruct (denyAll r); simpl; intuition congruence|].
  case_bool_decide; destruct (denyAll r); simpl in *; intuition congruence.
Qed.

Lemma deny_all_matches_spec a channel :
  deny_all_matches a channel = false ↔
  ∀ r, r ∈ rules a → Match (raw r) channel = true → denyAll r = false.
Proof.
  unfold deny_all_matches. rewrite existsb_false_Forall, Forall_forall.
  split; intros Hall r Hr; specialize (Hall r Hr).
  - intros Hm. destruct (denyAll r); [simpl in Hall; congruence|done].
  - destruct (Match (raw r) channel); [|by rewrite andb_false_r]. by rewrite (Hall eq_refl).
Qed.

Lemma survey_decision a p ch :
  Allow (Decide a p ActionSurvey ch) = true ↔
  Survey (Effects a ch) = true ∧
  (∀ r, r ∈ rules a → Match (raw r) ch = true → denyAll r = false ∧ survey_lists r p ≠ Some false) ∧
  ∃ r, r ∈ rules a ∧ Match (raw r) ch = true ∧ survey_lists r p = Some true.
Proof.
  unfold Decide, decideLocked, Effects.
  destruct (survey_scan_spec p ch (rules a)
    (mkScan "" false (negb (eqb (Survey (base a)) (Survey DefaultChannelPolicy))))) as [Hd Ha].
  fold (survey_scan a p ch) in Hd, Ha. cbn [sv_denied sv_allowed] in Hd, Ha.
  set (Q := ∀ r, r ∈ rules a → _) in *. set (E := ∃ r, r ∈ rules a ∧ _) in *. clearbody Q E.
  destruct (Survey (effectsLocked a ch)); cbn [negb]; [|simpl; intuition congruence].
  case_bool_decide as He; cbn [negb]; [|simpl; intuition congruence].
  destruct (sv_allowed _); simpl; intuition congruence.
Qed.

(** The exact-channel actions allow exactly what the table says.  Publish:
    no matching rule denies the principal.  Recover and Presence: the name is
    concrete, no matching rule is deny_all, and the effective policy enables
    the feature.  Survey: the effective policy enables it, no matching rule is
    deny_all or lists others only, and at least one matching rule lists the
    principal (surveys are opt-in). *)
Theorem exact_decisions a p ch :
  (Allow (Decide a p ActionPublish ch) = true ↔
     ∀ r, r ∈ rules a → Match (raw r) ch = true →
       ruleDenies r (allowPublish r) (publishAll r) p = false) ∧
  (Allow (Decide a p ActionRecover ch) = true ↔
     IsWildcard ch = false ∧ Recover (Effects a ch) = true ∧
     ∀ r, r ∈ rules a → Match (raw r) ch = true → denyAll r = false) ∧
  (Allow (Decide a p ActionPresence ch) = true ↔
     IsWildcard ch = false ∧ Presence (Effects a ch) = true ∧
     ∀ r, r ∈ rules a → Match (raw r) ch = true → denyAll r = false) ∧
  (Allow (Decide a p ActionSurvey ch) = true ↔
     Survey (Effects a ch) = true ∧
     (∀ r, r ∈ rules a → Match (raw r) ch = true → denyAll r = false ∧ survey_lists r p ≠ Some false) ∧
     ∃ r, r ∈ rules a ∧ Match (raw r) ch = true ∧ survey_lists r p = Some true).
Proof.
  rewrite <-deny_all_matches_spec, <-publish_loop_spec.
  split; [|split; [|split]]; [..|apply survey_decision]; unfold Decide, decideLocked, Effects.
  - destruct (publish_loop _ _ _); simpl; intuition congruence.
  - destruct (IsWildcard ch), (deny_all_matches a ch), (Recover (effectsLocked a ch));
      simpl; intuition congruence.
  - destruct (IsWildcard ch), (deny_all_matches a ch), (Presence (effectsLocked a ch));
      simpl; intuition congruence.
Qed.

Lemma deny_all_publish r rs p ch :
  r ∈ rs → denyAll r = true → Match (raw r) ch = true → publish_loop rs p ch ≠ None.
Proof.
  intros Hr Hd Hm Hn. pose proof (proj1 (publish_loop_spec rs p ch) Hn r Hr Hm) as Hf.
  unfold ruleDenies in Hf. by rewrite Hd in Hf.
Qed.

(** A deny_all rule cannot be punched through.  If a deny_all rule of a
    configured table matches a channel, then for every principal (and for
    subscribe.any) no action on the channel is allowed and no pattern that
    covers it can be subscribed. *)
Theorem deny_all_binds pd cfg a r ch :
  NewAuthorizer pd cfg = Ok a → r ∈ rules a → denyAll r = true → Match (raw r) ch = true →
  (∀ p action, action ≠ ActionSubscribePattern → Allow (Decide a p action ch) = false) ∧
  (∀ p key, Match key ch = true →
     Allow (Decide a p ActionSubscribePattern key) = false ∧
     Allow (DecideSubscribeSkipAllowLists a key) = false).
Proof.
  intros Hwf%NewAuthorizer_wf Hr Hd Hm. split.
  - assert (deny_all_matches a ch = true) as Hda.
    { apply not_false_iff_true. rewrite deny_all_matches_spec. intros Hall.
      by rewrite Hall in Hd. }
    intros p [] Hact; [done|..]; unfold Decide, decideLocked; rewrite ?Hda.
    + destruct (publish_loop _ _ _) eqn:Hp; [done|]. by apply (deny_all_publish r) in Hp.
    + by destruct (IsWildcard ch).
    + by destruct (IsWildcard ch).
    + apply not_true_iff_false. intros (_ & Hall & _)%survey_decision.
      destruct (Hall r Hr Hm). congruence.
  - intros p key Hk. unfold Decide, decideLocked, DecideSubscribeSkipAllowLists.
    destruct (compilePattern key) as [cp|] eqn:Hc; [|done].
    assert (∀ denies : compiledRule → bool, denies r = true →
      existsb (λ r, denies r && patternsIntersect cp (pattern r)) (rules a) = true) as Hscan.
    { intros denies Hdr. apply not_false_iff_true. rewrite (subscribe_scan a key) by done.
      intros Hall. apply (Hall r Hr Hdr). by exists ch. }
    rewrite !Hscan; [done|done|]. unfold ruleDenies. by rewrite Hd.
Qed.

Lemma deny_all_binds_witness :
  Allow (Decide a0 (user "alice") ActionPublish "acme:admin.x") = false ∧
  Allow (DecideSubscribeSkipAllowLists a0 "acme:**") = false.
Proof.
  destruct (rules a0) as [|r rs] eqn:Hrs; [vm_compute in Hrs; discriminate Hrs|].
  destruct (deny_all_binds (λ _, None) cfg0 a0 r "acme:admin.x") as [Hex Hsub].
  - vm_compute; reflexivity.
  - rewrite Hrs. left.
  - vm_compute in Hrs. injection Hrs as <- _. reflexivity.
  - vm_compute in Hrs. injection Hrs as <- _. vm_compute. reflexivity.
  - split; [apply Hex; discriminate|]. apply (Hsub (user "x")). vm_compute. reflexivity.
Defined.

(** ** Effects *)

(** The specs of the matching rules, in table order. *)
Definition matching_specs (a : Authorizer) (ch : string) : list CompiledPolicySpec :=
  map effects (List.filter (λ r, Match (raw r) ch) (rules a)).

Lemma effects_fold a ch pol :
  foldl (λ pol rule, if Match (raw rule) ch then Overlay pol (effects rule) else pol) pol (rules a)
  = foldl Overlay pol (matching_specs a ch).
Proof.
  unfold matching_specs. revert pol. induction (rules a) as [|r rs IH]; intros pol; simpl; [done|].
  destruct (Match (raw r) ch); simpl; by rewrite IH.
Qed.

(** Effective policies compose field by field, the last matching rule that
    sets a field wins over the configured default, and transient_only always
    switches history and recovery off. *)
Theorem effects_last_wins a ch :
  let eff {A} (get : ChannelPolicy → A) (override : CompiledPolicySpec → option A) :=
    last_set (get (base a)) (map override (matching_specs a ch)) in
  let pol := Effects a ch in
  TransientOnly pol = eff TransientOnly c_transientOnly ∧
  History pol = negb (TransientOnly pol) && eff History c_history ∧
  Recover pol = negb (TransientOnly pol) && eff Recover c_recover ∧
  HistorySize pol = eff HistorySize c_historySize ∧
  HistoryTTL pol = eff HistoryTTL c_historyTTL ∧
  Presence pol = eff Presence c_presence ∧
  Survey pol = eff Survey c_survey ∧
  RecoverLimit pol = eff RecoverLimit c_recoverLimit ∧
  MaxSurveySubscribers pol = eff MaxSurveySubscribers c_maxSurveySubscribers ∧
  MaxSurveyTimeout pol = eff MaxSurveyTimeout c_maxSurveyTimeout ∧
  LegacyPresenceChannel pol = eff LegacyPresenceChannel c_legacyPresenceChannel ∧
  PresenceSnapshotLimit pol = eff PresenceSnapshotLimit c_presenceSnapshotLimit ∧
  Batching pol = eff Batching (λ s, Some <$> c_batching s).
Proof.
  cbv zeta. unfold Effects, effectsLocked. rewrite effects_fold.
  rewrite <-!(overlays_foldl _ _ (base a)) by (intros ? []; done || by simpl; case_match).
  destruct (TransientOnly (foldl _ _ _)) eqn:Ht; simpl; rewrite ?Ht; auto 15.
Qed.

(** ** Hot replacement *)

(** Rule hot replacement.  A bad configuration leaves the table as it was;
    after a good one, the subscriptions that survive PatternsToRevoke are those
    whose language avoids every rule that denies the principal now, and only
    subscriptions that do not are revoked. *)
Theorem replace_and_revoke pd a cfg p subscribed :
  let '(a', err) := ReplaceRules pd a cfg in
  match err with
  | Some _ => a' = a
  | None =>
      ∀ key, key ∈ subscribed → is_ok (compilePattern key) = true →
        key ∉ PatternsToRevoke a' p subscribed ↔
        ∀ r, r ∈ rules a' → ruleDenies r (allowSubscribe r) (subscribeAll r) p = true → ¬ shared key r
  end.
Proof.
  unfold ReplaceRules. destruct (NewAuthorizer pd cfg) as [[b rs]|e] eqn:Hn; [|done].
  apply NewAuthorizer_wf in Hn. intros key Hin Hok. cbn [base rules].
  unfold PatternsToRevoke. rewrite list_elem_of_In, filter_In, <-list_elem_of_In.
  unfold Decide, decideLocked. cbn [rules].
  destruct (compilePattern key) as [cp|] eqn:Hk; [|done].
  rewrite <-(subscribe_scan (mkAuthorizer b rs) key cp) by done. cbn [rules].
  destruct (existsb _ rs); simpl; intuition congruence.
Qed.

Lemma replace_and_revoke_witness :
  let '(a', err) := ReplaceRules (λ _, None) (mkAuthorizer DefaultChannelPolicy []) cfg0 in
  err = None ∧ "acme:im.x" ∈ PatternsToRevoke a' (user "bob") ["acme:im.x"; "acme:news.*"] ∧
  ∀ r, r ∈ rules a' → ruleDenies r (allowSubscribe r) (subscribeAll r) (user "bob") = true →
    ¬ shared "acme:news.*" r.
Proof.
  pose proof (replace_and_revoke (λ _, None) (mkAuthorizer DefaultChannelPolicy []) cfg0 (user "bob")
    ["acme:im.x"; "acme:news.*"]) as Hrep.
  destruct (ReplaceRules _ _ _) as [a' err] eqn:He. vm_compute in He.
  assert (err = None) as -> by congruence.
  split; [reflexivity|]. split.
  - injection He as <-. vm_compute. left.
  - apply Hrep; [right; left|reflexivity|]. injection He as <-. apply (bool_decide_unpack _). vm_compute. reflexivity.
Defined.

(** The configuration check and the compiler accept the same patterns, with the
    same error. *)
Lemma validateAuthorizerPattern_agrees pat :
  validateAuthorizerPattern pat = result_bind (compilePattern pat) (λ _, Ok tt).
Proof.
  unfold validateAuthorizerPattern, compilePattern. destruct (ValidateTopic pat); [|done].
  destruct (negb (has_char "*" pat)); [done|].
  destruct (last_snoc_inv (SplitSegments pat)) as [Hn|(lit & w & ->)]; [by apply SplitSegments_ne in Hn|].
  rewrite last_snoc, length_app. simpl. rewrite Nat.add_sub, take_app_length.
  destruct (negb _ && _); [done|]. destruct (existsb _ lit); [done|].
  rewrite (bool_decide_ext (length lit + 1 = 1) (length lit = 0)) by lia.
  by case_bool_decide.
Qed.

(** A configuration whose rule patterns pass config.Validate always builds
    an authorizer, and one with a rejected pattern never does: the two copies
    of the pattern grammar accept the same language. *)
Theorem validated_config_builds pd cfg :
  Forall (λ r, validateAuthorizerPattern (ar_Pattern r) = Ok tt) (ac_Rules cfg) ↔
  is_ok (NewAuthorizer pd cfg) = true.
Proof.
  unfold NewAuthorizer. generalize 0 as i. destruct cfg as [dflt rs]. cbn [ac_Rules ac_Default].
  induction rs as [|r rs IH]; intros i; simpl; [naive_solver|].
  rewrite Forall_cons, (IH (S i)), validateAuthorizerPattern_agrees.
  unfold compileRule. destruct (compilePattern (ar_Pattern r)) as [cp|]; simpl; [|intuition congruence].
  repeat destruct (compileAllowList _). simpl.
  destruct (compileRules pd (S i) rs); simpl; intuition congruence.
Qed.

(** ** Identities and capabilities *)

Lemma ParseCapabilityNames_testbit names k :
  (0 ≤ k)%Z →
  Z.testbit (ParseCapabilityNames names) k = true ↔
  ∃ name bit, name ∈ names ∧ ClosedCapabilityNames !! name = Some bit ∧ Z.testbit bit k = true.
Proof.
  intros Hk. unfold ParseCapabilityNames.
  assert (∀ caps, Z.testbit (foldl (λ caps name,
    match ClosedCapabilityNames !! name with Some bit => Z.lor caps bit | None => caps end) caps names) k
    = true ↔ Z.testbit caps k = true ∨
    ∃ name bit, name ∈ names ∧ ClosedCapabilityNames !! name = Some bit ∧ Z.testbit bit k = true) as Hgen.
  { induction names as [|n names IH]; intros caps; cbn [foldl]; [set_solver|].
    rewrite IH. clear IH. setoid_rewrite elem_of_cons.
    destruct (ClosedCapabilityNames !! n) as [bit|] eqn:Hn; [rewrite Z.lor_spec, orb_true_iff|];
      naive_solver. }
  rewrite Hgen, Z.bits_0. naive_solver.
Qed.

Lemma bit_testbit j k : (0 ≤ j)%Z → (0 ≤ k)%Z → Z.testbit (Z.shiftl 1 j) k = true ↔ j = k.
Proof. intros ??. rewrite Z.shiftl_1_l, Z.pow2_bits_eqb by done. apply Z.eqb_eq. Qed.

Lemma ClosedCapabilityNames_bits name bit :
  ClosedCapabilityNames !! name = Some bit → ∃ j, (0 ≤ j)%Z ∧ bit = Z.shiftl 1 j.
Proof.
  intros Hbit%elem_of_list_to_map_2. set_unfold in Hbit.
  repeat destruct Hbit as [Hbit|Hbit]; try done; simplify_eq; eexists; (split; [|reflexivity]); lia.
Qed.

Lemma slices_Contains_spec l x : slices_Contains l x = true ↔ x ∈ l.
Proof.
  unfold slices_Contains. rewrite existsb_exists. setoid_rewrite bool_decide_eq_true.
  setoid_rewrite <-list_elem_of_In. naive_solver.
Qed.

(** Scoping of API identities.  A parsed capability bit always comes from a
    named capability of the closed set (so unknown names grant nothing and
    pattern.global is granted only by its name), the default ceiling grants
    every bit but pattern.global, and a channel is in scope exactly when it is
    namespaced and its namespace is listed, or "*" is. *)
Theorem identity_scope names k i ch :
  (0 ≤ k < 32)%Z →
  (Z.testbit (ParseCapabilityNames names) k = true ↔
     ∃ name, name ∈ names ∧ ClosedCapabilityNames !! name = Some (Z.shiftl 1 k)) ∧
  (Z.testbit DefaultCapabilityCeiling k = true ↔ (k < 8)%Z) ∧
  (AllowsChannel i ch = true ↔
     ∃ ns, NamespaceOf ch = Ok ns ∧ ("*" ∈ id_Namespaces i ∨ ns ∈ id_Namespaces i)).
Proof.
  intros Hk. split; [|split].
  - rewrite ParseCapabilityNames_testbit by lia. split.
    + intros (name & bit & Hin & Hbit & Ht). exists name. split; [done|].
      destruct (ClosedCapabilityNames_bits _ _ Hbit) as (j & Hj & ->).
      apply bit_testbit in Ht as ->; [done|lia..].
    + intros (name & Hin & Hbit). exists name, (Z.shiftl 1 k). split_and!; [done..|].
      apply bit_testbit; lia.
  - change DefaultCapabilityCeiling with (Z.ones 8). rewrite Z.testbit_ones_nonneg by lia.
    apply Z.ltb_lt.
  - unfold AllowsChannel, AllowsNamespace. destruct (NamespaceOf ch) as [ns|]; [|naive_solver].
    destruct (slices_Contains _ "*") eqn:He; [apply slices_Contains_spec in He; naive_solver|].
    rewrite slices_Contains_spec.
    assert ("*" ∉ id_Namespaces i) by (rewrite <-slices_Contains_spec; congruence). naive_solver.
Qed.

Lemma identity_scope_witness :
  Z.testbit (ParseCapabilityNames ["history.read"; "nope"]) 2 = true ∧
  AllowsChannel (mkIdentity "k1" ["acme"] 0%Z) "acme:im" = true.
Proof.
  destruct (identity_scope ["history.read"; "nope"] 2 (mkIdentity "k1" ["acme"] 0%Z) "acme:im")
    as (Hbit & _ & Hch); [lia|].
  split; [apply Hbit|apply Hch].
  - exists "history.read". split; [left|vm_compute; reflexivity].
  - exists "acme". split; [vm_compute; reflexivity|]. right. left.
Defined.

End Authz.
