(* ===== verification/Stream.v ===== *)
(** * Stream: publications, history pages and the history ring
      (internal/stream/broker.go, publication.go, broker_memory.go)

    The ring is the [channelHistory] object of the memory broker.  Offsets are
    [uint64] values, kept as [Z] with the wrap-around written out. *)

From S2P Require Import Prelude.

Module Stream.

Inductive PayloadKind := PayloadKindBinary | PayloadKindText | PayloadKindJSON.

Record Publication := mkPub {
  Channel : string;
  Payload : string;
  Kind : PayloadKind;
  ContentType : string;
  Id : string;
  Metadata : gmap string string;
  Offset : Z;
  Seq : Z;
  Time : Z;
  Epoch : string;
  pub_HistorySize : Z;
  pub_HistoryTTL : Z;
}.

#[export] Instance PayloadKind_eq_dec : EqDecision PayloadKind.
Proof. solve_decision. Defined.

#[export] Instance Publication_eq_dec : EqDecision Publication.
Proof. solve_decision. Defined.

(** [stored := *pub] with Channel, Offset, Epoch and Time overwritten. *)
Definition stamp (pub : Publication) (ch : string) (offset : Z) (epoch : string) (now : Z)
    : Publication :=
  mkPub ch (Payload pub) (Kind pub) (ContentType pub) (Id pub) (Metadata pub) offset (Seq pub) now
    epoch (pub_HistorySize pub) (pub_HistoryTTL pub).

(** ** Payload envelopes

    [J] stands for structpb.Struct; [marshal] is json.Marshal of its AsMap form
    and [unmarshal] is json.Unmarshal followed by structpb.NewStruct. *)

Section Envelope.
Context {J : Type} (marshal : J → option string) (unmarshal : string → option J).

Inductive PayloadData := Payload_Json (j : J) | Payload_Binary (b : string) | Payload_Text (t : string).

Record PayloadV2 := mkPayloadV2 { pv_ContentType : string; pv_Data : option PayloadData }.

Definition emptyPub (id : string) (md : gmap string string) : Publication :=
  mkPub "" "" PayloadKindBinary "" id md 0 0 0 "" 0 0.

Definition with_payload (pub : Publication) (ct payload : string) (k : PayloadKind) : Publication :=
  mkPub (Channel pub) payload k ct (Id pub) (Metadata pub) (Offset pub) (Seq pub) (Time pub)
    (Epoch pub) (pub_HistorySize pub) (pub_HistoryTTL pub).

(** [None] is the marshalling error. *)
Definition PublicationFromPayloadV2 (id : string) (md : gmap string string)
    (p : option PayloadV2) : option Publication :=
  let pub := emptyPub id md in
  match p with
  | None => Some pub
  | Some p =>
      match pv_Data p with
      | Some (Payload_Json j) =>
          match marshal j with
          | None => None
          | Some payload => Some (with_payload pub (pv_ContentType p) payload PayloadKindJSON)
          end
      | Some (Payload_Binary b) => Some (with_payload pub (pv_ContentType p) b PayloadKindBinary)
      | Some (Payload_Text t) => Some (with_payload pub (pv_ContentType p) t PayloadKindText)
      | None => Some (with_payload pub (pv_ContentType p) "" PayloadKindBinary)
      end
  end.

Definition PayloadProtoV2 (p : option Publication) : option PayloadV2 :=
  match p with
  | None => None
  | Some p =>
      if bool_decide (String.length (Payload p) = 0) then None
      else Some (mkPayloadV2 (ContentType p) (Some
        match Kind p with
        | PayloadKindText => Payload_Text (Payload p)
        | PayloadKindJSON =>
            match unmarshal (Payload p) with
            | Some j => Payload_Json j
            | None => Payload_Text (Payload p)
            end
        | PayloadKindBinary => Payload_Binary (Payload p)
        end))
  end.

End Envelope.

#[global] Arguments PayloadData : clear implicits.
#[global] Arguments PayloadV2 : clear implicits.

(** ** History pages *)

Inductive HistoryGapReason :=
| HistoryGapNone | HistoryGapHeadTrimmed | HistoryGapEmptyExpired | HistoryGapMiddle
| HistoryGapReplayTruncated.

Record HistoryPage := mkPage {
  Publications : list Publication;
  Truncated : bool;
  Gap : bool;
  GapReason : HistoryGapReason;
  FirstRetained : Z;
}.

Definition DefaultHistoryLimit : Z := 1000.

(** ** The ring *)

Record channelHistory := mkRing {
  entries : list (option Publication);
  size : nat;
  head : nat;
  count : nat;
  nextOff : Z;
}.

(** [make([]*Publication, cap)]; a negative capacity panics. *)
Definition newRing (cap : Z) : option channelHistory :=
  if (cap <? 0)%Z then None
  else Some (mkRing (replicate (Z.to_nat cap) None) (Z.to_nat cap) 0 0 0).

(** The section of [Publish] under [h.mu], the enqueue apart: the offset, the
    stored entry and the ring after the write. *)
Definition ring_push (h : channelHistory) (pub : Publication) (ch epoch : string) (now : Z)
    : Z * Publication * channelHistory :=
  let offset := u64 (nextOff h + 1) in
  let stored := stamp pub ch offset epoch now in
  let slot := (head h + count h) mod size h in
  if bool_decide (count h = size h) then
    (offset, stored,
     mkRing (<[head h := Some stored]> (entries h)) (size h) ((head h + 1) mod size h)
       (count h) offset)
  else
    (offset, stored,
     mkRing (<[slot := Some stored]> (entries h)) (size h) (head h) (count h + 1) offset).

(** The entry loop of [History], over the remaining ring positions [idxs]. *)
Fixpoint history_loop (h : channelHistory) (since limit : Z) (idxs : list nat)
    (result : list Publication) : list Publication :=
  match idxs with
  | [] => result
  | i :: rest =>
      match entries h !! ((head h + i) mod size h) with
      | Some (Some pub) =>
          if (Offset pub <? since)%Z then history_loop h since limit rest result
          else
            let result' := result ++ [pub] in
            if (limit <=? Z.of_nat (length result'))%Z then result'
            else history_loop h since limit rest result'
      | _ => history_loop h since limit rest result
      end
  end.

Definition emptyPage (since : Z) : HistoryPage :=
  if (0 <? since)%Z then mkPage [] false true HistoryGapEmptyExpired 0
  else mkPage [] false false HistoryGapNone 0.

(** The part of [History] under [h.mu].  The oldest entry of a non-empty ring
    is never nil; the [None] case would be a nil dereference. *)
Definition ring_history (h : channelHistory) (since limit : Z) : option HistoryPage :=
  let limit := if (limit <=? 0)%Z then DefaultHistoryLimit else limit in
  if bool_decide (count h = 0) then Some (emptyPage since)
  else
    match entries h !! head h with
    | Some (Some oldest) =>
        let firstRetained := Offset oldest in
        let gap := (0 <? since)%Z && (since <? firstRetained)%Z in
        let result := history_loop h since limit (seq 0 (count h)) [] in
        Some (mkPage result ((0 <? limit)%Z && (Z.of_nat (length result) =? limit)%Z) gap
                (if gap then HistoryGapHeadTrimmed else HistoryGapNone) firstRetained)
    | _ => None
    end.

(** ** The ring as the tail of a log *)

(** [ring_inv h log]: [log] is everything ever pushed, the ring holds its last
    [count] entries. *)
Record ring_inv (h : channelHistory) (log : list Publication) : Prop := {
  ri_size : 0 < size h;
  ri_len : length (entries h) = size h;
  ri_head : head h < size h;
  ri_count : count h = length log `min` size h;
  ri_next : nextOff h = u64 (Z.of_nat (length log));
  ri_offsets : ∀ i p, log !! i = Some p → Offset p = u64 (Z.of_nat (S i));
  ri_entries : ∀ i, i < count h →
    ∃ p, entries h !! ((head h + i) mod size h) = Some (Some p) ∧
         log !! (length log - count h + i) = Some p;
}.

(** The entries still in the ring, oldest first. *)
Definition retained (h : channelHistory) (log : list Publication) : list Publication :=
  drop (length log - count h) log.

Lemma newRing_inv cap h : (0 < cap)%Z → newRing cap = Some h → ring_inv h [].
Proof.
  unfold newRing. intros Hc. destruct (cap <? 0)%Z; [done|]. intros [= <-].
  split; simpl; try done; try lia. by rewrite length_replicate.
Qed.

(** Distinct positions of the ring have distinct slots. *)
Lemma mod_shift_ne a i j n : 0 < n → i < n → j < n → i ≠ j → (a + i) mod n ≠ (a + j) mod n.
Proof.
  intros Hn Hi Hj Hij Heq. apply Hij.
  pose proof (Nat.div_mod_eq (a + i) n). pose proof (Nat.div_mod_eq (a + j) n).
  rewrite Heq in *. set (q1 := (a + i) / n) in *. set (q2 := (a + j) / n) in *.
  assert (q1 = q2) by nia. nia.
Qed.

Lemma mod_succ_l a n i : 0 < n → ((a + 1) mod n + i) mod n = (a + S i) mod n.
Proof. intros ?. rewrite Nat.Div0.add_mod_idemp_l. f_equal. lia. Qed.

Lemma u64_succ n : u64 (u64 (Z.of_nat n) + 1) = u64 (Z.of_nat (S n)).
Proof. unfold u64. rewrite Zplus_mod_idemp_l. f_equal. lia. Qed.

Lemma ring_push_inv h log pub ch epoch now :
  ring_inv h log →
  let '(offset, stored, h') := ring_push h pub ch epoch now in
  offset = u64 (Z.of_nat (S (length log))) ∧ stored = stamp pub ch offset epoch now ∧
  ring_inv h' (log ++ [stored]) ∧ size h' = size h.
Proof.
  intros [Hsz Hlen Hhd Hcnt Hnext Hoff Hent]. unfold ring_push.
  rewrite Hnext, u64_succ. set (off := u64 _). set (st := stamp _ _ _ _ _).
  assert (∀ i p, (log ++ [st]) !! i = Some p → Offset p = u64 (Z.of_nat (S i))) as Hoff'.
  { intros i p [Hi|[Hi Hp]]%lookup_app_Some; [by apply Hoff|].
    apply list_lookup_singleton_Some in Hp as [Hz <-]. simpl. unfold off. do 3 f_equal. lia. }
  case_bool_decide as Hfull; (split_and!; [done..| |done]).
  - (* the oldest entry is overwritten *)
    split; simpl; try done.
    + by rewrite length_insert.
    + by apply Nat.mod_upper_bound; lia.
    + rewrite length_app. simpl. lia.
    + unfold off. rewrite length_app. simpl. do 2 f_equal. lia.
    + intros i Hi. rewrite mod_succ_l by done. rewrite length_app. simpl.
      destruct (decide (S i = size h)) as [Hs|Hs].
      * exists st. rewrite <-Hs, <-(Nat.add_0_r (head h)) at 1.
        replace ((head h + 0 + S i) mod S i) with (head h).
        -- rewrite list_lookup_insert_eq by (rewrite Hlen; lia). split; [f_equal|].
           rewrite lookup_app_r by lia. replace (_ - _) with 0 by lia. done.
        -- rewrite Nat.add_0_r, Nat.Div0.add_mod, Nat.Div0.mod_same, Nat.add_0_r, Nat.Div0.mod_mod.
           symmetry. apply Nat.mod_small. lia.
      * destruct (Hent (S i)) as (p & Hp & Hl); [lia|]. exists p. split.
        -- rewrite list_lookup_insert_ne; [done|].
           rewrite <-(Nat.mod_small (head h) (size h)) at 1 by done.
           rewrite <-(Nat.add_0_r (head h)) at 1. apply mod_shift_ne; lia.
        -- rewrite lookup_app_l by lia. rewrite <-Hl. f_equal. lia.
  - (* a free slot is filled *)
    assert (count h < size h) as Hlt by lia. split; simpl; try done.
    + by rewrite length_insert.
    + rewrite length_app. simpl. lia.
    + unfold off. rewrite length_app. simpl. do 2 f_equal. lia.
    + intros i Hi. rewrite length_app. simpl.
      destruct (decide (i = count h)) as [->|Hne].
      * exists st. rewrite list_lookup_insert_eq; [|rewrite Hlen; apply Nat.mod_upper_bound; lia].
        split; [done|]. rewrite lookup_app_r by lia. replace (_ - _) with 0 by lia. done.
      * destruct (Hent i) as (p & Hp & Hl); [lia|]. exists p. split.
        -- rewrite list_lookup_insert_ne; [done|]. apply mod_shift_ne; lia.
        -- rewrite lookup_app_l by lia. rewrite <-Hl. f_equal. lia.
Qed.

(** ** Reading a page *)

Lemma retained_lookup h log i p :
  ring_inv h log → i < count h → entries h !! ((head h + i) mod size h) = Some (Some p) →
  retained h log !! i = Some p.
Proof.
  intros Hinv Hi Hp. destruct (ri_entries _ _ Hinv i Hi) as (p' & Hp' & Hl). simplify_eq.
  unfold retained. by rewrite lookup_drop.
Qed.

Lemma retained_length h log : ring_inv h log → length (retained h log) = count h.
Proof. intros Hinv. unfold retained. rewrite length_drop, (ri_count _ _ Hinv). lia. Qed.

(** The entry loop is a filter cut at the limit. *)
Lemma history_loop_spec h log since limit n : ∀ i result,
  ring_inv h log → i + n = count h → (Z.of_nat (length result) < limit)%Z →
  history_loop h since limit (seq i n) result =
  take (Z.to_nat limit)
    (result ++ List.filter (λ p, (since <=? Offset p)%Z) (drop i (retained h log))).
Proof.
  induction n as [|n IH]; intros i result Hinv Hin Hres; cbn [seq history_loop].
  { rewrite drop_ge by (rewrite retained_length by done; lia). simpl.
    rewrite app_nil_r, take_ge by lia. done. }
  destruct (ri_entries _ _ Hinv i) as (p & Hp & _); [lia|]. rewrite Hp.
  assert (retained h log !! i = Some p) as Hr by (eapply retained_lookup; [done|lia|done]).
  rewrite (drop_S _ _ _ Hr). cbn [List.filter].
  destruct (Offset p <? since)%Z eqn:Hlt.
  { rewrite (proj2 (Z.leb_gt since (Offset p))) by lia. apply IH; [done|lia|done]. }
  rewrite (proj2 (Z.leb_le since (Offset p))) by lia. cbv zeta. rewrite length_app; cbn [length].
  destruct (limit <=? Z.of_nat (length result + 1))%Z eqn:Hl.
  - apply Z.leb_le in Hl.
    replace (Z.to_nat limit) with (length (result ++ [p])) by (rewrite length_app; simpl; lia).
    match goal with |- _ = take _ (_ ++ p :: ?X) => change (p :: X) with ([p] ++ X) end.
    by rewrite (app_assoc result [p]), take_app_length.
  - apply Z.leb_gt in Hl. rewrite IH; [by rewrite <-app_assoc|done|lia|]. rewrite length_app. simpl. lia.
Qed.

(** What [History] answers when the log has been shorter than 2^64 entries. *)
Definition page_of (log : list Publication) (kept : nat) (since limit : Z) : HistoryPage :=
  let limit := if (limit <=? 0)%Z then DefaultHistoryLimit else limit in
  let first := (Z.of_nat (length log) - Z.of_nat kept + 1)%Z in
  let pubs := take (Z.to_nat limit)
                (List.filter (λ p, (since <=? Offset p)%Z) (drop (length log - kept) log)) in
  if bool_decide (kept = 0) then emptyPage since
  else
    let gap := (0 <? since)%Z && (since <? first)%Z in
    mkPage pubs (Z.of_nat (length pubs) =? limit)%Z gap
      (if gap then HistoryGapHeadTrimmed else HistoryGapNone) first.

Lemma ring_history_page h log since limit :
  ring_inv h log → (Z.of_nat (length log) < u64_modulus)%Z →
  ring_history h since limit = Some (page_of log (count h) since limit).
Proof.
  intros Hinv Hlog. unfold ring_history, page_of.
  set (lim := if (limit <=? 0)%Z then _ else _).
  assert (0 < lim)%Z as Hlim by (unfold lim, DefaultHistoryLimit; destruct (limit <=? 0)%Z eqn:?; lia).
  case_bool_decide as Hc; [done|].
  destruct (ri_entries _ _ Hinv 0) as (p & Hp & Hl); [lia|].
  rewrite Nat.add_0_r, Nat.mod_small in Hp by apply (ri_head _ _ Hinv). rewrite Hp.
  rewrite (history_loop_spec h log) by (done || simpl; lia). rewrite drop_0. cbn [app].
  pose proof (ri_offsets _ _ Hinv _ _ Hl) as Ho.
  pose proof (ri_count _ _ Hinv) as Hcnt.
  rewrite u64_small in Ho by (unfold is_u64; lia).
  replace (Offset p) with (Z.of_nat (length log) - Z.of_nat (count h) + 1)%Z by lia.
  by rewrite (proj2 (Z.ltb_lt 0 lim)) by done.
Qed.

(** Offsets of the log are its positions. *)
Definition dense (log : list Publication) : Prop :=
  ∀ i p, log !! i = Some p → Offset p = Z.of_nat (S i).

Lemma ring_dense h log :
  ring_inv h log → (Z.of_nat (length log) < u64_modulus)%Z → dense log.
Proof.
  intros Hinv Hlog i p Hp. rewrite (ri_offsets _ _ Hinv _ _ Hp). apply u64_small.
  apply lookup_lt_Some in Hp. unfold is_u64. lia.
Qed.

Lemma filter_none {A} (f : A → bool) l : Forall (λ x, f x = false) l → List.filter f l = [].
Proof. induction 1 as [|x l Hx _ IH]; [done|]. simpl. by rewrite Hx, IH. Qed.

(** In a dense log the entries from [since] on are a suffix. *)
Lemma dense_filter log n since :
  dense log → (Z.of_nat n < since)%Z → n ≤ length log →
  List.filter (λ p, (since <=? Offset p)%Z) (drop n log)
  = List.filter (λ p, (since <=? Offset p)%Z) log.
Proof.
  intros Hd Hn Hlen. rewrite <-(take_drop n log) at 2. rewrite List.filter_app.
  assert (Forall (λ p, (since <=? Offset p)%Z = false) (take n log)) as Hall.
  { apply Forall_lookup. intros i p [Hp Hi]%lookup_take_Some. apply Z.leb_gt.
    rewrite (Hd _ _ Hp). lia. }
  by rewrite (filter_none _ _ Hall).
Qed.

(** A page that reports no gap misses nothing that was ever published from
    [since] on, up to the page limit; a page that reports one has lost an
    entry, or nothing was ever published. *)
Lemma page_gap_exact log kept since limit :
  dense log → kept ≤ length log → (kept = 0 → log = []) → (0 < since)%Z →
  let page := page_of log kept since limit in
  let wanted := List.filter (λ p, (since <=? Offset p)%Z) log in
  let lim := if (limit <=? 0)%Z then DefaultHistoryLimit else limit in
  (Gap page = false → Publications page = take (Z.to_nat lim) wanted ∧
     (Truncated page = false → Publications page = wanted)) ∧
  (Gap page = true ↔ log = [] ∨
     ∃ p, p ∈ take (length log - kept) log ∧ (since ≤ Offset p)%Z).
Proof.
  intros Hd Hk H0 Hs. unfold page_of, emptyPage. cbv zeta.
  set (lim := if (limit <=? 0)%Z then _ else _).
  assert (0 < lim)%Z as Hlim by (unfold lim, DefaultHistoryLimit; destruct (limit <=? 0)%Z eqn:?; lia).
  case_bool_decide as Hz.
  { rewrite (H0 Hz). rewrite (proj2 (Z.ltb_lt 0 since)) by done. simpl. naive_solver. }
  cbn [Gap Publications Truncated]. rewrite (proj2 (Z.ltb_lt 0 since)) by done. cbn [andb].
  split.
  - intros Hg%Z.ltb_ge. rewrite dense_filter by (done || lia). split; [done|].
    intros Ht%Z.eqb_neq. rewrite length_take in Ht. apply take_ge. lia.
  - rewrite Z.ltb_lt. split.
    + intros Hg. right. destruct (lookup_lt_is_Some_2 log (Z.to_nat since - 1)) as [p Hp]; [lia|].
      exists p. rewrite (Hd _ _ Hp). split; [|lia].
      apply list_elem_of_lookup. exists (Z.to_nat since - 1). rewrite lookup_take_lt by lia. done.
    + intros [->|(p & [i [Hp Hi]%lookup_take_Some]%list_elem_of_lookup & Ho)]; [simpl in *; lia|].
      rewrite (Hd _ _ Hp) in Ho. lia.
Qed.

(** ** Payload envelopes *)

(** Payload envelopes survive the trip through a Publication.  Converting a
    payload with non-empty data into a publication and back yields the same
    payload, JSON included, provided the JSON codec round-trips; an empty data
    field comes back as no payload. *)
Theorem payload_roundtrip {J} (marshal : J → option string) (unmarshal : string → option J)
    id md (p : PayloadV2 J) pub :
  (∀ j s, marshal j = Some s → unmarshal s = Some j) →
  PublicationFromPayloadV2 marshal id md (Some p) = Some pub →
  PayloadProtoV2 unmarshal (Some pub) =
    (if bool_decide (Payload pub = "") then None else Some p) ∧
  Id pub = id ∧ Metadata pub = md.
Proof.
  intros Hcodec. destruct p as [ct [[j|b|t]|]]; unfold PublicationFromPayloadV2; cbn [pv_Data pv_ContentType].
  1: destruct (marshal j) as [s|] eqn:Hm; [|done].
  all: intros [= <-]; split; [|done]; unfold PayloadProtoV2; cbn [Payload with_payload Kind ContentType].
  all: try (rewrite (Hcodec _ _ Hm)).
  all: first [destruct s as [|x s]|destruct b as [|x b]|destruct t as [|x t]|idtac].
  all: simpl; rewrite ?bool_decide_eq_true_2 by done; rewrite ?bool_decide_eq_false_2 by done; done.
Qed.

Lemma payload_roundtrip_witness :
  PayloadProtoV2 (J:=Z) (λ s, if bool_decide (s = "{}") then Some 7%Z else None)
    (PublicationFromPayloadV2 (λ j, if (j =? 7)%Z then Some "{}" else None) "m1" ∅
       (Some (mkPayloadV2 "application/json" (Some (Payload_Json 7%Z)))))
  = Some (mkPayloadV2 "application/json" (Some (Payload_Json 7%Z))).
Proof.
  destruct (PublicationFromPayloadV2 _ _ _ _) as [pub|] eqn:Hp; [|discriminate Hp].
  apply (payload_roundtrip (λ j, if (j =? 7)%Z then Some "{}" else None)
    (λ s, if bool_decide (s = "{}") then Some 7%Z else None)) in Hp as Hr.
  - injection Hp as <-. exact (proj1 Hr).
  - intros j s. destruct (Z.eqb_spec j 7) as [->|]; intros [= <-]. reflexivity.
Defined.

End Stream.
