(* ===== verification/MemoryBroker.v ===== *)
(** * MemoryBroker: the in-process broker (internal/stream/broker_memory.go)

    Every [channelHistory] is a heap object with an address: the [history] map
    stores addresses, and a Publish that has resolved its ring keeps writing to
    that object.  Publish and PublishTransient are split at the points where
    the code releases [b.mu] / takes [h.mu]; [step] interleaves any number of
    publishers with Subscribe, Unsubscribe, the delivery workers, Start and
    shutdown.  The topic matcher is used through its interface. *)

From S2P Require Import Prelude Topics Matcher Interest Stream CSTrie.
Import Topics Matcher Interest Stream.

Module MemoryBroker.

Definition defaultMemoryHistorySize : Z := 256.
Definition dispatchShardCount : Z := 64.
Definition dispatchShardDepth : nat := 256.

Record dispatchTask := mkTask { t_ch : string; t_pub : Publication }.

Definition chShard (ch : string) : Z := fnv_sum64a ch mod dispatchShardCount.

Section Broker.
Context {M : Type} `{Matcher string M}.

Record memoryBroker := mkBroker {
  b_handler : bool;                      (* a PublicationHandler is stored *)
  b_historySize : Z;
  b_epoch : string;
  b_history : gmap string positive;      (* channel -> ring address *)
  b_rings : gmap positive channelHistory;
  b_next : positive;                     (* next free address *)
  b_subs : gmap string nat;
  b_wcCounts : gmap string nat;
  b_wcHandles : gset string;             (* patterns with a matcher handle *)
  b_matcher : M;
  b_dispatch : gmap Z (list dispatchTask);
  b_done : bool;
  b_ready : bool;
}.

Definition NewMemoryBroker (historySize : Z) (epoch : string) : memoryBroker :=
  let size := if (historySize =? 0)%Z then defaultMemoryHistorySize else historySize in
  mkBroker false size epoch ∅ ∅ 1 ∅ ∅ ∅ m_new ∅ false false.

(** ** Field updates *)

Definition set_history (b : memoryBroker) h rings next : memoryBroker :=
  mkBroker (b_handler b) (b_historySize b) (b_epoch b) h rings next (b_subs b) (b_wcCounts b)
    (b_wcHandles b) (b_matcher b) (b_dispatch b) (b_done b) (b_ready b).
Definition set_subs (b : memoryBroker) subs : memoryBroker :=
  mkBroker (b_handler b) (b_historySize b) (b_epoch b) (b_history b) (b_rings b) (b_next b) subs
    (b_wcCounts b) (b_wcHandles b) (b_matcher b) (b_dispatch b) (b_done b) (b_ready b).
Definition set_wc (b : memoryBroker) counts handles matcher : memoryBroker :=
  mkBroker (b_handler b) (b_historySize b) (b_epoch b) (b_history b) (b_rings b) (b_next b)
    (b_subs b) counts handles matcher (b_dispatch b) (b_done b) (b_ready b).
Definition set_dispatch (b : memoryBroker) d : memoryBroker :=
  mkBroker (b_handler b) (b_historySize b) (b_epoch b) (b_history b) (b_rings b) (b_next b)
    (b_subs b) (b_wcCounts b) (b_wcHandles b) (b_matcher b) d (b_done b) (b_ready b).

(** Go's map lookup with the zero value. *)
Definition cnt (m : gmap string nat) (ch : string) : nat := default 0 (m !! ch).

(** ** Interest *)

Inductive BrokerError := EInterest (e : InterestError) | ETopic (e : TopicError).

(** [None]: the call does not return (matcher spinning). *)
Definition Subscribe (b : memoryBroker) (ch : string)
    : option (result BrokerError unit * memoryBroker) :=
  match CompileInterest ch with
  | None => None
  | Some (Err e) => Some (Err (EInterest e), b)
  | Some (Ok _) =>
      if IsWildcard ch then
        let counts := <[ch := S (cnt (b_wcCounts b) ch)]> (b_wcCounts b) in
        if bool_decide (cnt counts ch = 1) then
          match m_Subscribe ch ch (b_matcher b) with
          | None => None
          | Some (Err e, m') =>
              Some (Err (ETopic e), set_wc b (delete ch counts) (b_wcHandles b) m')
          | Some (Ok _, m') => Some (Ok tt, set_wc b counts ({[ ch ]} ∪ b_wcHandles b) m')
          end
        else Some (Ok tt, set_wc b counts (b_wcHandles b) (b_matcher b))
      else Some (Ok tt, set_subs b (<[ch := S (cnt (b_subs b) ch)]> (b_subs b)))
  end.

(** The history reclaim at the end of Unsubscribe. *)
Definition reclaim (b : memoryBroker) (ch : string) : memoryBroker :=
  match b_history b !! ch with
  | None => b
  | Some id =>
      match b_rings b !! id with
      | Some h =>
          if bool_decide (count h = 0) && (nextOff h =? 0)%Z
          then set_history b (delete ch (b_history b)) (b_rings b) (b_next b)
          else b
      | None => b
      end
  end.

Definition Unsubscribe (b : memoryBroker) (ch : string) : option memoryBroker :=
  if IsWildcard ch then
    if bool_decide (0 < cnt (b_wcCounts b) ch) then
      let n := cnt (b_wcCounts b) ch - 1 in
      if bool_decide (n = 0) then
        let counts := delete ch (b_wcCounts b) in
        if bool_decide (ch ∈ b_wcHandles b) then
          match m_Unsubscribe ch ch (b_matcher b) with
          | None => None
          | Some m' => Some (set_wc b counts (b_wcHandles b ∖ {[ ch ]}) m')
          end
        else Some (set_wc b counts (b_wcHandles b) (b_matcher b))
      else Some (set_wc b (<[ch := n]> (b_wcCounts b)) (b_wcHandles b) (b_matcher b))
    else Some b
  else
    let subs := if bool_decide (0 < cnt (b_subs b) ch)
                then <[ch := cnt (b_subs b) ch - 1]> (b_subs b) else b_subs b in
    if bool_decide (cnt subs ch = 0)
    then Some (reclaim (set_subs b (delete ch subs)) ch)
    else Some (set_subs b subs).

Definition interested (b : memoryBroker) (ch : string) : option bool :=
  if bool_decide (0 < cnt (b_subs b) ch) then Some true
  else match m_Lookup ch (b_matcher b) with
       | None => None
       | Some l => Some (bool_decide (0 < length l))
       end.

(** ** Publishing, phase by phase *)

(** Resolve (or create) the ring under [b.mu]. *)
Definition resolve (b : memoryBroker) (ch : string) (pub : Publication)
    : option (positive * memoryBroker) :=
  match b_history b !! ch with
  | Some id => Some (id, b)
  | None =>
      let cap := if (0 <? pub_HistorySize pub)%Z then pub_HistorySize pub else b_historySize b in
      match newRing cap with
      | None => None
      | Some h =>
          let id := b_next b in
          Some (id, set_history b (<[ch := id]> (b_history b)) (<[id := h]> (b_rings b))
                      (Pos.succ id))
      end
  end.

(** [wantDelivery]. *)
Definition want (b : memoryBroker) (ch : string) : option bool :=
  if b_handler b then interested b ch else Some false.

(** The two ready cases of the select in [enqueue]. *)
Inductive choice := QSend | QShutdown.

Definition enqueue (b : memoryBroker) (ch : string) (pub : Publication) (c : choice)
    : option memoryBroker :=
  match c with
  | QSend =>
      let q := default [] (b_dispatch b !! chShard ch) in
      if bool_decide (length q < dispatchShardDepth)
      then Some (set_dispatch b (<[chShard ch := q ++ [mkTask ch pub]]> (b_dispatch b)))
      else None
  | QShutdown => if b_done b then Some b else None
  end.

(** The section under [h.mu]: assign the offset, write the ring, enqueue. *)
Definition commit (b : memoryBroker) (id : positive) (ch : string) (pub : Publication)
    (wantDelivery : bool) (now : Z) (c : choice) : option (Z * Publication * memoryBroker) :=
  match b_rings b !! id with
  | None => None
  | Some h =>
      let '(offset, stored, h') := ring_push h pub ch (b_epoch b) now in
      let b' := set_history b (b_history b) (<[id := h']> (b_rings b)) (b_next b) in
      if wantDelivery then
        match enqueue b' ch stored c with
        | None => None
        | Some b'' => Some (offset, stored, b'')
        end
      else Some (offset, stored, b')
  end.

(** Publish without interference. *)
Definition Publish (b : memoryBroker) (ch : string) (pub : Publication) (now : Z)
    : option (result TopicError Z * memoryBroker) :=
  match ValidateTopic ch with
  | Err e => Some (Err e, b)
  | Ok _ =>
      '(id, b1) ← resolve b ch pub;
      w ← want b1 ch;
      '(offset, _, b2) ← commit b1 id ch pub w now QSend;
      Some (Ok offset, b2)
  end.

Definition PublishTransient (b : memoryBroker) (ch : string) (pub : Publication) (now : Z)
    : option (result TopicError unit * memoryBroker) :=
  match ValidateTopic ch with
  | Err e => Some (Err e, b)
  | Ok _ =>
      w ← want b ch;
      if w : bool
      then b' ← enqueue b ch (stamp pub ch 0 (b_epoch b) now) QSend; Some (Ok tt, b')
      else Some (Ok tt, b)
  end.

(** PublishOccupancy: the boolean says whether the occupancy handler runs. *)
Definition PublishOccupancy (b : memoryBroker) (occHandler : bool) (ch : string)
    : option (result TopicError bool) :=
  match ValidateTopic ch with
  | Err e => Some (Err e)
  | Ok _ =>
      if negb occHandler then Some (Ok false)
      else i ← interested b ch; Some (Ok i)
  end.

Definition History (b : memoryBroker) (ch : string) (sinceOffset limit : Z) : option HistoryPage :=
  match b_history b !! ch with
  | None => Some (emptyPage sinceOffset)
  | Some id =>
      match b_rings b !! id with
      | None => None
      | Some h => ring_history h sinceOffset limit
      end
  end.

(** One iteration of a delivery worker: take the head of the shard queue. *)
Definition worker (b : memoryBroker) (shard : Z) : option (dispatchTask * memoryBroker) :=
  match b_dispatch b !! shard with
  | Some (task :: rest) => Some (task, set_dispatch b (<[shard := rest]> (b_dispatch b)))
  | _ => None
  end.

Definition Start (b : memoryBroker) : memoryBroker :=
  mkBroker true (b_historySize b) (b_epoch b) (b_history b) (b_rings b) (b_next b) (b_subs b)
    (b_wcCounts b) (b_wcHandles b) (b_matcher b) (b_dispatch b) (b_done b) true.

(** The context given to Start is cancelled. *)
Definition Shutdown (b : memoryBroker) : memoryBroker :=
  mkBroker (b_handler b) (b_historySize b) (b_epoch b) (b_history b) (b_rings b) (b_next b)
    (b_subs b) (b_wcCounts b) (b_wcHandles b) (b_matcher b) (b_dispatch b) true (b_ready b).

(** ** Sequential operations and the abstract broker *)

Inductive op :=
| OSub (ch : string) | OUnsub (ch : string)
| OPub (ch : string) (pub : Publication) (now : Z)
| OTrans (ch : string) (pub : Publication) (now : Z)
| ODeliver (shard : Z)
| OStart.

Inductive out :=
| RSub (r : result BrokerError unit) | RUnsub
| RPub (r : result TopicError Z) | RTrans (r : result TopicError unit)
| RTask (t : dispatchTask) | RStarted.

Definition exec_op (o : op) (b : memoryBroker) : option (out * memoryBroker) :=
  match o with
  | OSub ch => '(r, b') ← Subscribe b ch; Some (RSub r, b')
  | OUnsub ch => b' ← Unsubscribe b ch; Some (RUnsub, b')
  | OPub ch pub now => '(r, b') ← Publish b ch pub now; Some (RPub r, b')
  | OTrans ch pub now => '(r, b') ← PublishTransient b ch pub now; Some (RTrans r, b')
  | ODeliver shard => '(t, b') ← worker b shard; Some (RTask t, b')
  | OStart => Some (RStarted, Start b)
  end.

(** The abstract broker: per channel the log of everything published, per key a
    reference count, and the queues of undelivered tasks. *)
Record spec := mkSpec {
  sp_logs : gmap string (list Publication);
  sp_refs : gmap string nat;
  sp_queues : gmap Z (list dispatchTask);
  sp_started : bool;
}.

Definition log_of (sp : spec) (ch : string) : list Publication := default [] (sp_logs sp !! ch).

Definition sp_interested (sp : spec) (ch : string) : bool :=
  existsb (λ '(key, n), bool_decide (0 < n) && key_covers key ch) (map_to_list (sp_refs sp)).

Definition sp_enqueue (q : gmap Z (list dispatchTask)) (deliver : bool) (t : dispatchTask)
    : option (gmap Z (list dispatchTask)) :=
  if deliver then
    let l := default [] (q !! chShard (t_ch t)) in
    if bool_decide (length l < dispatchShardDepth)
    then Some (<[chShard (t_ch t) := l ++ [t]]> q) else None
  else Some q.

Definition spec_op (epoch : string) (o : op) (sp : spec) : option (out * spec) :=
  match o with
  | OSub ch =>
      match CompileInterest ch with
      | None => None
      | Some (Err e) => Some (RSub (Err (EInterest e)), sp)
      | Some (Ok _) =>
          Some (RSub (Ok tt), mkSpec (sp_logs sp) (<[ch := S (cnt (sp_refs sp) ch)]> (sp_refs sp))
                               (sp_queues sp) (sp_started sp))
      end
  | OUnsub ch =>
      Some (RUnsub, mkSpec (sp_logs sp) (<[ch := cnt (sp_refs sp) ch - 1]> (sp_refs sp))
                      (sp_queues sp) (sp_started sp))
  | OPub ch pub now =>
      if negb (validTopic ch) then Some (RPub (Err ErrBadTopic), sp)
      else
        let log := log_of sp ch in
        let offset := u64 (Z.of_nat (S (length log))) in
        let stored := stamp pub ch offset epoch now in
        q ← sp_enqueue (sp_queues sp) (sp_started sp && sp_interested sp ch) (mkTask ch stored);
        Some (RPub (Ok offset),
              mkSpec (<[ch := log ++ [stored]]> (sp_logs sp)) (sp_refs sp) q (sp_started sp))
  | OTrans ch pub now =>
      if negb (validTopic ch) then Some (RTrans (Err ErrBadTopic), sp)
      else
        q ← sp_enqueue (sp_queues sp) (sp_started sp && sp_interested sp ch)
              (mkTask ch (stamp pub ch 0 epoch now));
        Some (RTrans (Ok tt), mkSpec (sp_logs sp) (sp_refs sp) q (sp_started sp))
  | ODeliver shard =>
      match sp_queues sp !! shard with
      | Some (t :: rest) =>
          Some (RTask t, mkSpec (sp_logs sp) (sp_refs sp) (<[shard := rest]> (sp_queues sp))
                           (sp_started sp))
      | _ => None
      end
  | OStart => Some (RStarted, mkSpec (sp_logs sp) (sp_refs sp) (sp_queues sp) true)
  end.

(** Runs: the outputs so far, and the state, as long as every call returns. *)
Fixpoint exec (ops : list op) (b : memoryBroker) : option (list out * memoryBroker) :=
  match ops with
  | [] => Some ([], b)
  | o :: ops' =>
      '(r, b1) ← exec_op o b; '(rs, b2) ← exec ops' b1; Some (r :: rs, b2)
  end.

Fixpoint spec_exec (epoch : string) (ops : list op) (sp : spec) : option (list out * spec) :=
  match ops with
  | [] => Some ([], sp)
  | o :: ops' =>
      '(r, s1) ← spec_op epoch o sp; '(rs, s2) ← spec_exec epoch ops' s1; Some (r :: rs, s2)
  end.

Definition spec0 : spec := mkSpec ∅ ∅ ∅ false.

(** The ring capacity is fixed by the first publication of the channel. *)
Definition cap_of (historySize : Z) (log : list Publication) : nat :=
  match log with
  | [] => 0
  | p :: _ =>
      Z.to_nat (if (0 <? pub_HistorySize p)%Z then pub_HistorySize p else historySize)
  end.

(** ** Interleaved publishers *)

Inductive thread :=
| TResolved (ch : string) (pub : Publication) (id : positive)
| TReady (ch : string) (pub : Publication) (id : positive) (wantDelivery : bool)
| TTransient (ch : string) (stored : Publication).

(** [s_enq], [s_trace] and [s_logs] are ghost: every accepted enqueue with the
    ring it came from, every task handed to the handler, every write to a ring. *)
Record sys := mkSys {
  s_b : memoryBroker;
  s_threads : gmap nat thread;
  s_enq : list (option positive * dispatchTask);
  s_trace : list dispatchTask;
  s_logs : gmap positive (list Publication);
}.

Inductive label :=
| LSub (ch : string) | LUnsub (ch : string)
| LBegin (tid : nat) (ch : string) (pub : Publication)
| LInterest (tid : nat)
| LCommit (tid : nat) (now : Z) (c : choice)
| LTransient (tid : nat) (ch : string) (pub : Publication) (now : Z)
| LSend (tid : nat) (c : choice)
| LDeliver (shard : Z)
| LStart | LShutdown.

Definition sent (c : choice) : bool := match c with QSend => true | QShutdown => false end.

Definition exec_label (l : label) (s : sys) : option sys :=
  let b := s_b s in
  let with_b b' := mkSys b' (s_threads s) (s_enq s) (s_trace s) (s_logs s) in
  match l with
  | LSub ch => '(_, b') ← Subscribe b ch; Some (with_b b')
  | LUnsub ch => b' ← Unsubscribe b ch; Some (with_b b')
  | LStart => Some (with_b (Start b))
  | LShutdown => Some (with_b (Shutdown b))
  | LBegin tid ch pub =>
      match s_threads s !! tid with
      | Some _ => None
      | None =>
          if negb (validTopic ch) then Some s
          else
            '(id, b') ← resolve b ch pub;
            Some (mkSys b' (<[tid := TResolved ch pub id]> (s_threads s)) (s_enq s) (s_trace s)
                    (<[id := default [] (s_logs s !! id)]> (s_logs s)))
      end
  | LInterest tid =>
      match s_threads s !! tid with
      | Some (TResolved ch pub id) =>
          w ← want b ch;
          Some (mkSys b (<[tid := TReady ch pub id w]> (s_threads s)) (s_enq s) (s_trace s) (s_logs s))
      | _ => None
      end
  | LCommit tid now c =>
      match s_threads s !! tid with
      | Some (TReady ch pub id w) =>
          '(_, stored, b') ← commit b id ch pub w now c;
          Some (mkSys b' (delete tid (s_threads s))
                  (if w && sent c then s_enq s ++ [(Some id, mkTask ch stored)] else s_enq s)
                  (s_trace s)
                  (<[id := default [] (s_logs s !! id) ++ [stored]]> (s_logs s)))
      | _ => None
      end
  | LTransient tid ch pub now =>
      match s_threads s !! tid with
      | Some _ => None
      | None =>
          if negb (validTopic ch) then Some s
          else
            w ← want b ch;
            if w : bool then
              Some (mkSys b (<[tid := TTransient ch (stamp pub ch 0 (b_epoch b) now)]> (s_threads s))
                      (s_enq s) (s_trace s) (s_logs s))
            else Some s
      end
  | LSend tid c =>
      match s_threads s !! tid with
      | Some (TTransient ch stored) =>
          b' ← enqueue b ch stored c;
          Some (mkSys b' (delete tid (s_threads s))
                  (if sent c then s_enq s ++ [(None, mkTask ch stored)] else s_enq s)
                  (s_trace s) (s_logs s))
      | _ => None
      end
  | LDeliver shard =>
      '(t, b') ← worker b shard;
      Some (mkSys b' (s_threads s) (s_enq s) (s_trace s ++ [t]) (s_logs s))
  end.

Definition step (s s' : sys) : Prop := ∃ l, exec_label l s = Some s'.

Definition sys0 (historySize : Z) (epoch : string) : sys :=
  mkSys (NewMemoryBroker historySize epoch) ∅ [] [] ∅.

Definition reachable (historySize : Z) (epoch : string) (s : sys) : Prop :=
  rtc step (sys0 historySize epoch) s.

(** ** Simulation *)

Context `{!MatcherLaws trailing_wildcard string M}.
Context (historySize : Z) (size_pos : (0 < historySize)%Z) (epoch : string).

(** The wildcard registry and the matcher agree with the reference counts. *)
Record interest_inv (b : memoryBroker) (refs : gmap string nat) : Prop := {
  ii_subs : ∀ ch, cnt (b_subs b) ch = if IsWildcard ch then 0 else cnt refs ch;
  ii_counts : ∀ ch, cnt (b_wcCounts b) ch = if IsWildcard ch then cnt refs ch else 0;
  ii_handles : ∀ ch, ch ∈ b_wcHandles b ↔ 0 < cnt (b_wcCounts b) ch;
  ii_matcher : ∃ R, m_repr (b_matcher b) R ∧
    ∀ ws p, (ws, p) ∈ R ↔ ws = SplitSegments p ∧ 0 < cnt (b_wcCounts b) p;
}.

Record history_inv (b : memoryBroker) (logs : gmap string (list Publication)) : Prop := {
  hi_ring : ∀ ch id, b_history b !! ch = Some id →
    ∃ h log, b_rings b !! id = Some h ∧ logs !! ch = Some log ∧ log ≠ [] ∧ ring_inv h log ∧
      size h = cap_of historySize log;
  hi_none : ∀ ch, b_history b !! ch = None → logs !! ch = None;
  hi_inj : ∀ c1 c2 id, b_history b !! c1 = Some id → b_history b !! c2 = Some id → c1 = c2;
  hi_fresh : ∀ ch id, b_history b !! ch = Some id → (id < b_next b)%positive;
}.

Record sim (b : memoryBroker) (sp : spec) : Prop := {
  sim_interest : interest_inv b (sp_refs sp);
  sim_history : history_inv b (sp_logs sp);
  sim_queues : b_dispatch b = sp_queues sp;
  sim_started : b_handler b = sp_started sp;
  sim_epoch : b_epoch b = epoch;
  sim_size : b_historySize b = historySize;
}.

Lemma cnt_insert m ch n x : cnt (<[ch := n]> m) x = if decide (ch = x) then n else cnt m x.
Proof. unfold cnt. rewrite lookup_insert. by case_decide. Qed.

Lemma cnt_delete m ch x : cnt (delete ch m) x = if decide (ch = x) then 0 else cnt m x.
Proof. unfold cnt. rewrite lookup_delete. by case_decide. Qed.

Lemma sim_new : sim (NewMemoryBroker historySize epoch) spec0.
Proof.
  unfold NewMemoryBroker. rewrite (proj2 (Z.eqb_neq historySize 0)) by lia. split; simpl; try done.
  split; simpl; try (intros ch; by destruct (IsWildcard ch)).
  - intros ch. unfold cnt. rewrite lookup_empty. simpl. split; [set_solver|lia].
  - exists ∅. split; [apply m_new_repr|]. intros ws p. unfold cnt. simpl. rewrite lookup_empty. simpl.
    split; [set_solver|lia].
Qed.

Lemma interested_spec b refs ch :
  interest_inv b refs →
  interested b ch = Some (existsb (λ '(key, n), bool_decide (0 < n) && key_covers key ch)
                            (map_to_list refs)).
Proof.
  intros Hi. set (r := existsb _ _).
  assert (r = true ↔ (IsWildcard ch = false ∧ 0 < cnt refs ch) ∨
    ∃ key, IsWildcard key = true ∧ 0 < cnt refs key ∧ Match key ch = true) as Hr.
  { unfold r. rewrite existsb_exists. split.
    - intros ([key n] & Hin%list_elem_of_In%elem_of_map_to_list & Hb). bool_hyps.
      assert (cnt refs key = n) as Hn by (unfold cnt; by rewrite Hin).
      unfold key_covers in *. destruct (IsWildcard key) eqn:Hw; bool_hyps; [|subst key].
      + right. exists key. rewrite Hn. auto.
      + left. by rewrite Hn.
    - assert (∀ key, 0 < cnt refs key → key_covers key ch = true →
        ∃ x, In x (map_to_list refs) ∧ (let '(key, n) := x in bool_decide (0 < n) && key_covers key ch) = true)
        as Hmk.
      { intros key Hn Hk. unfold cnt in Hn. destruct (refs !! key) as [n|] eqn:Hl; simpl in Hn; [|lia].
        exists (key, n). split; [by apply list_elem_of_In, elem_of_map_to_list|].
        by rewrite Hk, bool_decide_eq_true_2. }
      intros [[Hw Hn]|(key & Hw & Hn & Hm)]; [apply (Hmk ch)|apply (Hmk key)]; try done;
        unfold key_covers; rewrite Hw; [by rewrite bool_decide_eq_true|done]. }
  unfold interested. rewrite (ii_subs _ _ Hi).
  destruct (ii_matcher _ _ Hi) as (R & HR & Hreg).
  destruct (m_Lookup_repr _ R ch HR) as (S & -> & _ & HS).
  assert (0 < length S ↔ ∃ key, IsWildcard key = true ∧ 0 < cnt refs key ∧ Match key ch = true) as HSr.
  { assert (∀ s, s ∈ S ↔ IsWildcard s = true ∧ 0 < cnt refs s ∧ Match s ch = true) as HS'.
    { intros s. rewrite HS. unfold Match. rewrite matchCriteria_segs.
      setoid_rewrite Hreg. rewrite (ii_counts _ _ Hi). split.
      - intros (Hne & ps & [-> Hn] & Hm). destruct (IsWildcard s); [auto|lia].
      - intros (Hw & Hn & Hne & Hm). rewrite Hw. eauto. }
    destruct S as [|s S]; simpl; split; try lia.
    - intros (key & Hk%HS'). set_solver.
    - intros _. exists s. apply HS'. left. }
  case_bool_decide as Hc.
  - f_equal. symmetry. apply Hr. left. destruct (IsWildcard ch); [lia|auto].
  - f_equal. apply eq_true_iff_eq. rewrite bool_decide_eq_true, Hr, HSr.
    destruct (IsWildcard ch); intuition (try done; lia).
Qed.

(** Operations on the interest leave the rest of the broker alone. *)
Definition interest_only (b b' : memoryBroker) : Prop :=
  b_history b' = b_history b ∧ b_rings b' = b_rings b ∧ b_next b' = b_next b ∧
  b_dispatch b' = b_dispatch b ∧ b_handler b' = b_handler b ∧ b_epoch b' = b_epoch b ∧
  b_historySize b' = b_historySize b.

Lemma history_inv_frame b b' logs :
  b_history b' = b_history b → b_rings b' = b_rings b → b_next b' = b_next b →
  history_inv b logs → history_inv b' logs.
Proof. intros H1 H2 H3 [????]. split; rewrite ?H1, ?H2, ?H3; done. Qed.

Lemma cnt_pos_1 m ch : cnt (<[ch := S (cnt m ch)]> m) ch = 1 ↔ cnt m ch = 0.
Proof. rewrite cnt_insert, decide_True by done. lia. Qed.

Lemma compiled_wildcard ch ci :
  CompileInterest ch = Some (Ok ci) →
  validTopic ch = true ∧ (IsWildcard ch = true → trailing_wildcard (SplitSegments ch)).
Proof.
  intros Hci. destruct (compile_cases ch) as [[_ ?]|[(Hv & Hform & _)|(_ & _ & _ & ?)]];
    [congruence| |congruence].
  split; [done|]. unfold IsWildcard. intros Hw. destruct Hform as [?|Hr]; [congruence|].
  by apply routable_trailing.
Qed.

Lemma Subscribe_interest b refs ch ci :
  interest_inv b refs → CompileInterest ch = Some (Ok ci) →
  ∃ b', Subscribe b ch = Some (Ok tt, b') ∧
    interest_inv b' (<[ch := S (cnt refs ch)]> refs) ∧ interest_only b b'.
Proof.
  intros Hi Hci. destruct (compiled_wildcard _ _ Hci) as [Hv Htw].
  pose proof Hi as [Hsubs Hcounts Hhandles (R & HR & Hreg)].
  unfold Subscribe. rewrite Hci. destruct (IsWildcard ch) eqn:Hw.
  - assert (∀ x, cnt (<[ch := S (cnt (b_wcCounts b) ch)]> (b_wcCounts b)) x =
      if IsWildcard x then cnt (<[ch := S (cnt refs ch)]> refs) x else 0) as Hcnt'.
    { intros x. rewrite !cnt_insert, !Hcounts. case_decide; [subst; by rewrite Hw|done]. }
    assert (∀ x, cnt (b_subs b) x =
      if IsWildcard x then 0 else cnt (<[ch := S (cnt refs ch)]> refs) x) as Hsubs'.
    { intros x. rewrite cnt_insert, Hsubs. case_decide; [subst; by rewrite Hw|done]. }
    case_bool_decide as H1.
    + apply cnt_pos_1 in H1.
      destruct (m_Subscribe_repr (b_matcher b) R ch ch) as (m' & -> & HR'); [done|done|by apply Htw|].
      eexists. split; [done|]. split; [|done]. split; simpl; try done.
      * intros x. rewrite elem_of_union, elem_of_singleton, Hhandles, cnt_insert.
        case_decide; [naive_solver lia|naive_solver].
      * exists ({[(SplitSegments ch, ch)]} ∪ R). split; [done|]. intros ws p.
        rewrite elem_of_union, elem_of_singleton, Hreg, cnt_insert.
        case_decide; [subst|naive_solver]. rewrite H1. naive_solver lia.
    + eexists. split; [done|]. split; [|done].
      assert (cnt (b_wcCounts b) ch ≠ 0) as Hnz by (by rewrite <-cnt_pos_1).
      split; simpl; try done.
      * intros x. rewrite Hhandles, cnt_insert. case_decide; [subst; lia|done].
      * exists R. split; [done|]. intros ws p. rewrite Hreg, cnt_insert.
        case_decide; [subst; naive_solver lia|done].
  - eexists. split; [done|]. split; [|done]. split; simpl; try done; [..|by exists R].
    + intros x. rewrite !cnt_insert, !Hsubs. case_decide; [subst; by rewrite Hw|done].
    + intros x. rewrite cnt_insert, Hcounts. case_decide; [subst; by rewrite Hw|done].
Qed.

Lemma Unsubscribe_wildcard b refs ch :
  interest_inv b refs → IsWildcard ch = true →
  ∃ b' b1, Unsubscribe b ch = Some b' ∧ interest_only b b1 ∧
    interest_inv b1 (<[ch := cnt refs ch - 1]> refs) ∧ (b' = b1 ∨ b' = reclaim b1 ch).
Proof.
  intros Hi Hw. pose proof Hi as [Hsubs Hcounts Hhandles (R & HR & Hreg)].
  unfold Unsubscribe. rewrite Hw.
  assert (cnt refs ch = cnt (b_wcCounts b) ch) as Hc by (by rewrite Hcounts, Hw). rewrite Hc.
  assert (∀ x, cnt (b_subs b) x =
    if IsWildcard x then 0 else cnt (<[ch := cnt (b_wcCounts b) ch - 1]> refs) x) as Hsubs'.
  { intros x. rewrite cnt_insert, Hsubs. case_decide; [subst; by rewrite Hw|done]. }
  assert (∀ m, (∀ x, cnt m x = cnt (<[ch := cnt (b_wcCounts b) ch - 1]> (b_wcCounts b)) x) →
    ∀ x, cnt m x = if IsWildcard x then cnt (<[ch := cnt (b_wcCounts b) ch - 1]> refs) x else 0) as Hcnt'.
  { intros m Hm x. rewrite Hm, !cnt_insert, Hcounts. case_decide; [subst; by rewrite Hw|done]. }
  case_bool_decide as Hpos; [|eexists _, b; split; [done|]; split; [done|]; split; [|by left]].
  + set (n := cnt (b_wcCounts b) ch - 1) in *. case_bool_decide as Hn.
    * rewrite bool_decide_eq_true_2 by (by apply Hhandles).
      destruct (m_Unsubscribe_repr (b_matcher b) R ch ch HR) as (m' & -> & HR').
      eexists _, _. split; [done|]. split; [|split; [|by left]]; [done|].
      assert (∀ x, cnt (delete ch (b_wcCounts b)) x = cnt (<[ch := n]> (b_wcCounts b)) x) as Hdel.
      { intros x. rewrite cnt_delete, cnt_insert, Hn. done. }
      split; simpl; [done|by apply Hcnt'| |].
      -- intros x. rewrite elem_of_difference, elem_of_singleton, Hhandles, cnt_delete.
         case_decide; [naive_solver lia|naive_solver].
      -- eexists. split; [done|]. intros ws p.
         rewrite elem_of_difference, elem_of_singleton, Hreg, cnt_delete.
         case_decide; [subst; naive_solver lia|naive_solver].
    * eexists _, _. split; [done|]. split; [|split; [|by left]]; [done|].
      split; simpl; [done|by apply Hcnt'| |].
      -- intros x. rewrite Hhandles, cnt_insert. case_decide; [subst; lia|done].
      -- exists R. split; [done|]. intros ws p. rewrite Hreg, cnt_insert.
         case_decide; [subst|done]. split; intros [-> ?]; (split; [done|lia]).
  + split; [done| |done|by exists R]. apply Hcnt'. intros x. rewrite cnt_insert.
    case_decide; [subst; lia|done].
Qed.

Lemma Unsubscribe_exact b refs ch :
  interest_inv b refs → IsWildcard ch = false →
  ∃ b' b1, Unsubscribe b ch = Some b' ∧ interest_only b b1 ∧
    interest_inv b1 (<[ch := cnt refs ch - 1]> refs) ∧ (b' = b1 ∨ b' = reclaim b1 ch).
Proof.
  intros Hi Hw. pose proof Hi as [Hsubs Hcounts Hhandles (R & HR & Hreg)].
  unfold Unsubscribe. rewrite Hw.
  assert (cnt refs ch = cnt (b_subs b) ch) as Hc by (by rewrite Hsubs, Hw). rewrite Hc.
  set (subs := if bool_decide (0 < cnt (b_subs b) ch) then _ else _).
  assert (∀ x, cnt subs x = cnt (<[ch := cnt (b_subs b) ch - 1]> (b_subs b)) x) as Hs.
  { intros x. unfold subs. case_bool_decide; [done|]. rewrite cnt_insert.
    case_decide; [subst; lia|done]. }
  assert (∀ m, (∀ x, cnt m x = cnt subs x) →
    interest_inv (set_subs b m) (<[ch := cnt (b_subs b) ch - 1]> refs)) as Hinv.
  { intros m Hm. split; simpl; [| |done|by exists R].
    - intros x. rewrite Hm, Hs, !cnt_insert, Hsubs. case_decide; [subst; by rewrite Hw|done].
    - intros x. rewrite Hcounts, cnt_insert. case_decide; [subst; by rewrite Hw|done]. }
  case_bool_decide as Hz.
  + eexists _, (set_subs b (delete ch subs)). split; [done|]. split; [done|].
    split; [|by right]. apply Hinv. intros x. rewrite cnt_delete. case_decide; [by subst|done].
  + eexists _, _. split; [done|]. split; [|split; [|by left]]; [done|]. by apply Hinv.
Qed.

Lemma Unsubscribe_interest b refs ch :
  interest_inv b refs →
  ∃ b' b1, Unsubscribe b ch = Some b' ∧ interest_only b b1 ∧
    interest_inv b1 (<[ch := cnt refs ch - 1]> refs) ∧ (b' = b1 ∨ b' = reclaim b1 ch).
Proof.
  intros Hi. destruct (IsWildcard ch) eqn:Hw; [by apply Unsubscribe_wildcard|by apply Unsubscribe_exact].
Qed.

(** A ring that holds a publication is never reclaimed. *)
Lemma reclaim_id b logs ch : history_inv b logs → reclaim b ch = b.
Proof.
  intros Hh. unfold reclaim. destruct (b_history b !! ch) as [id|] eqn:Hid; [|done].
  destruct (hi_ring _ _ Hh _ _ Hid) as (h & log & -> & _ & Hne & Hr & _).
  rewrite bool_decide_eq_false_2; [done|]. rewrite (ri_count _ _ Hr).
  pose proof (ri_size _ _ Hr). destruct log; [done|]. cbn [length]. lia.
Qed.

Lemma newRing_pos cap : (0 < cap)%Z → ∃ h, newRing cap = Some h ∧ ring_inv h [] ∧ size h = Z.to_nat cap.
Proof.
  intros Hc. unfold newRing. rewrite (proj2 (Z.ltb_ge cap 0)) by lia. eexists. split; [done|].
  split; [|done]. eapply (newRing_inv cap); [done|]. unfold newRing. by rewrite (proj2 (Z.ltb_ge cap 0)) by lia.
Qed.

(** What a resolved ring looks like: the log so far, and the capacity the log
    will have. *)
Lemma resolve_ring b logs ch pub :
  history_inv b logs → b_historySize b = historySize →
  ∃ id b1 h, resolve b ch pub = Some (id, b1) ∧ b_rings b1 !! id = Some h ∧
    b_history b1 !! ch = Some id ∧ ring_inv h (default [] (logs !! ch)) ∧
    (∀ stored, pub_HistorySize stored = pub_HistorySize pub →
       size h = cap_of historySize (default [] (logs !! ch) ++ [stored])) ∧
    (∀ c id', c ≠ ch → b_history b1 !! c = Some id' → id' ≠ id ∧ b_history b !! c = Some id' ∧
       b_rings b1 !! id' = b_rings b !! id') ∧
    (∀ c id', b_history b1 !! c = Some id' → (id' < b_next b1)%positive) ∧
    (∀ c, b_history b1 !! c = None → b_history b !! c = None) ∧
    b1 = set_history b (b_history b1) (b_rings b1) (b_next b1).
Proof.
  intros Hh Hsz. unfold resolve. destruct (b_history b !! ch) as [id|] eqn:Hid.
  - destruct (hi_ring _ _ Hh _ _ Hid) as (h & log & Hring & Hlog & Hne & Hr & Hcap).
    exists id, b, h. rewrite Hlog. split_and!; try done.
    + intros stored Hs. simpl. destruct log; [done|]. done.
    + intros c id' Hc Hid'. split; [|done]. intros ->. by apply Hc, (hi_inj _ _ Hh _ _ id).
    + apply (hi_fresh _ _ Hh).
    + by destruct b.
  - rewrite (hi_none _ _ Hh _ Hid), Hsz. simpl.
    set (cap := if (0 <? pub_HistorySize pub)%Z then _ else _).
    assert (0 < cap)%Z as Hc by (unfold cap; destruct (Z.ltb_spec 0 (pub_HistorySize pub)); lia).
    destruct (newRing_pos cap Hc) as (h & -> & Hr & Hcap).
    eexists _, _, h. split; [done|]. simpl. rewrite !lookup_insert_eq. split_and!; try done.
    + intros stored Hs. by rewrite Hs.
    + intros c id' Hc'. rewrite lookup_insert_ne by done. intros Hid'.
      pose proof (hi_fresh _ _ Hh _ _ Hid') as Hlt. assert (id' ≠ b_next b) by lia.
      by rewrite lookup_insert_ne.
    + intros c id'. rewrite lookup_insert. case_decide; [intros [= <-]; lia|].
      intros Hid'%(hi_fresh _ _ Hh). lia.
    + intros c. rewrite lookup_insert. by case_decide.
Qed.

Lemma interest_inv_set_history b refs h r n :
  interest_inv b refs → interest_inv (set_history b h r n) refs.
Proof. intros [????]. by split. Qed.

Lemma interest_inv_set_dispatch b refs d : interest_inv b refs → interest_inv (set_dispatch b d) refs.
Proof. intros [????]. by split. Qed.

Lemma enqueue_send b ch pub q :
  sp_enqueue (b_dispatch b) true (mkTask ch pub) = q →
  enqueue b ch pub QSend = set_dispatch b <$> q.
Proof. intros <-. unfold enqueue, sp_enqueue. simpl. by case_bool_decide. Qed.

Lemma want_spec b sp ch : sim b sp → want b ch = Some (sp_started sp && sp_interested sp ch).
Proof.
  intros Hs. unfold want. rewrite (sim_started _ _ Hs).
  destruct (sp_started sp); [|done]. by rewrite (interested_spec b (sp_refs sp)) by apply Hs.
Qed.

(** Writing one ring. *)
Lemma history_inv_push b1 b logs ch id h h' stored :
  history_inv b logs →
  b_history b1 !! ch = Some id →
  (∀ c id', c ≠ ch → b_history b1 !! c = Some id' → id' ≠ id ∧ b_history b !! c = Some id' ∧
     b_rings b1 !! id' = b_rings b !! id') →
  (∀ c id', b_history b1 !! c = Some id' → (id' < b_next b1)%positive) →
  (∀ c, b_history b1 !! c = None → b_history b !! c = None) →
  ring_inv h' (default [] (logs !! ch) ++ [stored]) → size h' = size h →
  size h = cap_of historySize (default [] (logs !! ch) ++ [stored]) →
  history_inv (set_history b1 (b_history b1) (<[id := h']> (b_rings b1)) (b_next b1))
    (<[ch := default [] (logs !! ch) ++ [stored]]> logs).
Proof.
  intros Hh Hid Hother Hfresh Hnone Hr Hsz Hcap. split; simpl.
  - intros c id' Hc. destruct (decide (c = ch)) as [->|Hne].
    + rewrite Hid in Hc. injection Hc as <-. rewrite !lookup_insert_eq. eexists _, _.
      split_and!; [done..| | |]; [by intros ?%eq_sym%app_cons_not_nil|done|congruence].
    + destruct (Hother _ _ Hne Hc) as (Hne' & Hc' & Hr').
      rewrite lookup_insert_ne, Hr', lookup_insert_ne by done. by apply (hi_ring _ _ Hh).
  - intros c Hc. rewrite lookup_insert_ne by congruence. by apply (hi_none _ _ Hh), Hnone.
  - intros c1 c2 id' H1 H2.
    destruct (decide (c1 = ch)) as [->|N1], (decide (c2 = ch)) as [->|N2]; [done|..].
    + destruct (Hother _ _ N2 H2) as (? & _). congruence.
    + destruct (Hother _ _ N1 H1) as (? & _). congruence.
    + destruct (Hother _ _ N1 H1) as (_ & H1' & _), (Hother _ _ N2 H2) as (_ & H2' & _).
      by apply (hi_inj _ _ Hh c1 c2 id').
  - done.
Qed.

Lemma Publish_sim b sp ch pub now :
  sim b sp →
  match spec_op epoch (OPub ch pub now) sp with
  | Some (r, sp') => ∃ b', exec_op (OPub ch pub now) b = Some (r, b') ∧ sim b' sp'
  | None => exec_op (OPub ch pub now) b = None
  end.
Proof.
  intros Hs. cbn [spec_op exec_op]. unfold Publish, ValidateTopic.
  destruct (validTopic ch) eqn:Hv; cbn [negb]; [|by exists b].
  destruct (resolve_ring b (sp_logs sp) ch pub) as
    (id & b1 & h & -> & Hring & Hid & Hinv & Hcap & Hother & Hfresh & Hnone & Hb1);
    [apply Hs|apply Hs|].
  cbn [mbind option_bind].
  assert (want b1 ch = want b ch) as Hw by (rewrite Hb1; done).
  rewrite Hw, (want_spec b sp) by done. cbn [mbind option_bind].
  unfold commit. rewrite Hring.
  assert (b_epoch b1 = epoch) as -> by (rewrite Hb1; apply Hs).
  pose proof (ring_push_inv h _ pub ch epoch now Hinv) as Hpush.
  destruct (ring_push h pub ch epoch now) as [[off st] h']. destruct Hpush as (-> & Hst & Hr' & Hsz).
  unfold log_of. set (lg := default [] (sp_logs sp !! ch)) in *.
  assert (history_inv (set_history b1 (b_history b1) (<[id := h']> (b_rings b1)) (b_next b1))
    (<[ch := lg ++ [st]]> (sp_logs sp))) as Hh'.
  { apply (history_inv_push b1 b (sp_logs sp) ch id h); try done; [apply Hs|].
    apply Hcap. by rewrite Hst. }
  rewrite <-Hst. clear Hst.
  set (b2 := set_history b1 _ _ _) in *.
  assert (interest_inv b2 (sp_refs sp)) as Hi'.
  { unfold b2. rewrite Hb1. by apply interest_inv_set_history, interest_inv_set_history, Hs. }
  assert (b_dispatch b2 = sp_queues sp ∧ b_handler b2 = sp_started sp ∧ b_epoch b2 = epoch ∧
    b_historySize b2 = historySize) as (Hq & Hst & He & Hhs).
  { unfold b2. rewrite Hb1. simpl. split_and!; apply Hs. }
  destruct (sp_started sp && sp_interested sp ch).
  - rewrite <-Hq. rewrite (enqueue_send b2 ch st _ eq_refl).
    destruct (sp_enqueue (b_dispatch b2) true (mkTask ch st)) as [q|]; cbn; [|done].
    eexists. split; [done|]. split; simpl; try done; [by apply interest_inv_set_dispatch|].
    by apply (history_inv_frame b2).
  - cbn. eexists. split; [done|]. by split.
Qed.

Lemma sim_queue b sp q :
  sim b sp → sim (set_dispatch b q) (mkSpec (sp_logs sp) (sp_refs sp) q (sp_started sp)).
Proof.
  intros [Hi Hh ????]. split; simpl; try done; [by apply interest_inv_set_dispatch|].
  by apply (history_inv_frame b).
Qed.

Lemma exec_op_sim o b sp :
  sim b sp →
  match spec_op epoch o sp with
  | Some (r, sp') => ∃ b', exec_op o b = Some (r, b') ∧ sim b' sp'
  | None => exec_op o b = None
  end.
Proof.
  intros Hs. destruct o as [ch|ch|ch pub now|ch pub now|shard|].
  - cbn [spec_op exec_op]. destruct (compile_cases ch) as [[_ Hc]|[(_ & _ & ci & Hc)|(_ & _ & _ & Hc)]];
      rewrite Hc; unfold Subscribe; rewrite ?Hc; [by exists b| |by exists b].
    destruct (Subscribe_interest b (sp_refs sp) ch ci) as (b' & Hrun & Hi & Hio); [apply Hs|done|].
    unfold Subscribe in Hrun. rewrite Hc in Hrun. rewrite Hrun. exists b'. split; [done|].
    destruct Hs as [_ Hh ????], Hio as (?&?&?&?&?&?&?). split; simpl; [done| |congruence..].
    by apply (history_inv_frame b).
  - cbn [spec_op exec_op]. destruct (Unsubscribe_interest b (sp_refs sp) ch) as (b' & b1 & -> & Hio & Hi & Hb');
      [apply Hs|]. exists b'. split; [done|].
    destruct Hs as [_ Hh ????], Hio as (?&?&?&?&?&?&?).
    assert (history_inv b1 (sp_logs sp)) as Hh1 by (by apply (history_inv_frame b)).
    assert (b' = b1) as -> by (destruct Hb' as [->| ->]; [done|by eapply reclaim_id]).
    split; simpl; [done..|congruence|congruence|congruence|congruence].
  - by apply Publish_sim.
  - cbn [spec_op exec_op]. unfold PublishTransient, ValidateTopic.
    destruct (validTopic ch); cbn [negb]; [|by exists b].
    rewrite (want_spec b sp) by done. cbn [mbind option_bind].
    destruct (sp_started sp && sp_interested sp ch); [|exists b; split; [done|]; by destruct Hs].
    rewrite (sim_epoch _ _ Hs), <-(sim_queues _ _ Hs), (enqueue_send b ch _ _ eq_refl).
    destruct (sp_enqueue _ true _) as [q|]; cbn; [|done]. eexists. split; [done|]. by apply sim_queue.
  - cbn [spec_op exec_op]. unfold worker. rewrite (sim_queues _ _ Hs).
    destruct (sp_queues sp !! shard) as [[|t rest]|]; [done| |done].
    cbn. eexists. split; [done|]. by apply sim_queue.
  - cbn. eexists. split; [done|]. destruct Hs as [Hi Hh ????]. split; simpl; try done.
    + destruct Hi. by split.
    + by apply (history_inv_frame b).
Qed.

Lemma exec_sim ops : ∀ b sp, sim b sp →
  match spec_exec epoch ops sp with
  | Some (rs, sp') => ∃ b', exec ops b = Some (rs, b') ∧ sim b' sp'
  | None => exec ops b = None
  end.
Proof.
  induction ops as [|o ops IH]; intros b sp Hs; cbn [exec spec_exec]; [by exists b|].
  pose proof (exec_op_sim o b sp Hs) as Hop.
  destruct (spec_op epoch o sp) as [[r sp1]|]; cbn [mbind option_bind]; [|by rewrite Hop].
  destruct Hop as (b1 & -> & Hs1). cbn [mbind option_bind]. specialize (IH b1 sp1 Hs1).
  destruct (spec_exec epoch ops sp1) as [[rs sp2]|]; cbn [mbind option_bind]; [|by rewrite IH].
  destruct IH as (b2 & -> & Hs2). by exists b2.
Qed.

Lemma History_sim b sp ch since limit :
  sim b sp → (Z.of_nat (length (log_of sp ch)) < u64_modulus)%Z →
  History b ch since limit =
  Some (page_of (log_of sp ch) (length (log_of sp ch) `min` cap_of historySize (log_of sp ch)) since limit).
Proof.
  intros Hs Hlen. unfold History, log_of in *. destruct (b_history b !! ch) as [id|] eqn:Hid.
  - destruct (hi_ring _ _ (sim_history _ _ Hs) _ _ Hid) as (h & log & -> & Hlog & _ & Hr & Hcap).
    rewrite Hlog in *. simpl in *. rewrite (ring_history_page h log) by done.
    by rewrite (ri_count _ _ Hr), Hcap.
  - by rewrite (hi_none _ _ (sim_history _ _ Hs) _ Hid).
Qed.

Lemma sim_dense b sp ch :
  sim b sp → (Z.of_nat (length (log_of sp ch)) < u64_modulus)%Z → dense (log_of sp ch).
Proof.
  intros Hs Hlen. unfold log_of in *. destruct (b_history b !! ch) as [id|] eqn:Hid.
  - destruct (hi_ring _ _ (sim_history _ _ Hs) _ _ Hid) as (h & log & _ & Hlog & _ & Hr & _).
    rewrite Hlog in *. by eapply ring_dense.
  - by rewrite (hi_none _ _ (sim_history _ _ Hs) _ Hid).
Qed.

Lemma sim_cap b sp ch :
  sim b sp → let log := log_of sp ch in length log `min` cap_of historySize log = 0 → log = [].
Proof.
  intros Hs. unfold log_of. destruct (b_history b !! ch) as [id|] eqn:Hid.
  - destruct (hi_ring _ _ (sim_history _ _ Hs) _ _ Hid) as (h & log & _ & -> & Hne & Hr & Hcap).
    simpl. rewrite <-Hcap. pose proof (ri_size _ _ Hr). destruct log; [done|]. cbn [length]. lia.
  - by rewrite (hi_none _ _ (sim_history _ _ Hs) _ Hid).
Qed.

(** C2: the memory broker refines the abstract broker.  For every sequence of
    Subscribe, Unsubscribe, Publish, PublishTransient, worker and Start calls,
    the broker blocks exactly when the abstract broker does (a full shard
    queue, an idle worker) and otherwise returns the same results: the n-th
    publication of a channel gets offset n, interest is reference counted per
    key, and a task is queued exactly when a handler is set and some key covers
    the channel.  Afterwards History is the page of the channel's log that the
    retained tail allows, and interest is decided by the reference counts. *)
Theorem memory_broker_refines ops :
  match spec_exec epoch ops spec0 with
  | Some (rs, sp) =>
      ∃ b, exec ops (NewMemoryBroker historySize epoch) = Some (rs, b) ∧
        ∀ ch, interested b ch = Some (sp_interested sp ch) ∧
          ∀ since limit, (Z.of_nat (length (log_of sp ch)) < u64_modulus)%Z →
            History b ch since limit =
            Some (page_of (log_of sp ch)
                    (length (log_of sp ch) `min` cap_of historySize (log_of sp ch)) since limit)
  | None => exec ops (NewMemoryBroker historySize epoch) = None
  end.
Proof.
  pose proof (exec_sim ops _ _ sim_new) as Hex.
  destruct (spec_exec epoch ops spec0) as [[rs sp]|]; [|done].
  destruct Hex as (b & Hrun & Hs). exists b. split; [done|]. intros ch. split.
  - apply interested_spec, Hs.
  - intros since limit Hlen. by apply History_sim.
Qed.

(** C18: gap reports of the memory broker are exact.  For a positive cursor, a
    page without a gap holds every publication ever accepted from the cursor
    on, up to the page limit (all of them when it is not truncated); a page
    with a gap means that such a publication has been dropped from the ring, or
    that nothing was ever published. *)
Theorem history_gap_exact ops rs sp b ch since limit :
  spec_exec epoch ops spec0 = Some (rs, sp) →
  exec ops (NewMemoryBroker historySize epoch) = Some (rs, b) →
  (0 < since)%Z → (Z.of_nat (length (log_of sp ch)) < u64_modulus)%Z →
  let log := log_of sp ch in
  let wanted := List.filter (λ p, (since <=? Offset p)%Z) log in
  let lim := if (limit <=? 0)%Z then DefaultHistoryLimit else limit in
  ∃ page, History b ch since limit = Some page ∧
    (Gap page = false → Publications page = take (Z.to_nat lim) wanted ∧
       (Truncated page = false → Publications page = wanted)) ∧
    (Gap page = true ↔ log = [] ∨
       ∃ p, p ∈ take (length log - length log `min` cap_of historySize log) log ∧
            (since ≤ Offset p)%Z).
Proof.
  intros Hsp Hrun Hsince Hlen. pose proof (exec_sim ops _ _ sim_new) as Hex.
  rewrite Hsp in Hex. destruct Hex as (b' & Hrun' & Hs). rewrite Hrun in Hrun'. simplify_eq.
  eexists. split; [by apply History_sim|].
  apply page_gap_exact; [by eapply sim_dense|lia|by eapply sim_cap|done].
Qed.

(** ** Invariant of the interleaved system *)

(** Logged (non-transient) tasks that came from one ring. *)
Definition from_ring (id : positive) (enq : list (option positive * dispatchTask))
    : list Publication :=
  omap (λ e, if bool_decide (e.1 = Some id) then Some (t_pub e.2) else None) enq.

Definition in_shard (shard : Z) (t : dispatchTask) : bool := (chShard (t_ch t) =? shard)%Z.

Record sys_inv (s : sys) : Prop := {
  si_rings : ∀ id h, b_rings (s_b s) !! id = Some h →
    ∃ log, s_logs s !! id = Some log ∧ ring_inv h log;
  si_history : ∀ ch id, b_history (s_b s) !! ch = Some id → is_Some (b_rings (s_b s) !! id);
  si_fresh : ∀ id, is_Some (s_logs s !! id) → (id < b_next (s_b s))%positive;
  si_order : ∀ id, sublist (from_ring id (s_enq s)) (default [] (s_logs s !! id));
  si_queues : ∀ shard,
    List.filter (in_shard shard) (map snd (s_enq s)) =
    List.filter (in_shard shard) (s_trace s) ++ default [] (b_dispatch (s_b s) !! shard);
  si_size : (0 < b_historySize (s_b s))%Z;
}.

Lemma from_ring_app id a b : from_ring id (a ++ b) = from_ring id a ++ from_ring id b.
Proof. apply omap_app. Qed.

Lemma Subscribe_frame b ch r b' : Subscribe b ch = Some (r, b') → interest_only b b'.
Proof.
  unfold Subscribe. destruct (CompileInterest ch) as [[ci|e]|]; [|by intros [= _ <-]|done].
  destruct (IsWildcard ch); [|by intros [= _ <-]].
  case_bool_decide; [|by intros [= _ <-]].
  destruct (m_Subscribe ch ch (b_matcher b)) as [[[|] m']|]; [by intros [= _ <-]..|done].
Qed.

(** Unsubscribe may drop the channel's entry of the history map, nothing else. *)
Lemma Unsubscribe_frame b ch b' :
  Unsubscribe b ch = Some b' →
  b_rings b' = b_rings b ∧ b_next b' = b_next b ∧ b_dispatch b' = b_dispatch b ∧
  b_historySize b' = b_historySize b ∧ b_history b' ⊆ b_history b.
Proof.
  assert (∀ b1, interest_only b b1 → b_rings (reclaim b1 ch) = b_rings b ∧
    b_next (reclaim b1 ch) = b_next b ∧ b_dispatch (reclaim b1 ch) = b_dispatch b ∧
    b_historySize (reclaim b1 ch) = b_historySize b ∧ b_history (reclaim b1 ch) ⊆ b_history b) as Hrec.
  { intros b1 (H1 & H2 & H3 & H4 & H5 & H6 & H7). unfold reclaim. rewrite <-H1.
    destruct (b_history b1 !! ch); [|done]. destruct (b_rings b1 !! p); [|done].
    destruct (_ && _); [|done]. simpl. split_and!; try done. apply delete_subseteq. }
  unfold Unsubscribe. intros Hu.
  repeat case_match; simplify_eq; first [by apply Hrec|done].
Qed.

Lemma sys_inv_frame s b' :
  sys_inv s → b_rings b' = b_rings (s_b s) → b_next b' = b_next (s_b s) →
  b_dispatch b' = b_dispatch (s_b s) → b_historySize b' = b_historySize (s_b s) →
  b_history b' ⊆ b_history (s_b s) →
  sys_inv (mkSys b' (s_threads s) (s_enq s) (s_trace s) (s_logs s)).
Proof.
  intros [Hr Hh Hf Ho Hq Hs] H1 H2 H3 H4 H5. split; simpl; rewrite ?H1, ?H2, ?H3, ?H4; try done.
  intros ch id Hid. eapply Hh, lookup_weaken; done.
Qed.

Lemma sys_inv_threads s t :
  sys_inv s → sys_inv (mkSys (s_b s) t (s_enq s) (s_trace s) (s_logs s)).
Proof. intros [Hr Hh Hf Ho Hq Hs]. by split. Qed.

(** Accepting a task, from ring [src] or as a transient. *)
Lemma sys_inv_enqueue s ch pub c b' src logs threads :
  sys_inv s → enqueue (s_b s) ch pub c = Some b' →
  (∀ id h, b_rings (s_b s) !! id = Some h → ∃ log, logs !! id = Some log ∧ ring_inv h log) →
  (∀ id, is_Some (logs !! id) → is_Some (s_logs s !! id)) →
  (∀ id, sublist (from_ring id (if sent c then s_enq s ++ [(src, mkTask ch pub)] else s_enq s))
           (default [] (logs !! id))) →
  sys_inv (mkSys b' threads (if sent c then s_enq s ++ [(src, mkTask ch pub)] else s_enq s)
             (s_trace s) logs).
Proof.
  intros [Hr Hh Hf Ho Hq Hs] He Hr' Hl' Ho'. destruct c; cbn [enqueue sent] in *.
  - case_bool_decide; [|done]. simplify_eq. split; simpl; try done; [by eauto|].
    intros shard. rewrite map_app, List.filter_app, Hq, <-app_assoc. f_equal. simpl.
    unfold in_shard at 1. simpl. rewrite lookup_insert. destruct (Z.eqb_spec (chShard ch) shard) as [<-|Hne].
    + by rewrite decide_True.
    + by rewrite decide_False, app_nil_r.
  - destruct (b_done (s_b s)); [|done]. simplify_eq. split; simpl; try done. eauto.
Qed.

(** Writing the ring of a publisher, before its task is queued. *)
Lemma commit_cases b id ch pub w now c off st b' :
  commit b id ch pub w now c = Some (off, st, b') →
  ∃ h h', b_rings b !! id = Some h ∧ ring_push h pub ch (b_epoch b) now = (off, st, h') ∧
    let b1 := set_history b (b_history b) (<[id := h']> (b_rings b)) (b_next b) in
    if w then enqueue b1 ch st c = Some b' else b' = b1.
Proof.
  unfold commit. destruct (b_rings b !! id) as [h|]; [|done].
  destruct (ring_push h pub ch (b_epoch b) now) as [[off' st'] h'] eqn:Hp. intros Hc. exists h, h'.
  destruct w; [|by simplify_eq]. destruct (enqueue _ ch st' c) eqn:He; simplify_eq. done.
Qed.

Lemma sys_inv_commit s id ch pub w now c off st b' threads :
  sys_inv s → commit (s_b s) id ch pub w now c = Some (off, st, b') →
  sys_inv (mkSys b' threads
    (if w && sent c then s_enq s ++ [(Some id, mkTask ch st)] else s_enq s) (s_trace s)
    (<[id := default [] (s_logs s !! id) ++ [st]]> (s_logs s))).
Proof.
  intros Hinv (h & h' & Hring & Hpush & Hb')%commit_cases. pose proof Hinv as [Hr Hh Hf Ho Hq Hs].
  destruct (Hr _ _ Hring) as (log & Hlog & Hri).
  pose proof (ring_push_inv h log pub ch (b_epoch (s_b s)) now Hri) as Hri'. rewrite Hpush in Hri'.
  destruct Hri' as (_ & _ & Hri' & _). rewrite Hlog. simpl.
  cbv zeta in Hb'. set (b1 := set_history _ _ _ _) in *.
  assert (∀ i h0, b_rings b1 !! i = Some h0 →
    ∃ l, <[id := log ++ [st]]> (s_logs s) !! i = Some l ∧ ring_inv h0 l) as Hr1.
  { intros i h0. simpl. rewrite !lookup_insert. case_decide; [intros [= <-]; eauto|apply Hr]. }
  assert (∀ i, is_Some (<[id := log ++ [st]]> (s_logs s) !! i) → is_Some (s_logs s !! i)) as Hl1.
  { intros i. rewrite lookup_insert. case_decide; [subst; by rewrite Hlog|done]. }
  assert (∀ i, sublist (from_ring i (s_enq s))
    (default [] (<[id := log ++ [st]]> (s_logs s) !! i))) as Ho1.
  { intros i. rewrite lookup_insert. case_decide as Hi; [subst i|apply Ho]. simpl.
    specialize (Ho id). rewrite Hlog in Ho. by apply sublist_inserts_r. }
  assert (sys_inv (mkSys b1 (s_threads s) (s_enq s) (s_trace s) (<[id := log ++ [st]]> (s_logs s)))) as Hinv1.
  { split; simpl; try done; [|by eauto]. intros c0 i Hc0. rewrite lookup_insert. case_decide; [done|].
    by eapply Hh. }
  destruct w; cbn [andb]; [|rewrite Hb'; by destruct Hinv1; split].
  eapply (sys_inv_enqueue (mkSys b1 (s_threads s) (s_enq s) (s_trace s) (<[id := log ++ [st]]> (s_logs s)))
    ch st c b' (Some id)); [done..|]. intros i. simpl.
  destruct (sent c); [|apply Ho1]. rewrite from_ring_app, lookup_insert. simpl.
  case_decide as Hi; [subst i|].
  - rewrite bool_decide_eq_true_2 by done. simpl. specialize (Ho id). rewrite Hlog in Ho.
    by apply sublist_app.
  - rewrite bool_decide_eq_false_2 by congruence. by rewrite app_nil_r.
Qed.

Lemma sys_inv_begin s ch pub id b' threads :
  sys_inv s → resolve (s_b s) ch pub = Some (id, b') →
  sys_inv (mkSys b' threads (s_enq s) (s_trace s) (<[id := default [] (s_logs s !! id)]> (s_logs s))).
Proof.
  intros [Hr Hh Hf Ho Hq Hs] Hres. unfold resolve in Hres.
  destruct (b_history (s_b s) !! ch) as [id'|] eqn:Hid; simplify_eq.
  - destruct (Hh _ _ Hid) as [h Hring]. destruct (Hr _ _ Hring) as (log & Hlog & _).
    rewrite Hlog. simpl. rewrite insert_id by done. by split.
  - set (cap := if (0 <? pub_HistorySize pub)%Z then _ else _) in *.
    assert (0 < cap)%Z as Hc by (unfold cap; destruct (Z.ltb_spec 0 (pub_HistorySize pub)); lia).
    destruct (newRing_pos cap Hc) as (h & Hnew & Hri & _). rewrite Hnew in Hres. simplify_eq.
    assert (s_logs s !! b_next (s_b s) = None) as Hnone.
    { apply eq_None_not_Some. intros Hsome%Hf. lia. }
    rewrite Hnone. simpl. split; simpl; try done.
    + intros i h0. rewrite !lookup_insert. case_decide; [intros [= <-]; eauto|apply Hr].
    + intros c i. rewrite !lookup_insert. case_decide; [intros [= <-]; by rewrite decide_True|].
      intros Hi. case_decide; [done|]. by eapply Hh.
    + intros i. rewrite lookup_insert. case_decide; [subst; lia|]. intros Hi%Hf. lia.
    + intros i. rewrite lookup_insert. case_decide; [subst i|apply Ho].
      specialize (Ho (b_next (s_b s))). by rewrite Hnone in Ho.
Qed.

Lemma sys_inv_worker s shard t b' :
  sys_inv s → worker (s_b s) shard = Some (t, b') →
  sys_inv (mkSys b' (s_threads s) (s_enq s) (s_trace s ++ [t]) (s_logs s)).
Proof.
  intros [Hr Hh Hf Ho Hq Hs]. unfold worker.
  destruct (b_dispatch (s_b s) !! shard) as [[|t' rest]|] eqn:Hd; [done| |done].
  intros [= -> <-]. split; simpl; try done. intros k.
  assert (in_shard shard t = true) as Ht.
  { assert (In t (List.filter (in_shard shard) (map snd (s_enq s)))) as Hin.
    { rewrite Hq, Hd. simpl. apply in_or_app. right. by left. }
    by apply List.filter_In in Hin as [_ ?]. }
  rewrite Hq, List.filter_app, <-app_assoc. f_equal. simpl. rewrite lookup_insert.
  unfold in_shard in *. apply Z.eqb_eq in Ht. rewrite Ht.
  destruct (Z.eqb_spec shard k) as [<-|Hne]; [by rewrite Hd, decide_True|by rewrite decide_False].
Qed.

Lemma sys_inv_step s s' : sys_inv s → step s s' → sys_inv s'.
Proof.
  intros Hinv [l Hl]. destruct l as [ch|ch|tid ch pub|tid|tid now c|tid ch pub now|tid c|shard| |];
    cbn [exec_label] in Hl.
  - apply bind_Some in Hl as ([r b'] & (?&?&?&?&?&?&?)%Subscribe_frame & [= <-]).
    apply sys_inv_frame; try done. by replace (b_history b') with (b_history (s_b s)).
  - apply bind_Some in Hl as (b' & (?&?&?&?&?)%Unsubscribe_frame & [= <-]).
    by apply sys_inv_frame.
  - destruct (s_threads s !! tid); [done|]. destruct (negb _); [by simplify_eq|].
    apply bind_Some in Hl as ([id b'] & Hres & [= <-]). by eapply sys_inv_begin.
  - destruct (s_threads s !! tid) as [[ch pub id| |]|]; try done.
    apply bind_Some in Hl as (w & _ & [= <-]). by apply sys_inv_threads.
  - destruct (s_threads s !! tid) as [[|ch pub id w|]|]; try done.
    apply bind_Some in Hl as ([[off st] b'] & Hc & [= <-]). by eapply sys_inv_commit.
  - destruct (s_threads s !! tid); [done|]. destruct (negb _); [by simplify_eq|].
    apply bind_Some in Hl as ([] & _ & [= <-]); [by apply sys_inv_threads|done].
  - destruct (s_threads s !! tid) as [[| |ch st]|]; try done.
    apply bind_Some in Hl as (b' & He & [= <-]).
    eapply (sys_inv_enqueue s ch st c b' None); [done|done|apply Hinv|done|].
    intros id. destruct (sent c); [|apply Hinv]. rewrite from_ring_app. simpl.
    rewrite app_nil_r. apply Hinv.
  - apply bind_Some in Hl as ([t b'] & Hw & [= <-]). by eapply sys_inv_worker.
  - simplify_eq. by apply sys_inv_frame.
  - simplify_eq. by apply sys_inv_frame.
Qed.

Lemma reachable_inv s : reachable historySize epoch s → sys_inv s.
Proof.
  intros Hreach. assert (sys_inv (sys0 historySize epoch)) as H0.
  { unfold sys0, NewMemoryBroker. rewrite (proj2 (Z.eqb_neq historySize 0)) by lia.
    split; simpl; try done. by intros ? [? ?]. }
  revert H0. unfold reachable in Hreach. induction Hreach; [done|]. intros. apply IHHreach. by eapply sys_inv_step.
Qed.

(** What the delivery workers have handed to the handler for [ch], followed by
    what is still queued for it. *)
Definition of_channel (ch : string) (t : dispatchTask) : bool := bool_decide (t_ch t = ch).

Definition pipeline (s : sys) (ch : string) : list dispatchTask :=
  List.filter (of_channel ch) (s_trace s ++ default [] (b_dispatch (s_b s) !! chShard ch)).

(** [ch] was only ever served by the ring at [id] (transients aside). *)
Definition single_ring (s : sys) (ch : string) (id : positive) : Prop :=
  ∀ e, e ∈ s_enq s → t_ch e.2 = ch → Offset (t_pub e.2) ≠ 0%Z → e.1 = Some id.

Lemma filter_of_shard ch l :
  List.filter (of_channel ch) (List.filter (in_shard (chShard ch)) l) = List.filter (of_channel ch) l.
Proof.
  induction l as [|t l IH]; simpl; [done|]. unfold in_shard at 1.
  destruct (of_channel ch t) eqn:Hc.
  - unfold of_channel in Hc. bool_hyps. rewrite Hc, Z.eqb_refl. simpl.
    unfold of_channel at 1. rewrite bool_decide_eq_true_2 by done. by rewrite IH.
  - destruct (_ =? _)%Z; simpl; [by rewrite Hc|done].
Qed.

(** Everything accepted for a channel is in its pipeline, in acceptance order. *)
Lemma pipeline_enq s ch :
  sys_inv s → pipeline s ch = List.filter (of_channel ch) (map snd (s_enq s)).
Proof.
  intros Hinv. unfold pipeline. rewrite <-(filter_of_shard ch (map snd _)), (si_queues _ Hinv).
  rewrite !List.filter_app. by rewrite filter_of_shard.
Qed.

Definition logged (t : dispatchTask) : bool := negb (Offset (t_pub t) =? 0)%Z.

Lemma logged_from_ring ch id (enq : list (option positive * dispatchTask)) :
  (∀ e, e ∈ enq → t_ch e.2 = ch → Offset (t_pub e.2) ≠ 0%Z → e.1 = Some id) →
  sublist (map t_pub (List.filter logged (List.filter (of_channel ch) (map snd enq))))
    (from_ring id enq).
Proof.
  induction enq as [|[src t] enq IH]; intros Hone; simpl; [done|].
  assert (sublist (map t_pub (List.filter logged (List.filter (of_channel ch) (map snd enq))))
    (from_ring id enq)) as IH' by (apply IH; intros e He; apply Hone; by right).
  destruct (of_channel ch t) eqn:Hc; simpl; [|by case_bool_decide; [apply sublist_cons|]].
  unfold logged at 1. destruct (Z.eqb_spec (Offset (t_pub t)) 0) as [|Hnz]; simpl.
  { by case_bool_decide; [apply sublist_cons|]. }
  unfold of_channel in Hc. bool_hyps.
  rewrite bool_decide_eq_true_2; [by apply sublist_skip|]. by apply (Hone (src, t)); [left|..].
Qed.

(** C17: per-channel delivery order under concurrency.  In every state reachable
    by interleaving any number of publishers with subscriptions, delivery
    workers, start and shutdown: if a channel was served by one history ring,
    then what the handler received for the channel, followed by what is still
    queued, is (transients aside) a subsequence of the ring's log, so it is in
    offset order and nothing is delivered twice; the ring itself holds the tail
    of that log with consecutive offsets. *)
Theorem delivery_order s ch id :
  reachable historySize epoch s → single_ring s ch id →
  sublist (map t_pub (List.filter logged (pipeline s ch))) (default [] (s_logs s !! id)) ∧
  ∀ h, b_rings (s_b s) !! id = Some h → ring_inv h (default [] (s_logs s !! id)).
Proof.
  intros Hinv%reachable_inv Hone. split.
  - rewrite pipeline_enq by done. transitivity (from_ring id (s_enq s)); [|apply Hinv].
    by apply logged_from_ring.
  - intros h Hh. destruct (si_rings _ Hinv _ _ Hh) as (log & -> & Hri). done.
Qed.

End Broker.

(** ** Concrete runs, with the trie as matcher *)

Abbreviation trie := (CSTrie.heap (Sub:=string)).

Definition msg (payload : string) : Publication :=
  mkPub "" payload PayloadKindText "" "" ∅ 0 0 0 "" 0 0.

Definition ops0 : list op :=
  [OStart; OSub "acme:im.*"; OPub "acme:im.x" (msg "m1") 1; OPub "acme:im.x" (msg "m2") 2;
   OPub "acme:im.x" (msg "m3") 3; OTrans "acme:im.x" (msg "t") 4; OUnsub "acme:im.*";
   OPub "acme:im.x" (msg "m4") 5; OSub "*.bad"].

Definition spec_after (ops : list op) : list out * spec :=
  default ([], spec0) (spec_exec "e" ops spec0).

Lemma memory_broker_refines_witness :
  ∃ b, exec (M:=trie) ops0 (NewMemoryBroker 2 "e") = Some ((spec_after ops0).1, b) ∧
    interested b "acme:im.x" = Some false ∧
    ∃ page, History b "acme:im.x" 1 0 = Some page ∧ Gap page = true ∧ FirstRetained page = 3%Z.
Proof.
  pose proof (memory_broker_refines (M:=trie) 2 eq_refl "e" ops0) as Href.
  assert (spec_exec "e" ops0 spec0 = Some (spec_after ops0)) as Hs by (vm_compute; reflexivity).
  rewrite Hs in Href. destruct (spec_after ops0) as [rs sp] eqn:Hsp.
  destruct Href as (b & Hrun & Hch). exists b. destruct (Hch "acme:im.x") as [Hi Hh].
  split; [exact Hrun|]. split.
  - rewrite Hi. assert (sp = (spec_after ops0).2) as -> by (rewrite Hsp; reflexivity).
    vm_compute. reflexivity.
  - eexists. split; [apply Hh|];
      assert (sp = (spec_after ops0).2) as -> by (rewrite Hsp; reflexivity); vm_compute; try split; reflexivity.
Defined.

Lemma history_gap_exact_witness :
  ∃ b page, exec (M:=trie) ops0 (NewMemoryBroker 2 "e") = Some ((spec_after ops0).1, b) ∧
    History b "acme:im.x" 3 10 = Some page ∧
    (Gap page = true ↔ log_of (spec_after ops0).2 "acme:im.x" = [] ∨
       ∃ p, p ∈ take 2 (log_of (spec_after ops0).2 "acme:im.x") ∧ (3 ≤ Offset p)%Z).
Proof.
  destruct (exec (M:=trie) ops0 (NewMemoryBroker 2 "e")) as [[rs b]|] eqn:Hrun;
    [|exfalso; vm_compute in Hrun; discriminate Hrun].
  assert (rs = (spec_after ops0).1) as ->.
  { assert (Some rs = fst <$> exec (M:=trie) ops0 (NewMemoryBroker 2 "e")) as Hrs by (rewrite Hrun; reflexivity).
    vm_compute in Hrs. injection Hrs as ->. vm_compute. reflexivity. }
  destruct (history_gap_exact (M:=trie) 2 eq_refl "e" ops0 (spec_after ops0).1 (spec_after ops0).2 b
    "acme:im.x" 3 10) as (page & Hp & _ & Hgap);
    [vm_compute; reflexivity|exact Hrun|lia|vm_compute; reflexivity|].
  exists b, page. split; [reflexivity|]. split; [exact Hp|]. exact Hgap.
Defined.

Fixpoint exec_labels (ls : list label) (s : sys (M:=trie)) : option sys :=
  match ls with
  | [] => Some s
  | l :: rest => s' ← exec_label l s; exec_labels rest s'
  end.

Lemma exec_labels_reachable ls : ∀ s s', exec_labels ls s = Some s' → rtc step s s'.
Proof.
  induction ls as [|l ls IH]; intros s s'; simpl; [intros [= <-]; done|].
  intros (s1 & Hl & Hrest)%bind_Some. eapply rtc_l; [by exists l|]. by apply IH.
Qed.

(** Two publishers, one subscription, one delivery. *)
Definition order_labels : list label :=
  [LStart; LSub "a.b"; LBegin 1 "a.b" (msg "x"); LBegin 2 "a.b" (msg "y"); LInterest 2; LInterest 1;
   LCommit 2 1 QSend; LCommit 1 2 QSend; LDeliver (chShard "a.b")].

Lemma delivery_order_witness :
  ∃ s, reachable 2 "e" s ∧ single_ring s "a.b" 1 ∧
    sublist (map t_pub (List.filter logged (pipeline (M:=trie) s "a.b")))
      (default [] (s_logs s !! 1%positive)).
Proof.
  destruct (exec_labels order_labels (sys0 2 "e")) as [s|] eqn:Hs;
    [|exfalso; vm_compute in Hs; discriminate Hs].
  assert (reachable 2 "e" s) as Hr by (exact (exec_labels_reachable _ _ _ Hs)).
  assert (single_ring s "a.b" 1) as H1.
  { assert (forallb (λ e : option positive * dispatchTask, bool_decide (e.1 = Some 1%positive)) (s_enq s) = true) as Hall.
    { vm_compute in Hs. injection Hs as <-. vm_compute. reflexivity. }
    intros e He _ _. apply Forall_forallb in Hall. rewrite Forall_forall in Hall.
    specialize (Hall e He). by apply bool_decide_eq_true in Hall. }
  exists s. split; [exact Hr|]. split; [exact H1|].
  apply (delivery_order (M:=trie) 2 eq_refl "e" s "a.b" 1 Hr H1).
Defined.

(** Publisher 1 resolves the ring, the last subscriber leaves (the empty ring is
    reclaimed), publisher 1 writes the orphaned ring, publisher 2 a new one. *)
Definition race_labels : list label :=
  [LStart; LSub "a.b"; LBegin 1 "a.b" (msg "x"); LUnsub "a.b"; LInterest 1; LCommit 1 1 QSend;
   LBegin 2 "a.b" (msg "y"); LInterest 2; LCommit 2 2 QSend].

(** The reclaim in Unsubscribe is not safe against a Publish that has
    already resolved its ring: two accepted publications of one channel get the
    same offset, and the first one is not in the history of the channel. *)
Theorem reclaim_race :
  ∃ s p1 p2 page, reachable (M:=trie) 16 "e" s ∧
    s_logs s !! 1%positive = Some [p1] ∧ s_logs s !! 2%positive = Some [p2] ∧
    Channel p1 = "a.b" ∧ Channel p2 = "a.b" ∧ Payload p1 = "x" ∧ Payload p2 = "y" ∧
    Offset p1 = 1%Z ∧ Offset p2 = 1%Z ∧
    History (s_b s) "a.b" 0 10 = Some page ∧ Publications page = [p2].
Proof.
  destruct (exec_labels race_labels (sys0 16 "e")) as [s|] eqn:Hs; [|by vm_compute in Hs].
  exists s. pose proof (exec_labels_reachable _ _ _ Hs) as Hr.
  vm_compute in Hs. injection Hs as <-. eexists _, _, _.
  split; [exact Hr|]. vm_compute. repeat (split; [reflexivity|]). reflexivity.
Qed.

(** The Broker interface promises that an empty batch with a positive cursor
    never reports HistoryGapNone; the memory broker reports it whenever the
    cursor lies beyond the newest retained offset, a garbage cursor included. *)
Theorem empty_batch_without_gap :
  ∃ b page, exec (M:=trie) [OPub "a.b" (msg "x") 1] (NewMemoryBroker 2 "e") = Some ([RPub (Ok 1%Z)], b) ∧
    History b "a.b" 1000000 10 = Some page ∧
    Publications page = [] ∧ Gap page = false ∧ GapReason page = HistoryGapNone.
Proof. eexists _, _. split; [vm_compute; reflexivity|]. vm_compute. repeat split; reflexivity. Qed.

End MemoryBroker.
