(* ===== verification/Hub.v ===== *)
(** * Hub: the connection registry (internal/session/hub.go, first part)

    Sessions are mutable objects shared between the registry maps: they live at
    addresses of [h_heap] and carry their current identity.  Lock scopes cover
    whole operations of the hub ([h.mu], then the shard locks), so each of them is
    one transition; the identity of a session is written outside these locks, in
    transitions of its own. *)

From S2P Require Import Prelude Topics.
Import Topics.

Module Hub.

Definition numHubShards : Z := 64.

(** [index(s, numBuckets)]. *)
Definition index (s : string) (numBuckets : Z) : Z :=
  if (numBuckets =? 1)%Z then 0%Z else (fnv_sum64a s mod numBuckets)%Z.

(** The identity fields of a Session. *)
Record Sess := mkSess { SessionID : string; Namespace : string; UserID : string }.

(** The NUL byte keeps the pair unambiguous. *)
Definition userKey (namespace userID : string) : string :=
  namespace +:+ String "000"%char userID.

Definition sessionUserKey (c : Sess) : string := userKey (Namespace c) (UserID c).

Record connShard := mkConnShard {
  clients : gmap string positive;
  users : gmap string (gset string);
}.

Definition newConnShard : connShard := mkConnShard ∅ ∅.

Record Hub := mkHub {
  h_heap : gmap positive Sess;
  h_sessions : gmap string positive;
  h_conn : gmap Z connShard;
  h_max : Z;
}.

Definition NewHub (maxConnsPerUser : Z) : Hub := mkHub ∅ ∅ ∅ maxConnsPerUser.

Definition shard_of (h : Hub) (k : Z) : connShard := default newConnShard (h_conn h !! k).

Definition user_set (s : connShard) (user : string) : gset string := default ∅ (users s !! user).

Inductive HubError := DisconnectConnectionLimit.

(** Insert [uid] into the user's set, creating the set if needed. *)
Definition user_insert (us : gmap string (gset string)) (user uid : string)
    : gmap string (gset string) :=
  <[user := {[ uid ]} ∪ default ∅ (us !! user)]> us.

(** Delete [uid] from the user's set, dropping an emptied set. *)
Definition user_delete (us : gmap string (gset string)) (user uid : string)
    : gmap string (gset string) :=
  match us !! user with
  | None => us
  | Some ids =>
      if bool_decide (size (ids ∖ {[ uid ]}) = 0) then delete user us
      else <[user := ids ∖ {[ uid ]}]> us
  end.

(** [maxPerUser > 0] and the user already holds that many slots. *)
Definition at_limit (s : connShard) (user : string) (maxPerUser : Z) : bool :=
  (0 <? maxPerUser)%Z && (maxPerUser <=? Z.of_nat (size (user_set s user)))%Z.

Definition addWithLimit (s : connShard) (a : positive) (c : Sess) (maxPerUser : Z)
    : result HubError connShard :=
  let uid := SessionID c in
  let user := sessionUserKey c in
  if at_limit s user maxPerUser then Err DisconnectConnectionLimit
  else Ok (mkConnShard (<[uid := a]> (clients s)) (user_insert (users s) user uid)).

Definition shard_remove (heap : gmap positive Sess) (s : connShard) (sessionID : string) : connShard :=
  match clients s !! sessionID with
  | None => s
  | Some a =>
      let cl := delete sessionID (clients s) in
      match heap !! a with
      | None => mkConnShard cl (users s)
      | Some c => mkConnShard cl (user_delete (users s) (sessionUserKey c) sessionID)
      end
  end.

(** [Add(c)] for the session at address [a]. *)
Definition Add (h : Hub) (a : positive) : result HubError Hub :=
  match h_heap h !! a with
  | None => Ok h
  | Some c =>
      let k := index (sessionUserKey c) numHubShards in
      match addWithLimit (shard_of h k) a c (h_max h) with
      | Err e => Err e
      | Ok s' =>
          let sessions := if bool_decide (SessionID c = "") then h_sessions h
                          else <[SessionID c := a]> (h_sessions h) in
          Ok (mkHub (h_heap h) sessions (<[k := s']> (h_conn h)) (h_max h))
      end
  end.

(** [RemoveSessionIfMatches]; [None] for [c] matches any client. *)
Definition RemoveSessionIfMatches (h : Hub) (sessionID : string) (c : option positive)
    : bool * Hub :=
  match h_sessions h !! sessionID with
  | None => (false, h)
  | Some a =>
      if negb (bool_decide (c = None)) && negb (bool_decide (c = Some a)) then (false, h)
      else
        match h_heap h !! a with
        | None => (true, mkHub (h_heap h) (delete sessionID (h_sessions h)) (h_conn h) (h_max h))
        | Some s =>
            let k := index (sessionUserKey s) numHubShards in
            (true, mkHub (h_heap h) (delete sessionID (h_sessions h))
                     (<[k := shard_remove (h_heap h) (shard_of h k) sessionID]> (h_conn h)) (h_max h))
        end
  end.

Definition RemoveSession (h : Hub) (sessionID : string) : Hub :=
  (RemoveSessionIfMatches h sessionID None).2.

Definition PrepareSessionUser (h : Hub) (sessionID : string) (a : positive)
    (newNamespace newUser : string) : result HubError Hub :=
  match h_heap h !! a with
  | None => Ok h
  | Some c =>
      let oldUser := sessionUserKey c in
      let newUserKey := userKey newNamespace newUser in
      if bool_decide (oldUser = newUserKey) then Ok h
      else
        let oldIdx := index oldUser numHubShards in
        let newIdx := index newUserKey numHubShards in
        if bool_decide (oldIdx = newIdx) then
          let s := shard_of h oldIdx in
          if at_limit s newUserKey (h_max h) then Err DisconnectConnectionLimit
          else
            let us := user_delete (users s) oldUser sessionID in
            Ok (mkHub (h_heap h) (h_sessions h)
                  (<[oldIdx := mkConnShard (<[sessionID := a]> (clients s))
                                 (user_insert us newUserKey sessionID)]> (h_conn h)) (h_max h))
        else
          let newS := shard_of h newIdx in
          if at_limit newS newUserKey (h_max h) then Err DisconnectConnectionLimit
          else
            let oldS := shard_of h oldIdx in
            let conn := <[oldIdx := mkConnShard (delete sessionID (clients oldS))
                                      (user_delete (users oldS) oldUser sessionID)]> (h_conn h) in
            Ok (mkHub (h_heap h) (h_sessions h)
                  (<[newIdx := mkConnShard (<[sessionID := a]> (clients newS))
                                 (user_insert (users newS) newUserKey sessionID)]> conn) (h_max h))
  end.

(** The identity fields written by the resume path after PrepareSessionUser
    (internal/session/client.go). *)
Definition set_identity (h : Hub) (a : positive) (ns user : string) : Hub :=
  match h_heap h !! a with
  | None => h
  | Some c => mkHub (<[a := mkSess (SessionID c) ns user]> (h_heap h)) (h_sessions h) (h_conn h) (h_max h)
  end.

Definition LookupSession (h : Hub) (sessionID : string) : option positive := h_sessions h !! sessionID.

(** The addresses, before the code sorts them by session ID. *)
Definition SessionsByUser (h : Hub) (namespace userID : string) : list positive :=
  if bool_decide (userID = "") then []
  else
    let key := userKey namespace userID in
    let s := shard_of h (index key numHubShards) in
    omap (λ sid, clients s !! sid) (elements (user_set s key)).

(** ** Registry transitions *)

(** The hub and the identities that PrepareSessionUser has made room for and the
    resume path has not written yet. *)
Record hubsys := mkHubSys { hs_hub : Hub; hs_moved : gmap positive (string * string) }.

Inductive op :=
| ONew (a : positive) (c : Sess)            (* a session object *)
| OAssign (a : positive) (c : Sess)         (* connect writes the identity of its session *)
| OAdd (a : positive)                       (* AddClient *)
| ORemove (sid : string) (who : option positive)
| OPrepare (a : positive) (ns user : string)    (* resume: PrepareSessionUser *)
| OIdentity (a : positive) (ns user : string).  (* resume: the identity fields *)

Definition set_heap (h : Hub) (heap : gmap positive Sess) : Hub :=
  mkHub heap (h_sessions h) (h_conn h) (h_max h).

Definition exec_op (s : hubsys) (o : op) : hubsys :=
  let h := hs_hub s in
  match o with
  | ONew a c | OAssign a c => mkHubSys (set_heap h (<[a := c]> (h_heap h))) (hs_moved s)
  | OAdd a => mkHubSys (match Add h a with Ok h' => h' | Err _ => h end) (hs_moved s)
  | ORemove sid who => mkHubSys (RemoveSessionIfMatches h sid who).2 (hs_moved s)
  | OPrepare a ns user =>
      match h_heap h !! a with
      | None => s
      | Some c =>
          match PrepareSessionUser h (SessionID c) a ns user with
          | Ok h' => mkHubSys h' (<[a := (ns, user)]> (hs_moved s))
          | Err _ => s
          end
      end
  | OIdentity a ns user => mkHubSys (set_identity h a ns user) (delete a (hs_moved s))
  end.

(** A session's identity as the registry has it. *)
Definition identity (s : hubsys) (a : positive) : option Sess :=
  c ← h_heap (hs_hub s) !! a;
  Some (match hs_moved s !! a with Some (ns, user) => mkSess (SessionID c) ns user | None => c end).

Definition is_registered (h : Hub) (a : positive) : bool :=
  match h_heap h !! a with
  | Some c => bool_decide (h_sessions h !! SessionID c = Some a)
  | None => false
  end.

Definition migrating (s : hubsys) (a : positive) : bool := bool_decide (is_Some (hs_moved s !! a)).

(** How the connect handlers use the registry: objects are fresh, a session is
    renamed before it is registered, a registered ID is registered again for the
    same (namespace, user) only, and a session whose resume is between
    PrepareSessionUser and the identity write is neither removed nor replaced. *)
Definition legal (s : hubsys) (o : op) : bool :=
  let h := hs_hub s in
  match o with
  | ONew a c => bool_decide (h_heap h !! a = None)
  | OAssign a c => bool_decide (is_Some (h_heap h !! a)) && negb (is_registered h a)
  | OAdd a =>
      match h_heap h !! a with
      | None => true
      | Some c =>
          negb (bool_decide (SessionID c = "")) && negb (migrating s a) &&
          match h_sessions h !! SessionID c with
          | None => true
          | Some a0 => negb (migrating s a0) && bool_decide (sessionUserKey <$> h_heap h !! a0 = Some (sessionUserKey c))
          end
      end
  | ORemove sid _ => match h_sessions h !! sid with Some a => negb (migrating s a) | None => true end
  | OPrepare a _ _ => is_registered h a && negb (migrating s a)
  | OIdentity a ns user =>
      match hs_moved s !! a with
      | Some m => bool_decide (m = (ns, user))
      | None => bool_decide (sessionUserKey <$> h_heap h !! a = Some (userKey ns user))
      end
  end.

Fixpoint legal_run (s : hubsys) (ops : list op) : bool :=
  match ops with [] => true | o :: ops' => legal s o && legal_run (exec_op s o) ops' end.

(** ** Invariant *)

(** The registered sessions of a user key. *)
Definition registered (h : Hub) (sid key : string) : Prop :=
  ∃ a c, h_sessions h !! sid = Some a ∧ h_heap h !! a = Some c ∧ SessionID c = sid ∧
    sessionUserKey c = key.

Record hub_inv (h : Hub) : Prop := {
  hv_heap : ∀ sid a, h_sessions h !! sid = Some a → ∃ c, h_heap h !! a = Some c ∧ SessionID c = sid;
  hv_users : ∀ k key sid, sid ∈ user_set (shard_of h k) key ↔
    k = index key numHubShards ∧ registered h sid key;
  hv_clients : ∀ k sid a, clients (shard_of h k) !! sid = Some a ↔
    h_sessions h !! sid = Some a ∧ ∃ c, h_heap h !! a = Some c ∧ k = index (sessionUserKey c) numHubShards;
  hv_nonempty : ∀ k key, users (shard_of h k) !! key ≠ Some ∅;
  hv_limit : (0 < h_max h)%Z → ∀ k key, (Z.of_nat (size (user_set (shard_of h k) key)) ≤ h_max h)%Z;
}.

(** ** Registry lemmas *)

Lemma user_insert_lookup us user uid key :
  default ∅ (user_insert us user uid !! key) =
  if decide (user = key) then {[ uid ]} ∪ default ∅ (us !! key) else default ∅ (us !! key).
Proof. unfold user_insert. rewrite lookup_insert. case_decide; by subst. Qed.

Lemma user_insert_nonempty us user uid key :
  us !! key ≠ Some ∅ → user_insert us user uid !! key ≠ Some ∅.
Proof.
  intros Hne. unfold user_insert. rewrite lookup_insert. case_decide; [|done]. intros [= He].
  set_solver.
Qed.

Lemma user_delete_lookup us user uid key :
  default ∅ (user_delete us user uid !! key) =
  if decide (user = key) then default ∅ (us !! key) ∖ {[ uid ]} else default ∅ (us !! key).
Proof.
  unfold user_delete. destruct (us !! user) as [ids|] eqn:Hu; last first.
  { case_decide; [subst; rewrite Hu; set_solver|done]. }
  case_bool_decide as Hs; [rewrite lookup_delete|rewrite lookup_insert]; case_decide; subst; try done;
    rewrite Hu; simpl; [|done].
  apply size_empty_inv in Hs. set_solver.
Qed.

Lemma user_delete_nonempty us user uid key :
  us !! key ≠ Some ∅ → user_delete us user uid !! key ≠ Some ∅.
Proof.
  intros Hne. unfold user_delete. destruct (us !! user) as [ids|]; [|done].
  case_bool_decide as Hs; [rewrite lookup_delete|rewrite lookup_insert]; case_decide; try done.
  intros [= He]. rewrite He, size_empty in Hs. done.
Qed.

Lemma shard_of_insert h heap sess conn k0 s k :
  shard_of (mkHub heap sess (<[k0 := s]> conn) (h_max h)) k =
  if decide (k0 = k) then s else shard_of (mkHub heap sess conn (h_max h)) k.
Proof. unfold shard_of. simpl. rewrite lookup_insert. by case_decide. Qed.

Lemma shard_of_conn h heap sess m k :
  shard_of (mkHub heap sess (h_conn h) m) k = shard_of h k.
Proof. done. Qed.

Lemma at_limit_false s user m :
  at_limit s user m = false → (0 < m)%Z → (Z.of_nat (size (user_set s user)) < m)%Z.
Proof.
  unfold at_limit. intros Hl Hm. rewrite (proj2 (Z.ltb_lt 0 m)) in Hl by done. simpl in Hl.
  by apply Z.leb_gt in Hl.
Qed.

Lemma size_insert_le (X : gset string) x m :
  (Z.of_nat (size X) < m)%Z → (Z.of_nat (size ({[ x ]} ∪ X)) ≤ m)%Z.
Proof.
  intros Hm. pose proof (size_union_alt {[ x ]} X) as Hs. rewrite size_singleton in Hs.
  assert (size (X ∖ {[ x ]}) ≤ size X) by (apply subseteq_size; set_solver).
  lia.
Qed.

Lemma hub_inv_new m : hub_inv (NewHub m).
Proof.
  split; unfold registered; simpl; try done.
  - intros k key sid. unfold shard_of, user_set. simpl. rewrite !lookup_empty. simpl. rewrite lookup_empty.
    simpl. split; [set_solver|]. intros (_ & a & c & ? & _). done.
  - intros k sid a. unfold shard_of. simpl. rewrite !lookup_empty. simpl. rewrite lookup_empty.
    naive_solver.
  - intros Hm k key. replace (user_set (shard_of (NewHub m) k) key) with (∅ : gset string).
    + rewrite size_empty. lia.
    + unfold shard_of, user_set. simpl. rewrite lookup_empty. simpl. by rewrite lookup_empty.
Qed.

(** Objects that are not registered may change freely. *)
Lemma hub_inv_alloc h a c :
  hub_inv h → (∀ sid, h_sessions h !! sid ≠ Some a) →
  hub_inv (mkHub (<[a := c]> (h_heap h)) (h_sessions h) (h_conn h) (h_max h)).
Proof.
  intros [Hheap Husers Hclients Hne Hlim] Ha.
  assert (∀ sid a', h_sessions h !! sid = Some a' → <[a := c]> (h_heap h) !! a' = h_heap h !! a') as Hsame.
  { intros sid a' Hs. rewrite lookup_insert_ne; [done|]. intros ->. by apply (Ha sid). }
  split; simpl.
  - intros sid a' Hs. rewrite (Hsame sid) by done. by apply Hheap.
  - intros k key sid. rewrite shard_of_conn, Husers. apply and_iff_compat_l. unfold registered; simpl.
    split; intros (a' & c' & Hs & Hc); exists a', c'; (split; [done|]);
      [rewrite (Hsame sid) by done|rewrite (Hsame sid) in Hc by done]; done.
  - intros k sid a'. rewrite shard_of_conn, Hclients. split; intros (Hs & Hc); (split; [done|]);
      [rewrite (Hsame sid) by done|rewrite (Hsame sid) in Hc by done]; done.
  - done.
  - done.
Qed.

(** Registering a session under its key; an object it replaces has the same key. *)
Lemma hub_inv_register h a c :
  hub_inv h → h_heap h !! a = Some c → (∀ a0 c0, h_sessions h !! SessionID c = Some a0 → h_heap h !! a0 = Some c0 → sessionUserKey c0 = sessionUserKey c) →
  let k := index (sessionUserKey c) numHubShards in
  at_limit (shard_of h k) (sessionUserKey c) (h_max h) = false →
  hub_inv (mkHub (h_heap h) (<[SessionID c := a]> (h_sessions h))
    (<[k := mkConnShard (<[SessionID c := a]> (clients (shard_of h k)))
              (user_insert (users (shard_of h k)) (sessionUserKey c) (SessionID c))]> (h_conn h)) (h_max h)).
Proof.
  intros [Hheap Husers Hclients Hne Hlim] Ha Hnew k Hl.
  assert (∀ sid key, registered (mkHub (h_heap h) (<[SessionID c := a]> (h_sessions h)) (h_conn h) (h_max h))
    sid key ↔ registered h sid key ∨ (sid = SessionID c ∧ key = sessionUserKey c)) as Hreg.
  { intros sid key. unfold registered; simpl. split.
    - intros (a' & c' & Hs & Hc & <- & <-). rewrite lookup_insert in Hs.
      case_decide as Heq; [simplify_eq; by right|left; eauto 6].
    - intros [(a' & c' & Hs & Hc & <- & <-)|[-> ->]].
      + destruct (decide (SessionID c' = SessionID c)) as [Heq|Hneq].
        * exists a, c. rewrite Heq, lookup_insert_eq in *. split_and!; try done. symmetry. by eapply Hnew.
        * exists a', c'. rewrite lookup_insert_ne by congruence. auto.
      + exists a, c. rewrite lookup_insert_eq. auto. }
  split; simpl.
  - intros sid a'. rewrite lookup_insert. case_decide; [intros [= <-]; eauto|apply Hheap].
  - intros k0 key sid. setoid_rewrite Hreg. rewrite shard_of_insert.
    case_decide as Hk; [|rewrite shard_of_conn, Husers; split; [naive_solver|intros [-> [?|[-> ->]]]; done]].
    subst k0. unfold user_set; simpl. rewrite user_insert_lookup.
    change (default ∅ (users (shard_of h k) !! key)) with (user_set (shard_of h k) key).
    case_decide as Hkey; [subst key|].
    + rewrite elem_of_union, elem_of_singleton, Husers. unfold k. naive_solver.
    + rewrite Husers. naive_solver.
  - intros k0 sid a'. rewrite shard_of_insert, lookup_insert. case_decide as Hk; simpl.
    + subst k0. rewrite lookup_insert. case_decide as Hs; [|apply Hclients].
      split; [intros [= <-]; eauto|]. by intros [[= <-] _].
    + rewrite shard_of_conn, Hclients. case_decide as Hs; [|done]. subst sid. split.
      * intros [Hs' (c' & Hc' & ->)]. by destruct Hk; unfold k; rewrite (Hnew a' c').
      * intros [[= <-] (c' & Hc' & Hk')]. simplify_eq.
  - intros k0 key. rewrite shard_of_insert. case_decide; [|apply Hne]. simpl.
    by apply user_insert_nonempty, Hne.
  - intros Hm k0 key. rewrite shard_of_insert. case_decide as Hk; [|by apply Hlim].
    unfold user_set; simpl. rewrite user_insert_lookup. case_decide as Hkey; [|by apply (Hlim Hm k)].
    apply size_insert_le. subst key. by apply (at_limit_false (shard_of h k)).
Qed.

(** Registered sessions have distinct addresses. *)
Lemma sessions_inj h s1 s2 a :
  hub_inv h → h_sessions h !! s1 = Some a → h_sessions h !! s2 = Some a → s1 = s2.
Proof.
  intros Hinv H1 H2. destruct (hv_heap _ Hinv _ _ H1) as (c1 & ? & <-), (hv_heap _ Hinv _ _ H2) as (c2 & ? & <-).
  congruence.
Qed.

Lemma hub_inv_unregister h a c :
  hub_inv h → h_sessions h !! SessionID c = Some a → h_heap h !! a = Some c →
  let k := index (sessionUserKey c) numHubShards in
  hub_inv (mkHub (h_heap h) (delete (SessionID c) (h_sessions h))
    (<[k := shard_remove (h_heap h) (shard_of h k) (SessionID c)]> (h_conn h)) (h_max h)).
Proof.
  intros Hinv Hs Ha k. pose proof Hinv as [Hheap Husers Hclients Hne Hlim].
  assert (clients (shard_of h k) !! SessionID c = Some a) as Hcl by (apply Hclients; eauto).
  unfold shard_remove. rewrite Hcl, Ha.
  assert (∀ sid key, registered (mkHub (h_heap h) (delete (SessionID c) (h_sessions h)) (h_conn h) (h_max h))
    sid key ↔ registered h sid key ∧ sid ≠ SessionID c) as Hreg.
  { intros sid key. unfold registered; simpl. setoid_rewrite lookup_delete.
    case_decide; naive_solver. }
  assert (∀ key, registered h (SessionID c) key → key = sessionUserKey c) as Honly.
  { intros key (a' & c' & Hs' & Hc' & _ & <-). congruence. }
  split; simpl.
  - intros sid a'. rewrite lookup_delete. case_decide; [done|apply Hheap].
  - intros k0 key sid. setoid_rewrite Hreg. rewrite shard_of_insert.
    case_decide as Hk.
    + subst k0. unfold user_set; simpl. rewrite user_delete_lookup.
      change (default ∅ (users (shard_of h k) !! key)) with (user_set (shard_of h k) key).
      case_decide as Hkey; [subst key; rewrite elem_of_difference, elem_of_singleton, Husers; naive_solver|].
      rewrite Husers. split; [|naive_solver]. intros [Hk Hr]. split_and!; [done..|]. intros ->.
      by apply Hkey; symmetry; apply Honly.
    + rewrite shard_of_conn, Husers. split; [|naive_solver]. intros [-> Hr]. split_and!; [done..|]. intros ->.
      apply Honly in Hr. by subst key.
  - intros k0 sid a'. rewrite shard_of_insert, lookup_delete. case_decide as Hk; simpl.
    + subst k0. rewrite lookup_delete. case_decide; [naive_solver|apply Hclients].
    + rewrite shard_of_conn, Hclients. case_decide as Heq; [|done]. subst sid. rewrite Hs.
      split; [|naive_solver]. intros [[= <-] (c' & Hc' & ->)]. simplify_eq.
  - intros k0 key. rewrite shard_of_insert. case_decide; [|apply Hne]. simpl.
    by apply user_delete_nonempty, Hne.
  - intros Hm k0 key. rewrite shard_of_insert. case_decide as Hk; [|by apply Hlim].
    unfold user_set; simpl. rewrite user_delete_lookup. specialize (Hlim Hm k key).
    unfold user_set in Hlim. case_decide; [|done].
    etrans; [|done]. apply inj_le, subseteq_size. set_solver.
Qed.

(** The registry sees of an object its session ID and its user key only. *)
Definition view (heap : gmap positive Sess) (a : positive) : option (string * string) :=
  (λ c, (SessionID c, sessionUserKey c)) <$> heap !! a.

Lemma view_exists heap a (P : string → string → Prop) :
  (∃ c, heap !! a = Some c ∧ P (SessionID c) (sessionUserKey c)) ↔
  ∃ sid key, view heap a = Some (sid, key) ∧ P sid key.
Proof.
  unfold view. split.
  - intros (c & -> & HP). eexists _, _. done.
  - intros (sid & key & (c & Hc & [= -> ->])%fmap_Some & HP). eauto.
Qed.

Lemma hub_inv_view h heap :
  (∀ a, view heap a = view (h_heap h) a) → hub_inv h →
  hub_inv (mkHub heap (h_sessions h) (h_conn h) (h_max h)).
Proof.
  intros Hv [Hheap Husers Hclients Hne Hlim].
  assert (∀ a (P : string → string → Prop),
    (∃ c, heap !! a = Some c ∧ P (SessionID c) (sessionUserKey c)) ↔
    (∃ c, h_heap h !! a = Some c ∧ P (SessionID c) (sessionUserKey c))) as Hex.
  { intros a P. rewrite !view_exists, Hv. done. }
  split; simpl; try done.
  - intros sid a Hs. apply (Hex a (λ s _, s = sid)). by apply Hheap.
  - intros k key sid. rewrite shard_of_conn, Husers. apply and_iff_compat_l. unfold registered; simpl.
    split; intros (a & c & Hs & Hc); exists a.
    + destruct (proj2 (Hex a (λ s x, s = sid ∧ x = key))) as (c' & ?); eauto.
    + destruct (proj1 (Hex a (λ s x, s = sid ∧ x = key))) as (c' & ?); eauto.
  - intros k sid a. rewrite shard_of_conn, Hclients. apply and_iff_compat_l.
    symmetry. apply (Hex a (λ _ x, k = index x numHubShards)).
Qed.

(** Moving a registration to another key is unregistering, changing the
    identity and registering again. *)
Lemma move_registration h a c ns user :
  hub_inv h → h_heap h !! a = Some c → h_sessions h !! SessionID c = Some a →
  let new := mkSess (SessionID c) ns user in
  let k := index (sessionUserKey c) numHubShards in
  let k' := index (sessionUserKey new) numHubShards in
  let h1 := mkHub (<[a := new]> (h_heap h)) (delete (SessionID c) (h_sessions h))
    (<[k := shard_remove (h_heap h) (shard_of h k) (SessionID c)]> (h_conn h)) (h_max h) in
  at_limit (shard_of h1 k') (sessionUserKey new) (h_max h) = false →
  hub_inv (mkHub (h_heap h1) (h_sessions h)
    (<[k' := mkConnShard (<[SessionID c := a]> (clients (shard_of h1 k')))
               (user_insert (users (shard_of h1 k')) (sessionUserKey new) (SessionID c))]> (h_conn h1))
    (h_max h)).
Proof.
  intros Hinv Ha Hs new k k' h1 Hl.
  assert (hub_inv h1) as Hinv1.
  { pose proof (hub_inv_unregister h a c Hinv Hs Ha) as Hu.
    apply (hub_inv_alloc _ a new Hu). intros sid. simpl. rewrite lookup_delete. case_decide as Hd; [done|].
    intros Hsid. by apply Hd, (sessions_inj h _ _ a). }
  pose proof (hub_inv_register h1 a new Hinv1) as Hreg. simpl in Hreg.
  rewrite lookup_insert_eq, lookup_delete_eq in Hreg.
  specialize (Hreg eq_refl ltac:(by intros) Hl). rewrite insert_delete_eq, (insert_id (h_sessions h)) in Hreg by done.
  exact Hreg.
Qed.

Lemma PrepareSessionUser_inv h a c ns user h' :
  hub_inv h → h_heap h !! a = Some c → h_sessions h !! SessionID c = Some a →
  PrepareSessionUser h (SessionID c) a ns user = Ok h' → hub_inv (set_identity h' a ns user).
Proof.
  intros Hinv Ha Hs Hp. unfold PrepareSessionUser in Hp. rewrite Ha in Hp.
  case_bool_decide as Hsame.
  { simplify_eq. unfold set_identity. rewrite Ha. apply hub_inv_view; [|done].
    intros a'. unfold view. rewrite lookup_insert. case_decide; [subst|done]. rewrite Ha. simpl.
    f_equal. f_equal. done. }
  set (new := mkSess (SessionID c) ns user).
  pose proof (move_registration h a c ns user Hinv Ha Hs) as Hmove. cbv zeta in Hmove. fold new in Hmove.
  change (userKey ns user) with (sessionUserKey new) in *.
  set (k := index (sessionUserKey c) numHubShards) in *.
  set (k' := index (sessionUserKey new) numHubShards) in *.
  assert (clients (shard_of h k) !! SessionID c = Some a) as Hcl by (apply (hv_clients _ Hinv); eauto).
  unfold shard_remove in Hmove. rewrite Hcl, Ha, shard_of_insert, shard_of_conn in Hmove.
  unfold set_identity.
  case_bool_decide as Hk.
  - destruct (at_limit _ _ _) eqn:Hl in Hp; [done|]. simplify_eq. simpl. rewrite Ha.
    rewrite decide_True in Hmove by done. simpl in Hmove.
    rewrite <-Hk, insert_delete_eq, insert_insert_eq in Hmove. apply Hmove.
    unfold at_limit, user_set in *. simpl. rewrite user_delete_lookup, decide_False by done. done.
  - destruct (at_limit _ _ _) eqn:Hl in Hp; [done|]. simplify_eq. simpl. rewrite Ha.
    rewrite decide_False in Hmove by done. by apply Hmove.
Qed.

(** ** Runs *)

(** The registry with every session under the identity it has there. *)
Definition overlay (moved : gmap positive (string * string)) (heap : gmap positive Sess) : gmap positive Sess :=
  map_imap (λ a c, Some (match moved !! a with Some (ns, user) => mkSess (SessionID c) ns user | None => c end)) heap.

Definition eff (s : hubsys) : Hub := set_heap (hs_hub s) (overlay (hs_moved s) (h_heap (hs_hub s))).

Lemma overlay_lookup moved heap a :
  overlay moved heap !! a =
  (c ← heap !! a; Some (match moved !! a with Some (ns, user) => mkSess (SessionID c) ns user | None => c end)).
Proof. apply map_lookup_imap. Qed.

Lemma overlay_same moved heap a : moved !! a = None → overlay moved heap !! a = heap !! a.
Proof. intros Hm. rewrite overlay_lookup, Hm. by destruct (heap !! a). Qed.

Lemma overlay_insert moved heap a c :
  moved !! a = None → overlay moved (<[a := c]> heap) = <[a := c]> (overlay moved heap).
Proof.
  intros Hm. apply map_eq. intros x. rewrite overlay_lookup, !lookup_insert.
  case_decide; [subst; cbn; by rewrite Hm|by rewrite overlay_lookup].
Qed.

Record sys_inv (s : hubsys) : Prop := {
  si_hub : hub_inv (eff s);
  si_moved a m : hs_moved s !! a = Some m → is_registered (hs_hub s) a = true;
}.

Lemma migrating_false s a : migrating s a = false → hs_moved s !! a = None.
Proof. intros Hm%bool_decide_eq_false. by apply eq_None_not_Some. Qed.

(** A registered object, by its ID. *)
Lemma registered_heap s sid a :
  sys_inv s → h_sessions (hs_hub s) !! sid = Some a → ∃ c, h_heap (hs_hub s) !! a = Some c ∧ SessionID c = sid.
Proof.
  intros [Hi _] Hs. destruct (hv_heap _ Hi sid a Hs) as (c & Hc & <-). cbn in Hc. rewrite overlay_lookup in Hc.
  apply bind_Some in Hc as (c0 & Hc0 & [= <-]). exists c0. split; [done|]. by destruct (hs_moved s !! a) as [[]|].
Qed.

Lemma unregistered_address s a :
  sys_inv s → is_registered (hs_hub s) a = false → ∀ sid, h_sessions (hs_hub s) !! sid ≠ Some a.
Proof.
  intros Hi Hr sid Hs. destruct (registered_heap s sid a Hi Hs) as (c & Hc & <-). unfold is_registered in Hr.
  rewrite Hc in Hr. by apply bool_decide_eq_false in Hr.
Qed.

Lemma new_session_inv s a c :
  sys_inv s → is_registered (hs_hub s) a = false →
  sys_inv (mkHubSys (set_heap (hs_hub s) (<[a := c]> (h_heap (hs_hub s)))) (hs_moved s)).
Proof.
  intros Hi Hr. pose proof (unregistered_address s a Hi Hr) as Hna. destruct Hi as [Hi Hm].
  assert (hs_moved s !! a = None) as Hma.
  { destruct (hs_moved s !! a) eqn:Hma; [|done]. apply Hm in Hma. congruence. }
  split.
  - unfold eff. cbn. rewrite overlay_insert by done. apply (hub_inv_alloc (eff s) a c Hi Hna).
  - intros a' m Hm'. cbn in Hm'. specialize (Hm a' m Hm'). unfold is_registered in *. cbn.
    rewrite lookup_insert_ne; [done|]. intros ->. congruence.
Qed.

Lemma Add_inv s a :
  sys_inv s → legal s (OAdd a) = true → sys_inv (exec_op s (OAdd a)).
Proof.
  intros Hi Hl. cbn in Hl |- *. unfold Add. destruct (h_heap (hs_hub s) !! a) as [c|] eqn:Ha; [|by destruct s].
  apply andb_true_iff in Hl as [[Hid%negb_true_iff%bool_decide_eq_false Hma%negb_true_iff%migrating_false]%andb_true_iff Hl].
  unfold addWithLimit. destruct (at_limit _ _ _) eqn:Hlim; [by destruct s|].
  rewrite bool_decide_eq_false_2 by done.
  assert (∀ a0, h_sessions (hs_hub s) !! SessionID c = Some a0 →
    hs_moved s !! a0 = None ∧ sessionUserKey <$> h_heap (hs_hub s) !! a0 = Some (sessionUserKey c)) as Hold.
  { intros a0 Hs. rewrite Hs in Hl. apply andb_true_iff in Hl as [?%negb_true_iff%migrating_false ?%bool_decide_eq_true].
    done. }
  destruct Hi as [Hi Hm]. split.
  - apply (hub_inv_register (eff s) a c Hi).
    + cbn. by rewrite overlay_same.
    + intros a0 c0 Hs Hc0. destruct (Hold a0 Hs) as [Hma0 Hk]. cbn in Hc0. rewrite overlay_same in Hc0 by done.
      rewrite Hc0 in Hk. by injection Hk.
    + done.
  - intros a' m Hm'. cbn in Hm'. specialize (Hm a' m Hm'). unfold is_registered in *. cbn.
    destruct (h_heap (hs_hub s) !! a') as [c'|]; [|done]. apply bool_decide_eq_true in Hm. apply bool_decide_eq_true.
    rewrite lookup_insert_ne; [done|]. intros Heq. rewrite <-Heq in Hm. destruct (Hold a' Hm). congruence.
Qed.

Lemma Remove_inv s sid who :
  sys_inv s → legal s (ORemove sid who) = true → sys_inv (exec_op s (ORemove sid who)).
Proof.
  intros Hi Hl. cbn in Hl |- *. unfold RemoveSessionIfMatches.
  destruct (h_sessions (hs_hub s) !! sid) as [a|] eqn:Hs; [|by destruct s]. apply negb_true_iff, migrating_false in Hl.
  destruct (_ && _); [by destruct s|]. destruct (registered_heap s sid a Hi Hs) as (c & Ha & <-). rewrite Ha. cbn [snd].
  destruct Hi as [Hi Hm]. assert (overlay (hs_moved s) (h_heap (hs_hub s)) !! a = Some c) as Hov by (by rewrite overlay_same).
  split.
  - pose proof (hub_inv_unregister (eff s) a c Hi Hs Hov) as Hu. cbv zeta in Hu.
    assert (clients (shard_of (eff s) (index (sessionUserKey c) numHubShards)) !! SessionID c = Some a) as Hcl
      by (apply (hv_clients _ Hi); eauto).
    unfold shard_remove in Hu |- *. rewrite Hcl in Hu. change (shard_of (eff s)) with (shard_of (hs_hub s)) in *.
    rewrite Hcl, Ha. cbn [eff h_heap set_heap] in Hu. rewrite Hov in Hu. exact Hu.
  - intros a' m Hm'. cbn in Hm'. specialize (Hm a' m Hm'). unfold is_registered in *. cbn.
    destruct (h_heap (hs_hub s) !! a') as [c'|]; [|done]. apply bool_decide_eq_true in Hm. apply bool_decide_eq_true.
    rewrite lookup_delete_ne; [done|]. intros Heq. rewrite <-Heq, Hs in Hm. congruence.
Qed.

(** PrepareSessionUser does not look at other sessions' identities. *)
Lemma Prepare_heap h heap sid a ns user :
  heap !! a = h_heap h !! a →
  PrepareSessionUser (set_heap h heap) sid a ns user =
  match PrepareSessionUser h sid a ns user with Ok h' => Ok (set_heap h' heap) | Err e => Err e end.
Proof.
  intros Ha. unfold PrepareSessionUser. cbn. rewrite Ha. destruct (h_heap h !! a); [|done].
  change (shard_of (set_heap h heap)) with (shard_of h). repeat case_match; done.
Qed.

Lemma PrepareSessionUser_fields h sid a ns user h' :
  PrepareSessionUser h sid a ns user = Ok h' →
  h_heap h' = h_heap h ∧ h_sessions h' = h_sessions h ∧ h_max h' = h_max h.
Proof. unfold PrepareSessionUser. repeat case_match; intros; simplify_eq; done. Qed.

Lemma Prepare_inv s a ns user :
  sys_inv s → legal s (OPrepare a ns user) = true → sys_inv (exec_op s (OPrepare a ns user)).
Proof.
  intros Hi Hl. cbn in Hl |- *. apply andb_true_iff in Hl as [Hr Hma%negb_true_iff%migrating_false].
  destruct (h_heap (hs_hub s) !! a) as [c|] eqn:Ha; [|done].
  destruct (PrepareSessionUser _ _ _ _ _) as [h'|] eqn:Hp; [|done].
  destruct (PrepareSessionUser_fields _ _ _ _ _ _ Hp) as (Hh & Hss & _).
  assert (is_registered (hs_hub s) a = true → h_sessions (hs_hub s) !! SessionID c = Some a) as Hs.
  { unfold is_registered. rewrite Ha. apply bool_decide_eq_true. }
  destruct Hi as [Hi Hm]. assert (overlay (hs_moved s) (h_heap (hs_hub s)) !! a = Some c) as Hov by (by rewrite overlay_same).
  split.
  - pose proof (PrepareSessionUser_inv (eff s) a c ns user (set_heap h' (overlay (hs_moved s) (h_heap (hs_hub s))))
      Hi Hov (Hs Hr)) as Hinv.
    unfold eff in Hinv at 1. rewrite Prepare_heap, Hp in Hinv by (by rewrite Hov, Ha). specialize (Hinv eq_refl).
    unfold set_identity in Hinv. cbn [set_heap h_heap h_sessions h_conn h_max] in Hinv. rewrite Hov in Hinv.
    unfold eff, set_heap. cbn. rewrite Hh.
    replace (overlay (<[a := (ns, user)]> (hs_moved s)) (h_heap (hs_hub s)))
      with (<[a := mkSess (SessionID c) ns user]> (overlay (hs_moved s) (h_heap (hs_hub s)))); [done|].
    apply map_eq. intros x. rewrite overlay_lookup, !lookup_insert. case_decide; [subst; by rewrite Ha|].
    by rewrite overlay_lookup.
  - cbn. unfold is_registered. rewrite Hh, Hss. intros a' m [[<- _]|[_ Hm']]%lookup_insert_Some.
    + unfold is_registered in Hr. done.
    + by apply (Hm a' m).
Qed.

Lemma Identity_inv s a ns user :
  sys_inv s → legal s (OIdentity a ns user) = true → sys_inv (exec_op s (OIdentity a ns user)).
Proof.
  intros [Hi Hm] Hl. cbn in Hl |- *. unfold set_identity.
  destruct (h_heap (hs_hub s) !! a) as [c|] eqn:Ha; last first.
  { destruct (hs_moved s !! a) eqn:Hma; [|done]. apply Hm in Hma. unfold is_registered in Hma. by rewrite Ha in Hma. }
  split.
  - unfold eff, set_heap. cbn. apply (hub_inv_view (eff s)); [|done].
    intros x. unfold view. cbn. rewrite !overlay_lookup. destruct (decide (a = x)) as [<-|Hx];
      [|by rewrite lookup_insert_ne, lookup_delete_ne].
    rewrite lookup_insert_eq, lookup_delete_eq, Ha. cbn.
    destruct (hs_moved s !! a) as [[ns' user']|] eqn:Hma.
    + apply bool_decide_eq_true in Hl. by injection Hl as -> ->.
    + apply bool_decide_eq_true in Hl. cbn in Hl. injection Hl as Hl. unfold sessionUserKey. cbn.
      by rewrite <-Hl.
  - cbn. intros a' m [Hne Hm']%lookup_delete_Some. specialize (Hm a' m Hm'). unfold is_registered in *. cbn.
    by rewrite lookup_insert_ne.
Qed.

(** Every transition preserves the invariant. *)
Lemma exec_op_inv s o : sys_inv s → legal s o = true → sys_inv (exec_op s o).
Proof.
  intros Hi Hl. destruct o as [a c|a c|a|sid who|a ns user|a ns user].
  - apply new_session_inv; [done|]. unfold is_registered. cbn in Hl. apply bool_decide_eq_true in Hl. by rewrite Hl.
  - apply new_session_inv; [done|]. cbn in Hl. by apply andb_true_iff in Hl as [_ Hl%negb_true_iff].
  - by apply Add_inv.
  - by apply Remove_inv.
  - by apply Prepare_inv.
  - by apply Identity_inv.
Qed.

Definition start (m : Z) : hubsys := mkHubSys (NewHub m) ∅.

Lemma start_inv m : sys_inv (start m).
Proof. split; [|done]. apply (hub_inv_view (NewHub m)); [|apply hub_inv_new]. intros a. unfold view. by rewrite overlay_lookup. Qed.

Lemma exec_inv ops : ∀ s, sys_inv s → legal_run s ops = true → sys_inv (foldl exec_op s ops).
Proof.
  induction ops as [|o ops IH]; intros s Hi Hl; [done|]. cbn in *. apply andb_true_iff in Hl as [Hl Hrest].
  apply IH; [by apply exec_op_inv|done].
Qed.

(** Namespaces are validated identifiers (or empty), so they have no NUL. *)
Definition ns_ok (ns : string) : Prop := has_char "000" ns = false.

Definition op_ok (o : op) : Prop :=
  match o with
  | ONew _ c | OAssign _ c => ns_ok (Namespace c)
  | OAdd _ | ORemove _ _ => True
  | OPrepare _ ns _ | OIdentity _ ns _ => ns_ok ns
  end.

Definition names_ok (s : hubsys) : Prop :=
  (∀ a c, h_heap (hs_hub s) !! a = Some c → ns_ok (Namespace c)) ∧ (∀ a m, hs_moved s !! a = Some m → ns_ok m.1).

Lemma Remove_fields h sid who : h_heap (RemoveSessionIfMatches h sid who).2 = h_heap h ∧ h_max (RemoveSessionIfMatches h sid who).2 = h_max h.
Proof. unfold RemoveSessionIfMatches. repeat case_match; done. Qed.

Lemma Add_fields h a h' : Add h a = Ok h' → h_heap h' = h_heap h ∧ h_max h' = h_max h.
Proof. unfold Add. repeat case_match; intros; simplify_eq; done. Qed.

Lemma exec_op_names s o :
  op_ok o → names_ok s → names_ok (exec_op s o) ∧ h_max (hs_hub (exec_op s o)) = h_max (hs_hub s).
Proof.
  intros Ho [Hh Hm]. destruct o as [a c|a c|a|sid who|a ns user|a ns user]; cbn in *.
  1,2: split; [split; [|done]|done]; cbn; intros a' c' [[_ <-]|[_ ?]]%lookup_insert_Some; [done|by eapply Hh].
  - destruct (Add (hs_hub s) a) as [h'|] eqn:Hadd; [|done]. apply Add_fields in Hadd as [He ->].
    split; [|done]. split; cbn; [by rewrite He|done].
  - destruct (Remove_fields (hs_hub s) sid who) as [He ->]. split; [|done]. split; cbn; [by rewrite He|done].
  - destruct (h_heap (hs_hub s) !! a) as [c|]; [|done].
    destruct (PrepareSessionUser _ _ _ _ _) as [h'|] eqn:Hp; [|done].
    destruct (PrepareSessionUser_fields _ _ _ _ _ _ Hp) as (He & _ & Hmax). split; [|done].
    split; cbn; [by rewrite He|]. intros a' m [[_ <-]|[_ ?]]%lookup_insert_Some; [done|by eapply Hm].
  - unfold set_identity. split; [split; cbn|by case_match].
    + destruct (h_heap (hs_hub s) !! a) as [c|]; [cbn|done].
      intros a' c' [[_ <-]|[_ ?]]%lookup_insert_Some; [done|by eapply Hh].
    + intros a' m [_ ?]%lookup_delete_Some. by eapply Hm.
Qed.

Lemma exec_names ops : ∀ s,
  Forall op_ok ops → names_ok s →
  names_ok (foldl exec_op s ops) ∧ h_max (hs_hub (foldl exec_op s ops)) = h_max (hs_hub s).
Proof.
  induction ops as [|o ops IH]; intros s Hops Hh; cbn; [done|].
  apply Forall_cons in Hops as [Ho Hops]. destruct (exec_op_names s o Ho Hh) as [Hh' Hm].
  destruct (IH _ Hops Hh') as [? ?]. split; [done|congruence].
Qed.

(** The user table of a registry in which the tables agree. *)
Lemma sessions_by_user h ns user :
  hub_inv h → (∀ a c, h_heap h !! a = Some c → ns_ok (Namespace c)) → ns_ok ns →
  NoDup (SessionsByUser h ns user) ∧
  (∀ a, a ∈ SessionsByUser h ns user ↔ user ≠ "" ∧
     ∃ sid c, LookupSession h sid = Some a ∧ h_heap h !! a = Some c ∧ Namespace c = ns ∧ UserID c = user) ∧
  ((0 < h_max h)%Z → (Z.of_nat (length (SessionsByUser h ns user)) ≤ h_max h)%Z).
Proof.
  intros Hinv Hok Hns. unfold SessionsByUser. case_bool_decide as Hu.
  { split_and!; [constructor| |simpl; lia]. intros a. split; [set_solver|by intros [? _]]. }
  set (key := userKey ns user). set (s := shard_of h _).
  assert (∀ sid, sid ∈ user_set s key → ∃ a c, clients s !! sid = Some a ∧
    LookupSession h sid = Some a ∧ h_heap h !! a = Some c ∧ SessionID c = sid ∧ sessionUserKey c = key) as Hsid.
  { intros sid [_ (a & c & Hs & Hc & Hid & Hk)]%(hv_users _ Hinv). exists a, c. split_and!; try done.
    apply (hv_clients _ Hinv). split; [done|]. exists c. by rewrite Hk. }
  split_and!.
  - apply NoDup_omap_inj; [|apply NoDup_elements].
    intros s1 s2 a _ _ [H1 _]%(hv_clients _ Hinv) [H2 _]%(hv_clients _ Hinv).
    by apply (sessions_inj h _ _ a).
  - intros a. rewrite list_elem_of_omap. setoid_rewrite elem_of_elements. split.
    + intros (sid & (a' & c & Hcl & Hs & Hc & _ & Hk)%Hsid & Ha).
      assert (a' = a) as -> by congruence. split; [done|].
      exists sid, c. split_and!; try done; unfold sessionUserKey, key, userKey in Hk;
        apply str_sep_inj in Hk; try naive_solver; by eapply Hok.
    + intros [_ (sid & c & Hs & Hc & <- & <-)]. exists sid.
      destruct (hv_heap _ Hinv _ _ Hs) as (c' & Hc' & Hid). assert (c' = c) as -> by congruence. subst sid.
      assert (SessionID c ∈ user_set s key) as Hin.
      { apply (hv_users _ Hinv). split; [done|]. exists a, c. done. }
      split; [done|]. destruct (Hsid _ Hin) as (a' & c'' & ? & ? & _). unfold LookupSession in *. congruence.
  - intros Hpos. pose proof (hv_limit _ Hinv Hpos (index key numHubShards) key) as Hlim. fold s in Hlim.
    pose proof (length_omap_le (λ sid, clients s !! sid) (elements (user_set s key))).
    unfold size, set_size in Hlim. simpl in Hlim. lia.
Qed.

(** C19: the connection registry is exact and bounded.  Take any sequence of new
    sessions, identities written by a connect, registrations (Add, also of an ID
    that is registered, whose object is then replaced), removals (matched or not),
    PrepareSessionUser calls and, each a step of its own, the identity writes that
    follow them, in which a registered ID is registered again for the same
    (namespace, user) only and nobody removes or replaces a session between its
    PrepareSessionUser and its identity write.  Then SessionsByUser returns,
    without duplicates, exactly the registered sessions of that (namespace, user),
    never those of the same user in another namespace, and never more than the
    per-user limit (a session in the middle of its migration counts for the new
    identity); and a removal on behalf of a session succeeds exactly when that
    session is the registered one, and removes nothing else.  (Outside these
    conditions: [duplicate_id_misroutes], [removal_during_migration_leaks].) *)
Theorem hub_registry_exact m ops ns user :
  Forall op_ok ops → legal_run (start m) ops = true → ns_ok ns →
  let s := foldl exec_op (start m) ops in
  let h := hs_hub s in
  NoDup (SessionsByUser h ns user) ∧
  (∀ a, a ∈ SessionsByUser h ns user ↔ user ≠ "" ∧
     ∃ sid c, LookupSession h sid = Some a ∧ identity s a = Some c ∧ Namespace c = ns ∧ UserID c = user) ∧
  ((0 < m)%Z → (Z.of_nat (length (SessionsByUser h ns user)) ≤ m)%Z) ∧
  (∀ sid a, let '(removed, h') := RemoveSessionIfMatches h sid (Some a) in
     removed = bool_decide (LookupSession h sid = Some a) ∧
     ∀ x, LookupSession h' x = if removed && bool_decide (x = sid) then None else LookupSession h x).
Proof.
  intros Hops Hleg Hns s h. destruct (exec_inv ops (start m) (start_inv m) Hleg) as [Hinv _]. fold s in Hinv.
  destruct (exec_names ops (start m) Hops) as [[Hn1 Hn2] Hm]; [by split; intros ? ?|]. fold s in Hn1, Hn2, Hm.
  destruct (sessions_by_user (eff s) ns user Hinv) as (Hnd & Hex & Hlim); [|done|].
  { intros a c Hc. cbn in Hc. rewrite overlay_lookup in Hc. apply bind_Some in Hc as (c0 & Hc0 & [= <-]).
    destruct (hs_moved s !! a) as [[n u]|] eqn:Hma; [exact (Hn2 a (n, u) Hma)|by apply (Hn1 a)]. }
  assert (∀ a, overlay (hs_moved s) (h_heap h) !! a = identity s a) as Hid by (intros a; apply overlay_lookup).
  change (SessionsByUser (eff s) ns user) with (SessionsByUser h ns user) in *.
  split_and!; [done| | |].
  - intros a. rewrite Hex. apply and_iff_compat_l.
    split; intros (sid & c & H1 & H2 & H3); exists sid, c; (split; [exact H1|split; [|exact H3]]);
      [rewrite <-Hid|rewrite <-Hid in H2]; exact H2.
  - cbn in Hlim, Hm. fold h in Hm. change (h_max (hs_hub s)) with (h_max h) in Hlim. by rewrite Hm in Hlim.
  - intros sid a. unfold RemoveSessionIfMatches, LookupSession. destruct (h_sessions h !! sid) as [a0|] eqn:Hs.
    + rewrite (bool_decide_eq_false_2 (Some a = None)) by done. cbn [negb andb].
      destruct (decide (a0 = a)) as [->|Hne].
      * rewrite bool_decide_eq_true_2 by done. cbn [negb].
        destruct (h_heap h !! a); (split; [done|]); intros x; cbn [h_sessions andb];
          rewrite lookup_delete;
          (case_decide; [by rewrite bool_decide_eq_true_2|by rewrite bool_decide_eq_false_2 by congruence]).
      * rewrite bool_decide_eq_false_2 by congruence. cbn. split; [|done].
        by rewrite bool_decide_eq_false_2 by congruence.
    + split; [by rewrite bool_decide_eq_false_2|done].
Qed.

(** Two sessions of a user at the limit, a stale object of the same ID that is
    replaced, a namespace of its own, and a session in the middle of a resume. *)
Definition sample_run : list op :=
  [ONew 1 (mkSess "s1" "acme" "u"); OAdd 1; ONew 2 (mkSess "" "acme" "u"); OAssign 2 (mkSess "s1" "acme" "u");
   OAdd 2; ORemove "s1" (Some 1%positive); ONew 3 (mkSess "s3" "globex" "u"); OAdd 3;
   ONew 4 (mkSess "s4" "acme" ""); OAdd 4; OPrepare 4 "acme" "u"].

Lemma hub_registry_exact_witness :
  let s := foldl exec_op (start 2) sample_run in
  SessionsByUser (hs_hub s) "acme" "u" ≡ₚ [2%positive; 4%positive] ∧
  (Z.of_nat (length (SessionsByUser (hs_hub s) "acme" "u")) ≤ 2)%Z ∧
  (RemoveSessionIfMatches (hs_hub s) "s1" (Some 1%positive)).1 = false.
Proof.
  destruct (hub_registry_exact 2 sample_run "acme" "u") as (_ & _ & Hlim & Hrem);
    [repeat constructor|vm_compute; reflexivity|reflexivity|].
  split; [vm_compute; apply (bool_decide_unpack _); vm_compute; exact I|]. split; [apply Hlim; lia|].
  specialize (Hrem "s1" 1%positive). destruct (RemoveSessionIfMatches _ _ _) as [removed h'].
  destruct Hrem as [-> _]. vm_compute. reflexivity.
Defined.

(** A session ID that is already registered for another user: the shard of the
    first user still lists the ID, and when both users have the same shard it finds
    the second user's session under it. *)
Theorem duplicate_id_misroutes :
  let s := foldl exec_op (start 0)
    [ONew 1 (mkSess "x" "acme" "alice"); OAdd 1; ONew 2 (mkSess "x" "acme" "u85"); OAdd 2] in
  index (userKey "acme" "alice") numHubShards = index (userKey "acme" "u85") numHubShards ∧
  SessionsByUser (hs_hub s) "acme" "alice" = [2%positive] ∧
  (UserID <$> identity s 2) = Some "u85".
Proof. vm_compute. done. Qed.

(** A removal between PrepareSessionUser and the identity write looks for the
    session under its old identity: the slot of the new one is never freed. *)
Theorem removal_during_migration_leaks :
  let s := foldl exec_op (start 1)
    [ONew 1 (mkSess "s1" "acme" ""); OAdd 1; OPrepare 1 "acme" "u"; ORemove "s1" None;
     ONew 2 (mkSess "s2" "acme" "u")] in
  LookupSession (hs_hub s) "s1" = None ∧ Add (hs_hub s) 2 = Err DisconnectConnectionLimit.
Proof. vm_compute. done. Qed.

End Hub.
