(* ===== verification/Splice.v ===== *)
(** * Splice: grafting raw JSON into a marshalled frame
      (internal/session/hub.go, spliceRawJSONPayloads)

    Frames and payloads are byte strings.  The loop of the code keeps the buffer
    [out] and a position [pos]; the model keeps [out[:pos]] and [out[pos:]]. *)

From S2P Require Import Prelude.

Module Splice.

(** The placeholder without its braces. *)
Definition keep : string := String "034" ("json" +:+ String "034" ":").

Definition jsonPayloadSplicePoint : string := keep +:+ "{}".

(** The rest of [s] after the prefix [p]. *)
Fixpoint after_prefix (p s : string) : option string :=
  match p, s with
  | EmptyString, _ => Some s
  | String c p', String x s' => if bool_decide (x = c) then after_prefix p' s' else None
  | String _ _, EmptyString => None
  end.

(** [bytes.Index] and the two slices: before and after the first occurrence. *)
Fixpoint cut_at (point s : string) : option (string * string) :=
  match after_prefix point s with
  | Some rest => Some ("", rest)
  | None =>
      match s with
      | EmptyString => None
      | String c s' =>
          match cut_at point s' with Some (a, b) => Some (String c a, b) | None => None end
      end
  end.

Fixpoint splice_loop (before rest : string) (raws : list string) : option string :=
  match raws with
  | [] => Some (before +:+ rest)
  | raw :: raws' =>
      match cut_at jsonPayloadSplicePoint rest with
      | None => None
      | Some (a, b) => splice_loop (before +:+ a +:+ keep +:+ raw) b raws'
      end
  end.

Definition spliceRawJSONPayloads (frame : string) (raws : list string) : option string :=
  splice_loop "" frame raws.

Definition spliceRawJSONPayload (frame raw : string) : option string :=
  spliceRawJSONPayloads frame [raw].

(** ** Specification *)

(** A frame whose pieces are separated by copies of the placeholder. *)
Fixpoint frame_of (pieces : list string) (lst : string) : string :=
  match pieces with
  | [] => lst
  | p :: rest => p +:+ jsonPayloadSplicePoint +:+ frame_of rest lst
  end.

(** The same frame with the raw payloads in their place. *)
Fixpoint spliced (pieces raws : list string) (lst : string) : string :=
  match pieces, raws with
  | p :: ps, r :: rs => p +:+ keep +:+ r +:+ spliced ps rs lst
  | _, _ => lst
  end.

Definition point_free (s : string) : Prop := cut_at jsonPayloadSplicePoint s = None.

(** ** Proofs *)

Lemma after_prefix_app p s : after_prefix p (p +:+ s) = Some s.
Proof. induction p as [|c p IH]; [done|]. rewrite str_app_cons. simpl. by rewrite bool_decide_eq_true_2. Qed.

(** The placeholder does not overlap itself, so it cannot start in a piece and
    end in the placeholder that follows. *)
Lemma no_overlap c q rest :
  after_prefix jsonPayloadSplicePoint (String c q) = None →
  after_prefix jsonPayloadSplicePoint (String c q +:+ jsonPayloadSplicePoint +:+ rest) = None.
Proof.
  unfold jsonPayloadSplicePoint, keep.
  destruct q as [|c1 [|c2 [|c3 [|c4 [|c5 [|c6 [|c7 [|c8 q]]]]]]]]; simpl;
    repeat (case_bool_decide; simpl; try done).
Qed.

Lemma cut_at_first a rest :
  point_free a → cut_at jsonPayloadSplicePoint (a +:+ jsonPayloadSplicePoint +:+ rest) = Some (a, rest).
Proof.
  unfold point_free. induction a as [|c a IH]; intros Hf.
  - rewrite str_app_nil_l. simpl in *. by rewrite ?bool_decide_eq_true_2.
  - assert (after_prefix jsonPayloadSplicePoint (String c a) = None ∧ point_free a) as [Hp Ha].
    { cbn [cut_at] in Hf. destruct (after_prefix _ (String c a)); [done|]. split; [done|].
      unfold point_free. by destruct (cut_at jsonPayloadSplicePoint a) as [[]|]. }
    pose proof (no_overlap c a rest Hp) as Hno. rewrite str_app_cons in Hno |- *.
    cbn [cut_at]. rewrite Hno. by rewrite IH.
Qed.

Lemma splice_loop_pieces lst pieces : point_free lst → Forall point_free pieces → ∀ raws before,
  (length pieces = length raws →
    splice_loop before (frame_of pieces lst) raws = Some (before +:+ spliced pieces raws lst)) ∧
  (length pieces < length raws → splice_loop before (frame_of pieces lst) raws = None).
Proof.
  intros Hl. induction pieces as [|p ps IH]; intros Hps [|r rs] before; simpl;
    try (split; intros; (done || lia)).
  - split; [done|]. intros _. unfold point_free in Hl. by rewrite Hl.
  - apply Forall_cons in Hps as [Hp Hps]. rewrite cut_at_first by done.
    destruct (IH Hps rs (before +:+ p +:+ keep +:+ r)) as [H1 H2].
    split; intros Hlen; [rewrite H1 by lia|by rewrite H2 by lia]. by rewrite !str_app_assoc.
Qed.

(** Splicing puts every raw payload in its own place.  If the marshalled
    frame has one placeholder per message and no other copy of it, the result
    is the frame with the i-th placeholder's braces replaced by the i-th raw
    payload, whatever bytes the payloads contain (nested placeholders
    included); with too few placeholders there is no result. *)
Theorem splice_exact pieces lst raws :
  Forall point_free pieces → point_free lst →
  (length pieces = length raws →
     spliceRawJSONPayloads (frame_of pieces lst) raws = Some (spliced pieces raws lst)) ∧
  (length pieces < length raws → spliceRawJSONPayloads (frame_of pieces lst) raws = None).
Proof.
  intros Hp Hl. unfold spliceRawJSONPayloads.
  destruct (splice_loop_pieces lst pieces Hl Hp raws "") as [H1 H2]. split; [|done].
  intros Hlen. by rewrite H1.
Qed.

Lemma splice_exact_witness :
  spliceRawJSONPayloads (frame_of ["{a:{"; "},{"] "}}") [jsonPayloadSplicePoint; "{}"]
  = Some (spliced ["{a:{"; "},{"] [jsonPayloadSplicePoint; "{}"] "}}").
Proof.
  apply (splice_exact ["{a:{"; "},{"] "}}" [jsonPayloadSplicePoint; "{}"]);
    [repeat constructor|reflexivity|reflexivity].
Defined.

End Splice.
