(* ===== verification/HubSubs.v ===== *)
(** * HubSubs: the subscription registry (internal/session/hub.go, second part)

    Exact subscriptions live in sharded maps, wildcard subscriptions in the
    topic matcher plus a handle map.  A session is its address and its (stable)
    session ID. *)

From S2P Require Import Prelude Topics Matcher Interest Stream Hub Splice CSTrie.
Import Topics Matcher Interest.

Module HubSubs.

Record SessRef := mkRef { sr_addr : positive; sr_sid : string }.

Record Subscriber := mkSubscriber {
  sb_Session : SessRef;
  sb_Ephemeral : bool;
  sb_DeliveredOffset : Z;
}.

#[export] Instance SessRef_eq_dec : EqDecision SessRef.
Proof. solve_decision. Defined.
#[export] Instance Subscriber_eq_dec : EqDecision Subscriber.
Proof. solve_decision. Defined.
#[export] Instance SessRef_countable : Countable SessRef.
Proof.
  refine (inj_countable' (λ r, (sr_addr r, sr_sid r)) (λ '(a, s), mkRef a s) _). by intros [].
Defined.
#[export] Instance Subscriber_countable : Countable Subscriber.
Proof.
  refine (inj_countable' (λ s, (sb_Session s, sb_Ephemeral s, sb_DeliveredOffset s))
            (λ '(r, e, o), mkSubscriber r e o) _). by intros [].
Defined.

Definition NewSubscriber (session : SessRef) (ephemeral : bool) : Subscriber :=
  mkSubscriber session ephemeral 0.

(** [subShard.subs]: channel -> session ID -> subscriber. *)
Abbreviation subShard := (gmap string (gmap string Subscriber)).

(** ** Messages and frames *)

Section Frames.
Context {J Enc : Type}.

(** [shared.PositionFrom]: the offset is present only when [set] holds. *)
Definition PositionFrom (epoch : string) (offset : Z) (set : bool) : string * option Z :=
  (epoch, if set then Some offset else None).

(** A [clientpb.Message]. *)
Record Message := mkMessage {
  msg_Channel : string;
  msg_Id : string;
  msg_Position : string * option Z;
  msg_Payload : option (Stream.PayloadV2 J);
  msg_Metadata : option (gmap string string);
}.

(** What a broadcast uses of the sessions' wire encodings and of the JSON
    library: [structpb.Struct] is [J], a marshaler is an [Enc]. *)
Record Wire := mkWire {
  currentMarshaler : SessRef → Enc;
  IsJSONWire : Enc → bool;
  MarshalAppend : Enc → list Message → option string;    (* None: a marshal error *)
  sendFrame : SessRef → string → Enc → bool;              (* false: an error, a timeout or a panic *)
  StructUnmarshal : string → option J;
  emptyStruct : J;
  jsonValid : string → bool;
  TrimSpace : string → string;
}.

(** [fmt.Sprintf("%s-%d", channel, offset)] *)
Definition publicationID (channel : string) (offset : Z) : string :=
  channel +:+ String "-"%char (pretty (Z.to_N offset)).

(** [uuid]: the fresh identifier drawn for a transient publication. *)
Definition publicationMessageID (channel : string) (offset : Z) (uuid : string) : string :=
  if (0 <? offset)%Z then publicationID channel offset else uuid.

Definition makeMessage (w : Wire) (ch : string) (pub : Stream.Publication) (uuid : string) : Message :=
  mkMessage ch (publicationMessageID ch (Stream.Offset pub) uuid)
    (PositionFrom (Stream.Epoch pub) (Stream.Offset pub) true)
    (Stream.PayloadProtoV2 (StructUnmarshal w) (Some pub))
    (if bool_decide (Stream.Metadata pub = ∅) then None else Some (Stream.Metadata pub)).

Definition isJSONObject (w : Wire) (data : string) : bool :=
  let trimmed := TrimSpace w data in
  match trimmed with
  | EmptyString => false
  | String c _ => bool_decide (c = "{"%char) && jsonValid w trimmed
  end.

(** [jsonRaws]: the payloads' bytes when all of them are JSON objects. *)
Fixpoint jsonRaws (w : Wire) (pubs : list Stream.Publication) : option (list string) :=
  match pubs with
  | [] => Some []
  | pub :: pubs' =>
      if (match Stream.Kind pub with Stream.PayloadKindJSON => true | _ => false end)
           && isJSONObject w (Stream.Payload pub)
      then (λ raws, TrimSpace w (Stream.Payload pub) :: raws) <$> jsonRaws w pubs'
      else None
  end.

(** A message with the empty-Struct payload in place of its own. *)
Definition placeholder (w : Wire) (pm : Stream.Publication * Message) : Message :=
  let '(pub, m) := pm in
  mkMessage (msg_Channel m) (msg_Id m) (msg_Position m)
    (Some (Stream.mkPayloadV2 (Stream.ContentType pub) (Some (Stream.Payload_Json (emptyStruct w)))))
    (msg_Metadata m).

(** The frame marshalled for one encoding; [None] is a marshal error. *)
Definition marshalFrame (w : Wire) (pubs : list Stream.Publication) (msgs : list Message) (m : Enc)
    : option string :=
  match jsonRaws w pubs with
  | Some raws =>
      if IsJSONWire w m then
        match MarshalAppend w m (placeholder w <$> zip pubs msgs) with
        | None => None
        | Some b =>
            match Splice.spliceRawJSONPayloads b raws with
            | Some f => Some f
            | None => MarshalAppend w m msgs
            end
        end
      else MarshalAppend w m msgs
  | None => MarshalAppend w m msgs
  end.

(** [sendOne]: the frame of the client's encoding and whether it was delivered. *)
Definition sendOne (w : Wire) (pubs : list Stream.Publication) (msgs : list Message) (c : SessRef)
    : SessRef * option string * bool :=
  let m := currentMarshaler w c in
  let frame := marshalFrame w pubs msgs m in
  (c, frame, match frame with None => false | Some b => sendFrame w c b m end).

End Frames.

#[global] Arguments Message : clear implicits.
#[global] Arguments Wire : clear implicits.

Section Subs.
Context {M : Type} `{Matcher Subscriber M}.

Record HubSubs := mkHubSubs {
  hs_shards : gmap Z subShard;
  hs_matcher : M;
  hs_wcSubs : gmap string (string * Subscriber);   (* "sessionID:channel" -> handle *)
}.

Definition NewHubSubs : HubSubs := mkHubSubs ∅ m_new ∅.

Definition shard_idx (ch : string) : Z := Hub.index ch Hub.numHubShards.

Definition shard_at (h : HubSubs) (ch : string) : subShard := default ∅ (hs_shards h !! shard_idx ch).

Definition chan_subs (h : HubSubs) (ch : string) : gmap string Subscriber :=
  default ∅ (shard_at h ch !! ch).

Definition set_shard (h : HubSubs) (ch : string) (s : subShard) : HubSubs :=
  mkHubSubs (<[shard_idx ch := s]> (hs_shards h)) (hs_matcher h) (hs_wcSubs h).

Definition NumSubscribers (h : HubSubs) (ch : string) : nat := size (chan_subs h ch).

(** [subShard.addSub]: true when the channel had no subscriber map yet. *)
Definition addSub (s : subShard) (ch : string) (sub : Subscriber) : bool * subShard :=
  (bool_decide (s !! ch = None),
   <[ch := <[sr_sid (sb_Session sub) := sub]> (default ∅ (s !! ch))]> s).

(** [subShard.removeSub]: (no subscribers left, really removed). *)
Definition removeSub (s : subShard) (ch uid : string) : bool * bool * subShard :=
  match s !! ch with
  | None => (true, false, s)
  | Some subs =>
      match subs !! uid with
      | None => (true, false, s)
      | Some _ =>
          let subs' := delete uid subs in
          if bool_decide (size subs' = 0) then (true, true, delete ch s)
          else (false, true, <[ch := subs']> s)
      end
  end.

Definition wcKey (sid ch : string) : string := sid +:+ String ":"%char ch.

Definition addWildcardSub (h : HubSubs) (ch : string) (sub : Subscriber)
    : option (result TopicError bool * HubSubs) :=
  let key := wcKey (sr_sid (sb_Session sub)) ch in
  match hs_wcSubs h !! key with
  | Some _ => Some (Ok false, h)
  | None =>
      match m_Subscribe ch sub (hs_matcher h) with
      | None => None
      | Some (Err e, m') => Some (Err e, mkHubSubs (hs_shards h) m' (hs_wcSubs h))
      | Some (Ok _, m') =>
          Some (Ok true, mkHubSubs (hs_shards h) m' (<[key := (ch, sub)]> (hs_wcSubs h)))
      end
  end.

Definition AddSub (h : HubSubs) (ch : string) (sub : Subscriber)
    : option (result TopicError bool * HubSubs) :=
  if IsWildcard ch then addWildcardSub h ch sub
  else match ValidateTopic ch with
       | Err e => Some (Err e, h)
       | Ok _ => let '(b, s) := addSub (shard_at h ch) ch sub in Some (Ok b, set_shard h ch s)
       end.

Definition removeWildcardSub (h : HubSubs) (ch : string) (c : SessRef)
    : option (bool * bool * HubSubs) :=
  let key := wcKey (sr_sid c) ch in
  match hs_wcSubs h !! key with
  | None => Some (true, false, h)
  | Some (topic, sub) =>
      match m_Unsubscribe topic sub (hs_matcher h) with
      | None => None
      | Some m' => Some (true, true, mkHubSubs (hs_shards h) m' (delete key (hs_wcSubs h)))
      end
  end.

Definition RemoveSub (h : HubSubs) (ch : string) (c : SessRef) : option (bool * bool * HubSubs) :=
  if IsWildcard ch then removeWildcardSub h ch c
  else let '(last, removed, s) := removeSub (shard_at h ch) ch (sr_sid c) in
       Some (last, removed, set_shard h ch s).

Definition LookupSubscriber (h : HubSubs) (ch : string) (c : SessRef) : option Subscriber :=
  if IsWildcard ch then snd <$> hs_wcSubs h !! wcKey (sr_sid c) ch
  else chan_subs h ch !! sr_sid c.

Definition GetSubscribers (h : HubSubs) (ch : string) : list SessRef :=
  (λ x, sb_Session x.2) <$> map_to_list (chan_subs h ch).

(** [matched[client.SessionID()] = client] for a list of sessions. *)
Definition merge_sessions (acc : gmap string SessRef) (l : list SessRef) : gmap string SessRef :=
  foldl (λ m c, <[sr_sid c := c]> m) acc l.

Definition mergeMatchingSubscribers (h : HubSubs) (ch : string) : option (gmap string SessRef) :=
  match m_Lookup ch (hs_matcher h) with
  | None => None
  | Some l =>
      Some (merge_sessions (merge_sessions ∅ (GetSubscribers h ch)) (sb_Session <$> l))
  end.

(** The closure [add] of PresenceRecipients. *)
Definition add_recipient (m : gmap string (SessRef * bool)) (s : Subscriber)
    : gmap string (SessRef * bool) :=
  let c := sb_Session s in
  match m !! sr_sid c with
  | Some (_, existing) =>
      if existing && negb (sb_Ephemeral s) then <[sr_sid c := (c, false)]> m else m
  | None => <[sr_sid c := (c, sb_Ephemeral s)]> m
  end.

Definition PresenceRecipients (h : HubSubs) (ch : string) : option (gmap string (SessRef * bool)) :=
  match m_Lookup ch (hs_matcher h) with
  | None => None
  | Some l => Some (foldl add_recipient ∅ ((snd <$> map_to_list (chan_subs h ch)) ++ l))
  end.

(** The channels of all shards with their subscriber counts, before sorting. *)
Definition GetActiveChannels (h : HubSubs) : gmap string nat :=
  map_fold (λ _ (s : subShard) acc,
    map_fold (λ ch subs acc, if bool_decide (0 < size subs) then <[ch := size subs]> acc else acc)
      acc s) ∅ (hs_shards h).

(** One iteration of the loop of recordDeliveredOffsets. *)
Definition record_one (offset : Z) (subs : gmap string Subscriber) (cd : SessRef * bool)
    : gmap string Subscriber :=
  let '(client, delivered) := cd in
  if negb delivered then subs
  else match subs !! sr_sid client with
       | None => subs
       | Some sub =>
           if (sb_DeliveredOffset sub <? offset)%Z
           then <[sr_sid client := mkSubscriber (sb_Session sub) (sb_Ephemeral sub) offset]> subs
           else subs
       end.

Definition recordDeliveredOffsets (h : HubSubs) (ch : string) (offset : Z)
    (cds : list (SessRef * bool)) : HubSubs :=
  if IsWildcard ch || bool_decide (length cds = 0) then h
  else match shard_at h ch !! ch with
       | None => h
       | Some subs => set_shard h ch (<[ch := foldl (record_one offset) subs cds]> (shard_at h ch))
       end.

(** ** Broadcasting *)

(** [BroadcastPublications]: each publication comes with the identifier drawn
    for it if it is transient.  The result lists for every client the frame of
    its encoding and whether the send succeeded. *)
Definition BroadcastPublications {J Enc} (w : Wire J Enc) (h : HubSubs) (ch : string)
    (pubs : list (Stream.Publication * string))
    : option (list (SessRef * option string * bool) * HubSubs) :=
  match pubs with
  | [] => Some ([], h)
  | _ :: _ =>
      match mergeMatchingSubscribers h ch with
      | None => None
      | Some subscribers =>
          if bool_decide (size subscribers = 0) then Some ([], h)
          else
            let clients := snd <$> map_to_list subscribers in
            let maxOffset := foldl Z.max 0%Z (Stream.Offset ∘ fst <$> pubs) in
            let msgs := (λ p, makeMessage w ch p.1 p.2) <$> pubs in
            let sends := sendOne w pubs.*1 msgs <$> clients in
            let h' := if (0 <? maxOffset)%Z
                      then recordDeliveredOffsets h ch maxOffset ((λ s, (s.1.1, s.2)) <$> sends)
                      else h in
            Some (sends, h')
      end
  end.

(** ** Operations and the abstract registry *)

Inductive op :=
| OAdd (ch : string) (sub : Subscriber)
| ORemove (ch : string) (c : SessRef).

Inductive out := RAdd (r : result TopicError bool) | RRemove (last removed : bool).

Definition exec_op (h : HubSubs) (o : op) : option (out * HubSubs) :=
  match o with
  | OAdd ch sub => '(r, h') ← AddSub h ch sub; Some (RAdd r, h')
  | ORemove ch c => '(last, removed, h') ← RemoveSub h ch c; Some (RRemove last removed, h')
  end.

(** The abstract registry: (key, session ID) -> subscriber. *)
Abbreviation registry := (gmap (string * string) Subscriber).

(** Some session is subscribed to the key. *)
Definition has_key (r : registry) (ch : string) : bool :=
  existsb (λ '((k, _), _), bool_decide (k = ch)) (map_to_list r).

Definition spec_op (r : registry) (o : op) : out * registry :=
  match o with
  | OAdd ch sub =>
      let sid := sr_sid (sb_Session sub) in
      if negb (validTopic ch) then (RAdd (Err ErrBadTopic), r)
      else if IsWildcard ch then
        match r !! (ch, sid) with
        | Some _ => (RAdd (Ok false), r)
        | None => (RAdd (Ok true), <[(ch, sid) := sub]> r)
        end
      else (RAdd (Ok (negb (has_key r ch))), <[(ch, sid) := sub]> r)
  | ORemove ch c =>
      match r !! (ch, sr_sid c) with
      | None => (RRemove true false, r)
      | Some _ =>
          let r' := delete (ch, sr_sid c) r in
          (RRemove (IsWildcard ch || negb (has_key r' ch)) true, r')
      end
  end.

(** What the subscribe handlers guarantee of their arguments: session IDs
    without ":", and wildcard keys that passed ValidateChannel and
    CompileInterest. *)
Definition op_ok (o : op) : Prop :=
  match o with
  | OAdd ch sub =>
      has_char ":" (sr_sid (sb_Session sub)) = false ∧
      (IsWildcard ch = true → ValidateChannel ch = Ok tt ∧ ∃ ci, CompileInterest ch = Some (Ok ci))
  | ORemove _ c => has_char ":" (sr_sid c) = false
  end.

(** ** Simulation *)

Context `{!MatcherLaws trailing_wildcard Subscriber M}.

Record reg_ok (r : registry) : Prop := {
  ro_sid : ∀ p sid sub, r !! (p, sid) = Some sub →
    sr_sid (sb_Session sub) = sid ∧ has_char ":" sid = false;
  ro_wild : ∀ p sid sub, r !! (p, sid) = Some sub → IsWildcard p = true → ValidateChannel p = Ok tt;
}.

Record sim (h : HubSubs) (r : registry) : Prop := {
  sm_reg : reg_ok r;
  sm_exact : ∀ ch sid, IsWildcard ch = false → chan_subs h ch !! sid = r !! (ch, sid);
  sm_shards : ∀ k s ch subs, hs_shards h !! k = Some s → s !! ch = Some subs →
    k = shard_idx ch ∧ subs ≠ ∅ ∧ IsWildcard ch = false;
  sm_wc : ∀ key p sub, hs_wcSubs h !! key = Some (p, sub) ↔
    IsWildcard p = true ∧ ∃ sid, key = wcKey sid p ∧ r !! (p, sid) = Some sub;
  sm_matcher : ∃ R, m_repr (hs_matcher h) R ∧ ∀ ws sub, (ws, sub) ∈ R ↔
    ∃ p sid, IsWildcard p = true ∧ r !! (p, sid) = Some sub ∧ ws = SplitSegments p;
}.

Lemma has_key_spec r ch : has_key r ch = true ↔ ∃ sid sub, r !! (ch, sid) = Some sub.
Proof.
  unfold has_key. rewrite existsb_exists. split.
  - intros ([[k sid] sub] & Hin%list_elem_of_In%elem_of_map_to_list & Hk). bool_hyps. subst. eauto.
  - intros (sid & sub & Hin). exists (ch, sid, sub).
    split; [by apply list_elem_of_In, elem_of_map_to_list|]. by apply bool_decide_eq_true.
Qed.

Lemma wcKey_inj s1 p1 s2 p2 :
  has_char ":" s1 = false → has_char ":" s2 = false → wcKey s1 p1 = wcKey s2 p2 → s1 = s2 ∧ p1 = p2.
Proof. apply str_sep_inj. Qed.

Lemma shard_at_set h ch s x :
  shard_at (set_shard h ch s) x = if decide (shard_idx ch = shard_idx x) then s else shard_at h x.
Proof. unfold shard_at, set_shard. simpl. rewrite lookup_insert. by case_decide. Qed.

Lemma chan_subs_other h ch s x :
  (∀ y, y ≠ ch → s !! y = shard_at h ch !! y) → x ≠ ch →
  chan_subs (set_shard h ch s) x = chan_subs h x.
Proof.
  intros Hs Hx. unfold chan_subs. rewrite shard_at_set. case_decide as Hi; [|done].
  rewrite Hs by done. unfold shard_at. by rewrite Hi.
Qed.

Lemma chan_subs_same h ch s : chan_subs (set_shard h ch s) ch = default ∅ (s !! ch).
Proof. unfold chan_subs. rewrite shard_at_set. by rewrite decide_True. Qed.

Lemma map_nonempty_iff {A} (m : gmap string A) : m ≠ ∅ ↔ ∃ k x, m !! k = Some x.
Proof. split; [apply map_choose|]. intros (k & x & Hk) ->. done. Qed.

(** A shard entry for [ch] is present exactly when some session subscribes. *)
Lemma shard_entry h r ch :
  sim h r → IsWildcard ch = false → shard_at h ch !! ch = None ↔ has_key r ch = false.
Proof.
  intros Hs Hw. rewrite <-not_true_iff_false, has_key_spec. split.
  - intros Hn (sid & sub & Hr). rewrite <-(sm_exact _ _ Hs) in Hr by done.
    unfold chan_subs in Hr. by rewrite Hn in Hr.
  - intros Hno. destruct (shard_at h ch !! ch) as [subs|] eqn:Hsh; [exfalso|done].
    assert (subs ≠ ∅) as (sid & sub & Hsub)%map_choose.
    { unfold shard_at in Hsh. destruct (hs_shards h !! shard_idx ch) as [s|] eqn:Hk; [|done].
      by apply (sm_shards _ _ Hs _ _ _ _ Hk) in Hsh as (_ & ? & _). }
    apply Hno. exists sid, sub. rewrite <-(sm_exact _ _ Hs) by done. unfold chan_subs. by rewrite Hsh.
Qed.

Lemma hub_sim_new : sim NewHubSubs ∅.
Proof.
  split; simpl; try done.
  - intros key p sub. rewrite lookup_empty. split; [done|]. intros (_ & sid & _ & ?). done.
  - exists ∅. split; [apply m_new_repr|]. intros ws sub. split; [set_solver|].
    intros (p & sid & _ & ? & _). done.
Qed.

Lemma reg_ok_insert r ch sub :
  reg_ok r → has_char ":" (sr_sid (sb_Session sub)) = false →
  (IsWildcard ch = true → ValidateChannel ch = Ok tt) →
  reg_ok (<[(ch, sr_sid (sb_Session sub)) := sub]> r).
Proof.
  intros [Hs Hw] Hc Hv. split; intros p sid sub'; rewrite lookup_insert; case_decide;
    simplify_eq; try done; intros; simplify_eq; eauto.
Qed.

Lemma reg_ok_delete r x : reg_ok r → reg_ok (delete x r).
Proof.
  intros [Hs Hw]. split; intros p sid sub; rewrite lookup_delete; case_decide; try done; eauto.
Qed.

(** Replacing the entry of [ch] in its shard, for an exact channel. *)
Lemma sim_exact_update h r ch s' r' :
  sim h r → IsWildcard ch = false → reg_ok r' →
  (∀ y, y ≠ ch → s' !! y = shard_at h ch !! y) →
  (∀ sid, default ∅ (s' !! ch) !! sid = r' !! (ch, sid)) → s' !! ch ≠ Some ∅ →
  (∀ p sid, p ≠ ch → r' !! (p, sid) = r !! (p, sid)) →
  sim (set_shard h ch s') r'.
Proof.
  intros Hs Hw Hreg Hother Hch Hne Hr. split; simpl.
  - done.
  - intros x sid Hx. destruct (decide (x = ch)) as [->|Hd]; [by rewrite chan_subs_same|].
    rewrite chan_subs_other, Hr by done. by apply Hs.
  - intros k s x subs. rewrite lookup_insert. case_decide as Hk; [|apply Hs].
    intros [= <-] Hx. destruct (decide (x = ch)) as [->|Hd].
    { split_and!; [done| |done]. intros ->. done. }
    rewrite Hother in Hx by done. unfold shard_at in Hx.
    destruct (hs_shards h !! shard_idx ch) as [s0|] eqn:Hs0; [|done]. simpl in Hx.
    rewrite <-Hk. by apply (sm_shards _ _ Hs _ _ _ _ Hs0 Hx).
  - intros key p sub. rewrite (sm_wc _ _ Hs). split; intros (Hp & sid & -> & Hsub);
      (split; [done|]); exists sid; (split; [done|]); by rewrite Hr in * by congruence.
  - destruct (sm_matcher _ _ Hs) as (R & HR & Hin). exists R. split; [done|]. intros ws sub.
    rewrite Hin. split; intros (p & sid & Hp & Hsub & ->); exists p, sid;
      (split; [done|]); (split; [|done]); by rewrite Hr in * by congruence.
Qed.

Lemma sim_add_exact h r ch sub :
  sim h r → IsWildcard ch = false → has_char ":" (sr_sid (sb_Session sub)) = false →
  sim (set_shard h ch (addSub (shard_at h ch) ch sub).2) (<[(ch, sr_sid (sb_Session sub)) := sub]> r).
Proof.
  intros Hs Hw Hc. apply (sim_exact_update h r); simpl; try done.
  - apply reg_ok_insert; [apply Hs|done|congruence].
  - intros y Hy. by rewrite lookup_insert_ne.
  - intros sid. rewrite lookup_insert_eq. simpl. rewrite !lookup_insert.
    case_decide as Hd; [by rewrite decide_True by (by rewrite Hd)|].
    rewrite decide_False by congruence. by apply (sm_exact _ _ Hs).
  - rewrite lookup_insert_eq. intros [= He]. by apply insert_non_empty in He.
  - intros p sid Hp. by rewrite lookup_insert_ne by congruence.
Qed.

Lemma sim_remove_exact h r ch sid sub :
  sim h r → IsWildcard ch = false → r !! (ch, sid) = Some sub →
  let '(last, removed, s) := removeSub (shard_at h ch) ch sid in
  let r' := delete (ch, sid) r in
  last = negb (has_key r' ch) ∧ removed = true ∧ sim (set_shard h ch s) r'.
Proof.
  intros Hs Hw Hr. pose proof Hr as Hsub. rewrite <-(sm_exact _ _ Hs) in Hsub by done.
  unfold chan_subs in Hsub. destruct (shard_at h ch !! ch) as [subs|] eqn:Hch; [|done]. simpl in Hsub.
  assert (∀ s', (∀ y, y ≠ ch → s' !! y = shard_at h ch !! y) → default ∅ (s' !! ch) = delete sid subs →
    s' !! ch ≠ Some ∅ → sim (set_shard h ch s') (delete (ch, sid) r)) as Hsim.
  { intros s' Hy Hs' Hne. apply (sim_exact_update h r); try done.
    - apply reg_ok_delete, Hs.
    - intros x. rewrite Hs', !lookup_delete. case_decide as Hd; [by rewrite decide_True by (by rewrite Hd)|].
      rewrite decide_False by congruence. rewrite <-(sm_exact _ _ Hs) by done.
      unfold chan_subs. by rewrite Hch.
    - intros p x Hp. by rewrite lookup_delete_ne by congruence. }
  assert (has_key (delete (ch, sid) r) ch = true ↔ delete sid subs ≠ ∅) as Hkey.
  { rewrite has_key_spec, map_nonempty_iff. setoid_rewrite lookup_delete. split.
    - intros (x & sub' & Hx). exists x, sub'. case_decide as Hd; [done|]. rewrite decide_False by congruence.
      rewrite <-(sm_exact _ _ Hs) in Hx by done. unfold chan_subs in Hx. by rewrite Hch in Hx.
    - intros (x & sub' & Hx). exists x, sub'. case_decide as Hd; [done|]. rewrite decide_False by congruence.
      rewrite <-(sm_exact _ _ Hs) by done. unfold chan_subs. by rewrite Hch. }
  unfold removeSub. rewrite Hch, Hsub. case_bool_decide as Hsz.
  - apply map_size_empty_inv in Hsz. split_and!; [|done|].
    + destruct (has_key _ ch); [|done]. by destruct (proj1 Hkey eq_refl).
    + apply Hsim; [intros y Hy; by rewrite lookup_delete_ne| |]; rewrite lookup_delete_eq; done.
  - assert (delete sid subs ≠ ∅) as Hne by (intros He; by rewrite He, map_size_empty in Hsz).
    split_and!; [|done|].
    + by rewrite (proj2 Hkey).
    + apply Hsim; [intros y Hy; by rewrite lookup_insert_ne| |]; rewrite lookup_insert_eq; [done|congruence].
Qed.

Lemma sim_add_wild h r ch sub :
  sim h r → op_ok (OAdd ch sub) → IsWildcard ch = true → r !! (ch, sr_sid (sb_Session sub)) = None →
  ∃ h', addWildcardSub h ch sub = Some (Ok true, h') ∧
        sim h' (<[(ch, sr_sid (sb_Session sub)) := sub]> r).
Proof.
  intros Hs [Hc Hok] Hw Hnone. destruct (Hok Hw) as [Hvc [ci Hci]].
  set (sid := sr_sid (sb_Session sub)) in *.
  assert (hs_wcSubs h !! wcKey sid ch = None) as Hfresh.
  { apply eq_None_not_Some. intros [[p sub'] (Hp & sid' & Hkey & Hr)%(sm_wc _ _ Hs)].
    apply wcKey_inj in Hkey as [<- <-]; [congruence|done|]. by eapply (ro_sid _ (sm_reg _ _ Hs)). }
  destruct (sm_matcher _ _ Hs) as (R & HR & Hin).
  assert (validTopic ch = true ∧ trailing_wildcard (SplitSegments ch)) as [Hv Ht].
  { destruct (compile_cases ch) as [[_ ?]|[(Hv & Hform & _)|(_ & _ & _ & ?)]]; [congruence| |congruence].
    split; [done|]. destruct Hform as [?|Hr]; [unfold IsWildcard in Hw; congruence|by apply routable_trailing]. }
  destruct (m_Subscribe_repr (hs_matcher h) R ch sub HR Hv Ht) as (m' & Hrun & HR').
  unfold addWildcardSub. fold sid. rewrite Hfresh, Hrun. eexists. split; [done|]. split; simpl.
  - by apply reg_ok_insert; [apply Hs|..].
  - intros x y Hx. rewrite lookup_insert_ne by congruence. by apply Hs.
  - apply Hs.
  - intros key p sub'. rewrite lookup_insert. case_decide as Hk.
    + split; [intros [= -> ->]; split; [done|]; exists sid; by rewrite lookup_insert_eq|].
      intros (Hp & sid' & -> & Hr). assert (sid' = sid ∧ p = ch) as [-> ->].
      { rewrite lookup_insert in Hr. case_decide; [by simplify_eq|].
        apply wcKey_inj in Hk; [naive_solver|done|]. by eapply (ro_sid _ (sm_reg _ _ Hs)). }
      rewrite lookup_insert_eq in Hr. by simplify_eq.
    + rewrite (sm_wc _ _ Hs). split; intros (Hp & sid' & -> & Hr); (split; [done|]); exists sid';
        (split; [done|]); rewrite lookup_insert_ne in * by congruence; done.
  - exists ({[(SplitSegments ch, sub)]} ∪ R). split; [done|]. intros ws sub'.
    rewrite elem_of_union, elem_of_singleton, Hin. split.
    + intros [[= -> ->]|(p & sid' & Hp & Hr & ->)]; [exists ch, sid; by rewrite lookup_insert_eq|].
      exists p, sid'. rewrite lookup_insert_ne by congruence. done.
    + intros (p & sid' & Hp & Hr & ->). rewrite lookup_insert in Hr.
      case_decide; [left; by simplify_eq|right; eauto].
Qed.

Lemma sim_remove_wild h r ch sid sub :
  sim h r → has_char ":" sid = false → IsWildcard ch = true → r !! (ch, sid) = Some sub →
  ∃ m', hs_wcSubs h !! wcKey sid ch = Some (ch, sub) ∧ m_Unsubscribe ch sub (hs_matcher h) = Some m' ∧
    sim (mkHubSubs (hs_shards h) m' (delete (wcKey sid ch) (hs_wcSubs h))) (delete (ch, sid) r).
Proof.
  intros Hs Hc Hw Hr. destruct (sm_matcher _ _ Hs) as (R & HR & Hin).
  destruct (m_Unsubscribe_repr (hs_matcher h) R ch sub HR) as (m' & Hrun & HR').
  exists m'. split; [apply (sm_wc _ _ Hs); eauto|]. split; [done|].
  pose proof (sm_reg _ _ Hs) as [Hsid Hwild]. split; simpl.
  - by apply reg_ok_delete.
  - intros x y Hx. rewrite lookup_delete_ne by congruence. by apply Hs.
  - apply Hs.
  - intros key p sub'. rewrite lookup_delete. case_decide as Hk.
    + split; [done|]. intros (Hp & sid' & -> & Hr'). rewrite lookup_delete in Hr'.
      case_decide as Hd; [done|]. apply wcKey_inj in Hk; [naive_solver|done|]. by eapply Hsid.
    + rewrite (sm_wc _ _ Hs). split; intros (Hp & sid' & -> & Hr'); (split; [done|]); exists sid';
        (split; [done|]); rewrite lookup_delete_ne in * by congruence; done.
  - exists (R ∖ {[(SplitSegments ch, sub)]}). split; [done|]. intros ws sub'.
    rewrite elem_of_difference, elem_of_singleton, Hin. split.
    + intros [(p & sid' & Hp & Hr' & ->) Hne]. exists p, sid'. rewrite lookup_delete_ne; [done|].
      intros [= <- <-]. apply Hne. congruence.
    + intros (p & sid' & Hp & Hr' & ->). rewrite lookup_delete in Hr'. case_decide as Hd; [done|].
      split; [eauto|]. intros [= Hseg ->]. apply Hd.
      assert (p = ch) as -> by (apply ValidateChannel_inj; eauto).
      destruct (Hsid _ _ _ Hr) as [<- _], (Hsid _ _ _ Hr') as [<- _]. done.
Qed.

Lemma hub_exec_op_sim h r o :
  sim h r → op_ok o →
  ∃ h', exec_op h o = Some ((spec_op r o).1, h') ∧ sim h' (spec_op r o).2.
Proof.
  intros Hs Hok. destruct o as [ch sub|ch c]; cbn [exec_op spec_op].
  - unfold AddSub, ValidateTopic. destruct (IsWildcard ch) eqn:Hw.
    + destruct Hok as [Hc Hok]. destruct (Hok Hw) as [Hvc [ci Hci]].
      assert (validTopic ch = true) as ->.
      { destruct (compile_cases ch) as [[_ ?]|[(Hv & _)|(Hv & _)]]; [congruence|done..]. }
      cbn [negb]. destruct (r !! (ch, sr_sid (sb_Session sub))) as [sub'|] eqn:Hr.
      * exists h. unfold addWildcardSub.
        rewrite (proj2 (sm_wc _ _ Hs _ ch sub')) by eauto. done.
      * destruct (sim_add_wild h r ch sub) as (h' & -> & Hs'); [done..|by split|done|done|]. by exists h'.
    + destruct (validTopic ch); cbn [negb]; [|by exists h].
      pose proof (sim_add_exact h r ch sub Hs Hw (proj1 Hok)) as Hs'.
      unfold addSub in *. cbn. eexists. split; [|exact Hs']. do 4 f_equal.
      destruct (has_key r ch) eqn:Hk; simpl.
      * apply bool_decide_eq_false. rewrite (shard_entry h r) by done. congruence.
      * apply bool_decide_eq_true. by apply (shard_entry h r).
  - unfold RemoveSub. destruct (IsWildcard ch) eqn:Hw.
    + unfold removeWildcardSub. destruct (r !! (ch, sr_sid c)) as [sub|] eqn:Hr.
      * destruct (sim_remove_wild h r ch (sr_sid c) sub) as (m' & -> & -> & Hs'); [done..|]. cbn. eauto.
      * destruct (hs_wcSubs h !! wcKey (sr_sid c) ch) as [[p sub]|] eqn:Hk; [exfalso|by exists h].
        apply (sm_wc _ _ Hs) in Hk as (Hp & sid & Hk & Hr').
        apply wcKey_inj in Hk as [<- <-]; [congruence|done|]. by eapply (ro_sid _ (sm_reg _ _ Hs)).
    + destruct (r !! (ch, sr_sid c)) as [sub|] eqn:Hr.
      * pose proof (sim_remove_exact h r ch (sr_sid c) sub Hs Hw Hr) as Hrm.
        destruct (removeSub _ _ _) as [[last removed] s]. destruct Hrm as (-> & -> & Hs'). cbn. eauto.
      * rewrite <-(sm_exact _ _ Hs) in Hr by done. unfold removeSub, chan_subs in *.
        assert (sim (set_shard h ch (shard_at h ch)) r) as Hsame.
        { apply (sim_exact_update h r); try done; [apply Hs| |].
          - intros sid. by apply (sm_exact _ _ Hs).
          - intros He. unfold shard_at in He. destruct (hs_shards h !! shard_idx ch) as [s|] eqn:Hk; [|done].
            by apply (sm_shards _ _ Hs _ _ _ _ Hk) in He as (_ & ? & _). }
        destruct (shard_at h ch !! ch) as [subs|]; simpl in Hr; rewrite ?Hr; cbn; eauto.
Qed.

(** ** Sequences and recipients *)

Fixpoint exec (ops : list op) (h : HubSubs) : option (list out * HubSubs) :=
  match ops with
  | [] => Some ([], h)
  | o :: ops' => '(x, h1) ← exec_op h o; '(xs, h2) ← exec ops' h1; Some (x :: xs, h2)
  end.

Fixpoint spec_exec (ops : list op) (r : registry) : list out * registry :=
  match ops with
  | [] => ([], r)
  | o :: ops' =>
      let '(x, r1) := spec_op r o in let '(xs, r2) := spec_exec ops' r1 in (x :: xs, r2)
  end.

Lemma hub_exec_sim ops : ∀ h r, sim h r → Forall op_ok ops →
  ∃ h', exec ops h = Some ((spec_exec ops r).1, h') ∧ sim h' (spec_exec ops r).2.
Proof.
  induction ops as [|o ops IH]; intros h r Hs Hok; cbn [exec spec_exec]; [by exists h|].
  apply Forall_cons in Hok as [Ho Hok]. destruct (hub_exec_op_sim h r o Hs Ho) as (h1 & -> & Hs1).
  destruct (spec_op r o) as [x r1]. cbn. destruct (IH h1 r1 Hs1 Hok) as (h2 & -> & Hs2).
  cbn in Hs2 |- *. destruct (spec_exec ops r1) as [xs r2]. cbn in *. eauto.
Qed.

(** The subscriptions of session [sid] that cover [ch]. *)
Definition covering (r : registry) (ch sid : string) (sub : Subscriber) : Prop :=
  ∃ key, r !! (key, sid) = Some sub ∧ key_covers key ch = true.

(** Every covering subscription is seen by the two lookups, and nothing else. *)
Lemma lookups_cover h r ch :
  sim h r →
  ∃ l, m_Lookup ch (hs_matcher h) = Some l ∧
    ∀ sub, sub ∈ (snd <$> map_to_list (chan_subs h ch)) ++ l ↔
           covering r ch (sr_sid (sb_Session sub)) sub.
Proof.
  intros Hs. destruct (sm_matcher _ _ Hs) as (R & HR & Hin).
  destruct (m_Lookup_repr (hs_matcher h) R ch HR) as (l & Hl & _ & Hmem). exists l. split; [done|].
  intros sub. rewrite elem_of_app, Hmem. unfold covering, key_covers.
  pose proof (sm_reg _ _ Hs) as [Hsid _].
  assert (sub ∈ (snd <$> map_to_list (chan_subs h ch)) ↔ IsWildcard ch = false ∧
    r !! (ch, sr_sid (sb_Session sub)) = Some sub) as ->.
  { rewrite list_elem_of_fmap. split.
    - intros ([sid sub'] & -> & Hx%elem_of_map_to_list). simpl.
      assert (IsWildcard ch = false) as Hw.
      { unfold chan_subs in Hx. destruct (shard_at h ch !! ch) as [subs|] eqn:Hc; [|done].
        unfold shard_at in Hc. destruct (hs_shards h !! shard_idx ch) as [s|] eqn:Hk; [|done].
        by apply (sm_shards _ _ Hs _ _ _ _ Hk) in Hc as (_ & _ & ?). }
      rewrite (sm_exact _ _ Hs) in Hx by done. split; [done|]. by destruct (Hsid _ _ _ Hx) as [-> _].
    - intros [Hw Hr]. exists (sr_sid (sb_Session sub), sub). split; [done|].
      apply elem_of_map_to_list. by rewrite (sm_exact _ _ Hs). }
  split.
  - intros [[Hw Hr]|(Hne & ps & (p & sid & Hp & Hr & ->)%Hin & Hm)].
    + exists ch. rewrite Hw. split; [done|]. by apply bool_decide_eq_true.
    + exists p. rewrite Hp. destruct (Hsid _ _ _ Hr) as [-> _]. split; [done|].
      unfold Match. by apply matchCriteria_segs.
  - intros (key & Hr & Hk). destruct (IsWildcard key) eqn:Hw.
    + right. apply matchCriteria_segs in Hk as [Hne Hm]. split; [done|].
      exists (SplitSegments key). split; [|done]. apply Hin. eauto 6.
    + left. bool_hyps. by subst key.
Qed.

Lemma merge_sessions_spec l : ∀ acc sid,
  (is_Some (merge_sessions acc l !! sid) ↔ is_Some (acc !! sid) ∨ ∃ c, c ∈ l ∧ sr_sid c = sid) ∧
  (∀ c, merge_sessions acc l !! sid = Some c → acc !! sid = Some c ∨ (c ∈ l ∧ sr_sid c = sid)).
Proof.
  induction l as [|x l IH]; intros acc sid; simpl; [set_solver|].
  destruct (IH (<[sr_sid x := x]> acc) sid) as [H1 H2]. split.
  - unfold merge_sessions in *. simpl. rewrite H1, lookup_insert. setoid_rewrite elem_of_cons.
    case_decide; [|naive_solver]. split; [eauto|]. intros _. left. eauto.
  - intros c Hc. apply H2 in Hc. rewrite lookup_insert in Hc. setoid_rewrite elem_of_cons.
    case_decide; naive_solver.
Qed.

Lemma covering_list h r ch sid l (P : Subscriber → Prop) :
  sim h r →
  (∀ sub, sub ∈ (snd <$> map_to_list (chan_subs h ch)) ++ l ↔ covering r ch (sr_sid (sb_Session sub)) sub) →
  (∃ s, s ∈ (snd <$> map_to_list (chan_subs h ch)) ++ l ∧ sr_sid (sb_Session s) = sid ∧ P s) ↔
  ∃ sub, covering r ch sid sub ∧ P sub.
Proof.
  intros Hs Hcov. split.
  - intros (s & Hin & <- & HP). apply Hcov in Hin. eauto.
  - intros (s & Hc & HP). pose proof Hc as (key & Hr & _).
    destruct (ro_sid _ (sm_reg _ _ Hs) _ _ _ Hr) as [Hsid _]. subst sid. exists s. rewrite Hcov. auto.
Qed.

Lemma merge_covers h r ch :
  sim h r →
  ∃ m, mergeMatchingSubscribers h ch = Some m ∧
    ∀ sid, (is_Some (m !! sid) ↔ ∃ sub, covering r ch sid sub) ∧
      (∀ c, m !! sid = Some c → sr_sid c = sid ∧ ∃ sub, covering r ch sid sub ∧ sb_Session sub = c).
Proof.
  intros Hs. destruct (lookups_cover h r ch Hs) as (l & Hl & Hcov).
  unfold mergeMatchingSubscribers. rewrite Hl. eexists. split; [done|]. intros sid.
  set (m := merge_sessions _ _).
  assert (m = merge_sessions ∅ (sb_Session <$> ((snd <$> map_to_list (chan_subs h ch)) ++ l))) as ->.
  { unfold m, GetSubscribers, merge_sessions. rewrite fmap_app, foldl_app. by rewrite <-list_fmap_compose. }
  destruct (merge_sessions_spec (sb_Session <$> ((snd <$> map_to_list (chan_subs h ch)) ++ l)) ∅ sid)
    as [Hm1 Hm2].
  split.
  - rewrite Hm1, lookup_empty. setoid_rewrite list_elem_of_fmap.
    destruct (covering_list h r ch sid l (λ _, True) Hs Hcov) as [Hx1 Hx2].
    split; [|naive_solver]. intros [[]%is_Some_None|(c & (s & -> & Hin) & Hsid)].
    destruct Hx1 as (sub & ? & _); eauto.
  - intros c Hc. apply Hm2 in Hc as [Hc|[(s & -> & Hin)%list_elem_of_fmap Hsid]]; [done|].
    split; [done|]. apply (covering_list h r ch sid l (λ sub, sb_Session sub = sb_Session s)); eauto.
Qed.

(** Folding [add_recipient] keeps one entry per session, tracked as soon as one
    of its subscriptions is not ephemeral. *)
Definition seen (m : gmap string (SessRef * bool)) (sid : string) : option bool := snd <$> m !! sid.

Lemma add_recipients_spec l : ∀ m sid,
  seen (foldl add_recipient m l) sid =
  foldl (λ (o : option bool) s, if decide (sr_sid (sb_Session s) = sid)
         then Some (default true o && sb_Ephemeral s) else o) (seen m sid) l.
Proof.
  induction l as [|s l IH]; intros m sid; simpl; [done|]. rewrite IH. f_equal.
  unfold seen, add_recipient. destruct (m !! sr_sid (sb_Session s)) as [[c e]|] eqn:Hm.
  - destruct e, (sb_Ephemeral s) eqn:He; simpl; try (case_decide; [subst; by rewrite Hm|done]).
    rewrite lookup_insert. case_decide; [subst; by rewrite Hm|done].
  - rewrite lookup_insert. case_decide; [subst; by rewrite Hm|done].
Qed.

Lemma seen_fold l sid : ∀ o,
  let f := foldl (λ (o : option bool) s, if decide (sr_sid (sb_Session s) = sid)
         then Some (default true o && sb_Ephemeral s) else o) o l in
  (is_Some f ↔ is_Some o ∨ ∃ s, s ∈ l ∧ sr_sid (sb_Session s) = sid) ∧
  (f = Some false ↔ o = Some false ∨ ∃ s, s ∈ l ∧ sr_sid (sb_Session s) = sid ∧ sb_Ephemeral s = false).
Proof.
  induction l as [|s l IH]; intros o; simpl; [set_solver|].
  destruct (IH (if decide (sr_sid (sb_Session s) = sid)
         then Some (default true o && sb_Ephemeral s) else o)) as [-> ->].
  rewrite !exists_elem_cons. set (E1 := ∃ y, y ∈ l ∧ _). set (E2 := ∃ y, y ∈ l ∧ _). clearbody E1 E2.
  case_decide as Hd; [|tauto]. split.
  - split; [|by eauto]. intros _. by right; left.
  - destruct o as [[]|], (sb_Ephemeral s) eqn:He; simpl; intuition congruence.
Qed.

(** Every recipient is stored under its session ID. *)
Lemma add_recipients_keys l : ∀ m,
  map_Forall (λ sid (x : SessRef * bool), sr_sid x.1 = sid) m →
  map_Forall (λ sid (x : SessRef * bool), sr_sid x.1 = sid) (foldl add_recipient m l).
Proof.
  induction l as [|s l IH]; intros m Hm; simpl; [done|]. apply IH. unfold add_recipient.
  destruct (m !! sr_sid (sb_Session s)) as [[c e]|]; [destruct (e && _)|];
    try apply map_Forall_insert_2; done.
Qed.

(** PresenceRecipients of a hub that represents the registry [r]. *)
Lemma presence_recipients_covers h r ch :
  sim h r →
  ∃ pr, PresenceRecipients h ch = Some pr ∧
    map_Forall (λ sid (x : SessRef * bool), sr_sid x.1 = sid) pr ∧ ∀ sid,
    (is_Some (pr !! sid) ↔ ∃ sub, covering r ch sid sub) ∧
    (snd <$> pr !! sid = Some false ↔ ∃ sub, covering r ch sid sub ∧ sb_Ephemeral sub = false).
Proof.
  intros Hs. destruct (lookups_cover h r ch Hs) as (l & Hl & Hcov).
  unfold PresenceRecipients. rewrite Hl. eexists. split; [done|].
  split; [by apply add_recipients_keys|]. intros sid. set (pr := foldl _ _ _).
  destruct (seen_fold ((snd <$> map_to_list (chan_subs h ch)) ++ l) sid None) as [Hp1 Hp2].
  assert (seen pr sid = snd <$> pr !! sid) as Hseen by done.
  unfold pr in Hseen. rewrite add_recipients_spec in Hseen. fold pr in Hseen.
  change (seen ∅ sid) with (@None bool) in Hseen. rewrite Hseen in Hp1, Hp2. split.
  - rewrite <-(fmap_is_Some snd), Hp1.
    destruct (covering_list h r ch sid l (λ _, True) Hs Hcov) as [Hx1 Hx2].
    split; [|naive_solver]. intros [[]%is_Some_None|(s & Hin & Hsid)]. destruct Hx1 as (sub & ? & _); eauto.
  - rewrite Hp2, (covering_list h r ch sid l (λ sub, sb_Ephemeral sub = false) Hs Hcov). naive_solver.
Qed.

(** C9: recipients are exactly the covered sessions.  After any sequence of
    AddSub and RemoveSub calls with validated arguments, every call has
    returned what the abstract registry of (key, session) pairs returns, and
    for every channel the fan-out set holds each session at most once, namely
    the sessions with an exact subscription of the channel or a pattern that
    matches it; PresenceRecipients holds the same sessions, marked tracked
    exactly when one of the covering subscriptions is not ephemeral. *)
Theorem hub_recipients_exact ops ch :
  Forall op_ok ops →
  let '(outs, r) := spec_exec ops ∅ in
  ∃ h m pr, exec ops NewHubSubs = Some (outs, h) ∧
    mergeMatchingSubscribers h ch = Some m ∧ PresenceRecipients h ch = Some pr ∧
    ∀ sid, (is_Some (m !! sid) ↔ ∃ sub, covering r ch sid sub) ∧
      (∀ c, m !! sid = Some c → ∃ sub, covering r ch sid sub ∧ sb_Session sub = c) ∧
      (is_Some (pr !! sid) ↔ ∃ sub, covering r ch sid sub) ∧
      (snd <$> pr !! sid = Some false ↔ ∃ sub, covering r ch sid sub ∧ sb_Ephemeral sub = false).
Proof.
  intros Hok. destruct (hub_exec_sim ops NewHubSubs ∅ hub_sim_new Hok) as (h & Hrun & Hs).
  destruct (spec_exec ops ∅) as [outs r]. cbn in Hrun, Hs.
  destruct (merge_covers h r ch Hs) as (m & Hm & Hmc).
  destruct (presence_recipients_covers h r ch Hs) as (pr & Hpr & _ & Hprc).
  exists h, m, pr. do 3 (split; [done|]). intros sid.
  destruct (Hmc sid) as [Hm1 Hm2]. destruct (Hprc sid) as [Hp1 Hp2]. split_and!; [done|naive_solver|done|done].
Qed.

(** ** Delivered offsets *)

Definition delivered_to (cds : list (SessRef * bool)) (sid : string) : bool :=
  existsb (λ cd : SessRef * bool, cd.2 && bool_decide (sr_sid cd.1 = sid)) cds.

(** The subscriber record after a batch of maximal offset [off]. *)
Definition raise_offset (off : Z) (sub : Subscriber) : Subscriber :=
  mkSubscriber (sb_Session sub) (sb_Ephemeral sub) (sb_DeliveredOffset sub `max` off).

Lemma record_fold off cds : ∀ subs sid,
  foldl (record_one off) subs cds !! sid =
  (λ sub, if delivered_to cds sid then raise_offset off sub else sub) <$> subs !! sid.
Proof.
  induction cds as [|[c d] cds IH]; intros subs sid; cbn [foldl].
  { simpl. by destruct (subs !! sid). }
  rewrite IH. cbn [record_one delivered_to existsb fst snd]. destruct d; cbn [negb andb]; [|done].
  destruct (subs !! sr_sid c) as [sub|] eqn:Hc; last first.
  { case_bool_decide as Hs; [subst; by rewrite Hc|done]. }
  destruct (Z.ltb_spec (sb_DeliveredOffset sub) off) as [Hlt|Hge].
  - rewrite lookup_insert. case_bool_decide as Hs; [rewrite decide_True by done; subst sid|by rewrite decide_False].
    rewrite Hc. simpl. f_equal. fold (delivered_to cds (sr_sid c)). unfold raise_offset. simpl.
    destruct (delivered_to cds _); f_equal; lia.
  - case_bool_decide as Hs; [subst sid|done]. rewrite Hc. simpl. f_equal.
    fold (delivered_to cds (sr_sid c)). unfold raise_offset.
    destruct (delivered_to cds _); [done|]. destruct sub; simpl in *. f_equal. lia.
Qed.

Lemma record_chan_subs h ch off cds x :
  IsWildcard ch = false →
  chan_subs (recordDeliveredOffsets h ch off cds) x =
  if decide (x = ch) then foldl (record_one off) (chan_subs h ch) cds else chan_subs h x.
Proof.
  intros Hw. unfold recordDeliveredOffsets. rewrite Hw. simpl. case_bool_decide as Hl.
  { apply nil_length_inv in Hl as ->. simpl. case_decide; by subst. }
  destruct (shard_at h ch !! ch) as [subs|] eqn:Hs.
  - case_decide as Hd; [subst|].
    + rewrite chan_subs_same, lookup_insert_eq. unfold chan_subs. by rewrite Hs.
    + apply chan_subs_other; [|done]. intros y Hy. by rewrite lookup_insert_ne.
  - case_decide as Hd; [subst|done]. unfold chan_subs. rewrite Hs. simpl.
    apply map_eq. intros sid. by rewrite record_fold, lookup_empty.
Qed.

Lemma fold_max_ge l : ∀ a, (a ≤ foldl Z.max a l)%Z ∧ (∀ x, x ∈ l → (x ≤ foldl Z.max a l)%Z).
Proof.
  induction l as [|x l IH]; intros a; simpl; [set_solver by lia|].
  destruct (IH (a `max` x)%Z) as [H1 H2]. split; [lia|]. intros y [->|?]%elem_of_cons; [lia|auto].
Qed.

Lemma publicationID_inj c1 o1 c2 o2 :
  (0 ≤ o1)%Z → (0 ≤ o2)%Z → publicationID c1 o1 = publicationID c2 o2 → c1 = c2 ∧ o1 = o2.
Proof.
  intros H1 H2 Heq. apply str_last_sep_inj in Heq as [-> Hp]; [|by apply pretty_N_no_char..].
  split; [done|]. apply (inj pretty) in Hp. lia.
Qed.

(** The computed form of a broadcast of a non-empty batch. *)
Lemma broadcast_sends {J Enc} (w : Wire J Enc) h ch pubs m :
  mergeMatchingSubscribers h ch = Some m → pubs ≠ [] →
  let sends := sendOne w pubs.*1 ((λ p, makeMessage w ch p.1 p.2) <$> pubs) <$> (snd <$> map_to_list m) in
  let maxOffset := foldl Z.max 0%Z (Stream.Offset ∘ fst <$> pubs) in
  BroadcastPublications w h ch pubs = Some (sends,
    if (0 <? maxOffset)%Z
    then recordDeliveredOffsets h ch maxOffset ((λ s, (s.1.1, s.2)) <$> sends) else h).
Proof.
  intros Hm Hne sends maxOffset. unfold BroadcastPublications. rewrite Hm. destruct pubs as [|p pubs]; [done|].
  case_bool_decide as Hz; [|done]. apply map_size_empty_inv in Hz as ->.
  subst sends. rewrite map_to_list_empty. simpl.
  unfold recordDeliveredOffsets. simpl. rewrite orb_true_r. by destruct (_ <? _)%Z.
Qed.

Lemma jsonRaws_length {J Enc} (w : Wire J Enc) pubs : ∀ raws,
  jsonRaws w pubs = Some raws → length raws = length pubs.
Proof.
  induction pubs as [|p pubs IH]; intros raws; cbn [jsonRaws]; [by intros [= <-]|].
  case_match; [|done]. intros (rs & Hrs & ->)%fmap_Some. simpl. by rewrite (IH rs).
Qed.

(** A batch of JSON objects reaches a JSON client with the payloads' own bytes. *)
Lemma marshalFrame_raw {J Enc} (w : Wire J Enc) pubs msgs m raws pieces lst :
  jsonRaws w pubs = Some raws → IsJSONWire w m = true →
  MarshalAppend w m (placeholder w <$> zip pubs msgs) = Some (Splice.frame_of pieces lst) →
  Forall Splice.point_free pieces → Splice.point_free lst → length pieces = length pubs →
  marshalFrame w pubs msgs m = Some (Splice.spliced pieces raws lst).
Proof.
  intros Hr Hj Hm Hp Hl Hlen. unfold marshalFrame. rewrite Hr, Hj, Hm. unfold Splice.spliceRawJSONPayloads.
  rewrite (proj1 (Splice.splice_loop_pieces lst pieces Hl Hp raws ""));
    [by rewrite str_app_nil_l|]. by rewrite (jsonRaws_length _ _ _ Hr).
Qed.

(** Who is sent a frame: the sessions of the merged subscriber map, once each. *)
Lemma sends_sessions {J Enc} (w : Wire J Enc) pubs msgs (m : gmap string SessRef) :
  (∀ sid c, m !! sid = Some c → sr_sid c = sid) →
  ((λ x, sr_sid x.1.1) <$> (sendOne w pubs msgs <$> (snd <$> map_to_list m))) = (map_to_list m).*1.
Proof.
  intros Hm. rewrite <-!list_fmap_compose. apply list_fmap_ext. intros i [sid c] Hi. simpl.
  apply (Hm sid). apply elem_of_map_to_list, list_elem_of_lookup. eauto.
Qed.

(** One broadcast.  For a hub reached by admissible operations and a
    non-empty batch: each session covered by the channel, and no other, is sent
    exactly one frame, marshalled for its encoding from the whole batch in
    order; a batch of JSON objects reaches JSON clients with the payloads' own
    bytes in place; recoverable messages have distinct IDs; and the delivered
    offset of exactly the subscriptions whose send succeeded is raised to the
    batch maximum, never lowered. *)
Theorem broadcast_exact {J Enc} (w : Wire J Enc) ops outs r h ch pubs :
  Forall op_ok ops → spec_exec ops ∅ = (outs, r) → exec ops NewHubSubs = Some (outs, h) →
  pubs ≠ [] → IsWildcard ch = false →
  let maxOffset := foldl Z.max 0%Z (Stream.Offset ∘ fst <$> pubs) in
  let msgs := (λ p, makeMessage w ch p.1 p.2) <$> pubs in
  ∃ sends h', BroadcastPublications w h ch pubs = Some (sends, h') ∧
    NoDup ((λ x, sr_sid x.1.1) <$> sends) ∧
    (∀ sid, sid ∈ ((λ x, sr_sid x.1.1) <$> sends) ↔ ∃ sub, covering r ch sid sub) ∧
    (∀ c f d, (c, f, d) ∈ sends →
       let m := currentMarshaler w c in
       (jsonRaws w pubs.*1 = None ∨ IsJSONWire w m = false → f = MarshalAppend w m msgs) ∧
       (∀ raws pieces lst, jsonRaws w pubs.*1 = Some raws → IsJSONWire w m = true →
          MarshalAppend w m (placeholder w <$> zip pubs.*1 msgs) = Some (Splice.frame_of pieces lst) →
          Forall Splice.point_free pieces → Splice.point_free lst → length pieces = length pubs →
          f = Some (Splice.spliced pieces raws lst)) ∧
       (d = true ↔ ∃ b, f = Some b ∧ sendFrame w c b m = true)) ∧
    (∀ p q, p ∈ pubs → q ∈ pubs → (0 < Stream.Offset p.1)%Z → (0 < Stream.Offset q.1)%Z →
       msg_Id (makeMessage w ch p.1 p.2) = msg_Id (makeMessage w ch q.1 q.2) →
       Stream.Offset p.1 = Stream.Offset q.1) ∧
    (∀ sid sub, chan_subs h ch !! sid = Some sub → (0 < maxOffset)%Z →
       ∃ sub', chan_subs h' ch !! sid = Some sub' ∧ sb_Session sub' = sb_Session sub ∧
         sb_DeliveredOffset sub' =
         if existsb (λ x, bool_decide (sr_sid x.1.1 = sid) && x.2) sends
         then (sb_DeliveredOffset sub `max` maxOffset)%Z else sb_DeliveredOffset sub) ∧
    (∀ x, x ≠ ch → chan_subs h' x = chan_subs h x).
Proof.
  intros Hok Hspec Hrun Hne Hw maxOffset msgs.
  destruct (hub_exec_sim ops NewHubSubs ∅ hub_sim_new Hok) as (h0 & Hrun' & Hs).
  rewrite Hspec in Hrun', Hs. cbn in Hrun', Hs. rewrite Hrun in Hrun'. simplify_eq.
  destruct (merge_covers h0 r ch Hs) as (m & Hm & Hmc).
  pose proof (broadcast_sends w h0 ch pubs m Hm Hne) as Hb. cbv zeta in Hb.
  fold maxOffset msgs in Hb. rewrite Hb. clear Hb. eexists _, _. split; [done|].
  rewrite (sends_sessions w pubs.*1 msgs m) by apply Hmc.
  split; [apply NoDup_fst_map_to_list|]. split.
  { intros sid. rewrite <-(proj1 (Hmc sid)), list_elem_of_fmap. split.
    - intros ([sid' c] & -> & Hin%elem_of_map_to_list). eauto.
    - intros [c Hc]. exists (sid, c). split; [done|]. by apply elem_of_map_to_list. }
  split.
  { intros c f d (c' & Heq & _)%list_elem_of_fmap. unfold sendOne in Heq. simplify_eq. cbv zeta.
    split; [|split].
    - intros Hor. unfold marshalFrame. by destruct Hor as [->| ->]; [|destruct (jsonRaws _ _)].
    - intros raws pieces lst Hr Hj Hma Hp Hl Hlen. apply marshalFrame_raw; try done. by rewrite length_fmap.
    - destruct (marshalFrame _ _ _ _) as [b|]; naive_solver. }
  split.
  { intros [p up] [q uq] _ _ Hp Hq. simpl in *. unfold publicationMessageID.
    rewrite (proj2 (Z.ltb_lt 0 (Stream.Offset p))), (proj2 (Z.ltb_lt 0 (Stream.Offset q))) by done.
    intros Heq. apply publicationID_inj in Heq; [naive_solver|lia..]. }
  set (sends := sendOne w pubs.*1 msgs <$> _). split.
  - intros sid sub Hsub Hmax. rewrite (proj2 (Z.ltb_lt 0 maxOffset)) by done.
    rewrite record_chan_subs, decide_True, record_fold, Hsub by done. simpl. eexists. split; [done|].
    assert (delivered_to ((λ s, (s.1.1, s.2)) <$> sends) sid =
      existsb (λ x : SessRef * option string * bool, bool_decide (sr_sid x.1.1 = sid) && x.2) sends) as <-.
    { unfold delivered_to. clear. induction sends as [|c cl IH]; [done|].
      rewrite !fmap_cons. cbn [existsb fst snd]. by rewrite IH, andb_comm. }
    by destruct (delivered_to _ sid).
  - intros x Hx. destruct (0 <? maxOffset)%Z; [|done]. by rewrite record_chan_subs, decide_False.
Qed.

End Subs.

(** ** Concrete hub, with the trie as matcher *)

Abbreviation trie := (CSTrie.heap (Sub:=Subscriber)).

Definition ref (n : positive) (sid : string) : SessRef := mkRef n sid.

Definition ops0 : list op :=
  [OAdd "acme:im.x" (NewSubscriber (ref 1 "s1") true); OAdd "acme:im.*" (NewSubscriber (ref 1 "s1") false);
   OAdd "acme:im.x" (NewSubscriber (ref 2 "s2") true); OAdd "acme:im.**" (NewSubscriber (ref 3 "s3") true);
   OAdd "acme:im." (NewSubscriber (ref 3 "s3") true); ORemove "acme:im.**" (ref 3 "s3")].

Lemma ops0_ok : Forall op_ok ops0.
Proof.
  assert (∀ ch sub, has_char ":" (sr_sid (sb_Session sub)) = false → IsWildcard ch = false →
    op_ok (OAdd ch sub)) as Hexact by (intros ch sub Hs Hw; split; [done|by rewrite Hw]).
  assert (∀ ch sub, has_char ":" (sr_sid (sb_Session sub)) = false → ValidateChannel ch = Ok tt →
    (match CompileInterest ch with Some (Ok _) => true | _ => false end) = true →
    op_ok (OAdd ch sub)) as Hwild.
  { intros ch sub Hs Hv Hc. split; [done|]. intros _. split; [done|].
    destruct (CompileInterest ch) as [[ci|]|]; [eauto|discriminate..]. }
  unfold ops0. apply Forall_cons; split; [apply Hexact; vm_compute; reflexivity|].
  apply Forall_cons; split; [apply Hwild; vm_compute; reflexivity|].
  apply Forall_cons; split; [apply Hexact; vm_compute; reflexivity|].
  apply Forall_cons; split; [apply Hwild; vm_compute; reflexivity|].
  apply Forall_cons; split; [apply Hexact; vm_compute; reflexivity|].
  apply Forall_cons; split; [vm_compute; reflexivity|]. apply Forall_nil. exact I.
Qed.

Lemma hub_recipients_exact_witness :
  ∃ h m pr, exec (M:=trie) ops0 NewHubSubs = Some ((spec_exec ops0 ∅).1, h) ∧
    mergeMatchingSubscribers h "acme:im.x" = Some m ∧ PresenceRecipients h "acme:im.x" = Some pr ∧
    is_Some (m !! "s1") ∧ snd <$> pr !! "s1" = Some false.
Proof.
  pose proof (hub_recipients_exact (M:=trie) ops0 "acme:im.x" ops0_ok) as Hrec.
  destruct (spec_exec ops0 ∅) as [outs r] eqn:Hs.
  destruct Hrec as (h & m & pr & Hrun & Hm & Hpr & Hsid). exists h, m, pr.
  split; [exact Hrun|]. split; [exact Hm|]. split; [exact Hpr|].
  destruct (Hsid "s1") as (H1 & _ & _ & H4).
  assert (covering r "acme:im.x" "s1" (NewSubscriber (ref 1 "s1") false)) as Hc.
  { exists "acme:im.*". assert (r = (spec_exec ops0 ∅).2) as -> by (rewrite Hs; reflexivity).
    split; vm_compute; reflexivity. }
  split; [apply H1; eauto|apply H4; eauto].
Defined.

(** Two encodings, JSON ([true]) and binary; the JSON frame of a batch is a
    brace, the placeholders, a brace. *)
Definition wire0 : Wire unit bool := mkWire (λ c, bool_decide (sr_sid c = "s1")) id
  (λ m msgs, Some (if m then Splice.frame_of (replicate (length msgs) "{") "}" else "frame"))
  (λ c _ _, bool_decide (sr_sid c ≠ "s2")) (λ _, Some tt) tt (λ _, true) id.

Definition pubs0 : list (Stream.Publication * string) :=
  [(Stream.stamp (Stream.with_payload (Stream.emptyPub "" ∅) "application/json" "{1}" Stream.PayloadKindJSON)
      "acme:im.x" 7 "e" 0, "u")].

Lemma broadcast_exact_witness :
  ∃ h sends h' c f d, exec (M:=trie) ops0 NewHubSubs = Some ((spec_exec ops0 ∅).1, h) ∧
    BroadcastPublications wire0 h "acme:im.x" pubs0 = Some (sends, h') ∧
    NoDup ((λ x, sr_sid x.1.1) <$> sends) ∧
    (c, f, d) ∈ sends ∧ sr_sid c = "s1" ∧ f = Some ("{" +:+ Splice.keep +:+ "{1}}").
Proof.
  destruct (hub_exec_sim (M:=trie) ops0 NewHubSubs ∅ hub_sim_new ops0_ok) as (h & Hrun & _).
  destruct (broadcast_exact (M:=trie) wire0 ops0 (spec_exec ops0 ∅).1 (spec_exec ops0 ∅).2 h "acme:im.x" pubs0)
    as (sends & h' & Hb & Hnd & Hwho & Hframe & _);
    [exact ops0_ok|apply surjective_pairing|exact Hrun|discriminate|reflexivity|].
  assert (∃ sub, covering (spec_exec ops0 ∅).2 "acme:im.x" "s1" sub) as Hcov%(Hwho "s1")%list_elem_of_fmap.
  { exists (NewSubscriber (ref 1 "s1") false), "acme:im.*". split; vm_compute; reflexivity. }
  destruct Hcov as ([[c f] d] & Hc & Hin).
  exists h, sends, h', c, f, d. split; [exact Hrun|]. split; [exact Hb|]. split; [exact Hnd|].
  split; [exact Hin|]. simpl in Hc. split; [symmetry; exact Hc|].
  destruct (Hframe _ _ _ Hin) as (_ & Hraw & _).
  assert (IsJSONWire wire0 (currentMarshaler wire0 c) = true) as Hj.
  { unfold wire0. cbn [IsJSONWire currentMarshaler]. rewrite <-Hc. reflexivity. }
  apply (Hraw ["{1}"] ["{"] "}"); [reflexivity|exact Hj| |repeat constructor|reflexivity|reflexivity].
  change (currentMarshaler wire0 c = true) in Hj. rewrite Hj. reflexivity.
Defined.

End HubSubs.
