(* ===== verification/NodeSubs.v ===== *)
(** * NodeSubs: subscribing and unsubscribing on a node
      (internal/runtime/node.go, subscription_saga.go, cluster_resume.go;
       session side in internal/session/runtime.go)

    A subscription change touches the hub, the session's own channel set, the
    broker's interest counts and two cluster records.  The code runs these as a
    saga: steps with compensations.  The broker and the cluster store are
    interfaces here, both may fail; the memory broker discharges the broker's
    laws. *)

From S2P Require Import Prelude Topics Matcher Interest Hub HubSubs MemoryBroker CSTrie.
Import Topics Matcher Interest HubSubs.

Module NodeSubs.

Definition isSome {A} (o : option A) : bool := match o with Some _ => true | None => false end.

(** ** The saga runner (subscription_saga.go) *)

Section Saga.
Context {S E : Type}.

(** A step returns its error, if any; [None] outside is a call that does not
    return. *)
Record subSagaStep := mkStep {
  st_name : string;
  st_commit : S → option (option E * S);
  st_rollback : S → option S;
}.

(** [rollback_all done] undoes the executed steps, the latest first ([done] is
    in reverse order of execution). *)
Fixpoint rollback_all (done : list subSagaStep) (s : S) : option S :=
  match done with
  | [] => Some s
  | st :: rest => s' ← st_rollback st s; rollback_all rest s'
  end.

Fixpoint saga_loop (done steps : list subSagaStep) (s : S) : option (option (string * E) * S) :=
  match steps with
  | [] => Some (None, s)
  | st :: rest =>
      '(err, s') ← st_commit st s;
      match err with
      | None => saga_loop (st :: done) rest s'
      | Some e => s'' ← rollback_all done s'; Some (Some (st_name st, e), s'')
      end
  end.

Definition runSubSaga (steps : list subSagaStep) (s : S) : option (option (string * E) * S) :=
  saga_loop [] steps s.

(** *** Atomicity of sagas

    [R s v]: the state [s] shows the view [v].  A step is compensable from [v]
    to [v'] when its failure leaves the view, its success establishes [v'], and
    its rollback leads from [v'] back to [v]. *)
Context {V : Type} (R : S → V → Prop).

Record compensable (st : subSagaStep) (v v' : V) : Prop := {
  cp_commit s : R s v → ∃ err s', st_commit st s = Some (err, s') ∧
    match err with None => R s' v' | Some _ => R s' v end;
  cp_rollback s : R s v' → ∃ s', st_rollback st s = Some s' ∧ R s' v;
}.

Inductive compensable_all : V → list subSagaStep → V → Prop :=
  | ca_nil v : compensable_all v [] v
  | ca_cons v v1 v2 st rest :
      compensable st v v1 → compensable_all v1 rest v2 → compensable_all v (st :: rest) v2.

Lemma rollback_all_back done : ∀ v0 v s,
  compensable_all v0 (rev done) v → R s v → ∃ s', rollback_all done s = Some s' ∧ R s' v0.
Proof.
  induction done as [|st done IH]; intros v0 v s Hc Hs; simpl in *.
  { inversion Hc; subst. eauto. }
  assert (∃ v1, compensable_all v0 (rev done) v1 ∧ compensable st v1 v) as (v1 & Hd & Hst).
  { clear IH Hs. revert v0 Hc. induction (rev done) as [|st' l IHl]; intros v0 Hc; simpl in Hc.
    - inversion Hc as [|? v1 ? ? ? H1 H2]; subst. inversion H2; subst. exists v0. split; [constructor|done].
    - inversion Hc as [|? v1 ? ? ? H1 H2]; subst. destruct (IHl _ H2) as (w & Hw & ?).
      exists w. split; [by econstructor|done]. }
  destruct (cp_rollback _ _ _ Hst s Hs) as (s' & -> & Hs'). simpl. by eapply IH.
Qed.

Lemma compensable_all_snoc l : ∀ v0 v st v',
  compensable_all v0 l v → compensable st v v' → compensable_all v0 (l ++ [st]) v'.
Proof.
  induction l as [|x l IH]; intros v0 v st v' Hl Hst; inversion Hl; subst; simpl.
  - econstructor; [done|constructor].
  - econstructor; [done|]. by eapply IH.
Qed.

(** All steps, or none: an error leaves the initial view. *)
Lemma saga_atomic steps v v' s :
  compensable_all v steps v' → R s v →
  ∃ err s', runSubSaga steps s = Some (err, s') ∧
    match err with None => R s' v' | Some _ => R s' v end.
Proof.
  unfold runSubSaga. intros Hall Hs.
  assert (∀ steps done v1 s, compensable_all v (rev done) v1 → compensable_all v1 steps v' → R s v1 →
    ∃ err s', saga_loop done steps s = Some (err, s') ∧
      match err with None => R s' v' | Some _ => R s' v end) as Hgen.
  { clear s Hs steps Hall. induction steps as [|st rest IH]; intros done v1 s Hd Hr Hs; simpl.
    - inversion Hr; subst. eauto.
    - inversion Hr as [|? v2 ? ? ? Hst Hrest]; subst.
      destruct (cp_commit _ _ _ Hst s Hs) as (err & s' & -> & Hs'). simpl. destruct err as [e|].
      + destruct (rollback_all_back done v v1 s' Hd Hs') as (s'' & -> & Hs''). simpl. eauto.
      + apply (IH (st :: done) v2); [|done..]. simpl. by eapply compensable_all_snoc. }
  apply (Hgen steps [] v); [constructor|done..].
Qed.

(** A step that cannot commit makes the saga fail. *)
Lemma saga_blocked pre st post v v1 s err s' :
  compensable_all v pre v1 → (∀ t, R t v1 → ∃ e t', st_commit st t = Some (Some e, t')) → R s v →
  runSubSaga (pre ++ st :: post) s = Some (err, s') → isSome err = true.
Proof.
  unfold runSubSaga. generalize (@nil subSagaStep) as done. intros done Hpre Hst.
  revert done s. induction Hpre as [v|v v2 v3 x rest Hx Hrest IH]; intros done s Hs; simpl.
  - destruct (Hst s Hs) as (e & t' & ->). simpl. destruct (rollback_all done t'); [|done]. by intros [= <- <-].
  - destruct (cp_commit _ _ _ Hx s Hs) as ([e|] & t' & -> & Ht); simpl; [|by apply IH].
    destruct (rollback_all done t'); [|done]. by intros [= <- <-].
Qed.

End Saga.

#[global] Arguments subSagaStep : clear implicits.

(** ** Interfaces *)

(** What the node uses of the broker; [false] is an error. *)
Class SubBroker (B : Type) := {
  b_Subscribe : string → B → option (bool * B);
  b_Unsubscribe : string → B → option (bool * B);
}.

(** A broker keeps one interest count per key; failed calls change nothing. *)
Class SubBrokerLaws (B : Type) `{SubBroker B} := {
  b_wf : B → Prop;
  b_refs : B → string → nat;
  b_Subscribe_spec b ch : b_wf b → ∃ ok b', b_Subscribe ch b = Some (ok, b') ∧ b_wf b' ∧
    ∀ x, b_refs b' x = if ok && bool_decide (x = ch) then S (b_refs b x) else b_refs b x;
  b_Unsubscribe_spec b ch : b_wf b → ∃ ok b', b_Unsubscribe ch b = Some (ok, b') ∧ b_wf b' ∧
    ∀ x, b_refs b' x = if ok && bool_decide (x = ch) then pred (b_refs b x) else b_refs b x;
}.

(** What is written for a session: channel -> (ephemeral, delivered offset). *)
Abbreviation Snapshot := (gmap string (bool * Z)).

(** The cluster's session directory and query store; [false] is an error. *)
Class ClusterStore (C : Type) := {
  c_sync : SessRef → Snapshot → C → bool * C;
  c_adjust : string → Z → C → bool * C;
}.

(** ** The node *)

Section Node.
Context {M B C : Type} `{Matcher Subscriber M, SubBroker B, ClusterStore C}.

Abbreviation Hub := (HubSubs.HubSubs (M:=M)).

(** The part of [Node] and of its sessions a subscription change touches.
    [n_tracked] and [n_closed] are the sessions' [subscribedChannels] and
    closed states.  [n_ignored] counts the errors of compensating broker calls,
    which the code discards ([_ = n.broker.Unsubscribe(ch)]). *)
Record Node := mkNode {
  n_hub : Hub;
  n_tracked : gmap SessRef (gset string);
  n_closed : gset SessRef;
  n_broker : B;
  n_cluster : C;
  n_ClusterEnabled : bool;
  n_ActiveChannels : Z;
  n_SubscriptionsTotal : Z;
  n_ignored : nat;
}.

Definition set_hub (n : Node) h := mkNode h (n_tracked n) (n_closed n) (n_broker n) (n_cluster n)
  (n_ClusterEnabled n) (n_ActiveChannels n) (n_SubscriptionsTotal n) (n_ignored n).
Definition set_tracked (n : Node) t := mkNode (n_hub n) t (n_closed n) (n_broker n) (n_cluster n)
  (n_ClusterEnabled n) (n_ActiveChannels n) (n_SubscriptionsTotal n) (n_ignored n).
Definition set_closed (n : Node) c := mkNode (n_hub n) (n_tracked n) c (n_broker n) (n_cluster n)
  (n_ClusterEnabled n) (n_ActiveChannels n) (n_SubscriptionsTotal n) (n_ignored n).
Definition set_broker (n : Node) b dActive ignored := mkNode (n_hub n) (n_tracked n) (n_closed n) b
  (n_cluster n) (n_ClusterEnabled n) (n_ActiveChannels n + dActive)%Z (n_SubscriptionsTotal n)
  (n_ignored n + ignored).
Definition set_cluster (n : Node) c := mkNode (n_hub n) (n_tracked n) (n_closed n) (n_broker n) c
  (n_ClusterEnabled n) (n_ActiveChannels n) (n_SubscriptionsTotal n) (n_ignored n).
Definition add_total (n : Node) (d : Z) := mkNode (n_hub n) (n_tracked n) (n_closed n) (n_broker n)
  (n_cluster n) (n_ClusterEnabled n) (n_ActiveChannels n) (n_SubscriptionsTotal n + d)%Z (n_ignored n).

(** *** Sessions (session/runtime.go) *)

Definition SubscribedChannels (n : Node) (c : SessRef) : gset string := default ∅ (n_tracked n !! c).

Definition ForceTrackChannel (n : Node) (c : SessRef) (ch : string) : Node :=
  set_tracked n (<[c := {[ ch ]} ∪ SubscribedChannels n c]> (n_tracked n)).

Definition UntrackChannel (n : Node) (c : SessRef) (ch : string) : Node :=
  set_tracked n (<[c := SubscribedChannels n c ∖ {[ ch ]}]> (n_tracked n)).

(** The channel set of [Session.AdoptIdentity], rebuilt from the snapshot. *)
Definition AdoptChannels (n : Node) (c : SessRef) (subscriptions : list string) : Node :=
  set_tracked n (<[c := list_to_set subscriptions]> (n_tracked n)).

(** Returns [true], and writes nothing, on a closed session. *)
Definition TrackChannel (n : Node) (c : SessRef) (ch : string) : bool * Node :=
  if bool_decide (c ∈ n_closed n) then (true, n) else (false, ForceTrackChannel n c ch).

(** The start of [Session.Close] and [Session.Fence]. *)
Definition MarkClosed (n : Node) (c : SessRef) : Node := set_closed n ({[ c ]} ∪ n_closed n).

(** *** Cluster records (cluster_state.go) *)

(** The snapshot's subscriptions and channel offsets (a zero offset is the
    absent entry). *)
Definition clusterSessionSnapshot (n : Node) (c : SessRef) : Snapshot :=
  set_to_map (λ ch,
    (ch, match LookupSubscriber (n_hub n) ch c with
         | Some sub => (sb_Ephemeral sub, sb_DeliveredOffset sub)
         | None => (false, 0%Z)
         end)) (SubscribedChannels n c).

Definition syncClusterSessionState (n : Node) (c : SessRef) : bool * Node :=
  if negb (n_ClusterEnabled n) then (true, n)
  else let '(ok, cl) := c_sync c (clusterSessionSnapshot n c) (n_cluster n) in (ok, set_cluster n cl).

Definition adjustClusterChannelSubscriptions (n : Node) (ch : string) (delta : Z) : bool * Node :=
  if negb (n_ClusterEnabled n) || bool_decide (ch = "") || (delta =? 0)%Z then (true, n)
  else let '(ok, cl) := c_adjust ch delta (n_cluster n) in (ok, set_cluster n cl).

(** *** Saga steps

    The state of a saga is the node and the variable ([first] or [last]) its
    closures share. *)

Inductive SubError :=
  EHub (e : TopicError) | EClosed | ENotFound | EBroker | ECluster.

Abbreviation SagaState := (Node * bool)%type.
Abbreviation step := (subSagaStep SagaState SubError).

Definition hub_add (ch : string) (sub : Subscriber) : SagaState → option (option SubError * SagaState) :=
  λ '(n, first),
    '(r, h) ← AddSub (n_hub n) ch sub;
    match r with
    | Err e => Some (Some (EHub e), (set_hub n h, first))
    | Ok first' => Some (None, (set_hub n h, first'))
    end.

Definition hub_readd (ch : string) (sub : Subscriber) : SagaState → option SagaState :=
  λ '(n, v), '(_, h) ← AddSub (n_hub n) ch sub; Some (set_hub n h, v).

Definition hub_remove (ch : string) (c : SessRef) : SagaState → option (option SubError * SagaState) :=
  λ '(n, _),
    '(last, removed, h) ← RemoveSub (n_hub n) ch c;
    Some (if removed : bool then None else Some ENotFound, (set_hub n h, last)).

Definition hub_unadd (ch : string) (c : SessRef) : SagaState → option SagaState :=
  λ '(n, v), '(_, _, h) ← RemoveSub (n_hub n) ch c; Some (set_hub n h, v).

(** A broker call guarded by the shared variable, with its metric. *)
Definition broker_commit (call : string → B → option (bool * B)) (d : Z) (ch : string)
    : SagaState → option (option SubError * SagaState) :=
  λ '(n, v),
    if negb v then Some (None, (n, v))
    else '(ok, b) ← call ch (n_broker n);
         if ok : bool then Some (None, (set_broker n b d 0, v))
         else Some (Some EBroker, (set_broker n b 0 0, v)).

(** The compensating call: its error is dropped, its metric always adjusted. *)
Definition broker_rollback (call : string → B → option (bool * B)) (d : Z) (ch : string)
    : SagaState → option SagaState :=
  λ '(n, v),
    if negb v then Some (n, v)
    else '(ok, b) ← call ch (n_broker n);
         Some (set_broker n b d (if ok : bool then 0 else 1), v).

Definition cluster_commit (call : Node → bool * Node) : SagaState → option (option SubError * SagaState) :=
  λ '(n, v), let '(ok, n') := call n in Some (if ok then None else Some ECluster, (n', v)).

Definition cluster_rollback (call : Node → bool * Node) : SagaState → option SagaState :=
  λ '(n, v), Some ((call n).2, v).

Definition add_steps (ch : string) (sub : Subscriber) : list step :=
  let c := sb_Session sub in
  [ mkStep "hub.addSub" (hub_add ch sub) (hub_unadd ch c);
    mkStep "track.client"
      (λ '(n, v), let '(closed, n') := TrackChannel n c ch in
                  Some (if closed then Some EClosed else None, (n', v)))
      (λ '(n, v), Some (UntrackChannel n c ch, v));
    mkStep "broker.Subscribe" (broker_commit b_Subscribe 1 ch) (broker_rollback b_Unsubscribe (-1) ch);
    mkStep "cluster.session" (cluster_commit (λ n, syncClusterSessionState n c))
      (cluster_rollback (λ n, syncClusterSessionState n c));
    mkStep "cluster.channel" (cluster_commit (λ n, adjustClusterChannelSubscriptions n ch 1))
      (cluster_rollback (λ n, adjustClusterChannelSubscriptions n ch (-1))) ].

Definition AddSubscription (n : Node) (ch : string) (sub : Subscriber)
    : option (option (string * SubError) * Node) :=
  match LookupSubscriber (n_hub n) ch (sb_Session sub) with
  | Some _ => Some (None, n)
  | None =>
      '(err, (n', _)) ← runSubSaga (add_steps ch sub) (n, false);
      match err with
      | Some e => Some (Some e, n')
      | None => Some (None, add_total n' 1)
      end
  end.

Definition remove_steps (ch : string) (c : SessRef) (subscriber : Subscriber) : list step :=
  [ mkStep "hub.removeSub" (hub_remove ch c) (hub_readd ch subscriber);
    mkStep "untrack.client" (λ '(n, v), Some (None, (UntrackChannel n c ch, v)))
      (λ '(n, v), Some (ForceTrackChannel n c ch, v));
    mkStep "broker.Unsubscribe" (broker_commit b_Unsubscribe (-1) ch) (broker_rollback b_Subscribe 1 ch);
    mkStep "cluster.session" (cluster_commit (λ n, syncClusterSessionState n c))
      (cluster_rollback (λ n, syncClusterSessionState n c));
    mkStep "cluster.channel" (cluster_commit (λ n, adjustClusterChannelSubscriptions n ch (-1)))
      (cluster_rollback (λ n, adjustClusterChannelSubscriptions n ch 1)) ].

Definition RemoveSubscription (n : Node) (ch : string) (c : SessRef)
    : option (option (string * SubError) * Node) :=
  match LookupSubscriber (n_hub n) ch c with
  | None => Some (None, n)
  | Some subscriber =>
      '(err, (n', _)) ← runSubSaga (remove_steps ch c subscriber) (n, false);
      match err with
      | Some e => Some (Some e, n')
      | None => Some (None, add_total n' (-1))
      end
  end.

(** *** Cross-node resume (cluster_resume.go) *)

Definition restoreLocalSubscription (n : Node) (ch : string) (sub : Subscriber)
    : option (option SubError * Node) :=
  match LookupSubscriber (n_hub n) ch (sb_Session sub) with
  | Some _ => Some (None, n)
  | None =>
      '(r, h) ← AddSub (n_hub n) ch sub;
      match r with
      | Err e => Some (Some (EHub e), set_hub n h)
      | Ok first =>
          let n1 := set_hub n h in
          let tracked n := add_total (ForceTrackChannel n (sb_Session sub) ch) 1 in
          if negb first then Some (None, tracked n1)
          else '(ok, b) ← b_Subscribe ch (n_broker n1);
               if ok : bool then Some (None, tracked (set_broker n1 b 1 0))
               else '(_, _, h') ← RemoveSub h ch (sb_Session sub);
                    Some (Some EBroker, set_hub (set_broker n1 b 0 0) h')
      end
  end.

(** The boolean tells whether the hub entry was removed. *)
Definition removeLocalSubscriptionOnly (n : Node) (ch : string) (c : SessRef) (updateMetrics : bool)
    : option (bool * option SubError * Node) :=
  '(last, removed, h) ← RemoveSub (n_hub n) ch c;
  let n0 := set_hub n h in
  if negb removed then Some (false, None, n0)
  else
    let n1 := UntrackChannel n0 c ch in
    let total n := if updateMetrics then add_total n (-1) else n in
    if negb last then Some (true, None, total n1)
    else '(ok, b) ← b_Unsubscribe ch (n_broker n1);
         if ok : bool then Some (true, None, total (set_broker n1 b (if updateMetrics then -1 else 0)%Z 0))
         else Some (true, Some EBroker, set_broker n1 b 0 0).

(** ** Operations, their specification and the invariant *)

Inductive op :=
  | OAdd (ch : string) (sub : Subscriber)          (* AddSubscription *)
  | ORemove (ch : string) (c : SessRef)            (* RemoveSubscription *)
  | ORestore (ch : string) (sub : Subscriber)      (* restoreLocalSubscription *)
  | OEvict (ch : string) (c : SessRef)             (* removeLocalSubscriptionOnly *)
  | OClose (c : SessRef)                           (* the state change of Close and Fence *)
  | OAdopt (c : SessRef) (subscriptions : list string)   (* a remote resume takes the session over *)
  | OUntrack (c : SessRef) (ch : string).          (* restoreSessionSubscriptions gives a channel up *)

(** Whether the call returned an error, and the new state. *)
Definition exec_op (n : Node) (o : op) : option (bool * Node) :=
  match o with
  | OAdd ch sub => '(e, n') ← AddSubscription n ch sub; Some (isSome e, n')
  | ORemove ch c => '(e, n') ← RemoveSubscription n ch c; Some (isSome e, n')
  | ORestore ch sub => '(e, n') ← restoreLocalSubscription n ch sub; Some (isSome e, n')
  | OEvict ch c => '(_, e, n') ← removeLocalSubscriptionOnly n ch c true; Some (isSome e, n')
  | OClose c => Some (false, MarkClosed n c)
  | OAdopt c subscriptions => Some (false, AdoptChannels n c subscriptions)
  | OUntrack c ch => Some (false, UntrackChannel n c ch)
  end.

(** The hub's abstract registry: (key, session ID) -> subscriber. *)
Abbreviation registry := (gmap (string * string) Subscriber).

Definition add_new (r : registry) (ch : string) (sub : Subscriber) : registry :=
  let k := (ch, sr_sid (sb_Session sub)) in
  match r !! k with Some _ => r | None => <[k := sub]> r end.

(** The subscriptions after an operation with the given outcome: a failed
    operation has no effect, except that an eviction removes the entry anyway. *)
Definition spec_op (r : registry) (o : op) (failed : bool) : registry :=
  match o with
  | OAdd ch sub | ORestore ch sub => if failed then r else add_new r ch sub
  | ORemove ch c => if failed then r else delete (ch, sr_sid c) r
  | OEvict ch c => delete (ch, sr_sid c) r
  | OClose _ | OAdopt _ _ | OUntrack _ _ => r
  end.

(** The channels an adopting session tracks and does not hold (yet). *)
Abbreviation seeds := (gmap SessRef (gset string)).

Definition pend (p : seeds) (c : SessRef) : gset string := default ∅ (p !! c).

Definition settle (p : seeds) (c : SessRef) (ch : string) : seeds := <[c := pend p c ∖ {[ ch ]}]> p.

Definition spec_pending (r : registry) (p : seeds) (o : op) (failed : bool) : seeds :=
  match o with
  | OAdd ch sub | ORestore ch sub => if failed then p else settle p (sb_Session sub) ch
  | ORemove ch c => if failed then p else if isSome (r !! (ch, sr_sid c)) then settle p c ch else p
  | OEvict ch c => if isSome (r !! (ch, sr_sid c)) then settle p c ch else p
  | OClose _ => p
  | OAdopt c subscriptions => <[c := list_to_set subscriptions]> p
  | OUntrack c ch => settle p c ch
  end.

(** How a resume uses a session: it adopts an identity whose session ID holds no
    subscription, it gives up channels it could not restore, and nobody subscribes
    the session to a channel that is about to be restored. *)
Definition legal (r : registry) (p : seeds) (o : op) : bool :=
  match o with
  | OAdopt c _ => bool_decide (map_Forall (λ k _, k.2 ≠ sr_sid c) r)
  | OUntrack c ch => negb (isSome (r !! (ch, sr_sid c)))
  | OAdd ch sub => bool_decide (ch ∉ pend p (sb_Session sub))
  | _ => true
  end.

(** No broker error was dropped: neither a compensating call's nor an eviction's. *)
Definition clean_op (n n' : Node) (o : op) (failed : bool) : bool :=
  bool_decide (n_ignored n' = n_ignored n) &&
  match o with OEvict _ _ => negb failed | _ => true end.

(** The broker interest a registry asks for: one count per exact key with
    subscribers, one per session for wildcard keys. *)
Definition key_of (k : string) (x : (string * string) * Subscriber) : Prop := x.1.1 = k.

#[export] Instance key_of_dec k x : Decision (key_of k x).
Proof. unfold key_of. apply _. Defined.

Definition demand (r : registry) (ch : string) : nat :=
  if IsWildcard ch then size (filter (key_of ch) r) else if has_key r ch then 1 else 0.

Context `{!MatcherLaws trailing_wildcard Subscriber M, !SubBrokerLaws B}.

(** [own]: the session object of a session ID. *)
Context (own : string → SessRef).

Definition key_ok (ch : string) (sub : Subscriber) : Prop :=
  HubSubs.op_ok (HubSubs.OAdd ch sub) ∧ validTopic ch = true.

Record node_inv (n : Node) (r : registry) (p : seeds) (clean : bool) : Prop := {
  ni_hub : sim (n_hub n) r;
  ni_keys : ∀ ch sid sub, r !! (ch, sid) = Some sub → key_ok ch sub;
  ni_tracked : ∀ c ch, own (sr_sid c) = c →
    ch ∈ SubscribedChannels n c ↔ is_Some (r !! (ch, sr_sid c)) ∨ ch ∈ pend p c;
  ni_wf : b_wf (n_broker n);
  ni_refs : clean = true → ∀ ch, b_refs (n_broker n) ch = demand r ch;
}.

Definition op_ok (o : op) : Prop :=
  match o with
  | OAdd ch sub | ORestore ch sub =>
      HubSubs.op_ok (HubSubs.OAdd ch sub) ∧ own (sr_sid (sb_Session sub)) = sb_Session sub
  | ORemove ch c | OEvict ch c => has_char ":" (sr_sid c) = false ∧ own (sr_sid c) = c
  | OClose _ | OAdopt _ _ | OUntrack _ _ => True
  end.

(** ** Hub lemmas *)

Lemma lookup_sim h r ch c :
  sim h r → has_char ":" (sr_sid c) = false → LookupSubscriber h ch c = r !! (ch, sr_sid c).
Proof.
  intros Hs Hc. unfold LookupSubscriber. destruct (IsWildcard ch) eqn:Hw; [|by apply (sm_exact _ _ Hs)].
  destruct (hs_wcSubs h !! wcKey (sr_sid c) ch) as [[p sub]|] eqn:Hk; simpl.
  - apply (sm_wc _ _ Hs) in Hk as (Hp & sid & Hkey & Hr).
    apply wcKey_inj in Hkey as [<- <-]; [done..|]. by apply (ro_sid _ (sm_reg _ _ Hs)) in Hr as [_ ?].
  - destruct (r !! (ch, sr_sid c)) as [sub|] eqn:Hr; [|done].
    assert (hs_wcSubs h !! wcKey (sr_sid c) ch = Some (ch, sub)) by (apply (sm_wc _ _ Hs); eauto).
    congruence.
Qed.

(** Whether an added key was new, and whether a removed one was the last. *)
Definition is_first (r : registry) (ch : string) : bool := IsWildcard ch || negb (has_key r ch).

Lemma AddSub_sim h r ch sub :
  sim h r → HubSubs.op_ok (HubSubs.OAdd ch sub) → r !! (ch, sr_sid (sb_Session sub)) = None →
  ∃ h', AddSub h ch sub =
      Some (if validTopic ch then Ok (is_first r ch) else Err ErrBadTopic, h') ∧
    sim h' (if validTopic ch then <[(ch, sr_sid (sb_Session sub)) := sub]> r else r).
Proof.
  intros Hs Hok Hr. destruct (hub_exec_op_sim h r _ Hs Hok) as (h' & He & Hs').
  cbn [HubSubs.exec_op HubSubs.spec_op] in He, Hs'. rewrite Hr in He, Hs'. unfold is_first.
  destruct (AddSub h ch sub) as [[x h1]|]; [|done].
  destruct (validTopic ch), (IsWildcard ch); cbn in He, Hs' |- *; simplify_eq; eauto.
Qed.

Lemma RemoveSub_sim h r ch c :
  sim h r → has_char ":" (sr_sid c) = false →
  ∃ h', RemoveSub h ch c =
      Some (match r !! (ch, sr_sid c) with
            | Some _ => is_first (delete (ch, sr_sid c) r) ch | None => true end,
            isSome (r !! (ch, sr_sid c)), h') ∧
    sim h' (delete (ch, sr_sid c) r).
Proof.
  intros Hs Hc. destruct (hub_exec_op_sim h r (HubSubs.ORemove ch c) Hs Hc) as (h' & He & Hs').
  cbn [HubSubs.exec_op HubSubs.spec_op] in He, Hs'. unfold is_first.
  destruct (RemoveSub h ch c) as [[[l rm] h1]|]; [|by destruct (r !! _)].
  destruct (r !! (ch, sr_sid c)) as [sub|] eqn:Hr; cbn in He, Hs' |- *; simplify_eq; [eauto|].
  exists h'. split; [done|]. by rewrite delete_id.
Qed.

(** ** Broker demand *)

Lemma has_key_insert r ch sid sub x :
  has_key (<[(ch, sid) := sub]> r) x = bool_decide (x = ch) || has_key r x.
Proof.
  apply eq_true_iff_eq. rewrite orb_true_iff, bool_decide_eq_true, !has_key_spec. split.
  - intros (s & sb & Hs). apply lookup_insert_Some in Hs as [[[= -> ->] _]|[_ ?]]; eauto.
  - intros [->|(s & sb & Hs)]; [exists sid, sub; by rewrite lookup_insert_eq|].
    destruct (decide ((ch, sid) = (x, s))) as [[= -> ->]|Hne].
    + exists s, sub. by rewrite lookup_insert_eq.
    + exists s, sb. by rewrite lookup_insert_ne.
Qed.

Lemma demand_insert r ch sid sub x :
  r !! (ch, sid) = None →
  demand (<[(ch, sid) := sub]> r) x =
  if is_first r ch && bool_decide (x = ch) then S (demand r x) else demand r x.
Proof.
  intros Hr. unfold demand, is_first. destruct (IsWildcard x) eqn:Hw.
  - destruct (decide (x = ch)) as [->|Hx].
    + rewrite Hw, map_filter_insert_True, map_size_insert_None by
        (done || by apply map_lookup_filter_None; left).
      by rewrite bool_decide_eq_true_2.
    + rewrite map_filter_insert_False by (intros Hk; apply Hx; by symmetry).
      rewrite delete_id by done. by rewrite (bool_decide_eq_false_2 (x = ch)), andb_false_r.
  - rewrite has_key_insert. case_bool_decide as Hx; [subst x|by rewrite andb_false_r].
    rewrite Hw. by destruct (has_key r ch).
Qed.

Lemma demand_delete r ch sid sub x :
  r !! (ch, sid) = Some sub →
  demand (delete (ch, sid) r) x =
  if is_first (delete (ch, sid) r) ch && bool_decide (x = ch) then pred (demand r x) else demand r x.
Proof.
  intros Hr. pose proof (demand_insert (delete (ch, sid) r) ch sid sub x (lookup_delete_eq _ _)) as Hd.
  rewrite insert_delete_id in Hd by done. rewrite Hd. by destruct (_ && _).
Qed.

(** The last subscriber of a key leaves a broker that is interested in it. *)
Lemma demand_last r ch sid sub :
  r !! (ch, sid) = Some sub → is_first (delete (ch, sid) r) ch = true → 0 < demand r ch.
Proof.
  intros Hr Hf. pose proof (demand_insert (delete (ch, sid) r) ch sid sub ch (lookup_delete_eq _ _)) as Hd.
  rewrite insert_delete_id, Hf, bool_decide_eq_true_2 in Hd by done. simpl in Hd. lia.
Qed.

(** ** Views of a saga's state *)

(** What the steps see and restore.  The counts are guaranteed only while no
    compensating call failed. *)
Record view := mkView {
  vw_reg : registry;
  vw_tracked : SessRef → gset string;
  vw_refs : string → nat;
  vw_active : Z;
  vw_var : option bool;     (* the shared variable, once it is set *)
}.

(** [fixed]: what a saga never changes, and its initial [n_ignored]; [clean]:
    whether the counts were right at its start. *)
Record shows (clean : bool) (fixed : Node) (s : SagaState) (v : view) : Prop := {
  sh_hub : sim (n_hub s.1) (vw_reg v);
  sh_tracked : ∀ c, SubscribedChannels s.1 c = vw_tracked v c;
  sh_wf : b_wf (n_broker s.1);
  sh_refs : clean = true → n_ignored s.1 = n_ignored fixed → ∀ ch, b_refs (n_broker s.1) ch = vw_refs v ch;
  sh_ignored : n_ignored fixed ≤ n_ignored s.1;
  sh_active : n_ActiveChannels s.1 = vw_active v;
  sh_closed : n_closed s.1 = n_closed fixed;
  sh_total : n_SubscriptionsTotal s.1 = n_SubscriptionsTotal fixed;
  sh_var : ∀ b, vw_var v = Some b → s.2 = b;
}.

Definition with_reg (v : view) r var :=
  mkView r (vw_tracked v) (vw_refs v) (vw_active v) var.
Definition with_tracked (v : view) t :=
  mkView (vw_reg v) t (vw_refs v) (vw_active v) (vw_var v).
Definition with_refs (v : view) f a :=
  mkView (vw_reg v) (vw_tracked v) f a (vw_var v).

Definition upd_tracked (t : SessRef → gset string) (c : SessRef) (x : gset string) : SessRef → gset string :=
  λ c', if decide (c' = c) then x else t c'.

Definition upd_refs (f : string → nat) (on : bool) (ch : string) (g : nat → nat) : string → nat :=
  λ x, if on && bool_decide (x = ch) then g (f x) else f x.

Ltac shows_split := constructor; cbn in *; try done.

Lemma SubscribedChannels_set n c x c' :
  SubscribedChannels (set_tracked n (<[c := x]> (n_tracked n))) c' =
  if decide (c' = c) then x else SubscribedChannels n c'.
Proof.
  unfold SubscribedChannels. cbn. rewrite lookup_insert.
  destruct (decide (c = c')) as [->|]; [by rewrite decide_True|by rewrite decide_False].
Qed.

Lemma shows_set_hub clean fixed n var v h r var' ovar :
  shows clean fixed (n, var) v → sim h r → (∀ b, ovar = Some b → var' = b) →
  shows clean fixed (set_hub n h, var') (with_reg v r ovar).
Proof. intros [] ? ?. shows_split. Qed.

Lemma shows_hub_back clean fixed n var v v0 h var' :
  shows clean fixed (n, var) v → sim h (vw_reg v0) → vw_var v0 = None →
  vw_tracked v0 = vw_tracked v → vw_refs v0 = vw_refs v → vw_active v0 = vw_active v →
  shows clean fixed (set_hub n h, var') v0.
Proof. intros [] ? Hn Ht Hf Ha. shows_split; rewrite ?Hn, ?Ht, ?Hf, ?Ha; done. Qed.

Lemma shows_set_tracked clean fixed n var v c x :
  shows clean fixed (n, var) v →
  shows clean fixed (set_tracked n (<[c := x]> (n_tracked n)), var)
    (with_tracked v (upd_tracked (vw_tracked v) c x)).
Proof.
  intros []. shows_split. intros c'. rewrite SubscribedChannels_set. unfold upd_tracked.
  by case_decide.
Qed.

Lemma shows_tracked_ext clean fixed s v t :
  shows clean fixed s (with_tracked v t) → (∀ c, t c = vw_tracked v c) → shows clean fixed s v.
Proof. intros [] Ht. shows_split. intros c. by rewrite <-Ht. Qed.

(** *** The steps *)

Lemma hub_add_compensable clean fixed v ch sub name :
  HubSubs.op_ok (HubSubs.OAdd ch sub) → vw_var v = None →
  vw_reg v !! (ch, sr_sid (sb_Session sub)) = None →
  compensable (shows clean fixed) (mkStep name (hub_add ch sub) (hub_unadd ch (sb_Session sub))) v
    (with_reg v (<[(ch, sr_sid (sb_Session sub)) := sub]> (vw_reg v)) (Some (is_first (vw_reg v) ch))).
Proof.
  intros Hok Hvar Hr. constructor; intros [n var] Hs; cbn.
  - destruct (AddSub_sim _ _ _ _ (sh_hub _ _ _ _ Hs) Hok Hr) as (h' & Ha & Hs'). cbn in Ha.
    destruct (validTopic ch); rewrite Ha; cbn; eexists _, _; (split; [done|]); cbn.
    + apply (shows_set_hub _ _ _ var); naive_solver.
    + by eapply shows_hub_back.
  - destruct (RemoveSub_sim _ _ ch (sb_Session sub) (sh_hub _ _ _ _ Hs)) as (h' & Hrm & Hs'); [apply Hok|].
    cbn in Hrm, Hs' |- *. rewrite Hrm. cbn. eexists. split; [done|]. rewrite delete_insert_id in Hs' by done.
    by eapply shows_hub_back.
Qed.

Lemma hub_remove_compensable clean fixed v ch c sub name :
  key_ok ch sub → vw_var v = None → sr_sid (sb_Session sub) = sr_sid c →
  vw_reg v !! (ch, sr_sid c) = Some sub →
  compensable (shows clean fixed) (mkStep name (hub_remove ch c) (hub_readd ch sub)) v
    (with_reg v (delete (ch, sr_sid c) (vw_reg v)) (Some (is_first (delete (ch, sr_sid c) (vw_reg v)) ch))).
Proof.
  intros [Hok Hv] Hvar Hsid Hr. constructor; intros [n var] Hs; cbn.
  - destruct (RemoveSub_sim _ _ ch c (sh_hub _ _ _ _ Hs)) as (h' & Hrm & Hs'); [rewrite <-Hsid; apply Hok|].
    cbn in Hrm, Hs'. rewrite Hrm, Hr. cbn. eexists _, _. split; [done|]. cbn.
    apply (shows_set_hub _ _ _ var); naive_solver.
  - destruct (AddSub_sim _ _ ch sub (sh_hub _ _ _ _ Hs) Hok) as (h' & Ha & Hs').
    { cbn. by rewrite Hsid, lookup_delete_eq. }
    rewrite Hv in Hs'. cbn in Ha, Hs' |- *. rewrite Ha. cbn. eexists. split; [done|].
    rewrite Hsid, insert_delete_id in Hs' by done.
    by eapply shows_hub_back.
Qed.

Lemma track_compensable clean fixed v ch c name :
  ch ∉ vw_tracked v c →
  compensable (E:=SubError) (shows clean fixed)
    (mkStep name (λ '(n, var), let '(closed, n') := TrackChannel n c ch in
                               Some (if closed then Some EClosed else None, (n', var)))
      (λ '(n, var), Some (UntrackChannel n c ch, var))) v
    (with_tracked v (upd_tracked (vw_tracked v) c ({[ ch ]} ∪ vw_tracked v c))).
Proof.
  intros Hch. constructor; intros [n var] Hs; cbn.
  - unfold TrackChannel. case_bool_decide; eexists _, _; (split; [done|]); cbn; [done|].
    unfold ForceTrackChannel. pose proof (sh_tracked _ _ _ _ Hs c) as Hc. cbn in Hc. rewrite Hc.
    by apply shows_set_tracked.
  - eexists. split; [done|]. unfold UntrackChannel.
    pose proof (sh_tracked _ _ _ _ Hs c) as Hc. cbn in Hc. unfold upd_tracked in Hc.
    rewrite decide_True in Hc by done. rewrite Hc.
    apply (shows_set_tracked _ _ _ _ _ c (({[ch]} ∪ vw_tracked v c) ∖ {[ch]})) in Hs.
    eapply shows_tracked_ext; [exact Hs|]. intros c'. unfold upd_tracked. cbn.
    case_decide; [subst; set_solver|done].
Qed.

Lemma untrack_compensable clean fixed v ch c name :
  ch ∈ vw_tracked v c →
  compensable (E:=SubError) (shows clean fixed)
    (mkStep name (λ '(n, var), Some (None, (UntrackChannel n c ch, var)))
      (λ '(n, var), Some (ForceTrackChannel n c ch, var))) v
    (with_tracked v (upd_tracked (vw_tracked v) c (vw_tracked v c ∖ {[ ch ]}))).
Proof.
  intros Hch. constructor; intros [n var] Hs; cbn.
  - eexists _, _. split; [done|]. cbn. unfold UntrackChannel.
    pose proof (sh_tracked _ _ _ _ Hs c) as Hc. cbn in Hc. rewrite Hc. by apply shows_set_tracked.
  - eexists. split; [done|]. unfold ForceTrackChannel.
    pose proof (sh_tracked _ _ _ _ Hs c) as Hc. cbn in Hc. unfold upd_tracked in Hc.
    rewrite decide_True in Hc by done. rewrite Hc.
    apply (shows_set_tracked _ _ _ _ _ c ({[ch]} ∪ (vw_tracked v c ∖ {[ch]}))) in Hs.
    eapply shows_tracked_ext; [exact Hs|]. intros c'. unfold upd_tracked. cbn.
    case_decide; [subst|done]. apply set_eq. intros x. destruct (decide (x = ch)); set_solver.
Qed.

(** A broker call adds [g] to the count of [ch] when it succeeds. *)
Definition broker_effect (call : string → B → option (bool * B)) (g : nat → nat) : Prop :=
  ∀ b ch, b_wf b → ∃ ok b', call ch b = Some (ok, b') ∧ b_wf b' ∧
    ∀ x, b_refs b' x = upd_refs (b_refs b) ok ch g x.

Lemma Subscribe_effect : broker_effect b_Subscribe S.
Proof. intros b ch. apply b_Subscribe_spec. Qed.

Lemma Unsubscribe_effect : broker_effect b_Unsubscribe pred.
Proof. intros b ch. apply b_Unsubscribe_spec. Qed.

Lemma broker_compensable clean fixed v ch call g d back g' name var :
  broker_effect call g → broker_effect back g' → vw_var v = Some var →
  (clean = true → var = true → g' (g (vw_refs v ch)) = vw_refs v ch) →
  compensable (shows clean fixed) (mkStep name (broker_commit call d ch) (broker_rollback back (- d) ch)) v
    (with_refs v (upd_refs (vw_refs v) var ch g) (vw_active v + if var then d else 0)%Z).
Proof.
  intros Hcall Hback Hvar Hg. constructor; intros [n w] Hs; cbn.
  - assert (w = var) as -> by (apply (sh_var _ _ _ _ Hs); done). destruct var; cbn.
    + destruct (Hcall (n_broker n) ch) as (ok & b' & -> & Hwf & Hrefs); [apply Hs|].
      destruct Hs. destruct ok; cbn; eexists _, _; (split; [done|]); shows_split;
        rewrite ?Nat.add_0_r in *; try done; try lia.
      * intros Hcl Hi x. rewrite Hrefs. unfold upd_refs. by rewrite sh_refs0 by done.
      * intros Hcl Hi x. rewrite Hrefs. unfold upd_refs. cbn. by rewrite sh_refs0 by done.
    + eexists _, _. split; [done|]. destruct Hs. shows_split; lia.
  - assert (w = var) as -> by (apply (sh_var _ _ _ _ Hs); done). destruct var; cbn.
    + destruct (Hback (n_broker n) ch) as (ok & b' & -> & Hwf & Hrefs); [apply Hs|]. cbn.
      destruct Hs. eexists. split; [done|]. shows_split; try lia.
      intros Hcl Hi x. rewrite Hrefs. destruct ok; [|lia]. unfold upd_refs in *. cbn in *.
      rewrite (sh_refs0 Hcl) by lia. case_bool_decide; [subst; auto|done].
    + eexists. split; [done|]. destruct Hs. shows_split; lia.
Qed.

(** A cluster call writes only the cluster store. *)
Definition cluster_only (call : Node → bool * Node) : Prop := ∀ n, ∃ ok cl, call n = (ok, set_cluster n cl).

Lemma set_cluster_id n : set_cluster n (n_cluster n) = n.
Proof. by destruct n. Qed.

Lemma sync_cluster_only c : cluster_only (λ n, syncClusterSessionState n c).
Proof.
  intros n. unfold syncClusterSessionState. destruct (negb _).
  - exists true, (n_cluster n). by rewrite set_cluster_id.
  - destruct (c_sync _ _ _) as [ok cl]. eauto.
Qed.

Lemma adjust_cluster_only ch d : cluster_only (λ n, adjustClusterChannelSubscriptions n ch d).
Proof.
  intros n. unfold adjustClusterChannelSubscriptions. destruct (_ || _ || _).
  - exists true, (n_cluster n). by rewrite set_cluster_id.
  - destruct (c_adjust _ _ _) as [ok cl]. eauto.
Qed.

Lemma cluster_compensable clean fixed v call back name :
  cluster_only call → cluster_only back →
  compensable (shows clean fixed) (mkStep name (cluster_commit call) (cluster_rollback back)) v v.
Proof.
  intros Hc Hb. constructor; intros [n w] Hs; cbn.
  - destruct (Hc n) as (ok & cl & ->). eexists _, _. split; [done|].
    destruct Hs. destruct ok; shows_split.
  - destruct (Hb n) as (ok & cl & ->). eexists. split; [done|]. destruct Hs. shows_split.
Qed.

(** ** The operations *)

Definition start_view (n : Node) (r : registry) : view :=
  mkView r (SubscribedChannels n) (demand r) (n_ActiveChannels n) None.

Lemma start_shows n r p clean : node_inv n r p clean → shows clean n (n, false) (start_view n r).
Proof. intros []. shows_split. auto. Qed.

(** What an operation does to the session sets. *)
Definition tracked_as (n' : Node) (n : Node) (c : SessRef) (x : gset string) : Prop :=
  ∀ c', SubscribedChannels n' c' = if decide (c' = c) then x else SubscribedChannels n c'.

Lemma add_saga n r p clean ch sub :
  let c := sb_Session sub in
  node_inv n r p clean → HubSubs.op_ok (HubSubs.OAdd ch sub) → own (sr_sid c) = c →
  r !! (ch, sr_sid c) = None → ch ∉ pend p c →
  ∃ err n' var, runSubSaga (add_steps ch sub) (n, false) = Some (err, (n', var)) ∧
    match err with
    | Some _ => shows clean n (n', var) (start_view n r)
    | None => validTopic ch = true ∧ shows clean n (n', var) (mkView (<[(ch, sr_sid c) := sub]> r)
        (upd_tracked (SubscribedChannels n) c ({[ ch ]} ∪ SubscribedChannels n c))
        (upd_refs (demand r) (is_first r ch) ch S)
        (n_ActiveChannels n + if is_first r ch then 1 else 0) (Some (is_first r ch)))
    end.
Proof.
  intros c Hinv Hok Hown Hr Hpend. destruct (validTopic ch) eqn:Hv; last first.
  { destruct (AddSub_sim _ _ _ _ (ni_hub _ _ _ _ Hinv) Hok Hr) as (h' & Ha & Hs'). rewrite Hv in Ha, Hs'.
    unfold runSubSaga, add_steps. cbn. rewrite Ha. cbn. eexists _, _, _. split; [done|].
    by eapply shows_hub_back; [eapply start_shows|..]. }
  edestruct (saga_atomic (shows clean n) (add_steps ch sub) (start_view n r)) as (err & [n' var] & Hrun & Hv0);
    [|by eapply start_shows|].
  - econstructor; [by apply hub_add_compensable|].
    econstructor; [apply track_compensable; cbn|].
    { intros Hin. apply (ni_tracked _ _ _ _ Hinv) in Hin as [[x Hx]|Hin]; [|done..]. subst c. congruence. }
    econstructor; [by apply (broker_compensable _ _ _ _ _ S 1 _ pred _ (is_first r ch));
      [apply Subscribe_effect|apply Unsubscribe_effect|..]|].
    econstructor; [apply cluster_compensable; apply sync_cluster_only|].
    econstructor; [apply cluster_compensable; apply adjust_cluster_only|]. constructor.
  - exists err, n', var. split; [exact Hrun|]. destruct err; [exact Hv0|]. split; [done|exact Hv0].
Qed.

Lemma remove_saga n r p clean ch c sub :
  node_inv n r p clean → own (sr_sid c) = c → r !! (ch, sr_sid c) = Some sub →
  let last := is_first (delete (ch, sr_sid c) r) ch in
  ∃ err n' var, runSubSaga (remove_steps ch c sub) (n, false) = Some (err, (n', var)) ∧
    match err with
    | Some _ => shows clean n (n', var) (start_view n r)
    | None => shows clean n (n', var) (mkView (delete (ch, sr_sid c) r)
        (upd_tracked (SubscribedChannels n) c (SubscribedChannels n c ∖ {[ ch ]}))
        (upd_refs (demand r) last ch pred) (n_ActiveChannels n + if last then -1 else 0) (Some last))
    end.
Proof.
  intros Hinv Hown Hr last.
  edestruct (saga_atomic (shows clean n) (remove_steps ch c sub) (start_view n r)) as (err & [n' var] & Hrun & Hv);
    [|by eapply start_shows|].
  - econstructor; [apply hub_remove_compensable; [|done| |done]|].
    { by eapply ni_keys. }
    { by apply (ro_sid _ (sm_reg _ _ (ni_hub _ _ _ _ Hinv))) in Hr as [? _]. }
    econstructor; [apply untrack_compensable; cbn|].
    { apply (ni_tracked _ _ _ _ Hinv); [done|]. left. by rewrite Hr. }
    econstructor; [apply (broker_compensable _ _ _ _ _ pred (-1) _ S _ last);
      [apply Unsubscribe_effect|apply Subscribe_effect|done|]|].
    { intros _ Hl. cbn. pose proof (demand_last r ch _ sub Hr Hl). lia. }
    econstructor; [apply cluster_compensable; apply sync_cluster_only|].
    econstructor; [apply cluster_compensable; apply adjust_cluster_only|]. constructor.
  - exists err, n', var. split; [exact Hrun|]. by destruct err.
Qed.

Lemma pend_settle p c ch k : k ∈ pend (settle p c ch) c ↔ k ∈ pend p c ∧ k ≠ ch.
Proof. unfold settle. unfold pend at 1. rewrite lookup_insert_eq. cbn. set_solver. Qed.

Lemma pend_settle_ne p c ch c' : c' ≠ c → pend (settle p c ch) c' = pend p c'.
Proof. intros Hne. unfold settle, pend. by rewrite lookup_insert_ne. Qed.

(** A registry change together with the matching change of the session sets. *)
Record good_view (p : seeds) (v : view) : Prop := {
  gv_keys : ∀ ch sid sub, vw_reg v !! (ch, sid) = Some sub → key_ok ch sub;
  gv_tracked : ∀ c ch, own (sr_sid c) = c → ch ∈ vw_tracked v c ↔ is_Some (vw_reg v !! (ch, sr_sid c)) ∨ ch ∈ pend p c;
  gv_refs : ∀ ch, vw_refs v ch = demand (vw_reg v) ch;
}.

Lemma start_good n r p clean : node_inv n r p clean → good_view p (start_view n r).
Proof. by intros []. Qed.

Lemma add_good n r p clean ch sub a var :
  let c := sb_Session sub in
  node_inv n r p clean → key_ok ch sub → own (sr_sid c) = c → r !! (ch, sr_sid c) = None →
  good_view (settle p c ch) (mkView (<[(ch, sr_sid c) := sub]> r)
    (upd_tracked (SubscribedChannels n) c ({[ ch ]} ∪ SubscribedChannels n c))
    (upd_refs (demand r) (is_first r ch) ch S) a var).
Proof.
  intros c Hinv Hk Hown Hr. constructor; cbn.
  - intros k sid x [[[= <- <-] <-]|[_ Hx]]%lookup_insert_Some; [done|]. by eapply ni_keys.
  - intros c' k Hc'. unfold upd_tracked. case_decide as Hd; [subst c'|].
    + rewrite elem_of_union, elem_of_singleton, (ni_tracked _ _ _ _ Hinv) by done.
      destruct (decide (k = ch)) as [->|Hne].
      * rewrite lookup_insert_eq. naive_solver.
      * rewrite lookup_insert_ne by naive_solver. rewrite pend_settle. naive_solver.
    + rewrite (ni_tracked _ _ _ _ Hinv), pend_settle_ne by done. rewrite lookup_insert_ne; [done|].
      intros [= _ Heq]. apply Hd. congruence.
  - intros x. unfold upd_refs. by rewrite (demand_insert _ _ _ sub _ Hr).
Qed.

Lemma remove_good n r p clean ch c sub a var :
  node_inv n r p clean → own (sr_sid c) = c → r !! (ch, sr_sid c) = Some sub →
  good_view (settle p c ch) (mkView (delete (ch, sr_sid c) r)
    (upd_tracked (SubscribedChannels n) c (SubscribedChannels n c ∖ {[ ch ]}))
    (upd_refs (demand r) (is_first (delete (ch, sr_sid c) r) ch) ch pred) a var).
Proof.
  intros Hinv Hown Hr. constructor; cbn.
  - intros k sid x [_ Hx]%lookup_delete_Some. by eapply ni_keys.
  - intros c' k Hc'. unfold upd_tracked. case_decide as Hd; [subst c'|].
    + rewrite elem_of_difference, elem_of_singleton, (ni_tracked _ _ _ _ Hinv) by done.
      destruct (decide (k = ch)) as [->|Hne].
      * rewrite lookup_delete_eq, pend_settle. split; [naive_solver|]. intros [[? [=]]|[]]; done.
      * rewrite lookup_delete_ne by naive_solver. rewrite pend_settle. naive_solver.
    + rewrite (ni_tracked _ _ _ _ Hinv), pend_settle_ne by done. rewrite lookup_delete_ne; [done|].
      intros [= _ Heq]. apply Hd. congruence.
  - intros x. unfold upd_refs. by rewrite (demand_delete _ _ _ sub _ Hr).
Qed.

Lemma shows_inv clean n s v p :
  shows clean n s v → good_view p v →
  node_inv s.1 (vw_reg v) p (clean && bool_decide (n_ignored s.1 = n_ignored n)).
Proof.
  intros [] []. constructor; try done.
  - intros c ch Hc. rewrite sh_tracked0. auto.
  - intros [Hc Hi]%andb_true_iff ch. apply bool_decide_eq_true in Hi. by rewrite sh_refs0.
Qed.

Lemma shows_inv_dirty clean n s v v' p :
  shows clean n s v → good_view p v' → vw_reg v' = vw_reg v → vw_tracked v' = vw_tracked v →
  node_inv s.1 (vw_reg v) p false.
Proof.
  intros [] [] Hr Ht. rewrite Hr in *. rewrite Ht in *. constructor; try done.
  intros c ch Hc. rewrite sh_tracked0. auto.
Qed.

Lemma node_inv_total n r p clean d : node_inv n r p clean → node_inv (add_total n d) r p clean.
Proof. by intros []. Qed.

(** Settling a channel the session holds. *)
Lemma settle_held n r p clean ch c sub :
  node_inv n r p clean → r !! (ch, sr_sid c) = Some sub → node_inv n r (settle p c ch) clean.
Proof.
  intros [] Hr. constructor; try done. intros c' k Hc'. rewrite ni_tracked0 by done.
  destruct (decide (c' = c)) as [->|Hne]; [|by rewrite pend_settle_ne].
  rewrite pend_settle. destruct (decide (k = ch)) as [->|]; [rewrite Hr|]; naive_solver.
Qed.

(** What one operation leaves: besides the invariant, a failure changes no
    session set and no gauge, and the subscription gauge follows the registry. *)
Record op_post (n : Node) (r : registry) (p : seeds) (clean : bool) (o : op) (failed : bool) (n' : Node) : Prop := {
  po_inv : node_inv n' (spec_op r o failed) (spec_pending r p o failed) (clean && clean_op n n' o failed);
  po_closed : n_closed n' = match o with OClose c => {[ c ]} ∪ n_closed n | _ => n_closed n end;
  po_failed : failed = true → (∀ ch c, o ≠ OEvict ch c) →
    (∀ c, SubscribedChannels n' c = SubscribedChannels n c) ∧ n_ActiveChannels n' = n_ActiveChannels n ∧
    n_SubscriptionsTotal n' = n_SubscriptionsTotal n;
  po_total : clean_op n n' o failed = true →
    (n_SubscriptionsTotal n' - n_SubscriptionsTotal n
     = Z.of_nat (size (spec_op r o failed)) - Z.of_nat (size r))%Z;
}.

Lemma add_post n r p clean ch sub :
  node_inv n r p clean → op_ok (OAdd ch sub) → legal r p (OAdd ch sub) = true →
  ∃ failed n', exec_op n (OAdd ch sub) = Some (failed, n') ∧ op_post n r p clean (OAdd ch sub) failed n'.
Proof.
  intros Hinv [Hok Hown] Hpend%bool_decide_eq_true. cbn [exec_op]. unfold AddSubscription.
  rewrite (lookup_sim _ r) by (apply Hok || apply Hinv).
  destruct (r !! (ch, sr_sid (sb_Session sub))) as [x|] eqn:Hr.
  { eexists _, _. split; [done|]. constructor; cbn; unfold add_new, clean_op; rewrite ?Hr; try done; try lia.
    rewrite bool_decide_eq_true_2, !andb_true_r by done. by eapply settle_held. }
  destruct (add_saga n r p clean ch sub Hinv Hok Hown Hr Hpend) as (err & n' & var & -> & Hs). cbn.
  destruct err as [e|]; cbn; eexists _, _; (split; [done|]).
  - constructor; cbn; unfold clean_op; rewrite ?andb_true_r.
    + eapply shows_inv in Hs; [exact Hs|by eapply start_good].
    + apply Hs.
    + intros _ _. split_and!; apply Hs.
    + intros _. pose proof (sh_total _ _ _ _ Hs) as Ht. cbn in Ht. lia.
  - destruct Hs as [Hv Hs]. constructor; cbn; unfold clean_op, add_new; rewrite ?Hr, ?andb_true_r; cbn.
    + apply node_inv_total. eapply shows_inv in Hs; [exact Hs|by eapply add_good].
    + apply Hs.
    + done.
    + intros _. rewrite map_size_insert_None by done. pose proof (sh_total _ _ _ _ Hs) as Ht. cbn in Ht. lia.
Qed.

Lemma remove_post n r p clean ch c :
  node_inv n r p clean → op_ok (ORemove ch c) →
  ∃ failed n', exec_op n (ORemove ch c) = Some (failed, n') ∧ op_post n r p clean (ORemove ch c) failed n'.
Proof.
  intros Hinv [Hok Hown]. cbn [exec_op]. unfold RemoveSubscription.
  rewrite (lookup_sim _ r) by (apply Hok || apply Hinv).
  destruct (r !! (ch, sr_sid c)) as [sub|] eqn:Hr; last first.
  { eexists _, _. split; [done|].
    constructor; cbn; unfold clean_op; rewrite ?Hr; rewrite ?delete_id by done; try done; try lia.
    by rewrite bool_decide_eq_true_2, !andb_true_r. }
  destruct (remove_saga n r p clean ch c sub Hinv Hown Hr) as (err & n' & var & -> & Hs). cbn.
  destruct err as [e|]; cbn; eexists _, _; (split; [done|]).
  - constructor; cbn; unfold clean_op; rewrite ?andb_true_r.
    + eapply shows_inv in Hs; [exact Hs|by eapply start_good].
    + apply Hs.
    + intros _ _. split_and!; apply Hs.
    + intros _. pose proof (sh_total _ _ _ _ Hs) as Ht. cbn in Ht. lia.
  - constructor; cbn; unfold clean_op; rewrite ?Hr, ?andb_true_r; cbn.
    + apply node_inv_total. eapply shows_inv in Hs; [exact Hs|by eapply remove_good].
    + apply Hs.
    + done.
    + intros _. rewrite map_size_delete_Some by eauto. pose proof (sh_total _ _ _ _ Hs) as Ht. cbn in Ht.
      assert (size r ≠ 0) by (apply map_size_ne_0_lookup; eauto). lia.
Qed.

Lemma shows_set_broker clean fixed n var v b ok ch g d :
  shows clean fixed (n, var) v → b_wf b →
  (∀ x, b_refs b x = upd_refs (b_refs (n_broker n)) ok ch g x) →
  shows clean fixed (set_broker n b d 0, var) (with_refs v (upd_refs (vw_refs v) ok ch g) (vw_active v + d)).
Proof.
  intros [] Hwf Hrefs. shows_split; rewrite ?Nat.add_0_r; try done; [|lia].
  intros Hcl Hi x. rewrite Hrefs. unfold upd_refs. by rewrite sh_refs0.
Qed.

Lemma shows_refs_ext clean fixed s v f a :
  shows clean fixed s (with_refs v f a) → (∀ ch, f ch = vw_refs v ch) → a = vw_active v → shows clean fixed s v.
Proof. intros [] Hf ->. shows_split. intros ? ? ch. rewrite <-Hf. auto. Qed.

(** The error of a restore: nothing changed. *)
Lemma failed_post n r p clean o n' var :
  node_inv n r p clean → shows clean n (n', var) (start_view n r) →
  spec_op r o true = r → spec_pending r p o true = p → clean_op n n' o true = bool_decide (n_ignored n' = n_ignored n) →
  (∀ c, o ≠ OClose c) → op_post n r p clean o true n'.
Proof.
  intros Hinv Hs Ho Hp Hc Hcl. constructor; rewrite ?Ho, ?Hp, ?Hc.
  - eapply shows_inv in Hs; [exact Hs|by eapply start_good].
  - destruct o; try apply Hs. naive_solver.
  - intros _ _. split_and!; apply Hs.
  - intros _. pose proof (sh_total _ _ _ _ Hs) as Ht. cbn in Ht. lia.
Qed.

Lemma upd_refs_off f ch g x : upd_refs f false ch g x = f x.
Proof. done. Qed.

Lemma restore_post n r p clean ch sub :
  node_inv n r p clean → op_ok (ORestore ch sub) →
  ∃ failed n', exec_op n (ORestore ch sub) = Some (failed, n') ∧
    op_post n r p clean (ORestore ch sub) failed n'.
Proof.
  intros Hinv [Hok Hown]. cbn [exec_op]. unfold restoreLocalSubscription.
  rewrite (lookup_sim _ r) by (apply Hok || apply Hinv).
  destruct (r !! (ch, sr_sid (sb_Session sub))) as [x|] eqn:Hr.
  { eexists _, _. split; [done|]. constructor; cbn; unfold add_new, clean_op; rewrite ?Hr; try done; try lia.
    rewrite bool_decide_eq_true_2, !andb_true_r by done. by eapply settle_held. }
  pose proof (start_shows n r p clean Hinv) as Hs0.
  destruct (AddSub_sim _ _ _ _ (ni_hub _ _ _ _ Hinv) Hok Hr) as (h' & -> & Hs').
  destruct (validTopic ch) eqn:Hv; cbn; last first.
  { eexists _, _. split; [done|]. eapply (failed_post _ _ _ _ _ _ false); try done.
    - by eapply shows_hub_back.
    - unfold clean_op. by rewrite andb_true_r. }
  assert (∀ n1, shows clean n (n1, is_first r ch) (mkView (<[(ch, sr_sid (sb_Session sub)) := sub]> r)
      (SubscribedChannels n) (upd_refs (demand r) (is_first r ch) ch S)
      (n_ActiveChannels n + if is_first r ch then 1 else 0) (Some (is_first r ch))) →
    op_post n r p clean (ORestore ch sub) false
      (add_total (ForceTrackChannel n1 (sb_Session sub) ch) 1)) as Hdone.
  { intros n1 Hs1. unfold ForceTrackChannel. rewrite (sh_tracked _ _ _ _ Hs1).
    apply (shows_set_tracked _ _ _ _ _ (sb_Session sub)
      ({[ ch ]} ∪ SubscribedChannels n (sb_Session sub))) in Hs1.
    constructor; cbn; unfold clean_op, add_new; rewrite ?Hr, ?andb_true_r; cbn.
    - apply node_inv_total. eapply shows_inv in Hs1; [exact Hs1|by eapply add_good].
    - apply Hs1.
    - done.
    - intros _. rewrite map_size_insert_None by done. pose proof (sh_total _ _ _ _ Hs1) as Ht. cbn in Ht. lia. }
  apply (shows_set_hub _ _ _ _ _ h' (<[(ch, sr_sid (sb_Session sub)) := sub]> r) (is_first r ch) (Some (is_first r ch))) in Hs0; [|done|naive_solver].
  destruct (is_first r ch) eqn:Hf; cbn [negb].
  - destruct (Subscribe_effect (n_broker n) ch (ni_wf _ _ _ _ Hinv)) as (ok & b & -> & Hwf & Hrefs). cbn.
    apply (shows_set_broker _ _ _ _ _ b ok ch S (if ok then 1 else 0)) in Hs0; [|done..].
    destruct ok; [eexists _, _; split; [done|]; by apply Hdone|].
    destruct (RemoveSub_sim _ _ ch (sb_Session sub) Hs') as (h2 & -> & Hs2); [apply Hok|]. cbn.
    rewrite delete_insert_id in Hs2 by done.
    eexists _, _. split; [done|]. eapply (failed_post _ _ _ _ _ _ false); try done.
    + apply shows_refs_ext in Hs0; [|done|cbn; lia]. by eapply shows_hub_back.
    + unfold clean_op. by rewrite andb_true_r.
  - eexists _, _. split; [done|]. apply Hdone. destruct Hs0. shows_split. lia.
Qed.

Lemma evict_post n r p clean ch c :
  node_inv n r p clean → op_ok (OEvict ch c) →
  ∃ failed n', exec_op n (OEvict ch c) = Some (failed, n') ∧ op_post n r p clean (OEvict ch c) failed n'.
Proof.
  intros Hinv [Hok Hown]. cbn [exec_op]. unfold removeLocalSubscriptionOnly.
  destruct (RemoveSub_sim _ _ ch c (ni_hub _ _ _ _ Hinv) Hok) as (h' & -> & Hs').
  pose proof (start_shows n r p clean Hinv) as Hs0. cbn.
  destruct (r !! (ch, sr_sid c)) as [sub|] eqn:Hr; cbn; last first.
  { rewrite delete_id in Hs' by done. eexists _, _. split; [done|].
    constructor; cbn; unfold clean_op; rewrite ?Hr; rewrite ?delete_id by done; try done; try lia.
    destruct Hinv. rewrite bool_decide_eq_true_2, !andb_true_r by done. by constructor. }
  set (last := is_first (delete (ch, sr_sid c) r) ch) in *.
  apply (shows_set_hub _ _ _ _ _ h' (delete (ch, sr_sid c) r) last (Some last)) in Hs0; [|done|naive_solver].
  unfold UntrackChannel. rewrite (sh_tracked _ _ _ _ Hs0).
  apply (shows_set_tracked _ _ _ _ _ c (SubscribedChannels n c ∖ {[ ch ]})) in Hs0.
  pose proof (remove_good n r p clean ch c sub (n_ActiveChannels n + if last then -1 else 0) (Some last)
    Hinv Hown Hr) as Hgood. fold last in Hgood.
  assert (∀ n1, shows clean n (n1, last) (mkView (delete (ch, sr_sid c) r)
      (upd_tracked (SubscribedChannels n) c (SubscribedChannels n c ∖ {[ ch ]}))
      (upd_refs (demand r) last ch pred) (n_ActiveChannels n + if last then -1 else 0) (Some last)) →
    op_post n r p clean (OEvict ch c) false (add_total n1 (-1))) as Hdone.
  { intros n1 Hs1. constructor; cbn; unfold clean_op; rewrite ?Hr, ?andb_true_r; cbn.
    - apply node_inv_total. by eapply shows_inv in Hs1.
    - apply Hs1.
    - done.
    - intros _. rewrite map_size_delete_Some by eauto. pose proof (sh_total _ _ _ _ Hs1) as Ht. cbn in Ht.
      assert (size r ≠ 0) by (apply map_size_ne_0_lookup; eauto). lia. }
  destruct last eqn:Hl; cbn [negb].
  - destruct (Unsubscribe_effect (n_broker n) ch (ni_wf _ _ _ _ Hinv)) as (ok & b & Hcall & Hwf & Hrefs).
    cbn. rewrite Hcall. cbn.
    apply (shows_set_broker _ _ _ _ _ b ok ch pred (if ok then -1 else 0)) in Hs0; [|done..].
    destruct ok; eexists _, _; (split; [done|]); [by apply Hdone|].
    constructor; cbn; unfold clean_op; rewrite ?Hr, ?andb_false_r.
    + by eapply shows_inv_dirty in Hs0.
    + apply Hs0.
    + naive_solver.
    + done.
  - eexists _, _. split; [done|]. apply Hdone. destruct Hs0. shows_split. lia.
Qed.

Lemma adopt_post n r p clean c subscriptions :
  node_inv n r p clean → legal r p (OAdopt c subscriptions) = true →
  op_post n r p clean (OAdopt c subscriptions) false (AdoptChannels n c subscriptions).
Proof.
  intros [] Hnone%bool_decide_eq_true. constructor; cbn; unfold clean_op; cbn; try done; try lia.
  rewrite bool_decide_eq_true_2, !andb_true_r by done. constructor; try done.
  intros c' ch Hc'. unfold SubscribedChannels, pend. cbn. destruct (decide (c' = c)) as [->|Hne].
  - rewrite !lookup_insert_eq. cbn. split; [by right|]. intros [[sub Hs]|?]; [|done].
    by destruct (Hnone _ _ Hs).
  - rewrite !lookup_insert_ne by done. by apply ni_tracked0.
Qed.

Lemma untrack_post n r p clean c ch :
  node_inv n r p clean → legal r p (OUntrack c ch) = true →
  op_post n r p clean (OUntrack c ch) false (UntrackChannel n c ch).
Proof.
  intros [] Hnone. cbn in Hnone. destruct (r !! (ch, sr_sid c)) as [|] eqn:Hr; [done|].
  constructor; cbn; unfold clean_op; cbn; try done; try lia.
  rewrite bool_decide_eq_true_2, !andb_true_r by done. constructor; try done.
  intros c' k Hc'. unfold UntrackChannel. rewrite SubscribedChannels_set. unfold upd_tracked.
  destruct (decide (c' = c)) as [->|Hne]; [|rewrite pend_settle_ne by done; by apply ni_tracked0].
  rewrite pend_settle, elem_of_difference, elem_of_singleton, ni_tracked0 by done.
  destruct (decide (k = ch)) as [->|]; [rewrite Hr|]; naive_solver.
Qed.

Lemma exec_op_post n r p clean o :
  node_inv n r p clean → op_ok o → legal r p o = true →
  ∃ failed n', exec_op n o = Some (failed, n') ∧ op_post n r p clean o failed n'.
Proof.
  intros Hinv Hok Hl. destruct o;
    [by apply add_post|by apply remove_post|by apply restore_post|by apply evict_post|..].
  - eexists _, _. split; [done|]. constructor; cbn; unfold clean_op; try done; try lia.
    rewrite bool_decide_eq_true_2, !andb_true_r by done. destruct Hinv. by constructor.
  - eexists _, _. split; [done|]. by apply adopt_post.
  - eexists _, _. split; [done|]. by apply untrack_post.
Qed.

(** ** Runs *)





(** A node before its first subscription. *)
Definition fresh (n : Node) : Prop :=
  n_hub n = NewHubSubs ∧ n_tracked n = ∅ ∧ n_SubscriptionsTotal n = 0%Z ∧ b_wf (n_broker n) ∧
  ∀ ch, b_refs (n_broker n) ch = 0.

Lemma fresh_inv n : fresh n → node_inv n ∅ ∅ true.
Proof.
  intros (Hh & Ht & _ & Hwf & Hrefs). constructor; try done.
  - rewrite Hh. apply hub_sim_new.
  - intros c ch _. unfold SubscribedChannels. rewrite Ht, !lookup_empty. split; [set_solver|]. by intros [[? [=]]|[]%not_elem_of_empty].
  - intros _ ch. rewrite Hrefs. unfold demand. by destruct (IsWildcard ch).
Qed.


(** C28: a failed subscription change leaves no trace.  In every state that
    satisfies the node invariant, an AddSubscription, RemoveSubscription or
    restore that reports an error leaves the hub's subscriptions, every
    session's channel set and the gauges as they were, and a subscribe on a
    session that is already closed fails (so nothing can leak past Close).  A
    subscribe is taken not to target a channel that the session's resume has
    adopted and not restored yet; there the undo would also drop the adopted mark. *)
Theorem failed_subscription_no_trace n r p clean o failed n' :
  node_inv n r p clean → op_ok o → legal r p o = true → (∀ ch c, o ≠ OEvict ch c) → exec_op n o = Some (failed, n') →
  (failed = true →
     (∀ ch c, has_char ":" (sr_sid c) = false →
        LookupSubscriber (n_hub n') ch c = LookupSubscriber (n_hub n) ch c) ∧
     (∀ c, SubscribedChannels n' c = SubscribedChannels n c) ∧
     n_ActiveChannels n' = n_ActiveChannels n ∧ n_SubscriptionsTotal n' = n_SubscriptionsTotal n) ∧
  (∀ ch sub, o = OAdd ch sub → sb_Session sub ∈ n_closed n →
     r !! (ch, sr_sid (sb_Session sub)) = None → failed = true).
Proof.
  intros Hinv Hok Hl Hne Hex. destruct (exec_op_post n r p clean o Hinv Hok Hl) as (failed' & n1 & Hex' & Hpost).
  rewrite Hex in Hex'. simplify_eq. split.
  - intros ->. destruct (po_failed _ _ _ _ _ _ _ Hpost) as (Ht & Ha & Htot); [done..|].
    split_and!; [|done..]. intros ch c Hc.
    rewrite (lookup_sim _ r), (lookup_sim _ r); [done|apply Hinv|done| |done].
    destruct Hpost as [Hinv' _ _ _]. apply ni_hub in Hinv'. destruct o; cbn in Hinv'; try done. naive_solver.
  - intros ch sub -> Hcl Hr. cbn [exec_op] in Hex. unfold AddSubscription in Hex.
    destruct Hok as [Hok Hown].
    rewrite (lookup_sim _ r), Hr in Hex by (apply Hok || apply Hinv).
    destruct (runSubSaga _ _) as [[err [n2 var]]|] eqn:Hsaga; [|done]. cbn in Hex.
    eapply (saga_blocked (shows clean n) [_] _ _ (start_view n r)) in Hsaga.
    + destruct err; [|done]. cbn in Hex. by simplify_eq.
    + econstructor; [|constructor]. by apply hub_add_compensable.
    + intros [t var'] Ht. cbn. unfold TrackChannel. pose proof (sh_closed _ _ _ _ Ht) as Hc. cbn in Hc.
      rewrite Hc, bool_decide_eq_true_2 by done. eauto.
    + by eapply start_shows.
Qed.

End Node.

#[global] Arguments Node : clear implicits.

(** ** The memory broker implements the interface *)

Section Memory.
Context {M : Type} `{Matcher string M}.

#[export] Instance memory_sub_broker : SubBroker (MemoryBroker.memoryBroker (M:=M)) := {
  b_Subscribe ch b :=
    '(r, b') ← MemoryBroker.Subscribe b ch; Some (match r with Ok _ => true | Err _ => false end, b');
  b_Unsubscribe ch b := b' ← MemoryBroker.Unsubscribe b ch; Some (true, b');
}.

Context `{!MatcherLaws trailing_wildcard string M}.

Definition memory_refs (b : MemoryBroker.memoryBroker (M:=M)) (ch : string) : nat :=
  MemoryBroker.cnt (if IsWildcard ch then MemoryBroker.b_wcCounts b else MemoryBroker.b_subs b) ch.

Lemma memory_refs_inv b refs ch :
  MemoryBroker.interest_inv b refs → memory_refs b ch = MemoryBroker.cnt refs ch.
Proof.
  intros Hi. unfold memory_refs. destruct (IsWildcard ch) eqn:Hw.
  - by rewrite (MemoryBroker.ii_counts _ _ Hi), Hw.
  - by rewrite (MemoryBroker.ii_subs _ _ Hi), Hw.
Qed.

Lemma reclaim_interest b refs ch :
  MemoryBroker.interest_inv b refs → MemoryBroker.interest_inv (MemoryBroker.reclaim b ch) refs.
Proof.
  intros []. unfold MemoryBroker.reclaim. repeat case_match; by constructor.
Qed.

#[export] Instance memory_sub_broker_laws : SubBrokerLaws (MemoryBroker.memoryBroker (M:=M)).
Proof.
  refine {| b_wf := λ b, ∃ refs, MemoryBroker.interest_inv b refs; b_refs := memory_refs |}.
  - intros b ch [refs Hi]. cbn.
    destruct (compile_cases ch) as [[_ Hc]|[(_ & _ & ci & Hc)|(_ & _ & _ & Hc)]].
    + unfold MemoryBroker.Subscribe. rewrite Hc. cbn. eexists _, _. split; [done|]. eauto.
    + destruct (MemoryBroker.Subscribe_interest b refs ch ci Hi Hc) as (b' & -> & Hi' & _). cbn.
      eexists _, _. split; [done|]. split; [eauto|]. intros x. cbn.
      rewrite (memory_refs_inv _ _ _ Hi'), (memory_refs_inv _ _ _ Hi), MemoryBroker.cnt_insert.
      case_bool_decide; [subst; by rewrite decide_True|by rewrite decide_False].
    + unfold MemoryBroker.Subscribe. rewrite Hc. cbn. eexists _, _. split; [done|]. eauto.
  - intros b ch [refs Hi]. cbn.
    destruct (MemoryBroker.Unsubscribe_interest b refs ch Hi) as (b' & b1 & -> & _ & Hi1 & Hb).
    assert (MemoryBroker.interest_inv b' (<[ch := MemoryBroker.cnt refs ch - 1]> refs)) as Hi'.
    { destruct Hb as [->| ->]; [done|]. by apply reclaim_interest. }
    cbn. eexists _, _. split; [done|]. split; [eauto|]. intros x. cbn.
    rewrite (memory_refs_inv _ _ _ Hi'), (memory_refs_inv _ _ _ Hi), MemoryBroker.cnt_insert.
    case_bool_decide; [subst; rewrite decide_True by done; lia|by rewrite decide_False].
Defined.

End Memory.

(** ** A concrete node: trie, memory broker, a cluster store with faults *)

(** [fs_faults]: the outcomes of the next calls; calls beyond the list succeed. *)
Record FaultyStore := mkStore {
  fs_snapshots : gmap SessRef Snapshot;
  fs_channels : gmap string Z;
  fs_faults : list bool;
}.

#[export] Instance faulty_store : ClusterStore FaultyStore := {
  c_sync c snap st :=
    match fs_faults st with
    | true :: l => (false, mkStore (fs_snapshots st) (fs_channels st) l)
    | l => (true, mkStore (<[c := snap]> (fs_snapshots st)) (fs_channels st) (tail l))
    end;
  c_adjust ch d st :=
    match fs_faults st with
    | true :: l => (false, mkStore (fs_snapshots st) (fs_channels st) l)
    | l => (true, mkStore (fs_snapshots st)
             (<[ch := (default 0 (fs_channels st !! ch) + d)%Z]> (fs_channels st)) (tail l))
    end;
}.

Abbreviation mem_broker := (MemoryBroker.memoryBroker (M:=CSTrie.heap (Sub:=string))).
Abbreviation Node0 := (Node (CSTrie.heap (Sub:=Subscriber)) mem_broker FaultyStore).

Definition node0 (faults : list bool) : Node0 :=
  mkNode NewHubSubs ∅ ∅ (MemoryBroker.NewMemoryBroker 4 "e") (mkStore ∅ ∅ faults) true 0 0 0.

Lemma fresh_node0 faults : fresh (node0 faults).
Proof.
  assert (MemoryBroker.interest_inv (n_broker (node0 faults)) ∅) as Hi
    by eapply (MemoryBroker.sim_interest _ _ _ MemoryBroker.spec0), (MemoryBroker.sim_new 4 eq_refl).
  split_and!; try done; [by exists ∅|]. intros ch. exact (memory_refs_inv _ _ ch Hi).
Qed.

Definition s1 : SessRef := mkRef 1 "s1".
Definition own0 (sid : string) : SessRef := mkRef 1 sid.

Lemma exact_add_ok ch :
  IsWildcard ch = false → op_ok own0 (OAdd ch (NewSubscriber s1 false)).
Proof. intros Hw. split; [split; [done|by rewrite Hw]|done]. Qed.



Lemma failed_subscription_no_trace_witness :
  ∃ n', exec_op (node0 [false; true]) (OAdd "acme:im.y" (NewSubscriber s1 false)) = Some (true, n') ∧
    (∀ ch c, has_char ":" (sr_sid c) = false →
       LookupSubscriber (n_hub n') ch c = LookupSubscriber (n_hub (node0 [false; true])) ch c).
Proof.
  destruct (exec_op (node0 [false; true]) (OAdd "acme:im.y" (NewSubscriber s1 false)))
    as [[failed n']|] eqn:Hex; [|exfalso; vm_compute in Hex; discriminate Hex].
  assert ((fst <$> exec_op (node0 [false; true]) (OAdd "acme:im.y" (NewSubscriber s1 false))) = Some true) as Hv
    by (vm_compute; reflexivity).
  rewrite Hex in Hv. cbn in Hv. injection Hv as ->. exists n'. split; [reflexivity|].
  apply (failed_subscription_no_trace own0 (node0 [false; true]) ∅ ∅ true
    (OAdd "acme:im.y" (NewSubscriber s1 false)) true n');
    [apply fresh_inv, fresh_node0| |vm_compute; reflexivity|discriminate|exact Hex|reflexivity].
  apply exact_add_ok. vm_compute. reflexivity.
Defined.

(** The session snapshot is not part of the atomicity.  When the last saga
    step (the channel projection) fails, the cluster.session rollback runs
    first and writes the snapshot again from the session's channel set, which
    still holds the channel: the subscribe fails and is undone locally, but the
    snapshot in the directory keeps listing the channel. *)
Theorem snapshot_keeps_failed_channel :
  ∃ n', AddSubscription (node0 [false; true; false]) "acme:im.y" (NewSubscriber s1 false)
          = Some (Some ("cluster.channel", ECluster), n') ∧
    LookupSubscriber (n_hub n') "acme:im.y" s1 = None ∧
    "acme:im.y" ∉ SubscribedChannels n' s1 ∧
    (fs_snapshots (n_cluster n') !! s1 ≫= (.!! "acme:im.y")) = Some (false, 0%Z).
Proof.
  destruct (AddSubscription (node0 [false; true; false]) "acme:im.y" (NewSubscriber s1 false))
    as [[e n']|] eqn:Hex; [|exfalso; vm_compute in Hex; discriminate Hex].
  assert (((λ '(e, n), (e, LookupSubscriber (n_hub n) "acme:im.y" s1,
      bool_decide ("acme:im.y" ∈ SubscribedChannels n s1),
      (fs_snapshots (n_cluster n) !! s1 ≫= (.!! "acme:im.y"))))
    <$> AddSubscription (node0 [false; true; false]) "acme:im.y" (NewSubscriber s1 false))
    = Some (Some ("cluster.channel", ECluster), None, false, Some (false, 0%Z))) as Hv
    by (vm_compute; reflexivity).
  rewrite Hex in Hv. cbn in Hv. injection Hv as -> Hl Hb Hf. exists n'. split; [reflexivity|].
  split; [exact Hl|]. split; [|exact Hf]. by apply bool_decide_eq_false in Hb.
Qed.

End NodeSubs.
