(* ===== verification/Strconv.v ===== *)
(** * Strconv: decimal numerals (Go's strconv)

    ParseUint, ParseInt, FormatUint and FormatInt in base 10, and their round
    trips. *)

From S2P Require Import Prelude.

Module Strconv.

Inductive parse_error := ErrSyntax | ErrRange.

Definition digit (c : ascii) : option N :=
  let x := N_of_ascii c in if (48 <=? x)%N && (x <=? 57)%N then Some (x - 48)%N else None.

(** The digits left to right; the value is refused as soon as it exceeds [max]. *)
Fixpoint parse_digits (max acc : N) (s : string) : result parse_error N :=
  match s with
  | "" => Ok acc
  | String c s' =>
      match digit c with
      | None => Err ErrSyntax
      | Some d => let acc' := (acc * 10 + d)%N in
                  if (max <? acc')%N then Err ErrRange else parse_digits max acc' s'
      end
  end.

(** [ParseUint(s, 10, bits)]: the value Go returns beside an error is 0, or the
    maximum when out of range. *)
Definition ParseUint (bits : N) (s : string) : N * option parse_error :=
  let max := (2 ^ bits - 1)%N in
  if bool_decide (s = "") then (0%N, Some ErrSyntax)
  else match parse_digits max 0 s with
       | Ok n => (n, None)
       | Err ErrSyntax => (0%N, Some ErrSyntax)
       | Err ErrRange => (max, Some ErrRange)
       end.

(** [ParseInt(s, 10, 64)]; [Atoi] on a 64-bit platform. *)
Definition ParseInt (s : string) : Z * option parse_error :=
  let '(neg, body) :=
    match s with
    | String "+" s' => (false, s')
    | String "-" s' => (true, s')
    | _ => (false, s)
    end in
  match ParseUint 64 body with
  | (_, Some ErrSyntax) => (0%Z, Some ErrSyntax)
  | (un, err) =>
      if negb neg && (2 ^ 63 <=? un)%N then ((2 ^ 63 - 1)%Z, Some ErrRange)
      else if neg && (2 ^ 63 <? un)%N then ((- 2 ^ 63)%Z, Some ErrRange)
      else (if neg then - Z.of_N un else Z.of_N un, err)%Z
  end.

Definition FormatUint (n : N) : string := pretty n.
Definition FormatInt (n : Z) : string := pretty n.

(** ** Round trips *)

Lemma digit_pretty x : (x < 10)%N → digit (pretty_N_char x) = Some x.
Proof.
  intros Hx. assert (∃ k, k < 10 ∧ x = N.of_nat k) as (k & Hk & ->) by (exists (N.to_nat x); lia).
  do 10 (destruct k as [|k]; [reflexivity|]). lia.
Qed.

Lemma parse_digits_go max x : ∀ s, (x ≤ max)%N →
  parse_digits max 0 (pretty_N_go x s) = parse_digits max x s.
Proof.
  induction (N.lt_wf_0 x) as [x _ IH]. intros s Hx. destruct (decide (x = 0%N)) as [->|Hne]; [done|].
  rewrite pretty_N_go_step by lia. rewrite IH; [|apply N.div_lt; lia|transitivity x; [apply N.Div0.div_le_upper_bound; lia|done]].
  simpl. rewrite digit_pretty by (apply N.mod_lt; lia).
  replace (x `div` 10 * 10 + x `mod` 10)%N with x by (rewrite (N.div_mod x 10) at 1 by lia; lia).
  by rewrite (proj2 (N.ltb_ge max x)).
Qed.

Lemma parse_pretty max x : (x ≤ max)%N → parse_digits max 0 (pretty x) = Ok x ∧ pretty x ≠ "".
Proof.
  intros Hx. unfold pretty, pretty_N. case_decide as Hz; [subst; split; [by destruct max|done]|].
  split; [by rewrite parse_digits_go by done|]. intros Heq.
  pose proof (parse_digits_go max x "" Hx) as Hp. rewrite Heq in Hp. simpl in Hp. congruence.
Qed.

Lemma ParseUint_Format bits x : (x < 2 ^ bits)%N → ParseUint bits (FormatUint x) = (x, None).
Proof.
  intros Hx. unfold ParseUint, FormatUint. destruct (parse_pretty (2 ^ bits - 1) x ltac:(lia)) as [-> Hne].
  by rewrite bool_decide_eq_false_2.
Qed.

Lemma ParseInt_Format (z : Z) : (0 ≤ z < 2 ^ 63)%Z → ParseInt (FormatInt z) = (z, None).
Proof.
  intros Hz. assert (FormatInt z = FormatUint (Z.to_N z)) as -> by (destruct z; done || lia).
  unfold ParseInt. pose proof (ParseUint_Format 64 (Z.to_N z) ltac:(lia)) as Hp.
  destruct (FormatUint (Z.to_N z)) as [|c s] eqn:Hs; [done|].
  assert (digit c ≠ None) as Hd.
  { destruct (parse_pretty (2 ^ 64 - 1) (Z.to_N z) ltac:(lia)) as [Hd _]. unfold FormatUint in Hs. rewrite Hs in Hd.
    simpl in Hd. by destruct (digit c). }
  assert ((match String c s with
           | String "+" s' => (false, s') | String "-" s' => (true, s') | _ => (false, String c s) end)
          = (false, String c s)) as ->.
  { destruct c as [[] [] [] [] [] [] [] []]; try reflexivity; by destruct Hd. }
  rewrite Hp. cbn [negb andb]. rewrite (proj2 (N.leb_gt _ _)) by lia. by rewrite Z2N.id by lia.
Qed.

End Strconv.
