(* ===== verification/Epoch.v ===== *)
(** * Epoch: node incarnations (internal/cluster/epoch.go, ClusterOptions.Normalize)

    A node's incarnation ID is the decimal form of a per-node counter; the
    numeric order of the counters decides which generation is newer. *)

From S2P Require Import Prelude.

Module Epoch.

(** ** strconv: FormatUint and ParseUint, base 10, 64 bits *)

Definition FormatNodeEpoch (epoch : Z) : string := pretty (Z.to_N epoch).

Definition digit_value (c : ascii) : Z := (Z.of_N (N_of_ascii c) - 48)%Z.

(** The loop of [ParseUint]: [None] on a character that is no digit. *)
Fixpoint parse_digits (acc : Z) (s : string) : option Z :=
  match s with
  | EmptyString => Some acc
  | String c s' => if is_digit c then parse_digits (acc * 10 + digit_value c)%Z s' else None
  end.

Definition ParseUint (s : string) : option Z :=
  if bool_decide (s = "") then None
  else n ← parse_digits 0 s; if (n <? u64_modulus)%Z then Some n else None.

Definition ParseNodeEpoch (incarnationID : string) : option Z :=
  if bool_decide (incarnationID = "") then None
  else match ParseUint incarnationID with
       | None => None
       | Some epoch =>
           if (epoch =? 0)%Z then None
           else if bool_decide (FormatNodeEpoch epoch = incarnationID) then Some epoch else None
       end.

Definition NodeEpochNewer (a b : string) : bool :=
  match ParseNodeEpoch a, ParseNodeEpoch b with
  | Some epochA, Some epochB => (epochB <? epochA)%Z
  | _, _ => false
  end.

(** ** The process-local allocator *)

Inductive EpochError := ENodeIDRequired | ENoAllocator | EBackend.

(** [epochs]: node ID -> last issued epoch. *)
Abbreviation MemoryNodeEpochAllocator := (gmap string Z).

Definition NewMemoryNodeEpochAllocator : MemoryNodeEpochAllocator := ∅.

Definition NextNodeEpoch (a : MemoryNodeEpochAllocator) (nodeID : string)
    : result EpochError Z * MemoryNodeEpochAllocator :=
  if bool_decide (nodeID = "") then (Err ENodeIDRequired, a)
  else let e := u64 (default 0%Z (a !! nodeID) + 1)%Z in (Ok e, <[nodeID := e]> a).

(** ** Options *)

Record ClusterOptions := mkOptions {
  o_Enabled : bool; o_NodeID : string; o_Backend : string; o_IncarnationID : string;
}.

(** [trim]: strings.TrimSpace. *)
Definition Normalize (trim : string → string) (o : ClusterOptions) : result EpochError ClusterOptions :=
  if negb (o_Enabled o) then Ok (mkOptions false "" "" "")
  else
    let nodeID := trim (o_NodeID o) in
    if bool_decide (nodeID = "") then Err ENodeIDRequired
    else
      let backend := if bool_decide (trim (o_Backend o) = "") then "redis" else trim (o_Backend o) in
      if bool_decide (backend ∈ ["redis"; "memory"; "noop"])
      then Ok (mkOptions true nodeID backend (trim (o_IncarnationID o)))
      else Err EBackend.

(** [directory]: the answer of the directory's own allocator, if it has one;
    [shared]: the process-wide memory allocator. *)
Definition AllocateNodeIncarnation (options : ClusterOptions)
    (directory : option (string → result EpochError Z)) (shared : MemoryNodeEpochAllocator)
    : result EpochError string * MemoryNodeEpochAllocator :=
  match directory with
  | Some alloc =>
      (match alloc (o_NodeID options) with Ok e => Ok (FormatNodeEpoch e) | Err e => Err e end, shared)
  | None =>
      if bool_decide (o_Backend options = "redis") then (Err ENoAllocator, shared)
      else let '(r, shared') := NextNodeEpoch shared (o_NodeID options) in
           (match r with Ok e => Ok (FormatNodeEpoch e) | Err e => Err e end, shared')
  end.

(** ** Proofs *)

Lemma digit_of_pretty d : (d < 10)%N →
  is_digit (pretty_N_char d) = true ∧ digit_value (pretty_N_char d) = Z.of_N d.
Proof.
  intros Hd. assert (d = 0 ∨ d = 1 ∨ d = 2 ∨ d = 3 ∨ d = 4 ∨ d = 5 ∨ d = 6 ∨ d = 7 ∨ d = 8 ∨ d = 9)%N by lia.
  naive_solver.
Qed.

Lemma parse_pretty_go n : ∀ s, parse_digits 0 (pretty_N_go n s) = parse_digits (Z.of_N n) s.
Proof.
  induction (N.lt_wf_0 n) as [n _ IH]. intros s. destruct (decide (n = 0%N)) as [->|Hn]; [done|].
  rewrite pretty_N_go_step, IH by (try apply N.div_lt; lia). cbn [parse_digits].
  destruct (digit_of_pretty (n `mod` 10)) as [-> ->]; [by apply N.mod_lt|]. f_equal.
  rewrite N2Z.inj_div, N2Z.inj_mod. pose proof (Z_div_mod_eq_full (Z.of_N n) 10). lia.
Qed.

Lemma parse_Format n : (0 ≤ n)%Z → parse_digits 0 (FormatNodeEpoch n) = Some n.
Proof.
  intros Hn. unfold FormatNodeEpoch, pretty, pretty_N. case_decide as Hz.
  - assert (n = 0%Z) as -> by lia. done.
  - rewrite parse_pretty_go. cbn. f_equal. lia.
Qed.

Lemma Format_ne n : FormatNodeEpoch n ≠ "".
Proof.
  unfold FormatNodeEpoch, pretty, pretty_N. case_decide as Hz; [done|]. intros He.
  assert (parse_digits 0 (pretty_N_go (Z.to_N n) "") = Some 0%Z) as Hp by by rewrite He.
  rewrite parse_pretty_go in Hp. cbn in Hp. simplify_eq. lia.
Qed.

Lemma digit_value_nonneg c : is_digit c = true → (0 ≤ digit_value c)%Z.
Proof. unfold is_digit, digit_value. intros [H1%N.leb_le _]%andb_true_iff. lia. Qed.

Lemma parse_digits_nonneg s : ∀ acc n, (0 ≤ acc)%Z → parse_digits acc s = Some n → (0 ≤ n)%Z.
Proof.
  induction s as [|c s IH]; intros acc n Ha; cbn [parse_digits]; [by intros [= <-]|].
  destruct (is_digit c) eqn:Hc; [|done]. apply IH. pose proof (digit_value_nonneg c Hc). lia.
Qed.

(** Exactly the canonical renderings of non-zero epochs parse. *)
Lemma ParseNodeEpoch_spec s e :
  ParseNodeEpoch s = Some e ↔ s = FormatNodeEpoch e ∧ (0 < e < u64_modulus)%Z.
Proof.
  unfold ParseNodeEpoch, ParseUint. split.
  - case_bool_decide as Hs; [done|]. destruct (parse_digits 0 s) as [n|] eqn:Hp; [|done]. cbn.
    destruct (Z.ltb_spec n u64_modulus); [|done]. destruct (Z.eqb_spec n 0); [done|].
    case_bool_decide as Hf; [|done]. intros [= <-]. apply parse_digits_nonneg in Hp; [|done].
    split; [done|lia].
  - intros [-> He]. rewrite bool_decide_eq_false_2 by apply Format_ne.
    rewrite parse_Format by lia. cbn. rewrite (proj2 (Z.ltb_lt e u64_modulus)) by lia.
    destruct (Z.eqb_spec e 0); [lia|]. by rewrite bool_decide_eq_true_2.
Qed.

(** The allocations of a sequence of node starts; [None] marks a failed one. *)
Fixpoint allocate_all (starts : list ClusterOptions) (a : MemoryNodeEpochAllocator)
    : list (option string) :=
  match starts with
  | [] => []
  | o :: rest =>
      let '(r, a') := AllocateNodeIncarnation o None a in
      (match r with Ok s => Some s | Err _ => None end) :: allocate_all rest a'
  end.

(** How often [node] was started. *)
Definition starts_of (node : string) (l : list ClusterOptions) : nat :=
  length (filter (λ o, o_NodeID o = node) l).

Lemma starts_of_cons node o l :
  starts_of node (o :: l) = (if decide (o_NodeID o = node) then 1 else 0) + starts_of node l.
Proof. unfold starts_of. rewrite filter_cons. by case_decide. Qed.

Lemma allocate_all_lookup starts : ∀ a i o,
  Forall (λ o, o_Backend o ≠ "redis" ∧ o_NodeID o ≠ "") starts →
  (∀ node, (0 ≤ default 0 (a !! node))%Z ∧
     (default 0 (a !! node) + Z.of_nat (starts_of node starts) < u64_modulus)%Z) →
  starts !! i = Some o →
  allocate_all starts a !! i =
    Some (Some (FormatNodeEpoch (default 0%Z (a !! o_NodeID o) + 1 + Z.of_nat (starts_of (o_NodeID o) (take i starts))))).
Proof.
  induction starts as [|o' starts IH]; intros a i o Hall Hb Hi; [done|].
  apply Forall_cons in Hall as [[Hredis Hnode] Hall]. cbn [allocate_all].
  unfold AllocateNodeIncarnation, NextNodeEpoch. rewrite !bool_decide_eq_false_2 by done.
  assert (u64 (default 0 (a !! o_NodeID o') + 1) = default 0 (a !! o_NodeID o') + 1)%Z as Hu.
  { apply u64_small. destruct (Hb (o_NodeID o')) as [? Hlt]. rewrite starts_of_cons, decide_True in Hlt by done.
    unfold is_u64. lia. }
  rewrite Hu. destruct i as [|i]; cbn [lookup list_lookup take] in *.
  { simplify_eq. cbn. do 3 f_equal. lia. }
  rewrite (IH (<[o_NodeID o' := (default 0 (a !! o_NodeID o') + 1)%Z]> a) i o); [|done| |done].
  - do 3 f_equal. rewrite lookup_insert, starts_of_cons.
    destruct (decide (o_NodeID o' = o_NodeID o)) as [Heq|]; cbn; [rewrite Heq|]; lia.
  - intros node. destruct (Hb node) as [Hp Hlt]. rewrite starts_of_cons in Hlt. rewrite lookup_insert.
    case_decide as Hd; [subst; cbn|]; lia.
Qed.

(** Node generations.  On the memory and noop backends, start nodes in any
    order (fewer than 2^64 times): every start gets an incarnation ID that
    parses, each start of a node is strictly newer than every earlier start of
    the same node, and only canonical renderings of non-zero 64-bit epochs
    parse, so a hand-written ID never counts as newer. *)
Theorem incarnations_increase starts i j oi oj :
  Forall (λ o, o_Backend o ≠ "redis" ∧ o_NodeID o ≠ "") starts →
  (Z.of_nat (length starts) < u64_modulus)%Z →
  i < j → starts !! i = Some oi → starts !! j = Some oj → o_NodeID oi = o_NodeID oj →
  ∃ si sj, allocate_all starts NewMemoryNodeEpochAllocator !! i = Some (Some si) ∧
    allocate_all starts NewMemoryNodeEpochAllocator !! j = Some (Some sj) ∧
    NodeEpochNewer sj si = true ∧ NodeEpochNewer si sj = false ∧
    ∀ s, NodeEpochNewer s sj = true →
      ∃ e, s = FormatNodeEpoch e ∧ sj ≠ s ∧ (0 < e < u64_modulus)%Z.
Proof.
  intros Hall Hlen Hij Hi Hj Hnode.
  assert (∀ node, starts_of node starts ≤ length starts) as Hle.
  { intros node. unfold starts_of. apply length_filter. }
  assert (∀ node : string, (0 ≤ default 0 (NewMemoryNodeEpochAllocator !! node))%Z ∧
    (default 0 (NewMemoryNodeEpochAllocator !! node) + Z.of_nat (starts_of node starts) < u64_modulus)%Z) as Hb.
  { intros node. unfold NewMemoryNodeEpochAllocator. rewrite lookup_empty. cbn. specialize (Hle node). lia. }
  rewrite (allocate_all_lookup _ _ i oi Hall Hb Hi), (allocate_all_lookup _ _ j oj Hall Hb Hj).
  eexists _, _. split; [done|]. split; [done|].
  unfold NewMemoryNodeEpochAllocator. rewrite !lookup_empty, <-Hnode. cbn [default from_option].
  set (ni := starts_of _ (take i starts)). set (nj := starts_of _ (take j starts)).
  assert (ni < nj) as Hn.
  { unfold ni, nj, starts_of. rewrite <-(take_drop i (take j starts)), take_take, Nat.min_l by lia.
    rewrite filter_app, length_app.
    assert (drop i (take j starts) !! 0 = Some oi) as Hd.
    { rewrite lookup_drop, Nat.add_0_r, lookup_take_lt by lia. done. }
    destruct (drop i (take j starts)) as [|o l]; [done|]. cbn in Hd. simplify_eq.
    rewrite filter_cons_True by done. cbn. lia. }
  assert (nj < length starts) as Hnj.
  { unfold nj, starts_of. eapply Nat.le_lt_trans; [apply length_filter|].
    rewrite length_take. apply lookup_lt_Some in Hj. lia. }
  assert (∀ n, n < length starts → ParseNodeEpoch (FormatNodeEpoch (0 + 1 + Z.of_nat n)) = Some (0 + 1 + Z.of_nat n)%Z)
    as Hp by (intros n Hlt; apply ParseNodeEpoch_spec; split; [done|lia]).
  unfold NodeEpochNewer. rewrite !Hp by lia. split_and!.
  - apply Z.ltb_lt. lia.
  - apply Z.ltb_ge. lia.
  - intros s Hs. destruct (ParseNodeEpoch s) as [e|] eqn:He; [|done]. apply Z.ltb_lt in Hs.
    pose proof (proj1 (ParseNodeEpoch_spec s e) He) as [-> Hr]. exists e. split_and!; [done| |lia..].
    intros Heq. rewrite <-Heq, Hp in He by done. simplify_eq. lia.
Qed.

Definition start0 (node : string) : ClusterOptions := mkOptions true node "memory" "".

Lemma incarnations_increase_witness :
  ∃ si sj, allocate_all [start0 "a"; start0 "b"; start0 "a"] NewMemoryNodeEpochAllocator !! 0 = Some (Some si) ∧
    allocate_all [start0 "a"; start0 "b"; start0 "a"] NewMemoryNodeEpochAllocator !! 2 = Some (Some sj) ∧
    NodeEpochNewer sj si = true.
Proof.
  destruct (incarnations_increase [start0 "a"; start0 "b"; start0 "a"] 0 2 (start0 "a") (start0 "a"))
    as (si & sj & H1 & H2 & H3 & _);
    [repeat constructor; discriminate|vm_compute; reflexivity|lia|reflexivity|reflexivity|reflexivity|].
  exists si, sj. split; [exact H1|]. split; [exact H2|exact H3].
Defined.

End Epoch.
