(* ===== verification/Directory.v ===== *)
(** * Directory: the cluster session directory
      (internal/cluster/state.go, sim/directory.go, user_index.go)

    The shared record of who serves which session.  Every method runs under the
    directory's lock, so each is one atomic step here.  [Prog] is the language
    in which Lease.v writes the nodes' handlers: directory calls, whose answers
    may be errors, separated by local computation. *)

From S2P Require Import Prelude.

Module Directory.

(** ** Records (state.go); times are in milliseconds *)

Record ClusterNodeLease := mkNodeLease {
  nl_NodeID : string; nl_IncarnationID : string; nl_StartedAt : Z; nl_ExpiresAt : Z;
}.

Record ClusterSessionLease := mkLease {
  l_SessionID : string;
  l_NodeID : string;
  l_IncarnationID : string;
  l_UserID : string;
  l_Namespace : string;
  l_ClientID : string;
  l_LeaseVersion : Z;
  l_Authenticated : bool;
  l_ConnectedAt : Z;
  l_LastActivityAt : Z;
  l_ExpiresAt : Z;
}.

Record ClusterSubscriptionSnapshot := mkSubSnap { ss_Channel : string; ss_Ephemeral : bool }.

Record ClusterSessionSnapshot := mkSnapshot {
  sn_SessionID : string;
  sn_UserID : string;
  sn_Namespace : string;
  sn_ClientID : string;
  sn_Authenticated : bool;
  sn_Protocol : string;
  sn_ConnectedAt : Z;
  sn_Subscriptions : list ClusterSubscriptionSnapshot;
  sn_ChannelOffsets : gmap string Z;
  sn_BrokerEpoch : string;
  sn_AuthContext : gmap string string;
  sn_UpdatedAt : Z;
}.

#[export] Instance ClusterSessionLease_eq_dec : EqDecision ClusterSessionLease.
Proof. solve_decision. Defined.

(** A node incarnation: (node ID, incarnation ID). *)
Definition owner (l : ClusterSessionLease) : string * string := (l_NodeID l, l_IncarnationID l).

(** ** The directory (sim/directory.go) *)

Record Directory := mkDir {
  d_sessionLeases : gmap string ClusterSessionLease;
  d_snapshots : gmap string ClusterSessionSnapshot;
  d_nodeLeases : gmap (string * string) ClusterNodeLease;
  d_users : gmap string (gset string);
  d_deletedSessionLeases : list string;
}.

Definition NewDirectory : Directory := mkDir ∅ ∅ ∅ ∅ [].

Definition set_leases (d : Directory) m :=
  mkDir m (d_snapshots d) (d_nodeLeases d) (d_users d) (d_deletedSessionLeases d).
Definition set_snapshots (d : Directory) m :=
  mkDir (d_sessionLeases d) m (d_nodeLeases d) (d_users d) (d_deletedSessionLeases d).
Definition set_nodeLeases (d : Directory) m :=
  mkDir (d_sessionLeases d) (d_snapshots d) m (d_users d) (d_deletedSessionLeases d).
Definition set_users (d : Directory) m :=
  mkDir (d_sessionLeases d) (d_snapshots d) (d_nodeLeases d) m (d_deletedSessionLeases d).

Definition PutNodeLease (d : Directory) (l : ClusterNodeLease) : Directory :=
  set_nodeLeases d (<[(nl_NodeID l, nl_IncarnationID l) := l]> (d_nodeLeases d)).

Definition GetNodeLease (d : Directory) (nodeID incarnationID : string) : option ClusterNodeLease :=
  d_nodeLeases d !! (nodeID, incarnationID).

Definition DeleteNodeLease (d : Directory) (nodeID incarnationID : string) : Directory :=
  set_nodeLeases d (delete (nodeID, incarnationID) (d_nodeLeases d)).

Definition ListNodeLeases (d : Directory) : list ClusterNodeLease := snd <$> map_to_list (d_nodeLeases d).

(** Only the fencing fields take part in the comparison. *)
Definition leaseEqual (current expected : option ClusterSessionLease) : bool :=
  match current, expected with
  | Some c, Some e =>
      bool_decide (l_SessionID c = l_SessionID e) && bool_decide (l_NodeID c = l_NodeID e) &&
      bool_decide (l_IncarnationID c = l_IncarnationID e) && (l_LeaseVersion c =? l_LeaseVersion e)%Z
  | None, None => true
  | _, _ => false
  end.

Definition CompareAndSwapSessionLease (d : Directory) (expected : option ClusterSessionLease)
    (desired : ClusterSessionLease) : bool * Directory :=
  if negb (leaseEqual (d_sessionLeases d !! l_SessionID desired) expected) then (false, d)
  else (true, set_leases d (<[l_SessionID desired := desired]> (d_sessionLeases d))).

Definition CompareAndSwapSessionState (d : Directory) (expected : option ClusterSessionLease)
    (desired : ClusterSessionLease) (snapshot : option ClusterSessionSnapshot) : bool * Directory :=
  if negb (leaseEqual (d_sessionLeases d !! l_SessionID desired) expected) then (false, d)
  else
    let d1 := set_leases d (<[l_SessionID desired := desired]> (d_sessionLeases d)) in
    (true, match snapshot with
           | Some s => set_snapshots d1 (<[sn_SessionID s := s]> (d_snapshots d1))
           | None => d1
           end).

Definition GetSessionLease (d : Directory) (sessionID : string) : option ClusterSessionLease :=
  d_sessionLeases d !! sessionID.

Definition userIndexKey (namespace userID : string) : string :=
  namespace +:+ String "000" userID.

Definition removeUserSessionLocked (d : Directory) (namespace userID sessionID : string) : Directory :=
  let key := userIndexKey namespace userID in
  match d_users d !! key with
  | None => d
  | Some sessions =>
      let rest := sessions ∖ {[ sessionID ]} in
      set_users d (if bool_decide (rest = ∅) then delete key (d_users d) else <[key := rest]> (d_users d))
  end.

Definition AddUserSession (d : Directory) (namespace userID sessionID : string) : Directory :=
  if bool_decide (userID = "") || bool_decide (sessionID = "") then d
  else let key := userIndexKey namespace userID in
       set_users d (<[key := {[ sessionID ]} ∪ default ∅ (d_users d !! key)]> (d_users d)).

Definition RemoveUserSession (d : Directory) (namespace userID sessionID : string) : Directory :=
  removeUserSessionLocked d namespace userID sessionID.

Definition ListUserSessions (d : Directory) (namespace userID : string) : gset string :=
  default ∅ (d_users d !! userIndexKey namespace userID).

(** The lease is gone, its user index entry too. *)
Definition drop_lease (d : Directory) (sessionID : string) : Directory :=
  let d1 := match d_sessionLeases d !! sessionID with
            | Some l => if bool_decide (l_UserID l = "") then d
                        else removeUserSessionLocked d (l_Namespace l) (l_UserID l) sessionID
            | None => d
            end in
  mkDir (delete sessionID (d_sessionLeases d1)) (d_snapshots d1) (d_nodeLeases d1) (d_users d1)
    (d_deletedSessionLeases d1 ++ [sessionID]).

Definition DeleteSessionLease (d : Directory) (sessionID : string) : Directory := drop_lease d sessionID.

Definition DeleteSessionLeaseIfOwner (d : Directory) (sessionID nodeID incarnationID : string)
    : bool * Directory :=
  match d_sessionLeases d !! sessionID with
  | None => (false, d)
  | Some l =>
      if negb (bool_decide (l_NodeID l = nodeID)) || negb (bool_decide (l_IncarnationID l = incarnationID))
      then (false, d)
      else (true, drop_lease d sessionID)
  end.

Definition ListSessionLeases (d : Directory) : list ClusterSessionLease :=
  snd <$> map_to_list (d_sessionLeases d).

Definition PutSessionSnapshot (d : Directory) (s : ClusterSessionSnapshot) : Directory :=
  set_snapshots d (<[sn_SessionID s := s]> (d_snapshots d)).

Definition GetSessionSnapshot (d : Directory) (sessionID : string) : option ClusterSessionSnapshot :=
  d_snapshots d !! sessionID.

Definition DeleteSessionSnapshot (d : Directory) (sessionID : string) : Directory :=
  set_snapshots d (delete sessionID (d_snapshots d)).

(** ** The user index (user_index.go) *)

Definition SyncUserIndex (d : Directory) (oldLease newLease : option ClusterSessionLease) : Directory :=
  let sessionID := match newLease, oldLease with
                   | Some l, _ | None, Some l => l_SessionID l
                   | None, None => ""
                   end in
  if bool_decide (sessionID = "") then d
  else match newLease with
       | None =>
           match oldLease with
           | Some o => if bool_decide (l_UserID o = "") then d
                       else RemoveUserSession d (l_Namespace o) (l_UserID o) sessionID
           | None => d
           end
       | Some n =>
           let d1 := match oldLease with
                     | Some o =>
                         if negb (bool_decide (l_UserID o = "")) &&
                            (negb (bool_decide (l_UserID o = l_UserID n)) ||
                             negb (bool_decide (l_Namespace o = l_Namespace n)))
                         then RemoveUserSession d (l_Namespace o) (l_UserID o) sessionID else d
                     | None => d
                     end in
           if bool_decide (l_UserID n = "") then d1
           else AddUserSession d1 (l_Namespace n) (l_UserID n) sessionID
       end.

(** ** Programs over a directory *)

(** The calls a node makes.  [CTakeover] is the takeover command sent to the
    old owner of a session; its error covers a refusal. *)
Inductive call : Type → Type :=
  | CGetLease (sid : string) : call (option ClusterSessionLease)
  | CGetSnapshot (sid : string) : call (option ClusterSessionSnapshot)
  | CGetNode (nodeID incarnationID : string) : call (option ClusterNodeLease)
  | CCasLease (expected : option ClusterSessionLease) (desired : ClusterSessionLease) : call bool
  | CCasState (expected : option ClusterSessionLease) (desired : ClusterSessionLease)
      (snapshot : ClusterSessionSnapshot) : call bool
  | CDeleteIfOwner (sid nodeID incarnationID : string) : call bool
  | CPutSnapshot (snapshot : ClusterSessionSnapshot) : call unit
  | CDeleteSnapshot (sid : string) : call unit
  | CAddUser (namespace userID sid : string) : call unit
  | CListLeases : call (list ClusterSessionLease)
  | CListNodes : call (list ClusterNodeLease)
  | CPutNode (l : ClusterNodeLease) : call unit
  | CTakeover (l : ClusterSessionLease) : call unit.

(** An answer is [None] when the call returned an error. *)
Inductive Prog (A : Type) : Type :=
  | Ret (a : A)
  | Do {X : Type} (c : call X) (k : option X → Prog A).
#[global] Arguments Ret {A} a.
#[global] Arguments Do {A X} c k.

Fixpoint bind {A B} (p : Prog A) (f : A → Prog B) : Prog B :=
  match p with
  | Ret a => f a
  | Do c k => Do c (λ r, bind (k r) f)
  end.

(** What a call does.  The takeover command does not touch the directory. *)
Definition exec_call {X} (c : call X) (d : Directory) : X * Directory :=
  match c with
  | CGetLease sid => (GetSessionLease d sid, d)
  | CGetSnapshot sid => (GetSessionSnapshot d sid, d)
  | CGetNode n i => (GetNodeLease d n i, d)
  | CCasLease e l => CompareAndSwapSessionLease d e l
  | CCasState e l s => CompareAndSwapSessionState d e l (Some s)
  | CDeleteIfOwner sid n i => DeleteSessionLeaseIfOwner d sid n i
  | CPutSnapshot s => (tt, PutSessionSnapshot d s)
  | CDeleteSnapshot sid => (tt, DeleteSessionSnapshot d sid)
  | CAddUser ns u sid => (tt, AddUserSession d ns u sid)
  | CListLeases => (ListSessionLeases d, d)
  | CListNodes => (ListNodeLeases d, d)
  | CPutNode l => (tt, PutNodeLease d l)
  | CTakeover _ => (tt, d)
  end.

(** The outcome of a call: it answers, it fails without effect, or it takes
    effect and the answer is lost. *)
Inductive outcome := Answer | Fail | Lost.

Definition step_call {X} (c : call X) (o : outcome) (d : Directory) : option X * Directory :=
  match o with
  | Answer => let '(x, d') := exec_call c d in (Some x, d')
  | Fail => (None, d)
  | Lost => (None, (exec_call c d).2)
  end.

(** A run without interference, with the outcome of each call (calls beyond
    the list answer). *)
Fixpoint run {A} (p : Prog A) (outs : list outcome) (d : Directory) : A * Directory :=
  match p with
  | Ret a => (a, d)
  | Do c k =>
      let '(r, d') := step_call c (hd Answer outs) d in run (k r) (tail outs) d'
  end.

(** Every call the program can make, whatever the answers, satisfies [P]. *)
Fixpoint calls_ok (P : ∀ X, call X → Prop) {A} (p : Prog A) : Prop :=
  match p with
  | Ret _ => True
  | @Do _ X c k => P X c ∧ ∀ r, calls_ok P (k r)
  end.

Lemma co_do (P : ∀ X, call X → Prop) {A X} (c : call X) (k : option X → Prog A) :
  P X c → (∀ r, calls_ok P (k r)) → calls_ok P (Do c k).
Proof. by split. Qed.

Lemma calls_ok_bind (P : ∀ X, call X → Prop) {A B} (p : Prog A) (f : A → Prog B) :
  calls_ok P p → (∀ a, calls_ok P (f a)) → calls_ok P (bind p f).
Proof.
  intros Hp Hf. induction p as [a|X c k IH]; cbn in *; [apply Hf|].
  destruct Hp as [Hc Hk]. split; [exact Hc|]. intros r. apply IH, Hk.
Qed.

(** ** Lemmas *)

Lemma leaseEqual_spec c e :
  leaseEqual c e = true ↔ match c, e with
    | Some c, Some e => l_SessionID c = l_SessionID e ∧ owner c = owner e ∧ l_LeaseVersion c = l_LeaseVersion e
    | None, None => True | _, _ => False end.
Proof.
  destruct c as [c|], e as [e|]; simpl; try done. unfold owner.
  rewrite !andb_true_iff, !bool_decide_eq_true, Z.eqb_eq. split.
  - intros [[[Hs Hn] Hi] Hv]. by rewrite Hn, Hi.
  - intros (Hs & [= Hn Hi] & Hv). done.
Qed.

End Directory.
