(* ===== verification/Lease.v ===== *)
(** * Lease: who serves a session (internal/runtime/cluster_state.go,
      cluster_resume.go, cluster_repair.go)

    The nodes' handlers as programs over the directory, and all their
    interleavings.  [self] is the incarnation running a handler. *)

From S2P Require Import Prelude Epoch Directory.
Import Directory.

Module Lease.

(** ** The session's side *)

(** [SessionIdentity], as [Session.SnapshotIdentity] copies it. *)
Record Identity := mkIdentity {
  id_SessionID : string;
  id_UserID : string;
  id_Namespace : string;
  id_ClientID : string;
  id_Protocol : string;
  id_Authenticated : bool;
  id_ConnectedAt : Z;
  id_LastActivity : Z;
  id_LeaseVersion : Z;
}.

Definition clusterSessionLease (self : string * string) (ttl now : Z) (i : Identity) : ClusterSessionLease :=
  mkLease (id_SessionID i) self.1 self.2 (id_UserID i) (id_Namespace i) (id_ClientID i)
    (if (id_LeaseVersion i =? 0)%Z then 1 else id_LeaseVersion i)
    (id_Authenticated i) (id_ConnectedAt i) (id_LastActivity i) (now + ttl).

(** The record written beside the lease; [subs] and [offsets] are computed from
    the hub, [epoch] is the broker's. *)
Definition clusterSessionSnapshot (i : Identity) (subs : list ClusterSubscriptionSnapshot)
    (offsets : gmap string Z) (epoch : string) (now : Z) : ClusterSessionSnapshot :=
  let auth : gmap string string :=
    <["user_id" := id_UserID i]> (<["client_id" := id_ClientID i]> (<["protocol" := id_Protocol i]> ∅)) in
  mkSnapshot (id_SessionID i) (id_UserID i) (id_Namespace i) (id_ClientID i) (id_Authenticated i)
    (id_Protocol i) (id_ConnectedAt i) subs offsets epoch
    (if bool_decide (id_Namespace i = "") then auth else <["namespace" := id_Namespace i]> auth) now.

Inductive LeaseError :=
  | EDirectory | ErrSessionFenced | DisconnectInvalidToken | DisconnectStale | ETakeover.

(** ** Writing the state (cluster_state.go) *)

(** [swapper]: the directory has the atomic lease-and-snapshot write. *)
Definition compareAndSwapSessionState (swapper : bool) (expected : option ClusterSessionLease)
    (desired : ClusterSessionLease) (snapshot : ClusterSessionSnapshot) : Prog (option bool) :=
  if swapper then Do (CCasState expected desired snapshot) Ret
  else Do (CCasLease expected desired) (λ r,
    match r with
    | Some true => Do (CPutSnapshot snapshot) (λ r, Ret (match r with Some _ => Some true | None => None end))
    | _ => Ret r
    end).

Definition cas_result (r : option bool) : result LeaseError unit :=
  match r with
  | None => Err EDirectory
  | Some false => Err ErrSessionFenced
  | Some true => Ok tt
  end.

Definition syncClusterSessionState (swapper : bool) (desired : ClusterSessionLease)
    (snapshot : ClusterSessionSnapshot) : Prog (result LeaseError unit) :=
  Do (CGetLease (l_SessionID desired)) (λ r,
    match r with
    | None => Ret (Err EDirectory)
    | Some None =>
        bind (compareAndSwapSessionState swapper None desired snapshot) (λ r, Ret (cas_result r))
    | Some (Some current) =>
        if negb (bool_decide (owner current = owner desired)) then Ret (Err ErrSessionFenced)
        else if (l_LeaseVersion desired <? l_LeaseVersion current)%Z then Ret (Err ErrSessionFenced)
        else bind (compareAndSwapSessionState swapper (Some current) desired snapshot)
               (λ r, Ret (cas_result r))
    end).

(** [sync_session]: the whole call for a session of this node. *)
Definition sync_session (enabled swapper : bool) (self : string * string) (ttl now : Z) (i : Identity)
    (subs : list ClusterSubscriptionSnapshot) (offsets : gmap string Z) (epoch : string)
    : Prog (result LeaseError unit) :=
  if negb enabled then Ret (Ok tt)
  else syncClusterSessionState swapper (clusterSessionLease self ttl now i)
         (clusterSessionSnapshot i subs offsets epoch now).

(** With an owner-checking delete, as the Redis and the simulated directory have. *)
Definition deleteClusterSessionState (enabled : bool) (self : string * string) (now : Z) (sid : string)
    : Prog (result LeaseError unit) :=
  if negb enabled || bool_decide (sid = "") then Ret (Ok tt)
  else Do (CGetLease sid) (λ r,
    match r with
    | None => Ret (Err EDirectory)
    | Some lease =>
        let served_elsewhere := match lease with
          | Some l => (now <? l_ExpiresAt l)%Z &&
              (negb (bool_decide (l_NodeID l = "")) || negb (bool_decide (l_IncarnationID l = ""))) &&
              negb (bool_decide (owner l = self))
          | None => false
          end in
        if served_elsewhere then Ret (Ok tt)
        else Do (CDeleteIfOwner sid self.1 self.2) (λ r,
          match r with
          | None => Ret (Err EDirectory)
          | Some _ => Do (CDeleteSnapshot sid) (λ r, Ret (match r with Some _ => Ok tt | None => Err EDirectory end))
          end)
    end).

(** ** Taking over a session (cluster_resume.go) *)

(** What a successful resume hands to [Session.AdoptIdentity]. *)
Record Adopted := mkAdopted {
  ad_snapshot : ClusterSessionSnapshot;
  ad_namespace : string;
  ad_channels : list string;
  ad_leaseVersion : Z;
}.

Definition desired_lease (self : string * string) (clientNs : string) (now ttl : Z)
    (lease : ClusterSessionLease) : ClusterSessionLease :=
  mkLease (l_SessionID lease) self.1 self.2 (l_UserID lease)
    (if bool_decide (l_Namespace lease = "") then clientNs else l_Namespace lease)
    (l_ClientID lease) (u64 (l_LeaseVersion lease + 1)) (l_Authenticated lease) (l_ConnectedAt lease)
    now (now + ttl).

Definition rollbackSessionTakeover {A} (claimed original : ClusterSessionLease) (k : Prog A) : Prog A :=
  Do (CCasLease (Some claimed) original) (λ _, k).

Definition adopt (clientNs : string) (lease : ClusterSessionLease) (snapshot : ClusterSessionSnapshot)
    : Adopted :=
  mkAdopted snapshot
    (if bool_decide (sn_Namespace snapshot = "") then clientNs else sn_Namespace snapshot)
    (ss_Channel <$> sn_Subscriptions snapshot)
    (if (0 <? l_LeaseVersion lease)%Z then u64 (l_LeaseVersion lease + 1) else 0).

(** [Ok None]: nothing to resume. *)
Definition resumeRemoteSession (enabled : bool) (self : string * string) (clientNs : string)
    (now ttl : Z) (sid authUser : string) : Prog (result LeaseError (option Adopted)) :=
  if negb enabled || bool_decide (sid = "") then Ret (Ok None)
  else Do (CGetLease sid) (λ r,
  match r with
  | None => Ret (Err EDirectory)
  | Some None => Ret (Ok None)
  | Some (Some lease) =>
    if negb (bool_decide (authUser = "")) && negb (bool_decide (l_UserID lease = "")) &&
       negb (bool_decide (authUser = l_UserID lease)) then Ret (Err DisconnectInvalidToken)
    else if negb (bool_decide (clientNs = "")) && negb (bool_decide (l_Namespace lease = "")) &&
            negb (bool_decide (clientNs = l_Namespace lease)) then Ret (Err DisconnectInvalidToken)
    else Do (CGetSnapshot sid) (λ r,
    match r with
    | None => Ret (Err EDirectory)
    | Some None => Ret (Ok None)
    | Some (Some snapshot) =>
      let desired := desired_lease self clientNs now ttl lease in
      Do (CCasLease (Some lease) desired) (λ r,
      match r with
      | None => Ret (Err EDirectory)
      | Some false => Ret (Err DisconnectStale)
      | Some true =>
        let done := Ret (Ok (Some (adopt clientNs lease snapshot))) in
        if negb (bool_decide (l_NodeID lease = "")) && negb (bool_decide (l_IncarnationID lease = "")) &&
           negb (bool_decide (owner lease = self)) then
          if bool_decide (l_NodeID lease = self.1) &&
             Epoch.NodeEpochNewer self.2 (l_IncarnationID lease) then done
          else Do (CTakeover lease) (λ r,
            match r with
            | Some _ => done
            | None =>
              Do (CGetNode (l_NodeID lease) (l_IncarnationID lease)) (λ r,
              match r with
              | None => rollbackSessionTakeover desired lease (Ret (Err EDirectory))
              | Some (Some _) => rollbackSessionTakeover desired lease (Ret (Err ETakeover))
              | Some None => done
              end)
            end)
        else done
      end)
    end)
  end).

(** ** Repair (cluster_repair.go) *)

Fixpoint for_each {A} (l : list A) (f : A → Prog bool) : Prog bool :=
  match l with
  | [] => Ret true
  | x :: l' => bind (f x) (λ ok, if ok then for_each l' f else Ret false)
  end.

(** Re-adds the index entries of unexpired leases; an error ends the pass. *)
Definition repairUserIndex (now : Z) : Prog bool :=
  Do CListLeases (λ r,
    match r with
    | None => Ret false
    | Some leases =>
        for_each leases (λ l,
          if bool_decide (l_SessionID l = "") || bool_decide (l_UserID l = "") || (l_ExpiresAt l <=? now)%Z
          then Ret true
          else Do (CAddUser (l_Namespace l) (l_UserID l) (l_SessionID l))
                 (λ r, Ret (match r with Some _ => true | None => false end)))
    end).

(** Deletes the leases of a departed incarnation; errors are logged only. *)
Definition onLeave (gone : string * string) : Prog bool :=
  Do CListLeases (λ r,
    match r with
    | None => Ret true
    | Some leases =>
        for_each leases (λ l,
          if bool_decide (l_SessionID l = "") || negb (bool_decide (owner l = gone)) then Ret true
          else Do (CDeleteIfOwner (l_SessionID l) gone.1 gone.2) (λ _, Ret true))
    end).

(** The incarnations seen alive on the previous beat. *)
Record Membership := mkMembership { ms_alive : gset (string * string); ms_primed : bool }.

(** [zero]: the zero time, which never counts as expired. *)
Definition alive_set (now zero : Z) (leases : list ClusterNodeLease) : gset (string * string) :=
  list_to_set (omap (λ l,
    if bool_decide (nl_NodeID l = "") || bool_decide (nl_IncarnationID l = "") then None
    else if negb (nl_ExpiresAt l =? zero)%Z && (nl_ExpiresAt l <=? now)%Z then None
    else Some (nl_NodeID l, nl_IncarnationID l)) leases).

(** The incarnations OnLeave fires for. *)
Definition departed (self : string * string) (m : Membership) (current : gset (string * string))
    : gset (string * string) :=
  if ms_primed m then (ms_alive m ∖ current) ∖ {[ self ]} else ∅.

Definition membershipOnce (self : string * string) (now zero : Z) (m : Membership)
    : Prog (Membership * gset (string * string)) :=
  Do CListNodes (λ r,
    match r with
    | None => Ret (m, ∅)
    | Some leases =>
        let current := alive_set now zero leases in
        let gone := departed self m current in
        bind (for_each (elements gone) onLeave) (λ _, Ret (mkMembership current true, gone))
    end).

(** ** All interleavings *)

Section System.
Context (swapper : bool).    (* whether the directory has the atomic write *)

(** Session handlers and repair handlers of a node incarnation. *)
Inductive kind := Session | Repair.

Inductive handler : kind → string * string → Prog unit → Prop :=
  | h_sync enabled self ttl now i subs offsets epoch :
      handler Session self
        (bind (sync_session enabled swapper self ttl now i subs offsets epoch) (λ _, Ret tt))
  | h_close enabled self now sid :
      handler Session self (bind (deleteClusterSessionState enabled self now sid) (λ _, Ret tt))
  | h_resume enabled self clientNs now ttl sid authUser :
      handler Session self
        (bind (resumeRemoteSession enabled self clientNs now ttl sid authUser) (λ _, Ret tt))
  | h_index self now : handler Repair self (bind (repairUserIndex now) (λ _, Ret tt))
  | h_membership self now zero m :
      handler Repair self (bind (membershipOnce self now zero m) (λ _, Ret tt)).

Record sys := mkSys {
  s_dir : Directory;
  s_threads : gmap nat (kind * (string * string) * Prog unit);
}.

Inductive label :=
  | LSpawn (t : nat)                 (* a handler starts *)
  | LCall (t : nat) (o : outcome)    (* the next call of a handler *)
  | LExpire (sid : string)           (* a session lease reaches its TTL *)
  | LNode.                           (* node leases are renewed or expire *)

Inductive step : sys → label → sys → Prop :=
  | st_spawn d ts t k self p :
      ts !! t = None → handler k self p →
      step (mkSys d ts) (LSpawn t) (mkSys d (<[t := (k, self, p)]> ts))
  | st_call d ts t o k self X (c : call X) kont :
      ts !! t = Some (k, self, Do c kont) →
      step (mkSys d ts) (LCall t o)
        (mkSys (step_call c o d).2 (<[t := (k, self, kont (step_call c o d).1)]> ts))
  | st_expire d ts sid :
      step (mkSys d ts) (LExpire sid) (mkSys (set_leases d (delete sid (d_sessionLeases d))) ts)
  | st_node d ts m : step (mkSys d ts) LNode (mkSys (set_nodeLeases d m) ts).

Inductive reachable : sys → Prop :=
  | re_init : reachable (mkSys NewDirectory ∅)
  | re_step s l s' : reachable s → step s l s' → reachable s'.

(** ** What a handler may write *)

(** The calls of session handlers: refreshes of one's own lease, claims of the
    next version, returning a claim, deleting one's own lease. *)
Definition refresh_ok (self : string * string) (expected : option ClusterSessionLease)
    (desired : ClusterSessionLease) : Prop :=
  owner desired = self ∧
  match expected with
  | None => True
  | Some c => owner c = self ∧ (l_LeaseVersion c ≤ l_LeaseVersion desired)%Z
  end.

Definition claim_ok (self : string * string) (expected : option ClusterSessionLease)
    (desired : ClusterSessionLease) : Prop :=
  ∃ c, expected = Some c ∧ owner desired = self ∧ l_LeaseVersion desired = u64 (l_LeaseVersion c + 1).

Definition giveback_ok (self : string * string) (expected : option ClusterSessionLease)
    (desired : ClusterSessionLease) : Prop :=
  ∃ c, expected = Some c ∧ owner c = self ∧ l_LeaseVersion c = u64 (l_LeaseVersion desired + 1).

Definition call_ok (k : kind) (self : string * string) (X : Type) (c : call X) : Prop :=
  match k, c with
  | Session, CCasState e l s => refresh_ok self e l ∧ sn_SessionID s = l_SessionID l
  | Session, CCasLease e l => refresh_ok self e l ∨ claim_ok self e l ∨ giveback_ok self e l
  | Session, CPutSnapshot _ => swapper = false
  | Session, CDeleteIfOwner _ n i => (n, i) = self
  | Repair, CDeleteIfOwner _ n i => (n, i) ≠ self
  | Repair, CCasState _ _ _ | Repair, CCasLease _ _ | Repair, CPutSnapshot _
  | Repair, CDeleteSnapshot _ => False
  | _, _ => True
  end.

Ltac calls := repeat first
  [ exact I | apply calls_ok_bind; [|intros] | apply co_do; [|intros [|]]
  | match goal with |- calls_ok _ (if ?b then _ else _) => destruct b eqn:? end
  | match goal with |- calls_ok _ (match ?b with _ => _ end) => destruct b end ].

Lemma cas_state_ok self e l s :
  refresh_ok self e l → sn_SessionID s = l_SessionID l →
  calls_ok (call_ok Session self) (compareAndSwapSessionState swapper e l s).
Proof.
  intros Hr Hs. unfold compareAndSwapSessionState. calls; cbn; auto.
Qed.

Lemma sync_ok enabled self ttl now i subs offsets epoch :
  calls_ok (call_ok Session self) (sync_session enabled swapper self ttl now i subs offsets epoch).
Proof.
  unfold sync_session, syncClusterSessionState.
  assert (owner (clusterSessionLease self ttl now i) = self) as Hself by (by destruct self).
  calls; try done; apply cas_state_ok; try done.
  split; [done|]. rewrite negb_false_iff, bool_decide_eq_true, Z.ltb_ge in *. split; [congruence|done].
Qed.

Lemma close_ok enabled self now sid :
  calls_ok (call_ok Session self) (deleteClusterSessionState enabled self now sid).
Proof. unfold deleteClusterSessionState. calls; try done. cbn. by destruct self. Qed.

Lemma resume_ok enabled self clientNs now ttl sid authUser :
  calls_ok (call_ok Session self) (resumeRemoteSession enabled self clientNs now ttl sid authUser).
Proof.
  unfold resumeRemoteSession, rollbackSessionTakeover. destruct self as [n i].
  calls; try done; cbn; right; [left|right..]; eexists; by split_and!.
Qed.

Lemma for_each_ok (P : ∀ X, call X → Prop) {A} (l : list A) f :
  (∀ x, x ∈ l → calls_ok P (f x)) → calls_ok P (for_each l f).
Proof.
  induction l as [|x l IH]; intros Hf; cbn; [exact I|].
  apply calls_ok_bind; [apply Hf; by left|]. intros [|]; [|exact I]. apply IH. intros y Hy. apply Hf. by right.
Qed.

Lemma repair_ok self now : calls_ok (call_ok Repair self) (repairUserIndex now).
Proof. unfold repairUserIndex. calls; try done. apply for_each_ok. intros x _. calls; done. Qed.

Lemma onLeave_ok self gone : gone ≠ self → calls_ok (call_ok Repair self) (onLeave gone).
Proof.
  intros Hne. unfold onLeave. calls; try done. apply for_each_ok. intros x _. destruct gone. calls; done.
Qed.

Lemma membership_ok self now zero m : calls_ok (call_ok Repair self) (membershipOnce self now zero m).
Proof.
  unfold membershipOnce. calls; try done. apply for_each_ok. intros x Hx. apply onLeave_ok.
  unfold departed in Hx. destruct (ms_primed m); set_solver.
Qed.

Lemma handler_ok k self p : handler k self p → calls_ok (call_ok k self) p.
Proof.
  destruct 1; (apply calls_ok_bind; [|intros; exact I]);
    auto using sync_ok, close_ok, resume_ok, repair_ok, membership_ok.
Qed.

(** ** How a lease changes *)

Inductive lease_change : kind → string * string →
    option ClusterSessionLease → option ClusterSessionLease → Prop :=
  (* first registration *)
  | lc_register self l : owner l = self → lease_change Session self None (Some l)
  (* a refresh by the recorded owner never lowers the version *)
  | lc_refresh self l l' :
      owner l = self → owner l' = self → (l_LeaseVersion l ≤ l_LeaseVersion l')%Z →
      lease_change Session self (Some l) (Some l')
  (* a takeover advances the version by one *)
  | lc_claim self l l' :
      owner l' = self → l_LeaseVersion l' = u64 (l_LeaseVersion l + 1) →
      lease_change Session self (Some l) (Some l')
  (* a failed takeover is returned by the claimant, while it still holds the claim *)
  | lc_giveback self l l' :
      owner l = self → l_LeaseVersion l = u64 (l_LeaseVersion l' + 1) →
      lease_change Session self (Some l) (Some l')
  (* the owner closes *)
  | lc_close self l : owner l = self → lease_change Session self (Some l) None
  (* the owner departed, another node's repairer cleans up *)
  | lc_departed self l : owner l ≠ self → lease_change Repair self (Some l) None.

Lemma lease_insert_cases (m : gmap string ClusterSessionLease) l x :
  <[l_SessionID l := l]> m !! x = if decide (x = l_SessionID l) then Some l else m !! x.
Proof.
  rewrite lookup_insert. destruct (decide (l_SessionID l = x)) as [->|]; [by rewrite decide_True|].
  by rewrite decide_False.
Qed.

Lemma cas_changes k self e l (m : gmap string ClusterSessionLease) :
  k = Session → refresh_ok self e l ∨ claim_ok self e l ∨ giveback_ok self e l →
  leaseEqual (m !! l_SessionID l) e = true → lease_change k self (m !! l_SessionID l) (Some l).
Proof.
  intros -> Hok Heq%leaseEqual_spec. destruct (m !! l_SessionID l) as [c|], e as [c'|]; try done.
  - destruct Heq as (_ & Ho & Hv). destruct Hok as [(H1 & H2 & H3)|[(x & [= <-] & H1 & H2)|(x & [= <-] & H1 & H2)]].
    + apply lc_refresh; [congruence|done|lia].
    + apply lc_claim; [done|]. by rewrite Hv.
    + apply lc_giveback; [congruence|]. by rewrite Hv.
  - destruct Hok as [[H1 _]|[(x & ? & _)|(x & ? & _)]]; [by apply lc_register|done..].
Qed.

Lemma removeUser_leases d ns u sid :
  d_sessionLeases (removeUserSessionLocked d ns u sid) = d_sessionLeases d.
Proof. unfold removeUserSessionLocked. by destruct (d_users d !! _). Qed.

Lemma drop_lease_leases d sid : d_sessionLeases (drop_lease d sid) = delete sid (d_sessionLeases d).
Proof.
  unfold drop_lease. cbn. destruct (d_sessionLeases d !! sid) as [l|]; [|done].
  case_bool_decide; [done|]. by rewrite removeUser_leases.
Qed.

Lemma exec_call_lease {X} (c : call X) k self d sid :
  call_ok k self X c →
  GetSessionLease (exec_call c d).2 sid = GetSessionLease d sid ∨
  lease_change k self (GetSessionLease d sid) (GetSessionLease (exec_call c d).2 sid).
Proof.
  intros Hc. unfold GetSessionLease.
  destruct c; cbn [exec_call snd]; try (by left).
  - unfold CompareAndSwapSessionLease. destruct (leaseEqual _ _) eqn:He; cbn; [|by left].
    rewrite lease_insert_cases. case_decide; [subst|by left]. right.
    destruct k; [|done]. by eapply cas_changes.
  - unfold CompareAndSwapSessionState. destruct (leaseEqual _ _) eqn:He; cbn; [|by left].
    rewrite lease_insert_cases. case_decide; [subst|by left]. right.
    destruct k; [|done]. eapply cas_changes; [done|left; apply Hc|done].
  - unfold DeleteSessionLeaseIfOwner. destruct (d_sessionLeases d !! sid0) as [l|] eqn:Hl; [|by left].
    case_bool_decide as Hn; [|by left]. case_bool_decide as Hi; [|by left].
    cbn [negb orb snd]. rewrite drop_lease_leases.
    destruct (decide (sid0 = sid)) as [->|]; [|rewrite lookup_delete_ne by done; by left].
    rewrite Hl, lookup_delete_eq. right. subst. destruct k; cbn in Hc; [by apply lc_close|by apply lc_departed].
  - left. unfold AddUserSession. by destruct (_ || _).
Qed.

Definition threads_ok (s : sys) : Prop :=
  ∀ t k self p, s_threads s !! t = Some (k, self, p) → calls_ok (call_ok k self) p.

Lemma step_threads_ok s l s' : threads_ok s → step s l s' → threads_ok s'.
Proof.
  intros Hok Hstep. destruct Hstep as [d ts t k self p Hn Hh|d ts t o k self X c kont Ht|d ts sid|d ts m];
    try done; intros t' k' self' p' Hlook; cbn in *.
  - apply lookup_insert_Some in Hlook as [[<- [= <- <- <-]]|[_ ?]]; [by apply handler_ok|by eapply Hok].
  - apply lookup_insert_Some in Hlook as [[<- [= <- <- <-]]|[_ ?]]; [|by eapply Hok].
    apply Hok in Ht. apply Ht.
Qed.

Lemma reachable_threads_ok s : reachable s → threads_ok s.
Proof. induction 1 as [|s l s' _ IH Hstep]; [by intros ? ? ? ?|by eapply step_threads_ok]. Qed.

(** C6: fencing.  However the handlers of any number of node incarnations
    interleave, and whichever of their directory calls fail or lose their
    answer, a session lease changes only as follows: its recorded owner
    registers, refreshes (never lowering the version) or deletes it; a node
    claims it with exactly the next version; a claimant returns its claim
    while it still holds it; a repairer removes the lease of another, departed
    incarnation; or it expires.  In particular a fenced owner can neither write
    its lease back nor delete the new owner's. *)
Theorem lease_fencing s l s' sid :
  reachable s → step s l s' →
  let old := GetSessionLease (s_dir s) sid in
  let new := GetSessionLease (s_dir s') sid in
  new = old ∨ l = LExpire sid ∨
  ∃ t o k self p, l = LCall t o ∧ s_threads s !! t = Some (k, self, p) ∧ lease_change k self old new.
Proof.
  intros Hr Hstep old new. pose proof (reachable_threads_ok s Hr) as Hok. subst old new.
  destruct Hstep as [d ts t k self p Hn Hh|d ts t o k self X c kont Ht|d ts sid'|d ts m]; cbn [s_dir]; try (by left).
  - apply Hok in Ht as Hc. destruct Hc as [Hc _].
    destruct (exec_call_lease c k self d sid Hc) as [He|He].
    + left. unfold step_call. destruct o; [|done|exact He]. by destruct (exec_call c d).
    + assert ((step_call c o d).2 = (exec_call c d).2 ∨ (step_call c o d).2 = d) as [->| ->].
      { destruct o; cbn; [left|right|left]; try done. by destruct (exec_call c d). }
      * right. right. exists t, o, k, self, (Do c kont). by split_and!.
      * by left.
  - destruct (decide (sid' = sid)) as [->|]; [by right; left|]. left.
    unfold GetSessionLease. cbn. by rewrite lookup_delete_ne.
Qed.

Lemma exec_call_snapshot {X} (c : call X) k self d sid :
  call_ok k self X c → swapper = true →
  let d' := (exec_call c d).2 in
  GetSessionSnapshot d' sid = GetSessionSnapshot d sid ∨ GetSessionSnapshot d' sid = None ∨
  ∃ l, GetSessionLease d' sid = Some l ∧ owner l = self ∧ k = Session.
Proof.
  intros Hc Hsw d'. subst d'. unfold GetSessionSnapshot, GetSessionLease.
  destruct c; cbn [exec_call snd]; try (by left).
  - unfold CompareAndSwapSessionLease. by destruct (leaseEqual _ _); left.
  - unfold CompareAndSwapSessionState. destruct (leaseEqual _ _); cbn; [|by left].
    destruct k; [|done]. destruct Hc as [[Hown _] Hsid].
    destruct (decide (sn_SessionID snapshot = sid)) as [<-|]; [|left; by rewrite lookup_insert_ne].
    right. right. exists desired. rewrite Hsid, lookup_insert_eq. done.
  - unfold DeleteSessionLeaseIfOwner. destruct (d_sessionLeases d !! sid0) as [l|]; [|by left].
    destruct (_ || _); [by left|]. left. unfold drop_lease. cbn.
    destruct (d_sessionLeases d !! sid0); [|done]. case_bool_decide; [done|].
    unfold removeUserSessionLocked. by destruct (d_users d !! _).
  - destruct k; cbn in Hc; [congruence|done].
  - cbn. destruct (decide (sid0 = sid)) as [->|]; [right; left; by rewrite lookup_delete_eq|].
    left. by rewrite lookup_delete_ne.
  - left. unfold AddUserSession. by destruct (_ || _).
Qed.

(** Snapshots are written by the recognised owner only.  With the atomic
    lease-and-snapshot write, whatever the interleaving and the failures, a
    step that stores a snapshot of a session is a session handler of the very
    incarnation that the directory records as owner after that step: a stale
    in-flight refresh cannot overwrite the new owner's snapshot. *)
Theorem snapshot_fencing s l s' sid snap :
  swapper = true → reachable s → step s l s' →
  GetSessionSnapshot (s_dir s') sid = Some snap → GetSessionSnapshot (s_dir s) sid ≠ Some snap →
  ∃ t o self p lease, l = LCall t o ∧ s_threads s !! t = Some (Session, self, p) ∧
    GetSessionLease (s_dir s') sid = Some lease ∧ owner lease = self.
Proof.
  intros Hsw Hr Hstep Hnew Hold. pose proof (reachable_threads_ok s Hr) as Hok.
  destruct Hstep as [d ts t k self p Hn Hh|d ts t o k self X c kont Ht|d ts sid'|d ts m]; cbn [s_dir] in *; try done.
  apply Hok in Ht as Hc. destruct Hc as [Hc _].
  assert ((step_call c o d).2 = (exec_call c d).2 ∨ (step_call c o d).2 = d) as [He|He].
  { destruct o; cbn; [left|right|left]; try done. by destruct (exec_call c d). }
  - rewrite He in *. destruct (exec_call_snapshot c k self d sid Hc Hsw) as [Hs|[Hs|(x & Hx & Ho & ->)]];
      [congruence..|].
    by exists t, o, self, (Do c kont), x.
  - by rewrite He in Hnew.
Qed.

End System.

(** ** Uninterrupted calls *)

(** The directory files every lease under its own session ID. *)
Definition keyed (d : Directory) : Prop :=
  ∀ sid l, GetSessionLease d sid = Some l → l_SessionID l = sid.

Lemma leaseEqual_refl l : leaseEqual l l = true.
Proof. by apply leaseEqual_spec; destruct l. Qed.

(** Whether the directory lets [desired] in. *)
Definition admits (d : Directory) (desired : ClusterSessionLease) : bool :=
  match GetSessionLease d (l_SessionID desired) with
  | None => true
  | Some c => bool_decide (owner c = owner desired) && (l_LeaseVersion c <=? l_LeaseVersion desired)%Z
  end.

(** A state sync, uninterrupted.  On a directory that has no lease of the
    session, or this incarnation's at a version not above the session's, the
    lease and the snapshot are written; otherwise the call reports
    ErrSessionFenced and writes nothing, with or without the atomic write. *)
Theorem sync_exact swapper self ttl now i subs offsets epoch d :
  let desired := clusterSessionLease self ttl now i in
  let snapshot := clusterSessionSnapshot i subs offsets epoch now in
  run (sync_session true swapper self ttl now i subs offsets epoch) [] d =
  if admits d desired
  then (Ok tt, PutSessionSnapshot (set_leases d (<[id_SessionID i := desired]> (d_sessionLeases d))) snapshot)
  else (Err ErrSessionFenced, d).
Proof.
  intros desired snapshot. unfold sync_session, syncClusterSessionState, admits. cbn [negb].
  fold desired snapshot. cbn [run hd tail step_call exec_call].
  destruct (GetSessionLease d (l_SessionID desired)) as [c|] eqn:Hl.
  - case_bool_decide as Ho; cbn [negb andb]; [|done].
    destruct (Z.ltb_spec (l_LeaseVersion desired) (l_LeaseVersion c)) as [Hv|Hv];
      [by rewrite (proj2 (Z.leb_gt _ _) Hv)|rewrite (proj2 (Z.leb_le _ _) Hv)].
    destruct swapper; cbn; unfold CompareAndSwapSessionState, CompareAndSwapSessionLease;
      unfold GetSessionLease in Hl; rewrite Hl, leaseEqual_refl; done.
  - destruct swapper; cbn; unfold CompareAndSwapSessionState, CompareAndSwapSessionLease;
      unfold GetSessionLease in Hl; rewrite Hl; done.
Qed.

(** Another user's or another namespace's session. *)
Definition foreign (authUser clientNs : string) (lease : ClusterSessionLease) : bool :=
  negb (bool_decide (authUser = "")) && negb (bool_decide (l_UserID lease = "")) &&
    negb (bool_decide (authUser = l_UserID lease)) ||
  negb (bool_decide (clientNs = "")) && negb (bool_decide (l_Namespace lease = "")) &&
    negb (bool_decide (clientNs = l_Namespace lease)).

(** The old owner has to be asked: it is another incarnation, and not an older
    generation of this node. *)
Definition asks_owner (self : string * string) (lease : ClusterSessionLease) : bool :=
  negb (bool_decide (l_NodeID lease = "")) && negb (bool_decide (l_IncarnationID lease = "")) &&
  negb (bool_decide (owner lease = self)) &&
  negb (bool_decide (l_NodeID lease = self.1) && Epoch.NodeEpochNewer self.2 (l_IncarnationID lease)).

Lemma claim_succeeds self clientNs now ttl d sid lease :
  keyed d → GetSessionLease d sid = Some lease →
  let desired := desired_lease self clientNs now ttl lease in
  let d1 := set_leases d (<[sid := desired]> (d_sessionLeases d)) in
  CompareAndSwapSessionLease d (Some lease) desired = (true, d1) ∧
  CompareAndSwapSessionLease d1 (Some desired) lease = (true, d).
Proof.
  intros Hk Hl. cbn zeta. pose proof (Hk _ _ Hl) as Hsid. unfold GetSessionLease in Hl.
  unfold CompareAndSwapSessionLease. cbn. rewrite Hsid, Hl, leaseEqual_refl, lookup_insert_eq, leaseEqual_refl.
  cbn. split; [done|]. unfold set_leases. cbn. rewrite insert_insert_eq, insert_id by done. by destruct d.
Qed.

(** C27: a cross-node resume, uninterrupted.  A foreign session is refused
    before anything is written; without a lease or a snapshot there is nothing
    to resume.  Otherwise the node claims the lease at the next version and
    keeps user and session; if the old owner had to be asked, did not agree and
    still holds a node lease, the claim is returned and the directory is
    exactly as before; if it agreed or is dead, the session is adopted at the
    claimed version. *)
Theorem resume_exact self clientNs now ttl sid authUser d lease snapshot agrees :
  keyed d → sid ≠ "" → GetSessionLease d sid = Some lease →
  let resume := resumeRemoteSession true self clientNs now ttl sid authUser in
  let outs := [Answer; Answer; Answer; if agrees : bool then Answer else Fail] in
  let desired := desired_lease self clientNs now ttl lease in
  (foreign authUser clientNs lease = true → run resume outs d = (Err DisconnectInvalidToken, d)) ∧
  (foreign authUser clientNs lease = false → GetSessionSnapshot d sid = None →
     run resume outs d = (Ok None, d)) ∧
  (foreign authUser clientNs lease = false → GetSessionSnapshot d sid = Some snapshot →
     if asks_owner self lease && negb agrees &&
        bool_decide (is_Some (GetNodeLease d (l_NodeID lease) (l_IncarnationID lease)))
     then run resume outs d = (Err ETakeover, d)
     else run resume outs d =
            (Ok (Some (adopt clientNs lease snapshot)), set_leases d (<[sid := desired]> (d_sessionLeases d))) ∧
          owner desired = self ∧ l_UserID desired = l_UserID lease ∧
          l_LeaseVersion desired = u64 (l_LeaseVersion lease + 1) ∧
          ((0 < l_LeaseVersion lease)%Z →
             ad_leaseVersion (adopt clientNs lease snapshot) = l_LeaseVersion desired)).
Proof.
  intros Hk Hsid Hl resume outs desired.
  destruct (claim_succeeds self clientNs now ttl d sid lease Hk Hl) as [Hclaim Hback]. fold desired in Hclaim, Hback.
  assert (run resume outs d =
    if foreign authUser clientNs lease then (Err DisconnectInvalidToken, d)
    else match GetSessionSnapshot d sid with
         | None => (Ok None, d)
         | Some snap =>
             if asks_owner self lease && negb agrees &&
                bool_decide (is_Some (GetNodeLease d (l_NodeID lease) (l_IncarnationID lease)))
             then (Err ETakeover, d)
             else (Ok (Some (adopt clientNs lease snap)), set_leases d (<[sid := desired]> (d_sessionLeases d)))
         end) as ->.
  { unfold resume, outs, resumeRemoteSession, foreign. rewrite bool_decide_eq_false_2 by done. cbn [negb orb].
    cbn [run hd tail step_call exec_call]. rewrite Hl.
    destruct (negb (bool_decide (authUser = "")) && _ && _); [done|]. cbn [orb].
    destruct (negb (bool_decide (clientNs = "")) && _ && _); [done|].
    cbn [run hd tail step_call exec_call]. destruct (GetSessionSnapshot d sid) as [snap|]; [|done].
    cbn [run hd tail step_call exec_call]. fold desired. rewrite Hclaim. unfold asks_owner.
    destruct (negb (bool_decide (l_NodeID lease = "")) && _ && _); [|done]. cbn [andb].
    destruct (bool_decide (l_NodeID lease = self.1) && _); [done|]. cbn [negb andb].
    destruct agrees; [done|]. cbn [run hd tail step_call exec_call negb andb].
    change (GetNodeLease (set_leases d _) ?x ?y) with (GetNodeLease d x y).
    destruct (GetNodeLease d (l_NodeID lease) (l_IncarnationID lease)) as [nl|] eqn:Hn.
    - rewrite bool_decide_eq_true_2 by eauto. unfold rollbackSessionTakeover.
      cbn [run hd tail step_call exec_call]. by rewrite Hback.
    - rewrite bool_decide_eq_false_2 by (by intros []). done. }
  split; [by intros ->|]. split; [by intros -> ->|]. intros -> ->.
  destruct (_ && _ && _); [done|]. split; [done|]. split_and!; [by destruct self|done..|].
  intros Hv. cbn. by rewrite (proj2 (Z.ltb_lt 0 _) Hv).
Qed.

(** ** A concrete cluster *)

Definition id0 : Identity := mkIdentity "s1" "u" "acme" "c" "json" true 0 0 0.
Definition na : string * string := ("a", "1").
Definition nb : string * string := ("b", "1").

Definition sync0 : Prog unit := bind (sync_session true true na 600 0 id0 [] ∅ "e") (λ _, Ret tt).

(** One call of a handler, as a function. *)
Definition do_call (s : sys) (t : nat) (o : outcome) : option sys :=
  match s_threads s !! t with
  | Some (k, self, @Do _ X c kont) =>
      Some (mkSys (step_call c o (s_dir s)).2 (<[t := (k, self, kont (step_call c o (s_dir s)).1)]> (s_threads s)))
  | _ => None
  end.

Lemma do_call_step swapper s t o s' : do_call s t o = Some s' → step swapper s (LCall t o) s'.
Proof.
  unfold do_call. destruct s as [d ts]. cbn.
  destruct (ts !! t) as [[[k self] [a|X c kont]]|] eqn:Ht; [done| |done]. intros [= <-]. by apply st_call.
Qed.

(** The system after the sync handler of [a] was started and read the lease. *)
Definition sys1 : sys := mkSys NewDirectory {[ 0 := (Session, na, sync0) ]}.
Definition dir1 : Directory :=
  (CompareAndSwapSessionState NewDirectory None (clusterSessionLease na 600 0 id0)
     (Some (clusterSessionSnapshot id0 [] ∅ "e" 0))).2.
Definition sys2 : sys := default sys1 (do_call sys1 0 Answer).
Definition sys3 : sys := default sys2 (do_call sys2 0 Answer).

Lemma reach2 : reachable true sys2.
Proof.
  apply (re_step _ sys1 (LCall 0 Answer)).
  - apply (re_step _ (mkSys NewDirectory ∅) (LSpawn 0)); [constructor|]. constructor; [done|]. constructor.
  - by apply do_call_step.
Qed.

Lemma step3 : step true sys2 (LCall 0 Answer) sys3.
Proof. by apply do_call_step. Qed.

Lemma lease_fencing_witness :
  reachable true sys2 ∧ step true sys2 (LCall 0 Answer) sys3 ∧
  (GetSessionLease (s_dir sys3) "s1" = GetSessionLease (s_dir sys2) "s1" ∨ LCall 0 Answer = LExpire "s1" ∨
   ∃ t o k self p, LCall 0 Answer = LCall t o ∧ s_threads sys2 !! t = Some (k, self, p) ∧
     lease_change k self (GetSessionLease (s_dir sys2) "s1") (GetSessionLease (s_dir sys3) "s1")).
Proof.
  split; [exact reach2|]. split; [exact step3|].
  exact (lease_fencing true sys2 (LCall 0 Answer) sys3 "s1" reach2 step3).
Defined.

Lemma snapshot_fencing_witness :
  ∃ t o self p lease, LCall 0 Answer = LCall t o ∧ s_threads sys2 !! t = Some (Session, self, p) ∧
    GetSessionLease (s_dir sys3) "s1" = Some lease ∧ owner lease = self.
Proof.
  apply (snapshot_fencing true sys2 (LCall 0 Answer) sys3 "s1" (clusterSessionSnapshot id0 [] ∅ "e" 0));
    [reflexivity|exact reach2|exact step3|reflexivity|discriminate].
Defined.

(** Node [b] resumes a session of [a], which refuses and is alive. *)
Definition dir2 : Directory := PutNodeLease dir1 (mkNodeLease "a" "1" 0 100).

Lemma resume_exact_witness :
  run (resumeRemoteSession true nb "acme" 5 600 "s1" "u") [Answer; Answer; Answer; Fail] dir2
  = (Err ETakeover, dir2).
Proof.
  apply (resume_exact nb "acme" 5 600 "s1" "u" dir2 (clusterSessionLease na 600 0 id0)
    (clusterSessionSnapshot id0 [] ∅ "e" 0) false); [|discriminate|reflexivity|reflexivity|reflexivity].
  intros sid l Hl.
  change (<["s1" := clusterSessionLease na 600 0 id0]> (∅ : gmap string ClusterSessionLease) !! sid = Some l) in Hl.
  apply lookup_insert_Some in Hl as [[<- <-]|[_ Hl]]; [reflexivity|discriminate Hl].
Defined.

End Lease.
