(* ===== verification/Frame.v ===== *)
(** * Frame: length-prefixed frames (protocol/streamframe.go,
      pkg/transport/framing/framing.go)

    Byte slices are strings.  A stream accepts bytes in pieces: its script says
    how many bytes each [Write] takes and whether it fails; past the script it
    takes everything.  Deadlines do not change what is written. *)

From S2P Require Import Prelude.

Module Frame.

Definition FrameHeaderSize : nat := 4.

Inductive FrameError :=
  | ErrFrameTooLarge | ErrEmptyFrame | ErrShortWrite | EWrite | EOF | ErrUnexpectedEOF | EClosed | EMarshal.

(** [s[:n]] and [s[n:]] *)
Fixpoint str_take (n : nat) (s : string) : string :=
  match n, s with S n', String c s' => String c (str_take n' s') | _, _ => "" end.

Fixpoint str_drop (n : nat) (s : string) : string :=
  match n, s with S n', String _ s' => str_drop n' s' | _, _ => s end.

(** ** encoding/binary, big endian *)

Definition byte_at (n : N) (i : N) : ascii := ascii_of_N ((n / 2 ^ (8 * i)) mod 256).

(** [PutUint32(hdr, uint32(n))]: the conversion keeps the low 32 bits. *)
Definition PutUint32 (n : N) : string :=
  String (byte_at n 3) (String (byte_at n 2) (String (byte_at n 1) (String (byte_at n 0) ""))).

Definition Uint32 (hdr : string) : N :=
  match hdr with
  | String a (String b (String c (String d ""))) =>
      (((N_of_ascii a * 256 + N_of_ascii b) * 256 + N_of_ascii c) * 256 + N_of_ascii d)%N
  | _ => 0%N
  end.

(** ** The byte stream, writing side *)

Inductive accept := Takes (n : nat) | Fails (n : nat).

Record stream := mkStream { st_out : string; st_script : list accept }.

(** [w.Write(p)]: the count and whether it failed. *)
Definition Write (w : stream) (p : string) : nat * bool * stream :=
  match st_script w with
  | [] => (String.length p, false, mkStream (st_out w +:+ p) [])
  | Takes n :: l =>
      let n := n `min` String.length p in (n, false, mkStream (st_out w +:+ str_take n p) l)
  | Fails n :: l =>
      let n := n `min` String.length p in (n, true, mkStream (st_out w +:+ str_take n p) l)
  end.

(** The loop of [writeFull]; every iteration but the last takes at least one
    byte, so the length of the slice bounds their number. *)
Fixpoint write_loop (fuel : nat) (w : stream) (p : string) : option (option FrameError * stream) :=
  match p with
  | EmptyString => Some (None, w)
  | String _ _ =>
      match fuel with
      | 0 => None
      | S fuel' =>
          let '(n, failed, w') := Write w p in
          if failed : bool then Some (Some EWrite, w')
          else if bool_decide (n = 0) then Some (Some ErrShortWrite, w')
          else write_loop fuel' w' (str_drop n p)
      end
  end.

Definition writeFull (w : stream) (p : string) : option (option FrameError * stream) :=
  write_loop (String.length p) w p.

Definition WriteFrame (w : stream) (payload : string) : option (option FrameError * stream) :=
  if bool_decide (String.length payload = 0) then Some (Some ErrEmptyFrame, w)
  else
    '(err, w') ← writeFull w (PutUint32 (N.of_nat (String.length payload)));
    match err with Some e => Some (Some e, w') | None => writeFull w' payload end.

(** ** The reading side *)

(** [io.ReadFull(r, buf)] with [len(buf) = n] on the remaining input. *)
Definition ReadFull (n : nat) (input : string) : result FrameError string * string :=
  if bool_decide (n ≤ String.length input)
  then (Ok (str_take n input), str_drop n input)
  else (Err (if bool_decide (input = "") then EOF else ErrUnexpectedEOF), "").

Definition ReadFrame (input : string) (maxSize : Z) : result FrameError string * string :=
  match ReadFull FrameHeaderSize input with
  | (Err e, rest) => (Err e, rest)
  | (Ok hdr, rest) =>
      let n := Uint32 hdr in
      if (n =? 0)%N then (Err ErrEmptyFrame, rest)
      else if (0 <? maxSize)%Z && (maxSize <? Z.of_N n)%Z then (Err ErrFrameTooLarge, rest)
      else ReadFull (N.to_nat n) rest
  end.

(** ** The bounded writer (framing.go) *)

Definition DefaultWriteTimeout : Z := 10000.     (* milliseconds *)

Record Writer := mkWriter { fw_w : stream; fw_writeTimeout : Z; fw_closed : bool }.

Definition NewWriter (w : stream) (writeTimeout : Z) : Writer := mkWriter w writeTimeout false.

Definition EffectiveTimeout (fw : Writer) : Z :=
  if (0 <? fw_writeTimeout fw)%Z then fw_writeTimeout fw else DefaultWriteTimeout.

Definition set_stream (fw : Writer) (w : stream) : Writer := mkWriter w (fw_writeTimeout fw) (fw_closed fw).

Fixpoint write_many (fw : Writer) (msgs : list string) : option (option FrameError * Writer) :=
  match msgs with
  | [] => Some (None, fw)
  | msg :: msgs' =>
      '(err, w') ← WriteFrame (fw_w fw) msg;
      match err with
      | Some e => Some (Some e, set_stream fw w')
      | None => write_many (set_stream fw w') msgs'
      end
  end.

Definition WriteMany (fw : Writer) (msgs : list string) : option (option FrameError * Writer) :=
  if fw_closed fw then Some (Some EClosed, fw) else write_many fw msgs.

Definition MarkClosed (fw : Writer) : bool * Writer :=
  if fw_closed fw then (false, fw) else (true, mkWriter (fw_w fw) (fw_writeTimeout fw) true).

(** [frame]: the marshalled disconnect envelope, if marshalling succeeds. *)
Definition WriteDisconnectFrame (fw : Writer) (frame : option string) : option (option FrameError * Writer) :=
  match frame with
  | None => Some (Some EMarshal, fw)
  | Some f => '(err, w') ← WriteFrame (fw_w fw) f; Some (err, set_stream fw w')
  end.

(** ** Proofs *)

Lemma byte_at_value n i : N_of_ascii (byte_at n i) = ((n / 2 ^ (8 * i)) mod 256)%N.
Proof. apply N_ascii_embedding, N.mod_lt. done. Qed.

Lemma Uint32_Put n : Uint32 (PutUint32 n) = (n mod 2 ^ 32)%N.
Proof.
  unfold PutUint32, Uint32. rewrite !byte_at_value.
  change (2 ^ (8 * 3))%N with 16777216%N. change (2 ^ (8 * 2))%N with 65536%N.
  change (2 ^ (8 * 1))%N with 256%N. change (2 ^ (8 * 0))%N with 1%N. change (2 ^ 32)%N with 4294967296%N.
  apply N2Z.inj. rewrite !N2Z.inj_add, !N2Z.inj_mul, !N2Z.inj_add, !N2Z.inj_mul, !N2Z.inj_add, !N2Z.inj_mul.
  rewrite !N2Z.inj_mod, !N2Z.inj_div. Z.to_euclidean_division_equations. lia.
Qed.

Lemma str_take_drop n : ∀ s, str_take n s +:+ str_drop n s = s.
Proof. induction n as [|n IH]; intros [|c s]; simpl; [done..|]. rewrite str_app_cons. by rewrite IH. Qed.

Lemma str_length_drop n : ∀ s, String.length (str_drop n s) = String.length s - n.
Proof. induction n as [|n IH]; intros [|c s]; simpl; [done..|]. apply IH. Qed.

Lemma str_take_app a b : str_take (String.length a) (a +:+ b) = a.
Proof. induction a as [|c a IH]; [by destruct b|]. rewrite str_app_cons. simpl. by rewrite IH. Qed.

Lemma str_drop_app a b : str_drop (String.length a) (a +:+ b) = b.
Proof. induction a as [|c a IH]; [by destruct b|]. rewrite str_app_cons. simpl. by rewrite IH. Qed.

Lemma str_drop_all a : str_drop (String.length a) a = "".
Proof. induction a as [|c a IH]; [done|exact IH]. Qed.

(** A script that never fails and always takes something. *)
Definition healthy (w : stream) : Prop := Forall (λ a, ∃ n, a = Takes (S n)) (st_script w).

Lemma write_loop_total fuel : ∀ w p, String.length p ≤ fuel → is_Some (write_loop fuel w p).
Proof.
  induction fuel as [|fuel IH]; intros w [|c p] Hl; simpl in Hl; try (by eauto); [lia|].
  cbn [write_loop]. destruct (Write w (String c p)) as [[n failed] w']. destruct failed; [eauto|].
  case_bool_decide; [eauto|]. apply IH. rewrite str_length_drop. simpl. lia.
Qed.

Lemma write_loop_healthy fuel : ∀ w p, String.length p ≤ fuel → healthy w →
  ∃ l, write_loop fuel w p = Some (None, mkStream (st_out w +:+ p) l) ∧ healthy (mkStream "" l).
Proof.
  induction fuel as [|fuel IH]; intros w [|c p] Hl Hw; simpl in Hl; try lia; cbn [write_loop].
  1, 2: exists (st_script w); split; [|done]; rewrite str_app_nil_r; by destruct w.
  unfold Write. destruct w as [out [|a l]]; cbn [st_script st_out].
  - rewrite bool_decide_eq_false_2 by done. exists []. split; [|constructor].
    rewrite str_drop_all. by destruct fuel.
  - apply Forall_cons in Hw as [[n ->] Hw]. rewrite bool_decide_eq_false_2 by (simpl; lia).
    destruct (IH (mkStream (out +:+ str_take (S n `min` String.length (String c p)) (String c p)) l)
      (str_drop (S n `min` String.length (String c p)) (String c p))) as (l' & -> & Hl'); [|done|].
    { rewrite str_length_drop. simpl. lia. }
    exists l'. split; [|done]. cbn [st_out]. by rewrite str_app_assoc, str_take_drop.
Qed.

(** The bytes of one frame. *)
Definition frame (payload : string) : string :=
  PutUint32 (N.of_nat (String.length payload)) +:+ payload.

Lemma WriteFrame_healthy w payload : healthy w → payload ≠ "" →
  ∃ l, WriteFrame w payload = Some (None, mkStream (st_out w +:+ frame payload) l) ∧ healthy (mkStream "" l).
Proof.
  intros Hw Hp. unfold WriteFrame, writeFull. rewrite bool_decide_eq_false_2 by (by destruct payload).
  destruct (write_loop_healthy _ w (PutUint32 (N.of_nat (String.length payload))) (le_n _) Hw) as (l & -> & Hl).
  cbn. destruct (write_loop_healthy _ (mkStream (st_out w +:+ PutUint32 (N.of_nat (String.length payload))) l)
    payload (le_n _) Hl) as (l' & -> & Hl').
  exists l'. split; [|done]. cbn [st_out]. by rewrite str_app_assoc.
Qed.

Lemma write_many_healthy msgs : ∀ fw, healthy (fw_w fw) → Forall (λ m, m ≠ "") msgs →
  ∃ l, write_many fw msgs = Some (None, set_stream fw
         (mkStream (st_out (fw_w fw) +:+ foldr (λ m acc, frame m +:+ acc) "" msgs) l)).
Proof.
  induction msgs as [|m msgs IH]; intros fw Hw Hm; cbn.
  - exists (st_script (fw_w fw)). rewrite str_app_nil_r. by destruct fw as [[]].
  - apply Forall_cons in Hm as [Hm Hms]. destruct (WriteFrame_healthy (fw_w fw) m Hw Hm) as (l & -> & Hl). cbn.
    destruct (IH (set_stream fw (mkStream (st_out (fw_w fw) +:+ frame m) l)) Hl Hms) as (l' & ->).
    exists l'. cbn. by rewrite str_app_assoc.
Qed.

(** A reader that accepts a frame of this size. *)
Definition fits (maxSize : Z) (m : string) : Prop :=
  m ≠ "" ∧ (Z.of_nat (String.length m) < 2 ^ 32)%Z ∧
  ((maxSize ≤ 0)%Z ∨ (Z.of_nat (String.length m) ≤ maxSize)%Z).

Lemma ReadFrame_frame m rest maxSize : fits maxSize m →
  ReadFrame (frame m +:+ rest) maxSize = (Ok m, rest).
Proof.
  intros (Hm & Hlt & Hmax). unfold ReadFrame, frame. rewrite str_app_assoc.
  set (hdr := PutUint32 _). change FrameHeaderSize with (String.length hdr). unfold ReadFull at 1.
  rewrite bool_decide_eq_true_2 by (rewrite str_length_app; lia). rewrite str_take_app, str_drop_app.
  unfold hdr. rewrite Uint32_Put, N.mod_small by lia.
  assert (0 < String.length m) by (destruct m; simpl; [done|lia]).
  rewrite (proj2 (N.eqb_neq _ _)) by lia.
  assert ((0 <? maxSize)%Z && (maxSize <? Z.of_N (N.of_nat (String.length m)))%Z = false) as ->.
  { apply andb_false_iff. rewrite !Z.ltb_ge. lia. }
  unfold ReadFull. rewrite Nat2N.id, bool_decide_eq_true_2 by (rewrite str_length_app; lia).
  by rewrite str_take_app, str_drop_app.
Qed.

(** Reading until the first error. *)
Fixpoint read_all (fuel : nat) (input : string) (maxSize : Z) : list string * option FrameError :=
  match fuel with
  | 0 => ([], None)
  | S fuel' =>
      match ReadFrame input maxSize with
      | (Err e, _) => ([], Some e)
      | (Ok m, rest) => let '(ms, e) := read_all fuel' rest maxSize in (m :: ms, e)
      end
  end.

Lemma read_all_frames msgs : ∀ maxSize, Forall (fits maxSize) msgs →
  read_all (S (length msgs)) (foldr (λ m acc, frame m +:+ acc) "" msgs) maxSize = (msgs, Some EOF).
Proof.
  induction msgs as [|m msgs IH]; intros maxSize Hm; [done|]. apply Forall_cons in Hm as [Hm Hms].
  cbn [foldr length]. cbn [read_all]. rewrite ReadFrame_frame by done.
  specialize (IH maxSize Hms). cbn [length read_all] in IH |- *. by rewrite IH.
Qed.

(** C36: frames round-trip.  Messages that are not empty, shorter than 4 GiB and
    within the reader's limit, written by WriteMany to an open writer over a
    stream that takes the bytes in arbitrary non-empty pieces, are read back
    one by one, in order, followed by EOF; nothing before them on the stream is
    touched.  On any stream at all, WriteFrame returns. *)
Theorem frames_roundtrip fw msgs maxSize :
  fw_closed fw = false → healthy (fw_w fw) → Forall (fits maxSize) msgs →
  (∃ fw' written, WriteMany fw msgs = Some (None, fw') ∧
     st_out (fw_w fw') = st_out (fw_w fw) +:+ written ∧
     read_all (S (length msgs)) written maxSize = (msgs, Some EOF)) ∧
  (∀ w payload, is_Some (WriteFrame w payload)).
Proof.
  intros Hopen Hw Hm. split.
  - unfold WriteMany. rewrite Hopen.
    destruct (write_many_healthy msgs fw Hw) as (l & ->).
    { eapply Forall_impl; [exact Hm|]. by intros m (? & _). }
    eexists _, _. split; [done|]. split; [done|]. by apply read_all_frames.
  - intros w payload. unfold WriteFrame, writeFull. case_bool_decide; [eauto|].
    destruct (write_loop_total _ w (PutUint32 (N.of_nat (String.length payload))) (le_n _)) as [[e w'] ->].
    cbn. destruct e; [eauto|]. by apply write_loop_total.
Qed.

Lemma frames_roundtrip_witness :
  (∃ fw' written, WriteMany (NewWriter (mkStream "x" [Takes 1; Takes 2; Takes 3]) 0) ["hello"; "w"] = Some (None, fw') ∧
     st_out (fw_w fw') = "x" +:+ written ∧ read_all 3 written 5 = (["hello"; "w"], Some EOF)) ∧
  (∀ w payload, is_Some (WriteFrame w payload)).
Proof.
  apply (frames_roundtrip (NewWriter (mkStream "x" [Takes 1; Takes 2; Takes 3]) 0) ["hello"; "w"] 5).
  - reflexivity.
  - repeat (apply Forall_cons; split; [eexists; reflexivity|]). apply Forall_nil. exact I.
  - repeat (apply Forall_cons; split; [split; [discriminate|split; [vm_compute; reflexivity|right; vm_compute; discriminate]]|]).
    apply Forall_nil. exact I.
Defined.

Lemma str_length_take n : ∀ s, String.length (str_take n s) = n `min` String.length s.
Proof. induction n as [|n IH]; intros [|c s]; simpl; [done..|]. by rewrite IH. Qed.

Lemma ReadFull_ok n input x rest :
  ReadFull n input = (Ok x, rest) → input = x +:+ rest ∧ String.length x = n.
Proof.
  unfold ReadFull. case_bool_decide as Hn; [|done]. intros [= <- <-].
  rewrite str_take_drop, str_length_take. split; [done|lia].
Qed.

Lemma ReadFull_err n input e rest :
  ReadFull n input = (Err e, rest) → rest = "" ∧ (e = EOF ∨ e = ErrUnexpectedEOF).
Proof. unfold ReadFull. case_bool_decide; [done|]. intros [= <- <-]. case_bool_decide; auto. Qed.

(** What the reader refuses.  Whatever the input: a header that announces
    more than the limit is refused without reading the payload, a zero length
    is refused, a truncated header or payload is reported as such, and an
    accepted frame is never empty and never longer than the limit. *)
Theorem read_frame_bounds input maxSize :
  match ReadFrame input maxSize with
  | (Ok m, rest) =>
      m ≠ "" ∧ ((0 < maxSize)%Z → (Z.of_nat (String.length m) ≤ maxSize)%Z) ∧
      ∃ hdr, String.length hdr = FrameHeaderSize ∧ input = hdr +:+ m +:+ rest ∧
        Uint32 hdr = N.of_nat (String.length m)
  | (Err ErrFrameTooLarge, rest) | (Err ErrEmptyFrame, rest) =>
      ∃ hdr, String.length hdr = FrameHeaderSize ∧ input = hdr +:+ rest
  | (Err _, rest) => rest = ""
  end.
Proof.
  unfold ReadFrame. destruct (ReadFull FrameHeaderSize input) as [[hdr|e] rest] eqn:Hh; last first.
  { apply ReadFull_err in Hh as [-> [->| ->]]; done. }
  apply ReadFull_ok in Hh as [-> Hlen]. destruct (N.eqb_spec (Uint32 hdr) 0) as [_|Hz]; [by exists hdr|].
  destruct (_ && _) eqn:Hmax; [by exists hdr|].
  destruct (ReadFull (N.to_nat (Uint32 hdr)) rest) as [[m|e] rest'] eqn:Hm; last first.
  { apply ReadFull_err in Hm as [-> [->| ->]]; done. }
  apply ReadFull_ok in Hm as [-> Hlm]. split_and!.
  - intros ->. simpl in Hlm. lia.
  - intros Hpos. apply andb_false_iff in Hmax as [Hmax|Hmax]; apply Z.ltb_ge in Hmax; lia.
  - exists hdr. split_and!; [done|done|lia].
Qed.

(** [writeFull] on any stream: it returns, having written a prefix of the
    slice, all of it when there is no error. *)
Definition wrote (w w' : stream) (err : option FrameError) (p : string) : Prop :=
  ∃ done rest, p = done +:+ rest ∧ st_out w' = st_out w +:+ done ∧ (err = None → rest = "").

Lemma wrote_step w w1 w2 err p q :
  wrote w w1 None p → wrote w1 w2 err q → wrote w w2 err (p +:+ q).
Proof.
  intros (d1 & r1 & -> & Ho1 & Hr1) (d2 & r2 & -> & Ho2 & Hr2). rewrite (Hr1 eq_refl), str_app_nil_r.
  exists (d1 +:+ d2), r2. by rewrite Ho2, Ho1, !str_app_assoc.
Qed.

Lemma wrote_less w w' e p q : wrote w w' (Some e) p → wrote w w' (Some e) (p +:+ q).
Proof. intros (d & r & -> & Ho & _). exists d, (r +:+ q). by rewrite str_app_assoc. Qed.

Lemma Write_wrote w p n failed w' :
  Write w p = (n, failed, w') → n ≤ String.length p ∧ st_out w' = st_out w +:+ str_take n p.
Proof.
  unfold Write. destruct (st_script w) as [|[k|k] l]; intros Heq; injection Heq as <- _ <-; cbn [st_out]; [|split; [lia|done]..].
  split; [done|]. pose proof (str_take_app p "") as Ht. rewrite str_app_nil_r in Ht. by rewrite Ht.
Qed.

Lemma write_loop_wrote fuel : ∀ w p, String.length p ≤ fuel →
  ∃ err w', write_loop fuel w p = Some (err, w') ∧ wrote w w' err p.
Proof.
  induction fuel as [|fuel IH]; intros w p Hl.
  { destruct p; simpl in Hl; [|lia]. exists None, w. split; [done|]. exists "", "". by rewrite !str_app_nil_r. }
  destruct p as [|c p]. { exists None, w. split; [done|]. exists "", "". by rewrite !str_app_nil_r. }
  cbn [write_loop]. destruct (Write w (String c p)) as [[n failed] w1] eqn:Hw. apply Write_wrote in Hw as [Hn Ho].
  assert (∀ e, wrote w w1 (Some e) (String c p)) as Hpart.
  { intros e. exists (str_take n (String c p)), (str_drop n (String c p)). by rewrite str_take_drop. }
  destruct failed; [by exists (Some EWrite), w1|]. case_bool_decide as Hz; [by exists (Some ErrShortWrite), w1|].
  destruct (IH w1 (str_drop n (String c p))) as (err & w' & -> & Hd).
  { rewrite str_length_drop. simpl in *. lia. }
  exists err, w'. split; [done|]. rewrite <-(str_take_drop n (String c p)). apply (wrote_step w w1); [|done].
  exists (str_take n (String c p)), "". by rewrite !str_app_nil_r.
Qed.

Lemma WriteFrame_wrote w payload :
  ∃ err w', WriteFrame w payload = Some (err, w') ∧ wrote w w' err (frame payload) ∧ (err = None → payload ≠ "").
Proof.
  unfold WriteFrame, writeFull, frame. case_bool_decide as Hz.
  { exists (Some ErrEmptyFrame), w. split; [done|]. split; [|done]. eexists "", _. split; [done|]. by rewrite !str_app_nil_r. }
  destruct (write_loop_wrote _ w (PutUint32 (N.of_nat (String.length payload))) (le_n _)) as (e1 & w1 & -> & H1). cbn.
  destruct e1 as [e|]; [exists (Some e), w1; split; [done|]; split; [by apply wrote_less|done]|].
  destruct (write_loop_wrote _ w1 payload (le_n _)) as (e2 & w2 & -> & H2). exists e2, w2.
  split; [done|]. split; [by eapply wrote_step|]. intros _ ->. by apply Hz.
Qed.

Lemma write_many_wrote msgs : ∀ fw, ∃ err fw',
  write_many fw msgs = Some (err, fw') ∧
  wrote (fw_w fw) (fw_w fw') err (foldr (λ m acc, frame m +:+ acc) "" msgs) ∧ (err = None → Forall (λ m, m ≠ "") msgs).
Proof.
  induction msgs as [|m msgs IH]; intros fw; cbn [write_many foldr].
  { exists None, fw. split; [done|]. split; [|constructor]. exists "", "". by rewrite !str_app_nil_r. }
  destruct (WriteFrame_wrote (fw_w fw) m) as (e1 & w1 & -> & H1 & Hm). cbn.
  destruct e1 as [e|]; [exists (Some e), (set_stream fw w1); split; [done|]; split; [by apply wrote_less|done]|].
  destruct (IH (set_stream fw w1)) as (e2 & fw2 & -> & H2 & Hms). exists e2, fw2. split; [done|].
  split; [by eapply wrote_step|]. intros He. constructor; auto.
Qed.

(** C37: Writing terminates.  On any stream, however it splits, shortens or
    fails writes, WriteMany returns after finitely many writes; what it put on
    the wire is a prefix of the frames of the messages; and it reports success
    only when every message was non-empty and all the frames are on the wire,
    on a writer that was not closed. *)
Theorem writes_terminate fw msgs :
  ∃ err fw', WriteMany fw msgs = Some (err, fw') ∧
    (∃ done rest, foldr (λ m acc, frame m +:+ acc) "" msgs = done +:+ rest ∧
       st_out (fw_w fw') = st_out (fw_w fw) +:+ done ∧ (err = None → rest = "")) ∧
    (err = None → fw_closed fw = false ∧ Forall (λ m, m ≠ "") msgs).
Proof.
  unfold WriteMany. destruct (fw_closed fw).
  { exists (Some EClosed), fw. split; [done|]. split; [|done]. eexists "", _. split; [done|]. by rewrite !str_app_nil_r. }
  destruct (write_many_wrote msgs fw) as (err & fw' & -> & Hw & Hm). exists err, fw'. split; [done|]. split; [done|].
  intros He. split; [done|]. by apply Hm.
Qed.

End Frame.
