(* ===== verification/Hmac.v ===== *)
(** * Hmac: signed cluster commands (internal/cluster/hmac/hmac.go)

    SHA-256 and HMAC-SHA256 are the parameters [sha256] and [hmac]; nothing is
    assumed of them.  Byte slices are strings, a time is its Unix seconds and
    nanoseconds. *)

From stdpp Require Import sorting.
From S2P Require Import Prelude.

Module Hmac.

(** ** Times and machine integers *)

Record Time := mkTime { t_sec : Z; t_nsec : Z }.

(** The zero [time.Time], 0001-01-01T00:00:00Z. *)
Definition zeroTime : Time := mkTime (-62135596800) 0.
Definition IsZero (t : Time) : bool := (t_sec t =? t_sec zeroTime)%Z && (t_nsec t =? t_nsec zeroTime)%Z.

(** ** encoding/hex *)

Definition hex_char (n : N) : ascii :=
  if (n <? 10)%N then ascii_of_N (48 + n) else ascii_of_N (87 + n).

Definition hex_value (c : ascii) : option N :=
  let x := N_of_ascii c in
  if (48 <=? x)%N && (x <=? 57)%N then Some (x - 48)%N
  else if (97 <=? x)%N && (x <=? 102)%N then Some (x - 87)%N
  else if (65 <=? x)%N && (x <=? 70)%N then Some (x - 55)%N
  else None.

Fixpoint EncodeToString (s : string) : string :=
  match s with
  | EmptyString => ""
  | String c s' =>
      String (hex_char (N_of_ascii c / 16)) (String (hex_char (N_of_ascii c mod 16)) (EncodeToString s'))
  end.

Fixpoint DecodeString (s : string) : option string :=
  match s with
  | EmptyString => Some ""
  | String a (String b s') =>
      x ← hex_value a; y ← hex_value b; rest ← DecodeString s'; Some (String (ascii_of_N (16 * x + y)) rest)
  | String _ EmptyString => None
  end.

(** ** sort.Strings: bytewise order *)

Fixpoint str_leb (a b : string) : bool :=
  match a, b with
  | EmptyString, _ => true
  | String _ _, EmptyString => false
  | String x a', String y b' =>
      if (N_of_ascii x <? N_of_ascii y)%N then true
      else if (N_of_ascii y <? N_of_ascii x)%N then false else str_leb a' b'
  end.

Definition str_le (a b : string) : Prop := str_leb a b = true.
#[export] Instance str_le_dec : RelDecision str_le.
Proof. intros a b. unfold str_le. apply _. Defined.

(** ** Commands and results (contracts.go) *)

Record ClusterCommand := mkCommand {
  c_CommandID : string;
  c_Type : string;
  c_TargetNodeID : string;
  c_TargetIncarnationID : string;
  c_SessionID : string;
  c_Channel : string;
  c_LeaseVersion : Z;
  c_IssuedAt : Time;
  c_IssuedBy : string;
  c_Payload : string;
  c_Metadata : gmap string string;
  c_Signature : string;
}.

Record ClusterCommandResult := mkResult {
  r_CommandID : string;
  r_SessionID : string;
  r_NodeID : string;
  r_IncarnationID : string;
  r_Status : string;
  r_ErrorCode : string;
  r_ErrorMessage : string;
  r_Metadata : gmap string string;
  r_IssuedAt : Time;
  r_Signature : string;
}.

Inductive RejectReason := RejectMissing | RejectBad | RejectSkew | RejectID.

Definition MaxClockSkew : Z := 30.    (* seconds *)

(** ** Canonical bytes *)

Definition nl : string := String "010" "".

Definition Itoa (n : nat) : string := pretty (N.of_nat n).

Definition writeField (field : string) : string :=
  Itoa (String.length field) +:+ String ":" (field +:+ nl).

Definition write_fields (fields : list string) (rest : string) : string :=
  foldr (λ f acc, writeField f +:+ acc) rest fields.

Definition sorted_keys (m : gmap string string) : list string :=
  merge_sort str_le (map_to_list m).*1.

Definition writeMetadata (m : gmap string string) : string :=
  Itoa (length (sorted_keys m)) +:+ nl +:+
  write_fields (mjoin ((λ k, [k; default "" (m !! k)]) <$> sorted_keys m)) "".

Section Signing.
Context (sha256 : string → string) (hmac : string → string → string).

Definition canonicalCommand (cmd : ClusterCommand) : string :=
  "v2" +:+ nl +:+
  write_fields
    [c_Type cmd; c_SessionID cmd; c_TargetIncarnationID cmd; pretty (Z.to_N (c_LeaseVersion cmd));
     EncodeToString (sha256 (c_Payload cmd)); c_CommandID cmd; pretty (t_sec (c_IssuedAt cmd)); c_Channel cmd]
    (writeMetadata (c_Metadata cmd)).

Definition canonicalResult (res : ClusterCommandResult) : string :=
  "v2-result" +:+ nl +:+
  write_fields
    [r_CommandID res; r_Status res; r_ErrorCode res; r_SessionID res; r_NodeID res; r_IncarnationID res;
     pretty (t_sec (r_IssuedAt res))]
    (writeMetadata (r_Metadata res)).

(** ** Signing and verifying *)

Definition compute (key canonical : string) : string := EncodeToString (hmac key canonical).

Definition verify (key canonical signature : string) : bool :=
  match DecodeString signature with
  | None => false
  | Some received => bool_decide (received = hmac key canonical)
  end.

Definition SignCommand (key : string) (cmd : ClusterCommand) : ClusterCommand :=
  mkCommand (c_CommandID cmd) (c_Type cmd) (c_TargetNodeID cmd) (c_TargetIncarnationID cmd) (c_SessionID cmd)
    (c_Channel cmd) (c_LeaseVersion cmd) (c_IssuedAt cmd) (c_IssuedBy cmd) (c_Payload cmd) (c_Metadata cmd)
    (compute key (canonicalCommand cmd)).

Definition SignResult (key : string) (res : ClusterCommandResult) : ClusterCommandResult :=
  mkResult (r_CommandID res) (r_SessionID res) (r_NodeID res) (r_IncarnationID res) (r_Status res)
    (r_ErrorCode res) (r_ErrorMessage res) (r_Metadata res) (r_IssuedAt res)
    (compute key (canonicalResult res)).

Definition checkSkew (issuedAt now : Time) : option RejectReason :=
  if IsZero issuedAt then Some RejectSkew
  else
    let diff := i64 (t_sec now - t_sec issuedAt) in
    let diff := if (diff <? 0)%Z then i64 (- diff) else diff in
    if (MaxClockSkew <? diff)%Z then Some RejectSkew else None.

(** [None]: accepted. *)
Definition VerifyCommand (key : string) (cmd : ClusterCommand) (now : Time) : option RejectReason :=
  if bool_decide (c_Signature cmd = "") then Some RejectMissing
  else if bool_decide (c_CommandID cmd = "") then Some RejectID
  else match checkSkew (c_IssuedAt cmd) now with
       | Some e => Some e
       | None => if negb (verify key (canonicalCommand cmd) (c_Signature cmd)) then Some RejectBad else None
       end.

Definition VerifyResult (key : string) (res : ClusterCommandResult) (now : Time) : option RejectReason :=
  if bool_decide (r_Signature res = "") then Some RejectMissing
  else match checkSkew (r_IssuedAt res) now with
       | Some e => Some e
       | None => if negb (verify key (canonicalResult res) (r_Signature res)) then Some RejectBad else None
       end.

(** ** Proofs: the encoding is injective *)

Lemma Itoa_no_char c n : is_digit c = false → has_char c (Itoa n) = false.
Proof. apply pretty_N_no_char. Qed.

Lemma Itoa_inj a b : Itoa a = Itoa b → a = b.
Proof. intros H%(inj pretty). lia. Qed.

Lemma writeField_inj f g s t : writeField f +:+ s = writeField g +:+ t → f = g ∧ s = t.
Proof.
  unfold writeField. rewrite !str_app_assoc, !str_app_cons. intros Heq.
  apply str_sep_inj in Heq as [Hl Heq]; [|by apply Itoa_no_char..]. apply Itoa_inj in Hl.
  rewrite !str_app_assoc in Heq. apply str_app_inj_len in Heq as [-> Heq]; [|done].
  by apply str_app_inj_len in Heq as [_ ->].
Qed.

Lemma write_fields_inj l1 : ∀ l2 s t,
  length l1 = length l2 → write_fields l1 s = write_fields l2 t → l1 = l2 ∧ s = t.
Proof.
  induction l1 as [|f l1 IH]; intros [|g l2] s t Hl Heq; try done. simpl in Hl.
  apply writeField_inj in Heq as [-> Heq]. apply IH in Heq as [-> ->]; [done|lia].
Qed.

Lemma sorted_keys_perm m : sorted_keys m ≡ₚ (map_to_list m).*1.
Proof. apply merge_sort_Permutation. Qed.

Lemma sorted_keys_elem m k : k ∈ sorted_keys m ↔ is_Some (m !! k).
Proof.
  rewrite sorted_keys_perm, list_elem_of_fmap. split.
  - intros ([k' v] & -> & Hin%elem_of_map_to_list). eauto.
  - intros [v Hv]. exists (k, v). split; [done|]. by apply elem_of_map_to_list.
Qed.

Lemma pairs_length (f : string → string) l : length (mjoin ((λ k, [k; f k]) <$> l)) = 2 * length l.
Proof. induction l as [|k l IH]; [done|]. rewrite fmap_cons. simpl in *. rewrite IH. lia. Qed.

Lemma pairs_inj (f g : string → string) l : ∀ l',
  mjoin ((λ k, [k; f k]) <$> l) = mjoin ((λ k, [k; g k]) <$> l') → l = l' ∧ ∀ k, k ∈ l → f k = g k.
Proof.
  induction l as [|k l IH]; intros [|k' l'] Heq; try done; [set_solver|].
  cbn in Heq. injection Heq as -> Hf Heq. apply IH in Heq as [-> Hin]. split; [done|].
  intros k [->|?]%elem_of_cons; auto.
Qed.

Lemma writeMetadata_inj m1 m2 : writeMetadata m1 = writeMetadata m2 → m1 = m2.
Proof.
  unfold writeMetadata, nl. rewrite !str_app_cons, !str_app_nil_l. intros Heq.
  apply str_sep_inj in Heq as [Hl Heq]; [|by apply Itoa_no_char..]. apply Itoa_inj in Hl.
  apply write_fields_inj in Heq as [Heq _]; [|by rewrite !pairs_length, Hl].
  apply pairs_inj in Heq as [Hk Hv]. apply map_eq. intros k.
  destruct (decide (k ∈ sorted_keys m1)) as [Hin|Hin].
  - specialize (Hv k Hin). apply sorted_keys_elem in Hin as H1. rewrite Hk in Hin.
    apply sorted_keys_elem in Hin as H2. destruct H1 as [x Hx], H2 as [y Hy]. rewrite Hx, Hy in Hv |- *.
    simpl in Hv. by rewrite Hv.
  - rewrite Hk in Hin. pose proof Hin as Hin'. rewrite <-Hk in Hin'. rewrite sorted_keys_elem in Hin, Hin'.
    apply eq_None_not_Some in Hin, Hin'. congruence.
Qed.

(** ** Proofs: hex and clocks *)

Lemma hex_byte c : hex_value (hex_char (N_of_ascii c / 16)) = Some (N_of_ascii c / 16)%N ∧
  hex_value (hex_char (N_of_ascii c mod 16)) = Some (N_of_ascii c mod 16)%N.
Proof. destruct c as [[] [] [] [] [] [] [] []]; done. Qed.

Lemma Decode_Encode s : DecodeString (EncodeToString s) = Some s.
Proof.
  induction s as [|c s IH]; [done|]. cbn [EncodeToString DecodeString].
  destruct (hex_byte c) as [-> ->]. cbn. rewrite IH. cbn. do 2 f_equal.
  rewrite <-(ascii_N_embedding c) at 3. f_equal. symmetry. apply N.div_mod. done.
Qed.

Lemma Encode_ne s : s ≠ "" → EncodeToString s ≠ "".
Proof. by destruct s. Qed.

(** Times whose differences fit 64 bits, such as all RFC 3339 times. *)
Definition sane (t : Time) : Prop := (- 2 ^ 61 < t_sec t < 2 ^ 61)%Z.

Lemma checkSkew_spec issuedAt now : sane issuedAt → sane now →
  checkSkew issuedAt now = None ↔
  IsZero issuedAt = false ∧ (Z.abs (t_sec now - t_sec issuedAt) ≤ MaxClockSkew)%Z.
Proof.
  unfold sane, checkSkew. intros Hi Hn. destruct (IsZero issuedAt); [naive_solver|].
  rewrite (i64_small (t_sec now - t_sec issuedAt)) by lia.
  assert (∀ d, (if (MaxClockSkew <? d)%Z then Some RejectSkew else None) = None ↔ (d ≤ MaxClockSkew)%Z) as Hd.
  { intros d. destruct (Z.ltb_spec MaxClockSkew d); split; (done || lia). }
  destruct (Z.ltb_spec (t_sec now - t_sec issuedAt) 0); [rewrite i64_small by lia|]; rewrite Hd;
    (split; [intros; split; [done|lia]|intros [_ ?]; lia]).
Qed.

(** Agreement on everything the signature covers. *)
Definition same_covered (c1 c2 : ClusterCommand) : Prop :=
  c_Type c1 = c_Type c2 ∧ c_SessionID c1 = c_SessionID c2 ∧
  c_TargetIncarnationID c1 = c_TargetIncarnationID c2 ∧ c_LeaseVersion c1 = c_LeaseVersion c2 ∧
  sha256 (c_Payload c1) = sha256 (c_Payload c2) ∧ c_CommandID c1 = c_CommandID c2 ∧
  t_sec (c_IssuedAt c1) = t_sec (c_IssuedAt c2) ∧ c_Channel c1 = c_Channel c2 ∧
  c_Metadata c1 = c_Metadata c2.

(** The signed bytes determine the command.  Two commands with the same
    canonical bytes agree in type, session, target incarnation, lease version,
    command ID, issue second, channel and all metadata, and their payloads have
    the same SHA-256 digest, whatever bytes the fields contain; and the
    canonical bytes of a command are never those of a result. *)
Theorem canonical_injective c1 c2 res :
  (0 ≤ c_LeaseVersion c1)%Z → (0 ≤ c_LeaseVersion c2)%Z →
  canonicalCommand c1 ≠ canonicalResult res ∧
  (canonicalCommand c1 = canonicalCommand c2 → same_covered c1 c2).
Proof.
  intros H1 H2. split; [unfold canonicalCommand, canonicalResult; intros Heq; discriminate Heq|].
  unfold canonicalCommand. intros Heq.
  apply str_app_inj_len in Heq as [_ Heq]; [|done]. apply str_app_inj_len in Heq as [_ Heq]; [|done].
  apply write_fields_inj in Heq as [Hf Hm]; [|done]. injection Hf as Ht Hs Hi Hl Hp Hc Hd Hch.
  apply (inj pretty) in Hl, Hd. apply writeMetadata_inj in Hm.
  apply (f_equal DecodeString) in Hp. rewrite !Decode_Encode in Hp. injection Hp as Hp.
  split_and!; try done. lia.
Qed.

(** C38: what is accepted.  A command signed by a holder of the key is accepted
    within 30 seconds of its issue.  Conversely, an accepted command carries a
    command ID, a non-zero issue time within 30 seconds, and the MAC of its own
    canonical bytes in hex.  In particular, if its signature was produced for
    another command, then it agrees with that command in type, session, target
    incarnation, lease version, payload digest, command ID, issue second, channel
    and metadata, or the canonical bytes of these two commands differ and are a
    collision of the MAC under this key. *)
Theorem verify_command_exact key cmd orig now :
  sane (c_IssuedAt cmd) → sane now → (∀ x, hmac key x ≠ "") →
  (c_CommandID cmd ≠ "" → IsZero (c_IssuedAt cmd) = false →
   (Z.abs (t_sec now - t_sec (c_IssuedAt cmd)) ≤ MaxClockSkew)%Z →
   VerifyCommand key (SignCommand key cmd) now = None) ∧
  (VerifyCommand key cmd now = None →
   c_CommandID cmd ≠ "" ∧ IsZero (c_IssuedAt cmd) = false ∧
   (Z.abs (t_sec now - t_sec (c_IssuedAt cmd)) ≤ MaxClockSkew)%Z ∧
   DecodeString (c_Signature cmd) = Some (hmac key (canonicalCommand cmd)) ∧
   ((0 ≤ c_LeaseVersion cmd)%Z → (0 ≤ c_LeaseVersion orig)%Z →
    c_Signature cmd = c_Signature (SignCommand key orig) →
    same_covered cmd orig ∨
    (canonicalCommand cmd ≠ canonicalCommand orig ∧
     hmac key (canonicalCommand cmd) = hmac key (canonicalCommand orig)))).
Proof.
  intros Hi Hn Hne. split.
  - intros Hid Hz Hskew. unfold VerifyCommand.
    change (canonicalCommand (SignCommand key cmd)) with (canonicalCommand cmd).
    cbn [c_Signature c_CommandID c_IssuedAt SignCommand]. unfold compute.
    rewrite bool_decide_eq_false_2 by apply Encode_ne, Hne. rewrite bool_decide_eq_false_2 by done.
    rewrite (proj2 (checkSkew_spec _ _ Hi Hn)) by done. unfold verify. rewrite Decode_Encode.
    by rewrite bool_decide_eq_true_2.
  - unfold VerifyCommand. case_bool_decide as Hs; [done|]. case_bool_decide as Hid; [done|].
    destruct (checkSkew _ _) eqn:Hsk; [done|]. apply checkSkew_spec in Hsk as [Hz Habs]; [|done..].
    unfold verify. destruct (DecodeString (c_Signature cmd)) as [mac|] eqn:Hd; [|done]. cbn.
    case_bool_decide as Hm; [|done]. intros _. split_and!; [done..|by subst|].
    intros Hl1 Hl2 Hsig. destruct (decide (canonicalCommand cmd = canonicalCommand orig)) as [Heq|Hneq].
    + left. by apply (canonical_injective cmd orig (mkResult "" "" "" "" "" "" "" ∅ zeroTime "")).
    + right. split; [done|]. rewrite Hsig in Hd. cbn in Hd. unfold compute in Hd.
      rewrite Decode_Encode in Hd. congruence.
Qed.

End Signing.

Definition cmd0 : ClusterCommand :=
  mkCommand "id" "takeover" "b" "2" "s1" "acme:im.x" 3 (mkTime 1000 0) "a" "p" {[ "k" := "v" ]} "".

Lemma canonical_injective_witness :
  canonicalCommand (λ s, s) cmd0 ≠ canonicalResult (mkResult "" "" "" "" "" "" "" ∅ (mkTime 0 0) "") ∧
  c_Channel cmd0 = c_Channel (SignCommand (λ s, s) (λ _ s, s) "key" cmd0).
Proof.
  split.
  - apply (canonical_injective (λ s, s) cmd0 cmd0); vm_compute; discriminate.
  - apply (canonical_injective (λ s, s) cmd0 (SignCommand (λ s, s) (λ _ s, s) "key" cmd0)
      (mkResult "" "" "" "" "" "" "" ∅ (mkTime 0 0) "")); [vm_compute; discriminate..|reflexivity].
Defined.

(** The same command under another audit name: accepted, and nothing covered differs. *)
Definition relabelled : ClusterCommand :=
  let c := SignCommand (λ s, s) (λ k s, String "0" (k +:+ s)) "key" cmd0 in
  mkCommand (c_CommandID c) (c_Type c) "elsewhere" (c_TargetIncarnationID c) (c_SessionID c) (c_Channel c)
    (c_LeaseVersion c) (c_IssuedAt c) "someone" (c_Payload c) (c_Metadata c) (c_Signature c).

Lemma verify_command_exact_witness :
  VerifyCommand (λ s, s) (λ k s, String "0" (k +:+ s)) "key"
    (SignCommand (λ s, s) (λ k s, String "0" (k +:+ s)) "key" cmd0) (mkTime 1030 0) = None ∧
  c_Channel relabelled = c_Channel cmd0.
Proof.
  split.
  - apply (verify_command_exact (λ s, s) (λ k s, String "0" (k +:+ s)) "key" cmd0 cmd0 (mkTime 1030 0)).
    + split; reflexivity.
    + split; reflexivity.
    + discriminate.
    + discriminate.
    + reflexivity.
    + vm_compute. discriminate.
  - destruct (verify_command_exact (λ s, s) (λ k s, String "0" (k +:+ s)) "key" relabelled cmd0 (mkTime 1030 0))
      as [_ Hacc].
    + split; reflexivity.
    + split; reflexivity.
    + discriminate.
    + destruct Hacc as (_ & _ & _ & _ & Hsig); [vm_compute; reflexivity|].
      destruct Hsig as [Hc|[_ Hmac]]; [vm_compute; discriminate|vm_compute; discriminate|reflexivity|apply Hc|].
      reflexivity.
Defined.

End Hmac.
