(* ===== verification/Recover.v ===== *)
(** * Recover: replaying missed publications (internal/runtime/recover.go)

    A recover request is answered with replay frames and one RecoverComplete per
    channel.  The broker's History, the channel policies and the outcome of each
    Send are parameters; the broker's contract is a class the memory broker
    discharges.  Offsets are 64-bit. *)

From S2P Require Import Prelude Topics Policy Stream Matcher MemoryBroker Directory CSTrie.
Import Topics Directory.

Module Recover.

Inductive RecoverStatus :=
  RecoverSkipped | RecoverOK | RecoverTruncated | RecoverFailed | RecoverEpochReset.

Inductive RecoverState := STATE_NONE | STATE_SKIPPED | STATE_PENDING.

Definition MaxRecoveredPublications : Z := 1000.

(** A [clientpb.Subscription]; [su_Cursor] is the optional position's optional offset. *)
Record Subscription := mkSub {
  su_Channel : string;
  su_Recover : bool;
  su_Fresh : bool;
  su_Cursor : option (option Z);
}.

Inductive SkipReason :=
  | NotRequested | Wildcard | PolicyDenies | NoServerOffset | NoCursor | EmptyChannel.

(** The wire's [GapReason]. *)
Inductive GapReasonV2 :=
  GAP_REASON_NONE | GAP_REASON_HEAD_TRIMMED | GAP_REASON_EMPTY_EXPIRED | GAP_REASON_MIDDLE
  | GAP_REASON_EPOCH_RESET.

Definition gapReasonV2 (reason : Stream.HistoryGapReason) : GapReasonV2 :=
  match reason with
  | Stream.HistoryGapHeadTrimmed => GAP_REASON_HEAD_TRIMMED
  | Stream.HistoryGapEmptyExpired => GAP_REASON_EMPTY_EXPIRED
  | Stream.HistoryGapMiddle => GAP_REASON_MIDDLE
  | _ => GAP_REASON_NONE
  end.

(** The wire's [RecoverComplete]; of the error only the code. *)
Record RecoverComplete := mkComplete {
  rc_Channel : string;
  rc_Position : string * option Z;
  rc_Truncated : bool;
  rc_Gap : bool;
  rc_GapReason : GapReasonV2;
  rc_Error : option string;
}.

(** What is handed to the session's Send (whose outcome is ignored for the
    complete frame). *)
Inductive frame :=
  | FReplay (ch : string) (pub : Stream.Publication)
  | FComplete (c : RecoverComplete).

Definition offsetFrom (p : option (option Z)) : option Z := match p with Some o => o | None => None end.

(** ** Which channels (SnapshotRecoverySubs) *)

Fixpoint snapshot_subs (requested failed : gset string) (l : list ClusterSubscriptionSnapshot)
    : list Subscription :=
  match l with
  | [] => []
  | s :: l' =>
      if bool_decide (ss_Channel s ∈ requested) then snapshot_subs requested failed l'
      else if bool_decide (ss_Channel s ∈ failed) then snapshot_subs requested failed l'
      else mkSub (ss_Channel s) true false None
             :: snapshot_subs ({[ ss_Channel s ]} ∪ requested) failed l'
  end.

Definition SnapshotRecoverySubs (snapshot : option ClusterSessionSnapshot)
    (requestChannels failedChannels : list string) : list Subscription :=
  match snapshot with
  | None => []
  | Some s => snapshot_subs (list_to_set requestChannels) (list_to_set failedChannels) (sn_Subscriptions s)
  end.

Section Recovery.
Context (policy : string → Policy.ChannelPolicy).
Context (history : string → Z → Z → option Stream.HistoryPage).    (* None: an error *)
Context (send : Stream.Publication → bool).                         (* whether Send succeeds *)
Context (epoch : string).                                            (* the broker's *)
Context (delivered : string → Z).                                    (* the hub's record, 0: none *)

(** ** Cursor and gates *)

Definition recoverySkip (sub : Subscription) (snapshot : option ClusterSessionSnapshot) : option SkipReason :=
  if negb (su_Recover sub) then Some NotRequested
  else if IsWildcard (su_Channel sub) then Some Wildcard
  else
    let pol := policy (su_Channel sub) in
    if negb (Policy.Recover pol) || negb (Policy.History pol) || Policy.TransientOnly pol then Some PolicyDenies
    else match snapshot with
         | Some s =>
             if negb (bool_decide (is_Some (sn_ChannelOffsets s !! su_Channel sub))) && negb (su_Fresh sub)
             then Some NoServerOffset else None
         | None =>
             if su_Fresh sub then None
             else if bool_decide (is_Some (offsetFrom (su_Cursor sub))) then None
             else if (0 <? delivered (su_Channel sub))%Z then None
             else Some NoCursor
         end.

(** The cursor to echo, whether the epoch was reset, the History offset, and a
    reason to skip. *)
Definition recoveryCursor (sub : Subscription) (snapshot : option ClusterSessionSnapshot)
    : option Z * bool * Z * option SkipReason :=
  if su_Fresh sub then (None, false, 0%Z, None)
  else match snapshot with
       | Some s =>
           if negb (bool_decide (sn_BrokerEpoch s = "")) && negb (bool_decide (epoch = "")) &&
              negb (bool_decide (sn_BrokerEpoch s = epoch)) then (None, true, 0%Z, None)
           else match sn_ChannelOffsets s !! su_Channel sub with
                | None => (None, false, 0%Z, Some NoServerOffset)
                | Some o => (Some o, false, u64 (o + 1), None)
                end
       | None =>
           match offsetFrom (su_Cursor sub) with
           | Some o => (Some o, false, u64 (o + 1), None)
           | None =>
               let d := delivered (su_Channel sub) in
               if (0 <? d)%Z then (Some d, false, u64 (d + 1), None)
               else (None, false, 0%Z, Some NoCursor)
           end
       end.

Definition recoverState (subs : list Subscription) (snapshot : option ClusterSessionSnapshot) : RecoverState :=
  let wanted := List.filter su_Recover subs in
  if bool_decide (wanted = []) then STATE_NONE
  else if existsb (λ sub, match recoverySkip sub snapshot with None => true | Some _ => false end) wanted
  then STATE_PENDING else STATE_SKIPPED.

(** ** One channel *)

(** The replay loop: what was sent, the last offset, the remaining quota. *)
Fixpoint replay_loop (ch : string) (pubs : list Stream.Publication) (last : option Z) (quota : Z)
    : list frame * option Z * Z :=
  match pubs with
  | [] => ([], last, quota)
  | pub :: rest =>
      if negb (send pub) then ([], last, quota)
      else let '(fs, last', quota') := replay_loop ch rest (Some (Stream.Offset pub)) (quota - 1) in
           (FReplay ch pub :: fs, last', quota')
  end.

Definition status_error (status : RecoverStatus) (failed : bool) : option string :=
  match status with
  | RecoverFailed => Some "RECOVER_FAILED"
  | RecoverSkipped => if failed then Some "RECOVER_SKIPPED" else None
  | _ => None
  end.

(** [finishRecovery]: the complete frame. *)
Definition finishRecovery (ch : string) (status : RecoverStatus) (offset : option Z) (hasErr gap : bool)
    (gapReason : GapReasonV2) : frame :=
  FComplete (mkComplete ch (epoch, offset)
    (match status with RecoverTruncated => true | _ => false end) gap gapReason (status_error status hasErr)).

Definition recover_limit (ch : string) (quota : Z) : Z :=
  let limit := MaxRecoveredPublications in
  let pl := Policy.RecoverLimit (policy ch) in
  let limit := if (0 <? pl)%Z && (pl <? limit)%Z then pl else limit in
  let limit := if (quota <? limit)%Z then quota else limit in
  if (limit <? 0)%Z then 0%Z else limit.

Definition recoverSubscription (sub : Subscription) (snapshot : option ClusterSessionSnapshot) (quota : Z)
    : list frame * RecoverStatus * Z :=
  let ch := su_Channel sub in
  let none := GAP_REASON_NONE in
  if bool_decide (ch = "") then
    ([finishRecovery ch RecoverSkipped None (su_Recover sub) false none], RecoverSkipped, quota)
  else
    let '(cursor, epochReset, sinceOffset, cursorSkip) := recoveryCursor sub snapshot in
    let skip := match recoverySkip sub snapshot with Some s => Some s | None => cursorSkip end in
    match skip with
    | Some _ => ([finishRecovery ch RecoverSkipped cursor (su_Recover sub) false none], RecoverSkipped, quota)
    | None =>
        let limit := recover_limit ch quota in
        if (limit =? 0)%Z then
          ([finishRecovery ch RecoverTruncated cursor false false none], RecoverTruncated, quota)
        else match history ch sinceOffset limit with
             | None => ([finishRecovery ch RecoverFailed cursor true false none], RecoverFailed, quota)
             | Some page =>
                 let pubs := Stream.Publications page in
                 let '(fs, last, quota') := replay_loop ch pubs cursor quota in
                 let status :=
                   if epochReset then RecoverEpochReset
                   else if (Z.of_nat (length pubs) =? limit)%Z then RecoverTruncated
                   else if Stream.Gap page && bool_decide (length pubs = 0) then RecoverTruncated
                   else RecoverOK in
                 let gap := Stream.Gap page || epochReset in
                 let reason := if epochReset then GAP_REASON_EPOCH_RESET else gapReasonV2 (Stream.GapReason page) in
                 (fs ++ [finishRecovery ch status last false gap reason], status, quota')
             end
    end.

(** ** One request *)

Fixpoint stream_loop (subs : list Subscription) (snapshot : option ClusterSessionSnapshot) (quota : Z)
    : list frame :=
  match subs with
  | [] => []
  | sub :: rest =>
      if negb (su_Recover sub) then stream_loop rest snapshot quota
      else let '(fs, _, quota') := recoverSubscription sub snapshot quota in
           fs ++ stream_loop rest snapshot quota'
  end.

Definition streamRecoveries (subs : list Subscription) (snapshot : option ClusterSessionSnapshot) : list frame :=
  stream_loop subs snapshot MaxRecoveredPublications.

(** ** Proofs *)

Definition replays (fs : list frame) : list Stream.Publication :=
  omap (λ f, match f with FReplay _ p => Some p | FComplete _ => None end) fs.

Definition completes (fs : list frame) : list RecoverComplete :=
  omap (λ f, match f with FReplay _ _ => None | FComplete c => Some c end) fs.

(** The longest prefix whose sends succeed. *)
Fixpoint sent_prefix (pubs : list Stream.Publication) : list Stream.Publication :=
  match pubs with
  | [] => []
  | p :: rest => if send p then p :: sent_prefix rest else []
  end.

Definition last_offset (cursor : option Z) (pubs : list Stream.Publication) : option Z :=
  match last pubs with Some p => Some (Stream.Offset p) | None => cursor end.

Lemma last_offset_cons cursor p pubs :
  last_offset cursor (p :: pubs) = last_offset (Some (Stream.Offset p)) pubs.
Proof. unfold last_offset. rewrite last_cons. by destruct (last pubs). Qed.

Lemma replay_loop_spec ch pubs : ∀ cursor quota,
  replay_loop ch pubs cursor quota =
  (FReplay ch <$> sent_prefix pubs, last_offset cursor (sent_prefix pubs),
   (quota - Z.of_nat (length (sent_prefix pubs)))%Z).
Proof.
  induction pubs as [|p pubs IH]; intros cursor quota; cbn [replay_loop sent_prefix]; [f_equal; cbn; lia|].
  destruct (send p); cbn [negb]; [|f_equal; cbn; lia]. rewrite IH, last_offset_cons.
  cbn [length fmap list_fmap]. f_equal. lia.
Qed.

Lemma replays_fmap ch l : replays (FReplay ch <$> l) = l.
Proof. induction l as [|p l IH]; [done|]. cbn. f_equal. exact IH. Qed.

Lemma completes_fmap ch l : completes (FReplay ch <$> l) = [].
Proof. induction l as [|p l IH]; [done|]. exact IH. Qed.

Lemma sent_prefix_length pubs : length (sent_prefix pubs) ≤ length pubs.
Proof. induction pubs as [|p pubs IH]; cbn; [done|]. destruct (send p); cbn; lia. Qed.

Lemma recover_limit_bounds ch quota :
  (0 ≤ recover_limit ch quota)%Z ∧ (recover_limit ch quota ≤ MaxRecoveredPublications)%Z ∧
  ((0 ≤ quota)%Z → (recover_limit ch quota ≤ quota)%Z) ∧
  ((0 < Policy.RecoverLimit (policy ch))%Z → (recover_limit ch quota ≤ Policy.RecoverLimit (policy ch))%Z).
Proof.
  unfold recover_limit, MaxRecoveredPublications.
  destruct (Z.ltb_spec 0 (Policy.RecoverLimit (policy ch)));
    destruct (Z.ltb_spec (Policy.RecoverLimit (policy ch)) 1000); cbn [andb];
    match goal with |- context [(quota <? ?x)%Z] => destruct (Z.ltb_spec quota x) end;
    match goal with |- context [(?x <? 0)%Z] => destruct (Z.ltb_spec x 0) end; lia.
Qed.

(** What the replay needs of the broker's History. *)
Class HistoryContract (log : string → list Stream.Publication) : Prop := {
  hc_page : ∀ ch since limit, (0 < since)%Z → (0 < limit)%Z → ∃ page,
    history ch since limit = Some page ∧
    (Stream.Gap page = false → Stream.Publications page =
       take (Z.to_nat limit) (List.filter (λ p, (since <=? Stream.Offset p)%Z) (log ch)));
  hc_length : ∀ ch since limit page, (0 < limit)%Z → history ch since limit = Some page →
    (Z.of_nat (length (Stream.Publications page)) ≤ limit)%Z;
}.

Lemma sent_all pubs : (∀ p, p ∈ pubs → send p = true) → sent_prefix pubs = pubs.
Proof.
  induction pubs as [|p pubs IH]; intros Hs; cbn [sent_prefix]; [done|].
  rewrite (Hs p) by by left. f_equal. apply IH. intros q Hq. apply Hs. by right.
Qed.

Lemma filter_from (c : Z) (l : list Stream.Publication) :
  List.filter (λ p, (c + 1 <=? Stream.Offset p)%Z) l = List.filter (λ p, (c <? Stream.Offset p)%Z) l.
Proof.
  apply List.filter_ext. intros p.
  destruct (Z.leb_spec (c + 1) (Stream.Offset p)); destruct (Z.ltb_spec c (Stream.Offset p)); lia.
Qed.

(** The History branch of [recoverSubscription]. *)
Lemma recoverSubscription_history sub snapshot quota cursor reset since page :
  su_Channel sub ≠ "" → recoverySkip sub snapshot = None →
  recoveryCursor sub snapshot = (cursor, reset, since, None) →
  (0 < recover_limit (su_Channel sub) quota)%Z →
  history (su_Channel sub) since (recover_limit (su_Channel sub) quota) = Some page →
  let pubs := sent_prefix (Stream.Publications page) in
  ∃ status, recoverSubscription sub snapshot quota =
    ((FReplay (su_Channel sub) <$> pubs) ++
       [finishRecovery (su_Channel sub) status (last_offset cursor pubs) false (Stream.Gap page || reset)
          (if reset then GAP_REASON_EPOCH_RESET else gapReasonV2 (Stream.GapReason page))],
     status, (quota - Z.of_nat (length pubs))%Z) ∧
    (status = RecoverOK →
       Z.of_nat (length (Stream.Publications page)) ≠ recover_limit (su_Channel sub) quota) ∧
    (if reset then status = RecoverEpochReset else status = RecoverOK ∨ status = RecoverTruncated).
Proof.
  intros Hch Hskip Hcur Hlim Hp pubs. unfold recoverSubscription.
  rewrite (bool_decide_eq_false_2 _ Hch), Hcur, Hskip. cbv zeta.
  rewrite (proj2 (Z.eqb_neq _ 0)) by lia. rewrite Hp, replay_loop_spec. eexists.
  split; [reflexivity|]. destruct reset; [done|].
  destruct (Z.eqb_spec (Z.of_nat (length (Stream.Publications page))) (recover_limit (su_Channel sub) quota));
    [by auto|]. destruct (Stream.Gap page && _); auto.
Qed.

(** Recovery from a cursor: the replays, the frame that closes them and its status. *)
Lemma recoverSubscription_from log `{!HistoryContract log} sub snapshot quota c :
  su_Channel sub ≠ "" → recoverySkip sub snapshot = None →
  recoveryCursor sub snapshot = (Some c, false, u64 (c + 1), None) →
  (0 ≤ c)%Z → (c + 1 < u64_modulus)%Z → (∀ p, p ∈ log (su_Channel sub) → send p = true) →
  (0 < recover_limit (su_Channel sub) quota)%Z →
  let ch := su_Channel sub in
  let wanted := List.filter (λ p, (c <? Stream.Offset p)%Z) (log ch) in
  ∃ pubs gap reason status,
    recoverSubscription sub snapshot quota =
      ((FReplay ch <$> pubs) ++ [finishRecovery ch status (last_offset (Some c) pubs) false gap reason], status,
       (quota - Z.of_nat (length pubs))%Z) ∧
    (status = RecoverOK ∨ status = RecoverTruncated) ∧
    (gap = false → pubs = take (Z.to_nat (recover_limit ch quota)) wanted) ∧
    (gap = false → status = RecoverOK → pubs = wanted).
Proof.
  intros Hch Hskip Hcur Hc Hc64 Hsend Hlim ch wanted.
  rewrite u64_small in Hcur by (unfold is_u64; lia).
  destruct (hc_page ch (c + 1) (recover_limit ch quota)) as (page & Hp & Hpage); [lia|done|].
  destruct (recoverSubscription_history sub snapshot quota _ _ _ _ Hch Hskip Hcur Hlim Hp)
    as (status & -> & Hfull & Hst). rewrite filter_from in Hpage. fold wanted in Hpage.
  rewrite orb_false_r.
  assert (Stream.Gap page = false →
    sent_prefix (Stream.Publications page) = take (Z.to_nat (recover_limit ch quota)) wanted) as Hpubs.
  { intros Hg. specialize (Hpage Hg). rewrite sent_all; [done|]. intros p Hin.
    rewrite Hpage in Hin. apply Hsend, list_elem_of_In.
    refine (proj1 (proj1 (List.filter_In (λ p, (c <? Stream.Offset p)%Z) p (log ch)) _)).
    apply list_elem_of_In. rewrite <-(take_drop (Z.to_nat (recover_limit ch quota))).
    apply elem_of_app. by left. }
  eexists _, _, _, status. split; [reflexivity|]. split; [exact Hst|]. split; [exact Hpubs|].
  intros Hg Hok. rewrite Hpubs by done. apply take_ge. specialize (Hfull Hok).
  rewrite (Hpage Hg), length_take in Hfull. fold ch in Hfull, Hlim. lia.
Qed.

(** C25: recovery is exact.  A channel with a cursor below the last 64-bit offset
    that passes the gates and whose sends all succeed is answered with replays
    followed by one RecoverComplete without error, whose position is the last
    replayed offset (the cursor when there was none).  Unless a gap is reported,
    the replays are the publications after the cursor, in log order, up to the
    limit; unless it is also reported truncated, they are all of them. *)
Theorem recovery_exact log `{!HistoryContract log} sub snapshot quota c :
  su_Channel sub ≠ "" → recoverySkip sub snapshot = None →
  recoveryCursor sub snapshot = (Some c, false, u64 (c + 1), None) →
  (0 ≤ c)%Z → (c + 1 < u64_modulus)%Z → (∀ p, p ∈ log (su_Channel sub) → send p = true) →
  (0 < recover_limit (su_Channel sub) quota)%Z →
  let ch := su_Channel sub in
  let wanted := List.filter (λ p, (c <? Stream.Offset p)%Z) (log ch) in
  ∃ pubs done status,
    recoverSubscription sub snapshot quota =
      ((FReplay ch <$> pubs) ++ [FComplete done], status, (quota - Z.of_nat (length pubs))%Z) ∧
    rc_Channel done = ch ∧ rc_Error done = None ∧ rc_Position done = (epoch, last_offset (Some c) pubs) ∧
    (rc_Gap done = false → pubs = take (Z.to_nat (recover_limit ch quota)) wanted) ∧
    (rc_Gap done = false → rc_Truncated done = false → pubs = wanted).
Proof.
  intros Hch Hskip Hcur Hc Hc64 Hsend Hlim ch wanted.
  destruct (recoverSubscription_from log sub snapshot quota c Hch Hskip Hcur Hc Hc64 Hsend Hlim)
    as (pubs & gap & reason & status & -> & Hst & Hpubs & Hfull).
  eexists pubs, _, status. split; [reflexivity|]. cbn. split; [done|].
  destruct Hst as [->| ->]; (split; [done|]); (split; [done|]); (split; [exact Hpubs|]); [|done].
  intros Hg _. by apply Hfull.
Qed.

(** One channel: one complete frame, at the end, and at most [recover_limit]
    replays, which the quota pays for. *)
Lemma recoverSubscription_bounds log `{!HistoryContract log} sub snapshot quota :
  (0 ≤ quota)%Z →
  ∃ pubs done status,
    recoverSubscription sub snapshot quota =
      ((FReplay (su_Channel sub) <$> pubs) ++ [FComplete done], status, (quota - Z.of_nat (length pubs))%Z) ∧
    rc_Channel done = su_Channel sub ∧
    (Z.of_nat (length pubs) ≤ recover_limit (su_Channel sub) quota)%Z.
Proof.
  intros Hq. pose proof (recover_limit_bounds (su_Channel sub) quota) as (Hlim & _).
  assert (∀ done (status : RecoverStatus), rc_Channel done = su_Channel sub → ∃ pubs done' status',
    ([FComplete done], status, quota) = ((FReplay (su_Channel sub) <$> pubs) ++ [FComplete done'], status',
      (quota - Z.of_nat (length pubs))%Z) ∧ rc_Channel done' = su_Channel sub ∧
    (Z.of_nat (length pubs) ≤ recover_limit (su_Channel sub) quota)%Z) as Hempty.
  { intros done status Hd. exists [], done, status. cbn. rewrite Z.sub_0_r. done. }
  unfold recoverSubscription. case_bool_decide; [by apply Hempty|].
  destruct (recoveryCursor sub snapshot) as [[[cursor reset] since] cskip]. cbv zeta.
  destruct (match recoverySkip sub snapshot with Some s => Some s | None => cskip end); [by apply Hempty|].
  destruct (Z.eqb_spec (recover_limit (su_Channel sub) quota) 0); [by apply Hempty|].
  destruct (history _ _ _) as [page|] eqn:Hp; [|by apply Hempty].
  apply hc_length in Hp; [|lia]. rewrite replay_loop_spec.
  pose proof (sent_prefix_length (Stream.Publications page)).
  eexists _, _, _. split; [reflexivity|]. split; [done|lia].
Qed.

Lemma replays_app a b : replays (a ++ b) = replays a ++ replays b.
Proof. apply omap_app. Qed.

Lemma completes_app a b : completes (a ++ b) = completes a ++ completes b.
Proof. apply omap_app. Qed.

Lemma stream_loop_bounds log `{!HistoryContract log} snapshot subs : ∀ quota,
  (0 ≤ quota)%Z →
  (Z.of_nat (length (replays (stream_loop subs snapshot quota))) ≤ quota)%Z ∧
  rc_Channel <$> completes (stream_loop subs snapshot quota) = su_Channel <$> List.filter su_Recover subs.
Proof.
  induction subs as [|sub subs IH]; intros quota Hq; cbn [stream_loop List.filter]; [done|].
  destruct (su_Recover sub); cbn [negb]; [|by apply IH].
  destruct (recoverSubscription_bounds log sub snapshot quota Hq) as (pubs & d & status & -> & Hd & Hlen).
  pose proof (recover_limit_bounds (su_Channel sub) quota) as (_ & _ & Hle & _). specialize (Hle Hq).
  destruct (IH (quota - Z.of_nat (length pubs))%Z) as [IHl IHc]; [lia|].
  rewrite !replays_app, !completes_app, replays_fmap, completes_fmap. cbn [replays completes omap list_omap app].
  rewrite !length_app, fmap_cons. split; [cbn [length]; lia|]. by rewrite Hd, IHc.
Qed.

(** C26: recovery is bounded and complete.  However many channels one request
    recovers, at most 1000 publications are replayed for it, and every
    recover=true subscription gets exactly one RecoverComplete, in request
    order; a single channel never replays more than its policy's limit, its
    complete frame coming last. *)
Theorem recovery_bounded log `{!HistoryContract log} snapshot subs :
  (Z.of_nat (length (replays (streamRecoveries subs snapshot))) ≤ MaxRecoveredPublications)%Z ∧
  rc_Channel <$> completes (streamRecoveries subs snapshot) = su_Channel <$> List.filter su_Recover subs ∧
  ∀ sub quota, (0 ≤ quota)%Z → (0 < Policy.RecoverLimit (policy (su_Channel sub)))%Z →
    ∃ pubs done, fst (fst (recoverSubscription sub snapshot quota)) =
      (FReplay (su_Channel sub) <$> pubs) ++ [FComplete done] ∧
      (Z.of_nat (length pubs) ≤ Policy.RecoverLimit (policy (su_Channel sub)))%Z.
Proof.
  destruct (stream_loop_bounds log snapshot subs MaxRecoveredPublications) as [H1 H2]; [done|].
  split; [exact H1|]. split; [exact H2|]. intros sub quota Hq Hl.
  destruct (recoverSubscription_bounds log sub snapshot quota Hq) as (pubs & d & st & -> & _ & Hlen).
  exists pubs, d. split; [reflexivity|].
  pose proof (recover_limit_bounds (su_Channel sub) quota) as (_ & _ & _ & Hle). specialize (Hle Hl). lia.
Qed.

End Recovery.

(** ** The memory broker as history *)

Lemma memory_history_contract {M : Type} `{Matcher.Matcher string M, !Matcher.MatcherLaws Matcher.trailing_wildcard string M} (size : Z) (Hsize : (0 < size)%Z) epoch
    (b : MemoryBroker.memoryBroker (M:=M)) sp :
  MemoryBroker.sim size epoch b sp →
  (∀ ch, Z.of_nat (length (MemoryBroker.log_of sp ch)) < u64_modulus)%Z →
  HistoryContract (MemoryBroker.History b) (MemoryBroker.log_of sp).
Proof.
  intros Hs Hlen. split.
  - intros ch since limit Hsince Hlimit. eexists. split; [by apply (MemoryBroker.History_sim (M:=M) size epoch)|]. intros Hg.
    eapply Stream.page_gap_exact in Hg as [Hg _]; [|by eapply (MemoryBroker.sim_dense (M:=M) size epoch)|lia|by eapply (MemoryBroker.sim_cap (M:=M) size epoch)|done].
    by rewrite (proj2 (Z.leb_gt limit 0)) in Hg.
  - intros ch since limit page Hlimit Hp. rewrite (MemoryBroker.History_sim (M:=M) size epoch b sp) in Hp by done.
    injection Hp as <-. unfold Stream.page_of. case_bool_decide.
    + unfold Stream.emptyPage. destruct (_ <? _)%Z; cbn; lia.
    + cbn [Stream.Publications]. rewrite length_take, (proj2 (Z.leb_gt limit 0)) by done. lia.
Qed.

(** ** Concrete runs *)

Abbreviation trie := (CSTrie.heap (Sub:=string)).

Definition recover_ops : list MemoryBroker.op :=
  (λ m, MemoryBroker.OPub "acme:im.x" (MemoryBroker.msg m) 1) <$> ["m1"; "m2"; "m3"].

(** The broker, and its specification, after some operations. *)
Definition spec_after (ops : list MemoryBroker.op) : MemoryBroker.spec :=
  default MemoryBroker.spec0 (snd <$> MemoryBroker.spec_exec "e" ops MemoryBroker.spec0).

Definition broker_after (ops : list MemoryBroker.op) : MemoryBroker.memoryBroker (M:=trie) :=
  match MemoryBroker.exec ops (MemoryBroker.NewMemoryBroker 16 "e") with
  | Some (_, b) => b
  | None => MemoryBroker.NewMemoryBroker 16 "e"
  end.

Lemma broker_after_sim ops :
  is_Some (MemoryBroker.spec_exec "e" ops MemoryBroker.spec0) →
  MemoryBroker.sim 16 "e" (broker_after ops) (spec_after ops).
Proof.
  intros [[rs sp] Hsp]. pose proof (MemoryBroker.exec_sim (M:=trie) 16 eq_refl "e" ops _ _
    (MemoryBroker.sim_new (M:=trie) 16 eq_refl "e")) as Hex.
  unfold broker_after, spec_after. rewrite Hsp in Hex |- *. destruct Hex as (b & -> & Hs). exact Hs.
Qed.

Lemma small_logs sp ch :
  bool_decide (map_Forall (λ _ l, length l ≤ 100) (MemoryBroker.sp_logs sp)) = true →
  (Z.of_nat (length (MemoryBroker.log_of sp ch)) < u64_modulus)%Z.
Proof.
  intros Hall%bool_decide_eq_true. unfold MemoryBroker.log_of.
  destruct (MemoryBroker.sp_logs sp !! ch) as [l|] eqn:Hl; [|done].
  apply Hall in Hl. cbn. unfold u64_modulus. lia.
Qed.

Definition recover_spec : MemoryBroker.spec := spec_after recover_ops.
Definition recover_broker : MemoryBroker.memoryBroker (M:=trie) := broker_after recover_ops.

Lemma recover_broker_sim : MemoryBroker.sim 16 "e" recover_broker recover_spec.
Proof. apply broker_after_sim. vm_compute. by eexists. Qed.

Lemma recover_log_small ch : (Z.of_nat (length (MemoryBroker.log_of recover_spec ch)) < u64_modulus)%Z.
Proof. apply small_logs. vm_compute. reflexivity. Qed.

#[local] Instance recover_contract :
  HistoryContract (MemoryBroker.History recover_broker) (MemoryBroker.log_of recover_spec) :=
  memory_history_contract 16 eq_refl "e" _ _ recover_broker_sim recover_log_small.

Definition all_default (_ : string) : Policy.ChannelPolicy := Policy.DefaultChannelPolicy.

Definition from (c : Z) : Subscription := mkSub "acme:im.x" true false (Some (Some c)).

Lemma recovery_exact_witness :
  ∃ pubs done status,
    recoverSubscription all_default (MemoryBroker.History recover_broker) (λ _, true) "e" (λ _, 0%Z)
      (from 1) None 1000 = ((FReplay "acme:im.x" <$> pubs) ++ [FComplete done], status, (1000 - Z.of_nat (length pubs))%Z) ∧
    rc_Position done = ("e", last_offset (Some 1%Z) pubs).
Proof.
  destruct (recovery_exact all_default (MemoryBroker.History recover_broker) (λ _, true) "e" (λ _, 0%Z)
    (MemoryBroker.log_of recover_spec) (from 1) None 1000 1) as (pubs & d & st & H1 & _ & _ & H2 & _);
    [discriminate|vm_compute; reflexivity|vm_compute; reflexivity|lia|unfold u64_modulus; lia|
     intros p _; reflexivity|vm_compute; reflexivity|].
  exists pubs, d, st. split; [exact H1|exact H2].
Defined.

Lemma recovery_bounded_witness :
  rc_Channel <$> completes (streamRecoveries all_default (MemoryBroker.History recover_broker) (λ _, true) "e"
    (λ _, 0%Z) [from 1; from 2] None) = ["acme:im.x"; "acme:im.x"].
Proof.
  destruct (recovery_bounded all_default (MemoryBroker.History recover_broker) (λ _, true) "e" (λ _, 0%Z)
    (MemoryBroker.log_of recover_spec) None [from 1; from 2]) as (_ & Hc & _). exact Hc.
Defined.

(** The complete frame of the only channel of a request. *)
Definition outcome (fs : list frame) : list string * list (option Z * bool * bool * option string) :=
  (Stream.Payload <$> replays fs,
   (λ c, (snd (rc_Position c), rc_Truncated c, rc_Gap c, rc_Error c)) <$> completes fs).

Definition only_m1 (p : Stream.Publication) : bool := bool_decide (Stream.Payload p = "m1").

Definition limit_one (_ : string) : Policy.ChannelPolicy :=
  Policy.mkPolicy true 0 0 true true false false 1 256 0 false 256 None.

Definition old_epoch : ClusterSessionSnapshot :=
  mkSnapshot "s" "u" "n" "c" true "p" 0 [] {[ "acme:im.x" := 7%Z ]} "old" ∅ 0.

(** Three cases in which the RecoverComplete does not tell the client that it
    missed publications, or replays what it has.  (1) A replay aborted by a
    failed Send is reported neither truncated nor failed.  (2) After an epoch
    reset a replay cut by the limit is not reported truncated.  (3) The cursor
    2^64-1 wraps to offset 0, and the whole history is replayed. *)
Theorem recovery_misreports :
  let stream pol send sub snap := outcome (streamRecoveries pol (MemoryBroker.History recover_broker) send "e"
    (λ _, 0%Z) [sub] snap) in
  stream all_default only_m1 (from 0) None = (["m1"], [(Some 1%Z, false, false, None)]) ∧
  stream limit_one (λ _, true) (from 7) (Some old_epoch) = (["m1"], [(Some 1%Z, false, true, None)]) ∧
  stream all_default (λ _, true) (from (u64_modulus - 1)) None =
    (["m1"; "m2"; "m3"], [(Some 3%Z, false, false, None)]).
Proof. split; [vm_compute; reflexivity|]. split; vm_compute; reflexivity. Qed.

End Recover.
