(* ===== verification/Session.v ===== *)
(** * Session: send queue, writer and lifecycle (internal/session/session.go, takeover.go)

    Sessions, attachments and queues are heap objects, because the code compares
    pointers.  Every critical section of the code is one step, so a goroutine
    that leaves a lock between a check and an action is two steps with any other
    steps in between.  Marshalling is an argument; the outcome of a transport
    write and the point at which a context is cancelled are chosen by the
    environment.  Heartbeats, presence and subscription removal are elsewhere or
    left out; Close and Fence are modelled up to their effect on the session. *)

From S2P Require Import Prelude.

Module Session.

Inductive SessionState :=
  SessionAuthenticating | SessionAttached | SessionDetached | SessionClosed.

#[export] Instance SessionState_eq_dec : EqDecision SessionState.
Proof. solve_decision. Defined.

Inductive Marshaler := ProtoJSONMarshaler | ProtobufMarshaler.

#[export] Instance Marshaler_eq_dec : EqDecision Marshaler.
Proof. solve_decision. Defined.

Definition sendQueueControlDepth : nat := 32.
Definition sendQueueDataDepth : nat := 256.

Inductive SendError :=
  | ErrSendQueueFull | ErrSessionNotAttached | ErrOutboundTooLarge
  | EMarshal | EWrite | ECancelled.

(** The envelopes of an OutboundMessage. *)
Inductive Envelope :=
  | EnvError | EnvConnected | EnvSubscribeAck | EnvUnsubscribeAck | EnvPublishAck | EnvPublication
  | EnvRecoverComplete | EnvRpcReply | EnvSubRefreshAck | EnvSurveyRequest | EnvSurveyReply
  | EnvSurveyResult | EnvPresence | EnvPresenceEvent | EnvPing | EnvPong | EnvGapNotice.

Definition outboundFrameClass (e : Envelope) : bool :=
  match e with
  | EnvPing | EnvPong | EnvPublishAck | EnvSubscribeAck | EnvUnsubscribeAck | EnvConnected
  | EnvRecoverComplete | EnvGapNotice | EnvError | EnvSubRefreshAck => true
  | _ => false
  end.

Record OutboundMessage := mkMsg { m_Envelope : Envelope; m_body : string }.

(** [f_id] is the identity of the frame's done channel, [f_msg] and [f_enc] the
    message and the marshaler its bytes come from. *)
Record queuedFrame := mkFrame {
  f_id : positive;
  f_msg : OutboundMessage;
  f_enc : Marshaler;
  f_bytes : string;
  f_control : bool;
}.

#[export] Instance Envelope_eq_dec : EqDecision Envelope.
Proof. solve_decision. Defined.
#[export] Instance OutboundMessage_eq_dec : EqDecision OutboundMessage.
Proof. solve_decision. Defined.
#[export] Instance queuedFrame_eq_dec : EqDecision queuedFrame.
Proof. solve_decision. Defined.

Record sendQueue := mkQueue {
  q_closed : bool;
  q_control : list queuedFrame;
  q_data : list queuedFrame;
}.

Definition newSendQueue : sendQueue := mkQueue false [] [].

Definition tryEnqueue (q : sendQueue) (f : queuedFrame) : result SendError sendQueue :=
  if q_closed q then Err ErrSessionNotAttached
  else if f_control f then
    if bool_decide (sendQueueControlDepth ≤ length (q_control q)) then Err ErrSendQueueFull
    else Ok (mkQueue false (q_control q ++ [f]) (q_data q))
  else
    if bool_decide (sendQueueDataDepth ≤ length (q_data q)) then Err ErrSendQueueFull
    else Ok (mkQueue false (q_control q) (q_data q ++ [f])).

Inductive dequeued := Blocked | QueueClosed | Taken (f : queuedFrame) (q : sendQueue).

Definition dequeue (q : sendQueue) : dequeued :=
  if q_closed q then QueueClosed
  else match q_control q, q_data q with
       | f :: rest, _ => Taken f (mkQueue false rest (q_data q))
       | [], f :: rest => Taken f (mkQueue false [] rest)
       | [], [] => Blocked
       end.

(** [close]: the queue afterwards and the frames to fail. *)
Definition close (q : sendQueue) : sendQueue * list queuedFrame :=
  if q_closed q then (q, []) else (mkQueue true [] [], q_control q ++ q_data q).

(** ** Heap objects *)

Record Attachment := mkAtt { at_Transport : positive; at_Marshaler : Marshaler }.

(** What the connection's Connect does: bind its own attachment, or hand it to
    the session being resumed.  It runs once per connection. *)
Inductive connect_kind := CNone | CBind | CTakeover.

#[export] Instance connect_kind_eq_dec : EqDecision connect_kind.
Proof. solve_decision. Defined.

Record Session := mkSession {
  ss_state : SessionState;
  ss_attachment : option positive;
  ss_out : positive;
  ss_delegate : option positive;
  ss_loopAtt : positive;
  ss_connect : connect_kind;
}.

(** A [writerLoop] goroutine; [WError] has a failed write to report. *)
Inductive writer_pc := WIdle | WWriting (f : queuedFrame) | WError | WExit.

Record writer := mkWriter {
  wr_session : positive;
  wr_att : positive;
  wr_queue : positive;
  wr_pc : writer_pc;
}.

(** The other goroutines, by what they hold between two critical sections. *)
Inductive thread :=
  | TSend (s : positive) (m : OutboundMessage)                     (* to marshal *)
  | TMarshalled (s : positive) (m : OutboundMessage) (enc : Marshaler) (bytes : string)
  | TChecked (s : positive) (f : queuedFrame) (att : option positive) (out : positive) (st : SessionState)
  | TWait (f : queuedFrame)
  | TSlow (s : positive)                                           (* to close, lane full *)
  | TClose (s : positive)                                          (* the identity check passed *)
  | TAttach (s att : positive)                                     (* the initial Attach *)
  | TToFence (s : positive)
  | TFence (s : positive) (att : option positive)                  (* torn down, removing channels *)
  | TDetached (c existing : positive)                              (* takeoverBy after Detach *)
  | TAttached (c existing : positive)                              (* takeoverBy after Attach *)
  | TReturned (e : option SendError).

Record world := mkWorld {
  w_sess : gmap positive Session;
  w_atts : gmap positive Attachment;
  w_queues : gmap positive sendQueue;
  w_writers : gmap positive writer;
  w_threads : gmap positive thread;
  w_done : gmap positive (option SendError);        (* done channels that were signalled *)
  w_wire : list (positive * queuedFrame);           (* attachment, frame: successful writes *)
  w_accepted : list (positive * queuedFrame);       (* ghost: queue, frame; in order *)
  w_taken : list (positive * queuedFrame);          (* ghost: what writers dequeued *)
  w_next : positive;
}.

Definition world0 : world := mkWorld ∅ ∅ ∅ ∅ ∅ ∅ [] [] [] 1.

Definition set_sess (w : world) x := mkWorld x (w_atts w) (w_queues w) (w_writers w) (w_threads w)
  (w_done w) (w_wire w) (w_accepted w) (w_taken w) (w_next w).
Definition set_threads (w : world) x := mkWorld (w_sess w) (w_atts w) (w_queues w) (w_writers w) x
  (w_done w) (w_wire w) (w_accepted w) (w_taken w) (w_next w).
Definition set_writers (w : world) x := mkWorld (w_sess w) (w_atts w) (w_queues w) x (w_threads w)
  (w_done w) (w_wire w) (w_accepted w) (w_taken w) (w_next w).
Definition set_queues (w : world) x acc taken := mkWorld (w_sess w) (w_atts w) x (w_writers w)
  (w_threads w) (w_done w) (w_wire w) acc taken (w_next w).
Definition set_done (w : world) x := mkWorld (w_sess w) (w_atts w) (w_queues w) (w_writers w)
  (w_threads w) x (w_wire w) (w_accepted w) (w_taken w) (w_next w).

Definition put_thread (w : world) (tid : positive) (t : thread) : world :=
  set_threads w (<[tid := t]> (w_threads w)).
Definition put_session (w : world) (s : positive) (x : Session) : world :=
  set_sess w (<[s := x]> (w_sess w)).

(** [frame.done <- err] for each frame. *)
Definition signal (e : option SendError) (fs : list queuedFrame) (d : gmap positive (option SendError))
    : gmap positive (option SendError) := foldl (λ d f, <[f_id f := e]> d) d fs.

(** [stopWriterLocked]. *)
Definition stopWriter (w : world) (q : positive) : world :=
  match w_queues w !! q with
  | None => w
  | Some x =>
      let '(x', failed) := close x in
      set_done (set_queues w (<[q := x']> (w_queues w)) (w_accepted w) (w_taken w))
        (signal (Some ErrSessionNotAttached) failed (w_done w))
  end.

Section Sessions.
Context (marshal : OutboundMessage → Marshaler → option string).
Context (MaxMessageSize : Z).

Definition attachmentMarshaler (w : world) (x : Session) : Marshaler :=
  match a ← ss_attachment x; w_atts w !! a with
  | Some a => at_Marshaler a
  | None => ProtoJSONMarshaler
  end.

Definition canonical (w : world) (s : positive) : positive :=
  match w_sess w !! s with
  | Some x => default s (ss_delegate x)
  | None => s
  end.

(** The first critical section of [Close] and [Fence] of a session that is not
    closed yet. *)
Definition teardown (w : world) (s : positive) (x : Session) : world :=
  stopWriter (put_session w s (mkSession SessionClosed None (ss_out x) (ss_delegate x) (ss_loopAtt x) (ss_connect x)))
    (ss_out x).

(** [Close] and [Fence] call themselves on the canonical session; a chain of
    delegates is at most as long as there are sessions. *)
Fixpoint root (fuel : nat) (w : world) (s : positive) : positive :=
  match fuel with
  | 0 => s
  | S fuel => let c := canonical w s in if bool_decide (c = s) then s else root fuel w c
  end.

Definition root_of (w : world) (s : positive) : positive := root (size (w_sess w)) w s.

Definition Close (w : world) (s : positive) : world :=
  let s := root_of w s in
  match w_sess w !! s with
  | None => w
  | Some x => if bool_decide (ss_state x = SessionClosed) then w else teardown w s x
  end.

Definition Detach (w : world) (s : positive) : world :=
  match w_sess w !! s with
  | None => w
  | Some x =>
      if negb (bool_decide (ss_state x = SessionAttached)) then w
      else stopWriter (put_session w s (mkSession SessionDetached None (ss_out x) (ss_delegate x) (ss_loopAtt x) (ss_connect x)))
             (ss_out x)
  end.

(** [go s.writerLoop(att, queue)]. *)
Definition spawn_writer (w : world) (s att q : positive) : world :=
  mkWorld (w_sess w) (w_atts w) (w_queues w) (<[w_next w := mkWriter s att q WIdle]> (w_writers w))
    (w_threads w) (w_done w) (w_wire w) (w_accepted w) (w_taken w) (Pos.succ (w_next w)).

(** A fresh queue at [w_next]. *)
Definition alloc_queue (w : world) : world :=
  mkWorld (w_sess w) (w_atts w) (<[w_next w := newSendQueue]> (w_queues w)) (w_writers w) (w_threads w)
    (w_done w) (w_wire w) (w_accepted w) (w_taken w) (Pos.succ (w_next w)).

(** [make_live]: the session serves [att] from the queue [q], with a writer. *)
Definition make_live (w : world) (s att q : positive) (x : Session) : world :=
  spawn_writer (put_session w s (mkSession SessionAttached (Some att) q (ss_delegate x) (ss_loopAtt x) (ss_connect x)))
    s att q.

(** [probe] is the outcome of the empty WriteMany. *)
Definition Attach (w : world) (s att : positive) (probe : bool) : bool * world :=
  if negb probe then (false, w)
  else match w_sess w !! s with
       | None => (false, w)
       | Some x =>
           match ss_state x with
           | SessionClosed | SessionAttached => (false, w)
           | SessionDetached => (true, make_live (alloc_queue w) s att (w_next w) x)
           | SessionAuthenticating => (true, make_live w s att (ss_out x) x)
           end
       end.

(** The end of a [Fence]: on failure the attachment is restored, with a new
    queue and writer. *)
Definition fence_end (w : world) (s : positive) (att : option positive) (failed : bool) : world :=
  if negb failed then w
  else match w_sess w !! s, att with
       | Some x, Some a =>
           if bool_decide (ss_state x = SessionClosed) then make_live (alloc_queue w) s a (w_next w) x else w
       | _, _ => w
       end.

(** ** Identity rules (takeover.go) *)

Definition current_att (w : world) (s : positive) : option positive :=
  x ← w_sess w !! s; ss_attachment x.

Definition transport_of (w : world) (a : positive) : option positive := at_Transport <$> w_atts w !! a.

(** Whether [closeIfServingHandoff] goes on to Close [s]. *)
Definition closeIfServingHandoff (w : world) (s handoff : positive) : bool :=
  match current_att w s with
  | None => false
  | Some a => bool_decide (transport_of w a = transport_of w handoff)
  end.

(** [closeFromAttachment]: the session to close, if any.  [closeFromLoop] is the
    same with [loopAtt] as [att]. *)
Definition closeFromAttachment (w : world) (s att : positive) : option positive :=
  match w_sess w !! s with
  | None => None
  | Some x =>
      match ss_delegate x with
      | Some d => if closeIfServingHandoff w d att then Some d else None
      | None => if bool_decide (ss_attachment x = Some att) then Some s else None
      end
  end.

Definition closeFromLoop (w : world) (s : positive) : option positive :=
  x ← w_sess w !! s; closeFromAttachment w s (ss_loopAtt x).

(** ** Steps *)

Inductive label :=
  | LNew (transport : positive) (enc : Marshaler)
  | LSend (tid s : positive) (m : OutboundMessage)
  | LSendFrame (tid s : positive) (m : OutboundMessage) (enc : Marshaler)
  | LMarshal (tid : positive)
  | LCheck (tid : positive)
  | LEnqueue (tid : positive) (ok : bool)
  | LDone (tid : positive)
  | LCancel (tid : positive)
  | LSlow (tid : positive)
  | LTake (wid : positive)
  | LWrite (wid : positive) (ok : bool)
  | LWriteError (wid tid : positive) (fenced : bool)
  | LBind (tid s : positive)
  | LAttach (tid : positive) (probe : bool)
  | LCloseNow (s : positive)
  | LCloseFrom (tid s : positive)
  | LClose (tid : positive)
  | LToFence (tid s : positive)
  | LFence (tid : positive)
  | LFenceEnd (tid : positive) (failed : bool)
  | LTakeover (tid c existing : positive)
  | LHandoff (tid : positive) (probe : bool)
  | LDemote (tid : positive).

Definition new_thread (w : world) (tid : positive) (t : thread) : option world :=
  match w_threads w !! tid with None => Some (put_thread w tid t) | Some _ => None end.

(** [NewClient]: the attachment, the queue and the session. *)
Definition NewClient (w : world) (transport : positive) (enc : Marshaler) : world :=
  let a := w_next w in
  let q := Pos.succ a in
  let s := Pos.succ q in
  mkWorld (<[s := mkSession SessionAuthenticating (Some a) q None a CNone]> (w_sess w))
    (<[a := mkAtt transport enc]> (w_atts w)) (<[q := newSendQueue]> (w_queues w)) (w_writers w)
    (w_threads w) (w_done w) (w_wire w) (w_accepted w) (w_taken w) (Pos.succ s).

(** [handoffAttachment]. *)
Definition handoffAttachment (w : world) (a : Attachment) : world :=
  mkWorld (w_sess w) (<[w_next w := a]> (w_atts w)) (w_queues w) (w_writers w) (w_threads w)
    (w_done w) (w_wire w) (w_accepted w) (w_taken w) (Pos.succ (w_next w)).

Definition too_large (bytes : string) : bool :=
  (0 <? MaxMessageSize)%Z && (MaxMessageSize <? Z.of_nat (String.length bytes))%Z.

(** The frame [enqueueBytes] builds after its check under the lock. *)
Definition check_frame (w : world) (tid s : positive) (x : Session) (m : OutboundMessage) (enc : Marshaler)
    (bytes : string) : world :=
  let f := mkFrame (w_next w) m enc bytes (outboundFrameClass (m_Envelope m)) in
  mkWorld (w_sess w) (w_atts w) (w_queues w) (w_writers w)
    (<[tid := TChecked s f (ss_attachment x) (ss_out x) (ss_state x)]> (w_threads w))
    (w_done w) (w_wire w) (w_accepted w) (w_taken w) (Pos.succ (w_next w)).

Definition write_wire (w : world) (a : positive) (f : queuedFrame) : world :=
  mkWorld (w_sess w) (w_atts w) (w_queues w) (w_writers w) (w_threads w) (w_done w)
    (w_wire w ++ [(a, f)]) (w_accepted w) (w_taken w) (w_next w).

(** The rest of [enqueueBytes]; [ok] is the outcome of a direct write. *)
Definition enqueue_step (w : world) (tid s : positive) (f : queuedFrame) (att : option positive)
    (out : positive) (st : SessionState) (ok : bool) : option world :=
  if bool_decide (st = SessionAttached) then
    q ← w_queues w !! out;
    Some match tryEnqueue q f with
         | Err ErrSendQueueFull => put_thread w tid (TSlow s)
         | Err e => put_thread w tid (TReturned (Some e))
         | Ok q' => put_thread (set_queues w (<[out := q']> (w_queues w)) (w_accepted w ++ [(out, f)])
                      (w_taken w)) tid (TWait f)
         end
  else match att with
       | None => Some (put_thread w tid (TReturned (Some ErrSessionNotAttached)))
       | Some a => Some (if ok then put_thread (write_wire w a f) tid (TReturned None)
                         else put_thread w tid (TReturned (Some EWrite)))
       end.

Definition put_writer (w : world) (wid : positive) (x : writer) (pc : writer_pc) : world :=
  set_writers w (<[wid := mkWriter (wr_session x) (wr_att x) (wr_queue x) pc]> (w_writers w)).

Definition take_step (w : world) (wid : positive) (x : writer) : option world :=
  q ← w_queues w !! wr_queue x;
  match dequeue q with
  | Blocked => None
  | QueueClosed => Some (put_writer w wid x WExit)
  | Taken f q' =>
      Some (put_writer (set_queues w (<[wr_queue x := q']> (w_queues w)) (w_accepted w)
                          (w_taken w ++ [(wr_queue x, f)])) wid x (WWriting f))
  end.

Definition write_step (w : world) (wid : positive) (x : writer) (f : queuedFrame) (ok : bool) : world :=
  if ok then put_writer (set_done (write_wire w (wr_att x) f) (signal None [f] (w_done w))) wid x WIdle
  else put_writer (set_done w (signal (Some EWrite) [f] (w_done w))) wid x WError.

Definition demote (w : world) (c existing : positive) (x : Session) : world :=
  put_session w c (mkSession (ss_state x) None (ss_out x) (Some existing) (ss_loopAtt x) (ss_connect x)).

(** Connect is accepted once, on a session that was not attached yet; a resumed
    or fenced session is one of the hub's, attached before. *)
Definition start_connect (w : world) (s : positive) (x : Session) (k : connect_kind) : option world :=
  if bool_decide (ss_state x = SessionAuthenticating) && bool_decide (ss_connect x = CNone) then
    Some (put_session w s (mkSession (ss_state x) (ss_attachment x) (ss_out x) (ss_delegate x) (ss_loopAtt x) k))
  else None.

(** The loop of [enqueue] up to [enqueueBytes]; a changed marshaler comes back here. *)
Definition enqueue (w : world) (tid s : positive) (m : OutboundMessage) (x : Session) : world :=
  put_thread w tid
    match marshal m (attachmentMarshaler w x) with
    | None => TReturned (Some EMarshal)
    | Some bytes => TMarshalled s m (attachmentMarshaler w x) bytes
    end.

(** [handleWriteError]: its writer is done; [fenced] is errors.Is(err, ErrSessionFenced). *)
Definition handleWriteError (w : world) (wid tid : positive) (x : writer) (fenced : bool) : option world :=
  let w' := put_writer w wid x WExit in
  if negb (bool_decide (current_att w (wr_session x) = Some (wr_att x))) then Some w'
  else new_thread w' tid (if fenced then TToFence (wr_session x) else TClose (wr_session x)).

(** [takeoverBy] from the reading of the shell's attachment to Attach. *)
Definition takeoverBy (w : world) (tid c existing : positive) (probe : bool) : option world :=
  match current_att w c with
  | None => Some (put_thread w tid (TReturned None))
  | Some a =>
      att ← w_atts w !! a;
      let '(ok, w') := Attach (handoffAttachment w att) existing (w_next w) probe in
      Some (put_thread w' tid (if ok then TAttached c existing else TClose existing))
  end.

Definition exec_label (l : label) (w : world) : option world :=
  match l with
  | LNew t enc => Some (NewClient w t enc)
  | LSend tid s m => new_thread w tid (TSend (canonical w s) m)
  | LSendFrame tid s m enc =>
      bytes ← marshal m enc; new_thread w tid (TMarshalled (canonical w s) m enc bytes)
  | LMarshal tid =>
      match w_threads w !! tid with
      | Some (TSend s m) =>
          x ← w_sess w !! s; Some (enqueue w tid s m x)
      | _ => None
      end
  | LCheck tid =>
      match w_threads w !! tid with
      | Some (TMarshalled s m enc bytes) =>
          x ← w_sess w !! s;
          Some (if too_large bytes then put_thread w tid (TReturned (Some ErrOutboundTooLarge))
                else if negb (bool_decide (attachmentMarshaler w x = enc)) then put_thread w tid (TSend s m)
                else check_frame w tid s x m enc bytes)
      | _ => None
      end
  | LEnqueue tid ok =>
      match w_threads w !! tid with
      | Some (TChecked s f att out st) => enqueue_step w tid s f att out st ok
      | _ => None
      end
  | LDone tid =>
      match w_threads w !! tid with
      | Some (TWait f) => e ← w_done w !! f_id f; Some (put_thread w tid (TReturned e))
      | _ => None
      end
  | LCancel tid =>
      match w_threads w !! tid with
      | Some (TWait f) => Some (put_thread w tid (TReturned (Some ECancelled)))
      | _ => None
      end
  | LSlow tid =>
      match w_threads w !! tid with
      | Some (TSlow s) => Some (put_thread (Close w s) tid (TReturned (Some ErrSendQueueFull)))
      | _ => None
      end
  | LTake wid =>
      x ← w_writers w !! wid;
      match wr_pc x with WIdle => take_step w wid x | _ => None end
  | LWrite wid ok =>
      x ← w_writers w !! wid;
      match wr_pc x with WWriting f => Some (write_step w wid x f ok) | _ => None end
  | LWriteError wid tid fenced =>
      x ← w_writers w !! wid;
      match wr_pc x with
      | WError => handleWriteError w wid tid x fenced
      | _ => None
      end
  | LBind tid s =>
      x ← w_sess w !! s;
      a ← ss_attachment x;
      w' ← start_connect w s x CBind;
      new_thread w' tid (TAttach s a)
  | LAttach tid probe =>
      match w_threads w !! tid with
      | Some (TAttach s a) => Some (put_thread (Attach w s a probe).2 tid (TReturned None))
      | _ => None
      end
  | LCloseNow s => Some (Close w s)
  | LCloseFrom tid s => d ← closeFromLoop w s; new_thread w tid (TClose d)
  | LClose tid =>
      match w_threads w !! tid with
      | Some (TClose s) => Some (put_thread (Close w s) tid (TReturned None))
      | _ => None
      end
  | LToFence tid s =>
      x ← w_sess w !! s;
      if bool_decide (ss_state x = SessionAuthenticating) then None else new_thread w tid (TToFence s)
  | LFence tid =>
      match w_threads w !! tid with
      | Some (TToFence s) =>
          let s := root_of w s in
          x ← w_sess w !! s;
          Some (if bool_decide (ss_state x = SessionClosed) then put_thread w tid (TReturned None)
                else put_thread (teardown w s x) tid (TFence s (ss_attachment x)))
      | _ => None
      end
  | LFenceEnd tid failed =>
      match w_threads w !! tid with
      | Some (TFence s att) => Some (put_thread (fence_end w s att failed) tid (TReturned None))
      | _ => None
      end
  | LTakeover tid c existing =>
      x ← w_sess w !! c;
      e ← w_sess w !! existing;
      if bool_decide (ss_state e = SessionAuthenticating) then None
      else w' ← start_connect w c x CTakeover;
           new_thread (Detach w' existing) tid (TDetached c existing)
  | LHandoff tid probe =>
      match w_threads w !! tid with
      | Some (TDetached c existing) => takeoverBy w tid c existing probe
      | _ => None
      end
  | LDemote tid =>
      match w_threads w !! tid with
      | Some (TAttached c existing) =>
          x ← w_sess w !! c; Some (put_thread (demote w c existing x) tid (TReturned None))
      | _ => None
      end
  end.

Definition step (w w' : world) : Prop := ∃ l, exec_label l w = Some w'.

Definition reachable (w : world) : Prop := rtc step world0 w.

(** ** The frame ledger *)

(** The frames of one lane of a queue. *)
Definition lane (q : positive) (b : bool) (l : list (positive * queuedFrame)) : list queuedFrame :=
  omap (λ e, if bool_decide (e.1 = q) && Bool.eqb (f_control e.2) b then Some e.2 else None) l.

#[local] Arguments lane : simpl never.

Definition lane_of (x : sendQueue) (b : bool) : list queuedFrame := if b then q_control x else q_data x.

Definition checked (w : world) (tid : positive) : option queuedFrame :=
  match w_threads w !! tid with Some (TChecked _ f _ _ _) => Some f | _ => None end.

Definition ids (l : list (positive * queuedFrame)) : list positive := (λ e, f_id e.2) <$> l.

(** What was accepted is what was taken, followed by what waits (open queue) or
    was failed (closed queue). *)
Definition lane_ok (w : world) (q : positive) (x : sendQueue) (b : bool) : Prop :=
  ∃ rest, lane q b (w_accepted w) = lane q b (w_taken w) ++ rest ∧
    if q_closed x
    then lane_of x b = [] ∧ ∀ f, f ∈ rest → w_done w !! f_id f = Some (Some ErrSessionNotAttached)
    else lane_of x b = rest ∧ ∀ f, f ∈ rest → w_done w !! f_id f = None.

Record ledger (w : world) : Prop := {
  l_fresh_q q x : w_queues w !! q = Some x → (q < w_next w)%positive;
  l_fresh_f q f : (q, f) ∈ w_accepted w → (f_id f < w_next w)%positive;
  l_queue q f : (q, f) ∈ w_accepted w → is_Some (w_queues w !! q);
  l_nodup : NoDup (ids (w_accepted w));
  l_checked tid f : checked w tid = Some f → (f_id f < w_next w)%positive ∧ f_id f ∉ ids (w_accepted w);
  l_checked_inj t1 t2 f1 f2 :
    checked w t1 = Some f1 → checked w t2 = Some f2 → f_id f1 = f_id f2 → t1 = t2;
  l_done id : is_Some (w_done w !! id) → id ∈ ids (w_accepted w);
  l_lane q x b : w_queues w !! q = Some x → lane_ok w q x b;
  l_bounds q x : w_queues w !! q = Some x →
    length (q_control x) ≤ sendQueueControlDepth ∧ length (q_data x) ≤ sendQueueDataDepth;
  l_taken q f : (q, f) ∈ w_taken w → (q, f) ∈ w_accepted w ∧
    (is_Some (w_done w !! f_id f) ∨
     ∃ wid x, w_writers w !! wid = Some x ∧ wr_queue x = q ∧ wr_pc x = WWriting f);
  l_writing wid x f : w_writers w !! wid = Some x → wr_pc x = WWriting f →
    (wr_queue x, f) ∈ w_taken w ∧ w_done w !! f_id f = None;
  l_writer wid x : w_writers w !! wid = Some x →
    is_Some (w_queues w !! wr_queue x) ∧ (wid < w_next w)%positive;
  l_uniq i j x y : w_writers w !! i = Some x → w_writers w !! j = Some y →
    wr_queue x = wr_queue y → i = j;
}.

Lemma lane_app q b l1 l2 : lane q b (l1 ++ l2) = lane q b l1 ++ lane q b l2.
Proof. apply omap_app. Qed.

Lemma elem_of_lane q b l f : f ∈ lane q b l ↔ (q, f) ∈ l ∧ f_control f = b.
Proof.
  unfold lane. rewrite list_elem_of_omap. split.
  - intros ([q' f'] & Hin & Heq). cbn in Heq. case_bool_decide; subst; cbn in Heq; [|done].
    destruct (Bool.eqb_spec (f_control f') b); by simplify_eq.
  - intros [Hin Hb]. exists (q, f). split; [done|]. cbn. rewrite bool_decide_eq_true_2 by done.
    rewrite Hb, Bool.eqb_reflx. done.
Qed.

Lemma lane_other q q' b f : q ≠ q' → lane q b [(q', f)] = [].
Proof. intros Hne. unfold lane. cbn. rewrite bool_decide_eq_false_2; [done|]. cbn. congruence. Qed.

Lemma lane_one q b f : lane q b [(q, f)] = if Bool.eqb (f_control f) b then [f] else [].
Proof. unfold lane. cbn. rewrite bool_decide_eq_true_2 by done. cbn. by destruct (Bool.eqb _ _). Qed.

Lemma elem_of_ids l id : id ∈ ids l ↔ ∃ q f, (q, f) ∈ l ∧ f_id f = id.
Proof.
  unfold ids. rewrite list_elem_of_fmap. split.
  - intros ([q f] & -> & Hin). eauto.
  - intros (q & f & Hin & <-). by exists (q, f).
Qed.

Lemma ids_inj l e1 e2 : NoDup (ids l) → e1 ∈ l → e2 ∈ l → f_id e1.2 = f_id e2.2 → e1 = e2.
Proof.
  intros Hnd [i Hi]%list_elem_of_lookup [j Hj]%list_elem_of_lookup Heq.
  assert (i = j) as ->.
  { eapply (NoDup_lookup (ids l)); [done|..]; unfold ids; rewrite list_lookup_fmap.
    - by rewrite Hi.
    - by rewrite Hj, Heq. }
  congruence.
Qed.

(** A taken frame does not wait any more. *)
Lemma taken_not_waiting w q b rest f :
  NoDup (ids (w_accepted w)) → lane q b (w_accepted w) = lane q b (w_taken w) ++ rest →
  (q, f) ∈ w_taken w → f ∈ rest → False.
Proof.
  intros Hnd Heq Ht Hr.
  assert (NoDup (lane q b (w_accepted w))) as Hl.
  { clear -Hnd. induction (w_accepted w) as [|[q' f'] l IH]; [constructor|].
    apply NoDup_cons in Hnd as [Hni Hnd]. unfold lane. cbn. destruct (bool_decide _ && _) eqn:Hc; [|by apply IH].
    constructor; [|by apply IH]. intros [Hin _]%elem_of_lane. apply Hni, elem_of_ids. eauto. }
  rewrite Heq in Hl. apply NoDup_app in Hl as (_ & Hdis & _). apply (Hdis f); [|done].
  apply elem_of_lane. split; [done|].
  assert (f ∈ lane q b (w_accepted w)) as [_ Hb]%elem_of_lane; [|done].
  rewrite Heq. apply elem_of_app. by right.
Qed.

(** *** Preservation *)

Lemma lane_ok_eq w w' q x b :
  w_accepted w' = w_accepted w → w_taken w' = w_taken w → w_done w' = w_done w →
  lane_ok w q x b → lane_ok w' q x b.
Proof. unfold lane_ok. by intros -> -> ->. Qed.

(** Steps that leave queues, writers and done channels alone. *)
Lemma ledger_frame w w' :
  ledger w → w_queues w' = w_queues w → w_writers w' = w_writers w → w_done w' = w_done w →
  w_accepted w' = w_accepted w → w_taken w' = w_taken w → (w_next w ≤ w_next w')%positive →
  (∀ tid f, checked w' tid = Some f → checked w tid = Some f) → ledger w'.
Proof.
  intros [] Hq Hw Hd Ha Ht Hn Hc. split; rewrite ?Hq, ?Hw, ?Hd, ?Ha, ?Ht; try done.
  - intros q x Hx. apply l_fresh_q0 in Hx. lia.
  - intros q f Hf. apply l_fresh_f0 in Hf. lia.
  - intros tid f Hf%Hc. apply l_checked0 in Hf as [? ?]. split; [lia|done].
  - intros t1 t2 f1 f2 H1%Hc H2%Hc. by eapply l_checked_inj0.
  - intros q x b Hx. by eapply lane_ok_eq; [..|apply l_lane0].
  - intros wid x Hx. destruct (l_writer0 _ _ Hx). split; [done|lia].
Qed.

Lemma checked_put w tid t tid' f :
  checked (put_thread w tid t) tid' = Some f →
  (∀ s g a o st, t ≠ TChecked s g a o st) → checked w tid' = Some f.
Proof.
  unfold checked. cbn. rewrite lookup_insert. case_decide; [|done].
  destruct t; try done. intros _ Hne. by destruct (Hne s f0 att out st).
Qed.

Lemma ledger_put_thread w tid t :
  ledger w → (∀ s g a o st, t ≠ TChecked s g a o st) → ledger (put_thread w tid t).
Proof.
  intros Hl Ht. apply (ledger_frame w); try done. intros tid' f Hf. by eapply checked_put.
Qed.

Lemma ledger_check w tid s x m enc bytes : ledger w → ledger (check_frame w tid s x m enc bytes).
Proof.
  intros []. assert (∀ id, id ∈ ids (w_accepted w) → (id < w_next w)%positive) as Hlt.
  { intros id (q & f & Hf & <-)%elem_of_ids. by eapply l_fresh_f0. }
  assert (∀ tid' f, checked (check_frame w tid s x m enc bytes) tid' = Some f →
    (tid' = tid ∧ f_id f = w_next w) ∨ (tid' ≠ tid ∧ checked w tid' = Some f)) as Hc.
  { intros tid' f. unfold checked. cbn. rewrite lookup_insert. case_decide; [|by right].
    intros [= <-]. by left. }
  split; cbn; try done.
  - intros q y Hy. apply l_fresh_q0 in Hy. lia.
  - intros q f Hf. apply l_fresh_f0 in Hf. lia.
  - intros tid' f [[-> ->]|[_ Hf]]%Hc; [|apply l_checked0 in Hf as [? ?]; split; [lia|done]].
    split; [lia|]. intros Hin%Hlt. lia.
  - intros t1 t2 f1 f2 [[-> E1]|[_ H1]]%Hc [[-> E2]|[_ H2]]%Hc Heq; [done|..|by eapply l_checked_inj0].
    + apply l_checked0 in H2 as [? _]. lia.
    + apply l_checked0 in H1 as [? _]. lia.
  - intros wid y Hy. destruct (l_writer0 _ _ Hy). split; [done|lia].
Qed.

Lemma tryEnqueue_ok x f x' :
  tryEnqueue x f = Ok x' →
  q_closed x = false ∧ q_closed x' = false ∧
  (∀ b, lane_of x' b = lane_of x b ++ if Bool.eqb (f_control f) b then [f] else []) ∧
  (length (q_control x) ≤ sendQueueControlDepth → length (q_data x) ≤ sendQueueDataDepth →
   length (q_control x') ≤ sendQueueControlDepth ∧ length (q_data x') ≤ sendQueueDataDepth).
Proof.
  unfold tryEnqueue. destruct (q_closed x); [done|].
  destruct (f_control f) eqn:Hf; case_bool_decide as Hb; intros [= <-];
    (split; [done|]); (split; [done|]); (split; [|cbn; rewrite length_app; cbn; lia]);
    intros []; cbn; by rewrite ?app_nil_r.
Qed.

Lemma ledger_enqueue w tid f out x x' :
  ledger w → checked w tid = Some f → w_queues w !! out = Some x → tryEnqueue x f = Ok x' →
  ledger (put_thread (set_queues w (<[out := x']> (w_queues w)) (w_accepted w ++ [(out, f)]) (w_taken w))
            tid (TWait f)).
Proof.
  intros [] Hf Hx (Hx0 & Hx1 & Hlane & Hlen)%tryEnqueue_ok. destruct (l_checked0 _ _ Hf) as [Hlt Hni].
  assert (w_done w !! f_id f = None) as Hnd by (apply eq_None_not_Some; by intros Hs%l_done0).
  assert (∀ q y, <[out := x']> (w_queues w) !! q = Some y →
    (q = out ∧ y = x') ∨ (q ≠ out ∧ w_queues w !! q = Some y)) as Hq.
  { intros q y. rewrite lookup_insert. case_decide; [intros [= <-]; by left|by right]. }
  assert (∀ tid' g, checked (put_thread w tid (TWait f)) tid' = Some g → tid' ≠ tid ∧ checked w tid' = Some g) as Hc.
  { intros tid' g. unfold checked. cbn. rewrite lookup_insert. by case_decide. }
  split; cbn.
  - intros q y [[-> ->]|[_ Hy]]%Hq; by eapply l_fresh_q0.
  - intros q g [Hg|Hg%list_elem_of_singleton]%elem_of_app; [by eapply l_fresh_f0|by simplify_eq].
  - intros q g [Hg|Hg%list_elem_of_singleton]%elem_of_app; rewrite lookup_insert; case_decide; try done.
    + by eapply l_queue0.
    + by simplify_eq.
  - unfold ids. rewrite fmap_app. apply NoDup_app. split; [done|]. cbn. split; [|apply NoDup_singleton].
    intros id Hid ->%list_elem_of_singleton. done.
  - intros tid' g [Hne Hg]%Hc. destruct (l_checked0 _ _ Hg) as [? Hni']. split; [done|].
    unfold ids. rewrite fmap_app. intros [?|Heq%list_elem_of_singleton]%elem_of_app; [done|].
    apply Hne. by eapply l_checked_inj0.
  - intros t1 t2 f1 f2 [_ H1]%Hc [_ H2]%Hc. by eapply l_checked_inj0.
  - intros id Hid%l_done0. unfold ids in *. rewrite fmap_app. apply elem_of_app. by left.
  - intros q y b [[-> ->]|[Hne Hy]]%Hq; unfold lane_ok; cbn.
    + destruct (l_lane0 _ _ b Hx) as (rest & Heq & Hr). rewrite Hx0 in Hr. destruct Hr as [Hr1 Hr2].
      rewrite Hx1, lane_app, lane_one, Heq, <-app_assoc. eexists. split; [reflexivity|].
      rewrite Hlane, Hr1. split; [done|]. intros g [?|Hg]%elem_of_app; [by apply Hr2|].
      destruct (Bool.eqb _ _); [|by apply elem_of_nil in Hg]. by apply list_elem_of_singleton in Hg as ->.
    + destruct (l_lane0 _ _ b Hy) as (rest & Heq & Hr). exists rest. split; [|done].
      rewrite lane_app, lane_other, app_nil_r by done. done.
  - intros q y [[-> ->]|[_ Hy]]%Hq; [|by eapply l_bounds0]. destruct (l_bounds0 _ _ Hx). by apply Hlen.
  - intros q g Hg. destruct (l_taken0 _ _ Hg) as [? ?]. split; [|done]. apply elem_of_app. by left.
  - done.
  - intros wid y Hy. destruct (l_writer0 _ _ Hy) as [? ?]. split; [|done]. rewrite lookup_insert.
    by case_decide.
  - done.
Qed.

Lemma signal_lookup e fs : ∀ d id,
  signal e fs d !! id = if bool_decide (id ∈ f_id <$> fs) then Some e else d !! id.
Proof.
  unfold signal. induction fs as [|f fs IH]; intros d id; cbn [foldl fmap list_fmap]; [done|]. rewrite IH.
  case_bool_decide as H1; case_bool_decide as H2; [done|by destruct H2; right|..|].
  - apply elem_of_cons in H2 as [->|?]; [|done]. by rewrite lookup_insert_eq.
  - rewrite lookup_insert_ne; [done|]. intros Heq. apply H2. rewrite <-Heq. by left.
Qed.

Lemma lane_of_app x b f : f ∈ lane_of x b → f ∈ q_control x ++ q_data x.
Proof. intros Hf. apply elem_of_app. destruct b; [by left|by right]. Qed.

(** A waiting frame is accepted in its queue. *)
Lemma waiting_accepted w q x b f :
  ledger w → w_queues w !! q = Some x → f ∈ lane_of x b → (q, f) ∈ w_accepted w ∧ w_done w !! f_id f = None.
Proof.
  intros Hl Hx Hf. destruct (l_lane _ Hl _ _ b Hx) as (rest & Heq & Hr). destruct (q_closed x).
  - destruct Hr as [Hr _]. rewrite Hr in Hf. by apply elem_of_nil in Hf.
  - destruct Hr as [<- Hr]. split; [|by apply Hr].
    apply (elem_of_lane q b). rewrite Heq. apply elem_of_app. by right.
Qed.

Lemma ledger_stop w q : ledger w → ledger (stopWriter w q).
Proof.
  intros Hl. unfold stopWriter. destruct (w_queues w !! q) as [x|] eqn:Hx; [|done].
  unfold close. destruct (q_closed x) eqn:Hc.
  { apply (ledger_frame w); try done. cbn. by apply insert_id. }
  set (failed := q_control x ++ q_data x).
  assert (∀ f, f ∈ failed → ∃ b, f ∈ lane_of x b) as Hf.
  { intros f [?|?]%elem_of_app; [by exists true|by exists false]. }
  assert (∀ f, f ∈ failed → (q, f) ∈ w_accepted w ∧ w_done w !! f_id f = None) as Hacc.
  { intros f [b Hb]%Hf. by eapply waiting_accepted. }
  assert (∀ q' f, (q', f) ∈ w_accepted w → f_id f ∈ f_id <$> failed → q' = q ∧ f ∈ failed) as Hin.
  { intros q' f Ha (g & Heq & Hg)%list_elem_of_fmap. destruct (Hacc _ Hg) as [Hga _].
    pose proof (ids_inj _ _ _ (l_nodup _ Hl) Ha Hga Heq). by simplify_eq. }
  assert (∀ q' y b rest f, w_queues w !! q' = Some y →
    lane q' b (w_accepted w) = lane q' b (w_taken w) ++ rest → f ∈ rest → q' ≠ q →
    f_id f ∉ f_id <$> failed) as Hother.
  { intros q' y b rest f Hy Heq Hr Hne Hid. apply Hne.
    assert (f ∈ lane q' b (w_accepted w)) as [Ha _]%elem_of_lane; [|by apply (Hin _ _ Ha)].
    rewrite Heq. apply elem_of_app. by right. }
  assert (∀ q' f, (q', f) ∈ w_taken w → f_id f ∉ f_id <$> failed) as Htk.
  { intros q' f Ht Hid. destruct (l_taken _ Hl _ _ Ht) as [Ha _]. destruct (Hin _ _ Ha Hid) as [-> Hf'].
    destruct (Hf _ Hf') as [b Hb]. destruct (l_lane _ Hl _ _ b Hx) as (rest & Heq & Hr). rewrite Hc in Hr.
    destruct Hr as [<- _]. by eapply taken_not_waiting, Hb; [apply Hl|..]. }
  destruct Hl. split; cbn; try done.
  - intros q' y. rewrite lookup_insert. case_decide; [subst; intros _; by eapply l_fresh_q0|by apply l_fresh_q0].
  - intros q' f Ha. rewrite lookup_insert. case_decide; [done|by eapply l_queue0].
  - intros id. rewrite signal_lookup. case_bool_decide as Hid; [|by apply l_done0].
    apply list_elem_of_fmap in Hid as (f & -> & Hf'). intros _. apply elem_of_ids. exists q, f.
    split; [by apply Hacc|done].
  - intros q' y b. rewrite lookup_insert. case_decide as Hq; [intros [= <-]; subst q'|].
    + destruct (l_lane0 _ _ b Hx) as (rest & Heq & Hr). rewrite Hc in Hr. destruct Hr as [Hr1 _].
      exists rest. split; [done|]. cbn. split; [by destruct b|]. intros f Hf'. rewrite signal_lookup.
      rewrite bool_decide_eq_true_2; [done|]. apply list_elem_of_fmap. exists f. split; [done|].
      subst rest. by eapply lane_of_app.
    + intros Hy. destruct (l_lane0 _ _ b Hy) as (rest & Heq & Hr). exists rest. split; [done|]. cbn.
      destruct (q_closed y); (split; [apply Hr|]); intros f Hf'; rewrite signal_lookup;
        rewrite bool_decide_eq_false_2 by (eapply Hother; done); by apply Hr.
  - intros q' y. rewrite lookup_insert. case_decide; [intros [= <-]; cbn; lia|by apply l_bounds0].
  - intros q' f Ht. destruct (l_taken0 _ _ Ht) as [? Hd]. split; [done|]. rewrite signal_lookup.
    by rewrite bool_decide_eq_false_2 by by eapply Htk.
  - intros wid y f Hy Hpc. destruct (l_writing0 _ _ _ Hy Hpc) as [Ht Hd]. split; [done|].
    rewrite signal_lookup. by rewrite bool_decide_eq_false_2 by by eapply Htk.
  - intros wid y Hy. destruct (l_writer0 _ _ Hy). split; [|done]. rewrite lookup_insert. by case_decide.
Qed.

(** A fresh object at [w_next]. *)
Lemma ledger_queue_insert w q next :
  ledger w → (w_next w ≤ q)%positive → (q < next)%positive →
  ledger (mkWorld (w_sess w) (w_atts w) (<[q := newSendQueue]> (w_queues w)) (w_writers w) (w_threads w)
            (w_done w) (w_wire w) (w_accepted w) (w_taken w) next).
Proof.
  intros [] Hq Hn. assert (w_queues w !! q = None) as Hnone.
  { apply eq_None_not_Some. intros [x Hx%l_fresh_q0]. lia. }
  split; cbn; try done.
  - intros q' x. rewrite lookup_insert. case_decide; [by subst|]. intros Hx%l_fresh_q0. lia.
  - intros q' f Hf%l_fresh_f0. lia.
  - intros q' f Hf%l_queue0. rewrite lookup_insert. by case_decide.
  - intros tid f Hf. apply (l_checked0 tid) in Hf as [? ?]. split; [lia|done].
  - intros q' x b. rewrite lookup_insert. case_decide; [intros [= <-]; subst|by apply l_lane0].
    assert (∀ l, (∀ f, (q', f) ∉ l) → lane q' b l = []) as Hnil.
    { intros l Hl. destruct (lane q' b l) as [|f r] eqn:E; [done|].
      assert (f ∈ lane q' b l) as [Hin _]%elem_of_lane by (rewrite E; left). by destruct (Hl f). }
    exists []. cbn. rewrite !Hnil; [destruct b; by split; [|split; [|intros ? ?%elem_of_nil]]|..].
    + intros f Hf. apply l_taken0 in Hf as [Hf%l_queue0 _]. rewrite Hnone in Hf. by destruct Hf.
    + intros f Hf%l_queue0. rewrite Hnone in Hf. by destruct Hf.
  - intros q' x. rewrite lookup_insert. case_decide; [intros [= <-]; cbn; unfold sendQueueControlDepth, sendQueueDataDepth; lia|].
    by apply l_bounds0.
  - intros wid x Hx. destruct (l_writer0 _ _ Hx). rewrite lookup_insert. case_decide; split; done || lia.
Qed.

Lemma ledger_spawn w s att q :
  ledger w → is_Some (w_queues w !! q) → (∀ wid x, w_writers w !! wid = Some x → wr_queue x ≠ q) →
  ledger (spawn_writer w s att q).
Proof.
  intros [] Hq Hno. assert (w_writers w !! w_next w = None) as Hnone.
  { apply eq_None_not_Some. intros [x [_ Hx]%l_writer0]. lia. }
  assert (∀ wid x, <[w_next w := mkWriter s att q WIdle]> (w_writers w) !! wid = Some x →
    (wid = w_next w ∧ x = mkWriter s att q WIdle) ∨ w_writers w !! wid = Some x) as Hw.
  { intros wid x. rewrite lookup_insert. case_decide; [intros [= <-]; by left|by right]. }
  split; cbn; try done.
  - intros q' x Hx%l_fresh_q0. lia.
  - intros q' f Hf%l_fresh_f0. lia.
  - intros tid f Hf. apply (l_checked0 tid) in Hf as [? ?]. split; [lia|done].
  - intros q' f Hf. destruct (l_taken0 _ _ Hf) as [? [?|(wid & x & Hx & ?)]]; split; [done|by left|done|].
    right. exists wid, x. split; [|done]. rewrite lookup_insert_ne; [done|]. congruence.
  - intros wid x f [[-> ->]|Hx]%Hw; [done|by eapply l_writing0].
  - intros wid x [[-> ->]|Hx]%Hw; [split; [done|lia]|]. destruct (l_writer0 _ _ Hx). split; [done|lia].
  - intros i j x y [[-> ->]|Hx]%Hw [[-> ->]|Hy]%Hw Heq; [done| | |by eapply l_uniq0].
    + by destruct (Hno _ _ Hy).
    + by destruct (Hno _ _ Hx).
Qed.

Lemma ledger_put_writer w wid x pc :
  ledger w → w_writers w !! wid = Some x → (∀ f, wr_pc x ≠ WWriting f) → (∀ f, pc ≠ WWriting f) →
  ledger (put_writer w wid x pc).
Proof.
  intros [] Hx Hpc Hpc'.
  assert (∀ i y, <[wid := mkWriter (wr_session x) (wr_att x) (wr_queue x) pc]> (w_writers w) !! i = Some y →
    ∃ y', w_writers w !! i = Some y' ∧ wr_queue y' = wr_queue y ∧ (∀ f, wr_pc y = WWriting f → y' = y)) as Hw.
  { intros i y. rewrite lookup_insert. case_decide; [|eauto]. intros [= <-]. subst i. exists x.
    split; [done|]. split; [done|]. intros f Hf. by destruct (Hpc' f). }
  split; cbn; try done.
  - intros q f Hf. destruct (l_taken0 _ _ Hf) as [? [?|(i & y & Hy & Hq & Hf')]]; split; [done|by left|done|].
    right. exists i, y. split; [|done]. rewrite lookup_insert_ne; [done|]. intros <-. simplify_eq. by destruct (Hpc f).
  - intros i y f (y' & Hy & _ & He)%Hw Hf. rewrite <-(He f Hf). eapply l_writing0; [done|]. by rewrite (He f Hf).
  - intros i y (y' & Hy & <- & _)%Hw. by eapply l_writer0.
  - intros i j y z (y' & Hy & <- & _)%Hw (z' & Hz & <- & _)%Hw. by eapply l_uniq0.
Qed.

Lemma dequeue_taken x f x' :
  dequeue x = Taken f x' →
  q_closed x = false ∧ q_closed x' = false ∧
  (∃ b, lane_of x b = f :: lane_of x' b ∧ lane_of x' (negb b) = lane_of x (negb b) ∧
        (b = false → q_control x = [])).
Proof.
  unfold dequeue. destruct (q_closed x); [done|]. destruct (q_control x) as [|g r] eqn:Hc.
  - destruct (q_data x) as [|g r] eqn:Hd; [done|]. intros [= <- <-]. split; [done|]. split; [done|].
    exists false. cbn. by rewrite Hc.
  - intros [= <- <-]. split; [done|]. split; [done|]. exists true. cbn. done.
Qed.

(** Taking a frame keeps the ledger of the queue's lanes. *)
Lemma take_lane w q x f x' b :
  ledger w → w_queues w !! q = Some x → dequeue x = Taken f x' →
  ∃ rest, lane q b (w_accepted w) = lane q b (w_taken w ++ [(q, f)]) ++ rest ∧
    lane_of x' b = rest ∧ ∀ g, g ∈ rest → w_done w !! f_id g = None.
Proof.
  intros Hl Hx (Hc & _ & b0 & H1 & H2 & _)%dequeue_taken.
  assert (f_control f = b0) as Hf.
  { destruct (l_lane _ Hl _ _ b0 Hx) as (rest & Heq & Hr). rewrite Hc, H1 in Hr. destruct Hr as [<- _].
    assert (f ∈ lane q b0 (w_accepted w)) as [_ ?]%elem_of_lane; [|done].
    rewrite Heq. apply elem_of_app. right. left. }
  destruct (l_lane _ Hl _ _ b Hx) as (rest & Heq & Hr). rewrite Hc in Hr. destruct Hr as [<- Hr].
  exists (lane_of x' b). rewrite lane_app, lane_one, Hf, Heq, <-app_assoc.
  destruct (Bool.eqb_spec b0 b) as [->|Hne].
  - rewrite H1 in Hr |- *. split; [done|]. split; [done|]. intros g Hg. apply Hr. by right.
  - assert (b = negb b0) as -> by by destruct b, b0. rewrite H2. done.
Qed.

Lemma ledger_take w wid wr x f x' :
  ledger w → w_writers w !! wid = Some wr → wr_pc wr = WIdle → w_queues w !! wr_queue wr = Some x →
  dequeue x = Taken f x' →
  ledger (put_writer (set_queues w (<[wr_queue wr := x']> (w_queues w)) (w_accepted w)
                        (w_taken w ++ [(wr_queue wr, f)])) wid wr (WWriting f)).
Proof.
  intros Hl Hwr Hpc Hx Hdq. pose proof (λ b, take_lane w _ x f x' b Hl Hx Hdq) as Hlane.
  apply dequeue_taken in Hdq as (Hc & Hc' & b0 & H1 & H2 & _).
  assert ((wr_queue wr, f) ∈ w_accepted w ∧ w_done w !! f_id f = None) as [Hacc Hnd].
  { apply (waiting_accepted w _ x b0 f Hl Hx). rewrite H1. left. }
  destruct Hl.
  assert (∀ i y, <[wid := mkWriter (wr_session wr) (wr_att wr) (wr_queue wr) (WWriting f)]> (w_writers w) !! i
      = Some y → (i = wid ∧ wr_queue y = wr_queue wr ∧ wr_pc y = WWriting f) ∨ w_writers w !! i = Some y) as Hw.
  { intros i y. rewrite lookup_insert. case_decide; [|by right]. intros [= <-]. by left. }
  split; cbn; try done.
  - intros q y. rewrite lookup_insert. case_decide; [subst; intros _; by eapply l_fresh_q0|by apply l_fresh_q0].
  - intros q g Hg. rewrite lookup_insert. case_decide; [done|by eapply l_queue0].
  - intros q y b. rewrite lookup_insert. case_decide as Hq; unfold lane_ok; cbn.
    + intros [= <-]. subst q. rewrite Hc'. apply Hlane.
    + intros Hy. rewrite lane_app, lane_other, app_nil_r by done. by apply l_lane0.
  - intros q y. rewrite lookup_insert. case_decide; [|by apply l_bounds0]. intros [= <-].
    destruct (l_bounds0 _ _ Hx) as [Hb1 Hb2].
    destruct b0; cbn in H1, H2; rewrite H1 in *; rewrite H2; cbn [length] in *; lia.
  - intros q g [Hg|Hg%list_elem_of_singleton]%elem_of_app.
    + destruct (l_taken0 _ _ Hg) as [? [?|(i & y & Hy & ? & Hpc')]]; (split; [done|]); [by left|].
      right. exists i, y. split; [|done]. rewrite lookup_insert_ne; [done|]. intros <-. congruence.
    + simplify_eq. split; [done|]. right. eexists wid, _. split; [by rewrite lookup_insert_eq|done].
  - intros i y g [(-> & -> & Hpc')|Hy]%Hw Hg.
    + rewrite Hpc' in Hg. simplify_eq. split; [|done]. apply elem_of_app. right. left.
    + destruct (l_writing0 _ _ _ Hy Hg). split; [|done]. apply elem_of_app. by left.
  - intros i y [(-> & -> & _)|Hy]%Hw; [destruct (l_writer0 _ _ Hwr)|destruct (l_writer0 _ _ Hy)];
      (split; [|done]); rewrite lookup_insert; by case_decide.
  - intros i j y z [(-> & E1 & _)|Hy]%Hw [(-> & E2 & _)|Hz]%Hw Heq; [done|..|by eapply l_uniq0].
    + eapply l_uniq0; [done..|congruence].
    + eapply l_uniq0; [done..|congruence].
Qed.

(** The writer reports a frame it was writing. *)
Lemma ledger_write w wid wr f e pc :
  ledger w → w_writers w !! wid = Some wr → wr_pc wr = WWriting f → (∀ g, pc ≠ WWriting g) →
  ledger (put_writer (set_done w (signal e [f] (w_done w))) wid wr pc).
Proof.
  intros Hl Hwr Hpc Hpc'. destruct (l_writing _ Hl _ _ _ Hwr Hpc) as [Htk Hnd].
  destruct (l_taken _ Hl _ _ Htk) as [Hacc _]. pose proof Hl as [].
  assert (∀ q g, (q, g) ∈ w_accepted w → g ≠ f ∨ q ≠ wr_queue wr → f_id g ≠ f_id f) as Hne.
  { intros q g Hg Hor Heq. pose proof (ids_inj _ _ _ l_nodup0 Hg Hacc Heq). naive_solver. }
  assert (∀ i y, <[wid := mkWriter (wr_session wr) (wr_att wr) (wr_queue wr) pc]> (w_writers w) !! i = Some y →
    ∃ y', w_writers w !! i = Some y' ∧ wr_queue y' = wr_queue y ∧ (∀ g, wr_pc y = WWriting g → i ≠ wid ∧ y' = y)) as Hw.
  { intros i y. rewrite lookup_insert. case_decide as Hi; [|eauto 10]. intros [= <-]. subst i. exists wr.
    split; [done|]. split; [done|]. intros g Hg. by destruct (Hpc' g). }
  assert (∀ id, id ≠ f_id f → signal e [f] (w_done w) !! id = w_done w !! id) as Hsig.
  { intros id Hid. cbn. by rewrite lookup_insert_ne. }
  split; cbn -[signal]; try done.
  - intros id. destruct (decide (id = f_id f)) as [->|Hid]; [|rewrite Hsig by done; apply l_done0].
    intros _. apply elem_of_ids. eauto.
  - intros q x b Hx. destruct (l_lane0 _ _ b Hx) as (rest & Heq & Hr). exists rest. split; [done|]. cbn -[signal].
    assert (∀ g, g ∈ rest → signal e [f] (w_done w) !! f_id g = w_done w !! f_id g) as Hsame.
    { intros g Hg. apply Hsig, (Hne q).
      - apply (elem_of_lane q b). rewrite Heq. apply elem_of_app. by right.
      - destruct (decide (g = f)) as [->|]; [right; intros ->|by left].
        by eapply taken_not_waiting, Hg. }
    destruct (q_closed x); (split; [apply Hr|]); intros g Hg; rewrite Hsame by done; by apply Hr.
  - intros q g Hg. destruct (l_taken0 _ _ Hg) as [Ha Hd]. split; [done|].
    destruct (decide (f_id g = f_id f)) as [->|Hid]; [left; cbn; by rewrite lookup_insert_eq|].
    rewrite Hsig by done. destruct Hd as [?|(i & y & Hy & ? & Hg')]; [by left|]. right. exists i, y.
    split; [|done]. rewrite lookup_insert_ne; [done|]. intros <-. congruence.
  - intros i y g (y' & Hy & _ & He)%Hw Hg. destruct (He g Hg) as [Hi ->].
    destruct (l_writing0 _ _ _ Hy Hg) as [Ht Hd]. split; [done|]. rewrite Hsig; [done|].
    apply (Hne (wr_queue y)); [by apply l_taken0|]. right. intros Hq. apply Hi. by eapply l_uniq0.
  - intros i y (y' & Hy & <- & _)%Hw. by eapply l_writer0.
  - intros i j y z (y' & Hy & <- & _)%Hw (z' & Hz & <- & _)%Hw. by eapply l_uniq0.
Qed.

(** ** Sessions, writers and encodings *)

Definition enc_of (w : world) (a : positive) : option Marshaler := at_Marshaler <$> w_atts w !! a.

(** The queue has a writer whose attachment takes that encoding. *)
Definition serves (w : world) (q : positive) (enc : Marshaler) : Prop :=
  ∃ wid y, w_writers w !! wid = Some y ∧ wr_queue y = q ∧ enc_of w (wr_att y) = Some enc.

Definition frame_ok (f : queuedFrame) : Prop :=
  marshal (f_msg f) (f_enc f) = Some (f_bytes f) ∧ too_large (f_bytes f) = false.

Definition sess_is (w : world) (s : positive) (P : Session → Prop) : Prop :=
  ∃ x, w_sess w !! s = Some x ∧ P x.

Definition was_attached (x : Session) : Prop := ss_state x ≠ SessionAuthenticating.

Definition thread_ok (w : world) (t : thread) : Prop :=
  match t with
  | TMarshalled _ m enc bytes => marshal m enc = Some bytes
  | TChecked _ f att out st =>
      frame_ok f ∧ (∀ a, att = Some a → enc_of w a = Some (f_enc f)) ∧
      (st = SessionAttached → serves w out (f_enc f))
  | TAttach s a => is_Some (w_atts w !! a) ∧ sess_is w s (λ x, ss_connect x = CBind)
  | TFence s att =>
      (∀ a, att = Some a → is_Some (w_atts w !! a)) ∧
      sess_is w s (λ x, ss_connect x ≠ CTakeover ∧ was_attached x)
  | TToFence s => sess_is w s was_attached
  | TDetached c e | TAttached c e => sess_is w c (λ x, ss_connect x = CTakeover) ∧ sess_is w e was_attached
  | _ => True
  end.

Record struct (w : world) : Prop := {
  t_out s x : w_sess w !! s = Some x → is_Some (w_queues w !! ss_out x);
  t_out_inj s1 s2 x1 x2 : w_sess w !! s1 = Some x1 → w_sess w !! s2 = Some x2 →
    ss_out x1 = ss_out x2 → s1 = s2;
  t_auth s x wid y : w_sess w !! s = Some x → ss_state x = SessionAuthenticating →
    w_writers w !! wid = Some y → wr_queue y ≠ ss_out x;
  t_attached s x : w_sess w !! s = Some x → ss_state x = SessionAttached →
    ∃ wid y, w_writers w !! wid = Some y ∧ wr_queue y = ss_out x ∧ ss_attachment x = Some (wr_att y);
  t_att s x a : w_sess w !! s = Some x → ss_attachment x = Some a → is_Some (w_atts w !! a);
  t_role s x : w_sess w !! s = Some x → ss_connect x = CTakeover →
    ss_state x = SessionAuthenticating ∨ ss_state x = SessionClosed;
  t_delegate s x d : w_sess w !! s = Some x → ss_delegate x = Some d → sess_is w d was_attached;
  t_writer wid y : w_writers w !! wid = Some y →
    is_Some (w_atts w !! wr_att y) ∧ sess_is w (wr_session y) was_attached;
  t_fresh_s s x : w_sess w !! s = Some x → (s < w_next w)%positive;
  t_fresh_a a x : w_atts w !! a = Some x → (a < w_next w)%positive;
  t_thread tid t : w_threads w !! tid = Some t → thread_ok w t;
  t_acc q f : (q, f) ∈ w_accepted w → frame_ok f ∧ serves w q (f_enc f);
  t_wire a f : (a, f) ∈ w_wire w → frame_ok f ∧ enc_of w a = Some (f_enc f);
}.

(** What every step keeps of sessions, attachments and writers. *)
Record grows (w w' : world) : Prop := {
  g_atts : w_atts w ⊆ w_atts w';
  g_writers wid y : w_writers w !! wid = Some y → ∃ y', w_writers w' !! wid = Some y' ∧
    wr_queue y' = wr_queue y ∧ wr_att y' = wr_att y;
  g_sess s x : w_sess w !! s = Some x → ∃ x', w_sess w' !! s = Some x' ∧
    (was_attached x → was_attached x' ∧ ss_connect x' = ss_connect x) ∧
    (ss_connect x ≠ CNone → ss_connect x' = ss_connect x);
}.

Lemma grows_same w w' :
  w_atts w' = w_atts w → w_writers w' = w_writers w → w_sess w' = w_sess w → grows w w'.
Proof. intros Ha Hw Hs. split; rewrite ?Ha, ?Hw, ?Hs; [done|eauto 10..]. Qed.

Lemma grows_enc w w' a enc : grows w w' → enc_of w a = Some enc → enc_of w' a = Some enc.
Proof.
  unfold enc_of. intros [Ha _ _]. destruct (w_atts w !! a) as [x|] eqn:E; [|done].
  by rewrite (lookup_weaken _ _ _ _ E Ha).
Qed.

Lemma grows_att w w' a : grows w w' → is_Some (w_atts w !! a) → is_Some (w_atts w' !! a).
Proof. intros [Ha _ _] [x Hx]. exists x. by eapply lookup_weaken. Qed.

Lemma grows_serves w w' q enc : grows w w' → serves w q enc → serves w' q enc.
Proof.
  intros Hg (wid & y & Hy & Hq & He). destruct (g_writers _ _ Hg _ _ Hy) as (y' & Hy' & Hq' & Ha').
  exists wid, y'. split; [done|]. split; [congruence|]. rewrite Ha'. by eapply grows_enc.
Qed.

Lemma grows_was w w' s : grows w w' → sess_is w s was_attached → sess_is w' s was_attached.
Proof. intros Hg (x & Hx & Ha). destruct (g_sess _ _ Hg _ _ Hx) as (x' & Hx' & H1 & _). exists x'. naive_solver. Qed.

Lemma grows_connect w w' s k :
  grows w w' → k ≠ CNone → sess_is w s (λ x, ss_connect x = k) → sess_is w' s (λ x, ss_connect x = k).
Proof.
  intros Hg Hk (x & Hx & Ha). destruct (g_sess _ _ Hg _ _ Hx) as (x' & Hx' & _ & H2). exists x'.
  split; [done|]. rewrite H2; congruence.
Qed.

Lemma grows_thread w w' t : grows w w' → thread_ok w t → thread_ok w' t.
Proof.
  intros Hg. destruct t; cbn; try done.
  - intros (? & Ha & Hs). split; [done|]. split; [|by eauto using grows_serves].
    intros a Hatt. eapply grows_enc; eauto.
  - intros [? ?]. split; [by eapply grows_att|by eapply grows_connect].
  - by apply grows_was.
  - intros [Ha (x & Hx & Hc & Hs)]. split; [eauto using grows_att|].
    destruct (g_sess _ _ Hg _ _ Hx) as (x' & Hx' & H1 & _). exists x'. split; [done|].
    destruct (H1 Hs) as [? ->]. done.
  - intros [? ?]. split; [by eapply grows_connect|by eapply grows_was].
  - intros [? ?]. split; [by eapply grows_connect|by eapply grows_was].
Qed.

(** *** Preservation *)

Lemma struct_frame w w' :
  struct w → w_sess w' = w_sess w → w_atts w' = w_atts w → w_writers w' = w_writers w →
  w_threads w' = w_threads w → w_accepted w' = w_accepted w → w_wire w' = w_wire w →
  (∀ q, is_Some (w_queues w !! q) → is_Some (w_queues w' !! q)) → (w_next w ≤ w_next w')%positive →
  struct w'.
Proof.
  intros [] Hs Ha Hw Ht Hacc Hwire Hq Hn. pose proof (grows_same w w' Ha Hw Hs) as Hg.
  split; rewrite ?Hs, ?Ha, ?Hw, ?Ht, ?Hacc, ?Hwire; try done.
  - intros s x Hx. by eapply Hq, t_out0.
  - intros s x d Hx Hd. by eapply grows_was; [|eapply t_delegate0].
  - intros wid y Hy. destruct (t_writer0 _ _ Hy). split; [done|by eapply grows_was].
  - intros s x Hx%t_fresh_s0. lia.
  - intros a x Hx%t_fresh_a0. lia.
  - intros tid t Hx%t_thread0. by eapply grows_thread.
  - intros q f Hf. destruct (t_acc0 _ _ Hf). split; [done|by eapply grows_serves].
  - intros a f Hf. destruct (t_wire0 _ _ Hf). split; [done|by eapply grows_enc].
Qed.

Lemma struct_put_thread w tid t : struct w → thread_ok w t → struct (put_thread w tid t).
Proof.
  intros [] Ht. assert (grows w (put_thread w tid t)) as Hg by by apply grows_same.
  split; try done.
  intros tid' t'. cbn. rewrite lookup_insert. case_decide; [intros [= <-]|intros Hx%t_thread0];
    by eapply grows_thread.
Qed.

(** Changing one session without making it live. *)
Record session_update (w : world) (x x' : Session) : Prop := {
  u_out : ss_out x' = ss_out x;
  u_auth : ss_state x' = SessionAuthenticating → ss_state x = SessionAuthenticating;
  u_attached : ss_state x' = SessionAttached → ss_state x = SessionAttached ∧ ss_attachment x' = ss_attachment x;
  u_att a : ss_attachment x' = Some a → ss_attachment x = Some a;
  u_role : ss_connect x' = CTakeover → ss_state x' = SessionAuthenticating ∨ ss_state x' = SessionClosed;
  u_delegate d : ss_delegate x' = Some d → ss_delegate x = Some d ∨ sess_is w d was_attached;
  u_connect : ss_connect x' = ss_connect x ∨ ss_state x = SessionAuthenticating ∧ ss_connect x = CNone;
}.

Lemma grows_session w s x x' :
  w_sess w !! s = Some x → session_update w x x' → grows w (put_session w s x').
Proof.
  intros Hx []. split; cbn; [done|eauto|]. intros s' y. rewrite lookup_insert. case_decide; [|by eauto 10].
  subst s'. rewrite Hx. intros [= <-]. exists x'. split; [done|]. split.
  - intros Ha. split; [intros ?; by apply Ha, u_auth0|]. destruct u_connect0 as [?|[? _]]; [done|by destruct Ha].
  - intros Hc. destruct u_connect0 as [?|[_ ?]]; done.
Qed.

Lemma struct_session w s x x' :
  struct w → w_sess w !! s = Some x → session_update w x x' → struct (put_session w s x').
Proof.
  intros Hst Hx Hu. pose proof (grows_session w s x x' Hx Hu) as Hg. destruct Hst, Hu.
  assert (∀ s' y, w_sess (put_session w s x') !! s' = Some y →
    (s' = s ∧ y = x') ∨ w_sess w !! s' = Some y) as Hs.
  { intros s' y. cbn. rewrite lookup_insert. case_decide; [intros [= <-]; by left|by right]. }
  split.
  - intros s' y [[-> ->]|Hy]%Hs; [rewrite u_out0|]; by eapply t_out0.
  - intros s1 s2 x1 x2 [[-> ->]|H1]%Hs [[-> ->]|H2]%Hs; rewrite ?u_out0; [done|..]; by eapply t_out_inj0.
  - intros s' y wid z [[-> ->]|Hy]%Hs Ha Hz; [rewrite u_out0; eapply t_auth0; [done|by apply u_auth0|done]|by eapply t_auth0].
  - intros s' y [[-> ->]|Hy]%Hs Ha; [|by eapply t_attached0]. destruct (u_attached0 Ha) as [Ha' ->].
    rewrite u_out0. by eapply t_attached0.
  - intros s' y a [[-> ->]|Hy]%Hs Ha; [apply u_att0 in Ha|]; by eapply t_att0.
  - intros s' y [[-> ->]|Hy]%Hs; [done|by eapply t_role0].
  - intros s' y d [[-> ->]|Hy]%Hs Hd; apply (grows_was w); try done.
    + destruct (u_delegate0 _ Hd); [by eapply t_delegate0|done].
    + by eapply t_delegate0.
  - intros wid y Hy. destruct (t_writer0 _ _ Hy). split; [done|by eapply grows_was].
  - intros s' y [[-> ->]|Hy]%Hs; by eapply t_fresh_s0.
  - done.
  - intros tid t Ht%t_thread0. by eapply grows_thread.
  - intros q f Hf. destruct (t_acc0 _ _ Hf). split; [done|by eapply grows_serves].
  - intros a f Hf. destruct (t_wire0 _ _ Hf). split; [done|by eapply grows_enc].
Qed.

Lemma struct_stop w q : struct w → struct (stopWriter w q).
Proof.
  intros Hst. unfold stopWriter. destruct (w_queues w !! q) as [x|] eqn:Hx; [|done].
  destruct (close x). apply (struct_frame w); try done. intros q' Hq'. cbn. rewrite lookup_insert. by case_decide.
Qed.

(** A session goes live on a queue that has no writer and is no other session's. *)
Lemma struct_live w s a q x :
  ledger w → struct w → w_sess w !! s = Some x → is_Some (w_queues w !! q) → is_Some (w_atts w !! a) →
  (∀ wid y, w_writers w !! wid = Some y → wr_queue y ≠ q) →
  (∀ s' y, w_sess w !! s' = Some y → s' ≠ s → ss_out y ≠ q) → ss_connect x ≠ CTakeover →
  struct (make_live w s a q x).
Proof.
  intros Hl Hst Hx Hq Ha Hnow Hno Hc. set (x' := mkSession SessionAttached (Some a) q (ss_delegate x) (ss_loopAtt x) (ss_connect x)).
  assert (w_writers w !! w_next w = None) as Hfresh.
  { apply eq_None_not_Some. intros [y [_ Hy]%(l_writer _ Hl)]. lia. }
  assert (∀ wid y, w_writers (make_live w s a q x) !! wid = Some y →
    (wid = w_next w ∧ y = mkWriter s a q WIdle) ∨ w_writers w !! wid = Some y) as Hw.
  { intros wid y. cbn. rewrite lookup_insert. case_decide; [intros [= <-]; by left|by right]. }
  assert (∀ s' y, w_sess (make_live w s a q x) !! s' = Some y →
    (s' = s ∧ y = x') ∨ s' ≠ s ∧ w_sess w !! s' = Some y) as Hs.
  { intros s' y. cbn. rewrite lookup_insert. case_decide; [intros [= <-]; by left|by right]. }
  assert (grows w (make_live w s a q x)) as Hg.
  { split; cbn; [done|..].
    - intros wid y Hy. exists y. rewrite lookup_insert_ne by congruence. done.
    - intros s' y Hy. rewrite lookup_insert. case_decide; [subst s'|by eauto 10]. simplify_eq. eexists. split; [done|]. done. }
  assert (sess_is (make_live w s a q x) s was_attached) as Hwas.
  { exists x'. split; [cbn; by rewrite lookup_insert_eq|done]. }
  destruct Hst. split.
  - intros s' y [[-> ->]|[_ Hy]]%Hs; [done|by eapply t_out0].
  - intros s1 s2 x1 x2 [[-> ->]|[N1 H1]]%Hs [[-> ->]|[N2 H2]]%Hs Heq; [done|..|by eapply t_out_inj0].
    + by destruct (Hno _ _ H2 N2).
    + by destruct (Hno _ _ H1 N1).
  - intros s' y wid z [[-> ->]|[Hne Hy]]%Hs Hau; [done|].
    intros [[-> ->]|Hz]%Hw; [cbn; intros Heq; by apply (Hno _ _ Hy Hne)|by eapply t_auth0].
  - intros s' y [[-> ->]|[Hne Hy]]%Hs Hat.
    + exists (w_next w), (mkWriter s a q WIdle). split; [cbn; by rewrite lookup_insert_eq|done].
    + destruct (t_attached0 _ _ Hy Hat) as (wid & z & Hz & Hrest). exists wid, z. split; [|done].
      cbn. rewrite lookup_insert_ne; [done|congruence].
  - intros s' y b [[-> ->]|[_ Hy]]%Hs Hb; [cbn in Hb; by simplify_eq|by eapply t_att0].
  - intros s' y [[-> ->]|[_ Hy]]%Hs; [done|by eapply t_role0].
  - intros s' y d [[-> ->]|[_ Hy]]%Hs Hd; (eapply grows_was; [exact Hg|]); by eapply t_delegate0.
  - intros wid y [[-> ->]|Hy]%Hw; [done|]. destruct (t_writer0 _ _ Hy). split; [done|by eapply grows_was].
  - intros s' y Hy. assert (s' < w_next w)%positive; [|cbn; lia].
    apply Hs in Hy as [[-> ->]|[_ Hy]]; by eapply t_fresh_s0.
  - intros b y Hy%t_fresh_a0. cbn. lia.
  - intros tid t Ht%t_thread0. by eapply grows_thread.
  - intros q' f Hf. destruct (t_acc0 _ _ Hf). split; [done|by eapply grows_serves].
  - intros b f Hf. destruct (t_wire0 _ _ Hf). split; [done|by eapply grows_enc].
Qed.

Lemma struct_put_writer w wid y pc :
  struct w → w_writers w !! wid = Some y → struct (put_writer w wid y pc).
Proof.
  intros Hst Hy. assert (∀ i z, w_writers (put_writer w wid y pc) !! i = Some z → ∃ z', w_writers w !! i = Some z' ∧
    wr_queue z' = wr_queue z ∧ wr_att z' = wr_att z ∧ wr_session z' = wr_session z) as Hw.
  { intros i z. cbn. rewrite lookup_insert. case_decide; [intros [= <-]; subst; by exists y|eauto]. }
  assert (grows w (put_writer w wid y pc)) as Hg.
  { split; cbn; [done| |eauto 10]. intros i z Hz. rewrite lookup_insert. case_decide; [|by eauto].
    subst. simplify_eq. by eexists. }
  destruct Hst. split; try done.
  - intros s x i z Hx Ha (z' & Hz & <- & _)%Hw. by eapply t_auth0.
  - intros s x Hx Ha. destruct (t_attached0 _ _ Hx Ha) as (i & z & Hz & Hq & Hat).
    destruct (g_writers _ _ Hg _ _ Hz) as (z' & Hz' & E1 & E2). exists i, z'. rewrite E1, E2. done.
  - intros i z (z' & Hz & _ & <- & <-)%Hw. by eapply t_writer0.
  - intros tid t Ht%t_thread0. by eapply grows_thread.
  - intros q f Hf. destruct (t_acc0 _ _ Hf). split; [done|by eapply grows_serves].
Qed.

Lemma struct_accept w out q' f :
  struct w → is_Some (w_queues w !! out) → frame_ok f → serves w out (f_enc f) →
  struct (set_queues w (<[out := q']> (w_queues w)) (w_accepted w ++ [(out, f)]) (w_taken w)).
Proof.
  intros [] Hq Hf Hse. split; try done.
  - intros s x Hx. cbn. rewrite lookup_insert. case_decide; [done|by eapply t_out0].
  - intros q g [Hg|Hg%list_elem_of_singleton]%elem_of_app; [by apply t_acc0|by simplify_eq].
Qed.

Lemma struct_wire w a f :
  struct w → frame_ok f → enc_of w a = Some (f_enc f) → struct (write_wire w a f).
Proof.
  intros [] Hf He. split; try done.
  intros b g [Hg|Hg%list_elem_of_singleton]%elem_of_app; [by apply t_wire0|by simplify_eq].
Qed.

Lemma struct_check w tid s x m enc bytes :
  struct w → w_sess w !! s = Some x → marshal m enc = Some bytes → too_large bytes = false →
  attachmentMarshaler w x = enc → struct (check_frame w tid s x m enc bytes).
Proof.
  intros Hst Hx Hm Hl He. set (f := mkFrame (w_next w) m enc bytes (outboundFrameClass (m_Envelope m))).
  assert (∀ a, ss_attachment x = Some a → enc_of w a = Some enc) as Hatt.
  { intros a Ha. unfold attachmentMarshaler in He. rewrite Ha in He. cbn in He. unfold enc_of.
    destruct (t_att _ Hst _ _ _ Hx Ha) as [at0 Hat]. rewrite Hat in He |- *. cbn. by rewrite He. }
  assert (thread_ok w (TChecked s f (ss_attachment x) (ss_out x) (ss_state x))) as Ht.
  { split; [done|]. split; [done|]. intros Hs. destruct (t_attached _ Hst _ _ Hx Hs) as (wid & y & Hy & Hq & Ha).
    exists wid, y. split; [done|]. split; [done|]. by apply Hatt. }
  pose proof (struct_put_thread w tid _ Hst Ht) as Hst'.
  apply (struct_frame (put_thread w tid (TChecked s f (ss_attachment x) (ss_out x) (ss_state x)))); try done.
  cbn. lia.
Qed.

Lemma struct_handoff w a : struct w → struct (handoffAttachment w a).
Proof.
  intros Hst. assert (w_atts w !! w_next w = None) as Hnone.
  { apply eq_None_not_Some. intros [x Hx%(t_fresh_a _ Hst)]. lia. }
  assert (grows w (handoffAttachment w a)) as Hg.
  { split; cbn; [by apply insert_subseteq|eauto|eauto 10]. }
  destruct Hst. split; try done.
  - intros s x b Hx Hb. apply (grows_att w); [done|]. by eapply t_att0.
  - intros wid y Hy. destruct (t_writer0 _ _ Hy). split; [by apply (grows_att w)|done].
  - intros s x Hx%t_fresh_s0. cbn. lia.
  - intros b x. cbn. rewrite lookup_insert. case_decide; [subst; lia|]. intros Hb%t_fresh_a0. lia.
  - intros tid t Ht%t_thread0. by eapply grows_thread.
  - intros q f Hf. destruct (t_acc0 _ _ Hf). split; [done|by eapply grows_serves].
  - intros b f Hf. destruct (t_wire0 _ _ Hf). split; [done|by eapply grows_enc].
Qed.

Lemma struct_new w t enc : ledger w → struct w → struct (NewClient w t enc).
Proof.
  intros Hl Hst. set (n := w_next w). set (x' := mkSession SessionAuthenticating (Some n) (Pos.succ n) None n CNone).
  assert (w_atts w !! n = None) as Hna.
  { apply eq_None_not_Some. intros [x Hx%(t_fresh_a _ Hst)]. subst n. lia. }
  assert (w_sess w !! Pos.succ (Pos.succ n) = None) as Hns.
  { apply eq_None_not_Some. intros [x Hx%(t_fresh_s _ Hst)]. subst n. lia. }
  assert (∀ q, is_Some (w_queues w !! q) → q ≠ Pos.succ n) as Hnq.
  { intros q [x Hx%(l_fresh_q _ Hl)]. subst n. lia. }
  assert (grows w (NewClient w t enc)) as Hg.
  { split; cbn; [by apply insert_subseteq|eauto|]. intros s y Hy. exists y.
    rewrite lookup_insert_ne by (fold n; congruence). done. }
  assert (∀ s y, w_sess (NewClient w t enc) !! s = Some y →
    (s = Pos.succ (Pos.succ n) ∧ y = x') ∨ w_sess w !! s = Some y) as Hs.
  { intros s y. cbn. fold n. rewrite lookup_insert. case_decide; [intros [= <-]; by left|by right]. }
  destruct Hst. split.
  - intros s y [[-> ->]|Hy]%Hs; cbn; fold n; [by rewrite lookup_insert_eq|].
    rewrite lookup_insert. case_decide; [done|by eapply t_out0].
  - intros s1 s2 x1 x2 [[-> ->]|H1]%Hs [[-> ->]|H2]%Hs Heq; [done|..|by eapply t_out_inj0].
    + by destruct (Hnq _ (t_out0 _ _ H2)).
    + by destruct (Hnq _ (t_out0 _ _ H1)).
  - intros s y wid z [[-> ->]|Hy]%Hs Ha Hz; [|by eapply t_auth0]. cbn. apply Hnq. by eapply (l_writer _ Hl).
  - intros s y [[-> ->]|Hy]%Hs Ha; [done|by eapply t_attached0].
  - intros s y b [[-> ->]|Hy]%Hs Hb; [|eapply grows_att; [exact Hg|by eapply t_att0]].
    cbn in Hb. injection Hb as <-. cbn. fold n. by rewrite lookup_insert_eq.
  - intros s y [[-> ->]|Hy]%Hs; [done|by eapply t_role0].
  - intros s y d [[-> ->]|Hy]%Hs Hd; [done|]. eapply grows_was; [exact Hg|]. by eapply t_delegate0.
  - intros wid y Hy. destruct (t_writer0 _ _ Hy). split; [by eapply grows_att|by eapply grows_was].
  - intros s y [[-> ->]|Hy%t_fresh_s0]%Hs; cbn; fold n; [lia|]. subst n. lia.
  - intros b y. cbn. fold n. rewrite lookup_insert. case_decide; [subst; lia|]. intros Hb%t_fresh_a0. subst n. lia.
  - intros tid th Ht%t_thread0. by eapply grows_thread.
  - intros q f Hf. destruct (t_acc0 _ _ Hf). split; [done|by eapply grows_serves].
  - intros b f Hf. destruct (t_wire0 _ _ Hf). split; [done|by eapply grows_enc].
Qed.

(** ** The invariant of the system *)

Record inv (w : world) : Prop := { inv_ledger : ledger w; inv_struct : struct w }.

Lemma inv_put_thread w tid t :
  inv w → (∀ s g a o st, t ≠ TChecked s g a o st) → thread_ok w t → inv (put_thread w tid t).
Proof. intros [Hl Hs] Hne Ht. split; [by apply ledger_put_thread|by apply struct_put_thread]. Qed.

Lemma inv_session w s x x' :
  inv w → w_sess w !! s = Some x → session_update w x x' → inv (put_session w s x').
Proof.
  intros [Hl Hs] Hx Hu. split; [by apply (ledger_frame w)|by eapply struct_session].
Qed.

Lemma inv_stop w q : inv w → inv (stopWriter w q).
Proof. intros [Hl Hs]. split; [by apply ledger_stop|by apply struct_stop]. Qed.

Lemma stop_sess w q : w_sess (stopWriter w q) = w_sess w.
Proof. unfold stopWriter. destruct (w_queues w !! q) as [x|]; [|done]. by destruct (close x). Qed.

Lemma stop_atts w q : w_atts (stopWriter w q) = w_atts w.
Proof. unfold stopWriter. destruct (w_queues w !! q) as [x|]; [|done]. by destruct (close x). Qed.

Lemma closed_update w x :
  session_update w x (mkSession SessionClosed None (ss_out x) (ss_delegate x) (ss_loopAtt x) (ss_connect x)).
Proof. split; cbn; try done; auto. Qed.

Lemma inv_teardown w s x : inv w → w_sess w !! s = Some x → inv (teardown w s x).
Proof. intros Hi Hx. apply inv_stop. eapply inv_session; [done..|]. apply closed_update. Qed.

Lemma inv_Close w s : inv w → inv (Close w s).
Proof.
  intros Hi. unfold Close. destruct (w_sess w !! root_of w s) as [x|] eqn:Hx; [|done].
  case_bool_decide; [done|by apply inv_teardown].
Qed.

Lemma inv_Detach w s : inv w → inv (Detach w s).
Proof.
  intros Hi. unfold Detach. destruct (w_sess w !! s) as [x|] eqn:Hx; [|done].
  case_bool_decide as Ha; [|done]. cbn. apply inv_stop. eapply inv_session; [done..|].
  split; cbn; try done; auto. intros Hr. destruct (t_role _ (inv_struct _ Hi) _ _ Hx Hr); congruence.
Qed.

Lemma was_Detach w s s' P :
  (∀ x, P x → P (mkSession SessionDetached None (ss_out x) (ss_delegate x) (ss_loopAtt x) (ss_connect x))) →
  sess_is w s' P → sess_is (Detach w s) s' P.
Proof.
  intros HP (x & Hx & Hp). unfold Detach. destruct (w_sess w !! s) as [y|] eqn:Hy; [|by exists x].
  case_bool_decide; [|by exists x]. cbn. unfold sess_is. rewrite stop_sess. cbn. rewrite lookup_insert.
  case_decide; [subst; simplify_eq; eauto|eauto].
Qed.

Lemma inv_alloc w : inv w → inv (alloc_queue w).
Proof.
  intros [Hl Hs]. split; [apply (ledger_queue_insert w (w_next w)); [done|lia..]|].
  apply (struct_frame w); try done; [|cbn; lia]. intros q Hq. cbn. rewrite lookup_insert. by case_decide.
Qed.

Lemma inv_live w s a q x :
  inv w → w_sess w !! s = Some x → is_Some (w_queues w !! q) → is_Some (w_atts w !! a) →
  (∀ wid y, w_writers w !! wid = Some y → wr_queue y ≠ q) →
  (∀ s' y, w_sess w !! s' = Some y → s' ≠ s → ss_out y ≠ q) → ss_connect x ≠ CTakeover →
  inv (make_live w s a q x).
Proof.
  intros [Hl Hs] Hx Hq Ha Hnow Hno Hc. split; [|by apply struct_live].
  apply ledger_spawn; [|done..]. by apply (ledger_frame w).
Qed.

(** Going live on a fresh queue. *)
Lemma inv_live_fresh w s a x :
  inv w → w_sess w !! s = Some x → is_Some (w_atts w !! a) → ss_connect x ≠ CTakeover →
  inv (make_live (alloc_queue w) s a (w_next w) x).
Proof.
  intros Hi Hx Ha Hc. pose proof (inv_alloc w Hi) as Hi'. destruct Hi as [Hl Hs].
  assert (∀ q, is_Some (w_queues w !! q) → q ≠ w_next w) as Hq.
  { intros q [y Hy%(l_fresh_q _ Hl)]. lia. }
  apply inv_live; try done.
  - cbn. by rewrite lookup_insert_eq.
  - intros wid y Hy. apply Hq. by eapply (l_writer _ Hl).
  - intros s' y Hy _. apply Hq. by eapply (t_out _ Hs).
Qed.

Lemma inv_Attach w s a probe :
  inv w → is_Some (w_atts w !! a) →
  (∀ x, w_sess w !! s = Some x → ss_state x = SessionAuthenticating → ss_connect x ≠ CTakeover) →
  inv (Attach w s a probe).2.
Proof.
  intros Hi Ha Hrole. unfold Attach. destruct probe; [|done]. cbn.
  destruct (w_sess w !! s) as [x|] eqn:Hx; [|done]. destruct Hi as [Hl Hs].
  destruct (ss_state x) eqn:Hst; try done; cbn [snd].
  - apply inv_live; try done; [by eapply (t_out _ Hs)|..|by apply Hrole].
    + intros wid y Hy. by eapply (t_auth _ Hs).
    + intros s' y Hy Hne Heq. apply Hne. by eapply (t_out_inj _ Hs).
  - apply inv_live_fresh; try done. intros Hc. destruct (t_role _ Hs _ _ Hx Hc); congruence.
Qed.

Lemma inv_fence_end w s att failed :
  inv w → thread_ok w (TFence s att) → inv (fence_end w s att failed).
Proof.
  intros Hi [Ha (x & Hx & Hc & _)]. unfold fence_end. destruct failed; [|done]. cbn. rewrite Hx.
  destruct att as [a|]; [|done]. case_bool_decide; [|done]. apply inv_live_fresh; eauto.
Qed.

Lemma sess_Attach w s a probe s' P :
  (∀ x q, P x → P (mkSession SessionAttached (Some a) q (ss_delegate x) (ss_loopAtt x) (ss_connect x))) →
  sess_is w s' P → sess_is (Attach w s a probe).2 s' P.
Proof.
  intros HP (x & Hx & Hp). unfold Attach. destruct probe; [|by exists x]. cbn.
  destruct (w_sess w !! s) as [y|] eqn:Hy; [|by exists x].
  assert (∀ q, sess_is (make_live w s a q y) s' P ∧ sess_is (make_live (alloc_queue w) s a q y) s' P) as Hlive.
  { intros q. split; unfold sess_is; cbn; rewrite lookup_insert; case_decide; subst; simplify_eq; eauto. }
  destruct (ss_state y); cbn [snd]; first [apply Hlive|by exists x].
Qed.

Lemma root_was w s fuel : struct w → sess_is w s was_attached → sess_is w (root fuel w s) was_attached.
Proof.
  intros Hst. revert s. induction fuel as [|fuel IH]; intros s Hs; cbn [root]; [done|].
  case_bool_decide; [done|]. apply IH. destruct Hs as (x & Hx & Hw). unfold canonical. rewrite Hx.
  destruct (ss_delegate x) as [d|] eqn:Hd; cbn; [by eapply (t_delegate _ Hst)|by exists x].
Qed.

Lemma inv_enqueue_step w tid s f att out st ok w' :
  inv w → w_threads w !! tid = Some (TChecked s f att out st) →
  enqueue_step w tid s f att out st ok = Some w' → inv w'.
Proof.
  intros Hi Ht. destruct (t_thread _ (inv_struct _ Hi) _ _ Ht) as (Hf & Hatt & Hse). unfold enqueue_step.
  case_bool_decide as Hs.
  - destruct (w_queues w !! out) as [x|] eqn:Hx; [|done]. cbn. intros [= <-].
    destruct (tryEnqueue x f) as [x'|e] eqn:He; [|by destruct e; apply inv_put_thread].
    assert (checked w tid = Some f) as Hc by (unfold checked; by rewrite Ht).
    split; [by eapply ledger_enqueue, He; [apply Hi|..]|].
    apply struct_put_thread; [|done]. apply struct_accept; [apply Hi|by eexists|done|by apply Hse].
  - destruct att as [a|]; [|intros [= <-]; by apply inv_put_thread].
    destruct ok; intros [= <-]; apply inv_put_thread; try done.
    destruct Hi as [Hl Hst]. split; [by apply (ledger_frame w)|]. apply struct_wire; [done..|by apply Hatt].
Qed.

Lemma inv_take_step w wid y w' :
  inv w → w_writers w !! wid = Some y → wr_pc y = WIdle → take_step w wid y = Some w' → inv w'.
Proof.
  intros [Hl Hs] Hy Hpc. unfold take_step. destruct (w_queues w !! wr_queue y) as [x|] eqn:Hx; [|done]. cbn.
  destruct (dequeue x) as [| |f x'] eqn:Hd; [done|..]; intros [= <-]; split.
  - apply ledger_put_writer; try done. by rewrite Hpc.
  - by apply struct_put_writer.
  - by eapply ledger_take.
  - apply struct_put_writer; [|done]. apply (struct_frame w); try done.
    intros q Hq. cbn. rewrite lookup_insert. by case_decide.
Qed.

Lemma inv_write_step w wid y f ok :
  inv w → w_writers w !! wid = Some y → wr_pc y = WWriting f → inv (write_step w wid y f ok).
Proof.
  intros [Hl Hs] Hy Hpc. destruct (l_writing _ Hl _ _ _ Hy Hpc) as [Htk _].
  destruct (l_taken _ Hl _ _ Htk) as [Hacc _]. destruct (t_acc _ Hs _ _ Hacc) as [Hf (i & z & Hz & Hq & He)].
  assert (i = wid) as -> by by eapply (l_uniq _ Hl). simplify_eq.
  unfold write_step. destruct ok; split.
  - apply (ledger_write (write_wire w (wr_att y) f) wid y f None); try done. by apply (ledger_frame w).
  - apply struct_put_writer; [|done]. apply (struct_frame (write_wire w (wr_att y) f)); try done. by apply struct_wire.
  - by apply (ledger_write w wid y f (Some EWrite)).
  - apply struct_put_writer; [|done]. by apply (struct_frame w).
Qed.

Lemma start_connect_spec w s x k w' :
  w_sess w !! s = Some x → start_connect w s x k = Some w' → inv w →
  inv w' ∧ w_atts w' = w_atts w ∧ w_threads w' = w_threads w ∧ sess_is w' s (λ y, ss_connect y = k) ∧
  (∀ e, sess_is w e was_attached → sess_is w' e was_attached).
Proof.
  intros Hx. unfold start_connect. destruct (bool_decide (ss_state x = SessionAuthenticating)) eqn:H1; [|done].
  destruct (bool_decide (ss_connect x = CNone)) eqn:H2; [|done]. bool_hyps. intros [= <-] Hi.
  assert (session_update w x (mkSession (ss_state x) (ss_attachment x) (ss_out x) (ss_delegate x) (ss_loopAtt x) k)) as Hu
    by (split; cbn; auto).
  split; [by eapply inv_session|]. split; [done|]. split; [done|]. split.
  - eexists. split; [cbn; by rewrite lookup_insert_eq|done].
  - intros e He. eapply grows_was; [|done]. by eapply grows_session.
Qed.

Lemma inv_new_thread w tid t w' :
  inv w → new_thread w tid t = Some w' → (∀ s g a o st, t ≠ TChecked s g a o st) → thread_ok w t → inv w'.
Proof.
  intros Hi Hn Hne Ht. unfold new_thread in Hn. destruct (w_threads w !! tid); [done|]. simplify_eq.
  by apply inv_put_thread.
Qed.

Lemma inv_check w tid s m enc bytes x :
  inv w → w_threads w !! tid = Some (TMarshalled s m enc bytes) → w_sess w !! s = Some x →
  inv (if too_large bytes then put_thread w tid (TReturned (Some ErrOutboundTooLarge))
       else if negb (bool_decide (attachmentMarshaler w x = enc)) then put_thread w tid (TSend s m)
       else check_frame w tid s x m enc bytes).
Proof.
  intros Hi Ht Hx. pose proof (t_thread _ (inv_struct _ Hi) _ _ Ht) as Hm. cbn in Hm.
  destruct (too_large bytes) eqn:Hl; [by apply inv_put_thread|].
  case_bool_decide as He; cbn; [|by apply inv_put_thread].
  destruct Hi. split; [by apply ledger_check|by apply struct_check].
Qed.

Lemma inv_fence w tid s x :
  inv w → w_threads w !! tid = Some (TToFence s) → w_sess w !! root_of w s = Some x →
  inv (if bool_decide (ss_state x = SessionClosed) then put_thread w tid (TReturned None)
       else put_thread (teardown w (root_of w s) x) tid (TFence (root_of w s) (ss_attachment x))).
Proof.
  intros Hi Ht Hx. case_bool_decide as Hc; [by apply inv_put_thread|].
  apply inv_put_thread; [by apply inv_teardown|done|]. pose proof (inv_struct _ Hi) as Hs.
  destruct (root_was w s (size (w_sess w)) Hs (t_thread _ Hs _ _ Ht)) as (y & Hy & Ha).
  unfold root_of in Hx. rewrite Hx in Hy. simplify_eq. unfold teardown. split.
  - intros a Hat. rewrite stop_atts. by eapply (t_att _ Hs).
  - eexists. split; [rewrite stop_sess; cbn; by rewrite lookup_insert_eq|]. cbn. split; [|done].
    intros Hr. by destruct (t_role _ Hs _ _ Hx Hr).
Qed.

Lemma inv_takeover w tid c existing x e w' :
  inv w → w_sess w !! c = Some x → w_sess w !! existing = Some e → was_attached e →
  (w1 ← start_connect w c x CTakeover; new_thread (Detach w1 existing) tid (TDetached c existing)) = Some w' →
  inv w'.
Proof.
  intros Hi Hx He Ha (w1 & Hst & Hn)%bind_Some.
  destruct (start_connect_spec _ _ _ _ _ Hx Hst Hi) as (Hi1 & _ & _ & Hc & Hwas).
  eapply inv_new_thread; [by apply inv_Detach|exact Hn|done|]. split.
  - apply was_Detach; [done|exact Hc].
  - apply was_Detach; [done|]. apply Hwas. by exists e.
Qed.

Lemma inv_handoff w tid c existing a att probe :
  inv w → w_threads w !! tid = Some (TDetached c existing) → w_atts w !! a = Some att →
  let r := Attach (handoffAttachment w att) existing (w_next w) probe in
  inv (put_thread r.2 tid (if r.1 then TAttached c existing else TClose existing)).
Proof.
  intros Hi Ht Ha r. destruct (t_thread _ (inv_struct _ Hi) _ _ Ht) as [Hc He].
  assert (inv (handoffAttachment w att)) as Hi'.
  { destruct Hi. split; [apply (ledger_frame w); try done; cbn; lia|by apply struct_handoff]. }
  assert (inv r.2) as Hr.
  { apply inv_Attach; [done|cbn; by rewrite lookup_insert_eq|]. intros x Hx Hs.
    destruct He as (y & Hy & Hna). cbn in Hx. rewrite Hx in Hy. injection Hy as <-. by destruct Hna. }
  apply inv_put_thread; [done|by destruct r.1|]. destruct r.1; [|done]. split; by apply sess_Attach.
Qed.

Lemma inv_demote w tid c existing x :
  inv w → w_threads w !! tid = Some (TAttached c existing) → w_sess w !! c = Some x →
  inv (put_thread (demote w c existing x) tid (TReturned None)).
Proof.
  intros Hi Ht Hx. destruct (t_thread _ (inv_struct _ Hi) _ _ Ht) as [(y & Hy & Hc) He]. simplify_eq.
  pose proof (t_role _ (inv_struct _ Hi) _ _ Hx Hc) as Hrole.
  apply inv_put_thread; [|done..]. eapply inv_session; [done..|]. split; cbn; auto; try done.
  - intros Ha. destruct Hrole; congruence.
  - intros d [= <-]. by right.
Qed.

Lemma inv_step w w' : inv w → step w w' → inv w'.
Proof.
  intros Hi [l Hl]. destruct l; cbn [exec_label] in Hl.
  - simplify_eq. destruct Hi as [Hlg Hst]. split; [|by apply struct_new].
    apply (ledger_frame (mkWorld (w_sess w) (w_atts w) (<[Pos.succ (w_next w) := newSendQueue]> (w_queues w)) (w_writers w)
      (w_threads w) (w_done w) (w_wire w) (w_accepted w) (w_taken w) (Pos.succ (Pos.succ (Pos.succ (w_next w)))))); try done.
    apply ledger_queue_insert; [done|lia..].
  - by eapply inv_new_thread.
  - apply bind_Some in Hl as (bytes & Hm & Hn). by eapply inv_new_thread.
  - destruct (w_threads w !! tid) as [[]|]; try done. apply bind_Some in Hl as (x & Hx & [= <-]).
    unfold enqueue. destruct (marshal m (attachmentMarshaler w x)) eqn:Hm; by apply inv_put_thread.
  - destruct (w_threads w !! tid) as [[]|] eqn:Ht; try done. apply bind_Some in Hl as (x & Hx & [= <-]).
    by eapply inv_check.
  - destruct (w_threads w !! tid) as [[]|] eqn:Ht; try done. by eapply inv_enqueue_step.
  - destruct (w_threads w !! tid) as [[]|]; try done. apply bind_Some in Hl as (e & _ & [= <-]). by apply inv_put_thread.
  - destruct (w_threads w !! tid) as [[]|]; try done. simplify_eq. by apply inv_put_thread.
  - destruct (w_threads w !! tid) as [[]|]; try done. simplify_eq. apply inv_put_thread; [by apply inv_Close|done..].
  - apply bind_Some in Hl as (y & Hy & Hl). destruct (wr_pc y) eqn:Hpc; try done. by eapply inv_take_step.
  - apply bind_Some in Hl as (y & Hy & Hl). destruct (wr_pc y) eqn:Hpc; try done. simplify_eq. by apply inv_write_step.
  - apply bind_Some in Hl as (y & Hy & Hl). destruct (wr_pc y) eqn:Hpc; try done.
    assert (inv (put_writer w wid y WExit)) as Hi'.
    { destruct Hi. split; [apply ledger_put_writer; try done; by rewrite Hpc|by apply struct_put_writer]. }
    unfold handleWriteError in Hl. case_bool_decide; cbn in Hl; [|by simplify_eq].
    eapply inv_new_thread; [done..|by destruct fenced|].
    destruct fenced; [|done]. by apply (t_writer _ (inv_struct _ Hi) _ _ Hy).
  - apply bind_Some in Hl as (x & Hx & (a & Ha & (w1 & Hst & Hn)%bind_Some)%bind_Some).
    destruct (start_connect_spec _ _ _ _ _ Hx Hst Hi) as (Hi1 & Hat & _ & Hc & _).
    eapply inv_new_thread; [done..|]. split; [|done]. rewrite Hat. by eapply (t_att _ (inv_struct _ Hi)).
  - destruct (w_threads w !! tid) as [[]|] eqn:Ht; try done. simplify_eq. apply inv_put_thread; [|done..].
    destruct (t_thread _ (inv_struct _ Hi) _ _ Ht) as [Ha (y & Hy & Hc)]. apply inv_Attach; [done..|].
    intros x Hx _. congruence.
  - simplify_eq. by apply inv_Close.
  - apply bind_Some in Hl as (d & _ & Hn). by eapply inv_new_thread.
  - destruct (w_threads w !! tid) as [[]|]; try done. simplify_eq. apply inv_put_thread; [by apply inv_Close|done..].
  - apply bind_Some in Hl as (x & Hx & Hl). case_bool_decide; [done|]. eapply inv_new_thread; [done..|]. by exists x.
  - destruct (w_threads w !! tid) as [[]|] eqn:Ht; try done. apply bind_Some in Hl as (x & Hx & [= <-]). by apply inv_fence.
  - destruct (w_threads w !! tid) as [[]|] eqn:Ht; try done. simplify_eq.
    apply inv_put_thread; [|done..]. apply inv_fence_end; [done|]. by apply (t_thread _ (inv_struct _ Hi) _ _ Ht).
  - apply bind_Some in Hl as (x & Hx & (e & He & Hl)%bind_Some). case_bool_decide as Hna; [done|]. exact (inv_takeover w tid c existing x e w' Hi Hx He Hna Hl).
  - destruct (w_threads w !! tid) as [[]|] eqn:Ht; try done.
    unfold takeoverBy in Hl. destruct (current_att w c) as [a|]; [|simplify_eq; by apply inv_put_thread].
    apply bind_Some in Hl as (att & Ha & Hl). pose proof (inv_handoff w tid c existing a att probe Hi Ht Ha) as Hh.
    destruct (Attach _ existing (w_next w) probe) as [ok w1]. by simplify_eq.
  - destruct (w_threads w !! tid) as [[]|] eqn:Ht; try done. apply bind_Some in Hl as (x & Hx & [= <-]). by apply inv_demote.
Qed.

Lemma inv0 : inv world0.
Proof.
  split; split; cbn; try done; try (intros; by apply elem_of_nil in H); try by intros ? [? ?].
  constructor.
Qed.

Lemma session_reachable_inv w : reachable w → inv w.
Proof.
  intros Hr. assert (inv world0) as H0 by exact inv0. revert H0. unfold reachable in Hr.
  induction Hr; [done|]. intros. apply IHHr. by eapply inv_step.
Qed.

(** C20: the send queue loses, reorders and duplicates nothing.  In every state
    reachable by interleaving senders, writers, attach, detach, takeover, fence
    and close: a queue's lanes hold at most 32 control and 256 data frames; each
    lane hands its frames to the one writer of the queue in the order they were
    accepted; what a writer did not take waits in an open queue and was failed
    with ErrSessionNotAttached in a closed one; so the outcome of every accepted
    frame is known, or the frame waits, or the writer is writing it, and no done
    channel is signalled before that. *)
Theorem send_queue_exact w q x :
  reachable w → w_queues w !! q = Some x →
  length (q_control x) ≤ sendQueueControlDepth ∧ length (q_data x) ≤ sendQueueDataDepth ∧
  (∀ b, ∃ rest, lane q b (w_accepted w) = lane q b (w_taken w) ++ rest ∧
     if q_closed x
     then lane_of x b = [] ∧ ∀ f, f ∈ rest → w_done w !! f_id f = Some (Some ErrSessionNotAttached)
     else lane_of x b = rest ∧ ∀ f, f ∈ rest → w_done w !! f_id f = None) ∧
  (∀ f, (q, f) ∈ w_accepted w →
     is_Some (w_done w !! f_id f) ∨ f ∈ q_control x ++ q_data x ∨
     ∃ wid y, w_writers w !! wid = Some y ∧ wr_queue y = q ∧ wr_pc y = WWriting f ∧ w_done w !! f_id f = None) ∧
  (∀ i j y z, w_writers w !! i = Some y → w_writers w !! j = Some z → wr_queue y = q → wr_queue z = q → i = j).
Proof.
  intros [Hl _]%session_reachable_inv Hx. destruct (l_bounds _ Hl _ _ Hx) as [Hb1 Hb2].
  split; [done|]. split; [done|]. split; [intros b; by apply (l_lane _ Hl)|]. split.
  - intros f Hf. destruct (l_lane _ Hl _ _ (f_control f) Hx) as (rest & Heq & Hr).
    assert (f ∈ lane q (f_control f) (w_accepted w)) as Hin by by apply elem_of_lane.
    rewrite Heq in Hin. apply elem_of_app in Hin as [[Ht _]%elem_of_lane|Hin].
    + destruct (l_taken _ Hl _ _ Ht) as [_ [?|(wid & y & Hy & Hq & Hpc)]]; [by left|]. right. right.
      exists wid, y. destruct (l_writing _ Hl _ _ _ Hy Hpc). done.
    + destruct (q_closed x); destruct Hr as [Hr1 Hr2]; [left; by rewrite Hr2|].
      right. left. subst rest. by eapply lane_of_app.
  - intros i j y z Hy Hz E1 E2. eapply (l_uniq _ Hl); [done..|congruence].
Qed.

(** No client receives bytes in another encoding or over the size limit.
    Whatever resumes swap attachments between marshalling and writing: every
    frame written to an attachment is its message marshalled with that
    attachment's marshaler, and is within MaxMessageSize. *)
Theorem wire_encoding w a f :
  reachable w → (a, f) ∈ w_wire w →
  ∃ att, w_atts w !! a = Some att ∧ marshal (f_msg f) (at_Marshaler att) = Some (f_bytes f) ∧
    ((0 < MaxMessageSize)%Z → (Z.of_nat (String.length (f_bytes f)) ≤ MaxMessageSize)%Z).
Proof.
  intros [_ Hs]%session_reachable_inv Hin. destruct (t_wire _ Hs _ _ Hin) as [[Hm Hl] He]. unfold enc_of in He.
  destruct (w_atts w !! a) as [att|]; [|done]. cbn in He. injection He as He. exists att. split; [done|].
  rewrite He. split; [done|]. intros Hmax. unfold too_large in Hl.
  rewrite (proj2 (Z.ltb_lt 0 MaxMessageSize)) in Hl by done. cbn in Hl. apply Z.ltb_ge in Hl. done.
Qed.

Fixpoint exec_labels (ls : list label) (w : world) : option world :=
  match ls with
  | [] => Some w
  | l :: rest => w' ← exec_label l w; exec_labels rest w'
  end.

Lemma run_reachable ls : ∀ w w', exec_labels ls w = Some w' → rtc step w w'.
Proof.
  induction ls as [|l ls IH]; intros w w'; simpl; [intros [= <-]; done|].
  intros (w1 & Hl & Hrest)%bind_Some. eapply rtc_l; [by exists l|]. by apply IH.
Qed.

End Sessions.

(** ** Concrete runs *)

(** A marshaler that prefixes the encoding. *)
Definition tag (m : OutboundMessage) (enc : Marshaler) : option string :=
  Some (match enc with ProtoJSONMarshaler => "j" | ProtobufMarshaler => "p" end +:+ m_body m).

Definition run (ls : list label) : option world := exec_labels tag 100 ls world0.

Definition pub (body : string) : OutboundMessage := mkMsg EnvPublication body.
Definition pong : OutboundMessage := mkMsg EnvPong "pong".

(** Session 3 (attachment 1, queue 2) connects; two sends are queued, a resume on
    another encoding arrives (connection 7, attachment 5) while a third send has
    marshalled, and the writers run. *)
Definition resume_run : list label :=
  [ LNew 1 ProtoJSONMarshaler; LBind 1 3; LAttach 1 true;
    LSend 2 3 (pub "a"); LMarshal 2; LCheck 2; LEnqueue 2 true;
    LSend 3 3 pong; LMarshal 3; LCheck 3; LEnqueue 3 true;
    LTake 4; LWrite 4 true;
    LSend 4 3 (pub "b"); LMarshal 4;
    LNew 2 ProtobufMarshaler; LTakeover 5 9 3; LHandoff 5 true; LDemote 5;
    LCheck 4; LMarshal 4; LCheck 4; LEnqueue 4 true; LTake 12; LWrite 12 true; LTake 4; LDone 4 ].

Lemma send_queue_exact_witness :
  ∃ w x, run resume_run = Some w ∧ w_queues w !! 2%positive = Some x ∧ q_closed x = true ∧
    length (q_control x) ≤ 32 ∧
    ∀ f, (2%positive, f) ∈ w_accepted w → is_Some (w_done w !! f_id f) ∨ f ∈ q_control x ++ q_data x ∨
      ∃ wid y, w_writers w !! wid = Some y ∧ wr_queue y = 2%positive ∧ wr_pc y = WWriting f ∧ w_done w !! f_id f = None.
Proof.
  destruct (run resume_run) as [w|] eqn:Hw; [|vm_compute in Hw; discriminate Hw].
  pose proof (run_reachable tag 100 _ _ _ Hw) as Hr. exists w, (mkQueue true [] []).
  assert (w_queues w !! 2%positive = Some (mkQueue true [] [])) as Hx.
  { vm_compute in Hw. injection Hw as <-. vm_compute. reflexivity. }
  split; [reflexivity|]. split; [exact Hx|]. split; [reflexivity|].
  destruct (send_queue_exact tag 100 w 2 _ Hr Hx) as (Hb & _ & _ & Hf & _). split; [exact Hb|exact Hf].
Defined.

Lemma wire_encoding_witness :
  ∃ w f att, run resume_run = Some w ∧ (10%positive, f) ∈ w_wire w ∧ f_bytes f = "pb" ∧
    w_atts w !! 10%positive = Some att ∧ tag (f_msg f) (at_Marshaler att) = Some (f_bytes f).
Proof.
  destruct (run resume_run) as [w|] eqn:Hw; [|vm_compute in Hw; discriminate Hw].
  pose proof (run_reachable tag 100 _ _ _ Hw) as Hr. exists w.
  set (f := mkFrame 13 (pub "b") ProtobufMarshaler "pb" false).
  assert ((10%positive, f) ∈ w_wire w) as Hin.
  { vm_compute in Hw. injection Hw as <-. cbn. right. left. }
  destruct (wire_encoding tag 100 w 10 f Hr Hin) as (att & Ha & Hm & _).
  exists f, att. split; [reflexivity|]. split; [exact Hin|]. split; [reflexivity|]. split; [exact Ha|exact Hm].
Defined.

(** Session 3 is resumed by connection 7, whose read loop then ends: its identity
    check passes (thread 3), but before it closes, connection 13 resumes the session. *)
Definition stale_close : list label :=
  [ LNew 1 ProtoJSONMarshaler; LBind 1 3; LAttach 1 true;
    LNew 2 ProtoJSONMarshaler; LTakeover 2 7 3; LHandoff 2 true; LDemote 2;
    LCloseFrom 3 7;
    LNew 3 ProtoJSONMarshaler; LTakeover 4 13 3; LHandoff 4 true; LDemote 4 ].

(** Connections 7 and 10 resume session 3 at the same time. *)
Definition two_resumes : list label :=
  [ LNew 1 ProtoJSONMarshaler; LBind 1 3; LAttach 1 true;
    LNew 2 ProtoJSONMarshaler; LNew 3 ProtoJSONMarshaler;
    LTakeover 2 7 3; LTakeover 4 10 3; LHandoff 2 true; LDemote 2; LHandoff 4 true ].

Definition state_of (w : world) (s : positive) : option (SessionState * option positive) :=
  x ← w_sess w !! s; Some (ss_state x, a ← ss_attachment x; transport_of w a).

(** A resumed session can be closed by a connection that no longer serves it.
    The identity checks of takeover.go and the Close they guard are two critical
    sections.  (1) A superseded shell whose check passed just before the next
    resume closes the session that the new connection serves, although its check
    would fail by then.  (2) Of two simultaneous resumes the second fails to
    attach and closes the session the first one has just resumed. *)
Theorem resume_races :
  (∃ w, run stale_close = Some w ∧ state_of w 3 = Some (SessionAttached, Some 3%positive) ∧
     closeFromLoop w 7 = None ∧
     ∃ w', exec_label tag 100 (LClose 3) w = Some w' ∧ state_of w' 3 = Some (SessionClosed, None)) ∧
  (∃ w, run two_resumes = Some w ∧ state_of w 3 = Some (SessionAttached, Some 2%positive) ∧
     canonical w 7 = 3%positive ∧
     ∃ w', exec_label tag 100 (LClose 4) w = Some w' ∧ state_of w' 3 = Some (SessionClosed, None)).
Proof.
  split; (eexists; split; [vm_compute; reflexivity|]); (split; [vm_compute; reflexivity|]);
    (split; [vm_compute; reflexivity|]); eexists; (split; [vm_compute; reflexivity|]); vm_compute; reflexivity.
Qed.

End Session.
