(* ===== verification/Batcher.v ===== *)
(** * Batcher: merging publications of busy channels (internal/runtime/broadcast_batcher.go)

    The broker's delivery worker calls Deliver, one publication of a channel at a
    time; a flusher goroutine per accumulator swaps its buffer out and broadcasts
    it.  Every critical section and every broadcast is one step.  The channel
    policy and the subscriber count at the time of a Deliver, and the moments at
    which timers fire, are chosen by the environment; metrics are left out. *)

From S2P Require Import Prelude Stream.
Import Stream.

Module Batcher.

Record BatchingSettings := mkSettings { MaxMessages : Z; MaxBatchBytes : Z }.

Record channelAccumulator := mkAcc {
  a_ch : string;
  a_buf : list Publication;
  a_bytes : Z;
  a_inFlight : Z;
  a_closed : bool;
  a_notify : bool;       (* the two capacity-1 channels *)
  a_flushNow : bool;
}.

Definition newChannelAccumulator (ch : string) : channelAccumulator := mkAcc ch [] 0 0 false false false.

(** The flusher: in its select; about to flush; broadcasting; after the
    broadcast; about to close and unregister (reap) or to close (shutdown).
    [stop] tells a shutdown flush. *)
Inductive flusher :=
  | FSelect
  | FFlush (stop : bool)
  | FBroadcast (buf : list Publication) (stop : bool)
  | FFinish (stop : bool)
  | FReap | FUnregister | FClose | FExit.

(** The delivery worker of a channel, inside Deliver. *)
Inductive deliverer :=
  | DAppend (a : positive) (pub : Publication)
  | DFlush (a : positive) (pub : Publication)
  | DDrain (a : positive) (pub : Publication)
  | DImmediate (pub : Publication).

Record world := mkWorld {
  w_accs : gmap string positive;
  w_heap : gmap positive channelAccumulator;
  w_flushers : gmap positive flusher;            (* by accumulator *)
  w_workers : gmap string deliverer;             (* absent: idle *)
  w_done : bool;
  w_next : positive;
  w_wire : list (string * Publication);          (* what the hub was asked to fan out *)
  w_delivered : list (string * Publication);     (* ghost: the Deliver calls *)
  w_calm : bool;  (* ghost: no accumulator was reaped or shut down, no logged publication bypassed batching *)
}.

Definition world0 : world := mkWorld ∅ ∅ ∅ ∅ false 1 [] [] true.

Definition size_of (pub : Publication) : Z := Z.of_nat (String.length (Payload pub)).

Section Batching.
Context (settings : BatchingSettings).

Definition set_acc (w : world) (a : positive) (x : channelAccumulator) (f : flusher) : world :=
  mkWorld (w_accs w) (<[a := x]> (w_heap w)) (<[a := f]> (w_flushers w)) (w_workers w) (w_done w)
    (w_next w) (w_wire w) (w_delivered w) (w_calm w).

Definition set_worker (w : world) (ch : string) (d : option deliverer) : world :=
  mkWorld (w_accs w) (w_heap w) (w_flushers w) (partial_alter (λ _, d) ch (w_workers w)) (w_done w)
    (w_next w) (w_wire w) (w_delivered w) (w_calm w).

Definition put_acc (w : world) (a : positive) (x : channelAccumulator) : world :=
  mkWorld (w_accs w) (<[a := x]> (w_heap w)) (w_flushers w) (w_workers w) (w_done w)
    (w_next w) (w_wire w) (w_delivered w) (w_calm w).

Definition send (w : world) (ch : string) (pubs : list Publication) : world :=
  mkWorld (w_accs w) (w_heap w) (w_flushers w) (w_workers w) (w_done w) (w_next w)
    (w_wire w ++ (pair ch <$> pubs)) (w_delivered w) (w_calm w).

Definition not_calm (w : world) : world :=
  mkWorld (w_accs w) (w_heap w) (w_flushers w) (w_workers w) (w_done w) (w_next w)
    (w_wire w) (w_delivered w) false.

(** ** Deliver *)

(** [accumulatorFor]. *)
Definition accumulatorFor (w : world) (ch : string) : positive * world :=
  match w_accs w !! ch with
  | Some a => (a, w)
  | None =>
      let a := w_next w in
      (a, mkWorld (<[ch := a]> (w_accs w)) (<[a := newChannelAccumulator ch]> (w_heap w))
            (<[a := FSelect]> (w_flushers w)) (w_workers w) (w_done w) (Pos.succ a) (w_wire w)
            (w_delivered w) (w_calm w))
  end.

(** The worker of [ch] is in Deliver with this publication. *)
Definition start (w : world) (ch : string) (pub : Publication) (d : deliverer) : world :=
  set_worker (mkWorld (w_accs w) (w_heap w) (w_flushers w) (w_workers w) (w_done w) (w_next w) (w_wire w)
                (w_delivered w ++ [(ch, pub)]) (w_calm w)) ch (Some d).

(** [Deliver] up to its first blocking point; [enabled] is [enabledFor ch] and
    [many] is [subCount ch >= MinSubscribers]. *)
Definition Deliver (w : world) (ch : string) (pub : Publication) (enabled many : bool) : world :=
  if (Offset pub =? 0)%Z then start w ch pub (DImmediate pub)
  else if negb enabled then start (not_calm w) ch pub (DImmediate pub)
  else if negb many then start (not_calm w) ch pub (DImmediate pub)
  else if (MaxBatchBytes settings <? size_of pub)%Z then
    match w_accs w !! ch with
    | Some a => start w ch pub (DFlush a pub)
    | None => start w ch pub (DImmediate pub)
    end
  else let '(a, w) := accumulatorFor w ch in start w ch pub (DAppend a pub).

Definition thresholdReached (x : channelAccumulator) : bool :=
  (MaxMessages settings <=? Z.of_nat (length (a_buf x)))%Z || (MaxBatchBytes settings <=? a_bytes x)%Z.

(** [append]: [None] while the buffer is at a cap. *)
Definition append (w : world) (ch : string) (a : positive) (x : channelAccumulator) (pub : Publication)
    : option world :=
  if a_closed x then Some (set_worker w ch (Some (DImmediate pub)))
  else if (MaxMessages settings <=? Z.of_nat (length (a_buf x)))%Z ||
          (MaxBatchBytes settings <? a_bytes x + size_of pub)%Z then None
  else
    let x' := mkAcc (a_ch x) (a_buf x ++ [pub]) (a_bytes x + size_of pub) (a_inFlight x) false
                (a_notify x) (a_flushNow x) in
    let wake := bool_decide (a_buf x = []) || thresholdReached x' in
    Some (set_worker (put_acc w a (mkAcc (a_ch x') (a_buf x') (a_bytes x') (a_inFlight x') false
                                     (a_notify x || wake) (a_flushNow x))) ch None).

(** The two sections of [flushAndWait]. *)
Definition request_flush (w : world) (ch : string) (a : positive) (x : channelAccumulator) (pub : Publication)
    : world :=
  set_worker (put_acc w a (mkAcc (a_ch x) (a_buf x) (a_bytes x) (a_inFlight x) (a_closed x) (a_notify x) true))
    ch (Some (DDrain a pub)).

Definition drained (x : channelAccumulator) : bool :=
  a_closed x || (bool_decide (a_buf x = []) && (a_inFlight x <=? 0)%Z).

(** A step of the worker of [ch]. *)
Definition worker_step (w : world) (ch : string) : option world :=
  d ← w_workers w !! ch;
  match d with
  | DAppend a pub => x ← w_heap w !! a; append w ch a x pub
  | DFlush a pub => x ← w_heap w !! a; Some (request_flush w ch a x pub)
  | DDrain a pub =>
      x ← w_heap w !! a;
      if drained x then Some (set_worker w ch (Some (DImmediate pub))) else None
  | DImmediate pub => Some (set_worker (send w ch [pub]) ch None)
  end.

(** ** The flusher *)

(** The first section of [flush]. *)
Definition flush (w : world) (a : positive) (x : channelAccumulator) (stop : bool) : world :=
  if bool_decide (a_buf x = []) then set_acc w a x (if stop then FClose else FSelect)
  else set_acc w a (mkAcc (a_ch x) [] 0 (a_inFlight x + 1) (a_closed x) (a_notify x) (a_flushNow x))
         (FBroadcast (a_buf x) stop).

Definition finish_flush (w : world) (a : positive) (x : channelAccumulator) (stop : bool) : world :=
  set_acc w a (mkAcc (a_ch x) (a_buf x) (a_bytes x) (a_inFlight x - 1) (a_closed x) (a_notify x) (a_flushNow x))
    (if stop then FClose else FSelect).

Definition close (x : channelAccumulator) : channelAccumulator :=
  mkAcc (a_ch x) (a_buf x) (a_bytes x) (a_inFlight x) true (a_notify x) (a_flushNow x).

Definition removeAccumulator (w : world) (ch : string) (a : positive) : world :=
  if bool_decide (w_accs w !! ch = Some a) then
    mkWorld (delete ch (w_accs w)) (w_heap w) (w_flushers w) (w_workers w) (w_done w) (w_next w)
      (w_wire w) (w_delivered w) (w_calm w)
  else w.

Inductive wake := WakeDone | WakeFlushNow | WakeNotify | WakeTimer.

(** The select of [run] and the checks of its branch. *)
Definition select (w : world) (a : positive) (x : channelAccumulator) (k : wake) : option world :=
  match k with
  | WakeDone => if w_done w then Some (set_acc (not_calm w) a x (FFlush true)) else None
  | WakeFlushNow =>
      if a_flushNow x then
        Some (set_acc w a (mkAcc (a_ch x) (a_buf x) (a_bytes x) (a_inFlight x) (a_closed x) (a_notify x) false)
                (FFlush false))
      else None
  | WakeNotify =>
      if a_notify x then
        Some (set_acc w a (mkAcc (a_ch x) (a_buf x) (a_bytes x) (a_inFlight x) (a_closed x) false (a_flushNow x))
                (if thresholdReached x then FFlush false else FSelect))
      else None
  | WakeTimer =>
      if bool_decide (a_buf x = []) then Some (set_acc (not_calm w) a x FReap)
      else Some (set_acc w a x (FFlush false))
  end.

Definition flusher_step (w : world) (a : positive) (k : wake) : option world :=
  x ← w_heap w !! a;
  f ← w_flushers w !! a;
  match f with
  | FSelect => select w a x k
  | FFlush stop => Some (flush w a x stop)
  | FBroadcast buf stop => Some (set_acc (send w (a_ch x) buf) a x (FFinish stop))
  | FFinish stop => Some (finish_flush w a x stop)
  | FReap => Some (set_acc w a (close x) FUnregister)
  | FUnregister => Some (set_acc (removeAccumulator w (a_ch x) a) a x FExit)
  | FClose => Some (set_acc w a (close x) FExit)
  | FExit => None
  end.

(** ** The system *)

Inductive label :=
  | LDeliver (ch : string) (pub : Publication) (enabled many : bool)
  | LWorker (ch : string)
  | LFlusher (a : positive) (k : wake)
  | LShutdown.

Definition exec_label (l : label) (w : world) : option world :=
  match l with
  | LDeliver ch pub enabled many =>
      match w_workers w !! ch with
      | None => Some (Deliver w ch pub enabled many)
      | Some _ => None
      end
  | LWorker ch => worker_step w ch
  | LFlusher a k => flusher_step w a k
  | LShutdown => Some (mkWorld (w_accs w) (w_heap w) (w_flushers w) (w_workers w) true (w_next w)
                         (w_wire w) (w_delivered w) (w_calm w))
  end.

Definition step (w w' : world) : Prop := ∃ l, exec_label l w = Some w'.

Definition reachable (w : world) : Prop := rtc step world0 w.

(** ** Invariant *)

Definition of_ch (ch : string) (l : list (string * Publication)) : list Publication :=
  omap (λ e, if bool_decide (e.1 = ch) then Some e.2 else None) l.

#[local] Arguments of_ch : simpl never.

(** Publications with an offset; transient ones have none. *)
Definition logged (l : list Publication) : list Publication := List.filter (λ p, negb (Offset p =? 0)%Z) l.

#[local] Arguments logged : simpl never.

Definition in_flight (f : flusher) : list Publication :=
  match f with FBroadcast buf _ => buf | _ => [] end.

Definition held (w : world) (ch : string) : list Publication :=
  match w_accs w !! ch with
  | Some a =>
      from_option in_flight [] (w_flushers w !! a) ++ from_option a_buf [] (w_heap w !! a)
  | None => []
  end.

Definition worker_pub (d : deliverer) : Publication :=
  match d with DAppend _ p | DFlush _ p | DDrain _ p | DImmediate p => p end.

Definition pending (w : world) (ch : string) : list Publication :=
  match w_workers w !! ch with Some d => [worker_pub d] | None => [] end.

Definition total (l : list Publication) : Z := foldr (λ p n, (size_of p + n)%Z) 0%Z l.

Definition within (l : list Publication) : Prop :=
  (Z.of_nat (length l) ≤ Z.max 0 (MaxMessages settings))%Z ∧ (total l ≤ Z.max 0 (MaxBatchBytes settings))%Z.

Definition busy (f : flusher) : bool :=
  match f with FBroadcast _ _ | FFinish _ => true | _ => false end.

Record acc_ok (x : channelAccumulator) (f : flusher) : Prop := {
  k_within : within (a_buf x);
  k_flight : within (in_flight f);
  k_bytes : a_bytes x = total (a_buf x);
  k_inFlight : a_inFlight x = if busy f then 1%Z else 0%Z;
  k_alive : a_closed x = false → f ≠ FUnregister ∧ f ≠ FExit;
}.

(** The flusher of an accumulator that is neither reaped nor shut down. *)
Definition serving (f : flusher) : bool :=
  match f with FSelect | FFlush false | FBroadcast _ false | FFinish false => true | _ => false end.

Definition worker_ok (w : world) (ch : string) (d : deliverer) : Prop :=
  match d with
  | DAppend a p | DFlush a p | DDrain a p => w_accs w !! ch = Some a
  | DImmediate p => Offset p ≠ 0%Z → held w ch = []
  end.

Record calm_ok (w : world) : Prop := {
  c_one a x : w_heap w !! a = Some x → w_accs w !! a_ch x = Some a ∧ a_closed x = false;
  c_serving a f : w_flushers w !! a = Some f → serving f = true;
  c_worker ch d : w_workers w !! ch = Some d → worker_ok w ch d;
  c_order ch : logged (of_ch ch (w_wire w) ++ held w ch ++ pending w ch) = logged (of_ch ch (w_delivered w));
}.

Definition worker_acc (d : deliverer) : option positive :=
  match d with DAppend a _ | DFlush a _ | DDrain a _ => Some a | DImmediate _ => None end.

Record inv (w : world) : Prop := {
  b_fresh a x : w_heap w !! a = Some x → (a < w_next w)%positive;
  b_flusher a : is_Some (w_heap w !! a) ↔ is_Some (w_flushers w !! a);
  b_accs ch a : w_accs w !! ch = Some a → ∃ x, w_heap w !! a = Some x ∧ a_ch x = ch;
  b_worker ch d a : w_workers w !! ch = Some d → worker_acc d = Some a → is_Some (w_heap w !! a);
  b_acc a x f : w_heap w !! a = Some x → w_flushers w !! a = Some f → acc_ok x f;
  b_calm : w_calm w = true → calm_ok w;
}.

Lemma of_ch_app ch a b : of_ch ch (a ++ b) = of_ch ch a ++ of_ch ch b.
Proof. apply omap_app. Qed.

Lemma of_ch_pairs ch ch' l : of_ch ch (pair ch' <$> l) = if bool_decide (ch' = ch) then l else [].
Proof.
  unfold of_ch. induction l as [|p l IH]; cbn; [by case_bool_decide|]. rewrite IH. by case_bool_decide.
Qed.

Lemma logged_app a b : logged (a ++ b) = logged a ++ logged b.
Proof. apply List.filter_app. Qed.

Lemma logged_transient p : Offset p = 0%Z → logged [p] = [].
Proof. unfold logged. cbn. by intros ->. Qed.

Lemma total_app a b : total (a ++ b) = (total a + total b)%Z.
Proof. unfold total. induction a as [|p a IH]; cbn; [done|]. rewrite IH. lia. Qed.

Lemma within_nil : within [].
Proof. split; cbn; lia. Qed.

Lemma held_eq w w' ch :
  w_accs w' = w_accs w → w_flushers w' = w_flushers w → w_heap w' = w_heap w → held w' ch = held w ch.
Proof. unfold held. by intros -> -> ->. Qed.

(** Moving the worker of [ch] without touching accumulators; [mid] is what it
    hands to the hub. *)
Lemma inv_worker w ch d d' mid :
  inv w → w_workers w !! ch = Some d →
  (∀ e, d' = Some e → worker_pub e = worker_pub d ∧ mid = [] ∧
     (∀ a, worker_acc e = Some a → is_Some (w_heap w !! a)) ∧ (w_calm w = true → worker_ok w ch e)) →
  (d' = None → mid = [worker_pub d] ∧ (w_calm w = true → Offset (worker_pub d) ≠ 0%Z → held w ch = [])) →
  inv (set_worker (send w ch mid) ch d').
Proof.
  intros [] Hd Hs Hn.
  assert (∀ c e, partial_alter (λ _, d') ch (w_workers w) !! c = Some e →
    (c = ch ∧ d' = Some e) ∨ c ≠ ch ∧ w_workers w !! c = Some e) as Hw.
  { intros c e. destruct (decide (c = ch)) as [->|Hne]; [rewrite lookup_partial_alter_eq; by left|].
    rewrite lookup_partial_alter_ne by done. by right. }
  split; cbn; try done.
  - intros c e a [[-> He]|[_ He]]%Hw Ha; [by eapply Hs|by eapply b_worker0].
  - intros Hc. destruct (b_calm0 Hc) as [c1 c2 c3 c4]. split; cbn; try done.
    + intros c e [[-> He]|[_ He]]%Hw.
      * destruct (Hs _ He) as (_ & _ & _ & Hok). destruct e; exact (Hok Hc).
      * specialize (c3 _ _ He). destruct e; exact c3.
    + intros c. rewrite of_ch_app, of_ch_pairs. unfold pending. cbn. rewrite (held_eq w) by done.
      rewrite <-c4. unfold pending. destruct (decide (c = ch)) as [->|Hne].
      * rewrite lookup_partial_alter_eq, Hd, bool_decide_eq_true_2 by done. destruct d' as [e|].
        { destruct (Hs _ eq_refl) as (-> & -> & _). by rewrite app_nil_r. }
        destruct (Hn eq_refl) as [-> Hh]. rewrite app_nil_r, !logged_app.
        destruct (decide (Offset (worker_pub d) = 0%Z)) as [H0|H0].
        -- rewrite logged_transient by done. by rewrite !app_nil_r.
        -- rewrite (Hh Hc H0). unfold logged at 3 4. cbn. by rewrite app_nil_r.
      * rewrite lookup_partial_alter_ne, bool_decide_eq_false_2, app_nil_r by done. done.
Qed.

(** Changing an accumulator and its flusher; [mid] goes to the hub. *)
Lemma inv_acc w a x f x' f' mid :
  inv w → w_heap w !! a = Some x → w_flushers w !! a = Some f → a_ch x' = a_ch x → acc_ok x' f' →
  (w_calm w = true → a_closed x' = false ∧ serving f' = true ∧
     mid ++ in_flight f' ++ a_buf x' = in_flight f ++ a_buf x) →
  inv (set_acc (send w (a_ch x) mid) a x' f').
Proof.
  intros Hi Hx Hf Hch Hok Hcalm. pose proof Hi as [].
  assert (∀ b y, <[a := x']> (w_heap w) !! b = Some y → (b = a ∧ y = x') ∨ b ≠ a ∧ w_heap w !! b = Some y) as Hh.
  { intros b y. rewrite lookup_insert. case_decide; [intros [= <-]; by left|by right]. }
  assert (∀ b g, <[a := f']> (w_flushers w) !! b = Some g → (b = a ∧ g = f') ∨ b ≠ a ∧ w_flushers w !! b = Some g) as Hg.
  { intros b g. rewrite lookup_insert. case_decide; [intros [= <-]; by left|by right]. }
  split; cbn.
  - intros b y [[-> ->]|[_ Hy]]%Hh; by eapply b_fresh0.
  - intros b. rewrite !lookup_insert. case_decide; [by split|apply b_flusher0].
  - intros ch b Hb. destruct (b_accs0 _ _ Hb) as (y & Hy & <-). rewrite lookup_insert. case_decide; [|by eauto].
    subst b. simplify_eq. eauto.
  - intros ch d b Hd Hb. rewrite lookup_insert. case_decide; [done|by eapply b_worker0].
  - intros b y g [[-> ->]|[Hne Hy]]%Hh [[? ->]|[? Hg']]%Hg; try done. by eapply b_acc0.
  - intros Hc. destruct (Hcalm Hc) as (Hcl & Hse & Hmid). destruct (b_calm0 Hc) as [c1 c2 c3 c4].
    destruct (c1 _ _ Hx) as [Hacc _].
    assert (∀ ch, held (set_acc (send w (a_ch x) mid) a x' f') ch =
      if bool_decide (a_ch x = ch) then in_flight f' ++ a_buf x' else held w ch) as Hheld.
    { intros ch. unfold held. cbn. case_bool_decide as E; [subst; rewrite Hacc, !lookup_insert_eq; done|].
      destruct (w_accs w !! ch) as [b|] eqn:Hb; [|done].
      rewrite !lookup_insert_ne; [done|..]; intros <-; destruct (b_accs0 _ _ Hb) as (y & Hy & ?); congruence. }
    assert (held w (a_ch x) = in_flight f ++ a_buf x) as Hold by (unfold held; by rewrite Hacc, Hf, Hx).
    split; cbn [w_heap w_accs w_flushers w_workers w_wire w_delivered set_acc send].
    + intros b y [[-> ->]|[_ Hy]]%Hh; [by rewrite Hch|by apply c1].
    + intros b g [[-> ->]|[_ Hg']]%Hg; [done|by eapply c2].
    + intros ch d Hd. specialize (c3 _ _ Hd). destruct d; try done. cbn. intros Hz. rewrite Hheld.
      specialize (c3 Hz). case_bool_decide; [subst|done]. rewrite Hold, <-Hmid in c3.
      by apply app_nil in c3 as [_ ?].
    + intros ch. rewrite of_ch_app, of_ch_pairs, Hheld, <-c4. unfold pending. cbn.
      case_bool_decide; [subst|by rewrite app_nil_r]. rewrite Hold, <-Hmid. by rewrite <-!app_assoc.
Qed.

Lemma send_nil w ch : send w ch [] = w.
Proof. destruct w. unfold send. cbn. by rewrite app_nil_r. Qed.

Lemma inv_acc_silent w a x f x' f' :
  inv w → w_heap w !! a = Some x → w_flushers w !! a = Some f → a_ch x' = a_ch x → acc_ok x' f' →
  (w_calm w = true → a_closed x' = false ∧ serving f' = true ∧ in_flight f' ++ a_buf x' = in_flight f ++ a_buf x) →
  inv (set_acc w a x' f').
Proof. intros. rewrite <-(send_nil w (a_ch x)). by eapply inv_acc. Qed.

Lemma inv_not_calm w : inv w → inv (not_calm w).
Proof. intros []. by split. Qed.

(** A field of the accumulator that the invariant does not read. *)
Lemma acc_ok_signals x f n fl :
  acc_ok x f → acc_ok (mkAcc (a_ch x) (a_buf x) (a_bytes x) (a_inFlight x) (a_closed x) n fl) f.
Proof. intros []. by split. Qed.

Lemma put_acc_set w a x f : w_flushers w !! a = Some f → put_acc w a x = set_acc w a x f.
Proof. intros Hf. unfold put_acc, set_acc. by rewrite (insert_id (w_flushers w)). Qed.

Lemma inv_append w ch a x pub w' :
  inv w → w_workers w !! ch = Some (DAppend a pub) → w_heap w !! a = Some x →
  append w ch a x pub = Some w' → inv w'.
Proof.
  intros Hi Hd Hx. destruct (proj1 (b_flusher _ Hi a)) as [f Hf]; [by eexists|].
  destruct (b_acc _ Hi _ _ _ Hx Hf) as [k1 k2 k3 k4 k5]. unfold append. destruct (a_closed x) eqn:Hcl.
  { intros [= <-]. rewrite <-(send_nil w ch). eapply inv_worker; [done..| |done]. intros e [= <-].
    split; [done|]. split; [done|]. split; [done|]. intros Hc.
    destruct (c_one _ (b_calm _ Hi Hc) _ _ Hx) as [_ Hcl']. congruence. }
  destruct (Z.leb_spec (MaxMessages settings) (Z.of_nat (length (a_buf x)))) as [|Hlen]; [done|].
  destruct (Z.ltb_spec (MaxBatchBytes settings) (a_bytes x + size_of pub)) as [|Hsz]; [done|]. cbn [orb].
  intros [= <-]. set (n := a_notify x || _). clearbody n. cbn [a_ch a_buf a_bytes a_inFlight].
  assert (within (a_buf x ++ [pub])) as Hw.
  { split; [rewrite length_app; cbn [length]; lia|]. rewrite total_app. unfold total at 2. cbn [foldr]. lia. }
  assert (acc_ok (mkAcc (a_ch x) (a_buf x ++ [pub]) (a_bytes x + size_of pub) (a_inFlight x) false n (a_flushNow x)) f) as Hok.
  { split; cbn [a_buf a_bytes a_inFlight a_closed]; try done.
    rewrite total_app, k3. unfold total at 3. cbn [foldr]. lia. }
  set (x' := mkAcc (a_ch x) (a_buf x ++ [pub]) (a_bytes x + size_of pub) (a_inFlight x) false n (a_flushNow x)) in *.
  assert (a_ch x' = a_ch x ∧ a_buf x' = a_buf x ++ [pub] ∧ a_closed x' = false) as (E1 & E2 & E3) by done.
  clearbody x'. pose proof Hi as [].
  assert (∀ b y, <[a := x']> (w_heap w) !! b = Some y → (b = a ∧ y = x') ∨ b ≠ a ∧ w_heap w !! b = Some y) as Hh.
  { intros b y. rewrite lookup_insert. case_decide; [intros [= <-]; by left|by right]. }
  assert (∀ c e, partial_alter (λ _, None) ch (w_workers w) !! c = Some e → c ≠ ch ∧ w_workers w !! c = Some e) as Hwk.
  { intros c e. destruct (decide (c = ch)) as [->|Hne]; [by rewrite lookup_partial_alter_eq|].
    by rewrite lookup_partial_alter_ne. }
  split; cbn.
  - intros b y [[-> ->]|[_ Hy]]%Hh; by eapply b_fresh0.
  - intros b. rewrite lookup_insert. case_decide; [subst; split; [by rewrite Hf|done]|apply b_flusher0].
  - intros c b Hb. destruct (b_accs0 _ _ Hb) as (y & Hy & <-). rewrite lookup_insert.
    case_decide; [subst b; simplify_eq; eexists; split; [done|congruence]|by eauto].
  - intros c e b [_ He]%Hwk Hb. rewrite lookup_insert. case_decide; [done|by eapply b_worker0].
  - intros b y g [[-> ->]|[Hne Hy]]%Hh Hg; [by simplify_eq|by eapply b_acc0].
  - intros Hc. destruct (b_calm0 Hc) as [c1 c2 c3 c4]. pose proof (c3 _ _ Hd) as Hacc. cbn in Hacc.
    destruct (b_accs0 _ _ Hacc) as (y & Hy & Hych). simplify_eq.
    assert (∀ c, c ≠ a_ch x → held (set_worker (put_acc w a x') (a_ch x) None) c = held w c) as Hheld.
    { intros c Hne. unfold held. cbn. destruct (w_accs w !! c) as [b|] eqn:Hb; [|done].
      rewrite lookup_insert_ne; [done|]. intros <-. destruct (b_accs0 _ _ Hb) as (y & ? & ?). congruence. }
    split; cbn [w_heap w_accs w_flushers w_workers w_wire w_delivered set_worker put_acc]; try done.
    + intros b y [[-> ->]|[_ Hy']]%Hh; [by rewrite E1|by apply c1].
    + intros c e [Hne He]%Hwk. specialize (c3 _ _ He). destruct e; try done. cbn. by rewrite Hheld.
    + intros c. rewrite <-c4. unfold pending. cbn. destruct (decide (c = a_ch x)) as [->|Hne].
      * rewrite lookup_partial_alter_eq, Hd. unfold held. cbn. rewrite Hacc, lookup_insert_eq, Hx, Hf. cbn.
        by rewrite E2, app_nil_r, <-!app_assoc.
      * rewrite lookup_partial_alter_ne by done. by rewrite Hheld.
Qed.

Lemma inv_start w ch pub d :
  inv w → w_workers w !! ch = None → worker_pub d = pub →
  (∀ a, worker_acc d = Some a → is_Some (w_heap w !! a)) → (w_calm w = true → worker_ok w ch d) →
  inv (start w ch pub d).
Proof.
  intros [] Hn Hp Ha Hok.
  assert (∀ c e, partial_alter (λ _, Some d) ch (w_workers w) !! c = Some e →
    (c = ch ∧ e = d) ∨ c ≠ ch ∧ w_workers w !! c = Some e) as Hw.
  { intros c e. destruct (decide (c = ch)) as [->|Hne]; [rewrite lookup_partial_alter_eq; intros [= ->]; by left|].
    rewrite lookup_partial_alter_ne by done. by right. }
  split; cbn; try done.
  - intros c e a [[-> ->]|[_ He]]%Hw Hea; [by apply Ha|by eapply b_worker0].
  - intros Hc. destruct (b_calm0 Hc) as [c1 c2 c3 c4]. split; cbn; try done.
    + intros c e [[-> ->]|[_ He]]%Hw; [specialize (Hok Hc); by destruct d|]. specialize (c3 _ _ He). by destruct e.
    + intros c. change [(ch, pub)] with (pair ch <$> [pub]). rewrite of_ch_app, of_ch_pairs.
      rewrite (logged_app (of_ch c (w_delivered w))), <-c4, <-logged_app. unfold pending, held. cbn. destruct (decide (c = ch)) as [->|Hne].
      * rewrite lookup_partial_alter_eq, Hn, bool_decide_eq_true_2 by done. rewrite Hp, app_nil_r.
        by rewrite <-!app_assoc.
      * by rewrite lookup_partial_alter_ne, bool_decide_eq_false_2, app_nil_r by done.
Qed.

Lemma inv_accumulatorFor w ch :
  inv w → let '(a, w') := accumulatorFor w ch in
  inv w' ∧ w_workers w' = w_workers w ∧ w_accs w' !! ch = Some a ∧ is_Some (w_heap w' !! a).
Proof.
  intros Hi. unfold accumulatorFor. destruct (w_accs w !! ch) as [a|] eqn:Ha.
  { destruct (b_accs _ Hi _ _ Ha) as (x & Hx & _). by rewrite Hx. }
  pose proof Hi as []. cbn. rewrite !lookup_insert_eq. split; [|done].
  assert (w_heap w !! w_next w = None) as Hnone.
  { apply eq_None_not_Some. intros [x Hx%b_fresh0]. lia. }
  assert (w_flushers w !! w_next w = None) as Hnf.
  { apply eq_None_not_Some. intros Hs%b_flusher0. rewrite Hnone in Hs. by destruct Hs. }
  set (w' := mkWorld _ _ _ _ _ _ _ _ _). assert (∀ c, held w' c = held w c) as Hheld.
  { intros c. unfold held, w'. cbn. rewrite lookup_insert. case_decide as E.
    - subst c. rewrite !lookup_insert_eq, Ha. done.
    - destruct (w_accs w !! c) as [b|] eqn:Hb; [|done].
      destruct (b_accs0 _ _ Hb) as (y & Hy & _). rewrite !lookup_insert_ne by congruence. done. }
  split; subst w'; cbn.
  - intros b y. rewrite lookup_insert. case_decide; [subst; lia|]. intros Hy%b_fresh0. lia.
  - intros b. rewrite !lookup_insert. case_decide; [by split|apply b_flusher0].
  - intros c b. rewrite !lookup_insert. case_decide; [intros [= <-]; subst; rewrite decide_True by done; by eauto|].
    intros Hb. destruct (b_accs0 _ _ Hb) as (y & Hy & Hc). rewrite decide_False by congruence. eauto.
  - intros c d b Hd Hb. rewrite lookup_insert. case_decide; [done|by eapply b_worker0].
  - intros b y g. rewrite !lookup_insert. case_decide; [intros [= <-] [= <-]|by apply b_acc0].
    split; cbn; done || apply within_nil.
  - intros Hc. destruct (b_calm0 Hc) as [c1 c2 c3 c4]. split; cbn.
    + intros b y. rewrite lookup_insert. case_decide; [intros [= <-]; subst; cbn; by rewrite lookup_insert_eq|].
      intros Hy. destruct (c1 _ _ Hy) as [Hy' ?]. split; [|done]. rewrite lookup_insert_ne; [done|]. congruence.
    + intros b g. rewrite lookup_insert. case_decide; [by intros [= <-]|by apply c2].
    + intros c d Hd. specialize (c3 _ _ Hd). destruct d; cbn in *; try (rewrite lookup_insert_ne; [done|congruence]).
      intros Hz. rewrite Hheld. by apply c3.
    + intros c. rewrite Hheld. apply c4.
Qed.

Lemma inv_Deliver w ch pub enabled many :
  inv w → w_workers w !! ch = None → inv (Deliver w ch pub enabled many).
Proof.
  intros Hi Hn. unfold Deliver. destruct (Z.eqb_spec (Offset pub) 0); [apply inv_start; try done; by intros _ ?|].
  pose proof (inv_not_calm _ Hi) as Hi'.
  destruct enabled; cbn [negb]; [|by apply inv_start]. destruct many; cbn [negb]; [|by apply inv_start].
  destruct (_ <? _)%Z.
  - destruct (w_accs w !! ch) as [a|] eqn:Ha; apply inv_start; try done.
    + intros a' [= <-]. destruct (b_accs _ Hi _ _ Ha) as (x & Hx & _). by rewrite Hx.
    + intros _ _. unfold held. by rewrite Ha.
  - pose proof (inv_accumulatorFor w ch Hi) as Hacc. destruct (accumulatorFor w ch) as [a w'].
    destruct Hacc as (Hi1 & Hw & Hacc & Hh). apply inv_start; try done; [by rewrite Hw|]. by intros a' [= <-].
Qed.

Lemma inv_worker_step w ch w' : inv w → worker_step w ch = Some w' → inv w'.
Proof.
  intros Hi (d & Hd & Hs)%bind_Some. destruct d as [a pub|a pub|a pub|pub].
  - apply bind_Some in Hs as (x & Hx & Hs). by eapply inv_append.
  - apply bind_Some in Hs as (x & Hx & [= <-]). destruct (proj1 (b_flusher _ Hi a)) as [f Hf]; [by eexists|].
    unfold request_flush. rewrite (put_acc_set _ _ _ f) by done.
    assert (inv (set_acc w a (mkAcc (a_ch x) (a_buf x) (a_bytes x) (a_inFlight x) (a_closed x) (a_notify x) true) f)) as Hi'.
    { eapply inv_acc_silent; [done..|by apply acc_ok_signals, (b_acc _ Hi a)|]. intros Hc.
      destruct (b_calm _ Hi Hc) as [c1 c2 _ _]. split; [apply (c1 _ _ Hx)|]. split; [exact (c2 _ _ Hf)|done]. }
    rewrite <-(send_nil (set_acc _ _ _ _) ch). eapply inv_worker; [done|exact Hd| |done]. intros e [= <-].
    split; [done|]. split; [done|]. split; [intros b [= <-]; cbn; by rewrite lookup_insert_eq|].
    intros Hc. by apply (c_worker _ (b_calm _ Hi Hc) _ _ Hd).
  - apply bind_Some in Hs as (x & Hx & Hs). destruct (drained x) eqn:Hdr; [|done]. injection Hs as <-.
    rewrite <-(send_nil w ch). eapply inv_worker; [done..| |done]. intros e [= <-].
    split; [done|]. split; [done|]. split; [done|]. intros Hc _.
    destruct (b_calm _ Hi Hc) as [c1 c2 c3 _]. pose proof (c3 _ _ Hd) as Hacc. cbn in Hacc.
    unfold held. rewrite Hacc, Hx. destruct (c1 _ _ Hx) as [_ Hcl]. unfold drained in Hdr. rewrite Hcl in Hdr.
    destruct (proj1 (b_flusher _ Hi a)) as [f Hf]; [by eexists|]. rewrite Hf. cbn in *.
    apply andb_prop in Hdr as [Hb Hfl]. apply bool_decide_eq_true in Hb as ->. apply Z.leb_le in Hfl. pose proof (k_inFlight _ _ (b_acc _ Hi _ _ _ Hx Hf)) as Hin.
    rewrite Hin in Hfl. by destruct f.
  - injection Hs as <-. eapply inv_worker; [done..|]. intros _. split; [done|].
    intros Hc. by apply (c_worker _ (b_calm _ Hi Hc) _ _ Hd).
Qed.

Lemma serving_stop f : serving f = true →
  match f with FFlush stop | FBroadcast _ stop | FFinish stop => stop = false | FSelect => True | _ => False end.
Proof. destruct f as [|[]|? []|[]| | | |]; done. Qed.

Lemma inv_select w a x k w' :
  inv w → w_heap w !! a = Some x → w_flushers w !! a = Some FSelect → select w a x k = Some w' → inv w'.
Proof.
  intros Hi Hx Hf Hs. pose proof (b_acc _ Hi _ _ _ Hx Hf) as Hok.
  assert (∀ f, busy f = false → in_flight f = [] → f ≠ FUnregister → f ≠ FExit → acc_ok x f) as Hpc.
  { intros f Hb Hfl H1 H2. destruct Hok as [k1 k2 k3 k4 k5]. split; rewrite ?Hb, ?Hfl; done. }
  assert (w_calm w = true → a_closed x = false) as Hcl.
  { intros Hc. apply (c_one _ (b_calm _ Hi Hc) _ _ Hx). }
  destruct k; cbn [select] in Hs.
  - destruct (w_done w); [|done]. injection Hs as <-.
    eapply inv_acc_silent; [by apply inv_not_calm|done..|by apply Hpc|done].
  - destruct (a_flushNow x); [|done]. injection Hs as <-.
    eapply inv_acc_silent; [done..|by apply acc_ok_signals, Hpc|]. intros Hc. by split; [apply Hcl|].
  - destruct (a_notify x); [|done]. injection Hs as <-. destruct (thresholdReached x);
      (eapply inv_acc_silent; [done..|by apply acc_ok_signals, Hpc|]); intros Hc; by split; [apply Hcl|].
  - case_bool_decide; injection Hs as <-.
    + eapply inv_acc_silent; [by apply inv_not_calm|done..|by apply Hpc|done].
    + eapply inv_acc_silent; [done..|by apply Hpc|]. intros Hc. by split; [apply Hcl|].
Qed.

Lemma inv_flush w a x stop :
  inv w → w_heap w !! a = Some x → w_flushers w !! a = Some (FFlush stop) → inv (flush w a x stop).
Proof.
  intros Hi Hx Hf. pose proof (b_acc _ Hi _ _ _ Hx Hf) as [k1 k2 k3 k4 k5]. cbn in k4.
  assert (w_calm w = true → a_closed x = false ∧ stop = false) as Hcl.
  { intros Hc. destruct (b_calm _ Hi Hc) as [c1 c2 _ _]. split; [apply (c1 _ _ Hx)|]. exact (serving_stop _ (c2 _ _ Hf)). }
  unfold flush. case_bool_decide as Hb.
  - eapply inv_acc_silent; [done..| |intros Hc; destruct (Hcl Hc) as [? ->]; done].
    split; try done; destruct stop; done || apply within_nil.
  - eapply inv_acc_silent; [done..| |].
    + split; cbn; [apply within_nil|done|done|lia|done].
    + intros Hc. destruct (Hcl Hc) as [? ->]. cbn. by rewrite app_nil_r.
Qed.

Lemma inv_flusher_step w a k w' : inv w → flusher_step w a k = Some w' → inv w'.
Proof.
  intros Hi (x & Hx & (f & Hf & Hs)%bind_Some)%bind_Some. pose proof (b_acc _ Hi _ _ _ Hx Hf) as Hok.
  assert (w_calm w = true → a_closed x = false ∧ serving f = true) as Hcl.
  { intros Hc. destruct (b_calm _ Hi Hc) as [c1 c2 _ _]. split; [apply (c1 _ _ Hx)|exact (c2 _ _ Hf)]. }
  destruct Hok as [k1 k2 k3 k4 k5]. destruct f as [|stop|buf stop|stop| | | |]; cbn in k4; try done.
  - by eapply inv_select.
  - injection Hs as <-. by apply inv_flush.
  - injection Hs as <-. eapply inv_acc; [done..| |].
    + split; cbn; [done|apply within_nil|done|done|done].
    + intros Hc. destruct (Hcl Hc) as [? Hse]. split; [done|]. split; [|done]. by destruct stop.
  - injection Hs as <-. eapply inv_acc_silent; [done..| |].
    + split; cbn; try done; destruct stop; cbn; apply within_nil || lia || done.
    + intros Hc. destruct (Hcl Hc) as [? Hse]. cbn. by destruct stop.
  - injection Hs as <-. eapply inv_acc_silent; [done..| |intros Hc; by destruct (Hcl Hc)].
    split; cbn; done || apply within_nil.
  - injection Hs as <-. assert (inv (removeAccumulator w (a_ch x) a)) as Hi'.
    { unfold removeAccumulator. case_bool_decide; [|done]. destruct Hi. split; cbn; try done.
      - intros ch b Hb. apply lookup_delete_Some in Hb as [_ Hb]. by apply b_accs0.
      - intros Hc. by destruct (Hcl Hc). }
    eapply inv_acc_silent; [done|..]; try (unfold removeAccumulator; by case_bool_decide); [done|..].
    + split; cbn; [done|apply within_nil|done|done|]. intros Hc. by destruct (k5 Hc).
    + intros Hc. assert (w_calm w = true) as Hc' by (revert Hc; unfold removeAccumulator; by case_bool_decide).
      by destruct (Hcl Hc').
  - injection Hs as <-. eapply inv_acc_silent; [done..| |intros Hc; by destruct (Hcl Hc)].
    split; cbn; done || apply within_nil.
Qed.

Lemma batcher_step w w' : inv w → step w w' → inv w'.
Proof.
  intros Hi [l Hl]. destruct l as [ch pub enabled many|ch|a k|]; cbn [exec_label] in Hl.
  - destruct (w_workers w !! ch) eqn:Hw; [done|]. injection Hl as <-. by apply inv_Deliver.
  - by eapply inv_worker_step.
  - by eapply inv_flusher_step.
  - injection Hl as <-. destruct Hi. split; cbn; try done. intros Hc. destruct (b_calm0 Hc) as [c1 c2 c3 c4].
    by split.
Qed.

Lemma batcher_inv w : reachable w → inv w.
Proof.
  intros Hr. assert (inv world0) as H0.
  { split; cbn; try done. intros a. split; by intros [? ?]. }
  revert H0. unfold reachable in Hr. induction Hr; [done|]. intros. apply IHHr. by eapply batcher_step.
Qed.

(** C21: the batcher is bounded, ordered and never stuck.  In every interleaving
    of delivery workers and flushers: every buffer and every batch stays within
    MaxMessages and MaxBatchBytes, and a worker that has to wait waits for an
    accumulator whose flusher can act.  As long as no accumulator is reaped or
    shut down and the routing of logged publications does not change, what was
    fanned out, followed by the batch in flight, the buffer and the publication
    in Deliver, is exactly what was delivered, in order (transients aside). *)
Theorem batcher_exact w :
  reachable w →
  (∀ a x, w_heap w !! a = Some x → within (a_buf x) ∧
     ∀ f, w_flushers w !! a = Some f → within (in_flight f)) ∧
  (∀ ch d, w_workers w !! ch = Some d → worker_step w ch = None →
     ∃ a k w', worker_acc d = Some a ∧ flusher_step w a k = Some w') ∧
  (w_calm w = true → ∀ ch,
     logged (of_ch ch (w_wire w) ++ held w ch ++ pending w ch) = logged (of_ch ch (w_delivered w))).
Proof.
  intros Hi%batcher_inv. split; [|split].
  - intros a x Hx. destruct (proj1 (b_flusher _ Hi a)) as [f Hf]; [by eexists|].
    split; [by eapply k_within, (b_acc _ Hi)|]. intros g Hg. by eapply k_flight, (b_acc _ Hi).
  - intros ch d Hd Hb.
    assert (∀ a x, worker_acc d = Some a → w_heap w !! a = Some x → a_closed x = false →
      ∃ a k w', worker_acc d = Some a ∧ flusher_step w a k = Some w') as Hlive.
    { intros a x Ha Hx Hc. destruct (proj1 (b_flusher _ Hi a)) as [f Hf]; [by eexists|].
      destruct (k_alive _ _ (b_acc _ Hi _ _ _ Hx Hf) Hc). exists a, WakeTimer.
      unfold flusher_step. rewrite Hx, Hf. cbn. destruct f; try done; eauto. case_bool_decide; eauto. }
    unfold worker_step in Hb. rewrite Hd in Hb. cbn in Hb.
    destruct (worker_acc d) as [a|] eqn:Ha; [|by destruct d].
    destruct (b_worker _ Hi _ _ _ Hd Ha) as [x Hx]. eapply Hlive; [done..|].
    destruct d; cbn in Ha; simplify_eq; rewrite Hx in Hb; cbn in Hb; try done.
    + unfold append in Hb. by destruct (a_closed x).
    + unfold drained in Hb. by destruct (a_closed x).
  - intros Hc. apply (b_calm _ Hi Hc).
Qed.

Fixpoint exec_labels (ls : list label) (w : world) : option world :=
  match ls with
  | [] => Some w
  | l :: rest => w' ← exec_label l w; exec_labels rest w'
  end.

Lemma batch_run_reachable ls : ∀ w w', exec_labels ls w = Some w' → rtc step w w'.
Proof.
  induction ls as [|l ls IH]; intros w w'; simpl; [intros [= <-]; done|].
  intros (w1 & Hl & Hrest)%bind_Some. eapply rtc_l; [by exists l|]. by apply IH.
Qed.

End Batching.

(** ** Concrete runs *)

Definition settings0 : BatchingSettings := mkSettings 3 10.

Definition run (ls : list label) : option world := exec_labels settings0 ls world0.

Definition p_ (payload : string) (offset : Z) : Publication :=
  mkPub "" payload PayloadKindText "" "" ∅ offset 0 0 "" 0 0.

Definition send_ (payload : string) (offset : Z) : list label :=
  [LDeliver "c" (p_ payload offset) true true; LWorker "c"].

(** Two buffered publications, then one that is larger than a batch. *)
Definition oversize_run : list label :=
  send_ "a" 1 ++ send_ "b" 2 ++ send_ "cccccccccccc" 3 ++
  [LFlusher 1 WakeFlushNow; LFlusher 1 WakeFlushNow; LFlusher 1 WakeFlushNow; LFlusher 1 WakeFlushNow;
   LWorker "c"; LWorker "c"] ++ send_ "d" 4.

Lemma batcher_exact_witness :
  ∃ w, run oversize_run = Some w ∧ w_calm w = true ∧ (Payload ∘ snd) <$> w_wire w = ["a"; "b"; "cccccccccccc"] ∧
    logged (of_ch "c" (w_wire w) ++ held w "c" ++ pending w "c") = logged (of_ch "c" (w_delivered w)).
Proof.
  destruct (run oversize_run) as [w|] eqn:Hw; [|vm_compute in Hw; discriminate Hw].
  pose proof (batch_run_reachable settings0 _ _ _ Hw) as Hr.
  assert (w_calm w = true ∧ (Payload ∘ snd) <$> w_wire w = ["a"; "b"; "cccccccccccc"]) as [Hc Hp].
  { vm_compute in Hw. injection Hw as <-. vm_compute. split; reflexivity. }
  destruct (batcher_exact settings0 w Hr) as (_ & _ & Ho).
  exists w. split; [reflexivity|]. split; [exact Hc|]. split; [exact Hp|]. exact (Ho Hc "c").
Defined.

(** The subscriber count drops below the threshold while a publication is buffered. *)
Definition threshold_run : list label :=
  send_ "a" 1 ++ [LDeliver "c" (p_ "b" 2) true false; LWorker "c"] ++
  [LFlusher 1 WakeTimer; LFlusher 1 WakeTimer; LFlusher 1 WakeTimer; LFlusher 1 WakeTimer].

(** A publication is appended between the flusher's idle check and the reap. *)
Definition reap_run : list label :=
  send_ "a" 1 ++ [LFlusher 1 WakeTimer; LFlusher 1 WakeTimer; LFlusher 1 WakeTimer; LFlusher 1 WakeTimer;
                  LFlusher 1 WakeTimer] ++
  send_ "b" 2 ++ [LFlusher 1 WakeTimer; LFlusher 1 WakeTimer].

(** Two schedules break the batcher's promise never to drop or reorder.
    (1) When the subscriber count falls below MinSubscribers (or the policy
    turns batching off) while publications are buffered, the next one is fanned
    out before them.  (2) A publication appended between the flusher's idle
    check and its reap stays in an accumulator that is closed, unregistered and
    without a flusher: it is never fanned out. *)
Theorem batcher_faults :
  (∃ w, run threshold_run = Some w ∧
     (λ e, (Payload e.2, Offset e.2)) <$> w_wire w = [("b", 2%Z); ("a", 1%Z)]) ∧
  (∃ w x, run reap_run = Some w ∧ (Payload ∘ snd) <$> w_delivered w = ["a"; "b"] ∧
     (Payload ∘ snd) <$> w_wire w = ["a"] ∧ w_workers w !! "c" = None ∧ w_accs w !! "c" = None ∧
     w_heap w !! 1%positive = Some x ∧ Payload <$> a_buf x = ["b"] ∧ a_closed x = true ∧
     ∀ k, flusher_step settings0 w 1 k = None).
Proof.
  split.
  - eexists. split; vm_compute; reflexivity.
  - eexists _, _. split; [vm_compute; reflexivity|]. do 7 (split; [vm_compute; reflexivity|]).
    intros k. vm_compute. reflexivity.
Qed.

End Batcher.
