(* ===== verification/Effect.v ===== *)
(** * Effect: programs that call their environment

    A handler of the server is sequential code that calls other components
    (the hub, the authorizer, a backend proxy, the transport) and branches on
    what they answer.  [prog] is that code as a tree: a returned value, or a
    call with one continuation per answer.  The answers are the environment's,
    so a property of every [run] holds whatever the other components and the
    other goroutines do.  [wp] is the calculus the handlers are verified in: a
    guard on every call, given the calls and answers before it, and a
    postcondition.  [exec] runs a program against an environment given as a
    function. *)

From S2P Require Import Prelude.

Module Effect.

Section Effect.
Context {E : Type} {R : E → Type}.

Inductive prog (A : Type) : Type :=
| Ret (a : A)
| Call (e : E) (k : R e → prog A).
Arguments Ret {A} a.
Arguments Call {A} e k.

#[global] Instance prog_ret : MRet prog := @Ret.

#[global] Instance prog_bind : MBind prog := λ A B f,
  fix bind p := match p with Ret a => f a | Call e k => Call e (λ x, bind (k x)) end.

(** A call and its answer. *)
Record event := Event { ev_call : E; ev_answer : R ev_call }.

Definition call (e : E) : prog (R e) := Call e Ret.

(** A [for] loop over a slice: the body continues with a new state or returns
    from the function. *)
Inductive flow (B C : Type) : Type := Next (b : B) | Return (c : C).

Fixpoint loop {X B C} (f : B → X → prog (flow B C)) (b : B) (l : list X) : prog (flow B C) :=
  match l with
  | [] => Ret (Next _ _ b)
  | x :: l' =>
      r ← f b x;
      match r with Next _ _ b' => loop f b' l' | Return _ _ c => Ret (Return _ _ c) end
  end.

(** A loop without a return. *)
Fixpoint for_each {X B} (f : B → X → prog B) (b : B) (l : list X) : prog B :=
  match l with [] => Ret b | x :: l' => b' ← f b x; for_each f b' l' end.

(** ** Runs *)

Inductive run {A} : prog A → list event → A → Prop :=
| run_ret a : run (Ret a) [] a
| run_call e k x tr a : run (k x) tr a → run (Call e k) (Event e x :: tr) a.

(** The run against an environment with a state [S]. *)
Fixpoint exec {A S} (env : ∀ e, S → R e * S) (p : prog A) (s : S) : list event * A * S :=
  match p with
  | Ret a => ([], a, s)
  | Call e k =>
      let '(x, s') := env e s in
      let '(tr, a, s'') := exec env (k x) s' in
      (Event e x :: tr, a, s'')
  end.

Lemma exec_run {A S} (env : ∀ e, S → R e * S) (p : prog A) s :
  run p (exec env p s).1.1 (exec env p s).1.2.
Proof.
  revert s. induction p as [a|e k IH]; intros s; simpl; [constructor|].
  destruct (env e s) as [x s']. specialize (IH x s').
  destruct (exec env (k x) s') as [[tr a] s'']. by constructor.
Qed.

Lemma exec_bind {A B S} (env : ∀ e, S → R e * S) (p : prog A) (f : A → prog B) s :
  exec env (p ≫= f) s =
  let '(tr, a, s') := exec env p s in
  let '(tr', b, s'') := exec env (f a) s' in (tr ++ tr', b, s'').
Proof.
  revert s. induction p as [a|e k IH]; intros s; simpl; [by destruct (exec env (f a) s) as [[]]|].
  destruct (env e s) as [x s']. rewrite IH. destruct (exec env (k x) s') as [[tr a] s'']. simpl.
  by destruct (exec env (f a) s'') as [[]].
Qed.

(** ** The calculus *)

(** [h] is the history so far, newest first; every call of [p] satisfies the
    guard [G] at its history, and [p] ends in [Q]. *)
Fixpoint wp {A} (G : list event → E → Prop) (h : list event) (p : prog A)
    (Q : list event → A → Prop) : Prop :=
  match p with
  | Ret a => Q h a
  | Call e k => G h e ∧ ∀ x, wp G (Event e x :: h) (k x) Q
  end.

Lemma wp_mono {A} G h (p : prog A) (Q Q' : list event → A → Prop) :
  wp G h p Q → (∀ d a, Q (d ++ h) a → Q' (d ++ h) a) → wp G h p Q'.
Proof.
  revert h. induction p as [a|e k IH]; intros h; simpl; [intros Hq Hm; by apply (Hm [])|].
  intros [Hg Hk] Hm. split; [done|]. intros x. apply IH; [done|]. intros d a.
  specialize (Hm (d ++ [Event e x]) a). by rewrite <-app_assoc in Hm.
Qed.

Lemma wp_guard_mono {A} (G G' : list event → E → Prop) h (p : prog A) Q :
  wp G h p Q → (∀ d e, G (d ++ h) e → G' (d ++ h) e) → wp G' h p Q.
Proof.
  revert h. induction p as [a|e k IH]; intros h; simpl; [done|].
  intros [Hg Hk] Hm. split; [by apply (Hm [])|]. intros x. apply IH; [done|]. intros d e'.
  specialize (Hm (d ++ [Event e x]) e'). by rewrite <-app_assoc in Hm.
Qed.

Lemma wp_guard_and {A} (G G' : list event → E → Prop) h (p : prog A) Q :
  wp G h p Q → wp G' h p Q → wp (λ h e, G h e ∧ G' h e) h p Q.
Proof.
  revert h. induction p as [a|e k IH]; intros h; simpl; [done|].
  intros [Hg Hk] [Hg' Hk']. split; [done|]. intros x. by apply IH.
Qed.

Lemma wp_bind {A B} G h (p : prog A) (f : A → prog B) Q :
  wp G h p (λ h' a, wp G h' (f a) Q) → wp G h (p ≫= f) Q.
Proof.
  revert h. induction p as [a|e k IH]; intros h; simpl; [done|].
  intros [Hg Hk]. split; [done|]. intros x. apply IH, Hk.
Qed.

Lemma wp_call {A} G h e (f : R e → prog A) Q :
  G h e → (∀ x, wp G (Event e x :: h) (f x) Q) → wp G h (call e ≫= f) Q.
Proof. by split. Qed.

Lemma wp_ret {A} G h (a : A) Q : Q h a → wp G h (mret a) Q.
Proof. done. Qed.

Lemma wp_call_tail G h e (Q : list event → R e → Prop) :
  G h e → (∀ x, Q (Event e x :: h) x) → wp G h (call e) Q.
Proof. by split. Qed.

Lemma wp_loop {X B C} G (f : B → X → prog (flow B C)) (I : list event → B → Prop)
    (Q : list event → flow B C → Prop) l :
  (∀ h b, I h b → Q h (Next _ _ b)) →
  (∀ h b x, x ∈ l → I h b →
     wp G h (f b x) (λ h' r, match r with Next _ _ b' => I h' b' | Return _ _ c => Q h' (Return _ _ c) end)) →
  ∀ h b, I h b → wp G h (loop f b l) Q.
Proof.
  intros Hend Hbody. induction l as [|x l IH]; intros h b Hi; simpl; [by apply Hend|].
  apply wp_bind. eapply wp_mono; [apply Hbody; [left|done]|]. intros d [b'|c] Hr; simpl; [|done].
  apply IH; [|done]. intros h' b'' y Hy. apply Hbody. by right.
Qed.

Lemma wp_for_each {X B} G (f : B → X → prog B) (I : list event → B → Prop) l :
  (∀ h b x, x ∈ l → I h b → wp G h (f b x) I) →
  ∀ h b, I h b → wp G h (for_each f b l) I.
Proof.
  intros Hbody. induction l as [|x l IH]; intros h b Hi; simpl; [done|].
  apply wp_bind. eapply wp_mono; [apply Hbody; [left|done]|]. intros d b' Hr.
  apply IH; [|done]. intros h' b'' y Hy. apply Hbody. by right.
Qed.

(** A loop whose body is not gated. *)
Lemma wp_for_each_free {X B} G (f : B → X → prog B) l b h Q :
  (∀ h b x, wp G h (f b x) (λ _ _, True)) → (∀ d a, Q (d ++ h) a) →
  wp G h (for_each f b l) Q.
Proof.
  intros Hf HQ. eapply wp_mono; [apply (wp_for_each _ _ (λ _ _, True)); [|done]|intros; apply HQ].
  intros h' b' x _ _. apply Hf.
Qed.

(** A history is only extended. *)
Lemma wp_grows {A} G h (p : prog A) Q :
  wp G h p Q → wp G h p (λ h' a, (∃ d, h' = d ++ h) ∧ Q h' a).
Proof. intros Hw. eapply wp_mono; [exact Hw|]. intros d a Hq. split; [by exists d|done]. Qed.

(** ** From the calculus to runs *)

Lemma wp_run {A} G h (p : prog A) Q tr a :
  wp G h p Q → run p tr a →
  Q (rev tr ++ h) a ∧
  ∀ pre e x post, tr = pre ++ Event e x :: post → G (rev pre ++ h) e.
Proof.
  intros Hw Hr. revert h Hw. induction Hr as [a|e k x tr a Hr IH]; intros h; simpl.
  - intros Hq. split; [done|]. by intros [|??] ??? Heq.
  - intros [Hg Hk]. destruct (IH _ (Hk x)) as [Hq Hpre]. rewrite <-app_assoc. split; [done|].
    intros [|ev pre] e' x' post Heq; simpl in Heq.
    + apply (f_equal head) in Heq. simpl in Heq. apply (f_equal (fmap ev_call)) in Heq. simpl in Heq.
      by injection Heq as <-.
    + simpl. rewrite <-app_assoc. pose proof (f_equal head Heq) as Hev. simpl in Hev.
      assert (ev = Event e x) as -> by congruence.
      apply (Hpre pre e' x' post). apply (f_equal tail) in Heq. done.
Qed.

Lemma wp_run_post {A} G (p : prog A) Q tr a : wp G [] p Q → run p tr a → Q (rev tr) a.
Proof. intros Hw Hr. destruct (wp_run _ _ _ _ _ _ Hw Hr) as [Hq _]. by rewrite app_nil_r in Hq. Qed.

Lemma wp_run_guard {A} G (p : prog A) Q tr a pre e x post :
  wp G [] p Q → run p tr a → tr = pre ++ Event e x :: post → G (rev pre) e.
Proof.
  intros Hw Hr Heq. destruct (wp_run _ _ _ _ _ _ Hw Hr) as [_ Hg].
  specialize (Hg _ _ _ _ Heq). by rewrite app_nil_r in Hg.
Qed.

End Effect.

#[global] Arguments prog {E} R A.
#[global] Arguments event {E} R.
#[global] Arguments Next {B C} b.
#[global] Arguments Return {B C} c.
#[global] Arguments Ret {E R A} a.
#[global] Arguments Call {E R A} e k.

(** One step of the program at the head of the goal: a call leaves its guard
    as a goal, a branch splits.  Sub-programs are left to the caller. *)
Ltac prog_step :=
  lazymatch goal with
  | |- wp _ _ (mret _) _ => apply wp_ret; cbn beta
  | |- wp _ _ (Ret _) _ => apply wp_ret; cbn beta
  | |- wp ?G ?h (call ?e ≫= ?f) ?Q => apply (wp_call G h e f Q); [|intro]
  | |- wp ?G ?h (call ?e) ?Q => apply (wp_call_tail G h e Q); [|intro]
  | |- wp _ _ (_ ≫= _) _ => apply wp_bind
  | |- wp _ _ (match ?x with _ => _ end) _ => destruct x eqn:?
  | |- wp _ _ (let _ := _ in _) _ => cbv zeta
  end.

End Effect.
