(* ===== verification/Handlers.v ===== *)
(** * Handlers: a session's inbound messages (internal/session/client.go, namespace.go)

    Every handler of the read loop is a program ([Effect.prog]) over the calls
    it makes: replies to the client, the hub, the authorizer, the backend
    proxies, the broker, presence, surveys and the cluster directory.  What
    those calls answer is up to the environment; the authorizer's table is read
    with [LoadAuthorizer] and evaluated with [Authz.Decide].  Logging and
    metrics are left out; a formatted message is kept as the list of its parts,
    since [%q] and [%v] do not matter to any property. *)

From stdpp Require Import sorting.
From S2P Require Import Prelude Topics Interest Policy Authz Stream Directory Lease Recover Effect.
Import Topics Interest Policy Authz Stream Effect.

Module Handlers.

Abbreviation ClusterSessionSnapshot := Directory.ClusterSessionSnapshot.
Abbreviation ClusterSubscriptionSnapshot := Directory.ClusterSubscriptionSnapshot.

(** ** Errors and messages *)

Record Disconnect := mkDisconnect { d_Code : Z; d_Reason : string }.

Definition DisconnectConnectionClosed := mkDisconnect 3000 "connection closed".
Definition DisconnectInvalidToken := mkDisconnect 3500 "invalid token".
Definition DisconnectBadRequest := mkDisconnect 3501 "bad request".
Definition DisconnectStale := mkDisconnect 3502 "stale".
Definition DisconnectChannelLimit := mkDisconnect 3505 "channel limit".
Definition DisconnectInternal := mkDisconnect 3513 "internal error".
Definition DisconnectUnsupportedVersion := mkDisconnect 3514 "unsupported version".

(** The sentinels [errors.Is] looks for. *)
Inductive sentinel :=
| IsPatternNotRoutable | IsBadTopic | IsDeadlineExceeded | IsNoProxyFound | IsSessionFenced.

#[export] Instance sentinel_eq_dec : EqDecision sentinel.
Proof. solve_decision. Defined.

(** A Go error: a [Disconnect], or any other with the sentinel it wraps. *)
Inductive goerror := EDisconnect (d : Disconnect) | EError (wraps : option sentinel) (msg : string).

(** What a Go function with a single [error] result returns. *)
Abbreviation error := (option goerror).

Definition errors_Is (e : goerror) (s : sentinel) : bool :=
  match e with EError (Some s') _ => bool_decide (s' = s) | _ => false end.

Definition Error (e : goerror) : string :=
  match e with
  | EDisconnect d => "code: " +:+ pretty (d_Code d) +:+ ", reason: " +:+ d_Reason d
  | EError _ msg => msg
  end.

Inductive part :=
| Txt (s : string)
| Quoted (s : string)
| InterestV (e : InterestError)
| DurationV (d : Z).

(** sharedv2.Error. *)
Record SharedError := mkErr {
  er_Code : string;
  er_Type : string;
  er_Message : list part;
  er_Metadata : list (string * string);
}.

Definition err (code typ : string) (msg : list part) : SharedError := mkErr code typ msg [].

(** clientpb.Subscription. *)
Record Subscription := mkSubscription {
  sb_Channel : string;
  sb_Ephemeral : bool;
  sb_Token : string;
  sb_Recover : bool;
  sb_Cursor : option (option Z);
  sb_Fresh : bool;
}.

Definition to_recover (s : Subscription) : Recover.Subscription :=
  Recover.mkSub (sb_Channel s) (sb_Recover s) (sb_Fresh s) (sb_Cursor s).

Definition of_recover (s : Recover.Subscription) : Subscription :=
  mkSubscription (Recover.su_Channel s) false "" (Recover.su_Recover s) (Recover.su_Cursor s)
    (Recover.su_Fresh s).

Record PresenceMember := mkMember {
  pm_SessionId : string; pm_UserId : string; pm_ClientId : string; pm_ConnectedAt : Z }.

Record PresenceSnapshot := mkPresence {
  ps_Channel : string; ps_Clients : list PresenceMember; ps_Truncated : bool; ps_Occupancy : Z }.

Record SurveyAnswer := mkAnswer {
  an_SessionID : string; an_Payload : string; an_Error : option SharedError }.

Record ClientSurveyResult := mkSurveyResult {
  sr_RequestId : string; sr_Channel : string; sr_Answers : list SurveyAnswer }.

(** survey.SurveyResult. *)
Record SurveyResponse := mkResponse {
  rs_SessionID : string; rs_NodeID : string; rs_IncarnationID : string;
  rs_Payload : string; rs_Error : error }.

Section Handlers.
Context {J : Type} (marshal : J → option string).

Record Connect := mkConnect {
  cn_ClientId : string;
  cn_ClientType : string;
  cn_Token : string;
  cn_Version : string;
  cn_Subscriptions : list Subscription;
  cn_SessionId : string;
  cn_Caps : list string;
}.

Record PublishMsg := mkPublish {
  pb_Channel : string;
  pb_Payload : option (PayloadV2 J);
  pb_Metadata : option (gmap string string);
  pb_Token : string;
  pb_Transient : bool;
}.

Record RpcRequest := mkRpc {
  rpc_Channel : string;
  rpc_Method : string;
  rpc_Payload : option (PayloadV2 J);
  rpc_Metadata : option (gmap string string);
}.

Record SurveyRequest := mkSurveyRequest {
  sq_RequestId : string;
  sq_Payload : option (PayloadV2 J);
  sq_Channel : string;
  sq_TimeoutMs : Z;
}.

Record SurveyReply := mkSurveyReply {
  sy_RequestId : string;
  sy_Payload : option (PayloadV2 J);
  sy_Error : option SharedError;
}.

(** The oneof of an inbound message; [None] is an unknown or empty envelope. *)
Inductive InEnvelope :=
| InConnect (c : Connect)
| InSubscribe (subs : list Subscription)
| InUnsubscribe (subs : list Subscription)
| InPublish (p : PublishMsg)
| InRpcRequest (r : RpcRequest)
| InSubRefresh (channels : list string)
| InSurveyRequest (r : SurveyRequest)
| InSurveyReply (r : SurveyReply)
| InPing
| InPong
| InPresenceQuery (channel : string).

Record InboundMessage := mkIn {
  in_Id : string; in_Time : Z; in_Envelope : option InEnvelope }.

(** sharedv2.Position: the offset is optional. *)
Record Position := mkPosition { po_StreamEpoch : string; po_Offset : option Z }.

Definition PositionFrom (epoch : string) (offset : Z) (set : bool) : Position :=
  mkPosition epoch (if set then Some offset else None).

Inductive OutEnvelope :=
| OutError (e : SharedError)
| OutConnected (session : string) (subs : list Subscription) (resumed : bool) (epoch : string)
    (caps : list string)
| OutSubscribeAck (subs : list Subscription) (recover : Recover.RecoverState) (epoch : string)
    (presence : list PresenceSnapshot)
| OutUnsubscribeAck (subs : list Subscription)
| OutPublishAck (id : string) (position : Position)
| OutRpcReply (requestId : string) (payload : option (PayloadV2 J)) (meta : gmap string string)
| OutSubRefreshAck
| OutSurveyResult (r : ClientSurveyResult)
| OutPresence (p : PresenceSnapshot)
| OutPong.

Record OutboundMessage := mkOut { out_Id : string; out_Time : Z; out_Envelope : OutEnvelope }.

(** ** The session's identity and what the handlers call *)

Record Sess := mkSess {
  c_client : string;
  c_session : string;
  c_user : string;
  c_namespace : string;
  c_authenticated : bool;
  c_clusterLeaseVersion : Z;
  c_publishLimiter : bool;        (* a limiter is installed *)
}.

(** A configured backend. *)
Definition Proxy := positive.

Record AuthRequest := mkAuthRequest {
  aq_ClientID : string; aq_Token : string; aq_ClientType : string; aq_SessionID : string;
  aq_RemoteAddr : string }.

Record UserInfo := mkUserInfo { ui_ID : string; ui_Namespace : string }.

Record AuthResponse := mkAuthResponse { as_Error : option SharedError; as_UserInfo : option UserInfo }.

(** SubscribeAclProxyRequest and PublishAclProxyRequest. *)
Record AclRequest := mkAcl {
  al_Channel : string; al_Token : string; al_UserID : string; al_SessionID : string }.

Record RPCRequest := mkRPCRequest {
  rq_ID : string; rq_ClientID : string; rq_SessionID : string; rq_UserID : string;
  rq_Channel : string; rq_Method : string; rq_Payload : option (PayloadV2 J);
  rq_Meta : option (gmap string string) }.

Record RPCResponse := mkRPCResponse {
  rr_Payload : option (PayloadV2 J); rr_Meta : gmap string string; rr_Error : option SharedError }.

(** Goroutines the handlers start. *)
Inductive task :=
| PresenceLeaveTask (ch sessionID userID : string) (ephemeral : bool)
| SurveyWorkerTask (requestID ch payload : string) (timeout : Z)
| RefreshPresenceTask
| ClusterSyncTask.

Inductive effect :=
(* time, identifiers, the outbound queue *)
| NowMilli | NowNano | NewUUID
| Send (m : OutboundMessage)
(* the session object *)
| ReadClosed | LifetimeDone | TouchActivity | ReadSubscribed | ReadTransport
| PublishLimiterAllow | SurveyLimiterAllow
| SurveyInFlightCAS | SurveyInFlightClear
| LoadLastSync | CasLastSync (last now : Z)
| Attach | MarkMetricsCharged | CloseSession (d : Disconnect) | CloseFromLoop (d : Disconnect)
| FenceSession (d : Disconnect) | CloseTransport (d : Disconnect)
| Go (t : task) | WaitAll
(* the hub and the node *)
| LookupSession (sid : string)
| PrepareSessionUser (sid ns user : string)
| WriteExisting (existing : Sess)
| TakeoverBy (sid : string)
| RemoveSessionIfMatches (sid : string)
| AddClient (c : Sess)
| AddSubscription (ch : string) (ephemeral : bool)
| RemoveSubscription (ch : string)
| LookupSubscriber (ch : string)
| MatchingSubscribers (ch : string)
| LoadAuthorizer
| PublishStream (ch : string) (pub : Publication)
| PublishTransient (ch : string) (pub : Publication)
| StreamEpoch
| RecoverStateOf (subs : list Subscription)
| StreamRecoveries (subs : list Subscription) (snapshot : option ClusterSessionSnapshot) (path : string)
(* presence and surveys *)
| PresenceJoin (ch : string)
| PresenceLeave (ch sessionID userID : string) (ephemeral : bool)
| PresenceAdd (ch sessionID clientID userID : string)
| PresenceRemove (ch sid : string)
| PresenceSnapshotOf (ch : string)
| CountMatchingSubscribers (ch : string)
| RunSurvey (ch payload : string) (timeout : Z)
| BuildClientSurveyResult (requestID ch : string) (results : list SurveyResponse)
| AddSurveyResponse (sid requestID payload : string) (e : error)
(* backends *)
| FindProxy (channel method : string)
| Authenticate (p : Proxy) (req : AuthRequest)
| SubscribeAcl (p : Proxy) (req : AclRequest)
| PublishAcl (p : Proxy) (req : AclRequest)
| OnConnected (p : Proxy) (sid username : string)
| OnSubscribed (p : Proxy) (sid channel username : string)
| OnUnsubscribed (p : Proxy) (sid channel username : string)
| OnDisconnected (p : Proxy) (sid username : string)
| ProxyRPC (channel method : string) (req : RPCRequest)
(* the cluster *)
| SyncClusterSessionState (c : Sess)
| DeleteClusterSessionState (sid : string)
| ResumeRemoteSession (c : Sess) (sid authUser : string)
| RestoreSessionSubscriptions (subs : list ClusterSubscriptionSnapshot).

(** What each call answers. *)
Definition answer (e : effect) : Type :=
  match e with
  | NowMilli | NowNano | LoadLastSync => Z
  | NewUUID | StreamEpoch => string
  | Send _ | Attach | PrepareSessionUser _ _ _ | TakeoverBy _ | AddClient _ | AddSubscription _ _
  | RemoveSubscription _ | PublishTransient _ _ | SyncClusterSessionState _
  | DeleteClusterSessionState _ => error
  | ReadClosed | LifetimeDone | PublishLimiterAllow | SurveyLimiterAllow | SurveyInFlightCAS
  | CasLastSync _ _ | RemoveSessionIfMatches _ => bool
  | ReadSubscribed => gset string
  | ReadTransport => option string
  | LookupSession _ => option Sess
  | LookupSubscriber _ => option bool
  | MatchingSubscribers _ => Z
  | LoadAuthorizer => Authorizer
  | PublishStream _ _ | CountMatchingSubscribers _ => result goerror Z
  | RecoverStateOf _ => Recover.RecoverState
  | PresenceSnapshotOf _ => PresenceSnapshot
  | RunSurvey _ _ _ => result goerror (list SurveyResponse)
  | BuildClientSurveyResult _ _ _ => ClientSurveyResult
  | FindProxy _ _ => option Proxy
  | Authenticate _ _ => result goerror AuthResponse
  | SubscribeAcl _ _ | PublishAcl _ _ => result goerror (option SharedError)
  | ProxyRPC _ _ _ => result goerror RPCResponse
  | ResumeRemoteSession _ _ _ => result goerror (option Lease.Adopted)
  | RestoreSessionSubscriptions _ => list (string * goerror)
  | _ => unit
  end.

Abbreviation M := (prog answer).

Definition ask (e : effect) : M (answer e) := call e.

(** The node's settings the handlers read. *)
Record Config := mkConfig {
  RequireAuth : bool;
  ServerNamespace : string;
  MaxSubscriptionsPerClient : Z;
  MaxPublishesPerSecond : Z;
  RPCTimeout : Z;
}.

Context (cfg : Config).

(** ** Replies *)

(** A reply echoes the request's id; [None] is a server-initiated push. *)
Definition MakeOutboundMessage (i : option InboundMessage) (body : M OutEnvelope) : M OutboundMessage :=
  match i with
  | Some i =>
      t ← ask NowMilli; env ← body; mret (mkOut (in_Id i) t env)
  | None =>
      id ← ask NewUUID; t ← ask NowMilli; env ← body; mret (mkOut id t env)
  end.

Definition reply_with (i : InboundMessage) (body : M OutEnvelope) : M error :=
  m ← MakeOutboundMessage (Some i) body; ask (Send m).

Definition reply (i : InboundMessage) (env : OutEnvelope) : M error := reply_with i (mret env).

Definition push (env : OutEnvelope) : M error :=
  m ← MakeOutboundMessage None (mret env); ask (Send m).

Definition sendRequestError (i : InboundMessage) (message : string) : M error :=
  reply i (OutError (err "BAD_REQUEST" "request_error" [Txt message])).

Definition sendSurveyError (i : InboundMessage) (code typ : string) (message : list part) : M error :=
  reply i (OutError (err code typ message)).

Definition sendSurveyTopError (code typ : string) (message : list part) : M unit :=
  _ ← push (OutError (err code typ message)); mret tt.

Definition sendNamespaceMismatch (i : InboundMessage) (nsErr : SharedError) : M error :=
  reply i (OutError nsErr).

(** ** Namespace scope (namespace.go) *)

Definition checkNamespace (c : Sess) (channel : string) : option SharedError :=
  if bool_decide (c_namespace c = "") then None
  else match NamespaceOf channel with
       | Ok chNs =>
           if bool_decide (chNs = c_namespace c) then None
           else Some (err "NAMESPACE_MISMATCH" "acl_error"
                        [Txt "channel "; Quoted channel; Txt " is outside the session namespace ";
                         Quoted (c_namespace c)])
       | Err _ =>
           Some (err "NAMESPACE_MISMATCH" "acl_error"
                   [Txt "channel "; Quoted channel; Txt " is outside the session namespace ";
                    Quoted (c_namespace c)])
       end.

Definition namespaceRequiredError : SharedError :=
  err "NAMESPACE_REQUIRED" "auth_error"
    [Txt "no namespace resolved: the authentication response carries no namespace and no static server.namespace is configured"].

Definition precheckChannel (c : Sess) (channel : string) : option SharedError :=
  if bool_decide (channel = "") then None else checkNamespace c channel.

Definition precheckExactChannel (c : Sess) (channel : string) : option SharedError :=
  if bool_decide (channel = "") || IsWildcard channel then None else checkNamespace c channel.

(** The Subscribe loop: the kept subscriptions and whether any was dropped. *)
Definition precheck_subscribe (c : Sess) (i : InboundMessage) (subs : list Subscription)
    : M (flow (bool * list Subscription) goerror) :=
  loop (λ '(filtered, kept) sub,
    match precheckChannel c (sb_Channel sub) with
    | None => mret (Next (filtered, kept ++ [sub]))
    | Some nsErr =>
        e ← sendNamespaceMismatch i nsErr;
        match e with
        | Some e => mret (Return e)
        | None => mret (Next (true, kept))
        end
    end) (false, []) subs.

(** The first channel of an Unsubscribe or SubRefresh outside the namespace. *)
Fixpoint first_mismatch (c : Sess) (channels : list string) : option SharedError :=
  match channels with
  | [] => None
  | ch :: rest =>
      match precheckChannel c ch with Some nsErr => Some nsErr | None => first_mismatch c rest end
  end.

(** [Ok (Some in)]: dispatch [in]; [Ok None]: rejected and answered. *)
Definition precheckNamespace (c : Sess) (i : InboundMessage)
    : M (result goerror (option InboundMessage)) :=
  let reject nsErr := e ← sendNamespaceMismatch i nsErr;
    mret (match e with Some e => Err e | None => Ok None end) in
  match in_Envelope i with
  | Some (InSubscribe subs) =>
      r ← precheck_subscribe c i subs;
      match r with
      | Return e => mret (Err e)
      | Next (false, _) => mret (Ok (Some i))
      | Next (true, kept) => mret (Ok (Some (mkIn (in_Id i) (in_Time i) (Some (InSubscribe kept)))))
      end
  | Some (InPublish p) =>
      match precheckExactChannel c (pb_Channel p) with
      | Some nsErr => reject nsErr
      | None => mret (Ok (Some i))
      end
  | Some (InUnsubscribe subs) =>
      match first_mismatch c (sb_Channel <$> subs) with
      | Some nsErr => reject nsErr
      | None => mret (Ok (Some i))
      end
  | Some (InSubRefresh channels) =>
      match first_mismatch c channels with
      | Some nsErr => reject nsErr
      | None => mret (Ok (Some i))
      end
  | Some (InSurveyRequest r) =>
      match precheckExactChannel c (sq_Channel r) with
      | Some nsErr =>
          e ← sendSurveyError i (er_Code nsErr) (er_Type nsErr) (er_Message nsErr);
          mret (match e with Some e => Err e | None => Ok None end)
      | None => mret (Ok (Some i))
      end
  | Some (InPresenceQuery ch) =>
      match precheckExactChannel c ch with
      | Some nsErr => reject nsErr
      | None => mret (Ok (Some i))
      end
  | _ => mret (Ok (Some i))
  end.

(** ** The session's subscriptions *)

Definition hasSubscription (ch : string) : M bool :=
  s ← ask ReadSubscribed; mret (bool_decide (ch ∈ s)).

(** [slices.Sort] of strings: bytewise. *)
Definition str_le (a b : string) : Prop := String.leb a b = true.

#[global] Instance str_le_dec a b : base.Decision (str_le a b).
Proof. unfold str_le. apply _. Defined.
#[global] Instance str_le_total : Total str_le.
Proof. intros a b. apply String.leb_total. Qed.

Definition subscriptionList : M (list Subscription) :=
  s ← ask ReadSubscribed;
  mret ((λ ch, mkSubscription ch false "" false None false) <$> merge_sort str_le (elements s)).

Definition sessionCoversChannel (ch : string) : M bool :=
  has ← hasSubscription ch;
  if has : bool then mret true
  else
    subs ← subscriptionList;
    mret (existsb (λ p, IsWildcard (sb_Channel p) && Match (sb_Channel p) ch) subs).

Definition UserPrincipal (user : string) : Principal := mkPrincipal PrincipalUser user 0%Z.

(** Node.shouldTrackPresence. *)
Definition ShouldTrackPresence (ch : string) (ephemeral : bool) : M bool :=
  if ephemeral || IsWildcard ch then mret false
  else az ← ask LoadAuthorizer; mret (Policy.Presence (Effects az ch)).

(** The stored subscription decides whether a channel is ephemeral. *)
Definition stored_ephemeral (ch : string) : M bool :=
  s ← ask (LookupSubscriber ch); mret (default false s).

(** ** Subscribe permission *)

Definition not_routable (channel : string) (e : InterestError) : SharedError :=
  err (match e with ErrPatternNotRoutable => "PATTERN_NOT_ROUTABLE" | _ => "BAD_REQUEST" end)
    "request_error" [Txt "cannot subscribe to channel "; Quoted channel; Txt ": "; InterestV e].

(** [None]: allowed.  A panic of CompileInterest, which never happens
    ([Interest.compile_cases]), is kept as a refusal. *)
Definition checkSubscribeACL (c : Sess) (sub : Subscription) : M (option SharedError) :=
  let ch := sb_Channel sub in
  match checkNamespace c ch with
  | Some nsErr => mret (Some nsErr)
  | None =>
    match CompileInterest ch with
    | None => mret (Some (err "PANIC" "" []))
    | Some (Err e) => mret (Some (not_routable ch e))
    | Some (Ok _) =>
      az ← ask LoadAuthorizer;
      if negb (Allow (Decide az (UserPrincipal (c_user c)) ActionSubscribePattern ch))
      then mret (Some (err "PERMISSION_DENIED" "acl_error" [Txt "subscribe denied by ACL rule"]))
      else
        p ← ask (FindProxy ch "subscribe");
        match p with
        | None => mret None
        | Some p =>
          r ← ask (SubscribeAcl p (mkAcl ch (sb_Token sub) (c_user c) (c_session c)));
          match r with
          | Err e => mret (Some (err "PROXY_ERROR" "proxy_error" [Txt (Error e)]))
          | Ok aclErr => mret aclErr
          end
        end
    end
  end.

Definition sendSubscribeRequestError (i : InboundMessage) (channel : string) (e : goerror) : M unit :=
  let code := if errors_Is e IsPatternNotRoutable then "PATTERN_NOT_ROUTABLE" else "BAD_REQUEST" in
  _ ← reply i (OutError (err code "request_error"
         [Txt "cannot subscribe to channel "; Quoted channel; Txt ": "; Txt (Error e)]));
  mret tt.

(** ** RPC *)

Definition rpc_error (i : InboundMessage) (e : goerror) (duration : Z) : M error :=
  if errors_Is e IsDeadlineExceeded then
    reply i (OutError (err "RPC_TIMEOUT" "timeout"
      [Txt "RPC request timeout after "; DurationV duration]))
  else if errors_Is e IsNoProxyFound then
    reply i (OutError (err "NO_PROXY" "request_error" [Txt "no proxy configured for channel/method"]))
  else reply i (OutError (err "PROXY_ERROR" "proxy_error" [Txt (Error e)])).

Definition handleRPC (c : Sess) (i : InboundMessage) (r : RpcRequest) : M error :=
  let channel := rpc_Channel r in
  if bool_decide (channel = "") then sendRequestError i "missing channel in RPC request"
  else match checkNamespace c channel with
  | Some nsErr => reply i (OutError nsErr)
  | None =>
    startTime ← ask NowNano;
    resp ← ask (ProxyRPC channel (rpc_Method r)
              (mkRPCRequest (in_Id i) (c_client c) (c_session c) (c_user c) channel (rpc_Method r)
                 (rpc_Payload r) (rpc_Metadata r)));
    now ← ask NowNano;
    match resp with
    | Err e => rpc_error i e (now - startTime)%Z
    | Ok resp =>
      reply i match rr_Error resp with
              | Some e => OutError e
              | None => OutRpcReply (in_Id i) (rr_Payload resp) (rr_Meta resp)
              end
    end
  end.

(** ** Publish *)

(** The proxy's verdict, asked only when a route matches. *)
Definition publish_acl (c : Sess) (p : PublishMsg) : M (option SharedError) :=
  px ← ask (FindProxy (pb_Channel p) "publish");
  match px with
  | None => mret None
  | Some px =>
    r ← ask (PublishAcl px (mkAcl (pb_Channel p) (pb_Token p) (c_user c) (c_session c)));
    mret match r with
         | Err e => Some (err "PROXY_ERROR" "proxy_error" [Txt (Error e)])
         | Ok aclErr => aclErr
         end
  end.

Definition with_metadata (pub : Publication) (md : option (gmap string string)) : Publication :=
  match md with
  | None => pub
  | Some md =>
      mkPub (Channel pub) (Payload pub) (Kind pub) (ContentType pub) (Id pub) md (Offset pub) (Seq pub)
        (Time pub) (Epoch pub) (pub_HistorySize pub) (pub_HistoryTTL pub)
  end.

(** The publish itself, once every gate has passed. *)
Definition do_publish (i : InboundMessage) (p : PublishMsg) : M error :=
  match PublicationFromPayloadV2 marshal (in_Id i) ∅ (pb_Payload p) with
  | None => mret (Some (EError None "marshal"))
  | Some pub =>
    let pub := with_metadata pub (pb_Metadata p) in
    az ← ask LoadAuthorizer;
    let pol := Effects az (pb_Channel p) in
    if pb_Transient p || TransientOnly pol || negb (History pol) then
      e ← ask (PublishTransient (pb_Channel p) pub);
      match e with
      | Some e => mret (Some e)
      | None =>
        reply_with i (epoch ← ask StreamEpoch;
                      mret (OutPublishAck (in_Id i) (PositionFrom epoch 0 false)))
      end
    else
      r ← ask (PublishStream (pb_Channel p) pub);
      match r with
      | Err e => mret (Some e)
      | Ok offset =>
        reply_with i (epoch ← ask StreamEpoch;
                      mret (OutPublishAck (in_Id i) (PositionFrom epoch offset true)))
      end
  end.

Definition handlePublish (c : Sess) (i : InboundMessage) (p : PublishMsg) : M error :=
  if negb (c_authenticated c) then mret (Some (EDisconnect DisconnectInvalidToken))
  else
    allowed ← (if c_publishLimiter c then ask PublishLimiterAllow else mret true);
    if negb allowed then
      reply i (OutError (err "RATE_LIMITED" "rate_limit" [Txt "publish rate limit exceeded"]))
    else if bool_decide (pb_Channel p = "") then
      sendRequestError i "missing channel in publish message"
    else if IsWildcard (pb_Channel p) then
      sendRequestError i "publish channel must be an exact channel name, not a wildcard pattern"
    else match checkNamespace c (pb_Channel p) with
    | Some nsErr => reply i (OutError nsErr)
    | None =>
      az ← ask LoadAuthorizer;
      if negb (Allow (Decide az (UserPrincipal (c_user c)) ActionPublish (pb_Channel p))) then
        reply i (OutError (err "PERMISSION_DENIED" "acl_error" [Txt "publish denied by ACL rule"]))
      else
        refused ← publish_acl c p;
        match refused with
        | Some e => reply i (OutError e)
        | None => do_publish i p
        end
    end.

(** ** Subscribe *)

(** Presence snapshots of the tracked channels among [subs]. *)
Definition snapshotForChannels (subs : list Subscription) : M (list PresenceSnapshot) :=
  for_each (λ acc sub,
    ephemeral ← stored_ephemeral (sb_Channel sub);
    track ← ShouldTrackPresence (sb_Channel sub) ephemeral;
    if track : bool then
      snap ← ask (PresenceSnapshotOf (sb_Channel sub)); mret (acc ++ [snap])
    else mret acc) [] subs.

(** What one request has added so far: subscriptions, presence, acknowledged. *)
Record added := mkAdded {
  ad_channels : list string; ad_presence : list string; ad_subs : list Subscription }.

Definition rollback (c : Sess) (a : added) : M unit :=
  _ ← for_each (λ _ ch, _ ← ask (RemoveSubscription ch); mret tt) tt (ad_channels a);
  for_each (λ _ ch, ask (PresenceRemove ch (c_session c))) tt (ad_presence a).

(** Whether the per-client limit refuses one more channel. *)
Definition over_limit (alreadySubscribed : bool) : M bool :=
  if (0 <? MaxSubscriptionsPerClient cfg)%Z && negb alreadySubscribed then
    s ← ask ReadSubscribed;
    mret (MaxSubscriptionsPerClient cfg <=? Z.of_nat (base.size (s : gset string)))%Z
  else mret false.

(** One channel of a Subscribe request. *)
Definition subscribe_one (c : Sess) (i : InboundMessage) (a : added) (sub : Subscription)
    : M (flow added error) :=
  let ch := sb_Channel sub in
  alreadySubscribed ← hasSubscription ch;
  aclErr ← checkSubscribeACL c sub;
  match aclErr with
  | Some e => _ ← reply i (OutError e); mret (Next a)
  | None =>
    over ← over_limit alreadySubscribed;
    if over : bool then mret (Return (Some (EDisconnect DisconnectChannelLimit)))
    else
      e ← ask (AddSubscription ch (sb_Ephemeral sub));
      match e with
      | Some e =>
        if errors_Is e IsPatternNotRoutable || errors_Is e IsBadTopic then
          _ ← sendSubscribeRequestError i ch e; mret (Next a)
        else _ ← rollback c a; mret (Return (Some e))
      | None =>
        track ← ((if alreadySubscribed : bool then mret false else ShouldTrackPresence ch (sb_Ephemeral sub)) : M bool);
        _ ← ((if track : bool then ask (PresenceJoin ch) else mret tt) : M unit);
        p ← ask (FindProxy ch "subscribe");
        _ ← (match p with
             | Some p => ask (OnSubscribed p (c_session c) ch (c_user c))
             | None => mret tt
             end : M unit);
        mret (Next (mkAdded (if alreadySubscribed : bool then ad_channels a else ad_channels a ++ [ch])
                            (if track : bool then ad_presence a ++ [ch] else ad_presence a)
                            (ad_subs a ++ [sub])))
      end
  end.

Definition handleSubscribe (c : Sess) (i : InboundMessage) (subs : list Subscription) : M error :=
  currentEpoch ← ask StreamEpoch;
  r ← loop (subscribe_one c i) (mkAdded [] [] []) subs;
  match r with
  | Return e => mret e
  | Next a =>
    e ← reply_with i (recover ← ask (RecoverStateOf (ad_subs a));
                      presence ← snapshotForChannels (ad_subs a);
                      mret (OutSubscribeAck (ad_subs a) recover currentEpoch presence));
    match e with
    | Some e => mret (Some e)
    | None => _ ← ask (StreamRecoveries (ad_subs a) None "subscribe"); mret None
    end
  end.

(** ** Unsubscribe and refresh

    The leave events run in goroutines that are awaited before the reply; the
    semaphore only bounds how many run at once. *)

Definition unsubscribe_one (c : Sess) (_ : unit) (sub : Subscription) : M unit :=
  let ch := sb_Channel sub in
  alreadySubscribed ← hasSubscription ch;
  ephemeral ← stored_ephemeral ch;
  _ ← ask (RemoveSubscription ch);
  track ← ((if alreadySubscribed : bool then ShouldTrackPresence ch ephemeral else mret false) : M bool);
  _ ← ((if track : bool then ask (Go (PresenceLeaveTask ch (c_session c) (c_user c) ephemeral))
        else mret tt) : M unit);
  p ← ask (FindProxy ch "unsubscribe");
  match p with
  | Some p => ask (OnUnsubscribed p (c_session c) ch (c_user c))
  | None => mret tt
  end.

Definition handleUnsubscribe (c : Sess) (i : InboundMessage) (subs : list Subscription) : M error :=
  _ ← for_each (unsubscribe_one c) tt subs;
  _ ← ask WaitAll;
  reply i (OutUnsubscribeAck subs).

Definition refresh_one (c : Sess) (_ : unit) (ch : string) : M unit :=
  p ← ask (FindProxy ch "subscribe");
  match p with
  | None => mret tt
  | Some p =>
    r ← ask (SubscribeAcl p (mkAcl ch "" "" ""));
    match r with
    | Ok None => mret tt
    | _ =>
      ephemeral ← stored_ephemeral ch;
      _ ← ask (RemoveSubscription ch);
      track ← ShouldTrackPresence ch ephemeral;
      if track : bool then ask (Go (PresenceLeaveTask ch (c_session c) (c_user c) ephemeral))
      else mret tt
    end
  end.

Definition handleSubRefresh (c : Sess) (i : InboundMessage) (channels : list string) : M error :=
  _ ← for_each (refresh_one c) tt channels;
  _ ← ask WaitAll;
  reply i OutSubRefreshAck.

(** ** Surveys *)

Definition DefaultSurveyTimeout : Z := 5 * second.
Definition MaxSurveyTimeoutCeiling : Z := 10 * second.
Definition MinSurveyTimeout : Z := 100 * 1000000.

(** survey.ClampTimeout, in nanoseconds. *)
Definition ClampTimeout (policyCap requestedMs : Z) : Z :=
  let timeout := if (policyCap <=? 0)%Z then DefaultSurveyTimeout else policyCap in
  let timeout := if (MaxSurveyTimeoutCeiling <? timeout)%Z then MaxSurveyTimeoutCeiling else timeout in
  if (0 <? requestedMs)%Z then
    let requested := i64 (requestedMs * 1000000) in
    let requested := if (timeout <? requested)%Z then timeout else requested in
    if (requested <? MinSurveyTimeout)%Z then MinSurveyTimeout else requested
  else timeout.

(** [None]: marshalling failed. *)
Definition survey_payload (p : option (PayloadV2 J)) : option string :=
  match p with
  | None => Some ""
  | Some _ => Payload <$> PublicationFromPayloadV2 marshal "" ∅ p
  end.

(** The admission half, before the in-flight flag is taken: the policy, or the
    refusal to send. *)
Definition survey_admission (c : Sess) (ch : string)
    : M (result (string * string * list part) ChannelPolicy) :=
  if bool_decide (ch = "") || IsWildcard ch then
    mret (Err ("BAD_REQUEST", "request_error", [Txt "survey channel must be an exact channel"]))
  else match checkNamespace c ch with
  | Some nsErr => mret (Err (er_Code nsErr, er_Type nsErr, er_Message nsErr))
  | None =>
    covered ← sessionCoversChannel ch;
    if negb covered then
      mret (Err ("PERMISSION_DENIED", "acl_error", [Txt "survey denied: channel not covered by session"]))
    else
      az ← ask LoadAuthorizer;
      let dec := Decide az (UserPrincipal (c_user c)) ActionSurvey ch in
      if negb (Allow dec) then
        mret (Err (if negb (Survey (Effects_ dec))
                   then ("SURVEY_DISABLED", "policy_error", [Txt "survey disabled by channel policy"])
                   else ("PERMISSION_DENIED", "acl_error", [Txt "survey denied by ACL rule"])))
      else mret (Ok (Effects_ dec))
  end.

Definition survey_abort (i : InboundMessage) (code typ msg : string) : M error :=
  _ ← ask SurveyInFlightClear; sendSurveyError i code typ [Txt msg].

Definition handleSurvey (c : Sess) (i : InboundMessage) (req : SurveyRequest) : M error :=
  let ch := sq_Channel req in
  adm ← survey_admission c ch;
  match adm with
  | Err (code, typ, msg) => sendSurveyError i code typ msg
  | Ok pol =>
    won ← ask SurveyInFlightCAS;
    if negb won then
      sendSurveyError i "RATE_LIMITED" "rate_limit" [Txt "a survey is already in flight for this session"]
    else
      ok ← ask SurveyLimiterAllow;
      if negb ok then survey_abort i "RATE_LIMITED" "rate_limit" "survey rate limit exceeded"
      else match survey_payload (sq_Payload req) with
      | None => _ ← ask SurveyInFlightClear; mret (Some (EError None "marshal"))
      | Some payload =>
        let timeout := ClampTimeout (MaxSurveyTimeout pol) (sq_TimeoutMs req) in
        let limit := MaxSurveySubscribers pol in
        over ← (if (0 <? limit)%Z then n ← ask (MatchingSubscribers ch); mret (limit <? n)%Z
                else mret false);
        if over : bool then
          survey_abort i "SURVEY_TOO_MANY_SUBSCRIBERS" "survey_error" "survey refused: too many subscribers"
        else
          requestID ← ((if bool_decide (sq_RequestId req = "") then ask NewUUID
                        else mret (sq_RequestId req)) : M string);
          _ ← ask (Go (SurveyWorkerTask requestID ch payload timeout));
          mret None
      end
  end.

(** The worker goroutine; the deferred store clears the flag on every path. *)
Definition survey_body (requestID ch payload : string) (timeout : Z) : M unit :=
  total ← ask (CountMatchingSubscribers ch);
  match total with
  | Err e =>
    sendSurveyTopError "INTERNAL_ERROR" "server_error"
      [Txt ("survey subscriber count failed: " +:+ Error e)]
  | Ok total =>
    az ← ask LoadAuthorizer;
    let limit := MaxSurveySubscribers (Effects az ch) in
    if ((0 <? limit) && (limit <? total))%Z then
      sendSurveyTopError "SURVEY_TOO_MANY_SUBSCRIBERS" "survey_error"
        [Txt "survey refused: too many subscribers"]
    else
      r ← ask (RunSurvey ch payload timeout);
      match r with
      | Err e => sendSurveyTopError "INTERNAL_ERROR" "server_error" [Txt (Error e)]
      | Ok results =>
        result ← ask (BuildClientSurveyResult requestID ch results);
        _ ← push (OutSurveyResult result);
        mret tt
      end
  end.

Definition runSurveyWorker (requestID ch payload : string) (timeout : Z) : M unit :=
  _ ← survey_body requestID ch payload timeout;
  ask SurveyInFlightClear.

Definition reply_error (e : SharedError) : goerror :=
  EError None (er_Code e +:+ ": " +:+
    foldr (λ p acc, match p with Txt s | Quoted s => s +:+ acc | _ => acc end) "" (er_Message e)).

Definition handleSurveyReply (c : Sess) (i : InboundMessage) (r : SurveyReply) : M error :=
  _ ← ask TouchActivity;
  let e := reply_error <$> sy_Error r in
  let routed payload e : M error :=
    if bool_decide (sy_RequestId r = "") then mret None
    else _ ← ask (AddSurveyResponse (c_session c) (sy_RequestId r) payload e); mret None in
  match sy_Payload r with
  | None => routed "" e
  | Some p =>
    match PublicationFromPayloadV2 marshal "" ∅ (Some p) with
    | None => mret (Some (EError None "marshal"))
    | Some pub => routed (Payload pub) (if bool_decide (Kind pub = PayloadKindJSON) then None else e)
    end
  end.

(** ** Presence queries and liveness *)

Definition handlePresenceQuery (c : Sess) (i : InboundMessage) (ch : string) : M error :=
  if bool_decide (ch = "") || IsWildcard ch then
    reply i (OutError (err "BAD_REQUEST" "request_error" [Txt "presence query channel must be an exact channel"]))
  else match checkNamespace c ch with
  | Some nsErr => reply i (OutError nsErr)
  | None =>
    covered ← sessionCoversChannel ch;
    if negb covered then
      reply i (OutError (err "PERMISSION_DENIED" "acl_error"
        [Txt "presence query denied: channel not covered by session"]))
    else
      az ← ask LoadAuthorizer;
      let dec := Decide az (UserPrincipal (c_user c)) ActionPresence ch in
      if negb (Allow dec) then
        reply i (OutError (if negb (Policy.Presence (Effects_ dec))
          then err "POLICY_DENIED" "policy_error" [Txt "presence query denied by channel policy"]
          else err "PERMISSION_DENIED" "acl_error" [Txt "presence query denied by ACL rule"]))
      else reply_with i (snap ← ask (PresenceSnapshotOf ch); mret (OutPresence snap))
  end.

Definition pingClusterRefreshInterval : Z := 10 * second.

Definition throttledClusterRefresh : M unit :=
  now ← ask NowNano;
  last ← ask LoadLastSync;
  if (pingClusterRefreshInterval <=? now - last)%Z then
    won ← ask (CasLastSync last now);
    if won : bool then
      _ ← ask (Go RefreshPresenceTask); ask (Go ClusterSyncTask)
    else mret tt
  else mret tt.

Definition handlePing (i : InboundMessage) : M error :=
  _ ← ask TouchActivity; _ ← throttledClusterRefresh; reply i OutPong.

Definition handlePong : M error :=
  _ ← ask TouchActivity; _ ← throttledClusterRefresh; mret None.

(** The two goroutines of the refresh. *)
Definition refreshPresence (c : Sess) : M unit :=
  channels ← ask ReadSubscribed;
  for_each (λ _ ch,
    ephemeral ← stored_ephemeral ch;
    track ← ShouldTrackPresence ch ephemeral;
    if track : bool then ask (PresenceAdd ch (c_session c) (c_client c) (c_user c)) else mret tt)
    tt (elements (channels : gset string)).

Definition clusterRefresh (c : Sess) : M unit :=
  e ← ask (SyncClusterSessionState c);
  match e with
  | Some e => if errors_Is e IsSessionFenced then ask (FenceSession DisconnectStale) else mret tt
  | None => mret tt
  end.

(** ** Connect *)

(** wire.GenerationOK: [strconv.Atoi] of the part before the first dot. *)
Definition digit_value (c : ascii) : option Z :=
  if is_digit c then Some (Z.of_N (N_of_ascii c) - 48)%Z else None.

Fixpoint digits_value (acc : Z) (s : string) : option Z :=
  match s with
  | EmptyString => Some acc
  | String c s => match digit_value c with Some d => digits_value (acc * 10 + d) s | None => None end
  end.

Definition Atoi (s : string) : option Z :=
  let body neg s :=
    match s with
    | EmptyString => None
    | _ =>
      match digits_value 0 s with
      | Some n => let n := if neg : bool then (- n)%Z else n in
                  if ((- 2 ^ 63 <=? n) && (n <? 2 ^ 63))%Z then Some n else None
      | None => None
      end
    end in
  match s with
  | String "-" s => body true s
  | String "+" s => body false s
  | _ => body false s
  end.

Definition protocolGeneration : Z := 2.

Definition GenerationOK (version : string) : bool :=
  let major := match cut "." version with Some (m, _) => m | None => version end in
  match Atoi major with Some n => (n =? protocolGeneration)%Z | None => false end.

Definition set_session (c : Sess) (sid : string) : Sess :=
  mkSess (c_client c) sid (c_user c) (c_namespace c) (c_authenticated c) (c_clusterLeaseVersion c)
    (c_publishLimiter c).
Definition set_namespace (c : Sess) (ns : string) : Sess :=
  mkSess (c_client c) (c_session c) (c_user c) ns (c_authenticated c) (c_clusterLeaseVersion c)
    (c_publishLimiter c).

(** Session.AdoptIdentity; the subscribed set is the environment's. *)
Definition AdoptIdentity (c : Sess) (sid ns user client : string) (leaseVersion : Z) : Sess :=
  mkSess (if bool_decide (client = "") then c_client c else client) sid
    (if bool_decide (user = "") then c_user c else user)
    (if bool_decide (ns = "") then c_namespace c else ns)
    (c_authenticated c)
    (if (0 <? leaseVersion)%Z then leaseVersion
     else if (c_clusterLeaseVersion c =? 0)%Z then 1 else c_clusterLeaseVersion c)
    (c_publishLimiter c).

Definition disconnectOnConnectError (e : goerror) : M error :=
  match e with
  | EDisconnect _ => mret (Some e)
  | _ => _ ← ask (CloseSession DisconnectInternal); mret (Some e)
  end.

(** The identity fields finishConnect writes under the lock. *)
Definition connected_session (c : Sess) (connect : Connect) (resumed : bool)
    (authUser authNamespace : string) : Sess :=
  mkSess (if resumed then c_client c else cn_ClientId connect) (c_session c)
    (if bool_decide (authUser = "") then c_user c else authUser)
    (if bool_decide (authNamespace = "") then c_namespace c else authNamespace)
    true
    (if (c_clusterLeaseVersion c =? 0)%Z then 1 else c_clusterLeaseVersion c)
    (c_publishLimiter c || (0 <? MaxPublishesPerSecond cfg)%Z).

(** One of Connect's initial subscriptions; [seen] are the channels already in
    the recovery list [ad_subs]. *)
Definition connect_one (c : Sess) (i : InboundMessage) (st : added * gset string) (sub : Subscription)
    : M (flow (added * gset string) error) :=
  let '(a, seen) := st in
  let ch := sb_Channel sub in
  aclErr ← checkSubscribeACL c sub;
  match aclErr with
  | Some e => _ ← reply i (OutError e); mret (Next (a, seen))
  | None =>
    let recoverySubs := if bool_decide (ch ∈ seen) then ad_subs a else ad_subs a ++ [sub] in
    let seen := {[ ch ]} ∪ seen in
    alreadySubscribed ← hasSubscription ch;
    over ← over_limit alreadySubscribed;
    if over : bool then
      _ ← rollback c a; mret (Return (Some (EDisconnect DisconnectChannelLimit)))
    else
      e ← ask (AddSubscription ch (sb_Ephemeral sub));
      match e with
      | Some e =>
        if errors_Is e IsPatternNotRoutable || errors_Is e IsBadTopic then
          _ ← sendSubscribeRequestError i ch e;
          mret (Next (mkAdded (ad_channels a) (ad_presence a) recoverySubs, seen))
        else _ ← rollback c a; mret (Return (Some e))
      | None =>
        if alreadySubscribed : bool then
          mret (Next (mkAdded (ad_channels a) (ad_presence a) recoverySubs, seen))
        else
          track ← ShouldTrackPresence ch (sb_Ephemeral sub);
          if track : bool then
            _ ← ask (PresenceJoin ch);
            mret (Next (mkAdded (ad_channels a ++ [ch]) (ad_presence a ++ [ch]) recoverySubs, seen))
          else mret (Next (mkAdded (ad_channels a ++ [ch]) (ad_presence a) recoverySubs, seen))
      end
  end.

(** Presence snapshots of every subscribed channel. *)
Definition presenceSnapshots : M (list PresenceSnapshot) :=
  subs ← subscriptionList; snapshotForChannels subs.

Definition report_restore_failures (i : InboundMessage) (failures : list (string * goerror)) : M unit :=
  for_each (λ _ '(ch, e),
    has ← hasSubscription ch;
    if has : bool then mret tt
    else
      _ ← reply i (OutError (mkErr "RECOVER_FAILED" "recover_error"
             [Txt "failed to restore subscription to channel "; Quoted ch; Txt ": "; Txt (Error e)]
             [("channel", ch)]));
      mret tt) tt failures.

(** The frames after registration: Connected, restore failures, presence, replays. *)
Definition greet (c : Sess) (i : InboundMessage) (connect : Connect) (resumed : bool) (epoch : string)
    (snapshot : option ClusterSessionSnapshot) (failures : list (string * goerror))
    (recoverySubs : list Subscription) : M error :=
  e ← reply_with i (subs ← subscriptionList;
        mret (OutConnected (c_session c) subs resumed epoch (cn_Caps connect)));
  match e with
  | Some e => mret (Some e)
  | None =>
    _ ← report_restore_failures i failures;
    snaps ← presenceSnapshots;
    r ← loop (λ _ snap, e ← reply i (OutPresence snap);
                mret (match e with Some e => Return (Some e) | None => Next tt end)) tt snaps;
    match r with
    | Return e => mret e
    | Next _ => _ ← ask (StreamRecoveries recoverySubs snapshot "connect"); mret None
    end
  end.

Definition finishConnect (c : Sess) (i : InboundMessage) (connect : Connect) (resumed resumedLocal : bool)
    (snapshot : option ClusterSessionSnapshot) (p : option Proxy) (authUser authNamespace : string)
    : M (error * Sess) :=
  let c := connected_session c connect resumed authUser authNamespace in
  registered ← (if negb resumed || negb resumedLocal then
                  e ← ask (AddClient c);
                  match e with
                  | Some e => mret (Some e)
                  | None => _ ← ask MarkMetricsCharged; mret None
                  end
                else ask (SyncClusterSessionState c));
  match registered with
  | Some e => e ← disconnectOnConnectError e; mret (e, c)
  | None =>
    failures ← ((match snapshot with
                 | Some s => ask (RestoreSessionSubscriptions (Directory.sn_Subscriptions s))
                 | None => mret []
                 end) : M (list (string * goerror)));
    _ ← ((match p with
          | Some p => ask (OnConnected p (c_session c) (cn_ClientId connect))
          | None => mret tt
          end) : M unit);
    epoch ← ask StreamEpoch;
    r ← loop (connect_one c i) (mkAdded [] [] [], ∅) (cn_Subscriptions connect);
    match r with
    | Return e => mret (e, c)
    | Next (a, seen) =>
      let extra := of_recover <$> Recover.SnapshotRecoverySubs snapshot (elements seen) failures.*1 in
      e ← greet c i connect resumed epoch snapshot failures (ad_subs a ++ extra);
      mret (e, c)
    end
  end.

(** A refused connect: the error envelope, then the disconnect. *)
Definition refuse (i : InboundMessage) (e : SharedError) (d : Disconnect) : M error :=
  _ ← reply i (OutError e); mret (Some (EDisconnect d)).

Definition auth_required : SharedError :=
  err "AUTH_REQUIRED" "auth_error" [Txt "authentication token is required"].

(** The authentication step: the proxy that verified the token, the user and
    the namespace it returned; or the error to return. *)
Definition authenticate (i : InboundMessage) (connect : Connect) (originalSessionID : string)
    : M (result error (option Proxy * string * string)) :=
  found ← (if negb (bool_decide (cn_Token connect = "")) then
             p ← ask (FindProxy "" "$authenticate");
             mret (if bool_decide (p = None) && RequireAuth cfg then None else Some p)
           else mret (if RequireAuth cfg then None else Some None));
  match found with
  | None => e ← refuse i auth_required DisconnectInvalidToken; mret (Err e)
  | Some None => mret (Ok (None, "", ""))
  | Some (Some p) =>
    att ← ask ReadTransport;
    match att with
    | None => mret (Err (Some (EDisconnect DisconnectConnectionClosed)))
    | Some remote =>
      r ← ask (Authenticate p (mkAuthRequest (cn_ClientId connect) (cn_Token connect)
                 (cn_ClientType connect) originalSessionID remote));
      match r with
      | Err e =>
        e ← refuse i (err "AUTH_ERROR" "auth_error" [Txt (Error e)]) DisconnectInvalidToken; mret (Err e)
      | Ok resp =>
        match as_Error resp with
        | Some e => e ← refuse i e DisconnectInvalidToken; mret (Err e)
        | None =>
          mret (Ok (Some p, match as_UserInfo resp with Some u => ui_ID u | None => "" end,
                    match as_UserInfo resp with Some u => ui_Namespace u | None => "" end))
        end
      end
    end
  end.

(** The identity a local resume writes into the resumed session. *)
Definition resumed_identity (existing : Sess) (authUser authNamespace : string) : Sess :=
  mkSess (c_client existing) (c_session existing) authUser
    (if bool_decide (authNamespace = "") then c_namespace existing else authNamespace)
    (c_authenticated existing)
    (if (c_clusterLeaseVersion existing =? 0)%Z then 1 else u64 (c_clusterLeaseVersion existing + 1))
    (c_publishLimiter existing).

Definition resume_local (i : InboundMessage) (connect : Connect) (existing : Sess) (p : option Proxy)
    (authUser authNamespace : string) : M (error * option Sess) :=
  let denied := mret (Some (EDisconnect DisconnectInvalidToken), None) in
  let owner := c_user existing in
  let ownerNs := c_namespace existing in
  if negb (bool_decide (owner = "")) && negb (bool_decide (owner = authUser)) then denied
  else if negb (bool_decide (ownerNs = "")) && negb (bool_decide (authNamespace = "")) &&
          negb (bool_decide (ownerNs = authNamespace)) then denied
  else
    prepared ← ((if bool_decide (owner = "") && negb (bool_decide (authUser = "")) then
                   ask (PrepareSessionUser (cn_SessionId connect) authNamespace authUser)
                 else mret None) : M error);
    match prepared with
    | Some e => e ← disconnectOnConnectError e; mret (e, None)
    | None =>
      let existing := resumed_identity existing authUser authNamespace in
      _ ← ask (WriteExisting existing);
      e ← ask (TakeoverBy (cn_SessionId connect));
      match e with
      | Some e => e ← disconnectOnConnectError e; mret (e, Some existing)
      | None =>
        r ← finishConnect existing i connect true true None p authUser authNamespace;
        mret (r.1, Some r.2)
      end
    end.

(** The initial attachment, for a session that was not resumed on this node. *)
Definition attach_and_finish (c : Sess) (i : InboundMessage) (connect : Connect) (resumed : bool)
    (snapshot : option ClusterSessionSnapshot) (p : option Proxy) (authUser authNamespace : string)
    : M (error * Sess) :=
  att ← ask ReadTransport;
  match att with
  | None =>
    e ← disconnectOnConnectError (EError None "attach: session closed during connect"); mret (e, c)
  | Some _ =>
    e ← ask Attach;
    match e with
    | Some e => e ← disconnectOnConnectError e; mret (e, c)
    | None => finishConnect c i connect resumed false snapshot p authUser authNamespace
    end
  end.

(** handleConnect after authentication. *)
Definition connect_authenticated (c : Sess) (i : InboundMessage) (connect : Connect)
    (originalSessionID : string) (p : option Proxy) (authUser authNamespace : string)
    : M (error * Sess) :=
  let authNamespace := if bool_decide (authNamespace = "") then ServerNamespace cfg else authNamespace in
  if bool_decide (authNamespace = "") && RequireAuth cfg then
    e ← refuse i namespaceRequiredError DisconnectInvalidToken; mret (e, c)
  else
    let c := set_namespace c authNamespace in
    let resumeAllowed := RequireAuth cfg && bool_decide (is_Some p) && negb (bool_decide (authUser = "")) in
    if negb (bool_decide (cn_SessionId connect = "")) && resumeAllowed then
      existing ← ask (LookupSession (cn_SessionId connect));
      match existing with
      | Some existing =>
        r ← resume_local i connect existing p authUser authNamespace; mret (r.1, c)
      | None =>
        r ← ask (ResumeRemoteSession c (cn_SessionId connect) authUser);
        match r with
        | Err e => e ← disconnectOnConnectError e; mret (e, c)
        | Ok None => attach_and_finish c i connect false None p authUser authNamespace
        | Ok (Some ad) =>
          let s := Lease.ad_snapshot ad in
          let c := AdoptIdentity c (cn_SessionId connect) (Lease.ad_namespace ad)
                     (Directory.sn_UserID s) (Directory.sn_ClientID s) (Lease.ad_leaseVersion ad) in
          attach_and_finish c i connect true (Some s) p authUser authNamespace
        end
      end
    else
      let c := if negb (bool_decide (cn_SessionId connect = "")) then set_session c originalSessionID else c in
      attach_and_finish c i connect false None p authUser authNamespace.

(** The error and the connection's session afterwards. *)
Definition handleConnect (c : Sess) (i : InboundMessage) (connect : Connect) : M (error * Sess) :=
  closed ← ask ReadClosed;
  if closed : bool then mret (Some (EDisconnect DisconnectConnectionClosed), c)
  else if c_authenticated c then mret (Some (EDisconnect DisconnectBadRequest), c)
  else if negb (GenerationOK (cn_Version connect)) then
    e ← refuse i (err "VERSION_UNSUPPORTED" "version_error"
           [Txt "unsupported protocol version: only generation 2 is accepted"])
           DisconnectUnsupportedVersion;
    mret (e, c)
  else
    let originalSessionID := c_session c in
    let c := if bool_decide (cn_SessionId connect = "") then c else set_session c (cn_SessionId connect) in
    auth ← authenticate i connect originalSessionID;
    match auth with
    | Err e => mret (e, c)
    | Ok (p, authUser, authNamespace) =>
      connect_authenticated c i connect originalSessionID p authUser authNamespace
    end.

(** ** Close: what tearing a session down calls (session.go)

    Presence leaves and removals run on a bounded pool of workers; here they
    run in the order of the channel set. *)

Definition close_session (c : Sess) (reason : Disconnect) : M unit :=
  closed ← ask ReadClosed;
  if closed : bool then mret tt
  else
    channels ← ask ReadSubscribed;
    att ← ask ReadTransport;
    let channels := elements (channels : gset string) in
    _ ← for_each (λ _ ch, ephemeral ← stored_ephemeral ch;
                   ask (PresenceLeave ch (c_session c) (c_user c) ephemeral)) tt channels;
    _ ← for_each (λ _ ch, _ ← ask (RemoveSubscription ch); mret tt) tt channels;
    _ ← ((if bool_decide (c_session c = "") then mret tt
          else
            removed ← ask (RemoveSessionIfMatches (c_session c));
            if removed : bool then _ ← ask (DeleteClusterSessionState (c_session c)); mret tt
            else mret tt) : M unit);
    p ← ask (FindProxy "" "disconnect");
    _ ← ((match p with
          | Some p => ask (OnDisconnected p (c_session c) (c_user c))
          | None => mret tt
          end) : M unit);
    match att with Some _ => ask (CloseTransport reason) | None => mret tt end.

(** ** Dispatch *)

Definition handleMessage (c : Sess) (i : InboundMessage) : M (error * Sess) :=
  let same (p : M error) : M (error * Sess) := e ← p; mret (e, c) in
  let isConnect := match in_Envelope i with Some (InConnect _) => true | _ => false end in
  if negb isConnect && negb (c_authenticated c) then
    mret (Some (EDisconnect DisconnectInvalidToken), c)
  else
    pre ← precheckNamespace c i;
    match pre with
    | Err e => mret (Some e, c)
    | Ok None => mret (None, c)
    | Ok (Some i) =>
      match in_Envelope i with
      | Some (InConnect m) => handleConnect c i m
      | Some (InPublish m) => same (handlePublish c i m)
      | Some (InSubscribe m) => same (handleSubscribe c i m)
      | Some (InRpcRequest m) => same (handleRPC c i m)
      | Some (InUnsubscribe m) => same (handleUnsubscribe c i m)
      | Some InPing => same (handlePing i)
      | Some InPong => same handlePong
      | Some (InSubRefresh m) => same (handleSubRefresh c i m)
      | Some (InSurveyRequest m) => same (handleSurvey c i m)
      | Some (InSurveyReply m) => same (handleSurveyReply c i m)
      | Some (InPresenceQuery m) => same (handlePresenceQuery c i m)
      | None => mret (Some (EDisconnect DisconnectBadRequest), c)
      end
    end.

(** The read loop's entry, on the canonical session [c]. *)
Definition HandleMessage (c : Sess) (i : InboundMessage) : M (error * Sess) :=
  closed ← ask ReadClosed;
  if closed : bool then mret (Some (EError None "session is closed"), c)
  else
    _ ← ask TouchActivity;
    done ← ask LifetimeDone;
    if done : bool then mret (None, c)
    else
      r ← handleMessage c i;
      match r.1 with
      | None => mret (None, r.2)
      | Some (EDisconnect d) => _ ← ask (CloseFromLoop d); mret (None, r.2)
      | Some e =>
        _ ← reply i (OutError (err "INTERNAL_ERROR" "server_error" [Txt (Error e)])); mret (Some e, r.2)
      end.

End Handlers.
End Handlers.
