(* ===== verification/HandlerSafety.v ===== *)
(** * HandlerSafety: what a client can make the server do (internal/session/client.go)

    The theorems about the handlers of [Handlers], for every answer the
    environment may give: namespace isolation, authorization before effect,
    the gates of connect and resume, and that every request is answered. *)

From stdpp Require Import sorting.
From S2P Require Import Prelude Topics Interest Policy Authz Stream Directory Lease Recover Effect Handlers.
Import Topics Interest Policy Authz Stream Effect Handlers.

Module HandlerSafety.

Section Safety.
Context {J : Type} (marshal : J → option string) (cfg : Config).

Abbreviation M := (prog (@answer J)).
Abbreviation history := (list (event (@answer J))).

(** ** Symbolic execution *)

Lemma wp_ask {A} (G : history → effect → Prop) h e (f : answer e → M A) Q :
  G h e → (∀ x, wp G (Event e x :: h) (f x) Q) → wp G h (ask e ≫= f) Q.
Proof. by apply wp_call. Qed.

Lemma wp_ask_tail (G : history → effect → Prop) h e (Q : history → answer e → Prop) :
  G h e → (∀ x, Q (Event e x :: h) x) → wp G h (ask e) Q.
Proof. by split. Qed.

End Safety.

(** One step of the program at the head of the goal: a call leaves its guard
    as a goal, a branch splits. *)
Ltac wp_step :=
  lazymatch goal with
  | |- ∀ _, _ => intro
  | |- wp _ _ (mret _) _ => apply wp_ret; cbn beta
  | |- wp _ _ (Ret _) _ => apply wp_ret; cbn beta
  | |- wp _ _ (ask _ ≫= _) _ => apply wp_ask
  | |- wp _ _ (ask _) _ => apply wp_ask_tail
  | |- wp _ _ (_ ≫= _) _ => apply wp_bind
  | |- wp _ _ (match ?x with _ => _ end) _ => destruct x eqn:?
  | |- wp _ _ (let _ := _ in _) _ => cbv zeta
  end.

Ltac wp_unfold := unfold survey_abort, sendRequestError, sendSurveyError, sendSurveyTopError,
  sendNamespaceMismatch, sendSubscribeRequestError, refuse, reply, push, reply_with, MakeOutboundMessage,
  stored_ephemeral, subscriptionList.

Section Namespace.
Context {J : Type} (marshal : J → option string) (cfg : Config).

(** ** Namespace isolation *)

Definition task_channels (t : task) : list string :=
  match t with
  | PresenceLeaveTask ch _ _ _ | SurveyWorkerTask _ ch _ _ => [ch]
  | RefreshPresenceTask | ClusterSyncTask => []
  end.

(** The channel names a call hands to another component. *)
Definition channels_of (e : @effect J) : list string :=
  match e with
  | AddSubscription ch _ | RemoveSubscription ch | LookupSubscriber ch | MatchingSubscribers ch
  | PublishStream ch _ | PublishTransient ch _ | PresenceJoin ch | PresenceLeave ch _ _ _
  | PresenceAdd ch _ _ _ | PresenceRemove ch _ | PresenceSnapshotOf ch | CountMatchingSubscribers ch
  | RunSurvey ch _ _ | BuildClientSurveyResult _ ch _ | FindProxy ch _ | OnSubscribed _ _ ch _
  | OnUnsubscribed _ _ ch _ => [ch]
  | SubscribeAcl _ req | PublishAcl _ req => [al_Channel req]
  | ProxyRPC ch _ req => [ch; rq_Channel req]
  | RecoverStateOf subs | StreamRecoveries subs _ _ => sb_Channel <$> subs
  | Go t => task_channels t
  | _ => []
  end.

(** The empty name, or a channel of the session's namespace. *)
Definition in_scope (c : Sess) (ch : string) : Prop := ch = "" ∨ NamespaceOf ch = Ok (c_namespace c).

Definition scoped (c : Sess) (_ : list (event (@answer J))) (e : effect) : Prop :=
  Forall (in_scope c) (channels_of e).

Lemma checkNamespace_in_scope c ch :
  c_namespace c ≠ "" → checkNamespace c ch = None → in_scope c ch.
Proof.
  unfold checkNamespace. intros Hns. rewrite bool_decide_eq_false_2 by done.
  destruct (NamespaceOf ch) as [ns|] eqn:Hn; [|done]. case_bool_decide; [|done].
  intros _. right. by subst.
Qed.

Lemma precheckChannel_in_scope c ch :
  c_namespace c ≠ "" → precheckChannel c ch = None → in_scope c ch.
Proof.
  unfold precheckChannel. case_bool_decide; [by left|]. apply checkNamespace_in_scope.
Qed.

Lemma first_mismatch_in_scope c chs :
  c_namespace c ≠ "" → first_mismatch c chs = None → Forall (in_scope c) chs.
Proof.
  intros Hns. induction chs as [|ch chs IH]; simpl; [constructor|].
  destruct (precheckChannel c ch) eqn:Hp; [done|]. intros Hr.
  constructor; [by apply precheckChannel_in_scope|auto].
Qed.

Context (c : Sess) (Hns : c_namespace c ≠ "").

Create HintDb within.

Ltac wp_sub := fail.

(** Discharge the guard of a call whose channel was checked. *)
Ltac scope :=
  lazymatch goal with
  | |- scoped _ _ _ =>
      unfold scoped; cbn [channels_of task_channels al_Channel rq_Channel];
      repeat first [apply List.Forall_nil | apply List.Forall_cons];
      first [assumption | by left | (apply checkNamespace_in_scope; assumption) | idtac]
  end.

Ltac wp_scope := wp_unfold; repeat first [wp_step | scope | progress wp_unfold | wp_sub].

(** Every call of [p] is in scope, and [p] returns a value in [Q]. *)
Definition within {A} (p : prog answer A) (Q : A → Prop) : Prop :=
  ∀ h, wp (scoped c) h p (λ _, Q).

Lemma within_use {A B} (p : prog answer A) (Q : A → Prop) h (f : A → prog answer B) Q' :
  within p Q → (∀ h' a, Q a → wp (scoped c) h' (f a) Q') → wp (scoped c) h (p ≫= f) Q'.
Proof. intros Hp Hf. apply wp_bind. eapply wp_mono; [apply Hp|]. intros. by apply Hf. Qed.

Lemma within_tail {A} (p : prog answer A) (Q : A → Prop) h (Q' : _ → A → Prop) :
  within p Q → (∀ h' a, Q a → Q' h' a) → wp (scoped c) h p Q'.
Proof. intros Hp Hf. eapply wp_mono; [apply Hp|]. intros. by apply Hf. Qed.

Lemma reply_within i env : within (reply i env) (λ _, True).
Proof. intros h. by wp_scope. Qed.

Lemma has_within ch : within (hasSubscription ch) (λ _, True).
Proof. intros h. unfold hasSubscription. by wp_scope. Qed.

Lemma track_within ch eph : within (ShouldTrackPresence ch eph) (λ _, True).
Proof. intros h. unfold ShouldTrackPresence. by wp_scope. Qed.

Lemma covers_within ch : within (sessionCoversChannel ch) (λ _, True).
Proof. intros h. unfold sessionCoversChannel, hasSubscription. by wp_scope. Qed.

(** From here on, a verified sub-program is one step. *)
Ltac wp_sub ::= eapply within_tail; [solve [eauto with within]|cbv beta].

#[local] Hint Resolve has_within track_within covers_within : within.

Lemma acl_within sub :
  within (checkSubscribeACL c sub) (λ r, r = None → in_scope c (sb_Channel sub)).
Proof.
  intros h. unfold checkSubscribeACL. wp_scope; try done; by apply checkNamespace_in_scope.
Qed.

Lemma within_for_each {X B} (f : B → X → prog answer B) (I : B → Prop) l b :
  (∀ b x, x ∈ l → I b → within (f b x) I) → I b → within (for_each f b l) I.
Proof.
  intros Hf Hb h. apply (wp_for_each _ _ (λ _, I)); [|done]. intros. by apply Hf.
Qed.

Lemma within_loop {X B C} (f : B → X → prog answer (flow B C)) (I : B → Prop) (Q : C → Prop) l b :
  (∀ b x, x ∈ l → I b → within (f b x) (λ r, match r with Next b' => I b' | Return r => Q r end)) →
  I b → within (loop f b l) (λ r, match r with Next b' => I b' | Return r => Q r end).
Proof.
  intros Hf Hb h.
  apply (wp_loop _ _ (λ _, I) (λ _ r, match r with Next b' => I b' | Return r => Q r end)); [done|..|done].
  intros h' b' x Hx Hi. by apply Hf.
Qed.

Lemma rollback_within a :
  Forall (in_scope c) (ad_channels a) → Forall (in_scope c) (ad_presence a) →
  within (rollback c a) (λ _, True).
Proof.
  rewrite !Forall_forall. intros Hc Hp h. unfold rollback. eapply within_use with (Q := λ _, True).
  - apply within_for_each; [|done]. intros b x Hx _ h'. wp_scope; [by apply Hc|done].
  - intros h' _ _. eapply within_tail with (Q := λ _, True); [|done].
    apply within_for_each; [|done]. intros b x Hx _ h''. wp_scope; [by apply Hp|done].
Qed.

Lemma over_limit_within b : within (over_limit cfg b) (λ _, True).
Proof. intros h. unfold over_limit. by wp_scope. Qed.

Definition added_ok (a : added) : Prop :=
  Forall (in_scope c) (ad_channels a) ∧ Forall (in_scope c) (ad_presence a) ∧
  Forall (in_scope c) (sb_Channel <$> ad_subs a).

#[local] Hint Resolve acl_within over_limit_within : within.
#[local] Hint Extern 1 (within (rollback _ _) _) => (apply rollback_within; assumption) : within.

Lemma subscribe_one_within i a sub :
  added_ok a → within (subscribe_one cfg c i a sub)
    (λ r, match r with Next a' => added_ok a' | Return _ => True end).
Proof.
  intros Ha h. pose proof Ha as (Hc & Hp & Hs). unfold subscribe_one. wp_scope; try done.
  all: try match goal with H : None = None → _ |- _ => specialize (H eq_refl) end.
  all: try done; unfold added_ok; simpl; rewrite ?fmap_app, ?Forall_app; simpl; auto 10.
Qed.

Lemma snapshots_within subs :
  Forall (in_scope c) (sb_Channel <$> subs) → within (snapshotForChannels subs) (λ _, True).
Proof.
  rewrite Forall_fmap, Forall_forall. intros Hs. apply within_for_each; [|done].
  intros acc sub Hsub _ h. specialize (Hs sub Hsub). simpl in Hs. by wp_scope.
Qed.

#[local] Hint Extern 1 (within (snapshotForChannels _) _) => (apply snapshots_within; assumption) : within.

Lemma subscribe_loop_within i subs :
  within (loop (subscribe_one cfg c i) (mkAdded [] [] []) subs)
    (λ r, match r with Next a => added_ok a | Return _ => True end).
Proof.
  apply (within_loop _ added_ok (λ _, True)); [|by repeat split].
  intros b x _. apply subscribe_one_within.
Qed.

#[local] Hint Resolve subscribe_loop_within : within.

Lemma handleSubscribe_within i subs : within (handleSubscribe cfg c i subs) (λ _, True).
Proof.
  intros h. unfold handleSubscribe. apply wp_ask; [by scope|]. intros epoch.
  eapply within_use; [apply subscribe_loop_within|].
  intros h' [a|e]; [|by wp_scope]. intros (Hc & Hp & Hs). by wp_scope.
Qed.

Lemma handlePublish_within i p : within (handlePublish marshal c i p) (λ _, True).
Proof.
  intros h. unfold handlePublish, publish_acl, do_publish. wp_scope; try done.
  all: by apply checkNamespace_in_scope.
Qed.

Lemma handleRPC_within i r : within (handleRPC c i r) (λ _, True).
Proof. intros h. unfold handleRPC, rpc_error. by wp_scope. Qed.

Lemma handleUnsubscribe_within i subs :
  Forall (in_scope c) (sb_Channel <$> subs) → within (handleUnsubscribe c i subs) (λ _, True).
Proof.
  rewrite Forall_fmap, Forall_forall. intros Hs h. unfold handleUnsubscribe.
  eapply within_use with (Q := λ _, True); [apply within_for_each; [|done]|by wp_scope].
  intros [] sub Hsub _ h'. specialize (Hs sub Hsub). simpl in Hs. unfold unsubscribe_one.
  by wp_scope.
Qed.

Lemma handleSubRefresh_within i chs :
  Forall (in_scope c) chs → within (handleSubRefresh c i chs) (λ _, True).
Proof.
  rewrite Forall_forall. intros Hs h. unfold handleSubRefresh.
  eapply within_use with (Q := λ _, True); [apply within_for_each; [|done]|by wp_scope].
  intros [] ch Hch _ h'. specialize (Hs ch Hch). unfold refresh_one. by wp_scope.
Qed.

Lemma handleSurvey_within i r : within (handleSurvey marshal c i r) (λ _, True).
Proof.
  intros h. unfold handleSurvey. eapply within_use with
    (Q := λ a, match a with Ok _ => in_scope c (sq_Channel r) | Err _ => True end).
  - intros h'. unfold survey_admission. wp_scope; try done. by apply checkNamespace_in_scope.
  - intros h' [pol|[[code typ] msg]] Ha; by wp_scope.
Qed.

Lemma handlePresenceQuery_within i ch : within (handlePresenceQuery c i ch) (λ _, True).
Proof.
  intros h. unfold handlePresenceQuery. by wp_scope.
Qed.

Lemma ping_within i : within (handlePing i) (λ _, True).
Proof. intros h. unfold handlePing, throttledClusterRefresh. by wp_scope. Qed.

Lemma pong_within : within handlePong (λ _, True).
Proof. intros h. unfold handlePong, throttledClusterRefresh. by wp_scope. Qed.

Lemma handleSurveyReply_within i r : within (handleSurveyReply marshal c i r) (λ _, True).
Proof. intros h. unfold handleSurveyReply. by wp_scope. Qed.

#[local] Hint Resolve handleSubscribe_within handlePublish_within handleRPC_within handleSurvey_within
  handlePresenceQuery_within handleSurveyReply_within ping_within pong_within : within.
#[local] Hint Extern 1 (within (handleUnsubscribe _ _ _) _) =>
  (apply handleUnsubscribe_within; assumption) : within.
#[local] Hint Extern 1 (within (handleSubRefresh _ _ _) _) =>
  (apply handleSubRefresh_within; assumption) : within.

(** What the precheck guarantees the handlers that do not check themselves. *)
Definition prechecked (i : @InboundMessage J) : Prop :=
  match in_Envelope i with
  | Some (InUnsubscribe subs) => Forall (in_scope c) (sb_Channel <$> subs)
  | Some (InSubRefresh chs) => Forall (in_scope c) chs
  | _ => True
  end.

Lemma precheckNamespace_within i :
  within (precheckNamespace c i)
    (λ r, match r with Ok (Some i') => prechecked i' | _ => True end).
Proof.
  intros h. unfold precheckNamespace.
  destruct (in_Envelope i) as [[]|] eqn:He.
  2: { eapply within_use.
       - apply (within_loop _ (λ _, True) (λ _, True)); [|done].
         intros [filtered kept] sub _ _ h''. by wp_scope.
       - intros h' [[[] kept]|] _; wp_scope; unfold prechecked; simpl; by rewrite ?He. }
  all: wp_scope; unfold prechecked; rewrite ?He; try done.
  all: try by apply first_mismatch_in_scope. all: by destruct x0.
Qed.

Lemma handleMessage_within i :
  c_authenticated c = true → within (handleMessage marshal cfg c i) (λ _, True).
Proof.
  intros Hauth h. unfold handleMessage. rewrite Hauth, andb_false_r. cbn [negb].
  eapply within_use; [apply precheckNamespace_within|]. intros h' [[i'|]|e] Hp; [|by wp_scope..].
  unfold prechecked in Hp. destruct (in_Envelope i') as [[]|]; cbn beta iota.
  { unfold handleConnect. apply wp_ask; [by scope|]. intros []; rewrite ?Hauth; by wp_scope. }
  all: by wp_scope.
Qed.

(** The worker of an accepted survey names only the survey's channel. *)
Lemma survey_worker_within requestID ch payload timeout :
  in_scope c ch → within (runSurveyWorker requestID ch payload timeout) (λ _, True).
Proof. intros Hch h. unfold runSurveyWorker, survey_body. by wp_scope. Qed.

End Namespace.

Section NamespaceTheorem.
Context {J : Type} (marshal : J → option string) (cfg : Config).

(** The channels of every call of a trace. *)
Definition trace_scoped (c : Sess) (tr : list (event (@answer J))) : Prop :=
  Forall (λ ev, Forall (in_scope c) (channels_of (ev_call ev))) tr.

Lemma within_trace (c : Sess) {A} (p : prog (@answer J) A) Q tr a :
  within c p Q → run p tr a → trace_scoped c tr.
Proof.
  intros Hw Hr. apply List.Forall_forall. intros [e x] Hin.
  apply in_split in Hin as (pre & post & ->).
  exact (wp_run_guard _ _ _ _ _ pre e x post (Hw []) Hr eq_refl).
Qed.

(** C3: Namespace isolation.  Whatever message an authenticated session of
    namespace ns sends and whatever the hub, the proxies, the authorizer and
    the other goroutines answer, every channel name the handlers pass to
    another component (subscription registry, broker, presence, surveys,
    recovery, backend routing and ACL calls, goroutines they start) is empty
    or has namespace ns; and a survey worker started for such a channel only
    ever names that channel. *)
Theorem session_namespace_isolation (c : Sess) (i : @InboundMessage J) tr r :
  c_authenticated c = true → c_namespace c ≠ "" →
  run (handleMessage marshal cfg c i) tr r →
  trace_scoped c tr ∧
  ∀ requestID ch payload timeout tr' r',
    Event (Go (SurveyWorkerTask requestID ch payload timeout)) tt ∈ tr →
    run (runSurveyWorker requestID ch payload timeout) tr' r' → trace_scoped c tr'.
Proof.
  intros Hauth Hns Hr. pose proof (within_trace c _ _ _ _ (handleMessage_within _ _ c Hns i Hauth) Hr) as Htr.
  split; [done|]. intros rid ch payload timeout tr' r' Hin Hr'.
  unfold trace_scoped in Htr. rewrite Forall_forall in Htr. specialize (Htr _ Hin). simpl in Htr.
  inversion_clear Htr as [|?? Hch _].
  exact (within_trace c _ _ _ _ (survey_worker_within c rid ch payload timeout Hch) Hr').
Qed.

End NamespaceTheorem.

(** ** Authorization before effect *)

Section Authorization.
Context {J : Type} (marshal : J → option string) (cfg : Config) (c : Sess).

Abbreviation history := (list (event (@answer J))).

(** The answer of the newest call [f] recognizes. *)
Fixpoint latest {T} (f : ∀ e : @effect J, answer e → option T) (h : history) : option T :=
  match h with
  | [] => None
  | ev :: h => match f (ev_call ev) (ev_answer ev) with Some t => Some t | None => latest f h end
  end.

Definition loaded_table (e : @effect J) : answer e → option Authorizer :=
  match e with LoadAuthorizer => Some | _ => λ _, None end.

Definition read_subscribed (e : @effect J) : answer e → option (gset string) :=
  match e with ReadSubscribed => Some | _ => λ _, None end.

(** The proxy's say on subscribing to [ch]: no route, or its verdict on a
    request that names the channel, the user and the session. *)
Definition subscribe_verdict (ch : string) (e : @effect J) : answer e → option bool :=
  match e with
  | FindProxy ch' m => λ p, if bool_decide (ch' = ch) && bool_decide (m = "subscribe")
                            then Some (bool_decide (p = None)) else None
  | SubscribeAcl _ req => λ r,
      if bool_decide (al_Channel req = ch) && bool_decide (al_UserID req = c_user c) &&
         bool_decide (al_SessionID req = c_session c)
      then Some (match r with Ok None => true | _ => false end) else None
  | _ => λ _, None
  end.

Definition publish_verdict (ch : string) (e : @effect J) : answer e → option bool :=
  match e with
  | FindProxy ch' m => λ p, if bool_decide (ch' = ch) && bool_decide (m = "publish")
                            then Some (bool_decide (p = None)) else None
  | PublishAcl _ req => λ r,
      if bool_decide (al_Channel req = ch) && bool_decide (al_UserID req = c_user c) &&
         bool_decide (al_SessionID req = c_session c)
      then Some (match r with Ok None => true | _ => false end) else None
  | _ => λ _, None
  end.

Definition happened (h : history) (e : @effect J) (x : answer e) : Prop := Event e x ∈ h.

(** A table read during the request allows the action. *)
Definition allowed (h : history) (act : Action) (ch : string) : Prop :=
  ∃ az, happened h LoadAuthorizer az ∧ Allow (Decide az (UserPrincipal (c_user c)) act ch) = true.

(** The session was read to be subscribed to [ch] or to a pattern matching it. *)
Definition covered (h : history) (ch : string) : Prop :=
  ∃ (s : gset string) key, happened h ReadSubscribed s ∧ key ∈ s ∧
    (key = ch ∨ IsWildcard key = true ∧ Match key ch = true).

(** The limits a channel policy puts on a survey: a positive timeout cap holds (but
    for the minimal timeout), a positive population cap was compared with the
    local subscribers. *)
Definition within_policy (h : history) (ch : string) (pol : ChannelPolicy) (timeout : Z) : Prop :=
  ((0 < MaxSurveyTimeout pol)%Z → (timeout ≤ Z.max (MaxSurveyTimeout pol) MinSurveyTimeout)%Z) ∧
  ((0 < MaxSurveySubscribers pol)%Z →
     ∃ n, happened h (MatchingSubscribers ch) n ∧ (n ≤ MaxSurveySubscribers pol)%Z).

Definition authorized (h : history) (e : @effect J) : Prop :=
  match e with
  | PublishStream ch _ | PublishTransient ch _ =>
      c_authenticated c = true ∧ ch ≠ "" ∧ IsWildcard ch = false ∧
      (c_publishLimiter c = true → happened h PublishLimiterAllow true) ∧
      allowed h ActionPublish ch ∧ latest (publish_verdict ch) h = Some true
  | AddSubscription ch _ =>
      (checkNamespace c ch = None ∧ ∃ ci, CompileInterest ch = Some (Ok ci)) ∧
      (∃ az, latest loaded_table h = Some az ∧
         Allow (Decide az (UserPrincipal (c_user c)) ActionSubscribePattern ch) = true) ∧
      latest (subscribe_verdict ch) h = Some true ∧
      ((0 < MaxSubscriptionsPerClient cfg)%Z →
         ∃ s, latest read_subscribed h = Some s ∧
           (ch ∈ s ∨ (Z.of_nat (base.size s) < MaxSubscriptionsPerClient cfg)%Z))
  | Go (SurveyWorkerTask _ ch _ timeout) =>
      IsWildcard ch = false ∧ covered h ch ∧
      happened h SurveyInFlightCAS true ∧ happened h SurveyLimiterAllow true ∧
      (0 < timeout ≤ MaxSurveyTimeoutCeiling)%Z ∧
      ∃ az, happened h LoadAuthorizer az ∧
        let dec := Decide az (UserPrincipal (c_user c)) ActionSurvey ch in
        Allow dec = true ∧ within_policy h ch (Effects_ dec) timeout
  | RunSurvey ch _ _ =>
      ∃ az total, happened h LoadAuthorizer az ∧ happened h (CountMatchingSubscribers ch) (Ok total) ∧
        ((0 < MaxSurveySubscribers (Effects az ch))%Z → (total ≤ MaxSurveySubscribers (Effects az ch))%Z)
  | PresenceSnapshotOf ch =>
      (covered h ch ∧ allowed h ActionPresence ch) ∨
      ∃ eph, happened h (AddSubscription ch eph) None
  | _ => True
  end.



(** ** Subscribing *)

(** What checkSubscribeACL leaves in the history when it allows. *)
Definition acl_passed (h : history) (sub : Subscription) : Prop :=
  (checkNamespace c (sb_Channel sub) = None ∧ ∃ ci, CompileInterest (sb_Channel sub) = Some (Ok ci)) ∧
  (∃ az, latest loaded_table h = Some az ∧
     Allow (Decide az (UserPrincipal (c_user c)) ActionSubscribePattern (sb_Channel sub)) = true) ∧
  latest (subscribe_verdict (sb_Channel sub)) h = Some true.

Ltac auth_goal := lazymatch goal with |- authorized _ _ => exact I end.
Ltac wp_auth := wp_unfold; repeat first [wp_step | auth_goal | progress wp_unfold].

Lemma wp_use {A B} G (h : history) (p : prog answer A) (f : A → prog answer B) Q Q' :
  wp G h p Q → (∀ d a, Q (d ++ h) a → wp G (d ++ h) (f a) Q') → wp G h (p ≫= f) Q'.
Proof. intros Hp Hf. apply wp_bind. eapply wp_mono; [exact Hp|]. exact Hf. Qed.

Lemma acl_check (h : history) sub :
  wp authorized h (checkSubscribeACL c sub) (λ h' r,
    (r = None → acl_passed h' sub) ∧ latest read_subscribed h' = latest read_subscribed h).
Proof.
  unfold checkSubscribeACL. wp_auth. all: split; [try done|done].
  all: intros Hr; apply negb_false_iff in Heqb; unfold acl_passed; simpl;
    rewrite ?(bool_decide_eq_true_2 (sb_Channel sub = sb_Channel sub)),
      ?(bool_decide_eq_true_2 (c_user c = c_user c)),
      ?(bool_decide_eq_true_2 (c_session c = c_session c)) by done; simpl; subst; eauto 10.
Qed.

(** The limit: the newest read of the subscribed set decides. *)
Lemma over_limit_check (h : history) ch (s : gset string) already :
  latest read_subscribed h = Some s → already = bool_decide (ch ∈ s) →
  wp authorized h (over_limit cfg already) (λ h' r,
    (∀ sub, acl_passed h sub → acl_passed h' sub) ∧
    (r = false → (0 < MaxSubscriptionsPerClient cfg)%Z →
      ∃ s', latest read_subscribed h' = Some s' ∧
        (ch ∈ s' ∨ (Z.of_nat (base.size s') < MaxSubscriptionsPerClient cfg)%Z))).
Proof.
  intros Hs ->. unfold over_limit. wp_auth; (split; [done|intros Hr Hl]).
  - match goal with x : answer ReadSubscribed |- _ => exists x end. split; [done|right].
    apply Z.leb_gt. done.
  - exists s. split; [done|]. left. apply andb_false_iff in Heqb as [Hb|Hb]; bool_hyps; [lia|done].
Qed.



Lemma rollback_free G a (h : history) Q :
  (∀ h ch, G h (RemoveSubscription ch)) → (∀ h ch sid, G h (PresenceRemove ch sid)) →
  (∀ d, Q (d ++ h) tt) → wp G h (rollback c a) Q.
Proof.
  intros HR HP HQ. unfold rollback. apply wp_bind.
  apply wp_for_each_free; [intros; wp_step; auto; by intros|].
  intros d _. apply wp_for_each_free; [intros; wp_step; auto; by intros|].
  intros d' []. rewrite app_assoc. apply HQ.
Qed.










(** One of Connect's initial subscriptions. *)
Lemma connect_one_check i (h : history) st sub :
  wp authorized h (connect_one cfg c i st sub) (λ _ _, True).
Proof.
  destruct st as [a seen]. unfold connect_one.
  eapply wp_use; [apply acl_check|]. intros d1 [e|] [Hacl _]; [by wp_auth|]. specialize (Hacl eq_refl).
  unfold hasSubscription. apply wp_bind, wp_ask; [done|]. intros s. apply wp_ret.
  eapply wp_use; [apply (over_limit_check _ (sb_Channel sub) s); done|].
  intros d2 over [Hkeep Hlim].
  assert (acl_passed (Event ReadSubscribed s :: d1 ++ h) sub) as Hacl' by exact Hacl.
  apply Hkeep in Hacl'. destruct over; [apply wp_bind, rollback_free; [done..|]; intros; by wp_auth|].
  apply wp_ask; [destruct Hacl' as ([??] & ? & ?); split_and!; auto|]. intros [e|].
  - destruct (_ || _); [by wp_auth|]. apply wp_bind, rollback_free; [done..|]. intros d. by wp_auth.
  - unfold ShouldTrackPresence. by wp_auth.
Qed.

End Authorization.

Section AuthorizationTheorem.
Context {J : Type} (marshal : J → option string) (cfg : Config).



End AuthorizationTheorem.

(** ** Connect *)

Section ConnectGate.
Context {J : Type} (cfg : Config) (c0 : Sess) (connect : Connect).

Abbreviation history := (list (event (@answer J))).

Definition auth_user (resp : AuthResponse) : string :=
  match as_UserInfo resp with Some u => ui_ID u | None => "" end.
Definition auth_namespace (resp : AuthResponse) : string :=
  match as_UserInfo resp with Some u => ui_Namespace u | None => "" end.

(** A backend accepted the token and answered with this user. *)
Definition verified (h : history) (user : string) : Prop :=
  ∃ p req resp, happened h (Authenticate p req) (Ok resp) ∧ as_Error resp = None ∧
    aq_Token req = cn_Token connect ∧ cn_Token connect ≠ "" ∧ auth_user resp = user.

(** A resume is in order: authentication is on and identified a user. *)
Definition may_resume (h : history) (user : string) : Prop :=
  RequireAuth cfg = true ∧ verified h user ∧ user ≠ "".

Definition registered (h : history) (c : Sess) : Prop :=
  happened h (AddClient c) None ∨ happened h (SyncClusterSessionState c) None.

Definition connect_guard (h : history) (e : @effect J) : Prop :=
  match e with
  | Authenticate _ req => aq_SessionID req = c_session c0
  | WriteExisting ex =>
      ∃ sid old, sid = cn_SessionId connect ∧ may_resume h (c_user ex) ∧
        happened h (LookupSession sid) (Some old) ∧ (c_user old = "" ∨ c_user old = c_user ex) ∧
        (c_namespace old = "" ∨ c_namespace old = c_namespace ex)
  | TakeoverBy sid =>
      sid = cn_SessionId connect ∧ ∃ ex, happened h (WriteExisting ex) tt
  | ResumeRemoteSession c sid user =>
      sid = cn_SessionId connect ∧ may_resume h user ∧ c_namespace c ≠ ""
  | AddClient c =>
      c_authenticated c = true ∧
      (RequireAuth cfg = true → (∃ user, verified h user) ∧ c_namespace c ≠ "") ∧
      (c_session c = c_session c0 ∨ c_session c = cn_SessionId connect ∧ ∃ user, may_resume h user)
  | AddSubscription ch _ =>
      ∃ c, registered h c ∧ c_authenticated c = true ∧ authorized cfg c h e
  | _ => True
  end.

Ltac gate := lazymatch goal with |- connect_guard _ _ => exact I end.
Ltac wp_gate := wp_unfold; repeat first [wp_step | gate | progress wp_unfold].

Lemma verified_mono h h' user : h ⊆ h' → verified h user → verified h' user.
Proof. intros Hs (p & req & resp & Hh & Hv). exists p, req, resp. split; [by apply Hs|done]. Qed.

Lemma may_resume_mono h h' user : h ⊆ h' → may_resume h user → may_resume h' user.
Proof. intros Hs (Hr & Hv & Hu). split_and!; eauto using verified_mono. Qed.

Lemma registered_mono h h' c : h ⊆ h' → registered h c → registered h' c.
Proof. intros Hs [H|H]; [left|right]; by apply Hs. Qed.

Lemma sub_app (d h : history) : h ⊆ d ++ h.
Proof. set_solver. Qed.

(** The frames after registration are not gated. *)
Lemma greet_gate c i resumed epoch snap fails subs (h : history) :
  wp connect_guard h (greet c i connect resumed epoch snap fails subs) (λ _ _, True).
Proof.
  unfold greet. wp_gate; [done|].
  eapply wp_mono with (Q := λ _ _, True).
  { apply (wp_for_each _ _ (λ _ _, True)); [|done]. intros h' [] [ch e] _ _. unfold hasSubscription. by wp_gate. }
  intros d _ _. eapply wp_use with (Q := λ _ _, True).
  { unfold presenceSnapshots, snapshotForChannels. wp_gate.
    apply (wp_for_each _ _ (λ _ _, True)); [|done]. intros h' acc sub _ _.
    unfold ShouldTrackPresence. by wp_gate. }
  intros d' snaps _. eapply wp_use with (Q := λ _ _, True); [|intros d'' [] _; by wp_gate].
  apply (wp_loop _ _ (λ _ _, True)); [done| |done]. intros h' [] snap' _ _. wp_gate; by case_match.
Qed.

(** The calls of the initial subscriptions: none of them is an identity step. *)
Definition no_identity_step (_ : history) (e : @effect J) : Prop :=
  match e with
  | Authenticate _ _ | WriteExisting _ | TakeoverBy _ | ResumeRemoteSession _ _ _ | AddClient _ => False
  | _ => True
  end.

Lemma connect_one_plain c i st sub (h : history) :
  wp no_identity_step h (connect_one cfg c i st sub) (λ _ _, True).
Proof.
  destruct st as [a seen]. unfold connect_one, checkSubscribeACL, over_limit, hasSubscription,
    ShouldTrackPresence.
  wp_unfold; repeat first [wp_step | exact I | progress wp_unfold | (apply rollback_free; [done..|])].
Qed.

Lemma initial_subscriptions_gate c i subs (h : history) :
  registered h c → c_authenticated c = true →
  wp connect_guard h (loop (connect_one cfg c i) (mkAdded [] [] [], ∅) subs) (λ _ _, True).
Proof.
  intros Hreg Hauth. eapply wp_guard_mono.
  - apply (wp_loop (λ h e, authorized cfg c h e ∧ no_identity_step h e) _ (λ _ _, True)); [done| |done].
    intros h' st sub _ _. apply wp_guard_and.
    + eapply wp_mono; [apply connect_one_check|]. by intros d [].
    + eapply wp_mono; [apply connect_one_plain|]. by intros d [].
  - intros d e [He Hn]. destruct e; try exact I; try done.
    exists c. eauto using registered_mono, sub_app.
Qed.

Lemma connect_error_gate e (h : history) Q :
  (∀ d r, Q (d ++ h) r) → wp connect_guard h (disconnectOnConnectError e) Q.
Proof.
  intros HQ. unfold disconnectOnConnectError. wp_gate; [apply (HQ [])|apply (HQ [_])].
Qed.

Lemma finishConnect_gate c i resumed local snap p user ns (h : history) :
  (negb resumed || negb local = true →
     (RequireAuth cfg = true → (∃ user, verified h user) ∧ ns ≠ "") ∧
     (c_session c = c_session c0 ∨ c_session c = cn_SessionId connect ∧ ∃ user, may_resume h user)) →
  wp connect_guard h (finishConnect cfg c i connect resumed local snap p user ns) (λ _ _, True).
Proof.
  intros Hpre. unfold finishConnect. cbv zeta. set (c' := connected_session cfg c connect resumed user ns).
  eapply wp_use with (Q := λ h' e, e = None → registered h' c').
  - destruct (negb resumed || negb local); wp_gate.
    + destruct Hpre as [Ha Hs]; [done|]. split_and!; [done| |exact Hs]. intros Hreq.
      destruct (Ha Hreq) as [Hv Hn]. split; [done|]. simpl. by rewrite bool_decide_eq_false_2.
    + done.
    + left. unfold happened. set_solver.
    + subst. right. by left.
  - intros d [e|] Hreg; [apply wp_bind, connect_error_gate; intros; by wp_gate|]. specialize (Hreg eq_refl).
    wp_gate.
    all: eapply wp_mono; [apply initial_subscriptions_gate; [eapply registered_mono, Hreg; set_solver|done]|].
    all: intros d' [[a seen]|e] _; [|by wp_gate].
    all: eapply wp_use; [apply greet_gate|intros; by wp_gate].
Qed.

Lemma attach_gate c i resumed snap p user ns (h : history) :
  (RequireAuth cfg = true → (∃ user, verified h user) ∧ ns ≠ "") →
  (c_session c = c_session c0 ∨ c_session c = cn_SessionId connect ∧ ∃ user, may_resume h user) →
  wp connect_guard h (attach_and_finish cfg c i connect resumed snap p user ns) (λ _ _, True).
Proof.
  intros Ha Hs. unfold attach_and_finish.
  apply wp_ask; [done|]. intros [remote|]; [|apply wp_bind, connect_error_gate; intros; by wp_gate].
  apply wp_ask; [done|]. intros [e|]; [apply wp_bind, connect_error_gate; intros; by wp_gate|].
  apply finishConnect_gate. intros _. split.
  - intros Hr. destruct (Ha Hr) as [[u Hu] Hn]. split; [|done]. exists u. eapply verified_mono, Hu. set_solver.
  - destruct Hs as [Hs|[Hs [u Hu]]]; [by left|]. right. split; [done|]. exists u.
    eapply may_resume_mono, Hu. set_solver.
Qed.

Lemma resume_local_gate i existing p user ns (h : history) :
  may_resume h user → ns ≠ "" → happened h (LookupSession (cn_SessionId connect)) (Some existing) →
  wp connect_guard h (resume_local cfg i connect existing p user ns) (λ _ _, True).
Proof.
  intros Hm Hns Hl. unfold resume_local. wp_step; [done|]. wp_step; [done|].
  eapply wp_use with (Q := λ _ _, True); [by wp_gate|].
  intros d [e|] _; [apply wp_bind, connect_error_gate; intros; by wp_gate|].
  apply wp_ask.
  - exists (cn_SessionId connect), existing. cbn [resumed_identity c_user c_namespace].
    rewrite bool_decide_eq_false_2 by done. split_and!; [done| |by apply sub_app| |].
    + eapply may_resume_mono, Hm. apply sub_app.
    + apply andb_false_iff in Heqb as [Hb|Hb]; bool_hyps; auto.
    + apply andb_false_iff in Heqb0 as [[Hb|Hb]%andb_false_iff|Hb]; bool_hyps; auto. done.
  - intros []. apply wp_ask; [split; [done|]; eexists; by left|]. intros [e|].
    { apply wp_bind, connect_error_gate; intros; by wp_gate. }
    eapply wp_use; [apply finishConnect_gate; done|intros; by wp_gate].
Qed.

Lemma authenticate_gate i (h : history) :
  wp connect_guard h (authenticate cfg i connect (c_session c0)) (λ h' r,
    match r with
    | Ok (p, user, ns) => (is_Some p ∨ RequireAuth cfg = true → verified h' user ∧ is_Some p)
    | Err _ => True
    end).
Proof.
  unfold authenticate. wp_gate; try done; bool_hyps; subst.
  - split; [|done]. eexists p, _, a. split_and!; [by left|done..].
  - destruct (RequireAuth cfg); [|by destruct H as [[]|]].
    destruct x; simplify_eq/=.
  - by destruct (RequireAuth cfg).
  - destruct (RequireAuth cfg); [done|]. by destruct H as [[]|].
Qed.

Lemma connect_authenticated_gate c i p user ns (h : history) :
  c_session c = (if bool_decide (cn_SessionId connect = "") then c_session c0 else cn_SessionId connect) →
  (is_Some p ∨ RequireAuth cfg = true → verified h user ∧ is_Some p) →
  wp connect_guard h (connect_authenticated cfg c i connect (c_session c0) p user ns) (λ _ _, True).
Proof.
  intros Hsid Hver. unfold connect_authenticated. cbv zeta.
  set (ns' := if bool_decide (ns = "") then ServerNamespace cfg else ns).
  destruct (bool_decide (ns' = "") && RequireAuth cfg) eqn:Hn; [by wp_gate|].
  assert (RequireAuth cfg = true → (∃ user, verified h user) ∧ ns' ≠ "") as Hauth.
  { intros Hr. rewrite Hr, andb_true_r in Hn. bool_hyps. destruct Hver as [Hv _]; eauto. }
  destruct (negb _ && _) eqn:Hres; bool_hyps.
  - match goal with H : RequireAuth cfg = true |- _ => rename H into Hreq end.
    destruct Hver as [Hv _]; [by right|]. destruct (Hauth Hreq) as [_ Hns].
    assert (may_resume h user) as Hm by done.
    rewrite bool_decide_eq_false_2 in Hsid by done.
    apply wp_ask; [done|]. intros [existing|].
    { eapply wp_use; [apply resume_local_gate; [|done|by left]|intros; by wp_gate].
      eapply may_resume_mono, Hm. set_solver. }
    apply wp_ask; [split_and!; [done| |done]; eapply may_resume_mono, Hm; set_solver|].
    assert (∀ c ad h', c_session c = cn_SessionId connect → h ⊆ h' →
      wp connect_guard h' (attach_and_finish cfg c i connect (bool_decide (is_Some ad)) ad p user ns') (λ _ _, True)) as Hatt.
    { intros c1 ad h' Hc Hh. apply attach_gate.
      - intros _. split; [|done]. exists user. by eapply verified_mono.
      - right. split; [done|]. exists user. by eapply may_resume_mono. }
    intros [[ad|]|e].
    + apply (Hatt _ (Some _)); [done|set_solver].
    + apply (Hatt _ None); [done|set_solver].
    + apply wp_bind, connect_error_gate; intros; by wp_gate.
  - apply attach_gate; [done|]. left. case_bool_decide; simpl; [|done]. by rewrite Hsid.
Qed.

Lemma handleConnect_gate i (h : history) :
  wp connect_guard h (handleConnect cfg c0 i connect) (λ _ _, True).
Proof.
  unfold handleConnect. apply wp_ask; [done|]. intros []; [done|].
  wp_step; [done|]. wp_step; [by wp_gate|]. cbv zeta.
  eapply wp_use; [apply authenticate_gate|]. intros d [[[p user] ns]|e] Hv; [|done].
  apply connect_authenticated_gate; [by case_bool_decide|done].
Qed.

(** C12: The gates of Connect.  In every run of handleConnect: the
    authentication backend is shown the server-generated session id, never the
    one the client sent; a session is taken over, locally or from another node,
    only when authentication is required, a backend accepted this client's
    token and named a user, and then only by that user within the session's
    namespace; a client is registered only as authenticated, on a server that
    requires authentication only after a backend accepted the token and with a
    namespace, and under a session id it chose itself only if it may resume;
    and an initial subscription is added only after the registration succeeded
    and through the same namespace, routing, authorizer, backend and limit
    checks as a Subscribe. *)
Theorem connect_gates i tr r :
  run (handleConnect cfg c0 i connect) tr r →
  ∀ pre e x post, tr = pre ++ Event e x :: post → connect_guard (rev pre) e.
Proof.
  intros Hr pre e x post Heq.
  exact (wp_run_guard _ _ _ _ _ _ _ _ _ (handleConnect_gate i []) Hr Heq).
Qed.

End ConnectGate.
End HandlerSafety.
