(* ===== verification/HandlerReplies.v ===== *)
(** * HandlerReplies: what the client and the other components see (internal/session/client.go)

    Every request is answered, what a publish acknowledgement means, the
    in-flight discipline of client surveys, and two things a client can do that
    the code's comments rule out.  Concrete runs close the file. *)

From S2P Require Import Prelude Topics Interest Policy Authz Stream Directory Lease Recover Effect Handlers HandlerSafety.
Import Topics Interest Policy Authz Stream Effect Handlers HandlerSafety.

Module HandlerReplies.

Section Replies.
Context {J : Type} (marshal : J → option string) (cfg : Config).

Abbreviation history := (list (event (@answer J))).

Definition free (_ : history) (_ : @effect J) : Prop := True.

Ltac wp_free := wp_unfold; repeat first [wp_step | exact I | progress wp_unfold].

(** ** Every request is answered *)

(** A frame with the request's id was handed to the outbound queue. *)
Definition replied (h : history) (id : string) : Prop :=
  ∃ m x, happened h (Send m) x ∧ out_Id m = id.

Lemma replied_mono h h' id : h ⊆ h' → replied h id → replied h' id.
Proof. intros Hs (m & x & Hm & Hid). exists m, x. split; [by apply Hs|done]. Qed.

(** The requests that are answered later or not at all. *)
Definition deferred (h : history) (i : @InboundMessage J) : Prop :=
  match in_Envelope i with
  | Some InPong | Some (InSurveyReply _) => True
  | Some (InSurveyRequest r) =>
      ∃ requestID ch payload timeout,
        happened h (Go (SurveyWorkerTask requestID ch payload timeout)) tt ∧ ch = sq_Channel r
  | _ => False
  end.

Lemma reply_sent i env (h : history) : wp free h (reply i env) (λ h' _, replied h' (in_Id i)).
Proof. wp_free. eexists _, _. split; [by left|done]. Qed.

(** Solve a [replied] goal from the newest frame. *)
Ltac sent := first [by eexists _, _; split; [by left|done] | done].

Lemma publish_replies c i p (h : history) :
  wp free h (handlePublish marshal c i p) (λ h' e, e = None → replied h' (in_Id i)).
Proof. unfold handlePublish, publish_acl, do_publish. wp_free; sent. Qed.

Lemma rpc_replies c i r (h : history) :
  wp free h (handleRPC c i r) (λ h' e, e = None → replied h' (in_Id i)).
Proof. unfold handleRPC, rpc_error. wp_free; sent. Qed.

Lemma unsubscribe_replies c i subs (h : history) :
  wp free h (handleUnsubscribe c i subs) (λ h' e, e = None → replied h' (in_Id i)).
Proof.
  unfold handleUnsubscribe. apply wp_bind, wp_for_each_free.
  - intros. unfold unsubscribe_one, hasSubscription, ShouldTrackPresence. by wp_free.
  - intros. wp_free; sent.
Qed.

Lemma refresh_replies c i chs (h : history) :
  wp free h (handleSubRefresh c i chs) (λ h' e, e = None → replied h' (in_Id i)).
Proof.
  unfold handleSubRefresh. apply wp_bind, wp_for_each_free.
  - intros. unfold refresh_one, ShouldTrackPresence. by wp_free.
  - intros. wp_free; sent.
Qed.

Lemma presence_replies c i ch (h : history) :
  wp free h (handlePresenceQuery c i ch) (λ h' e, e = None → replied h' (in_Id i)).
Proof. unfold handlePresenceQuery, sessionCoversChannel, hasSubscription. wp_free; sent. Qed.

Lemma survey_replies c i r (h : history) :
  wp free h (handleSurvey marshal c i r) (λ h' e, e = None → replied h' (in_Id i) ∨
    ∃ requestID ch payload timeout,
      happened h' (Go (SurveyWorkerTask requestID ch payload timeout)) tt ∧ ch = sq_Channel r).
Proof.
  unfold handleSurvey. apply wp_bind. eapply wp_mono with (Q := λ _ _, True).
  { unfold survey_admission, sessionCoversChannel, hasSubscription. by wp_free. }
  intros d [pol|[[code typ] msg]] _; wp_free; try done; try (left; sent).
  all: right; match goal with x : answer (Go _) |- _ => destruct x end.
  all: eexists _, _, _, _; split; [by left|done].
Qed.

(** Any program without a frame of its own. *)
Lemma wp_free_any {A} (p : prog answer A) (h : history) (Q : history → A → Prop) :
  (∀ d a, Q (d ++ h) a) → wp free h p Q.
Proof.
  revert h. induction p as [a|e k IH]; intros h HQ; [apply (HQ [])|]. split; [done|].
  intros x. apply IH. intros d a. specialize (HQ (d ++ [Event e x]) a). by rewrite <-app_assoc in HQ.
Qed.

(** A loop body that returns only with an error. *)
Definition fails {B} (_ : history) (r : flow B error) : Prop :=
  match r with Return None => False | _ => True end.

Lemma loop_fails {X B} (f : B → X → prog answer (flow B error)) l b (h : history) :
  (∀ h b x, wp free h (f b x) fails) → wp free h (loop f b l) fails.
Proof.
  intros Hf. apply (wp_loop _ _ (λ _ _, True)); [done| |done]. intros h' b' x _ _.
  eapply wp_mono; [apply Hf|]. by intros d [].
Qed.

Lemma subscribe_one_fails c i a sub (h : history) : wp free h (subscribe_one cfg c i a sub) fails.
Proof.
  unfold subscribe_one, hasSubscription, checkSubscribeACL, over_limit, ShouldTrackPresence.
  wp_free; try done. all: apply rollback_free; [done..|]; intros; by wp_free.
Qed.

Lemma subscribe_replies c i subs (h : history) :
  wp free h (handleSubscribe cfg c i subs) (λ h' e, e = None → replied h' (in_Id i)).
Proof.
  unfold handleSubscribe. apply wp_ask; [done|]. intros epoch.
  eapply wp_use; [apply loop_fails; intros; apply subscribe_one_fails|].
  intros d [a|[e|]] Hf; [|done..]. unfold reply_with, MakeOutboundMessage.
  wp_step. repeat (wp_step; try exact I). apply wp_free_any. intros d' snaps. wp_free; [done|].
  eexists _, _. split; [by right; left|done].
Qed.

Lemma connect_one_fails c i st sub (h : history) : wp free h (connect_one cfg c i st sub) fails.
Proof.
  destruct st as [a seen].
  unfold connect_one, hasSubscription, checkSubscribeACL, over_limit, ShouldTrackPresence.
  wp_free; try done. all: apply rollback_free; [done..|]; intros; by wp_free.
Qed.

Lemma greet_replies c i connect resumed epoch snap fails subs (h : history) :
  wp free h (greet c i connect resumed epoch snap fails subs) (λ h' e, e = None → replied h' (in_Id i)).
Proof.
  unfold greet. eapply wp_use with (Q := λ h' _, replied h' (in_Id i)); [wp_free; sent|].
  intros d [e|] Hr; [done|]. apply wp_free_any. intros d' e _. eapply replied_mono, Hr. set_solver.
Qed.

Lemma connect_error_fails e (h : history) : wp free h (disconnectOnConnectError e) (λ _ r, r ≠ None).
Proof. unfold disconnectOnConnectError. by wp_free. Qed.

(** A connect that returns no error has answered. *)
Definition greeted {A} (i : @InboundMessage J) (h : history) (r : error * A) : Prop :=
  r.1 = None → replied h (in_Id i).

Lemma connect_error_greeted {A} i e (a : A) (h : history) :
  wp free h (e ← disconnectOnConnectError e; mret (e, a)) (greeted i).
Proof. eapply wp_use; [apply connect_error_fails|]. intros d r Hr. apply wp_ret. by intros Hn. Qed.

Lemma refuse_greeted {A} i er d (a : A) (h : history) :
  wp free h (e ← refuse i er d; mret (e, a)) (greeted i).
Proof. by wp_free. Qed.

Lemma finishConnect_greets c i connect resumed local snap p user ns (h : history) :
  wp free h (finishConnect cfg c i connect resumed local snap p user ns) (greeted i).
Proof.
  unfold finishConnect. apply wp_bind, wp_free_any. intros d [e|]; [apply connect_error_greeted|].
  apply wp_bind, wp_free_any. intros d1 fs. apply wp_bind, wp_free_any. intros d2 _.
  apply wp_ask; [done|]. intros epoch.
  eapply wp_use; [apply loop_fails; intros; apply connect_one_fails|].
  intros d3 [[a seen]|[e|]] Hf; [|done..].
  eapply wp_use; [apply greet_replies|]. intros d4 e He. by wp_free.
Qed.

Lemma attach_greets c i connect resumed snap p user ns (h : history) :
  wp free h (attach_and_finish cfg c i connect resumed snap p user ns) (greeted i).
Proof.
  unfold attach_and_finish. apply wp_ask; [done|]. intros [remote|]; [|apply connect_error_greeted].
  apply wp_ask; [done|]. intros [e|]; [apply connect_error_greeted|apply finishConnect_greets].
Qed.

Lemma resume_local_greets i connect existing p user ns (h : history) :
  wp free h (resume_local cfg i connect existing p user ns) (greeted i).
Proof.
  unfold resume_local. wp_step; [done|]. wp_step; [done|].
  apply wp_bind, wp_free_any. intros d [e|]; [apply connect_error_greeted|].
  apply wp_ask; [done|]. intros u. apply wp_ask; [done|]. intros [e|]; [apply connect_error_greeted|].
  eapply wp_use; [apply finishConnect_greets|]. intros d' [e c'] Hg. by wp_free.
Qed.

Lemma connect_greets c i connect (h : history) : wp free h (handleConnect cfg c i connect) (greeted i).
Proof.
  unfold handleConnect. apply wp_ask; [done|]. intros []; [done|].
  wp_step; [done|]. wp_step; [apply refuse_greeted|]. cbv zeta.
  eapply wp_use with (Q := λ _ r, match r with Err None => False | _ => True end).
  { unfold authenticate. by wp_free. }
  intros d [[[p user] ns]|[e|]] Hr; [|done..].
  unfold connect_authenticated. wp_step; [apply refuse_greeted|]. cbv zeta. wp_step.
  - apply wp_ask; [done|]. intros [existing|].
    + eapply wp_use; [apply resume_local_greets|]. intros d' [e o] Hg. by wp_free.
    + apply wp_ask; [done|]. intros [[ad|]|e]; [apply attach_greets..|apply connect_error_greeted].
  - apply attach_greets.
Qed.

(** What handleMessage leaves: an error, a frame with the request's id, or a
    request that is answered later. *)
Definition settled (i : @InboundMessage J) (h : history) (r : error * Sess) : Prop :=
  r.1 = None → replied h (in_Id i) ∨ deferred h i.

Lemma same_settled (i i' : @InboundMessage J) c (p : prog answer error) (h : history) :
  in_Id i' = in_Id i →
  wp free h p (λ h' e, e = None → replied h' (in_Id i')) →
  wp free h (e ← p; mret (e, c)) (settled i).
Proof. intros Hid Hp. eapply wp_use; [exact Hp|]. intros d e He. apply wp_ret. intros Hn. left. rewrite <-Hid. by apply He. Qed.

(** The precheck answers what it rejects and keeps the request's identity. *)
Lemma precheck_settles c i (h : history) :
  wp free h (precheckNamespace c i) (λ h' r,
    match r with
    | Ok None => replied h' (in_Id i)
    | Ok (Some i') => in_Id i' = in_Id i ∧
        (in_Envelope i' = in_Envelope i ∨ ∃ subs, in_Envelope i' = Some (InSubscribe subs))
    | Err _ => True
    end).
Proof.
  unfold precheckNamespace. destruct (in_Envelope i) as [[]|] eqn:He; try by wp_free; auto.
  { eapply wp_use with (Q := λ _ _, True); [by apply wp_free_any|].
    intros d [[[] kept]|e] _; wp_free; eauto. }
  all: wp_free; auto. all: match goal with x : answer (Send _) |- _ => destruct x end; sent.
Qed.

Lemma handleMessage_settles c i (h : history) :
  wp free h (handleMessage marshal cfg c i) (settled i).
Proof.
  unfold handleMessage. wp_step; [done|].
  eapply wp_use; [apply precheck_settles|]. intros d [[i'|]|e]; [intros [Hid Henv]|by left|done].
  destruct (in_Envelope i') as [[]|] eqn:He'; [..|done].
  - eapply wp_mono; [apply connect_greets|]. intros d' r Hg Hn. left. rewrite <-Hid. auto.
  - apply same_settled with i'; [done|apply subscribe_replies].
  - apply same_settled with i'; [done|apply unsubscribe_replies].
  - apply same_settled with i'; [done|apply publish_replies].
  - apply same_settled with i'; [done|apply rpc_replies].
  - apply same_settled with i'; [done|apply refresh_replies].
  - eapply wp_use; [apply survey_replies|]. intros d' e Hs. apply wp_ret. intros Hn.
    destruct (Hs Hn) as [Hr|Hr]; [left; by rewrite <-Hid|right].
    unfold deferred. destruct Henv as [<-|[subs Hx]]; [done|congruence].
  - apply wp_bind, wp_free_any. intros d' e _. right. unfold deferred.
    destruct Henv as [<-|[subs Hx]]; [done|congruence].
  - apply same_settled with i'; [done|]. unfold handlePing, throttledClusterRefresh. wp_free; sent.
  - apply wp_bind, wp_free_any. intros d' e _. right. unfold deferred.
    destruct Henv as [<-|[subs Hx]]; [done|congruence].
  - apply same_settled with i'; [done|apply presence_replies].
Qed.

Lemma HandleMessage_settles c i (h : history) :
  wp free h (HandleMessage marshal cfg c i) (λ h' r,
    happened h' ReadClosed true ∨ happened h' LifetimeDone true ∨
    replied h' (in_Id i) ∨ (∃ d, happened h' (CloseFromLoop d) tt) ∨ deferred h' i).
Proof.
  unfold HandleMessage. apply wp_ask; [done|]. intros []; [left; by left|].
  apply wp_ask; [done|]. intros u. apply wp_ask; [done|]. intros []; [right; left; by left|].
  eapply wp_use; [apply handleMessage_settles|]. intros d [[[dis|w msg]|] c'] Hs; cbn [fst snd].
  - wp_step; [done|]. intros []. apply wp_ret. do 3 right. left. exists dis. by left.
  - wp_free. do 2 right. left. sent.
  - apply wp_ret. destruct (Hs eq_refl) as [Hr|Hr]; auto 6.
Qed.

(** C13: No request is dropped silently.  Every run of HandleMessage either
    finds the session closed or its lifetime over, or hands the outbound queue
    a frame that carries the request's id (the reply, a refusal or
    INTERNAL_ERROR), or closes the connection with a disconnect code; the only
    exceptions are a Pong, a SurveyReply, and a SurveyRequest whose worker was
    started and answers later. *)
Theorem every_request_answered (c : Sess) (i : @InboundMessage J) tr r :
  run (HandleMessage marshal cfg c i) tr r →
  happened tr ReadClosed true ∨ happened tr LifetimeDone true ∨
  replied tr (in_Id i) ∨ (∃ d, happened tr (CloseFromLoop d) tt) ∨ deferred tr i.
Proof.
  intros Hr. pose proof (wp_run_post _ _ _ _ _ (HandleMessage_settles c i []) Hr) as H.
  assert (∀ ev, ev ∈ rev tr → ev ∈ tr) as Hrev by (intros ev; rewrite !list_elem_of_In; apply in_rev).
  destruct H as [H|[H|[H|[[d H]|H]]]].
  - left. by apply Hrev.
  - right; left. by apply Hrev.
  - do 2 right. left. by eapply replied_mono.
  - do 3 right. left. exists d. by apply Hrev.
  - do 4 right. unfold deferred in *. destruct (in_Envelope i) as [[]|]; try done.
    destruct H as (a & b & e & f & H & ->). eexists _, _, _, _. split; [by apply Hrev|done].
Qed.

(** ** What a trace shows, in order *)

Definition collect {T} (f : ∀ e : @effect J, answer e → option T) (tr : history) : list T :=
  omap (λ ev, f (ev_call ev) (ev_answer ev)) tr.

Lemma collect_rev {T} (f : ∀ e : @effect J, answer e → option T) tr :
  collect f (rev tr) = rev (collect f tr).
Proof.
  unfold collect. induction tr as [|ev tr IH]; [done|]. simpl.
  rewrite omap_app, IH. simpl. destruct (f _ _); simpl; by rewrite ?app_nil_r.
Qed.

Lemma hd_rev {T} (l : list T) : hd_error (rev l) = last l.
Proof. rewrite rev_alt. apply head_reverse. Qed.

Definition sent_frame (e : @effect J) : answer e → option (@OutEnvelope J) :=
  match e with Send m => λ _, Some (out_Envelope m) | _ => λ _, None end.

(** A successful publish: channel, publication, offset of the stream. *)
Definition published (e : @effect J) : answer e → option (string * Publication * option Z) :=
  match e with
  | PublishStream ch pub => λ r, match r with Ok off => Some (ch, pub, Some off) | Err _ => None end
  | PublishTransient ch pub => λ r, match r with None => Some (ch, pub, None) | Some _ => None end
  | _ => λ _, None
  end.

Definition publish_outcome (i : @InboundMessage J) (p : PublishMsg) (table : option Authorizer)
    (sent : list (@OutEnvelope J)) (pubs : list (string * Publication * option Z)) : Prop :=
  (∃ er, sent = [OutError er] ∧ pubs = []) ∨
  ∃ pub az off epoch, table = Some az ∧
    PublicationFromPayloadV2 marshal (in_Id i) ∅ (pb_Payload p) = Some pub ∧
    pubs = [(pb_Channel p, with_metadata pub (pb_Metadata p), off)] ∧
    sent = [OutPublishAck (in_Id i) (mkPosition epoch off)] ∧
    (off = None ↔ pb_Transient p = true ∨ TransientOnly (Effects az (pb_Channel p)) = true ∨
                  History (Effects az (pb_Channel p)) = false).

Lemma publish_outcomes c i p :
  wp free [] (handlePublish marshal c i p) (λ h e,
    e = None → publish_outcome i p (hd_error (collect loaded_table h)) (collect sent_frame h) (collect published h)).
Proof.
  unfold handlePublish, publish_acl, do_publish. wp_free; try done; try (left; by eexists).
  all: match goal with H : _ || _ || _ = _ |- _ => rename H into Hb end.
  all: match goal with x : answer LoadAuthorizer, H : PublicationFromPayloadV2 _ _ _ _ = Some ?pub |- _ =>
         right; exists pub, x end.
  all: eexists _, _; split_and!; [done..|].
  all: try (apply orb_false_iff in Hb as [[Hb1 Hb2]%orb_false_iff Hb3]; bool_hyps;
            split; [done|intros [?|[?|?]]; congruence]).
  all: split; [intros _|done]. all: apply orb_true_iff in Hb as [[Hb|Hb]%orb_true_iff|Hb]; bool_hyps; auto.
Qed.

(** What a publish acknowledgement means.  A run of handlePublish that
    returns no error sends exactly one frame.  Either it is an error and
    nothing was published; or it is the PublishAck of this request, exactly one
    publication went out, on the requested channel with the request's payload,
    id and metadata, and the acknowledged position carries the offset the
    stream assigned, or no offset exactly when the client asked for a transient
    publish or the channel's policy, by the last table read, is transient-only
    or keeps no history. *)
Theorem publish_ack_exact (c : Sess) (i : InboundMessage) (p : PublishMsg) tr :
  run (handlePublish marshal c i p) tr None →
  publish_outcome i p (last (collect loaded_table tr)) (collect sent_frame tr) (collect published tr).
Proof.
  intros Hr. pose proof (wp_run_post _ _ _ _ _ (publish_outcomes c i p) Hr eq_refl) as H.
  rewrite !collect_rev, hd_rev in H. unfold publish_outcome in *.
  destruct H as [(er & Hs & Hp)|(pub & az & off & epoch & Ht & Hpub & Hp & Hs & Hoff)].
  - left. exists er. by split; apply rev_inj.
  - right. exists pub, az, off, epoch. split_and!; [done|done| | |done]; by apply rev_inj.
Qed.

(** ** The in-flight flag of client surveys *)

Inductive flag_op := Claim | Clear | Start.

Definition flag (e : @effect J) : answer e → option flag_op :=
  match e with
  | SurveyInFlightCAS => λ won, if won : bool then Some Claim else None
  | SurveyInFlightClear => λ _, Some Clear
  | Go (SurveyWorkerTask _ _ _ _) => λ _, Some Start
  | _ => λ _, None
  end.

Lemma survey_flag c i r :
  wp free [] (handleSurvey marshal c i r) (λ h _,
    collect flag h = [] ∨ collect flag h = [Clear; Claim] ∨ collect flag h = [Start; Claim]).
Proof.
  unfold handleSurvey. eapply wp_use with (Q := λ h _, collect flag h = []).
  { unfold survey_admission, sessionCoversChannel, hasSubscription. by wp_free. }
  intros d [pol|[[code typ] msg]]; rewrite app_nil_r; intros Hd.
  all: wp_free; bool_hyps; subst; unfold collect in *; cbn; rewrite ?Hd; auto.
Qed.

Lemma worker_flag requestID ch payload timeout :
  wp free [] (runSurveyWorker requestID ch payload timeout) (λ h _, collect flag h = [Clear]).
Proof. unfold runSurveyWorker, survey_body. by wp_free. Qed.

(** The in-flight flag of client surveys is never leaked and never freed by
    somebody else.  A run of handleSurvey either leaves the flag alone, or
    claims it and clears it again, or claims it and starts exactly one worker;
    and every run of a worker, whatever fails in it, clears the flag exactly
    once. *)
Theorem survey_flag_balanced (c : Sess) (i : InboundMessage) (r : SurveyRequest) :
  (∀ tr e, run (handleSurvey marshal c i r) tr e →
     collect flag tr = [] ∨ collect flag tr = [Claim; Clear] ∨ collect flag tr = [Claim; Start]) ∧
  (∀ requestID ch payload timeout tr u,
     run (runSurveyWorker requestID ch payload timeout) tr u → collect flag tr = [Clear]).
Proof.
  split.
  - intros tr e Hr. pose proof (wp_run_post _ _ _ _ _ (survey_flag c i r) Hr) as H. cbv beta in H.
    rewrite collect_rev in H.
    destruct H as [H|[H|H]]; apply (f_equal (@rev _)) in H; rewrite rev_involutive in H; auto.
  - intros requestID ch payload timeout tr u Hr.
    pose proof (wp_run_post _ _ _ _ _ (worker_flag requestID ch payload timeout) Hr) as H.
    cbv beta in H. rewrite collect_rev in H. by apply rev_inj.
Qed.

(** ** Presence leaves *)

(** A leave is emitted only for a channel just read to be subscribed. *)
Definition leave_subscribed (h : history) (e : @effect J) : Prop :=
  match e with
  | Go (PresenceLeaveTask ch _ _ _) => ∃ s, latest read_subscribed h = Some s ∧ ch ∈ s
  | _ => True
  end.

(** The ACL request of a refresh names nobody. *)
Definition anonymous_acl (_ : history) (e : @effect J) : Prop :=
  match e with SubscribeAcl _ req => req = mkAcl (al_Channel req) "" "" "" | _ => True end.

Lemma unsubscribe_leaves c i subs (h : history) :
  wp leave_subscribed h (handleUnsubscribe c i subs) (λ _ _, True).
Proof.
  unfold handleUnsubscribe. apply wp_bind, wp_for_each_free; [|intros; by wp_free].
  intros h' u sub. unfold unsubscribe_one, hasSubscription, ShouldTrackPresence. wp_free; try done.
  all: bool_hyps; eexists; split; [done|done].
Qed.

Lemma refresh_acl_anonymous c i chs (h : history) :
  wp anonymous_acl h (handleSubRefresh c i chs) (λ _ _, True).
Proof.
  unfold handleSubRefresh. apply wp_bind, wp_for_each_free; [|intros; by wp_free].
  intros h' u ch. unfold refresh_one, ShouldTrackPresence. by wp_free.
Qed.

(** A refresh revokes without asking who the session is.  Every run of
    handleUnsubscribe emits a presence leave only for a channel the session was
    read to be subscribed to.  handleSubRefresh does not look: for every exact
    channel whose policy tracks presence there is a run on a session that never
    subscribed to it and still announces a leave of that session there, when
    the backend refuses; and the backend is asked with an empty user, session
    and token, so it cannot tell whose subscription it is judging. *)
Theorem refresh_unchecked (c : Sess) (i : InboundMessage) (ch : string) (az : Authorizer) :
  (∀ subs tr e, run (handleUnsubscribe c i subs) tr e →
     ∀ pre ef x post, tr = pre ++ Event ef x :: post → leave_subscribed (rev pre) ef) ∧
  (∀ chs tr e, run (handleSubRefresh c i chs) tr e →
     ∀ pre ef x post, tr = pre ++ Event ef x :: post → anonymous_acl (rev pre) ef) ∧
  (IsWildcard ch = false → Policy.Presence (Effects az ch) = true →
   ∃ tr, run (handleSubRefresh c i [ch]) tr None ∧
     collect read_subscribed tr = [] ∧ happened tr (LookupSubscriber ch) None ∧
     happened tr (Go (PresenceLeaveTask ch (c_session c) (c_user c) false)) tt).
Proof.
  split_and!.
  - intros subs tr e Hr pre ef x post Heq.
    exact (wp_run_guard _ _ _ _ _ _ _ _ _ (unsubscribe_leaves c i subs []) Hr Heq).
  - intros chs tr e Hr pre ef x post Heq.
    exact (wp_run_guard _ _ _ _ _ _ _ _ _ (refresh_acl_anonymous c i chs []) Hr Heq).
  - intros Hw Hpres. pose (deny := err "PERMISSION_DENIED" "" []).
    exists [Event (FindProxy ch "subscribe") (Some 1%positive);
            Event (SubscribeAcl 1%positive (mkAcl ch "" "" "")) (Ok (Some deny));
            Event (LookupSubscriber ch) None; Event (RemoveSubscription ch) None;
            Event LoadAuthorizer az;
            Event (Go (PresenceLeaveTask ch (c_session c) (c_user c) false)) tt;
            Event WaitAll tt; Event NowMilli 0%Z;
            Event (Send (mkOut (in_Id i) 0 OutSubRefreshAck)) None].
    split_and!; [|done|unfold happened; set_solver|unfold happened; set_solver].
    unfold handleSubRefresh, for_each, refresh_one, ShouldTrackPresence. wp_unfold. rewrite Hw. cbn.
    do 4 apply run_call. cbn. apply run_call. rewrite Hpres. cbn. do 4 apply run_call. apply run_ret.
Qed.

(** ** A refused connect *)

(** A refused connect speaks for the session it named.  On a server that
    requires authentication, a client that sends no token and any session id is
    refused with DisconnectInvalidToken, but the requested id stays on its
    session object; closing it then tells the disconnect backend that the named
    session, someone else's, has disconnected. *)
Theorem refused_connect_spoofs_disconnect (c : Sess) (i : @InboundMessage J) (connect : Connect)
    (p : Proxy) :
  RequireAuth cfg = true → c_authenticated c = false → cn_Version connect = "2" →
  cn_Token connect = "" → cn_SessionId connect ≠ "" → cn_SessionId connect ≠ c_session c →
  ∃ tr c' (tr' : history),
    run (handleConnect cfg c i connect) tr (Some (EDisconnect DisconnectInvalidToken), c') ∧
    run (close_session c' DisconnectInvalidToken) tr' tt ∧
    happened (tr' : history) (OnDisconnected p (cn_SessionId connect) (c_user c)) tt.
Proof.
  intros Hreq Hauth Hver Htok Hsid _.
  exists [Event ReadClosed false; Event NowMilli 0%Z;
          Event (Send (mkOut (in_Id i) 0 (OutError auth_required))) None],
    (set_session c (cn_SessionId connect)),
    [Event ReadClosed false; Event ReadSubscribed (∅ : gset string); Event ReadTransport (Some "");
     Event (RemoveSessionIfMatches (cn_SessionId connect)) false;
     Event (FindProxy "" "disconnect") (Some p);
     Event (OnDisconnected p (cn_SessionId connect) (c_user c)) tt;
     Event (CloseTransport DisconnectInvalidToken) tt].
  split_and!; [| |unfold happened; set_solver].
  - unfold handleConnect. cbn. apply run_call. cbn. rewrite Hauth, Hver. cbn.
    rewrite bool_decide_eq_false_2 by done. unfold authenticate. rewrite Htok, Hreq. cbn.
    do 2 apply run_call. apply run_ret.
  - unfold close_session. wp_unfold. cbn. rewrite bool_decide_eq_false_2 by done.
    do 3 apply run_call. rewrite elements_empty. cbn. do 4 apply run_call. apply run_ret.
Qed.

End Replies.

(** ** Concrete runs *)

(** A node with one authorizer table, no proxies, and the session's subscribed
    set as its state. *)
Definition quiet (az : Authorizer) (e : @effect string) (s : gset string) : answer e * gset string :=
  match e with
  | NowMilli | NowNano => (1000, s)%Z
  | LoadLastSync => (1000, s)%Z
  | NewUUID => ("uuid", s)
  | StreamEpoch => ("epoch-1", s)
  | AddSubscription ch _ => (None, {[ ch ]} ∪ s)
  | RemoveSubscription ch => (None, s ∖ {[ ch ]})
  | Send _ | Attach | PrepareSessionUser _ _ _ | TakeoverBy _ | AddClient _ | PublishTransient _ _
  | SyncClusterSessionState _ | DeleteClusterSessionState _ => (None, s)
  | ReadClosed | LifetimeDone => (false, s)
  | PublishLimiterAllow | SurveyLimiterAllow | SurveyInFlightCAS | CasLastSync _ _
  | RemoveSessionIfMatches _ => (true, s)
  | ReadSubscribed => (s, s)
  | ReadTransport => (Some "10.0.0.1", s)
  | LookupSession _ => (None, s)
  | LookupSubscriber ch => (if bool_decide (ch ∈ s) then Some false else None, s)
  | MatchingSubscribers _ => (1%Z, s)
  | LoadAuthorizer => (az, s)
  | PublishStream _ _ => (Ok 42%Z, s)
  | CountMatchingSubscribers _ => (Ok 1%Z, s)
  | RecoverStateOf _ => (Recover.STATE_NONE, s)
  | PresenceSnapshotOf ch => (mkPresence ch [] false 0, s)
  | RunSurvey _ _ _ => (Ok [], s)
  | BuildClientSurveyResult r ch _ => (mkSurveyResult r ch [], s)
  | FindProxy ch m => (if bool_decide (m = "$authenticate") then Some 1%positive else None, s)
  | Authenticate _ _ => (Ok (mkAuthResponse None (Some (mkUserInfo "alice" "acme"))), s)
  | SubscribeAcl _ _ | PublishAcl _ _ => (Ok None, s)
  | ProxyRPC _ _ _ => (Err (EError (Some IsNoProxyFound) ""), s)
  | ResumeRemoteSession _ _ _ => (Ok None, s)
  | RestoreSessionSubscriptions _ => ([], s)
  | _ => (tt, s)
  end.

Definition open_table : Authorizer := mkAuthorizer DefaultChannelPolicy [].
Definition strict : Config := mkConfig true "" 2 0 0.
Definition alice : Sess := mkSess "phone" "s1" "alice" "acme" true 1 false.
Definition fresh : Sess := mkSess "" "s1" "" "" false 0 false.

Definition sub_to (ch : string) : Subscription := mkSubscription ch false "" false None false.

Definition exec_message (c : Sess) (e : @InEnvelope string) :=
  exec (quiet open_table) (handleMessage Some strict c (mkIn "m1" 0 (Some e))) ∅.

Definition cross_tenant : @InEnvelope string := InSubscribe [sub_to "acme:im.a"; sub_to "other:im.b"].

(** The foreign channel gets an error, the other one is subscribed. *)
Example cross_tenant_run :
  collect sent_frame (exec_message alice cross_tenant).1.1 =
    [OutError (err "NAMESPACE_MISMATCH" "acl_error"
       [Txt "channel "; Quoted "other:im.b"; Txt " is outside the session namespace "; Quoted "acme"]);
     OutSubscribeAck [sub_to "acme:im.a"] Recover.STATE_NONE "epoch-1" [mkPresence "acme:im.a" [] false 0]] ∧
  (exec_message alice cross_tenant).2 = {[ "acme:im.a" ]}.
Proof. split; vm_compute; reflexivity. Qed.

Lemma session_namespace_isolation_witness :
  collect sent_frame (exec_message alice cross_tenant).1.1 ≠ [] ∧
  trace_scoped alice (exec_message alice cross_tenant).1.1.
Proof.
  split; [vm_compute; discriminate|].
  refine (proj1 (session_namespace_isolation Some strict alice (mkIn "m1" 0 (Some cross_tenant)) _ _ _ _ _));
    [reflexivity|discriminate|apply exec_run].
Defined.


Definition hello : Connect := mkConnect "phone" "app" "token" "2.1" [sub_to "acme:im.a"] "" [].

Definition hello_trace : list (event (@answer string)) :=
  (exec (quiet open_table) (handleConnect strict fresh (mkIn "c1" 0 (Some (InConnect hello))) hello) ∅).1.1.

Lemma connect_gates_witness :
  ∃ c pre post, hello_trace = pre ++ Event (AddClient c) None :: post ∧
    c_user c = "alice" ∧ connect_guard strict fresh hello (rev pre) (AddClient c).
Proof.
  exists (mkSess "phone" "s1" "alice" "acme" true 1 false), (take 6 hello_trace), (drop 7 hello_trace).
  split; [vm_compute; reflexivity|split; [reflexivity|]].
  refine (connect_gates strict fresh hello (mkIn "c1" 0 (Some (InConnect hello))) hello_trace _ _
            (take 6 hello_trace) (AddClient _) None (drop 7 hello_trace) _); [apply exec_run|vm_compute; reflexivity].
Defined.

Definition say : PublishMsg (J := string) := mkPublish "acme:im.a" None None "" false.
Definition say_trace : list (event (@answer string)) :=
  (exec (quiet open_table) (handlePublish Some alice (mkIn "p1" 0 (Some (InPublish say))) say) ∅).1.1.

Lemma publish_ack_exact_witness :
  collect sent_frame say_trace = [OutPublishAck "p1" (mkPosition "epoch-1" (Some 42%Z))] ∧
  publish_outcome Some (mkIn "p1" 0 (Some (InPublish say))) say (last (collect loaded_table say_trace))
    (collect sent_frame say_trace) (collect published say_trace).
Proof.
  split; [vm_compute; reflexivity|].
  apply (publish_ack_exact Some alice).
  exact (exec_run (quiet open_table) (handlePublish Some alice (mkIn "p1" 0 (Some (InPublish say))) say) ∅).
Defined.

Definition ping_trace : list (event (@answer string)) :=
  (exec (quiet open_table) (HandleMessage Some strict alice (mkIn "g1" 0 (Some InPing))) ∅).1.1.

Lemma every_request_answered_witness :
  happened ping_trace ReadClosed true ∨ happened ping_trace LifetimeDone true ∨
  replied ping_trace "g1" ∨ (∃ d, happened ping_trace (CloseFromLoop d) tt) ∨
  deferred ping_trace (mkIn "g1" 0 (Some InPing)).
Proof.
  exact (every_request_answered Some strict alice (mkIn "g1" 0 (Some InPing)) _ _
    (exec_run (quiet open_table) (HandleMessage Some strict alice (mkIn "g1" 0 (Some InPing))) ∅)).
Defined.

Definition spoof : Connect := mkConnect "evil" "" "" "2" [] "victim" [].

Lemma refused_connect_spoofs_disconnect_witness :
  ∃ tr c' tr',
    run (handleConnect (J := string) strict fresh (mkIn "x" 0 (Some (InConnect spoof))) spoof) tr
      (Some (EDisconnect DisconnectInvalidToken), c') ∧
    run (close_session c' DisconnectInvalidToken) tr' tt ∧
    happened (J := string) tr' (OnDisconnected 1%positive "victim" "") tt.
Proof. by apply (refused_connect_spoofs_disconnect strict fresh _ spoof). Defined.

End HandlerReplies.
