(* ===== verification/ServerApi.v ===== *)
(** * ServerApi: the scope layer and the RPCs of the Server API (internal/serverapi)

    Every RPC of the API service runs its scope wrapper first: the capability
    table, the channel grammar gate, and the rewriting that removes targets the
    caller may not address.  Wrappers and handlers are programs over the calls
    to the node; the verified identity travels in the context, [None] when it
    is missing. *)

From stdpp Require Import sorting.
From S2P Require Import Prelude Topics Interest Policy Authz Stream Directory Lease Recover Effect Handlers.
Import Topics Policy Authz Stream Effect.

Module ServerApi.

Inductive code := Internal | PermissionDenied | InvalidArgument | ResourceExhausted | FailedPrecondition.

(** A gRPC status, or an error of the node passed through. *)
Inductive api_error := Status (c : code) (msg : list Handlers.part) | Upstream (e : Handlers.goerror).

Definition txt (s : string) : list Handlers.part := [Handlers.Txt s].

Section ServerApi.
Context {J : Type} (marshal : J → option string) (unmarshal : string → option J).

(** ** Requests (server/v2/api.proto) *)

Record Destination := mkDest {
  ds_Sessions : list string; ds_Channels : list string; ds_Users : list string; ds_Namespace : string }.

Record ApiPublication := mkApiPub {
  ap_Id : string;
  ap_Destination : option Destination;
  ap_AddHistory : bool;
  ap_Payload : option (PayloadV2 J);
  ap_Metadata : gmap string string;
}.

Record DisconnectRequest := mkDisconnectReq {
  dr_Sessions : list string; dr_Users : list string; dr_Namespace : string;
  dr_Code : Z; dr_Reason : string }.

(** SubscribeRequest and UnsubscribeRequest have the same fields. *)
Record SubscribeRequest := mkSubscribeReq {
  sr_SessionId : string; sr_Channels : list string; sr_UserId : string; sr_Namespace : string }.

Record ApiSurveyRequest := mkApiSurvey {
  av_RequestId : string; av_Channel : string; av_Payload : option (PayloadV2 J); av_TimeoutMs : Z }.

Record GetHistoryRequest := mkGetHistory {
  gh_Channel : string; gh_Since : option (string * option Z); gh_Limit : Z }.

Inductive request :=
| RPublish (pubs : list ApiPublication)
| RDisconnect (r : DisconnectRequest)
| RSubscribe (r : SubscribeRequest)
| RUnsubscribe (r : SubscribeRequest)
| RSurvey (r : ApiSurveyRequest)
| RGetPresence (channel : string)
| RGetHistory (r : GetHistoryRequest)
| RGetChannels.

(** occupancy.PresenceInfo of one stored member. *)
Record PresenceInfo := mkInfo {
  pi_ClientID : string; pi_SessionID : string; pi_ConnectClientID : string; pi_UserID : string;
  pi_ConnectedAt : Z }.

Record ChannelInfo := mkChannelInfo { ci_Name : string; ci_Subscribers : Z }.

Record ApiSurveyResult := mkApiResult {
  ar_SessionId : string; ar_Payload : option string; ar_Metadata : list (string * string);
  ar_Error : option (string * string) }.

Record HistoryPublication := mkHistoryPub {
  hp_Epoch : string; hp_Offset : Z; hp_Payload : option (PayloadV2 J); hp_Time : Z; hp_Id : string;
  hp_Metadata : option (gmap string string) }.

Inductive response :=
| PublishResponse
| ResultsResponse (results : gmap string bool)
| SurveyResponse (requestId : string) (results : list ApiSurveyResult)
| PresenceResponse (clients : gmap string Handlers.PresenceMember)
| HistoryResponse (pubs : list HistoryPublication)
| ChannelsResponse (channels : list ChannelInfo).

(** ** What the handlers call on the node (runtime/serverapi_runtime.go) *)

Inductive effect :=
| LoadAuthorizer
| SessionNamespace (sid : string)
| ExpandUser (ns user : string)
| PublishToSession (sid id : string) (payload : option (PayloadV2 J))
| DisconnectSession (sid : string) (d : Handlers.Disconnect)
| DispatchSubscribe (sid channel : string)
| DispatchUnsubscribe (sid channel : string)
| BrokerPublish (ch : string) (pub : Publication)
| BrokerPublishTransient (ch : string) (pub : Publication)
| NodeSurvey (ch payload : string) (timeout : Z)
| NodePresence (ch : string)
| NodeChannels
| CountSubscribers (ch : string)
| BrokerHistory (ch : string) (since limit : Z)
| StreamEpoch.

Definition answer (e : effect) : Type :=
  match e with
  | LoadAuthorizer => Authorizer
  | SessionNamespace _ => option string
  | ExpandUser _ _ => list string
  | PublishToSession _ _ _ | DisconnectSession _ _ | DispatchSubscribe _ _ | DispatchUnsubscribe _ _ =>
      result Handlers.goerror bool
  | BrokerPublish _ _ => result Handlers.goerror Z
  | BrokerPublishTransient _ _ => option Handlers.goerror
  | NodeSurvey _ _ _ => result Handlers.goerror (list Handlers.SurveyResponse)
  | NodePresence _ => result Handlers.goerror (gmap string PresenceInfo)
  | NodeChannels => result Handlers.goerror (list ChannelInfo)
  | CountSubscribers _ => result Handlers.goerror Z
  | BrokerHistory _ _ _ => result Handlers.goerror HistoryPage
  | StreamEpoch => string
  end.

Abbreviation M := (prog answer).

Definition ask (e : effect) : M (answer e) := call e.

(** ** Capability table (rpcScopeRegistry) *)

Definition has_caps (caps required : Capability) : bool := bool_decide (Z.land caps required = required).

Definition addressing_caps (sessions users : bool) : Capability :=
  Z.lor (if sessions then CapSessionAct else 0%Z)
        (if users then Z.lor CapUserFanout CapSessionAct else 0%Z).

Definition nonempty {A} (l : list A) : bool := match l with [] => false | _ => true end.

Definition publish_caps (pubs : list ApiPublication) : Capability :=
  foldl (λ caps pub,
    match ap_Destination pub with
    | None => caps
    | Some d => Z.lor caps (addressing_caps (nonempty (ds_Sessions d)) (nonempty (ds_Users d)))
    end) 0%Z pubs.

Definition requiredCaps (r : request) : Capability :=
  match r with
  | RPublish pubs => publish_caps pubs
  | RDisconnect d => addressing_caps (nonempty (dr_Sessions d)) (nonempty (dr_Users d))
  | RSubscribe s | RUnsubscribe s =>
      addressing_caps (negb (bool_decide (sr_SessionId s = ""))) (negb (bool_decide (sr_UserId s = "")))
  | RSurvey _ => 0%Z
  | RGetPresence _ => CapPresenceRead
  | RGetHistory _ => CapHistoryRead
  | RGetChannels => CapChannelsList
  end.

Definition scopeAuthorize (ctx : option APIIdentity) (r : request) : result api_error APIIdentity :=
  match ctx with
  | None => Err (Status Internal (txt "server API identity missing from request context"))
  | Some id =>
      if has_caps (id_Caps id) (requiredCaps r) then Ok id
      else Err (Status PermissionDenied (txt "requires server API capability"))
  end.

Definition identityIsGlobal (id : APIIdentity) : bool := slices_Contains (id_Namespaces id) "*".

Definition sessionVisibleTo (id : APIIdentity) (sid : string) : M bool :=
  if identityIsGlobal id then mret true
  else
    ns ← ask (SessionNamespace sid);
    mret match ns with Some ns => AllowsNamespace id ns | None => false end.

Definition invalid_channel (channel : string) : api_error :=
  Status InvalidArgument [Handlers.Txt "invalid channel "; Handlers.Quoted channel].

Definition scopeChannelReference (id : APIIdentity) (channel : string) : result api_error unit :=
  match ValidateChannel channel with
  | Err _ => Err (invalid_channel channel)
  | Ok _ =>
      if negb (identityIsGlobal id) && negb (AllowsChannel id channel)
      then Err (Status PermissionDenied (txt "channel is outside the caller's namespace scope"))
      else Ok tt
  end.

(** The channels that stay and the ones outside the caller's scope. *)
Fixpoint scope_channels (id : APIIdentity) (channels : list string)
    : result api_error (list string * list string) :=
  match channels with
  | [] => Ok ([], [])
  | ch :: rest =>
      match ValidateChannel ch with
      | Err _ => Err (invalid_channel ch)
      | Ok _ =>
          match scope_channels id rest with
          | Err e => Err e
          | Ok (kept, erased) =>
              if negb (identityIsGlobal id) && negb (AllowsChannel id ch) then Ok (kept, ch :: erased)
              else Ok (ch :: kept, erased)
          end
      end
  end.

(** The visible sessions of a list and how many were erased. *)
Definition scope_sessions (id : APIIdentity) (sessions : list string) : M (list string * nat) :=
  for_each (λ '(kept, erased) sid,
    visible ← sessionVisibleTo id sid;
    mret (if visible : bool then (kept ++ [sid], erased) else (kept, S erased))) ([], 0) sessions.

Definition namespace_denied : api_error :=
  Status PermissionDenied (txt "namespace is outside the caller's namespace scope").

(** publishScopeResult. *)
Record publishScopeResult := mkPublishScope { erasedSessions : nat; removedChannels : nat }.

(** One publication of scopePublish. *)
Definition scope_publication (id : APIIdentity) (st : publishScopeResult * list ApiPublication)
    (pub : ApiPublication) : M (flow (publishScopeResult * list ApiPublication) api_error) :=
  let '(out, done) := st in
  match ap_Destination pub with
  | None => mret (Next (out, done ++ [pub]))
  | Some d =>
    if nonempty (ds_Users d) && negb (bool_decide (ds_Namespace d = "")) &&
       negb (AllowsNamespace id (ds_Namespace d)) then mret (Return namespace_denied)
    else match scope_channels id (ds_Channels d) with
    | Err e => mret (Return e)
    | Ok (kept, removed) =>
      ss ← ((if identityIsGlobal id then mret (ds_Sessions d, 0)
             else scope_sessions id (ds_Sessions d)) : M (list string * nat));
      let '(sessions, erased) := ss in
      mret (Next (mkPublishScope (erasedSessions out + erased) (removedChannels out + length removed),
                  done ++ [mkApiPub (ap_Id pub)
                             (Some (mkDest sessions kept (ds_Users d) (ds_Namespace d)))
                             (ap_AddHistory pub) (ap_Payload pub) (ap_Metadata pub)]))
    end
  end.

Definition scopePublish (ctx : option APIIdentity) (pubs : list ApiPublication)
    : M (result api_error (publishScopeResult * list ApiPublication)) :=
  match scopeAuthorize ctx (RPublish pubs) with
  | Err e => mret (Err e)
  | Ok id =>
    r ← loop (scope_publication id) (mkPublishScope 0 0, []) pubs;
    mret match r with Return e => Err e | Next st => Ok st end
  end.

Definition scopeDisconnect (ctx : option APIIdentity) (r : DisconnectRequest)
    : M (result api_error DisconnectRequest) :=
  match scopeAuthorize ctx (RDisconnect r) with
  | Err e => mret (Err e)
  | Ok id =>
    if nonempty (dr_Users r) && negb (bool_decide (dr_Namespace r = "")) &&
       negb (AllowsNamespace id (dr_Namespace r)) then mret (Err namespace_denied)
    else if identityIsGlobal id then mret (Ok r)
    else
      ss ← scope_sessions id (dr_Sessions r);
      mret (Ok (mkDisconnectReq ss.1 (dr_Users r) (dr_Namespace r) (dr_Code r) (dr_Reason r)))
  end.

(** subscribeScopeResult and the rewritten targets. *)
Record subscribeScopeResult := mkSubScope {
  sc_session : string; sc_channels : list string; erasedChannels : list string; shortCircuit : bool }.

Definition scopeSubscribeTargets (id : APIIdentity) (r : SubscribeRequest)
    : M (result api_error subscribeScopeResult) :=
  if negb (bool_decide (sr_UserId r = "")) && negb (bool_decide (sr_Namespace r = "")) &&
     negb (AllowsNamespace id (sr_Namespace r)) then mret (Err namespace_denied)
  else match scope_channels id (sr_Channels r) with
  | Err e => mret (Err e)
  | Ok (kept, erased) =>
    visible ← ((if negb (identityIsGlobal id) && negb (bool_decide (sr_SessionId r = ""))
                then sessionVisibleTo id (sr_SessionId r) else mret true) : M bool);
    mret (Ok (if visible : bool then mkSubScope (sr_SessionId r) kept erased false
              else mkSubScope "" kept erased (bool_decide (sr_UserId r = ""))))
  end.

Definition scopeSubscribe (ctx : option APIIdentity) (req : request) (r : SubscribeRequest)
    : M (result api_error (APIIdentity * subscribeScopeResult)) :=
  match scopeAuthorize ctx req with
  | Err e => mret (Err e)
  | Ok id =>
    s ← scopeSubscribeTargets id r;
    mret match s with Err e => Err e | Ok s => Ok (id, s) end
  end.

(** scopeSurvey, scopeGetPresence and scopeGetHistory. *)
Definition scope_single (ctx : option APIIdentity) (req : request) (channel : string)
    : result api_error APIIdentity :=
  match scopeAuthorize ctx req with
  | Err e => Err e
  | Ok id => match scopeChannelReference id channel with Err e => Err e | Ok _ => Ok id end
  end.

(** ** The node's half (runtime/node.go, cluster_commands.go) *)

(** A publication is one shared object: publishing returns it with the fields
    the call wrote. *)
Definition with_history (pub : Publication) (size ttl : Z) : Publication :=
  mkPub (Channel pub) (Payload pub) (Kind pub) (ContentType pub) (Id pub) (Metadata pub) (Offset pub)
    (Seq pub) (Time pub) (Epoch pub) size ttl.

Definition with_offset (pub : Publication) (off : Z) : Publication :=
  mkPub (Channel pub) (Payload pub) (Kind pub) (ContentType pub) (Id pub) (Metadata pub) off
    (Seq pub) (Time pub) (Epoch pub) (pub_HistorySize pub) (pub_HistoryTTL pub).

Definition ErrHistoryDisabled : Handlers.goerror := Handlers.EError None "history disabled".
Definition ErrAddHistoryDenied : Handlers.goerror := Handlers.EError None "add_history denied".

(** Per-policy history sizing: a value already on the publication wins. *)
Definition sized (pol : ChannelPolicy) (pub : Publication) : Publication :=
  with_history pub
    (if bool_decide (pub_HistorySize pub = 0%Z) && (0 <? HistorySize pol)%Z
     then HistorySize pol else pub_HistorySize pub)
    (if bool_decide (pub_HistoryTTL pub = 0%Z) && (0 <? HistoryTTL pol)%Z
     then HistoryTTL pol else pub_HistoryTTL pub).

Definition node_Publish (ch : string) (pub : Publication)
    : M (result Handlers.goerror Z * Publication) :=
  az ← ask LoadAuthorizer;
  let pol := Effects az ch in
  if TransientOnly pol || negb (History pol) then mret (Err ErrHistoryDisabled, pub)
  else
    let pub := sized pol pub in
    r ← ask (BrokerPublish ch pub);
    mret (r, match r with Ok off => with_offset pub off | Err _ => pub end).

Definition PublishForAPI (ch : string) (pub : Publication) (addHistory : bool)
    : M (option Handlers.goerror * Publication) :=
  if addHistory then
    az ← ask LoadAuthorizer;
    let pol := Effects az ch in
    if TransientOnly pol || negb (History pol) then mret (Some ErrAddHistoryDenied, pub)
    else
      r ← node_Publish ch pub;
      mret (match r.1 with Ok _ => None | Err e => Some e end, r.2)
  else
    e ← ask (BrokerPublishTransient ch pub); mret (e, pub).

Definition APICanPublish (p : Principal) (ch : string) : M bool :=
  az ← ask LoadAuthorizer; mret (Allow (Decide az p ActionPublish ch)).

Definition APICanSubscribe (p : Principal) (ch : string) : M bool :=
  match Interest.CompileInterest ch with
  | Some (Ok _) =>
    az ← ask LoadAuthorizer;
    mret (if negb (bool_decide (Z.land (p_Caps p) CapSubscribeAny = 0%Z))
          then Allow (DecideSubscribeSkipAllowLists az ch)
          else Allow (Decide az p ActionSubscribePattern ch))
  | _ => mret false
  end.

(** Node.SubscribeSession and UnsubscribeSession. *)
Definition SubscribeSession (subscribe : bool) (p : Principal) (sid ch : string)
    : M (result Handlers.goerror bool) :=
  ok ← APICanSubscribe p ch;
  if ok : bool then
    (if subscribe then ask (DispatchSubscribe sid ch) else ask (DispatchUnsubscribe sid ch))
  else mret (Err (Handlers.EError None "denied by ACL rule")).

(** Node.ExpandUserSessions: an empty user expands to nothing. *)
Definition ExpandUserSessions (ns user : string) : M (list string) :=
  if bool_decide (user = "") then mret [] else ask (ExpandUser ns user).

(** ** Handlers (api_handler.go) *)

Definition sort_strings (s : gset string) : list string := merge_sort Handlers.str_le (elements s).

Definition unionSessions (explicit users : list string) (ns : string) : M (list string) :=
  let seen : gset string := list_to_set (List.filter (λ s, negb (bool_decide (s = ""))) explicit) in
  seen ← for_each (λ seen user,
           expanded ← ExpandUserSessions ns user; mret (seen ∪ list_to_set expanded)) seen users;
  mret (sort_strings seen).

(** Attempted and failed deliveries. *)
Record tally := mkTally { attempted : nat; failed : nat }.

Definition count (t : tally) (fail : bool) : tally :=
  mkTally (S (attempted t)) (if fail then S (failed t) else failed t).

Definition publish_sessions (pub : ApiPublication) (t : tally) (sessions : list string) : M tally :=
  for_each (λ t sid,
    r ← ask (PublishToSession sid (ap_Id pub) (ap_Payload pub));
    mret (count t (negb (is_ok r)))) t sessions.

(** One destination channel: the publication object is the one of the loop. *)
Definition publish_channel (principal : Principal) (addHistory : bool) (st : tally * Publication)
    (ch : string) : M (tally * Publication) :=
  let '(t, bp) := st in
  ok ← APICanPublish principal ch;
  if ok : bool then
    r ← PublishForAPI ch bp addHistory;
    mret (count t (bool_decide (is_Some r.1)), r.2)
  else mret (count t true, bp).

Definition publish_channels (principal : Principal) (addHistory : bool) (st : tally * Publication)
    (channels : list string) : M (tally * Publication) :=
  for_each (publish_channel principal addHistory) st channels.

Definition publish_one (principal : Principal) (t : tally) (pub : ApiPublication) : M tally :=
  match PublicationFromPayloadV2 marshal (ap_Id pub) (ap_Metadata pub) (ap_Payload pub) with
  | None => mret (count t true)
  | Some bp =>
    match ap_Destination pub with
    | None => mret (count t true)
    | Some d =>
      if negb (nonempty (ds_Sessions d)) && negb (nonempty (ds_Channels d)) && negb (nonempty (ds_Users d))
      then mret (count t true)
      else
        sessions ← unionSessions (ds_Sessions d) (ds_Users d) (ds_Namespace d);
        t ← publish_sessions pub t sessions;
        r ← publish_channels principal (ap_AddHistory pub) (t, bp) (ds_Channels d);
        mret r.1
    end
  end.

(** The first user of a publication that cannot be expanded. *)
Definition bad_users (pubs : list ApiPublication) : option api_error :=
  let bad d := existsb (λ u, bool_decide (u = "") || bool_decide (ds_Namespace d = "")) (ds_Users d) in
  if existsb (λ pub, match ap_Destination pub with Some d => bad d | None => false end) pubs
  then Some (Status InvalidArgument (txt "destination.users")) else None.

Definition api_Publish (ctx : option APIIdentity) (pubs : list ApiPublication)
    : M (result api_error response) :=
  scope ← scopePublish ctx pubs;
  match scope with
  | Err e => mret (Err e)
  | Ok (out, pubs) =>
    match bad_users pubs with
    | Some e => mret (Err e)
    | None =>
      let principal := identity_Principal (default (mkIdentity "" [] 0%Z) ctx) in
      t ← for_each (publish_one principal)
            (mkTally (erasedSessions out + removedChannels out) (removedChannels out)) pubs;
      mret (if (0 <? attempted t)%nat && (failed t =? attempted t)%nat
            then Err (Status Internal (txt "all delivery attempt(s) failed"))
            else Ok PublishResponse)
    end
  end.

Definition api_Disconnect (ctx : option APIIdentity) (r : DisconnectRequest)
    : M (result api_error response) :=
  scope ← scopeDisconnect ctx r;
  match scope with
  | Err e => mret (Err e)
  | Ok r =>
    if existsb (λ u, bool_decide (u = "")) (dr_Users r) then
      mret (Err (Status InvalidArgument (txt "users must not contain an empty user_id")))
    else if nonempty (dr_Users r) && bool_decide (dr_Namespace r = "") then
      mret (Err (Status InvalidArgument (txt "namespace is required when users is set")))
    else
      sessions ← unionSessions (dr_Sessions r) (dr_Users r) (dr_Namespace r);
      results ← for_each (λ results sid,
                  res ← ask (DisconnectSession sid (Handlers.mkDisconnect (dr_Code r) (dr_Reason r)));
                  mret (<[ sid := match res with Ok ok => ok | Err _ => false end ]> results))
                  (∅ : gmap string bool) sessions;
      mret (Ok (ResultsResponse results))
  end.

(** Any successful session wins the channel's result, and ends its loop. *)
Fixpoint try_sessions (subscribe : bool) (principal : Principal) (ch : string) (sessions : list string)
    : M bool :=
  match sessions with
  | [] => mret false
  | sid :: rest =>
    r ← SubscribeSession subscribe principal sid ch;
    match r with
    | Ok true => mret true
    | _ => try_sessions subscribe principal ch rest
    end
  end.

Definition all_false (channels : list string) (m : gmap string bool) : gmap string bool :=
  foldl (λ m ch, <[ ch := false ]> m) m channels.

(** Subscribe and Unsubscribe. *)
Definition api_Subscribe (subscribe : bool) (ctx : option APIIdentity) (r : SubscribeRequest)
    : M (result api_error response) :=
  scope ← scopeSubscribe ctx (if subscribe then RSubscribe r else RUnsubscribe r) r;
  match scope with
  | Err e => mret (Err e)
  | Ok (id, s) =>
    if shortCircuit s then
      mret (Ok (ResultsResponse (all_false (sc_channels s) (all_false (erasedChannels s) ∅))))
    else if bool_decide (sc_session s = "") && bool_decide (sr_UserId r = "") then
      mret (Err (Status InvalidArgument (txt "session_id and user_id must not both be empty")))
    else if negb (bool_decide (sr_UserId r = "")) && bool_decide (sr_Namespace r = "") then
      mret (Err (Status InvalidArgument (txt "namespace is required when user_id is set")))
    else
      sessions ← unionSessions [sc_session s] [sr_UserId r] (sr_Namespace r);
      results ← for_each (λ results ch,
                  ok ← try_sessions subscribe (identity_Principal id) ch sessions;
                  mret (<[ ch := ok ]> results)) (all_false (erasedChannels s) ∅) (sc_channels s);
      mret (Ok (ResultsResponse results))
  end.

Definition survey_item (r : Handlers.SurveyResponse) : ApiSurveyResult :=
  mkApiResult (Handlers.rs_SessionID r)
    (if bool_decide (Handlers.rs_Payload r = "") then None else Some (Handlers.rs_Payload r))
    ((if bool_decide (Handlers.rs_NodeID r = "") then [] else [("node_id", Handlers.rs_NodeID r)]) ++
     (if bool_decide (Handlers.rs_IncarnationID r = "") then []
      else [("incarnation_id", Handlers.rs_IncarnationID r)]))
    ((λ e, ("SURVEY_FAILED", Handlers.Error e)) <$> Handlers.rs_Error r).

(** The gates of a survey without survey.bypass_gate. *)
Definition survey_gate (id : APIIdentity) (ch : string) : M (option api_error) :=
  if negb (bool_decide (Z.land (id_Caps id) CapSurveyBypassGate = 0%Z)) then mret None
  else
    az ← ask LoadAuthorizer;
    if negb (Allow (Decide az (identity_Principal id) ActionSurvey ch)) then
      mret (Some (Status PermissionDenied (txt "survey denied by ACL rule")))
    else
      total ← ask (CountSubscribers ch);
      match total with
      | Err e => mret (Some (Upstream e))
      | Ok total =>
        az ← ask LoadAuthorizer;
        let limit := MaxSurveySubscribers (Effects az ch) in
        mret (if ((0 <? limit) && (limit <? total))%Z
              then Some (Status ResourceExhausted (txt "survey refused: too many subscribers")) else None)
      end.

Definition payloadBytes (p : option (PayloadV2 J)) : option string :=
  Payload <$> PublicationFromPayloadV2 marshal "" ∅ p.

Definition api_Survey (ctx : option APIIdentity) (r : ApiSurveyRequest) : M (result api_error response) :=
  match scope_single ctx (RSurvey r) (av_Channel r) with
  | Err e => mret (Err e)
  | Ok id =>
    gate ← survey_gate id (av_Channel r);
    match gate with
    | Some e => mret (Err e)
    | None =>
      az ← ask LoadAuthorizer;
      let timeout := Handlers.ClampTimeout (MaxSurveyTimeout (Effects az (av_Channel r))) (av_TimeoutMs r) in
      match payloadBytes (av_Payload r) with
      | None => mret (Err (Upstream (Handlers.EError None "marshal")))
      | Some payload =>
        res ← ask (NodeSurvey (av_Channel r) payload timeout);
        mret match res with
             | Err e => Err (Upstream e)
             | Ok results => Ok (SurveyResponse (av_RequestId r) (survey_item <$> results))
             end
      end
    end
  end.

Definition firstNonEmpty (a b : string) : string := if bool_decide (a = "") then b else a.

Definition presence_member (i : PresenceInfo) : Handlers.PresenceMember :=
  Handlers.mkMember (firstNonEmpty (pi_SessionID i) (pi_ClientID i)) (pi_UserID i) (pi_ConnectClientID i)
    (pi_ConnectedAt i).

(** Node.PresenceSnapshotLimit: the policy's cap, or the default of 256. *)
Definition MaxPresenceSnapshotClients : Z := 256.

Definition node_PresenceSnapshotLimit (az : Authorizer) (ch : string) : Z :=
  let pol := Effects az ch in
  if (0 <? PresenceSnapshotLimit pol)%Z then PresenceSnapshotLimit pol else MaxPresenceSnapshotClients.

(** keys[limit:] in sorted order are deleted; the limit is positive. *)
Definition truncate_presence (limit : Z) (clients : gmap string Handlers.PresenceMember)
    : gmap string Handlers.PresenceMember :=
  if (limit <? Z.of_nat (base.size clients))%Z then
    foldl (λ m k, delete k m) clients (drop (Z.to_nat limit) (sort_strings (dom clients)))
  else clients.

Definition api_GetPresence (ctx : option APIIdentity) (channel : string) : M (result api_error response) :=
  match scope_single ctx (RGetPresence channel) channel with
  | Err e => mret (Err e)
  | Ok id =>
    az ← ask LoadAuthorizer;
    if negb (Allow (Decide az (identity_Principal id) ActionPresence channel)) then
      mret (Err (Status PermissionDenied (txt "presence denied by ACL rule")))
    else
      r ← ask (NodePresence channel);
      match r with
      | Err e => mret (Err (Upstream e))
      | Ok members =>
        let clients := presence_member <$> (members : gmap string PresenceInfo) in
        if bool_decide (Z.land (id_Caps id) CapPresenceLargeSnapshot = 0%Z) then
          az ← ask LoadAuthorizer;
          mret (Ok (PresenceResponse (truncate_presence (node_PresenceSnapshotLimit az channel) clients)))
        else mret (Ok (PresenceResponse clients))
      end
  end.

Definition history_item (pub : Publication) : HistoryPublication :=
  mkHistoryPub (Epoch pub) (Offset pub) (PayloadProtoV2 unmarshal (Some pub)) (Time pub) (Id pub)
    (if bool_decide (Metadata pub = ∅) then None else Some (Metadata pub)).

Definition api_GetHistory (ctx : option APIIdentity) (r : GetHistoryRequest) : M (result api_error response) :=
  match scope_single ctx (RGetHistory r) (gh_Channel r) with
  | Err e => mret (Err e)
  | Ok id =>
    az ← ask LoadAuthorizer;
    if negb (Allow (Decide az (identity_Principal id) ActionRecover (gh_Channel r))) then
      mret (Err (Status PermissionDenied (txt "history denied by ACL rule")))
    else
      fresh ← match gh_Since r with
              | Some (epoch, _) =>
                if bool_decide (epoch = "") then mret true
                else current ← ask StreamEpoch; mret (bool_decide (current = epoch))
              | None => mret true
              end;
      if negb fresh then
        mret (Err (Status FailedPrecondition (txt "stream epoch mismatch: history belongs to a previous log generation")))
      else
        let since := match gh_Since r with Some (_, Some off) => off | _ => 0%Z end in
        page ← ask (BrokerHistory (gh_Channel r) since (gh_Limit r));
        mret match page with
             | Err e => Err (Upstream e)
             | Ok page => Ok (HistoryResponse (history_item <$> Publications page))
             end
  end.

(** [int32(n)] keeps the low 32 bits, signed. *)
Definition int32 (n : Z) : Z :=
  let m := Z.land n (2 ^ 32 - 1) in if (m <? 2 ^ 31)%Z then m else (m - 2 ^ 32)%Z.

Definition visible_channel (id : APIIdentity) (c : ChannelInfo) : bool :=
  identityIsGlobal id ||
  match NamespaceOf (ci_Name c) with Ok ns => AllowsNamespace id ns | Err _ => false end.

Definition api_GetChannels (ctx : option APIIdentity) : M (result api_error response) :=
  match scopeAuthorize ctx RGetChannels with
  | Err e => mret (Err e)
  | Ok id =>
    r ← ask NodeChannels;
    mret match r with
         | Err e => Err (Upstream e)
         | Ok chs => Ok (ChannelsResponse ((λ c, mkChannelInfo (ci_Name c) (int32 (ci_Subscribers c))) <$>
                                           List.filter (visible_channel id) chs))
         end
  end.

(** The service's dispatch. *)
Definition serve (ctx : option APIIdentity) (r : request) : M (result api_error response) :=
  match r with
  | RPublish pubs => api_Publish ctx pubs
  | RDisconnect r => api_Disconnect ctx r
  | RSubscribe r => api_Subscribe true ctx r
  | RUnsubscribe r => api_Subscribe false ctx r
  | RSurvey r => api_Survey ctx r
  | RGetPresence ch => api_GetPresence ctx ch
  | RGetHistory r => api_GetHistory ctx r
  | RGetChannels => api_GetChannels ctx
  end.

End ServerApi.
End ServerApi.
