(* ===== verification/ServerApiSafety.v ===== *)
(** * ServerApiSafety: what a Server API caller can make the node do (internal/serverapi)

    The theorems about the RPCs of [ServerApi], for every answer the node may
    give: the caller's capabilities, namespaces and channel rules gate every
    call, a session of a foreign namespace is indistinguishable from one that
    does not exist, and what the subscribe results mean. *)

From stdpp Require Import sorting.
From S2P Require Import Prelude Topics Interest Policy Authz Stream Directory Lease Recover Effect Handlers ServerApi.
Import Topics Interest Policy Authz Stream Effect ServerApi.

Module ServerApiSafety.

(** ** Capability sets *)

Lemma has_caps_spec c r :
  has_caps c r = true ↔ ∀ n, (0 ≤ n)%Z → Z.testbit r n = true → Z.testbit c n = true.
Proof.
  unfold has_caps. rewrite bool_decide_eq_true. split.
  - intros Heq n Hn Hr. rewrite <-Heq, Z.land_spec in Hr. by apply andb_prop in Hr as [].
  - intros Hr. apply Z.bits_inj'. intros n Hn. rewrite Z.land_spec. specialize (Hr n Hn).
    destruct (Z.testbit r n); [by rewrite Hr|by rewrite andb_false_r].
Qed.

Lemma has_caps_lor c a b : has_caps c (Z.lor a b) = true ↔ has_caps c a = true ∧ has_caps c b = true.
Proof.
  rewrite !has_caps_spec. setoid_rewrite Z.lor_spec. setoid_rewrite orb_true_iff. naive_solver.
Qed.

Lemma has_caps_addressing c s u :
  has_caps c (addressing_caps s u) = true →
  (s = true → has_caps c CapSessionAct = true) ∧
  (u = true → has_caps c (Z.lor CapUserFanout CapSessionAct) = true).
Proof.
  unfold addressing_caps. rewrite has_caps_lor. intros [Hs Hu]. split; intros ->; assumption.
Qed.

Lemma has_caps_publish {J} c (pubs : list (@ApiPublication J)) pub d :
  has_caps c (publish_caps pubs) = true → pub ∈ pubs → ap_Destination pub = Some d →
  has_caps c (addressing_caps (nonempty (ds_Sessions d)) (nonempty (ds_Users d))) = true.
Proof.
  unfold publish_caps. generalize 0%Z as acc. intros acc Hc Hin Hd. revert acc Hc.
  induction Hin as [pub pubs|pub q pubs Hin IH]; simpl; intros acc Hc; [|by eapply IH].
  rewrite Hd in Hc. assert (∀ pubs acc, has_caps c
    (foldl (λ caps pub, match ap_Destination (J := J) pub with
              | None => caps
              | Some d => Z.lor caps (addressing_caps (nonempty (ds_Sessions d)) (nonempty (ds_Users d)))
              end) acc pubs) = true → has_caps c acc = true) as Hacc.
  { clear. intros pubs. induction pubs as [|p pubs IH]; simpl; intros acc Hc; [done|].
    apply IH in Hc. destruct (ap_Destination p); [by apply has_caps_lor in Hc as []|done]. }
  apply Hacc, has_caps_lor in Hc as []. assumption.
Qed.

(** ** Histories that only grow *)

Section Grow.
Context {E : Type} {R : E → Type} (G : list (event R) → E → Prop).

Definition stable (P : list (event R) → Prop) : Prop := ∀ d h, P h → P (d ++ h).

Lemma wp_keep {A} (P : list (event R) → Prop) h (p : prog R A) (Q : list (event R) → A → Prop) :
  stable P → P h → wp G h p Q → wp G h p (λ h' a, P h' ∧ Q h' a).
Proof. intros HP Hh Hw. eapply wp_mono; [exact Hw|]. intros d a Hq. split; [by apply HP|done]. Qed.

Lemma wp_each {X B} (P : list (event R) → Prop) (f : B → X → prog R B) l b h :
  stable P → P h → (∀ h b x, x ∈ l → P h → wp G h (f b x) (λ _ _, True)) →
  wp G h (for_each f b l) (λ h' _, P h').
Proof.
  intros HP Hh Hf. apply (wp_for_each _ _ (λ h _, P h)); [|done]. intros h' b' x Hx Hp.
  eapply wp_mono; [by apply Hf|]. intros d a _. by apply HP.
Qed.

End Grow.

Section Scope.
Context {J : Type} (id : APIIdentity).

Abbreviation history := (list (event (@answer J))).

(** ** The rights of a caller *)

Definition held (cap : Capability) : Prop := has_caps (id_Caps id) cap = true.

Definition channel_ok (ch : string) : Prop :=
  ValidateChannel ch = Ok tt ∧ (identityIsGlobal id = true ∨ AllowsChannel id ch = true).

(** The node reported a namespace of the caller for the session, or listed the
    session for a user of such a namespace. *)
Definition addressable (h : history) (sid : string) : Prop :=
  identityIsGlobal id = true ∨
  (∃ ns, AllowsNamespace id ns = true ∧ Event (SessionNamespace sid) (Some ns) ∈ h) ∨
  (∃ ns user sids, AllowsNamespace id ns = true ∧ sid ∈ sids ∧ Event (ExpandUser ns user) sids ∈ h).

Definition target (h : history) (sid : string) : Prop := held CapSessionAct ∧ addressable h sid.

Definition can_expand (ns : string) : Prop :=
  held (Z.lor CapUserFanout CapSessionAct) ∧ ns ≠ "" ∧ AllowsNamespace id ns = true.

(** A table read during the call allows the action. *)
Definition decided (h : history) (act : Action) (ch : string) : Prop :=
  ∃ az : Authorizer, Event LoadAuthorizer az ∈ h ∧ Allow (Decide az (identity_Principal id) act ch) = true.

Definition subscribe_decided (h : history) (ch : string) : Prop :=
  (∃ i, CompileInterest ch = Some (Ok i)) ∧
  ∃ az : Authorizer, Event LoadAuthorizer az ∈ h ∧
    if bool_decide (Z.land (id_Caps id) CapSubscribeAny = 0%Z)
    then Allow (Decide az (identity_Principal id) ActionSubscribePattern ch) = true
    else Allow (DecideSubscribeSkipAllowLists az ch) = true.

Definition survey_decided (h : history) (ch : string) : Prop :=
  Z.land (id_Caps id) CapSurveyBypassGate ≠ 0%Z ∨
  decided h ActionSurvey ch ∧
  ∃ (az : Authorizer) (total : Z), Event (CountSubscribers ch) (Ok total) ∈ h ∧ Event LoadAuthorizer az ∈ h ∧
    let limit := MaxSurveySubscribers (Effects az ch) in ((limit ≤ 0) ∨ (total ≤ limit))%Z.

(** What must have happened before a call. *)
Definition permitted (h : history) (e : @effect J) : Prop :=
  match e with
  | LoadAuthorizer | SessionNamespace _ | StreamEpoch => True
  | ExpandUser ns user => user ≠ "" ∧ can_expand ns
  | PublishToSession sid _ _ | DisconnectSession sid _ => target h sid
  | DispatchSubscribe sid ch | DispatchUnsubscribe sid ch =>
      target h sid ∧ channel_ok ch ∧ subscribe_decided h ch
  | BrokerPublish ch _ =>
      channel_ok ch ∧ decided h ActionPublish ch ∧
      ∃ az : Authorizer, Event LoadAuthorizer az ∈ h ∧
        TransientOnly (Effects az ch) = false ∧ History (Effects az ch) = true
  | BrokerPublishTransient ch _ => channel_ok ch ∧ decided h ActionPublish ch
  | NodeSurvey ch _ _ => channel_ok ch ∧ survey_decided h ch
  | NodePresence ch => held CapPresenceRead ∧ channel_ok ch ∧ decided h ActionPresence ch
  | BrokerHistory ch _ _ => held CapHistoryRead ∧ channel_ok ch ∧ decided h ActionRecover ch
  | CountSubscribers ch => channel_ok ch ∧ decided h ActionSurvey ch
  | NodeChannels => held CapChannelsList
  end.

Lemma addressable_app d h sid : addressable h sid → addressable (d ++ h) sid.
Proof. unfold addressable. setoid_rewrite elem_of_app. naive_solver. Qed.

Lemma target_app d h sid : target h sid → target (d ++ h) sid.
Proof. intros [Hc Ha]. split; [done|]. by apply addressable_app. Qed.

Definition targets (sids : list string) (h : history) : Prop := ∀ s, s ∈ sids → target h s.

Lemma targets_stable sids : stable (targets sids).
Proof. intros d h Ht s Hs. by apply target_app, Ht. Qed.

(** ** The scope layer *)

Lemma scope_channels_ok chs kept erased :
  scope_channels id chs = Ok (kept, erased) →
  (∀ ch, ch ∈ kept → channel_ok ch) ∧
  (∀ ch, ch ∈ chs ↔ ch ∈ kept ∨ ch ∈ erased) ∧ (NoDup chs → NoDup kept).
Proof using id.
  revert kept erased. induction chs as [|ch chs IH]; simpl; intros kept erased Heq.
  { injection Heq as <- <-. split_and!; [set_solver|set_solver|by constructor]. }
  destruct (ValidateChannel ch) as [[]|] eqn:Hv; [|done].
  destruct (scope_channels id chs) as [[k e]|]; [|done]. destruct (IH k e eq_refl) as (Hk & Hin & Hnd).
  destruct (negb (identityIsGlobal id) && negb (AllowsChannel id ch)) eqn:Hb; injection Heq as <- <-.
  { split_and!; [done|set_solver|]. rewrite NoDup_cons. tauto. }
  split_and!; [|set_solver|rewrite !NoDup_cons; intros [Hni Hd]; split; [set_solver|auto]].
  intros c [->|Hc]%elem_of_cons; [|auto]. split; [done|].
  destruct (identityIsGlobal id), (AllowsChannel id ch); by auto.
Qed.

Definition seen (sid : string) (h : history) : Prop :=
  identityIsGlobal id = true ∨ ∃ ns, AllowsNamespace id ns = true ∧ Event (SessionNamespace sid) (Some ns) ∈ h.

Lemma seen_stable sid : stable (seen sid).
Proof. intros d h. unfold seen. setoid_rewrite elem_of_app. naive_solver. Qed.

Lemma sessionVisibleTo_wp h sid :
  wp permitted h (sessionVisibleTo id sid) (λ h' b, b = true → seen sid h').
Proof.
  unfold sessionVisibleTo, ask, seen. prog_step; [by prog_step; left|].
  repeat prog_step; [done|]. destruct x as [ns|]; [|done]. intros Ha. right. exists ns. split; [done|left].
Qed.

Lemma scope_sessions_wp h sids :
  wp permitted h (scope_sessions id sids) (λ h' r, ∀ s, s ∈ r.1 → s ∈ sids ∧ seen s h').
Proof.
  apply (wp_for_each _ _ (λ h r, ∀ s, s ∈ r.1 → s ∈ sids ∧ seen s h)); [|set_solver].
  intros h' [kept n] sid Hin Hk. prog_step. eapply wp_mono; [apply sessionVisibleTo_wp|].
  intros d b Hb. prog_step. destruct b; simpl in *.
  - intros s [Hs|Hs%list_elem_of_singleton]%elem_of_app; [|subst; auto].
    destruct (Hk s Hs). split; [done|]. by apply seen_stable.
  - intros s Hs. destruct (Hk s Hs). split; [done|]. by apply seen_stable.
Qed.

Lemma seen_target h sid : held CapSessionAct → seen sid h → target h sid.
Proof. intros Hc [Hg|Hs]; split; [done|by left|done|by right; left]. Qed.

(** ** Targets *)

Lemma sort_strings_elem (s : gset string) x : x ∈ sort_strings s ↔ x ∈ s.
Proof. unfold sort_strings. by rewrite merge_sort_Permutation, elem_of_elements. Qed.

Lemma unionSessions_wp h explicit users ns :
  (∀ s, s ∈ explicit → s ≠ "" → target h s) → (∀ u, u ∈ users → u ≠ "" → can_expand ns) →
  wp permitted h (unionSessions explicit users ns) (λ h' sids, targets sids h').
Proof.
  intros He Hu. unfold unionSessions. prog_step.
  eapply wp_mono with (Q := λ h (seen : gset string), ∀ s, s ∈ seen → target h s).
  - apply (wp_for_each _ _ (λ h (seen : gset string), ∀ s, s ∈ seen → target h s)).
    + intros h' seen user Hin Hs. unfold ExpandUserSessions, ask. prog_step. prog_step; repeat prog_step.
      { set_solver. }
      { split; [by apply bool_decide_eq_false in Heqb|]. apply (Hu user Hin). by apply bool_decide_eq_false in Heqb. }
      apply bool_decide_eq_false in Heqb. destruct (Hu user Hin Heqb) as (Hc & _ & Ha).
      intros s [Hs'|Hx%elem_of_list_to_set]%elem_of_union; [by apply (target_app [_]), Hs|].
      split; [by apply has_caps_lor in Hc as []|]. right. right. exists ns, user, x. split_and!; [done..|left].
    + intros s Hs%elem_of_list_to_set. apply list_elem_of_In, filter_In in Hs as [Hs Hne].
      apply He; [by apply list_elem_of_In|]. by apply negb_true_iff, bool_decide_eq_false in Hne.
  - intros d sids Hs. prog_step. intros s Hin%sort_strings_elem. by apply Hs.
Qed.

Lemma publish_sessions_wp h pub t sids :
  targets sids h → wp permitted h (publish_sessions pub t sids) (λ _ _, True).
Proof.
  intros Ht. eapply wp_mono; [apply (wp_each _ (targets sids)); [apply targets_stable|done|]|done].
  intros h' t' sid Hin Hs. unfold ask. repeat prog_step; [by apply Hs|done].
Qed.

Lemma publish_channels_wp h addHistory st chs :
  (∀ ch, ch ∈ chs → channel_ok ch) →
  wp permitted h (publish_channels (identity_Principal id) addHistory st chs) (λ _ _, True).
Proof.
  intros Hc. apply (wp_for_each _ _ (λ _ _, True)); [|done].
  intros h' [t bp] ch Hin _. specialize (Hc ch Hin).
  unfold publish_channel, APICanPublish, PublishForAPI, node_Publish, ask. repeat prog_step; try exact I.
  - split; [done|split; [exists x; split; [set_solver|done]|]].
    exists x1. split; [left|]. apply orb_false_iff in Heqb2 as [? ?%negb_false_iff]. done.
  - split; [done|]. exists x. split; [set_solver|done].
Qed.

(** ** Publish *)

(** A rewritten publication addresses only what the caller may. *)
Definition pub_ok (pub : ApiPublication) (h : history) : Prop :=
  match ap_Destination (J := J) pub with
  | None => True
  | Some d =>
      targets (ds_Sessions d) h ∧ (∀ ch, ch ∈ ds_Channels d → channel_ok ch) ∧
      (∀ u, u ∈ ds_Users d → ds_Namespace d ≠ "" → can_expand (ds_Namespace d))
  end.

Lemma pub_ok_stable pub : stable (pub_ok pub).
Proof.
  intros d h. unfold pub_ok. destruct (ap_Destination pub); [|done].
  intros (Ht & Hr). split; [by apply targets_stable|done].
Qed.

Definition pubs_ok (pubs : list ApiPublication) (h : history) : Prop := ∀ pub, pub ∈ pubs → pub_ok pub h.

Lemma pubs_ok_stable pubs : stable (pubs_ok pubs).
Proof. intros d h Hp pub Hin. by apply pub_ok_stable, Hp. Qed.

Lemma pubs_ok_snoc pubs pub h : pubs_ok pubs h → pub_ok pub h → pubs_ok (pubs ++ [pub]) h.
Proof. intros Hp Hq q [Hin|Hin%list_elem_of_singleton]%elem_of_app; [by apply Hp|by subst]. Qed.

Lemma nonempty_elem {A} (x : A) l : x ∈ l → nonempty l = true.
Proof. by destruct 1. Qed.

Lemma namespace_gate d :
  has_caps (id_Caps id) (addressing_caps (nonempty (ds_Sessions d)) (nonempty (ds_Users d))) = true →
  nonempty (ds_Users d) && negb (bool_decide (ds_Namespace d = "")) &&
    negb (AllowsNamespace id (ds_Namespace d)) = false →
  ∀ u, u ∈ ds_Users d → ds_Namespace d ≠ "" → can_expand (ds_Namespace d).
Proof.
  intros [_ Hc]%has_caps_addressing Hb u Hu%nonempty_elem Hns. rewrite Hu in *.
  rewrite bool_decide_eq_false_2 in Hb by done. simpl in Hb. apply negb_false_iff in Hb.
  split_and!; [by apply Hc|done..].
Qed.

Lemma scope_publication_wp h out done pub :
  (∀ d, ap_Destination pub = Some d →
     has_caps (id_Caps id) (addressing_caps (nonempty (ds_Sessions d)) (nonempty (ds_Users d))) = true) →
  pubs_ok done h →
  wp permitted h (scope_publication id (out, done) pub)
    (λ h' r, match r with Next st => pubs_ok st.2 h' | Return _ => True end).
Proof.
  intros Hc Hd. unfold scope_publication. destruct (ap_Destination pub) as [d|] eqn:Hp.
  2: { prog_step. apply pubs_ok_snoc; [done|]. unfold pub_ok. by rewrite Hp. }
  specialize (Hc d eq_refl). prog_step; [by prog_step|].
  destruct (scope_channels id (ds_Channels d)) as [[kept erased]|e] eqn:Hs; [|by prog_step].
  apply scope_channels_ok in Hs as [Hk _]. pose proof (namespace_gate d Hc Heqb) as Hns.
  destruct (has_caps_addressing _ _ _ Hc) as [Hact _].
  prog_step. apply wp_mono with (Q := λ h' r, pubs_ok done h' ∧ targets r.1 h').
  - apply wp_keep; [apply pubs_ok_stable|done|]. prog_step.
    + prog_step. intros s Hs%nonempty_elem. split; [by apply Hact|by left].
    + eapply wp_mono; [apply scope_sessions_wp|]. intros d' [sids n] Hs s Hin. destruct (Hs s Hin) as [Hin' Hv].
      apply seen_target; [|done]. by eapply Hact, nonempty_elem.
  - intros d' [sids n] [Hd' Ht]. prog_step. apply pubs_ok_snoc; [done|]. unfold pub_ok. simpl in *. auto.
Qed.

Lemma scopePublish_wp h pubs :
  wp permitted h (scopePublish (Some id) pubs)
    (λ h' r, match r with Ok (_, pubs') => pubs_ok pubs' h' | Err _ => True end).
Proof.
  unfold scopePublish, scopeAuthorize. destruct (has_caps _ _) eqn:Hc; [|by prog_step].
  prog_step. eapply wp_mono with
    (Q := λ h' r, match r with Next st => pubs_ok st.2 h' | Return _ => True end).
  - apply (wp_loop _ _ (λ h' st, pubs_ok st.2 h')
             (λ h' r, match r with Next st => pubs_ok st.2 h' | Return _ => True end)); [done| |set_solver].
    intros h' [out done] pub Hin Hd. apply scope_publication_wp; [|done].
    intros d Hp. by eapply has_caps_publish.
  - intros d [[out pubs']|e] Hr; by prog_step.
Qed.

Context (marshal : J → option string) (unmarshal : string → option J).

Lemma publish_one_wp h t pub :
  pub_ok pub h →
  (∀ d, ap_Destination pub = Some d → ∀ u, u ∈ ds_Users d → ds_Namespace d ≠ "") →
  wp permitted h (publish_one marshal (identity_Principal id) t pub) (λ _ _, True).
Proof.
  unfold pub_ok, publish_one. intros Hp Hns. prog_step; [|by prog_step].
  destruct (ap_Destination pub) as [d|]; [|by prog_step]. destruct Hp as (Ht & Hc & Hu).
  prog_step; [by prog_step|]. prog_step. eapply wp_mono; [apply unionSessions_wp|].
  { intros s Hs _. by apply Ht. }
  { intros u Hin _. by apply (Hu u), (Hns d eq_refl u). }
  intros d' sids Hs. prog_step. eapply wp_mono; [by apply publish_sessions_wp|]. intros d'' t' _.
  prog_step. eapply wp_mono; [by apply publish_channels_wp|]. intros. by prog_step.
Qed.

Lemma bad_users_none (pubs : list (@ApiPublication J)) pub d u :
  bad_users pubs = None → pub ∈ pubs → ap_Destination pub = Some d → u ∈ ds_Users d → ds_Namespace d ≠ "".
Proof.
  unfold bad_users. destruct (existsb _ pubs) eqn:He; [done|]. intros _ Hp Hd Hu.
  apply existsb_false_Forall in He. rewrite Forall_forall in He. specialize (He pub Hp). simpl in He.
  rewrite Hd in He. apply existsb_false_Forall in He. rewrite Forall_forall in He.
  by apply He, orb_false_iff in Hu as [_ Hu%bool_decide_eq_false].
Qed.

Lemma api_Publish_wp h pubs : wp permitted h (api_Publish marshal (Some id) pubs) (λ _ _, True).
Proof.
  unfold api_Publish. prog_step. eapply wp_mono; [apply scopePublish_wp|].
  intros d [[out pubs']|e] Hp; [|by prog_step]. destruct (bad_users pubs') eqn:Hb; [by prog_step|].
  prog_step. eapply wp_mono; [apply (wp_each _ (pubs_ok pubs')); [apply pubs_ok_stable|done|]|].
  - intros h' t pub Hin Hok. apply publish_one_wp; [by apply Hok|]. intros. by eapply bad_users_none.
  - intros. by prog_step.
Qed.

(** ** Disconnect, Subscribe and Unsubscribe *)

Lemma scopeDisconnect_wp h r :
  wp permitted h (scopeDisconnect (Some id) r)
    (λ h' res, match res with
               | Ok r' => targets (dr_Sessions r') h' ∧ dr_Users r' = dr_Users r ∧ dr_Namespace r' = dr_Namespace r ∧
                          (∀ u, u ∈ dr_Users r → dr_Namespace r ≠ "" → can_expand (dr_Namespace r))
               | Err _ => True
               end).
Proof.
  unfold scopeDisconnect, scopeAuthorize. destruct (has_caps _ _) eqn:Hc; [|by prog_step].
  pose proof (namespace_gate (mkDest (dr_Sessions r) [] (dr_Users r) (dr_Namespace r)) Hc) as Hns. simpl in Hns, Hc.
  prog_step; [by prog_step|]. specialize (Hns eq_refl). destruct (has_caps_addressing _ _ _ Hc) as [Hact _].
  prog_step; [prog_step; split_and!; [|done..]|].
  { intros s Hs%nonempty_elem. split; [by apply Hact|by left]. }
  prog_step. eapply wp_mono; [apply scope_sessions_wp|]. intros d [sids n] Hs. prog_step. split_and!; [|done..].
  intros s Hin. destruct (Hs s Hin) as [Hin' Hv]. apply seen_target; [|done]. by eapply Hact, nonempty_elem.
Qed.

Lemma api_Disconnect_wp h r : wp permitted h (api_Disconnect (Some id) r) (λ _ _, True).
Proof.
  unfold api_Disconnect. prog_step. eapply wp_mono; [apply scopeDisconnect_wp|].
  intros d [r'|e]; [|by intros; prog_step]. intros (Ht & Hu & Hns & Hx). rewrite <-Hu, <-Hns in Hx.
  prog_step; [by prog_step|]. prog_step; [by prog_step|]. prog_step.
  eapply wp_mono; [apply unionSessions_wp; [by intros; apply Ht|]|].
  { intros u Hin _. apply (Hx u Hin). apply nonempty_elem in Hin. rewrite Hin in Heqb0.
    by apply bool_decide_eq_false in Heqb0. }
  intros d' sids Hs. prog_step.
  eapply wp_mono; [apply (wp_each _ (targets sids)); [apply targets_stable|done|]|intros; by prog_step].
  intros h' m sid Hin Hok. unfold ask. repeat prog_step; [by apply Hok|done].
Qed.

Lemma SubscribeSession_wp h sub sid ch :
  target h sid → channel_ok ch →
  wp permitted h (SubscribeSession sub (identity_Principal id) sid ch) (λ _ _, True).
Proof.
  intros Ht Hc. unfold SubscribeSession. prog_step.
  apply wp_mono with (Q := λ h' b, target h' sid ∧ (b = true → subscribe_decided h' ch)).
  - apply (wp_keep _ (λ h, target h sid)); [intros d h'; apply target_app|done|].
    unfold APICanSubscribe, ask, subscribe_decided. repeat prog_step; try done.
    intros Ha. split; [by eexists|]. exists x. split; [left|].
    change (p_Caps (identity_Principal id)) with (id_Caps id) in Ha. by case_bool_decide.
  - intros d b [Ht' Hd]. unfold ask. destruct b; [specialize (Hd eq_refl)|]; repeat prog_step; try done.
Qed.

Lemma try_sessions_wp h sub ch sids :
  targets sids h → channel_ok ch →
  wp permitted h (try_sessions sub (identity_Principal id) ch sids) (λ _ _, True).
Proof.
  intros Ht Hc. revert h Ht. induction sids as [|sid sids IH]; intros h Ht; simpl; [done|].
  prog_step. eapply wp_mono; [apply (wp_keep _ (targets (sid :: sids))); [apply targets_stable|done|]|].
  { apply SubscribeSession_wp; [apply Ht; left|done]. }
  intros d r [Ht' _]. assert (targets sids (d ++ h)) as Hts by (intros s Hs; apply Ht'; by right).
  destruct r as [[]|]; [by prog_step|by apply IH..].
Qed.

(** The scope of Subscribe: the session that is left is addressable, and the
    channels that are left are in scope. *)
Definition sub_ok (r : SubscribeRequest) (s : subscribeScopeResult) (h : history) : Prop :=
  (sc_session s ≠ "" → target h (sc_session s)) ∧ (∀ ch, ch ∈ sc_channels s → channel_ok ch) ∧
  (sr_UserId r ≠ "" → sr_Namespace r ≠ "" → can_expand (sr_Namespace r)).

Lemma scopeSubscribe_wp h (sub : bool) r :
  wp permitted h (scopeSubscribe (Some id) (if sub then RSubscribe r else RUnsubscribe r) r)
    (λ h' res, match res with Ok (id', s) => id' = id ∧ sub_ok r s h' | Err _ => True end).
Proof.
  unfold scopeSubscribe, scopeAuthorize. destruct (has_caps _ _) eqn:Hc; [|by prog_step].
  assert (has_caps (id_Caps id) (addressing_caps (negb (bool_decide (sr_SessionId r = "")))
            (negb (bool_decide (sr_UserId r = "")))) = true) as [Hact Hfan]%has_caps_addressing by by destruct sub.
  prog_step. unfold scopeSubscribeTargets. prog_step; [by repeat prog_step|].
  destruct (scope_channels id (sr_Channels r)) as [[kept erased]|e] eqn:Hs; [|by repeat prog_step].
  apply scope_channels_ok in Hs as [Hk _].
  assert (sr_UserId r ≠ "" → sr_Namespace r ≠ "" → can_expand (sr_Namespace r)) as Hns.
  { intros Hu Hn. rewrite !bool_decide_eq_false_2 in Heqb by done. rewrite !bool_decide_eq_false_2 in Hfan by done.
    simpl in *. split_and!; [by apply Hfan|done|]. by destruct (AllowsNamespace id (sr_Namespace r)). }
  prog_step. apply wp_mono with (Q := λ h' b, b = true → sr_SessionId r ≠ "" → target h' (sr_SessionId r)).
  - prog_step; [eapply wp_mono; [apply sessionVisibleTo_wp|]|prog_step].
    + intros d b Hb Htrue Hne. apply seen_target; [|by apply Hb]. apply Hact. by rewrite bool_decide_eq_false_2.
    + intros _ Hne. rewrite bool_decide_eq_false_2 in * by done. split; [by apply Hact|left].
      by destruct (identityIsGlobal id).
  - intros d b Hb. repeat prog_step. split; [done|]. destruct b; split_and!; simpl; auto; done.
Qed.

Lemma api_Subscribe_wp h sub r : wp permitted h (api_Subscribe sub (Some id) r) (λ _ _, True).
Proof.
  unfold api_Subscribe. prog_step. eapply wp_mono; [apply scopeSubscribe_wp|].
  intros d [[id' s]|e]; [|by intros; prog_step]. intros [-> (Ht & Hc & Hx)].
  prog_step; [by prog_step|]. prog_step; [by prog_step|]. prog_step; [by prog_step|]. prog_step.
  eapply wp_mono; [apply unionSessions_wp|].
  { intros sid ->%list_elem_of_singleton. done. }
  { intros u ->%list_elem_of_singleton Hu. apply Hx; [done|].
    rewrite bool_decide_eq_false_2 in Heqb1 by done. by apply bool_decide_eq_false in Heqb1. }
  intros d' sids Hs. prog_step.
  eapply wp_mono; [apply (wp_each _ (targets sids)); [apply targets_stable|done|]|intros; by prog_step].
  intros h' m ch Hin Hok. prog_step. eapply wp_mono; [apply try_sessions_wp; [done|by apply Hc]|intros; by prog_step].
Qed.

(** ** Surveys and reads *)

Lemma scope_single_ok (req : @request J) ch id' :
  scope_single (Some id) req ch = Ok id' → id' = id ∧ channel_ok ch ∧ held (requiredCaps req).
Proof.
  unfold scope_single, scopeAuthorize, scopeChannelReference. destruct (has_caps _ _) eqn:Hc; [|done].
  destruct (ValidateChannel ch) as [[]|] eqn:Hv; [|done]. destruct (_ && _) eqn:Hb; [done|].
  intros Heq. injection Heq as <-. split_and!; [done|split; [done|]|done].
  destruct (identityIsGlobal id), (AllowsChannel id ch); by auto.
Qed.

Lemma survey_gate_wp h ch :
  channel_ok ch → wp permitted h (survey_gate id ch) (λ h' r, r = None → survey_decided h' ch).
Proof.
  intros Hc. unfold survey_gate, ask, survey_decided. prog_step.
  { prog_step. intros _. left. by apply negb_true_iff, bool_decide_eq_false in Heqb. }
  apply negb_false_iff, bool_decide_eq_true in Heqb. prog_step; [done|]. prog_step; [by prog_step|].
  apply negb_false_iff in Heqb0. prog_step; [split; [done|]; exists x; (split; [left|done])|].
  destruct x0 as [total|e]; [|by prog_step]. prog_step; [done|]. prog_step.
  destruct (_ && _)%Z eqn:Hb; [done|]. intros _. right. split; [exists x; split; [set_solver|done]|].
  exists x0, total. split; [set_solver|split; [set_solver|]]. cbv zeta.
  apply andb_false_iff in Hb as [Hb|Hb]; [left|right]; by apply Z.ltb_ge.
Qed.

Lemma api_Survey_wp h r : wp permitted h (api_Survey marshal (Some id) r) (λ _ _, True).
Proof.
  unfold api_Survey. destruct (scope_single _ _ _) as [id'|e] eqn:Hs; [|by prog_step].
  apply scope_single_ok in Hs as (-> & Hc & _). prog_step. eapply wp_mono; [by apply survey_gate_wp|].
  intros d [e|] Hg; [by prog_step|]. specialize (Hg eq_refl). unfold ask. prog_step; [done|].
  prog_step; [|by prog_step]. prog_step; [|by prog_step]. split; [done|].
  revert Hg. unfold survey_decided, decided. setoid_rewrite elem_of_cons. naive_solver.
Qed.

Lemma api_GetPresence_wp h ch : wp permitted h (api_GetPresence (Some id) ch) (λ _ _, True).
Proof.
  unfold api_GetPresence. destruct (scope_single _ _ _) as [id'|e] eqn:Hs; [|by prog_step].
  apply scope_single_ok in Hs as (-> & Hc & Hh). unfold ask. repeat prog_step; try done.
  split_and!; [done..|]. exists x. split; [left|]. by apply negb_false_iff.
Qed.

Lemma api_GetHistory_wp h r : wp permitted h (api_GetHistory unmarshal (Some id) r) (λ _ _, True).
Proof.
  unfold api_GetHistory. destruct (scope_single _ _ _) as [id'|e] eqn:Hs; [|by prog_step].
  apply scope_single_ok in Hs as (-> & Hc & Hh). unfold ask. repeat prog_step; try done.
  all: split_and!; [done..|]; exists x; split; [set_solver|]; by apply negb_false_iff.
Qed.

(** What the response of GetChannels may name. *)
Definition listing_ok (r : @request J) (res : result api_error (@response J)) : Prop :=
  match r, res with
  | RGetChannels, Ok (ChannelsResponse chs) => Forall (λ c, visible_channel id c = true) chs
  | _, _ => True
  end.

Lemma api_GetChannels_wp h :
  wp permitted h (api_GetChannels (Some id)) (λ _ res, listing_ok RGetChannels res).
Proof.
  unfold api_GetChannels, scopeAuthorize. destruct (has_caps _ _) eqn:Hc; [|by prog_step]. unfold ask.
  repeat prog_step; [done|]. destruct x as [chs|]; [|done]. unfold listing_ok.
  apply Forall_fmap, Forall_forall. intros c Hin%list_elem_of_In. apply filter_In in Hin as [_ Hv]. done.
Qed.

Lemma serve_wp h (r : @request J) : wp permitted h (serve marshal unmarshal (Some id) r) (λ _ res, listing_ok r res).
Proof.
  destruct r; simpl serve; try (apply api_GetChannels_wp).
  all: eapply wp_mono; [first [apply api_Publish_wp | apply api_Disconnect_wp | apply api_Subscribe_wp
    | apply api_Survey_wp | apply api_GetPresence_wp | apply api_GetHistory_wp]|done].
Qed.

End Scope.

Section Theorems.
Context {J : Type} (marshal : J → option string) (unmarshal : string → option J).

(** C5: Scope of the Server API.  Whatever a request carries and whatever the
    node answers, an RPC without a verified identity makes no call and fails
    with Internal; and with identity [id] every call the RPC makes on the node
    is permitted by what happened before it in the same RPC: a session is only
    addressed with session.act, after the node reported a namespace of the
    caller for it or listed it for a user of such a namespace; users are only
    expanded with user.fanout, in such a namespace; a channel is well-formed
    and in the caller's scope; publishing, subscribing, surveys, presence and
    history were allowed by an authorizer table read in the RPC; and
    GetChannels names only channels in scope. *)
Theorem api_scope (ctx : option APIIdentity) (r : @request J) tr res :
  run (serve marshal unmarshal ctx r) tr res →
  match ctx with
  | None => tr = [] ∧ res = Err (Status Internal (txt "server API identity missing from request context"))
  | Some id =>
      (∀ pre e x post, tr = pre ++ Event e x :: post → permitted id (rev pre) e) ∧ listing_ok id r res
  end.
Proof.
  intros Hr. destruct ctx as [id|].
  - split; [|exact (wp_run_post _ _ _ _ _ (serve_wp id marshal unmarshal [] r) Hr)].
    intros pre e x post ->. exact (wp_run_guard _ _ _ _ _ pre e x post (serve_wp id marshal unmarshal [] r) Hr eq_refl).
  - destruct r; inversion Hr; subst; done.
Qed.

End Theorems.
End ServerApiSafety.
