(* ===== verification/ServerApiReplies.v ===== *)
(** * ServerApiReplies: what the Server API answers (internal/serverapi)

    A session of a foreign namespace is indistinguishable from one that does
    not exist; the results of Subscribe and Unsubscribe; and what publishing
    one publication to several channels does to its history cap. *)

From stdpp Require Import sorting.
From S2P Require Import Prelude Topics Interest Policy Authz Stream Directory Lease Recover Effect Handlers ServerApi ServerApiSafety.
Import Topics Interest Policy Authz Stream Effect ServerApi ServerApiSafety.

Module ServerApiReplies.

(** ** Foreign sessions *)

Section Oblivious.
Context {J : Type} (marshal : J → option string) (unmarshal : string → option J) (id : APIIdentity).

(** The continuation of a namespace lookup does not depend on a foreign
    namespace. *)
Definition blind {A} (e : @effect J) : (answer e → prog (@answer J) A) → Prop :=
  match e with
  | SessionNamespace _ => λ k, ∀ ns, AllowsNamespace id ns = false → k (Some ns) = k None
  | _ => λ _, True
  end.

Fixpoint oblivious {A} (p : prog (@answer J) A) : Prop :=
  match p with Ret _ => True | Call e k => blind e k ∧ ∀ x, oblivious (k x) end.

Lemma oblivious_ret {A} (a : A) : oblivious (mret a).
Proof. done. Qed.

Lemma oblivious_bind {A B} (p : prog (@answer J) A) (f : A → prog (@answer J) B) :
  oblivious p → (∀ a, oblivious (f a)) → oblivious (p ≫= f).
Proof.
  intros Hp Hf. induction p as [a|e k IH]; simpl; [apply Hf|]. destruct Hp as [Hb Hk].
  split; [|intros x; by apply IH]. destruct e; simpl in *; try done. intros ns Hns. by rewrite Hb.
Qed.

Lemma oblivious_ask e : blind e Ret → oblivious (ask e).
Proof. intros Hb. by split. Qed.

Lemma oblivious_for_each {X B} (f : B → X → prog (@answer J) B) l b :
  (∀ b x, oblivious (f b x)) → oblivious (for_each f b l).
Proof. intros Hf. revert b. induction l; intros b; simpl; [done|]. by apply oblivious_bind. Qed.

Lemma oblivious_loop {X B C} (f : B → X → prog (@answer J) (flow B C)) l b :
  (∀ b x, oblivious (f b x)) → oblivious (loop f b l).
Proof.
  intros Hf. revert b. induction l; intros b; simpl; [done|]. apply oblivious_bind; [done|]. by intros [].
Qed.

Lemma sessionVisibleTo_oblivious sid : oblivious (sessionVisibleTo id sid).
Proof.
  unfold sessionVisibleTo. destruct (identityIsGlobal id); [done|]. split; [|done].
  intros ns Hns. simpl. by rewrite Hns.
Qed.

Ltac oblivious_step :=
  lazymatch goal with
  | |- ∀ _, _ => intro
  | |- oblivious (mret _) => apply oblivious_ret
  | |- oblivious (sessionVisibleTo _ _) => apply sessionVisibleTo_oblivious
  | |- oblivious (ask ?e) => apply (oblivious_ask e); exact I
  | |- oblivious (_ ≫= _) => apply oblivious_bind
  | |- oblivious (for_each _ _ _) => apply oblivious_for_each
  | |- oblivious (loop _ _ _) => apply oblivious_loop
  | |- oblivious (match ?x with _ => _ end) => destruct x
  | |- oblivious ((match ?x with _ => _ end) _) => destruct x
  | |- oblivious (let _ := _ in _) => cbv zeta
  end.

Ltac oblivious := repeat (oblivious_step; cbn beta); try assumption.

Lemma scope_sessions_oblivious sids : oblivious (scope_sessions id sids).
Proof. unfold scope_sessions. oblivious. Qed.

Lemma scope_publication_oblivious st pub : oblivious (scope_publication id st pub).
Proof. unfold scope_publication. oblivious; apply scope_sessions_oblivious. Qed.

Lemma unionSessions_oblivious explicit users ns : oblivious (unionSessions explicit users ns).
Proof. unfold unionSessions, ExpandUserSessions. oblivious. Qed.

Lemma publish_one_oblivious p t pub : oblivious (publish_one marshal p t pub).
Proof.
  unfold publish_one, publish_sessions, publish_channels, publish_channel, APICanPublish, PublishForAPI, node_Publish.
  oblivious; apply unionSessions_oblivious.
Qed.

Lemma try_sessions_oblivious sub p ch sids : oblivious (try_sessions sub p ch sids).
Proof.
  induction sids as [|sid sids IH]; simpl; [done|]. unfold SubscribeSession, APICanSubscribe. oblivious.
Qed.

Lemma scopeSubscribe_oblivious req r : oblivious (scopeSubscribe (Some id) req r).
Proof.
  unfold scopeSubscribe, scopeAuthorize. destruct (has_caps _ _); [|done].
  unfold scopeSubscribeTargets. oblivious.
Qed.

Lemma serve_oblivious r : oblivious (serve marshal unmarshal (Some id) r).
Proof.
  destruct r; simpl serve.
  - unfold api_Publish, scopePublish, scopeAuthorize. destruct (has_caps _ _); [|done].
    oblivious; first [apply scope_publication_oblivious | apply publish_one_oblivious].
  - unfold api_Disconnect, scopeDisconnect, scopeAuthorize. destruct (has_caps _ _); [|done].
    oblivious; first [apply scope_sessions_oblivious | apply unionSessions_oblivious].
  - unfold api_Subscribe. oblivious; first [apply scopeSubscribe_oblivious | apply unionSessions_oblivious
      | apply try_sessions_oblivious].
  - unfold api_Subscribe. oblivious; first [apply scopeSubscribe_oblivious | apply unionSessions_oblivious
      | apply try_sessions_oblivious].
  - unfold api_Survey, survey_gate. oblivious.
  - unfold api_GetPresence. oblivious.
  - unfold api_GetHistory. oblivious.
  - unfold api_GetChannels. oblivious.
Qed.

(** The node that does not know the sessions of foreign namespaces. *)
Definition hide_answer (e : @effect J) : answer e → answer e :=
  match e with
  | SessionNamespace _ => λ o, match o with
                               | Some ns => if AllowsNamespace id ns then Some ns else None
                               | None => None
                               end
  | _ => λ x, x
  end.

Definition hide {S} (env : ∀ e : @effect J, S → answer e * S) (e : effect) (s : S) : answer e * S :=
  let '(x, s') := env e s in (hide_answer e x, s').

Lemma oblivious_hide {A S} (env : ∀ e : @effect J, S → answer e * S) (p : prog (@answer J) A) s :
  oblivious p →
  (ev_call <$> (exec env p s).1.1, (exec env p s).1.2, (exec env p s).2) =
  (ev_call <$> (exec (hide env) p s).1.1, (exec (hide env) p s).1.2, (exec (hide env) p s).2).
Proof.
  revert s. induction p as [a|e k IH]; intros s; [done|]. intros [Hb Hk]. cbn [exec]. unfold hide at 1 3 5.
  destruct (env e s) as [x s']. assert (k (hide_answer e x) = k x) as ->.
  { destruct e; try done. simpl in *. destruct x as [ns|]; [|done].
    destruct (AllowsNamespace id ns) eqn:Ha; [done|]. symmetry. by apply Hb. }
  specialize (IH x s' (Hk x)).
  destruct (exec env (k x) s') as [[tr a] s1], (exec (hide env) (k x) s') as [[tr' a'] s1']. cbn [fst snd] in *.
  injection IH as Hc -> ->. by rewrite !fmap_cons, Hc.
Qed.

End Oblivious.
(** ** Subscribe results *)

Section Results.
Context {J : Type}.

Abbreviation history := (list (event (@answer J))).

Definition ok_true {E} (r : result E bool) : bool := match r with Ok b => b | Err _ => false end.

(** A dispatch to a session that reported success for [ch]. *)
Definition success (sub : bool) (ch : string) (ev : event (@answer J)) : bool :=
  match ev_call ev as e return answer e → bool with
  | DispatchSubscribe _ c => λ x, sub && bool_decide (c = ch) && ok_true x
  | DispatchUnsubscribe _ c => λ x, negb sub && bool_decide (c = ch) && ok_true x
  | _ => λ _, false
  end (ev_answer ev).

Definition successes (sub : bool) (ch : string) (h : history) : nat :=
  length (List.filter (success sub ch) h).

Lemma successes_app sub ch d h : successes sub ch (d ++ h) = successes sub ch d + successes sub ch h.
Proof. unfold successes. by rewrite List.filter_app, length_app. Qed.

Lemma successes_cons sub ch ev h :
  successes sub ch (ev :: h) = Nat.b2n (success sub ch ev) + successes sub ch h.
Proof. unfold successes. simpl. by destruct (success sub ch ev). Qed.

Lemma successes_rev sub ch h : successes sub ch (rev h) = successes sub ch h.
Proof. unfold successes. by rewrite List.filter_rev, length_rev. Qed.

Definition no_dispatch (_ : history) (e : @effect J) : Prop :=
  match e with DispatchSubscribe _ _ | DispatchUnsubscribe _ _ => False | _ => True end.

Definition anything (_ : history) (_ : @effect J) : Prop := True.

Definition clean (h : history) : Prop := ∀ sub ch, successes sub ch h = 0.

Lemma no_dispatch_clean {A} h (p : prog (@answer J) A) Q :
  clean h → wp no_dispatch h p Q → wp anything h p (λ h' a, clean h' ∧ Q h' a).
Proof.
  revert h. induction p as [a|e k IH]; intros h Hc; simpl; [done|]. intros [He Hk]. split; [done|].
  intros x. apply IH; [|done]. intros sub ch. rewrite successes_cons, Hc. by destruct e.
Qed.

Ltac quiet := repeat first
  [ match goal with |- no_dispatch _ _ => exact I | |- True => exact I end | prog_step ].

Lemma unionSessions_quiet h explicit users ns :
  wp no_dispatch h (unionSessions explicit users ns) (λ _ _, True).
Proof.
  unfold unionSessions. prog_step. eapply wp_mono; [apply (wp_for_each _ _ (λ _ _, True)); [|done]|by quiet].
  intros. unfold ExpandUserSessions, ask. by quiet.
Qed.

Lemma scopeSubscribe_quiet h id (sub : bool) r :
  wp no_dispatch h (scopeSubscribe (Some id) (if sub then RSubscribe r else RUnsubscribe r) r)
    (λ _ res, match res with
              | Ok (_, s) => scope_channels id (sr_Channels r) = Ok (sc_channels s, erasedChannels s)
              | Err _ => True
              end).
Proof.
  unfold scopeSubscribe, scopeAuthorize. destruct (has_caps _ _); [|done]. prog_step.
  unfold scopeSubscribeTargets. prog_step; [by quiet|].
  destruct (scope_channels id (sr_Channels r)) as [[kept erased]|e] eqn:Hs; [|by quiet]. prog_step.
  apply wp_mono with (Q := λ _ _, True).
  - unfold sessionVisibleTo, ask. by quiet.
  - intros d b _. quiet. by destruct b.
Qed.

(** One session call: a success is counted once, for its own channel. *)
Lemma SubscribeSession_counts h sub p sid ch :
  wp anything h (SubscribeSession sub p sid ch)
    (λ h' r, ∀ c, successes sub c h' =
       successes sub c h + Nat.b2n (bool_decide (c = ch) && ok_true r)).
Proof.
  unfold SubscribeSession. prog_step.
  apply wp_mono with (Q := λ h' b, ∀ c, successes sub c h' = successes sub c h).
  - unfold APICanSubscribe, ask. repeat prog_step; try done; intros c; by rewrite Nat.add_0_r.
  - intros d b Hb. unfold ask. destruct b; [destruct sub|]; repeat prog_step; try done; intros c; rewrite <-Hb.
    1, 2: rewrite successes_cons; unfold success; simpl;
      rewrite (bool_decide_ext (ch = c) (c = ch)) by done; lia.
    by rewrite andb_false_r, Nat.add_0_r.
Qed.

Lemma try_sessions_counts h sub p ch sids :
  wp anything h (try_sessions sub p ch sids)
    (λ h' b, ∀ c, successes sub c h' = successes sub c h + Nat.b2n (bool_decide (c = ch) && b)).
Proof.
  revert h. induction sids as [|sid sids IH]; intros h; simpl; [by intros c; rewrite andb_false_r, Nat.add_0_r|].
  prog_step. eapply wp_mono; [apply SubscribeSession_counts|]. intros d r Hr.
  destruct r as [[]|]; [by prog_step|..]; (eapply wp_mono; [apply IH|]); intros d' b Hb c;
    rewrite Hb, Hr; simpl; rewrite andb_false_r; simpl; lia.
Qed.

Lemma subscribe_loop_counts sub p sids chs : ∀ h (m : gmap string bool), NoDup chs →
  wp anything h
    (for_each (λ results ch, ok ← try_sessions sub p ch sids; mret (<[ ch := ok ]> results)) m chs)
    (λ h' m', ∀ ch,
       if decide (ch ∈ chs) then ∃ b, m' !! ch = Some b ∧ successes sub ch h' = successes sub ch h + Nat.b2n b
       else m' !! ch = m !! ch ∧ successes sub ch h' = successes sub ch h).
Proof.
  induction chs as [|ch chs IH]; intros h m Hnd; cbn [for_each]; [prog_step; intros c; by rewrite decide_False by set_solver|].
  apply NoDup_cons in Hnd as [Hni Hnd]. prog_step. prog_step.
  eapply wp_mono; [apply try_sessions_counts|]. intros d b Hb. prog_step.
  eapply wp_mono; [by apply IH|]. intros d' m' Hm c. specialize (Hm c). specialize (Hb c).
  destruct (decide (c ∈ chs)) as [Hin|Hnin].
  - rewrite decide_True by set_solver. assert (c ≠ ch) by set_solver.
    rewrite bool_decide_eq_false_2 in Hb by done. simpl in Hb. rewrite Nat.add_0_r in Hb. by rewrite <-Hb.
  - destruct Hm as [Hm Hs]. destruct (decide (c = ch)) as [->|Hne].
    + rewrite decide_True by set_solver. exists b. rewrite Hm, lookup_insert_eq, Hs, Hb.
      by rewrite bool_decide_eq_true_2.
    + rewrite decide_False by set_solver. rewrite Hm, lookup_insert_ne, Hs, Hb, bool_decide_eq_false_2 by done.
      simpl. by rewrite Nat.add_0_r.
Qed.

Lemma all_false_lookup chs : ∀ (m : gmap string bool) ch,
  all_false chs m !! ch = if decide (ch ∈ chs) then Some false else m !! ch.
Proof.
  induction chs as [|c chs IH]; intros m ch; [done|]. change (all_false (c :: chs) m) with (all_false chs (<[c:=false]> m)).
  rewrite IH. destruct (decide (ch ∈ chs)); [by rewrite decide_True by set_solver|].
  destruct (decide (ch = c)) as [->|]; [by rewrite decide_True, lookup_insert_eq by set_solver|].
  by rewrite decide_False, lookup_insert_ne by set_solver.
Qed.

Definition results_ok (sub : bool) (r : SubscribeRequest) (h : history) (res : result api_error (@response J)) : Prop :=
  match res with
  | Ok (ResultsResponse m) => ∀ ch,
      if decide (ch ∈ sr_Channels r) then ∃ b, m !! ch = Some b ∧ successes sub ch h = Nat.b2n b
      else m !! ch = None ∧ successes sub ch h = 0
  | _ => True
  end.

Lemma short_circuit_ok sub r s id h :
  clean h → scope_channels id (sr_Channels r) = Ok (sc_channels s, erasedChannels s) →
  results_ok sub r h (Ok (ResultsResponse (all_false (sc_channels s) (all_false (erasedChannels s) ∅)))).
Proof.
  intros Hc Hs ch. destruct (scope_channels_ok _ _ _ _ Hs) as (_ & Hin & _). rewrite !all_false_lookup, Hc.
  destruct (decide (ch ∈ sr_Channels r)) as [Hr|Hr]; rewrite Hin in Hr.
  - exists false. split; [|done]. destruct (decide (ch ∈ sc_channels s)); [done|]. by rewrite decide_True by tauto.
  - by rewrite !decide_False by tauto.
Qed.

Lemma api_Subscribe_results sub id r :
  NoDup (sr_Channels r) → wp anything [] (api_Subscribe sub (Some id) r) (results_ok sub r).
Proof.
  intros Hnd. unfold api_Subscribe. prog_step.
  eapply wp_mono; [apply no_dispatch_clean; [done|apply scopeSubscribe_quiet]|].
  intros d [[id' s]|e] [Hc Hs]; [|by prog_step]. prog_step; [prog_step; by eapply short_circuit_ok|].
  prog_step; [by prog_step|]. prog_step; [by prog_step|]. prog_step.
  eapply wp_mono; [apply no_dispatch_clean; [done|apply unionSessions_quiet]|]. intros d' sids [Hc' _].
  destruct (scope_channels_ok _ _ _ _ Hs) as (_ & Hin & Hk).
  prog_step. eapply wp_mono; [by apply subscribe_loop_counts, Hk|]. intros d'' m Hm. prog_step. intros ch.
  specialize (Hm ch). rewrite Hc', all_false_lookup in Hm. simpl in Hm.
  destruct (decide (ch ∈ sr_Channels r)) as [Hr|Hr]; rewrite Hin in Hr.
  - destruct (decide (ch ∈ sc_channels s)); [done|]. rewrite decide_True in Hm by tauto. destruct Hm. by exists false.
  - rewrite !decide_False in Hm by tauto. done.
Qed.

End Results.

Section Theorems.
Context {J : Type} (marshal : J → option string) (unmarshal : string → option J).

(** A foreign session looks like a missing one.  For every request and
    every node, an RPC of identity [id] makes the same calls, leaves the node
    in the same state and returns the same response when the node's answers
    about sessions of namespaces outside the caller's scope are replaced by
    "no such session". *)
Theorem invisible_like_missing {S} (env : ∀ e : @effect J, S → answer e * S) (id : APIIdentity) (r : request) (s : S) :
  let rpc := serve marshal unmarshal (Some id) r in
  (ev_call <$> (exec env rpc s).1.1, (exec env rpc s).1.2, (exec env rpc s).2) =
  (ev_call <$> (exec (hide id env) rpc s).1.1, (exec (hide id env) rpc s).1.2, (exec (hide id env) rpc s).2).
Proof. apply oblivious_hide, serve_oblivious. Qed.

(** Subscribe and Unsubscribe results.  For a request whose channels are
    distinct, the results name exactly the requested channels; a channel's
    result is true exactly when one dispatch to a session reported success for
    it in this RPC, and no channel has more than one such dispatch: the loop
    over a user's sessions ends at the first success. *)
Theorem subscribe_results_exact (sub : bool) (id : APIIdentity) (r : SubscribeRequest) tr (m : gmap string bool) :
  NoDup (sr_Channels r) →
  run (serve marshal unmarshal (Some id) (if sub then RSubscribe r else RUnsubscribe r)) tr (Ok (ResultsResponse m)) →
  ∀ ch,
    if decide (ch ∈ sr_Channels r) then ∃ b, m !! ch = Some b ∧ successes sub ch tr = Nat.b2n b
    else m !! ch = None ∧ successes sub ch tr = 0.
Proof.
  intros Hnd Hr ch. assert (run (api_Subscribe sub (Some id) r) tr (Ok (ResultsResponse m))) as Hr' by by destruct sub.
  pose proof (wp_run_post _ _ _ _ _ (api_Subscribe_results sub id r Hnd) Hr' ch) as Hok.
  by rewrite successes_rev in Hok.
Qed.

End Theorems.

Section Sharing.
Context {J : Type}.

(** The policies of [ch] let a publication be logged. *)
Definition logged (az : Authorizer) (p : Principal) (ch : string) : Prop :=
  Allow (Decide az p ActionPublish ch) = true ∧
  TransientOnly (Effects az ch) || negb (History (Effects az ch)) = false.

Lemma publish_channel_logged {S} (env : ∀ e : @effect J, S → answer e * S) az p ch t bp (s : S) :
  (∀ s, (env LoadAuthorizer s).1 = az) → logged az p ch →
  ∃ tr t' bp' s' x,
    exec env (publish_channel p true (t, bp) ch) s = (tr, (t', bp'), s') ∧
    Event (BrokerPublish ch (sized (Effects az ch) bp)) x ∈ tr ∧
    pub_HistorySize bp' = pub_HistorySize (sized (Effects az ch) bp).
Proof.
  intros Haz [Ha Hl].
  assert (∀ s, ∃ s', env LoadAuthorizer s = (az, s')) as Hload.
  { intros s'. specialize (Haz s'). destruct (env LoadAuthorizer s') as [x s'']. simpl in Haz. subst. by eexists. }
  unfold publish_channel, APICanPublish, PublishForAPI, node_Publish, ask, call. cbn [mbind prog_bind exec].
  destruct (Hload s) as [s1 ->]. change (mret ?x ≫= ?f) with (f x). rewrite Ha. cbn [mbind prog_bind exec].
  destruct (Hload s1) as [s2 ->]. rewrite Hl. cbn [mbind prog_bind exec].
  destruct (Hload s2) as [s3 ->]. rewrite Hl. cbn [mbind prog_bind exec].
  destruct (env (BrokerPublish ch (sized (Effects az ch) bp)) s3) as [x s4].
  do 4 eexists. exists x. split; [reflexivity|]. split; [set_solver|]. by destruct x.
Qed.

(** One publication for several channels.  Publish hands every destination
    channel the same publication object, and Node.Publish stores the policy's
    history cap in it: with add_history the second channel's publication goes
    to the broker with the cap of the first channel, whatever the second
    channel's policy says. *)
Theorem shared_publication_first_cap {S} (env : ∀ e : @effect J, S → answer e * S) az p a b t bp (s : S) :
  (∀ s, (env LoadAuthorizer s).1 = az) → logged az p a → logged az p b →
  pub_HistorySize bp = 0%Z → (0 < HistorySize (Effects az a))%Z →
  ∃ pa x pb y, let tr := (exec env (publish_channels p true (t, bp) [a; b]) s).1.1 in
    Event (BrokerPublish a pa) x ∈ tr ∧ pub_HistorySize pa = HistorySize (Effects az a) ∧
    Event (BrokerPublish b pb) y ∈ tr ∧ pub_HistorySize pb = HistorySize (Effects az a).
Proof.
  intros Haz Ha Hb Hz Hcap. unfold publish_channels. cbn [for_each].
  destruct (publish_channel_logged env az p a t bp s Haz Ha) as (tr & t1 & bp1 & s1 & x & He & Hin & Hs).
  destruct (publish_channel_logged env az p b t1 bp1 s1 Haz Hb) as (tr' & t2 & bp2 & s2 & y & He' & Hin' & Hs').
  rewrite exec_bind, He, exec_bind, He'. cbn [exec fst].
  assert (pub_HistorySize (sized (Effects az a) bp) = HistorySize (Effects az a)) as Hfirst.
  { unfold sized. simpl. rewrite Hz. simpl. by apply Z.ltb_lt in Hcap as ->. }
  assert (pub_HistorySize (sized (Effects az b) bp1) = HistorySize (Effects az a)) as Hsecond.
  { unfold sized. simpl. rewrite Hs, Hfirst, bool_decide_eq_false_2 by lia. done. }
  exists (sized (Effects az a) bp), x, (sized (Effects az b) bp1), y. set_solver.
Qed.

End Sharing.

(** ** A scoped key on a small node *)

Definition node (az : Authorizer) (e : @effect string) (s : unit) : answer e * unit :=
  match e with
  | LoadAuthorizer => (az, s)
  | SessionNamespace sid =>
      (if bool_decide (sid = "s1") then Some "acme" else if bool_decide (sid = "s2") then Some "rival" else None, s)
  | ExpandUser _ _ => (["s3"; "s1"], s)
  | PublishToSession _ _ _ | DisconnectSession _ _ | DispatchUnsubscribe _ _ => (Ok true, s)
  | DispatchSubscribe sid _ => (Ok (bool_decide (sid = "s3")), s)
  | BrokerPublish _ _ => (Ok 7%Z, s)
  | BrokerPublishTransient _ _ => (None, s)
  | NodeSurvey _ _ _ => (Ok [], s)
  | NodePresence _ => (Ok ∅, s)
  | NodeChannels => (Ok [mkChannelInfo "acme:im.a" 1; mkChannelInfo "rival:im.b" 1], s)
  | CountSubscribers _ => (Ok 1%Z, s)
  | BrokerHistory _ _ _ => (Ok (mkPage [] false false HistoryGapNone 0), s)
  | StreamEpoch => ("epoch-1", s)
  end.

Definition cap_rule (pattern : string) (size : Z) : compiledRule :=
  mkCompiledRule pattern (mkPattern patternExact (SplitSegments pattern)) false None false None false None false false
    (mkCompiled None (Some size) None None None None None None None None None None None).

(** acme:im.a keeps five publications, acme:im.b a hundred. *)
Definition two_caps : Authorizer :=
  mkAuthorizer DefaultChannelPolicy [cap_rule "acme:im.a" 5; cap_rule "acme:im.b" 100].

Definition acme_key : APIIdentity := mkIdentity "k1" ["acme"] 511%Z.

Definition rpc (r : request) : list (event (@answer string)) * result api_error response * unit :=
  exec (node two_caps) (serve Some Some (Some acme_key) r) tt.

Definition kick : @request string := RDisconnect (mkDisconnectReq ["s1"; "s2"; "s9"] [] "" 3000%Z "bye").

(** The rival's session s2 and the unknown s9 are both left out. *)
Example kick_run : (rpc kick).1.2 = Ok (ResultsResponse {[ "s1" := true ]}).
Proof. vm_compute. reflexivity. Qed.

Lemma api_scope_witness :
  (∃ pre post, (rpc kick).1.1 = pre ++ Event (DisconnectSession "s1" (Handlers.mkDisconnect 3000%Z "bye")) (Ok true) :: post ∧
     permitted acme_key (rev pre) (DisconnectSession "s1" (Handlers.mkDisconnect 3000%Z "bye"))) ∧
  listing_ok acme_key RGetChannels (rpc RGetChannels).1.2.
Proof.
  split.
  - exists (take 3 (rpc kick).1.1), (drop 4 (rpc kick).1.1). split; [vm_compute; reflexivity|].
    refine (proj1 (api_scope Some Some (Some acme_key) kick (rpc kick).1.1 _ _) _
              (DisconnectSession "s1" (Handlers.mkDisconnect 3000%Z "bye")) (Ok true) (drop 4 (rpc kick).1.1) _);
      [apply exec_run|vm_compute; reflexivity].
  - refine (proj2 (api_scope Some Some (Some acme_key) RGetChannels (rpc RGetChannels).1.1 _ _)). apply exec_run.
Defined.

Definition join : SubscribeRequest := mkSubscribeReq "s2" ["acme:im.a"; "rival:im.b"] "bob" "acme".

Lemma subscribe_results_exact_witness :
  (rpc (RSubscribe join)).1.2 = Ok (ResultsResponse {[ "acme:im.a" := true; "rival:im.b" := false ]}) ∧
  ∃ b, ({[ "acme:im.a" := true; "rival:im.b" := false ]} : gmap string bool) !! "acme:im.a" = Some b ∧
    successes true "acme:im.a" (rpc (RSubscribe join)).1.1 = Nat.b2n b.
Proof.
  assert ((rpc (RSubscribe join)).1.2 = Ok (ResultsResponse {[ "acme:im.a" := true; "rival:im.b" := false ]})) as Hres
    by (vm_compute; reflexivity).
  split; [exact Hres|].
  refine (subscribe_results_exact Some Some true acme_key join (rpc (RSubscribe join)).1.1 _ _ _ "acme:im.a").
  - apply (bool_decide_unpack _). vm_compute. exact I.
  - rewrite <-Hres. exact (exec_run (node two_caps) (serve Some Some (Some acme_key) (RSubscribe join)) tt).
Defined.

Definition note : Publication := mkPub "" "hi" PayloadKindText "" "p1" ∅ 0 0 0 "" 0 0.

Lemma shared_publication_first_cap_witness :
  HistorySize (Effects two_caps "acme:im.b") = 100%Z ∧
  ∃ pa x pb y,
    let tr := (exec (node two_caps) (publish_channels (identity_Principal acme_key) true (mkTally 0 0, note)
                                       ["acme:im.a"; "acme:im.b"]) tt).1.1 in
    Event (BrokerPublish "acme:im.a" pa) x ∈ tr ∧ pub_HistorySize pa = HistorySize (Effects two_caps "acme:im.a") ∧
    Event (BrokerPublish "acme:im.b" pb) y ∈ tr ∧ pub_HistorySize pb = HistorySize (Effects two_caps "acme:im.a").
Proof.
  split; [vm_compute; reflexivity|].
  apply (shared_publication_first_cap (node two_caps) two_caps (identity_Principal acme_key));
    [intros; reflexivity|split; vm_compute; reflexivity..|reflexivity|vm_compute; reflexivity].
Defined.

End ServerApiReplies.
