(* ===== verification/Commands.v ===== *)
(** * Commands: operations on a session wherever it lives
      (internal/runtime/cluster_commands.go, cluster_user_index.go, node.go)

    The node resolves the owner of a session, runs the command itself or sends
    it to the owner over the command bus, and executes the commands other nodes
    send.  The code is a program over the calls to the hub, the session
    directory, the bus and the sessions. *)

From stdpp Require Import pretty sorting.
From S2P Require Import Prelude Topics Stream Directory Epoch Lease Hmac Effect Handlers Strconv.
Import Directory Effect Strconv.

Module Commands.
Import Hmac.

(** ** Command vocabulary (internal/cluster/contracts.go) *)

Definition ClusterCommandPublish := "publish".
Definition ClusterCommandDisconnect := "disconnect".
Definition ClusterCommandSubscribe := "subscribe".
Definition ClusterCommandUnsubscribe := "unsubscribe".
Definition ClusterCommandSurvey := "survey".
Definition ClusterCommandTakeover := "takeover".
Definition ClusterCommandStatusSucceeded := "succeeded".
Definition ClusterCommandStatusFailed := "failed".
Definition ClusterCommandMetaExcludeSelf := "exclude_self".
Definition clusterCommandMetaDisconnectCode := "disconnect_code".
Definition clusterCommandMetaDisconnectReason := "disconnect_reason".
Definition clusterCommandMetaSurveyTimeoutMS := "survey_timeout_ms".
Definition clusterCommandMetaSurveyResults := "survey_results".
Definition clusterCommandMetaSurveyCountOnly := "count_only".
Definition clusterCommandMetaSurveyCount := "count".

(** survey.SurveyResult. *)
Record SurveyResult := mkSurveyResult {
  sv_SessionID : string; sv_NodeID : string; sv_IncarnationID : string; sv_Payload : string; sv_Error : option string }.

(** The order of the results: node, incarnation, session. *)
Definition sv_le (a b : SurveyResult) : bool :=
  if negb (bool_decide (sv_NodeID a = sv_NodeID b)) then str_leb (sv_NodeID a) (sv_NodeID b)
  else if negb (bool_decide (sv_IncarnationID a = sv_IncarnationID b))
       then str_leb (sv_IncarnationID a) (sv_IncarnationID b)
  else str_leb (sv_SessionID a) (sv_SessionID b).

Definition sv_ordered (a b : SurveyResult) : Prop := sv_le a b = true.

#[global] Instance sv_ordered_dec : RelDecision sv_ordered.
Proof. intros a b. unfold sv_ordered. apply _. Defined.

Definition sortSurveyResults (l : list SurveyResult) : list SurveyResult := merge_sort sv_ordered l.

Record clusterSurveyResultRecord := mkRecord {
  rc_SessionID : string; rc_Payload : string; rc_ErrorMessage : string }.

(** A command with the fields its issuer sets. *)
Definition new_command (typ sid ch payload : string) (md : gmap string string) : ClusterCommand :=
  mkCommand "" typ "" "" sid ch 0 zeroTime "" payload md "".

Record NodeCfg := mkNode {
  ClusterEnabled : bool; ClusterNodeID : string; ClusterIncarnationID : string; sessionLeaseTTL : Z }.

Section Commands.
Context {Msg : Type} (proto_Marshal : Msg → result string string) (proto_Unmarshal : string → result string Msg).
Context (n : NodeCfg).

(** ** Calls *)

Inductive effect :=
| LookupSession (sid : string)
| SessionsByUser (ns user : string)
| GetSessionLease (sid : string)
| ListUserSessions (ns user : string)
| NewUUID
| Now
| NowMilli
| SendCommand (cmd : ClusterCommand)
| BroadcastCommand (cmd : ClusterCommand)
| ClientSend (sid : string) (msg : Msg)
| ClientClose (sid : string) (d : Handlers.Disconnect)
| ClientFence (sid : string) (d : Handlers.Disconnect)
| LookupSubscriber (ch sid : string)
| AddSubscription (ch sid : string)
| RemoveSubscription (ch sid : string)
| PresenceJoin (ch sid : string)
| PresenceLeave (ch sid user : string) (ephemeral : bool)
| MatchingSubscribers (ch : string)
| LocalSurvey (ch payload : string) (timeout : Z)
| JsonMarshal (records : list clusterSurveyResultRecord)
| JsonUnmarshal (encoded : string).

(** A session of the hub is known by its identity; a failure is its message. *)
Definition answer (e : effect) : Type :=
  match e with
  | LookupSession _ => option Lease.Identity
  | SessionsByUser _ _ => list Lease.Identity
  | GetSessionLease _ => result string (option ClusterSessionLease)
  | ListUserSessions _ _ => list string * option string
  | NewUUID => string
  | Now => Time
  | NowMilli => Z
  | SendCommand _ => result string (option ClusterCommandResult)
  | BroadcastCommand _ => result string (list (option ClusterCommandResult))
  | ClientSend _ _ | ClientClose _ _ | ClientFence _ _ | AddSubscription _ _ | RemoveSubscription _ _ =>
      option string
  | LookupSubscriber _ _ => option bool
  | PresenceJoin _ _ | PresenceLeave _ _ _ _ => unit
  | MatchingSubscribers _ => list string
  | LocalSurvey _ _ _ => result string (list SurveyResult)
  | JsonMarshal _ => result string string
  | JsonUnmarshal _ => result string (list clusterSurveyResultRecord)
  end.

Abbreviation M := (prog answer).

Definition ask (e : effect) : M (answer e) := call e.

Definition self : string * string := (ClusterNodeID n, ClusterIncarnationID n).

(** ** The command handlers of the owner *)

Definition new_result (cmd : ClusterCommand) : ClusterCommandResult :=
  mkResult (c_CommandID cmd) (c_SessionID cmd) (ClusterNodeID n) (ClusterIncarnationID n)
    ClusterCommandStatusSucceeded "" "" ∅ zeroTime "".

Definition failed (r : ClusterCommandResult) (code msg : string) : ClusterCommandResult :=
  mkResult (r_CommandID r) (r_SessionID r) (r_NodeID r) (r_IncarnationID r) ClusterCommandStatusFailed code msg
    (r_Metadata r) (r_IssuedAt r) (r_Signature r).

Definition with_metadata (r : ClusterCommandResult) (k v : string) : ClusterCommandResult :=
  mkResult (r_CommandID r) (r_SessionID r) (r_NodeID r) (r_IncarnationID r) (r_Status r) (r_ErrorCode r)
    (r_ErrorMessage r) (<[ k := v ]> (r_Metadata r)) (r_IssuedAt r) (r_Signature r).

Definition clusterCommandSessionNotFound (r : ClusterCommandResult) : ClusterCommandResult :=
  failed r "SESSION_NOT_FOUND" "session not found".

Definition clusterCommandSucceeded (r : option ClusterCommandResult) : bool :=
  match r with Some r => bool_decide (r_Status r = ClusterCommandStatusSucceeded) | None => false end.

(** The outcome of the session's call. *)
Definition outcome (r : ClusterCommandResult) (code : string) (err : option string) : ClusterCommandResult :=
  match err with Some msg => failed r code msg | None => r end.

Definition handleClusterPublishCommand (cmd : ClusterCommand) (r : ClusterCommandResult) : M ClusterCommandResult :=
  client ← ask (LookupSession (c_SessionID cmd));
  match client with
  | None => mret (clusterCommandSessionNotFound r)
  | Some client =>
      match proto_Unmarshal (c_Payload cmd) with
      | Err msg => mret (failed r "INVALID_CLUSTER_PAYLOAD" msg)
      | Ok message =>
          err ← ask (ClientSend (Lease.id_SessionID client) message);
          mret (outcome r "SESSION_PUBLISH_FAILED" err)
      end
  end.

(** A missing key reads as the empty string. *)
Definition meta (cmd : ClusterCommand) (k : string) : string := default "" (c_Metadata cmd !! k).

(** The disconnect a command carries. *)
Definition command_disconnect (cmd : ClusterCommand) : Handlers.Disconnect :=
  Handlers.mkDisconnect (Z.of_N (fst (ParseUint 32 (meta cmd clusterCommandMetaDisconnectCode))))
    (meta cmd clusterCommandMetaDisconnectReason).

Definition handleClusterDisconnectCommand (cmd : ClusterCommand) (r : ClusterCommandResult) : M ClusterCommandResult :=
  client ← ask (LookupSession (c_SessionID cmd));
  match client with
  | None => mret (clusterCommandSessionNotFound r)
  | Some client =>
      err ← ask (ClientClose (Lease.id_SessionID client) (command_disconnect cmd));
      mret (outcome r "SESSION_DISCONNECT_FAILED" err)
  end.

Definition handleClusterSubscribeCommand (cmd : ClusterCommand) (r : ClusterCommandResult) : M ClusterCommandResult :=
  client ← ask (LookupSession (c_SessionID cmd));
  match client with
  | None => mret (clusterCommandSessionNotFound r)
  | Some client =>
      let sid := Lease.id_SessionID client in
      stored ← ask (LookupSubscriber (c_Channel cmd) sid);
      err ← ask (AddSubscription (c_Channel cmd) sid);
      match (err : option string) with
      | Some msg => mret (failed r "SESSION_SUBSCRIBE_FAILED" msg)
      | None =>
          match stored with
          | None => _ ← ask (PresenceJoin (c_Channel cmd) sid); mret r
          | Some _ => mret r
          end
      end
  end.

Definition handleClusterUnsubscribeCommand (cmd : ClusterCommand) (r : ClusterCommandResult) : M ClusterCommandResult :=
  client ← ask (LookupSession (c_SessionID cmd));
  match client with
  | None => mret (clusterCommandSessionNotFound r)
  | Some client =>
      let sid := Lease.id_SessionID client in
      stored ← ask (LookupSubscriber (c_Channel cmd) sid);
      err ← ask (RemoveSubscription (c_Channel cmd) sid);
      match (err : option string) with
      | Some msg => mret (failed r "SESSION_UNSUBSCRIBE_FAILED" msg)
      | None =>
          match stored with
          | Some ephemeral =>
              _ ← ask (PresenceLeave (c_Channel cmd) sid (Lease.id_UserID client) ephemeral); mret r
          | None => mret r
          end
      end
  end.

Definition handleClusterTakeoverCommand (cmd : ClusterCommand) (r : ClusterCommandResult) : M ClusterCommandResult :=
  client ← ask (LookupSession (c_SessionID cmd));
  match client with
  | None => mret r
  | Some client =>
      let current := Lease.id_LeaseVersion client in
      let current := if (current =? 0)%Z then 1%Z else current in
      if (0 <? c_LeaseVersion cmd)%Z && negb (current =? c_LeaseVersion cmd)%Z then
        mret (failed r "LEASE_VERSION_MISMATCH" "cluster takeover lease version mismatch")
      else
        err ← ask (ClientFence (Lease.id_SessionID client) Handlers.DisconnectStale);
        mret (outcome r "SESSION_TAKEOVER_FAILED" err)
  end.

(** [int64] nanoseconds of a positive number of milliseconds. *)
Definition survey_timeout (raw : string) : Z :=
  let second := 1000000000%Z in
  if bool_decide (raw = "") then (5 * second)%Z
  else match ParseInt raw with
       | (ms, None) => if (0 <? ms)%Z then i64 (ms * 1000000)%Z else (5 * second)%Z
       | (_, Some _) => (5 * second)%Z
       end.

Definition to_record (r : SurveyResult) : clusterSurveyResultRecord :=
  mkRecord (sv_SessionID r) (sv_Payload r) (default "" (sv_Error r)).

Definition encodeClusterSurveyResults (results : list SurveyResult) : M (result string string) :=
  ask (JsonMarshal (to_record <$> results)).

Definition handleClusterSurveyCommand (cmd : ClusterCommand) (r : ClusterCommandResult) : M ClusterCommandResult :=
  if bool_decide (meta cmd clusterCommandMetaSurveyCountOnly = "true") then
    subs ← ask (MatchingSubscribers (c_Channel cmd));
    mret (with_metadata r clusterCommandMetaSurveyCount (FormatInt (Z.of_nat (length (subs : list string)))))
  else
    results ← ask (LocalSurvey (c_Channel cmd) (c_Payload cmd) (survey_timeout (meta cmd clusterCommandMetaSurveyTimeoutMS)));
    match results with
    | Err msg => mret (failed r "SURVEY_EXECUTION_FAILED" msg)
    | Ok results =>
        encoded ← encodeClusterSurveyResults results;
        mret match encoded with
             | Err msg => failed r "SURVEY_RESULT_ENCODING_FAILED" msg
             | Ok encoded => with_metadata r clusterCommandMetaSurveyResults encoded
             end
    end.

Definition handleClusterCommand (cmd : ClusterCommand) : M ClusterCommandResult :=
  let r := new_result cmd in
  let type_is typ := bool_decide (c_Type cmd = typ) in
  if type_is ClusterCommandPublish then handleClusterPublishCommand cmd r
  else if type_is ClusterCommandDisconnect then handleClusterDisconnectCommand cmd r
  else if type_is ClusterCommandSubscribe then handleClusterSubscribeCommand cmd r
  else if type_is ClusterCommandUnsubscribe then handleClusterUnsubscribeCommand cmd r
  else if type_is ClusterCommandSurvey then handleClusterSurveyCommand cmd r
  else if type_is ClusterCommandTakeover then handleClusterTakeoverCommand cmd r
  else mret (failed r "UNSUPPORTED_CLUSTER_COMMAND" ("unsupported cluster command: " +:+ c_Type cmd)).

(** ** Routing to the owner *)

Definition resolveSessionLease (sid : string) : M (result string (option ClusterSessionLease)) :=
  if bool_decide (sid = "") then mret (Ok None)
  else
    client ← ask (LookupSession sid);
    match client with
    | Some i =>
        now ← ask NowMilli;
        mret (Ok (Some (Lease.clusterSessionLease (if ClusterEnabled n then self else ("", "")) (sessionLeaseTTL n) now i)))
    | None => if ClusterEnabled n then ask (GetSessionLease sid) else mret (Ok None)
    end.

Definition addressed (cmd : ClusterCommand) (id : string) (at_ : Time) (lease : ClusterSessionLease) (sid : string)
    : ClusterCommand :=
  mkCommand id (c_Type cmd) (l_NodeID lease) (l_IncarnationID lease) sid (c_Channel cmd) (c_LeaseVersion cmd)
    at_ (c_IssuedBy cmd) (c_Payload cmd) (c_Metadata cmd) (c_Signature cmd).

Definition dispatchSessionCommand (sid : string) (cmd : ClusterCommand)
    : M (result string (option ClusterCommandResult)) :=
  if bool_decide (sid = "") then mret (Ok None)
  else
    lease ← resolveSessionLease sid;
    match lease with
    | Err e => mret (Err e)
    | Ok None => mret (Ok None)
    | Ok (Some lease) =>
        id ← ((if bool_decide (c_CommandID cmd = "") then ask NewUUID else mret (c_CommandID cmd)) : M string);
        at_ ← ask Now;
        let cmd := addressed cmd id at_ lease sid in
        if negb (ClusterEnabled n) || bool_decide (owner lease = self) then
          r ← handleClusterCommand cmd; mret (Ok (Some r))
        else ask (SendCommand cmd)
    end.

(** What a caller learns: success, or the error of the dispatch. *)
Definition report (r : result string (option ClusterCommandResult)) : result string bool :=
  match r with Ok r => Ok (clusterCommandSucceeded r) | Err e => Err e end.

Definition PublishToSession (sid : string) (msg : option Msg) : M (result string bool) :=
  match msg with
  | None => mret (Ok false)
  | Some msg =>
      match proto_Marshal msg with
      | Err e => mret (Err e)
      | Ok payload =>
          r ← dispatchSessionCommand sid (new_command ClusterCommandPublish sid "" payload ∅);
          mret (report r)
      end
  end.

Definition DisconnectSession (sid : string) (d : Handlers.Disconnect) : M (result string bool) :=
  let md : gmap string string :=
    <[ clusterCommandMetaDisconnectCode := FormatUint (Z.to_N (Handlers.d_Code d)) ]>
      (<[ clusterCommandMetaDisconnectReason := Handlers.d_Reason d ]> ∅) in
  r ← dispatchSessionCommand sid (new_command ClusterCommandDisconnect sid "" "" md);
  mret (report r).

(** The dispatch of SubscribeSession and UnsubscribeSession. *)
Definition subscribe_command (subscribe : bool) (sid ch : string) : M (result string bool) :=
  r ← dispatchSessionCommand sid
        (new_command (if subscribe then ClusterCommandSubscribe else ClusterCommandUnsubscribe) sid ch "" ∅);
  mret (report r).

(** ** Resolving sessions for the Server API *)

Definition APISessionNamespace (sid : string) : M (option string) :=
  let resolved ns := if bool_decide (ns = "") then None else Some ns in
  if bool_decide (sid = "") then mret None
  else
    client ← ask (LookupSession sid);
    match client with
    | Some i => mret (resolved (Lease.id_Namespace i))
    | None =>
        if ClusterEnabled n then
          lease ← ask (GetSessionLease sid);
          mret match lease with
               | Ok (Some l) => resolved (l_Namespace l)
               | _ => None
               end
        else mret None
    end.

(** One id of the directory's user index. *)
Definition expand_one (ns user : string) (seen : gset string) (sid : string) : M (gset string) :=
  lease ← ask (GetSessionLease sid);
  mret match lease with
       | Ok (Some l) =>
           if bool_decide (l_UserID l = user) && bool_decide (l_Namespace l = ns) then {[ sid ]} ∪ seen else seen
       | _ => seen
       end.

Definition ExpandUserSessions (ns user : string) : M (list string) :=
  if bool_decide (user = "") then mret []
  else
    local ← ask (SessionsByUser ns user);
    let seen : gset string := list_to_set (Lease.id_SessionID <$>
      List.filter (λ i, bool_decide (Lease.id_UserID i = user) && bool_decide (Lease.id_Namespace i = ns)) local) in
    seen ← ((if ClusterEnabled n then
               ids ← ask (ListUserSessions ns user);
               for_each (expand_one ns user) seen (fst ids)
             else mret seen) : M (gset string));
    mret (merge_sort Handlers.str_le (elements seen)).

(** ** Surveys across nodes *)

Definition annotate (node incarnation : string) (r : SurveyResult) : SurveyResult :=
  mkSurveyResult (sv_SessionID r) node incarnation (sv_Payload r) (sv_Error r).

Definition from_record (r : ClusterCommandResult) (rec : clusterSurveyResultRecord) : SurveyResult :=
  mkSurveyResult (rc_SessionID rec) (r_NodeID r) (r_IncarnationID r) (rc_Payload rec)
    (if bool_decide (rc_ErrorMessage rec = "") then None else Some (rc_ErrorMessage rec)).

Definition node_failure (r : ClusterCommandResult) (msg : string) : SurveyResult :=
  mkSurveyResult "" (r_NodeID r) (r_IncarnationID r) "" (Some msg).

Definition decodeClusterSurveyResults (encoded : string) : M (result string (list clusterSurveyResultRecord)) :=
  if bool_decide (encoded = "") then mret (Ok []) else ask (JsonUnmarshal encoded).

Definition expandClusterSurveyResults (r : option ClusterCommandResult) : M (list SurveyResult) :=
  match r with
  | None => mret []
  | Some r =>
      if negb (bool_decide (r_Status r = ClusterCommandStatusSucceeded)) then
        mret [node_failure r (r_ErrorCode r +:+ ": " +:+ r_ErrorMessage r)]
      else
        records ← decodeClusterSurveyResults (default "" (r_Metadata r !! clusterCommandMetaSurveyResults));
        mret match records with
             | Err e => [node_failure r ("decode cluster survey results: " +:+ e)]
             | Ok records => from_record r <$> records
             end
  end.

Definition Survey (ch payload : string) (timeout : Z) : M (result string (list SurveyResult)) :=
  if negb (ClusterEnabled n) then ask (LocalSurvey ch payload timeout)
  else
    local ← ask (LocalSurvey ch payload timeout);
    match local with
    | Err e => mret (Err e)
    | Ok local =>
        let local := annotate (ClusterNodeID n) (ClusterIncarnationID n) <$> local in
        let md : gmap string string :=
          if (0 <? timeout)%Z then {[ clusterCommandMetaSurveyTimeoutMS := FormatInt (Z.quot timeout 1000000) ]} else ∅ in
        results ← ask (BroadcastCommand (new_command ClusterCommandSurvey "" ch payload
                         (<[ ClusterCommandMetaExcludeSelf := "true" ]> md)));
        match results with
        | Err e => mret (Err e)
        | Ok results =>
            all ← for_each (λ acc r, es ← expandClusterSurveyResults r; mret (acc ++ es)) local results;
            mret (Ok (sortSurveyResults all))
        end
    end.

(** The count one node reported, 0 when it cannot be used. *)
Definition reported_count (r : option ClusterCommandResult) : Z :=
  match r with
  | Some r =>
      if bool_decide (r_Status r = ClusterCommandStatusSucceeded) then
        match ParseInt (default "" (r_Metadata r !! clusterCommandMetaSurveyCount)) with
        | (c, None) => if (0 <? c)%Z then c else 0%Z
        | _ => 0%Z
        end
      else 0%Z
  | None => 0%Z
  end.

Definition countMatchingSubscribers (ch : string) : M (result string Z) :=
  subs ← ask (MatchingSubscribers ch);
  let local := Z.of_nat (length (subs : list string)) in
  if negb (ClusterEnabled n) then mret (Ok local)
  else
    results ← ask (BroadcastCommand (new_command ClusterCommandSurvey "" ch ""
                     (<[ clusterCommandMetaSurveyCountOnly := "true" ]>
                        (<[ ClusterCommandMetaExcludeSelf := "true" ]> ∅))));
    mret match results with
         | Err e => Err e
         | Ok results => Ok (foldl (λ total r, i64 (total + reported_count r)) local results)
         end.

End Commands.
End Commands.
