(* ===== verification/CommandRouting.v ===== *)
(** * CommandRouting: commands reach the owner of a session, unchanged
      (internal/runtime/cluster_commands.go, cluster_user_index.go)

    The theorems about [Commands]: the node a command runs on, the round trips
    of the values a command carries as text, presence announcements, and the
    expansion of a user into sessions. *)

From stdpp Require Import pretty sorting.
From S2P Require Import Prelude Topics Stream Directory Epoch Lease Hmac Effect Handlers Strconv Commands.
Import Directory Hmac Effect Strconv Commands.

Module CommandRouting.

(** ** Decimal round trips *)

Lemma omap_rev {A B} (f : A → option B) (l : list A) : omap f (rev l) = rev (omap f l).
Proof.
  induction l as [|x l IH]; [done|]. simpl. rewrite omap_app, IH. simpl.
  destruct (f x); [done|by rewrite app_nil_r].
Qed.

Section Routing.
Context {Msg : Type} (proto_Unmarshal : string → result string Msg).
Context (n : NodeCfg).

Abbreviation history := (list (event (@answer Msg))).

(** ** Routing *)

(** The session a call acts on. *)
Definition touches (e : @effect Msg) : option string :=
  match e with
  | ClientSend s _ | ClientClose s _ | ClientFence s _ | LookupSubscriber _ s | AddSubscription _ s
  | RemoveSubscription _ s | PresenceJoin _ s | PresenceLeave _ s _ _ => Some s
  | _ => None
  end.

Definition sent (e : @effect Msg) : option ClusterCommand :=
  match e with SendCommand c => Some c | _ => None end.

Definition touched (h : history) : list string := omap (λ ev, touches (ev_call ev)) h.
Definition sends (h : history) : list ClusterCommand := omap (λ ev, sent (ev_call ev)) h.

(** The owner this dispatch resolved, from the hub or from the directory. *)
Definition resolved (sid : string) (h : history) (l : ClusterSessionLease) : Prop :=
  (∃ i now, Event (LookupSession sid) (Some i) ∈ h ∧
     l = Lease.clusterSessionLease (if ClusterEnabled n then self n else ("", "")) (sessionLeaseTTL n) now i) ∨
  (Event (LookupSession sid) None ∈ h ∧ Event (GetSessionLease sid) (Ok (Some l)) ∈ h).

Definition same_order (cmd c : ClusterCommand) : Prop :=
  c_Type c = c_Type cmd ∧ c_Channel c = c_Channel cmd ∧ c_LeaseVersion c = c_LeaseVersion cmd ∧
  c_Payload c = c_Payload cmd ∧ c_Metadata c = c_Metadata cmd.

Definition routed (sid : string) (cmd : ClusterCommand) (h : history) (e : @effect Msg) : Prop :=
  match e with
  | SendCommand c =>
      ClusterEnabled n = true ∧ same_order cmd c ∧ c_SessionID c = sid ∧
      ∃ l, resolved sid h l ∧ owner l ≠ self n ∧ (c_TargetNodeID c, c_TargetIncarnationID c) = owner l
  | _ => ∀ s, touches e = Some s →
      (∃ i, Event (LookupSession sid) (Some i) ∈ h ∧ s = Lease.id_SessionID i) ∧
      (ClusterEnabled n = false ∨ ∃ l, resolved sid h l ∧ owner l = self n)
  end.

Lemma handleClusterCommand_wp sid cmd c h :
  c_SessionID c = sid → (ClusterEnabled n = false ∨ ∃ l, resolved sid h l ∧ owner l = self n) → sends h = [] →
  wp (routed sid cmd) h (handleClusterCommand proto_Unmarshal n c) (λ h' _, sends h' = []).
Proof.
  intros <- Hr Hs.
  assert (∀ d, ClusterEnabled n = false ∨ ∃ l, resolved (c_SessionID c) (d ++ h) l ∧ owner l = self n) as Hown.
  { intros d. destruct Hr as [?|(l & Hl & Ho)]; [by left|right; exists l; split; [|done]].
    revert Hl. unfold resolved. setoid_rewrite elem_of_app. naive_solver. }
  unfold handleClusterCommand, handleClusterPublishCommand, handleClusterDisconnectCommand,
    handleClusterSubscribeCommand, handleClusterUnsubscribeCommand, handleClusterSurveyCommand,
    handleClusterTakeoverCommand, encodeClusterSurveyResults, ask.
  repeat prog_step; try done.
  all: intros s Heq; injection Heq as <-; split; [eexists; split; [|done]; set_solver|].
  all: first [exact (Hown [_]) | exact (Hown [_; _]) | exact (Hown [_; _; _])].
Qed.

Definition lone (h : history) : Prop := sends h = [] ∨ touched h = [] ∧ length (sends h) = 1.

Lemma resolveSessionLease_wp sid cmd :
  wp (routed sid cmd) [] (resolveSessionLease n sid)
    (λ h r, sends h = [] ∧ touched h = [] ∧ ∀ l, r = Ok (Some l) → resolved sid h l).
Proof.
  unfold resolveSessionLease, ask, resolved. repeat prog_step; try done.
  - split_and!; [done..|]. intros l Hl. injection Hl as <-. left. exists i, x0. split; [set_solver|done].
  - split_and!; [done..|]. intros l ->. right. set_solver.
Qed.

Lemma dispatchSessionCommand_wp sid cmd :
  wp (routed sid cmd) [] (dispatchSessionCommand proto_Unmarshal n sid cmd) (λ h _, lone h).
Proof.
  unfold dispatchSessionCommand. prog_step; [by left|]. prog_step.
  eapply wp_mono; [apply resolveSessionLease_wp|]. intros d r. rewrite app_nil_r. intros (Hs & Ht & Hl).
  destruct r as [[l|]|e]; [|by prog_step; left..]. specialize (Hl l eq_refl). prog_step.
  apply wp_mono with (Q := λ h _, sends h = [] ∧ touched h = [] ∧ resolved sid h l).
  - unfold ask. repeat prog_step; try done; split_and!; try done.
    revert Hl. unfold resolved. setoid_rewrite elem_of_cons. naive_solver.
  - intros d' id. intros (Hs' & Ht' & Hl'). unfold ask. prog_step; [done|].
    assert (resolved sid (Event Now x :: d' ++ d) l) as Hl''.
    { revert Hl'. unfold resolved. setoid_rewrite elem_of_cons. naive_solver. }
    prog_step.
    + prog_step. eapply wp_mono; [apply handleClusterCommand_wp; [done| |done]|intros; prog_step; by left].
      destruct (ClusterEnabled n); [right|by left]. exists l. split; [done|]. by apply bool_decide_eq_true in Heqb0.
    + apply orb_false_iff in Heqb0 as [He%negb_false_iff Ho%bool_decide_eq_false].
      prog_step; [split_and!; [done..|by exists l]|].
      right. split; [exact Ht'|]. change (S (length (sends (d' ++ d))) = 1). by rewrite Hs'.
Qed.

(** C15: Commands run on the owner of the session.  Whatever the hub, the
    directory and the bus answer: a dispatch acts on a session of this node
    only when the hub has it and the cluster is off or the resolved lease names
    this incarnation; it sends a command only to the exact incarnation that the
    session's lease names, when that is another one, with the session, type,
    channel, payload and metadata it was given; and it does one or the other,
    sending at most once. *)
Theorem command_routing sid cmd tr r :
  run (dispatchSessionCommand proto_Unmarshal n sid cmd) tr r →
  (∀ pre e x post, tr = pre ++ Event e x :: post → routed sid cmd (rev pre) e) ∧
  (sends tr = [] ∨ touched tr = [] ∧ length (sends tr) = 1).
Proof.
  intros Hr. split.
  - intros pre e x post ->. exact (wp_run_guard _ _ _ _ _ pre e x post (dispatchSessionCommand_wp sid cmd) Hr eq_refl).
  - pose proof (wp_run_post _ _ _ _ _ (dispatchSessionCommand_wp sid cmd) Hr) as Hl. revert Hl.
    unfold lone, sends, touched. rewrite !omap_rev, length_rev.
    intros [Hl|[Hl Hn]]; [left|right; split; [|done]]; by apply (f_equal (@rev _)) in Hl; rewrite rev_involutive in Hl.
Qed.

End Routing.

Section Exact.
Context {Msg : Type} (proto_Marshal : Msg → result string string) (proto_Unmarshal : string → result string Msg).
Context (n : NodeCfg).

Abbreviation history := (list (event (@answer Msg))).

(** ** Session operations *)

Inductive session_op :=
| OpPublish (msg : Msg)
| OpDisconnect (d : Handlers.Disconnect)
| OpSubscribe (ch : string)
| OpUnsubscribe (ch : string).

Definition perform (op : session_op) (sid : string) : prog answer (result string bool) :=
  match op with
  | OpPublish msg => PublishToSession proto_Marshal proto_Unmarshal n sid (Some msg)
  | OpDisconnect d => DisconnectSession proto_Unmarshal n sid d
  | OpSubscribe ch => subscribe_command proto_Unmarshal n true sid ch
  | OpUnsubscribe ch => subscribe_command proto_Unmarshal n false sid ch
  end.

(** The values survive their text form. *)
Definition encodable (op : session_op) : Prop :=
  match op with
  | OpPublish msg => ∀ payload, proto_Marshal msg = Ok payload → proto_Unmarshal payload = Ok msg
  | OpDisconnect d => (0 ≤ Handlers.d_Code d < 2 ^ 32)%Z
  | _ => True
  end.

(** The command carries the operation. *)
Definition carries (op : session_op) (c : ClusterCommand) : Prop :=
  match op with
  | OpPublish msg => c_Type c = ClusterCommandPublish ∧ proto_Unmarshal (c_Payload c) = Ok msg
  | OpDisconnect d => c_Type c = ClusterCommandDisconnect ∧ command_disconnect c = d
  | OpSubscribe ch => c_Type c = ClusterCommandSubscribe ∧ c_Channel c = ch
  | OpUnsubscribe ch => c_Type c = ClusterCommandUnsubscribe ∧ c_Channel c = ch
  end.

(** What the operation may do, given what happened before. *)
Definition exactly (op : session_op) (h : history) (e : @effect Msg) : Prop :=
  match e with
  | ClientSend _ m => op = OpPublish m
  | ClientClose _ d => op = OpDisconnect d
  | AddSubscription ch _ => op = OpSubscribe ch
  | RemoveSubscription ch _ => op = OpUnsubscribe ch
  | PresenceJoin ch s => op = OpSubscribe ch ∧ Event (LookupSubscriber ch s) None ∈ h ∧
                         Event (AddSubscription ch s) None ∈ h
  | PresenceLeave ch s _ eph => op = OpUnsubscribe ch ∧ Event (LookupSubscriber ch s) (Some eph) ∈ h ∧
                                Event (RemoveSubscription ch s) None ∈ h
  | SendCommand c => carries op c
  | ClientFence _ _ | BroadcastCommand _ | LocalSurvey _ _ _ => False
  | _ => True
  end.

(** The outcome of an act on a session: here, or as the owner reported it. *)
Definition act_result (ev : event (@answer Msg)) : option bool :=
  match ev_call ev as e return answer e → option bool with
  | ClientSend _ _ | ClientClose _ _ | AddSubscription _ _ | RemoveSubscription _ _ =>
      λ x, Some (match x with None => true | Some _ => false end)
  | SendCommand _ => λ x, Some (match x with Ok r => clusterCommandSucceeded r | Err _ => false end)
  | _ => λ _, None
  end (ev_answer ev).

Definition acts (h : history) : list bool := omap act_result h.

Definition settled (h : history) (r : result string bool) : Prop :=
  length (acts h) ≤ 1 ∧ (r = Ok true ↔ acts h = [true]).

Lemma acts_cons ev h : acts (ev :: h) = match act_result ev with Some b => b :: acts h | None => acts h end.
Proof. done. Qed.

(** What is seen of a session's subscription: what the hub held before, that it
    was added or removed, and what was announced. *)
Inductive sight :=
| Stored (ch sid : string) (ephemeral : option bool)
| Added (ch sid : string)
| Removed (ch sid : string)
| Joined (ch sid : string)
| Left (ch sid : string) (ephemeral : bool).

Definition sight_of (ev : event (@answer Msg)) : option sight :=
  match ev_call ev as e return answer e → option sight with
  | LookupSubscriber ch sid => λ x, Some (Stored ch sid x)
  | AddSubscription ch sid => λ x, match x with None => Some (Added ch sid) | Some _ => None end
  | RemoveSubscription ch sid => λ x, match x with None => Some (Removed ch sid) | Some _ => None end
  | PresenceJoin ch sid => λ _, Some (Joined ch sid)
  | PresenceLeave ch sid _ eph => λ _, Some (Left ch sid eph)
  | _ => λ _, None
  end (ev_answer ev).

Definition sights (h : history) : list sight := omap sight_of h.

Definition is_announcement (x : sight) : Prop := match x with Joined _ _ | Left _ _ _ => True | _ => False end.
#[local] Instance is_announcement_dec x : Decision (is_announcement x).
Proof. destruct x; apply _. Defined.

(** Announced exactly on a change, and once. *)
Definition announced (h : history) : Prop :=
  (∀ ch sid, Joined ch sid ∈ sights h ↔ Stored ch sid None ∈ sights h ∧ Added ch sid ∈ sights h) ∧
  (∀ ch sid eph, Left ch sid eph ∈ sights h ↔ Stored ch sid (Some eph) ∈ sights h ∧ Removed ch sid ∈ sights h) ∧
  length (filter is_announcement (sights h)) ≤ 1.

Lemma sights_cons ev h : sights (ev :: h) = match sight_of ev with Some x => x :: sights h | None => sights h end.
Proof. done. Qed.

Definition untouched (h : history) : Prop := acts h = [] ∧ sights h = [].

Ltac settle :=
  cbn [answer] in *; unfold settled, announced, untouched in *; rewrite ?acts_cons, ?sights_cons;
  cbn -[acts sights report filter];
  repeat match goal with H : acts _ = [] |- _ => rewrite H end;
  repeat match goal with H : sights _ = [] |- _ => rewrite H end;
  repeat match goal with x : option string |- _ => destruct x end;
  (split; [split; [simpl; lia|split; try done]|split_and!; [set_solver..|simpl; lia]]).

(** The dispatch on the command's type. *)
Lemma handle_type c :
  (c_Type c = ClusterCommandPublish →
     handleClusterCommand proto_Unmarshal n c = handleClusterPublishCommand proto_Unmarshal c (new_result n c)) ∧
  (c_Type c = ClusterCommandDisconnect →
     handleClusterCommand proto_Unmarshal n c = handleClusterDisconnectCommand c (new_result n c)) ∧
  (c_Type c = ClusterCommandSubscribe →
     handleClusterCommand proto_Unmarshal n c = handleClusterSubscribeCommand c (new_result n c)) ∧
  (c_Type c = ClusterCommandUnsubscribe →
     handleClusterCommand proto_Unmarshal n c = handleClusterUnsubscribeCommand c (new_result n c)) ∧
  (c_Type c = ClusterCommandTakeover →
     handleClusterCommand proto_Unmarshal n c = handleClusterTakeoverCommand c (new_result n c)).
Proof. unfold handleClusterCommand. split_and!; intros ->; reflexivity. Qed.

(** A local handler starts from a fresh result. *)
Lemma handler_exact op c h :
  carries op c → untouched h →
  wp (exactly op) h (handleClusterCommand proto_Unmarshal n c)
    (λ h' r, settled h' (report (Ok (Some r))) ∧ announced h').
Proof.
  intros Hc [Ha Hv]. destruct (handle_type c) as (H1 & H2 & H3 & H4 & _).
  destruct op; destruct Hc as [Ht Hp]; [rewrite H1 by done|rewrite H2 by done|rewrite H3 by done|rewrite H4 by done].
  - unfold handleClusterPublishCommand, ask. rewrite Hp. repeat prog_step; try done; settle.
  - unfold handleClusterDisconnectCommand, ask. rewrite Hp. repeat prog_step; try done; settle.
  - unfold handleClusterSubscribeCommand, ask. rewrite Hp.
    repeat prog_step; try done; try settle. split_and!; set_solver.
  - unfold handleClusterUnsubscribeCommand, ask. rewrite Hp.
    repeat prog_step; try done; try settle. split_and!; set_solver.
Qed.

Lemma dispatch_exact op sid cmd :
  (∀ id at_ l, carries op (addressed cmd id at_ l sid)) →
  wp (exactly op) [] (dispatchSessionCommand proto_Unmarshal n sid cmd)
    (λ h r, settled h (report r) ∧ announced h).
Proof.
  intros Hc. unfold dispatchSessionCommand. prog_step; [prog_step; settle|]. prog_step.
  apply wp_mono with (Q := λ h _, untouched h).
  - unfold resolveSessionLease, ask. repeat prog_step; done.
  - intros d [[l|]|e]; rewrite app_nil_r; intros [Ha Hv]; [|prog_step; settle..]. prog_step.
    apply wp_mono with (Q := λ h _, untouched h); [unfold ask; repeat prog_step; done|].
    intros d' id [Ha' Hv']. unfold ask. prog_step; [done|]. prog_step.
    + prog_step. eapply wp_mono; [apply handler_exact; [apply Hc|split; [exact Ha'|exact Hv']]|]. intros. by prog_step.
    + prog_step; [apply Hc|]. unfold settled, announced. rewrite !acts_cons, !sights_cons.
      cbn -[acts sights clusterCommandSucceeded filter]. rewrite Ha', Hv'.
      split; [|split_and!; [set_solver..|simpl; lia]].
      split; [simpl; lia|]. destruct x0 as [r|]; simpl; [|done]. destruct (clusterCommandSucceeded r); naive_solver.
Qed.

Lemma perform_exact op sid :
  encodable op → wp (exactly op) [] (perform op sid) (λ h r, settled h r ∧ announced h).
Proof.
  intros He. destruct op as [msg|d|ch|ch]; simpl perform.
  - unfold PublishToSession. destruct (proto_Marshal msg) as [payload|e] eqn:Hm; [|by prog_step; settle].
    prog_step. eapply wp_mono; [apply dispatch_exact|intros; by prog_step]. intros. by split; [|apply He].
  - unfold DisconnectSession. prog_step. eapply wp_mono; [apply dispatch_exact|intros; by prog_step].
    intros. split; [done|]. unfold command_disconnect, meta. cbn [c_Metadata addressed new_command].
    rewrite lookup_insert_eq, lookup_insert_ne, lookup_insert_eq by done. cbn [from_option]; unfold Datatypes.id.
    rewrite ParseUint_Format by (simpl in He; lia). cbn [fst]. rewrite Z2N.id by (simpl in He; lia). by destruct d.
  - unfold subscribe_command. prog_step. eapply wp_mono; [by apply dispatch_exact|intros; by prog_step].
  - unfold subscribe_command. prog_step. eapply wp_mono; [by apply dispatch_exact|intros; by prog_step].
Qed.

Lemma announced_rev h : announced (rev h) → announced h.
Proof.
  unfold announced, sights. rewrite omap_rev. intros (Hj & Hl & Hn).
  assert (∀ x : sight, x ∈ rev (omap sight_of h) ↔ x ∈ omap sight_of h) as Hrev
    by (intros x; by rewrite <-Permutation_rev).
  split_and!; [by setoid_rewrite Hrev in Hj|by setoid_rewrite Hrev in Hl|by rewrite <-Permutation_rev in Hn].
Qed.

(** C16: Session operations are exact.  For a publish, disconnect, subscribe or
    unsubscribe of a session, local or remote: the session is only ever asked
    for exactly that operation (the message, the code and reason, the channel
    survive their text form in the command, here and in the command sent to the
    owner); a join is announced exactly when a subscription that was not there was
    added, a leave exactly when one that was there was removed, with its ephemeral
    flag, after the change and at most once; at most one act happens, and the
    caller is told true exactly when it succeeded here or the owner reported
    success (which includes removing a subscription that was not there, see
    [unsubscribing_nothing_succeeds]). *)
Theorem session_op_exact op sid tr r :
  encodable op → run (perform op sid) tr r →
  (∀ pre e x post, tr = pre ++ Event e x :: post → exactly op (rev pre) e) ∧
  announced tr ∧
  length (acts tr) ≤ 1 ∧ (r = Ok true ↔ acts tr = [true]).
Proof.
  intros He Hr. split.
  - intros pre e x post ->. exact (wp_run_guard _ _ _ _ _ pre e x post (perform_exact op sid He) Hr eq_refl).
  - pose proof (wp_run_post _ _ _ _ _ (perform_exact op sid He) Hr) as [[Hl Ht] Hp].
    split; [by apply announced_rev|]. unfold acts in *.
    rewrite omap_rev, length_rev in Hl. rewrite omap_rev in Ht. split; [done|]. rewrite Ht.
    split; intros Heq; [apply (f_equal (@rev _)) in Heq; by rewrite rev_involutive in Heq|by rewrite Heq].
Qed.

(** What the hub answered. *)
Definition lookup_answer (ev : event (@answer Msg)) : option (option Lease.Identity) :=
  match ev_call ev as e return answer e → option (option Lease.Identity) with
  | LookupSession _ => Some
  | _ => λ _, None
  end (ev_answer ev).

(** The version a takeover must name: a session without one counts as 1. *)
Definition held_version (i : Lease.Identity) : Z :=
  if (Lease.id_LeaseVersion i =? 0)%Z then 1%Z else Lease.id_LeaseVersion i.

Definition fences (cmd : ClusterCommand) (h : history) (e : @effect Msg) : Prop :=
  match e with
  | LookupSession sid => sid = c_SessionID cmd
  | ClientFence s d => d = Handlers.DisconnectStale ∧ ∃ i, s = Lease.id_SessionID i ∧
      Event (LookupSession (c_SessionID cmd)) (Some i) ∈ h ∧
      ((c_LeaseVersion cmd ≤ 0)%Z ∨ c_LeaseVersion cmd = held_version i)
  | _ => False
  end.

Lemma takeover_wp cmd r0 :
  r_Status r0 = ClusterCommandStatusSucceeded →
  wp (fences cmd) [] (handleClusterTakeoverCommand cmd r0)
    (λ h r, omap lookup_answer h = [None] → r_Status r = ClusterCommandStatusSucceeded).
Proof.
  intros Hs. unfold handleClusterTakeoverCommand, ask. repeat prog_step; try done.
  split; [done|]. exists i. split; [done|]. split; [left|].
  apply andb_false_iff in Heqb as [Hb|Hb]; [left; by apply Z.ltb_ge in Hb|right].
  apply negb_false_iff, Z.eqb_eq in Hb. by rewrite <-Hb.
Qed.

(** A takeover only fences the lease it names.  The session is fenced, with
    the stale reason, only when the command names no lease version or the
    version the session holds; the command does nothing else to any session;
    and when the session is not here it succeeds. *)
Theorem takeover_fences_version cmd tr r :
  c_Type cmd = ClusterCommandTakeover → run (handleClusterCommand proto_Unmarshal n cmd) tr r →
  (∀ pre e x post, tr = pre ++ Event e x :: post → fences cmd (rev pre) e) ∧
  (omap lookup_answer tr = [None] → r_Status r = ClusterCommandStatusSucceeded).
Proof.
  intros Ht. destruct (handle_type cmd) as (_ & _ & _ & _ & H5). rewrite H5 by done. intros Hr.
  pose proof (takeover_wp cmd (new_result n cmd) eq_refl) as Hw. split.
  - intros pre e x post ->. exact (wp_run_guard _ _ _ _ _ pre e x post Hw Hr eq_refl).
  - intros Hl. apply (wp_run_post _ _ _ _ _ Hw Hr). by rewrite omap_rev, Hl.
Qed.

End Exact.

Section Users.
Context {Msg : Type} (n : NodeCfg).

Abbreviation history := (list (event (@answer Msg))).

(** ** Users *)

(** What the hub and the directory answered about a user's sessions. *)
Definition hub_answer (ev : event (@answer Msg)) : option (string * string * list Lease.Identity) :=
  match ev_call ev as e return answer e → option (string * string * list Lease.Identity) with
  | SessionsByUser ns user => λ l, Some (ns, user, l)
  | _ => λ _, None
  end (ev_answer ev).

Definition lease_answer (ev : event (@answer Msg)) : option (string * ClusterSessionLease) :=
  match ev_call ev as e return answer e → option (string * ClusterSessionLease) with
  | GetSessionLease sid => λ r, match r with Ok (Some l) => Some (sid, l) | _ => None end
  | _ => λ _, None
  end (ev_answer ev).

(** A session of the user, by its own identity or by its lease. *)
Definition reported (ns user sid : string) (h : history) : Prop :=
  (∃ l i, (ns, user, l) ∈ omap hub_answer h ∧ i ∈ l ∧ Lease.id_SessionID i = sid ∧
     Lease.id_UserID i = user ∧ Lease.id_Namespace i = ns) ∨
  (∃ l, (sid, l) ∈ omap lease_answer h ∧ l_UserID l = user ∧ l_Namespace l = ns).

(** The calls an expansion makes. *)
Definition expands (ns user : string) (h : history) (e : @effect Msg) : Prop :=
  match e with
  | SessionsByUser ns' user' => ns' = ns ∧ user' = user ∧ user ≠ ""
  | ListUserSessions ns' user' => ns' = ns ∧ user' = user ∧ user ≠ "" ∧ ClusterEnabled n = true
  | GetSessionLease sid => ∃ ids, Event (ListUserSessions ns user) ids ∈ h ∧ sid ∈ ids.1
  | _ => False
  end.

Lemma reported_lease ns user s sid (x : result string (option ClusterSessionLease)) h :
  reported ns user s (Event (GetSessionLease sid) x :: h) ↔
  reported ns user s h ∨ ∃ l, x = Ok (Some l) ∧ s = sid ∧ l_UserID l = user ∧ l_Namespace l = ns.
Proof.
  unfold reported. destruct x as [[l|]|]; simpl; [|naive_solver..]. setoid_rewrite elem_of_cons. naive_solver.
Qed.

Lemma expand_one_wp ns user ids h (seen : gset string) sid :
  Event (ListUserSessions ns user) ids ∈ h → sid ∈ ids.1 → (∀ s, s ∈ seen ↔ reported ns user s h) →
  wp (expands ns user) h (expand_one ns user seen sid) (λ h' seen', ∀ s, s ∈ seen' ↔ reported ns user s h').
Proof.
  intros Hl Hin Hs. unfold expand_one, ask. prog_step; [by exists ids|]. prog_step. intros s.
  rewrite reported_lease, <-Hs. destruct x as [[l|]|]; [|naive_solver..]. case_match eqn:Hb.
  - apply andb_true_iff in Hb as [Hu%bool_decide_eq_true Hn%bool_decide_eq_true]. set_solver.
  - apply andb_false_iff in Hb. split; [naive_solver|]. intros [?|(l' & Heq & -> & Hu & Hn)]; [done|].
    injection Heq as <-. destruct Hb as [Hb%bool_decide_eq_false|Hb%bool_decide_eq_false]; done.
Qed.

Lemma expand_wp ns user :
  wp (expands ns user) [] (ExpandUserSessions n ns user)
    (λ h res, Sorted Handlers.str_le res ∧ NoDup res ∧ ∀ sid, sid ∈ res ↔ reported ns user sid h).
Proof.
  unfold ExpandUserSessions. prog_step.
  { prog_step. split_and!; [constructor|constructor|]. unfold reported. set_solver. }
  apply bool_decide_eq_false in Heqb. unfold ask. prog_step; [done|]. prog_step.
  apply wp_mono with (Q := λ h (seen : gset string), ∀ sid, sid ∈ seen ↔ reported ns user sid h).
  - assert (∀ sid, sid ∈ (list_to_set (Lease.id_SessionID <$> List.filter (λ i,
        bool_decide (Lease.id_UserID i = user) && bool_decide (Lease.id_Namespace i = ns)) x) : gset string) ↔
      reported ns user sid [Event (SessionsByUser ns user) x]) as Hloc.
    { intros sid. unfold reported. simpl. rewrite elem_of_list_to_set, list_elem_of_fmap.
      setoid_rewrite list_elem_of_In. setoid_rewrite filter_In. setoid_rewrite andb_true_iff.
      setoid_rewrite bool_decide_eq_true. naive_solver. }
    prog_step; [|by prog_step]. prog_step; [done|].
    apply wp_mono with (Q := λ h (seen : gset string), Event (ListUserSessions ns user) x0 ∈ h ∧
      ∀ sid, sid ∈ seen ↔ reported ns user sid h); [|by intros ?? []].
    apply (wp_for_each _ _ (λ h (seen : gset string), Event (ListUserSessions ns user) x0 ∈ h ∧
      ∀ sid, sid ∈ seen ↔ reported ns user sid h)); [|split; [left|]].
    + intros h seen sid Hin [Hl Hs]. eapply wp_mono; [by apply (expand_one_wp ns user x0)|].
      intros d seen' Hs'. split; [set_solver|done].
    + intros sid. rewrite Hloc. unfold reported. simpl. naive_solver.
  - intros d seen Hs. prog_step. split_and!.
    + apply Sorted_merge_sort. apply _.
    + rewrite merge_sort_Permutation. apply NoDup_elements.
    + intros sid. by rewrite merge_sort_Permutation, elem_of_elements.
Qed.

(** Expanding a user is exact.  For a namespace and a user the expansion
    asks the hub, and the directory only when the cluster is on and only about
    sessions its index lists; it returns, sorted and without repetition,
    exactly the sessions that the hub reported with that user and namespace or
    whose lease names that user and namespace.  The empty user expands to
    nothing without a call. *)
Theorem expand_user_exact ns user tr res :
  run (ExpandUserSessions n ns user) tr res →
  (∀ pre e x post, tr = pre ++ Event e x :: post → expands ns user (rev pre) e) ∧
  Sorted Handlers.str_le res ∧ NoDup res ∧ ∀ sid, sid ∈ res ↔ reported ns user sid tr.
Proof.
  intros Hr. split.
  - intros pre e x post ->. exact (wp_run_guard _ _ _ _ _ pre e x post (expand_wp ns user) Hr eq_refl).
  - pose proof (wp_run_post _ _ _ _ _ (expand_wp ns user) Hr) as (Hs & Hn & Hi). split_and!; [done..|].
    intros sid. rewrite Hi. unfold reported. rewrite !omap_rev. setoid_rewrite list_elem_of_In. by setoid_rewrite <-in_rev.
Qed.

(** ** Surveys *)

Definition anything (_ : history) (_ : @effect Msg) : Prop := True.

(** The count a node reports is the count its peer adds. *)
Lemma count_reply cmd r0 tr r :
  meta cmd clusterCommandMetaSurveyCountOnly = "true" → r_Status r0 = ClusterCommandStatusSucceeded →
  run (handleClusterSurveyCommand (Msg := Msg) cmd r0) tr r →
  ∃ subs, tr = [Event (MatchingSubscribers (c_Channel cmd)) subs] ∧
    ((Z.of_nat (length subs) < 2 ^ 63)%Z → reported_count (Some r) = Z.of_nat (length subs)).
Proof.
  intros Hm Hs Hr.
  assert (wp anything [] (handleClusterSurveyCommand (Msg := Msg) cmd r0) (λ h r,
    ∃ subs, h = [Event (MatchingSubscribers (c_Channel cmd)) subs] ∧
      ((Z.of_nat (length subs) < 2 ^ 63)%Z → reported_count (Some r) = Z.of_nat (length subs)))) as Hw.
  { unfold handleClusterSurveyCommand, ask. rewrite Hm, bool_decide_eq_true_2 by done. repeat prog_step; [done|].
    exists x. split; [done|]. intros Hlt. unfold reported_count. cbn [with_metadata r_Status r_Metadata].
    rewrite Hs, bool_decide_eq_true_2, lookup_insert_eq by done. cbn [from_option]. unfold Datatypes.id.
    rewrite ParseInt_Format by lia. destruct (0 <? _)%Z eqn:Hz; [done|]. apply Z.ltb_ge in Hz. lia. }
  destruct (wp_run_post _ _ _ _ _ Hw Hr) as (subs & Hh & Hc). exists subs. split; [|done].
  apply (f_equal (@rev _)) in Hh. by rewrite rev_involutive in Hh.
Qed.

(** A timeout of at least a millisecond reaches the other nodes rounded down to
    milliseconds. *)
Lemma survey_timeout_reply t :
  (1000000 ≤ t < 2 ^ 63)%Z → survey_timeout (FormatInt (Z.quot t 1000000)) = (t - t mod 1000000)%Z.
Proof.
  intros Ht. unfold survey_timeout. rewrite Z.quot_div_nonneg by lia.
  assert (0 < t / 1000000 < 2 ^ 63)%Z as Hq.
  { split; [apply Z.div_str_pos; lia|]. apply Z.div_lt_upper_bound; lia. }
  assert (FormatInt (t / 1000000) ≠ "") as Hne.
  { intros Heq. pose proof (ParseInt_Format (t / 1000000) ltac:(lia)) as Hp. by rewrite Heq in Hp. }
  rewrite bool_decide_eq_false_2, ParseInt_Format by (done || lia). rewrite (proj2 (Z.ltb_lt _ _)) by lia.
  pose proof (Z.div_mod t 1000000 ltac:(lia)) as Hdm. pose proof (Z.mod_pos_bound t 1000000 ltac:(lia)) as Hb.
  unfold i64. rewrite Z.mod_small; lia.
Qed.

End Users.

(** ** A session on another node *)

Definition n1 : NodeCfg := mkNode true "n1" "i1" 600.

(** The hub of n1 is empty; the directory knows s1 on n2. *)
Definition world (e : @effect string) (s : unit) : answer e * unit :=
  match e with
  | LookupSession _ => (None, s)
  | SessionsByUser _ _ => ([], s)
  | GetSessionLease sid =>
      (Ok (if bool_decide (sid = "s1") then Some (mkLease "s1" "n2" "i2" "bob" "acme" "phone" 3 true 0 0 600) else None), s)
  | ListUserSessions _ _ => (["s1"; "s9"], None, s)
  | NewUUID => ("cmd-1", s)
  | Now => (mkTime 0 0, s)
  | NowMilli => (0%Z, s)
  | SendCommand c => (Ok (Some (mkResult (c_CommandID c) (c_SessionID c) "n2" "i2" ClusterCommandStatusSucceeded "" "" ∅ zeroTime "")), s)
  | BroadcastCommand _ => (Ok [], s)
  | ClientSend _ _ | ClientClose _ _ | ClientFence _ _ | AddSubscription _ _ | RemoveSubscription _ _ => (None, s)
  | LookupSubscriber _ _ => (None, s)
  | PresenceJoin _ _ | PresenceLeave _ _ _ _ => (tt, s)
  | MatchingSubscribers _ => ([], s)
  | LocalSurvey _ _ _ => (Ok [], s)
  | JsonMarshal _ => (Ok "[]", s)
  | JsonUnmarshal _ => (Ok [], s)
  end.

Definition bye : Handlers.Disconnect := Handlers.mkDisconnect 3000 "bye".

Definition kicked : list (event (@answer string)) * result string bool * unit :=
  exec world (perform Ok Ok n1 (OpDisconnect bye) "s1") tt.

(** The same world with the session in the hub of n1, subscribed to nothing. *)
Definition home (e : @effect string) (s : unit) : answer e * unit :=
  match e with
  | LookupSession _ => (Some (Lease.mkIdentity "s1" "bob" "acme" "phone" "ws" true 0 0 1), s)
  | e => world e s
  end.

(** Unsubscribing a channel the session does not have: RemoveSubscription does
    nothing and returns no error, so the operation reports success (and announces
    nothing); the API documentation promises false. *)
Theorem unsubscribing_nothing_succeeds :
  let '(tr, r, _) := exec home (perform Ok Ok n1 (OpUnsubscribe "acme:im") "s1") tt in
  r = Ok true ∧ sights tr = [Stored "acme:im" "s1" None; Removed "acme:im" "s1"].
Proof. vm_compute. done. Qed.

Definition joined : list (event (@answer string)) * result string bool * unit :=
  exec home (perform Ok Ok n1 (OpSubscribe "acme:im") "s1") tt.

Lemma session_op_exact_witness :
  (kicked.1.2 = Ok true ∧ acts kicked.1.1 = [true] ∧
   ∃ c, sends kicked.1.1 = [c] ∧ carries Ok (OpDisconnect bye) c) ∧
  Joined "acme:im" "s1" ∈ sights joined.1.1.
Proof.
  split.
  - split; [vm_compute; reflexivity|].
    destruct (session_op_exact Ok Ok n1 (OpDisconnect bye) "s1" kicked.1.1 kicked.1.2) as (Hx & _ & Hr);
      [simpl; lia|apply exec_run|].
    split; [apply Hr; vm_compute; reflexivity|].
    eexists. split; [vm_compute; reflexivity|].
    refine (Hx (take 4 kicked.1.1) (SendCommand _) _ (drop 5 kicked.1.1) _). vm_compute. reflexivity.
  - destruct (session_op_exact Ok Ok n1 (OpSubscribe "acme:im") "s1" joined.1.1 joined.1.2) as (_ & [Hj _] & _);
      [exact I|apply exec_run|].
    apply Hj. split; vm_compute; set_solver.
Defined.

Definition order : ClusterCommand := new_command ClusterCommandDisconnect "s1" "" "" ∅.

Lemma command_routing_witness :
  let tr := (exec world (dispatchSessionCommand Ok n1 "s1" order) tt).1.1 in
  length (sends tr) = 1 ∧ (sends tr = [] ∨ touched tr = [] ∧ length (sends tr) = 1).
Proof.
  split; [vm_compute; reflexivity|].
  refine (proj2 (command_routing Ok n1 "s1" order _ _ _)). apply exec_run.
Defined.

Definition seize : ClusterCommand :=
  mkCommand "c1" ClusterCommandTakeover "n1" "i1" "s1" "" 3 zeroTime "" "" ∅ "".

Lemma takeover_fences_version_witness :
  r_Status (exec world (handleClusterCommand Ok n1 seize) tt).1.2 = ClusterCommandStatusSucceeded.
Proof.
  refine (proj2 (takeover_fences_version Ok n1 seize (exec world (handleClusterCommand Ok n1 seize) tt).1.1 _ _ _) _);
    [reflexivity|apply exec_run|vm_compute; reflexivity].
Defined.

Lemma expand_user_exact_witness :
  (exec world (ExpandUserSessions (Msg := string) n1 "acme" "bob") tt).1.2 = ["s1"] ∧
  ∀ sid, sid ∈ (exec world (ExpandUserSessions n1 "acme" "bob") tt).1.2 ↔
    reported "acme" "bob" sid (exec world (ExpandUserSessions n1 "acme" "bob") tt).1.1.
Proof.
  split; [vm_compute; reflexivity|].
  refine (proj2 (proj2 (proj2 (expand_user_exact n1 "acme" "bob" _ _ _)))). apply exec_run.
Defined.

End CommandRouting.
