(* ===== verification/ServerAuth.v ===== *)
(** * ServerAuth: authentication of Server API callers (internal/serverapi/auth.go)

    The interceptor and the verifier behind it: static tokens, the length gate,
    and verification by the assigned backend with a bounded cache of verdicts,
    one call in flight per credential, and a breaker.  The parts of Verify under
    the mutex are the atomic steps; the backend call lies between them, so the
    verifications of different callers interleave.  Times are in nanoseconds. *)

From stdpp Require Import sorting.
From S2P Require Import Prelude Topics Policy Authz Hmac.
Import Topics Authz.

Module ServerAuth.

(** ** Constants *)

Definition second : Z := 1000000000.
Definition staticTokenKeyID := "static-token".
Definition insecureKeyID := "insecure".
Definition unknownKeyID := "unknown".
Definition defaultAuthCacheTTL : Z := 30 * second.
Definition negativeAuthCacheTTL : Z := 5 * second.
Definition proxyErrorCacheTTL : Z := 2 * second.
Definition breakerThreshold : Z := 5.
Definition breakerCooldown : Z := 30 * second.
Definition maxAuthCacheEntries : nat := 1024.
Definition minProxyKeyChars : nat := 20.
Definition minCacheTTL : Z := 1 * second.

Inductive auth_error := errAPIKeyRejected | errProxyUnavailable.

Record apiAuthOptions := mkOptions {
  AuthTokens : list string;
  AllowInsecure : bool;
  Ceiling : Capability;
  CacheTTL : Z;
}.

(** proxy.APIKeyInfo and the backend's answer; [None] is a transport error. *)
Record APIKeyInfo := mkKeyInfo {
  ki_KeyID : string; ki_Namespaces : list string; ki_Capabilities : list string; ki_MaxAgeSeconds : Z }.

Record APIKeyResponse := mkKeyResponse { kr_Error : bool; kr_Identity : option APIKeyInfo }.

Record cacheEntry := mkEntry {
  ce_identity : APIIdentity; ce_allowed : bool; ce_err : auth_error; ce_expireAt : Z }.

(** [inFlight] holds the verifications under way; a verifyCall is known by the
    number of the caller that leads it. *)
Record apiAuthResolver := mkResolver {
  entries : gmap string cacheEntry;
  inFlight : gmap string nat;
  consecutiveErrors : Z;
  breakerOpenAt : option Z;
}.

Definition newAPIAuthResolver : apiAuthResolver := mkResolver ∅ ∅ 0 None.

Definition set_entries (r : apiAuthResolver) m := mkResolver m (inFlight r) (consecutiveErrors r) (breakerOpenAt r).
Definition set_inFlight (r : apiAuthResolver) s := mkResolver (entries r) s (consecutiveErrors r) (breakerOpenAt r).
Definition set_streak (r : apiAuthResolver) n b := mkResolver (entries r) (inFlight r) n b.

Definition no_identity : APIIdentity := mkIdentity "" [] 0%Z.

Section Auth.
Context (sha256 : string → string) (opts : apiAuthOptions).

Definition resolver_ttl : Z := if (CacheTTL opts <=? 0)%Z then defaultAuthCacheTTL else CacheTTL opts.

Definition cacheKey (presented : string) : string := Hmac.EncodeToString (sha256 presented).

(** ** Clamping the backend's grant *)

Definition clamp_namespaces (granted : list string) : list string :=
  let namespaces := List.filter (λ ns, negb (bool_decide (ns = "*")) && is_ok (ValidateNamespace ns)) granted in
  let sawWildcard := existsb (λ ns, bool_decide (ns = "*")) granted in
  match granted with
  | [] => []
  | _ => if sawWildcard then match namespaces with [] => ["*"] | _ => [] end else namespaces
  end.

(** [time.Duration(seconds) * time.Second] wraps at 64 bits. *)
Definition clamp_ttl (maxAge : Z) : Z :=
  let ttl := resolver_ttl in
  let ttl := if (0 <? maxAge)%Z && (i64 (maxAge * second) <? ttl)%Z
             then i64 (maxAge * second) else ttl in
  if (ttl <? minCacheTTL)%Z then minCacheTTL else ttl.

Definition clampIdentity (info : APIKeyInfo) : APIIdentity * Z :=
  (mkIdentity (ki_KeyID info) (clamp_namespaces (ki_Namespaces info))
     (Z.land (ParseCapabilityNames (ki_Capabilities info)) (Ceiling opts)),
   clamp_ttl (ki_MaxAgeSeconds info)).

(** ** One round trip to the backend *)

Inductive verdict := verdictAllow | verdictDeny | verdictError.

(** [assigned]: a proxy is assigned; [answer]: what the call returned. *)
Definition verifyViaProxy (assigned : bool) (answer : option APIKeyResponse) : APIIdentity * Z * verdict :=
  if negb assigned then (no_identity, 0%Z, verdictError)
  else match answer with
  | None => (no_identity, 0%Z, verdictError)
  | Some resp =>
      if kr_Error resp then (no_identity, 0%Z, verdictDeny)
      else match kr_Identity resp with
      | None => (no_identity, 0%Z, verdictDeny)
      | Some info =>
          let '(id, ttl) := clampIdentity info in
          (if bool_decide (id_KeyID id = "") then mkIdentity unknownKeyID (id_Namespaces id) (id_Caps id) else id,
           ttl, verdictAllow)
      end
  end.

Definition resolveTTL (v : verdict) (positive : Z) : Z :=
  match v with
  | verdictDeny => negativeAuthCacheTTL
  | verdictError => proxyErrorCacheTTL
  | verdictAllow => positive
  end.

(** ** The parts under the mutex *)

Definition recordProxyErrorLocked (now : Z) (r : apiAuthResolver) : apiAuthResolver :=
  let n := (consecutiveErrors r + 1)%Z in
  if (breakerThreshold <=? n)%Z then set_streak r 0 (Some now) else set_streak r n (breakerOpenAt r).

(** [victim]: the key map iteration yields first. *)
Definition storeLocked (victim key : string) (e : cacheEntry) (r : apiAuthResolver) : apiAuthResolver :=
  let m := if (maxAuthCacheEntries <=? base.size (entries r)) then delete victim (entries r) else entries r in
  set_entries r (<[ key := e ]> m).

Definition rejectWithoutProxy (victim presented : string) (now : Z) (r : apiAuthResolver) : apiAuthResolver :=
  storeLocked victim (cacheKey presented)
    (mkEntry no_identity false errAPIKeyRejected (now + negativeAuthCacheTTL)) r.

(** The first part of Verify decides, waits for the call in flight, or leads. *)
Inductive begun := Decided (res : result auth_error APIIdentity) | Attach (leader : nat) | Lead.

(** From the in-flight table on; [me] is the caller. *)
Definition attach_or_lead (me : nat) (key : string) (r : apiAuthResolver) : begun * apiAuthResolver :=
  match inFlight r !! key with
  | Some leader => (Attach leader, r)
  | None => (Lead, set_inFlight r (<[ key := me ]> (inFlight r)))
  end.

(** From the breaker on. *)
Definition past_cache (now : Z) (me : nat) (key : string) (r : apiAuthResolver) : begun * apiAuthResolver :=
  match breakerOpenAt r with
  | Some opened =>
      if (now - opened <? breakerCooldown)%Z then (Decided (Err errProxyUnavailable), r)
      else attach_or_lead me key (set_streak r 0 None)
  | None => attach_or_lead me key r
  end.

(** [now]: the caller's clock, read before the mutex; [later]: the clock when a
    cached outage is counted. *)
Definition verify_begin (now later : Z) (me : nat) (key : string) (r : apiAuthResolver) : begun * apiAuthResolver :=
  match entries r !! key with
  | Some e =>
      if (now <? ce_expireAt e)%Z then
        if ce_allowed e then (Decided (Ok (ce_identity e)), r)
        else (Decided (Err (ce_err e)),
              match ce_err e with errProxyUnavailable => recordProxyErrorLocked later r | errAPIKeyRejected => r end)
      else past_cache now me key (set_entries r (delete key (entries r)))
  | None => past_cache now me key r
  end.

(** What the caller of a verification that is not cached learns. *)
Definition verdict_result (id : APIIdentity) (v : verdict) : result auth_error APIIdentity :=
  match v with
  | verdictAllow => Ok id
  | verdictDeny => Err errAPIKeyRejected
  | verdictError => Err errProxyUnavailable
  end.

(** The second part of Verify: [started] is the leader's time before the call. *)
Definition verify_end (started now : Z) (victim key : string) (id : APIIdentity) (ttl : Z) (v : verdict)
    (r : apiAuthResolver) : apiAuthResolver :=
  let r := set_inFlight r (delete key (inFlight r)) in
  match v with
  | verdictAllow =>
      storeLocked victim key (mkEntry id true errAPIKeyRejected (started + resolveTTL v ttl)) (set_streak r 0 None)
  | verdictDeny =>
      storeLocked victim key (mkEntry no_identity false errAPIKeyRejected (started + negativeAuthCacheTTL))
        (set_streak r 0 (breakerOpenAt r))
  | verdictError =>
      storeLocked victim key (mkEntry no_identity false errProxyUnavailable (started + proxyErrorCacheTTL))
        (recordProxyErrorLocked now r)
  end.

(** ** The interceptor *)

(** credentialFromMetadata: the values of the two headers. *)
Definition credentialFromMetadata (authorization apiKey : list string) : option string :=
  let bearer :=
    match authorization with
    | v :: _ => if (7 <? String.length v)%nat && String.prefix "Bearer " v
                then Some (String.substring 7 (String.length v - 7) v) else None
    | [] => None
    end in
  match bearer with
  | Some c => Some c
  | None => match apiKey with v :: _ => if bool_decide (v = "") then None else Some v | [] => None end
  end.

(** What the interceptor does before the handler: refuse, run the handler with
    an identity, or verify the credential and run it with the result. *)
Inductive admission :=
| Refuse
| RefuseShort (presented : string)
| Admit (id : APIIdentity)
| VerifyWith (presented : string).

Definition intercept (assigned : bool) (credential : option string) : admission :=
  match credential with
  | None =>
      if (0 <? length (AuthTokens opts))%nat then Refuse
      else if AllowInsecure opts then Admit (mkIdentity insecureKeyID ["*"] (Ceiling opts))
      else Refuse
  | Some presented =>
      if existsb (λ token, bool_decide (presented = token)) (AuthTokens opts)
      then Admit (mkIdentity staticTokenKeyID ["*"] (Ceiling opts))
      else if negb assigned then Refuse
      else if (String.length presented <? minProxyKeyChars)%nat then RefuseShort presented
      else VerifyWith presented
  end.

End Auth.
(** ** All interleavings *)

Section System.
Context (sha256 : string → string) (opts : apiAuthOptions).

(** A call of Verify: arrived with its clock reading, asking the backend, waiting
    for the call another caller leads, or returned. *)
Inductive caller :=
| Arrived (key : string) (at_ : Z)
| Leading (key : string) (at_ : Z)
| Attached (key : string) (at_ : Z) (leader : nat)
| Returned (key : string) (at_ : Z) (res : result auth_error APIIdentity).

(** What the backend answered: credential key, start and end of the call, answer. *)
Abbreviation answers := (list (string * Z * Z * APIKeyResponse)).

Record sys := mkSys {
  s_res : apiAuthResolver;
  s_callers : gmap nat caller;
  s_now : Z;
  s_log : answers;
}.

Definition init (now : Z) : sys := mkSys newAPIAuthResolver ∅ now [].

Definition evictable (victim : string) (r : apiAuthResolver) : Prop :=
  maxAuthCacheEntries ≤ base.size (entries r) → victim ∈ dom (entries r).

Definition logged (key : string) (started ended : Z) (assigned : bool) (answer : option APIKeyResponse)
    (log : answers) : answers :=
  match answer with Some resp => if assigned then (key, started, ended, resp) :: log else log | None => log end.

Definition began (key : string) (at_ : Z) (b : begun) : caller :=
  match b with
  | Decided res => Returned key at_ res
  | Attach leader => Attached key at_ leader
  | Lead => Leading key at_
  end.

(** The clock advances; a caller arrives, takes the mutex, ends the call it leads,
    learns the result of the call it waits for (verifyCall's channel is closed) or
    gives up; a short credential is refused. *)
Inductive step : sys → sys → Prop :=
| step_tick r cs now now' log : (now ≤ now')%Z → step (mkSys r cs now log) (mkSys r cs now' log)
| step_arrive r cs now log me key :
    cs !! me = None → step (mkSys r cs now log) (mkSys r (<[ me := Arrived key now ]> cs) now log)
| step_begin r cs now log me key at_ b r' :
    cs !! me = Some (Arrived key at_) → verify_begin at_ now me key r = (b, r') →
    step (mkSys r cs now log) (mkSys r' (<[ me := began key at_ b ]> cs) now log)
| step_end r cs now log me key at_ victim assigned answer id ttl v :
    cs !! me = Some (Leading key at_) → evictable victim r →
    verifyViaProxy opts assigned answer = (id, ttl, v) →
    step (mkSys r cs now log)
         (mkSys (verify_end at_ now victim key id ttl v r) (<[ me := Returned key at_ (verdict_result id v) ]> cs) now
                (logged key at_ now assigned answer log))
| step_join r cs now log me key at_ leader at' res :
    cs !! me = Some (Attached key at_ leader) → cs !! leader = Some (Returned key at' res) →
    step (mkSys r cs now log) (mkSys r (<[ me := Returned key at_ res ]> cs) now log)
| step_cancel r cs now log me key at_ leader :
    cs !! me = Some (Attached key at_ leader) →
    step (mkSys r cs now log) (mkSys r (delete me cs) now log)
| step_short r cs now log victim presented :
    evictable victim r →
    step (mkSys r cs now log) (mkSys (rejectWithoutProxy sha256 victim presented now r) cs now log).

Inductive reachable : sys → Prop :=
| reachable_init now : reachable (init now)
| reachable_step s s' : reachable s → step s s' → reachable s'.

(** The backend allowed the credential as [id], asked at [started], answering at
    [ended]. *)
Definition granted (log : answers) (key : string) (started ended : Z) (id : APIIdentity) (ttl : Z) : Prop :=
  ∃ resp, (key, started, ended, resp) ∈ log ∧ verifyViaProxy opts true (Some resp) = (id, ttl, verdictAllow).

(** A caller that read the clock [at_] may be told [id]: a grant no older than its
    lifetime, or one that arrived after the caller did. *)
Definition justified (log : answers) (now : Z) (key : string) (at_ : Z) (id : APIIdentity) : Prop :=
  ∃ started ended ttl, granted log key started ended id ttl ∧ (ended ≤ now)%Z ∧
    ((started ≤ ended ∧ at_ < started + ttl)%Z ∨ (at_ ≤ ended)%Z).

Definition entry_ok (now : Z) (log : answers) (key : string) (e : cacheEntry) : Prop :=
  ce_allowed e = true → ∃ started ended ttl,
    granted log key started ended (ce_identity e) ttl ∧ ce_expireAt e = (started + ttl)%Z ∧
    (started ≤ ended ≤ now)%Z.

(** What is known of a caller, given the others. *)
Definition caller_ok (log : answers) (now : Z) (cs : gmap nat caller) (c : caller) : Prop :=
  match c with
  | Arrived _ at_ | Leading _ at_ => (at_ ≤ now)%Z
  | Attached key at_ leader => (at_ ≤ now)%Z ∧
      ((∃ at', cs !! leader = Some (Leading key at')) ∨
       ∃ at' res, cs !! leader = Some (Returned key at' res) ∧ ∀ id, res = Ok id → justified log now key at_ id)
  | Returned key at_ res => ∀ id, res = Ok id → justified log now key at_ id
  end.

Record inv (s : sys) : Prop := mkInv {
  inv_size : base.size (entries (s_res s)) ≤ maxAuthCacheEntries;
  inv_streak : (0 ≤ consecutiveErrors (s_res s) < breakerThreshold)%Z;
  inv_flight key me : inFlight (s_res s) !! key = Some me ↔ ∃ at_, s_callers s !! me = Some (Leading key at_);
  inv_callers : map_Forall (λ _, caller_ok (s_log s) (s_now s) (s_callers s)) (s_callers s);
  inv_entries : map_Forall (entry_ok (s_now s) (s_log s)) (entries (s_res s));
}.

Lemma granted_mono log log' key started ended id ttl :
  log ⊆ log' → granted log key started ended id ttl → granted log' key started ended id ttl.
Proof. intros Hsub (resp & Hin & Hv). exists resp. split; [by apply Hsub|done]. Qed.

Lemma justified_mono log log' now now' key at_ id :
  log ⊆ log' → (now ≤ now')%Z → justified log now key at_ id → justified log' now' key at_ id.
Proof.
  intros Hsub Hn (started & ended & ttl & Hg & He & Hf). exists started, ended, ttl.
  split; [by eapply granted_mono|]. split; [lia|done].
Qed.

Lemma entry_ok_mono now now' log log' key e :
  (now ≤ now')%Z → log ⊆ log' → entry_ok now log key e → entry_ok now' log' key e.
Proof.
  intros Hn Hsub He Ha. destruct (He Ha) as (started & ended & ttl & Hg & Hx & Hs). exists started, ended, ttl.
  split; [by eapply granted_mono|]. split; [done|lia].
Qed.

(** Facts about callers survive, as long as the leaders keep their calls. *)
Lemma caller_ok_mono log log' now now' cs cs' c :
  log ⊆ log' → (now ≤ now')%Z →
  (∀ key at_ leader, c = Attached key at_ leader → cs' !! leader = cs !! leader ∨
     ∃ at' res, cs' !! leader = Some (Returned key at' res) ∧ ∀ id, res = Ok id → justified log' now' key at_ id) →
  caller_ok log now cs c → caller_ok log' now' cs' c.
Proof.
  intros Hlog Hn Hcs. destruct c as [key at_|key at_|key at_ leader|key at_ res]; cbn; [lia|lia| |].
  - intros [Hat Hl]. split; [lia|]. destruct (Hcs key at_ leader eq_refl) as [->|Hr]; [|by right].
    destruct Hl as [?|(at' & res & Hr & Hj)]; [by left|right]. exists at', res. split; [done|].
    intros id Hid. eapply justified_mono; [done..|by apply Hj].
  - intros Hj id Hid. eapply justified_mono; [done..|by apply Hj].
Qed.

Lemma recordProxyErrorLocked_streak now r :
  (0 ≤ consecutiveErrors r < breakerThreshold)%Z →
  (0 ≤ consecutiveErrors (recordProxyErrorLocked now r) < breakerThreshold)%Z.
Proof.
  unfold recordProxyErrorLocked, breakerThreshold. intros Hr. destruct (5 <=? _)%Z eqn:Hb; simpl; [lia|].
  apply Z.leb_gt in Hb. lia.
Qed.

Lemma recordProxyErrorLocked_keeps now r :
  entries (recordProxyErrorLocked now r) = entries r ∧ inFlight (recordProxyErrorLocked now r) = inFlight r.
Proof. unfold recordProxyErrorLocked. by case_match. Qed.

(** Storing keeps the cache within its bound and every entry justified. *)
Lemma storeLocked_inv victim key e r :
  evictable victim r → base.size (entries r) ≤ maxAuthCacheEntries →
  base.size (entries (storeLocked victim key e r)) ≤ maxAuthCacheEntries.
Proof.
  intros Hv Hs. unfold storeLocked, evictable in *. cbn [entries set_entries].
  destruct (maxAuthCacheEntries <=? base.size (entries r)) eqn:Hb.
  - apply Nat.leb_le in Hb. specialize (Hv Hb). apply elem_of_dom in Hv as [e' He'].
    assert (base.size (delete victim (entries r)) = base.size (entries r) - 1) as Hd.
    { rewrite map_size_delete, He'. simpl. lia. }
    assert (base.size (entries r) ≠ 0) as Hne by (intros Hz%map_size_empty_inv; by rewrite Hz in He').
    rewrite map_size_insert. destruct (delete victim (entries r) !! key); cbv [Datatypes.id]; lia.
  - apply Nat.leb_gt in Hb. rewrite map_size_insert. destruct (entries r !! key); cbv [Datatypes.id]; lia.
Qed.

Lemma storeLocked_entries (P : string → cacheEntry → Prop) victim key e r :
  map_Forall P (entries r) → P key e → map_Forall P (entries (storeLocked victim key e r)).
Proof.
  intros Hp He. unfold storeLocked. cbn [entries set_entries]. apply map_Forall_insert_2; [done|].
  case_match; [by apply map_Forall_delete|done].
Qed.

Lemma inv_init now : inv (init now).
Proof.
  split; try done; [apply Nat.le_0_l|]. intros key me. cbn. rewrite lookup_empty. split; [done|].
  intros [at_ Hl]. by rewrite lookup_empty in Hl.
Qed.

(** What the first part of Verify does to the resolver. *)
Definition begun_ok (now : Z) (me : nat) (key : string) (r r' : apiAuthResolver) (b : begun) : Prop :=
  match b with
  | Decided res => inFlight r' = inFlight r ∧ ∀ id, res = Ok id →
      ∃ e, entries r !! key = Some e ∧ ce_allowed e = true ∧ ce_identity e = id ∧ (now < ce_expireAt e)%Z
  | Attach leader => inFlight r' = inFlight r ∧ inFlight r !! key = Some leader
  | Lead => inFlight r' = <[ key := me ]> (inFlight r) ∧ inFlight r !! key = None
  end.

Lemma past_cache_spec now me key r b r' :
  past_cache now me key r = (b, r') → (0 ≤ consecutiveErrors r < breakerThreshold)%Z →
  entries r' = entries r ∧ (0 ≤ consecutiveErrors r' < breakerThreshold)%Z ∧
  (∀ id, b ≠ Decided (Ok id)) ∧ begun_ok now me key r r' b.
Proof.
  unfold past_cache, attach_or_lead, breakerThreshold. intros Heq Hs.
  repeat case_match; simplify_eq/=; split_and!; try done; lia.
Qed.

Lemma verify_begin_spec now later me key r b r' :
  verify_begin now later me key r = (b, r') → (0 ≤ consecutiveErrors r < breakerThreshold)%Z →
  entries r' ⊆ entries r ∧ (0 ≤ consecutiveErrors r' < breakerThreshold)%Z ∧ begun_ok now me key r r' b.
Proof.
  unfold verify_begin. intros Heq Hs. destruct (entries r !! key) as [e|] eqn:He.
  2: { by apply past_cache_spec in Heq as (-> & Hst & _ & Hb); [|done]. }
  destruct (now <? ce_expireAt e)%Z eqn:Hx.
  - apply Z.ltb_lt in Hx. destruct (ce_allowed e) eqn:Ha; injection Heq as <- <-.
    + split; [reflexivity|]. split; [lia|]. split; [done|]. intros id [= <-]. by exists e.
    + destruct (ce_err e); [split; [reflexivity|]; split; [lia|by split]|].
      destruct (recordProxyErrorLocked_keeps later r) as [Hre Hri]. split; [by rewrite Hre|].
      split; [by apply recordProxyErrorLocked_streak|by split].
  - apply past_cache_spec in Heq as (Hent & ? & Hn & Hb); [|done]. rewrite Hent.
    split; [apply delete_subseteq|]. split; [done|]. destruct b; [|exact Hb..].
    split; [by destruct Hb|]. intros id ->. by destruct (Hn id).
Qed.

(** Who waits, waits for a caller that leads or has returned. *)
Definition awaited (cs : gmap nat caller) (me : nat) : Prop :=
  (∃ key at_, cs !! me = Some (Leading key at_)) ∨ (∃ key at_ res, cs !! me = Some (Returned key at_ res)).

(** A change to a caller nobody waits for. *)
Lemma callers_update log now cs cs' me :
  map_Forall (λ _, caller_ok log now cs) cs → ¬ awaited cs me →
  (∀ i, i ≠ me → cs' !! i = cs !! i) → (∀ c, cs' !! me = Some c → caller_ok log now cs' c) →
  map_Forall (λ _, caller_ok log now cs') cs'.
Proof.
  intros Hok Hno Hsame Hme i c Hc. destruct (decide (i = me)) as [->|Hne]; [by apply Hme|].
  rewrite Hsame in Hc by done. apply Hok in Hc as Hco. revert Hco. apply caller_ok_mono; [done|lia|].
  intros key at_ leader ->. left. apply Hsame. intros ->. destruct (Hok i _ Hc) as [_ [[at' Hl]|(at' & res & Hl & _)]].
  - apply Hno. left. eauto.
  - apply Hno. right. eauto.
Qed.

(** ... that does not lead either. *)
Lemma flight_update (fl : gmap string nat) (cs cs' : gmap nat caller) me :
  (∀ key i, fl !! key = Some i ↔ ∃ at_, cs !! i = Some (Leading key at_)) →
  (∀ i, i ≠ me → cs' !! i = cs !! i) →
  (∀ key at_, cs !! me ≠ Some (Leading key at_)) → (∀ key at_, cs' !! me ≠ Some (Leading key at_)) →
  ∀ key i, fl !! key = Some i ↔ ∃ at_, cs' !! i = Some (Leading key at_).
Proof.
  intros Hf Hsame H1 H2 key i. rewrite Hf. destruct (decide (i = me)) as [->|Hne]; [|by rewrite Hsame].
  split; intros [at_ Hl]; [by destruct (H1 key at_)|by destruct (H2 key at_)].
Qed.

Lemma step_begin_inv r cs now log me key at_ b r' :
  inv (mkSys r cs now log) → cs !! me = Some (Arrived key at_) → verify_begin at_ now me key r = (b, r') →
  inv (mkSys r' (<[ me := began key at_ b ]> cs) now log).
Proof.
  intros [H1 H2 H3 H4 H5] Hme Hb. simpl in *.
  destruct (verify_begin_spec _ _ _ _ _ _ _ Hb H2) as (Hent & Hs & Hbo).
  assert (∀ i, i ≠ me → <[ me := began key at_ b ]> cs !! i = cs !! i) as Hsame
    by (intros; by rewrite lookup_insert_ne).
  assert (at_ ≤ now)%Z as Hat by (by apply (H4 me _ Hme)).
  split; simpl; try done.
  - etransitivity; [by apply map_subseteq_size|done].
  - destruct b as [res|leader|]; destruct Hbo as [-> Hbo];
      [apply (flight_update _ cs _ me); [done..|by rewrite Hme|by rewrite lookup_insert_eq]..|].
    intros key' i. destruct (decide (i = me)) as [->|Hne].
    + rewrite lookup_insert_eq. split.
      * intros [[-> _]|[Hk Hi]]%lookup_insert_Some; [by exists at_|].
        apply H3 in Hi as [at' Hi]. by rewrite Hme in Hi.
      * intros [at' [= -> _]]. by rewrite lookup_insert_eq.
    + rewrite Hsame by done. rewrite <-H3. rewrite lookup_insert_Some. split; [naive_solver|].
      intros Hi. right. split; [|done]. intros ->. by rewrite Hbo in Hi.
  - apply (callers_update _ _ cs _ me); [done| |done|].
    + intros [(k & t & Hl)|(k & t & res & Hl)]; by rewrite Hme in Hl.
    + rewrite lookup_insert_eq. intros c [= <-]. destruct b as [res|leader|]; cbn; [|split; [done|left]|done].
      * intros id Hid. destruct Hbo as [_ Hbo]. destruct (Hbo id Hid) as (e & He & Ha & <- & Hx).
        destruct (H5 key e He Ha) as (started & ended & ttl & Hg & Hexp & Hse).
        exists started, ended, ttl. split; [done|]. split; [lia|left]. lia.
      * destruct Hbo as [_ [at' Hl]%H3]. exists at'. rewrite Hsame; [done|]. intros ->. by rewrite Hme in Hl.
  - intros k e He. apply H5. by eapply lookup_weaken.
Qed.

(** The verdict's entry is justified by the answer just logged. *)
Lemma step_end_inv r cs now log me key at_ victim assigned answer id ttl v :
  inv (mkSys r cs now log) → cs !! me = Some (Leading key at_) → evictable victim r →
  verifyViaProxy opts assigned answer = (id, ttl, v) →
  inv (mkSys (verify_end at_ now victim key id ttl v r) (<[ me := Returned key at_ (verdict_result id v) ]> cs) now
        (logged key at_ now assigned answer log)).
Proof.
  intros [Hsize Hstreak Hflight Hcallers Hentries] Hme Hv Hp. simpl in *.
  set (log' := logged key at_ now assigned answer log).
  assert (log ⊆ log') as Hlog by (unfold log', logged; destruct answer; [destruct assigned|]; set_solver).
  assert (at_ ≤ now)%Z as Hat by (by apply (Hcallers me _ Hme)).
  assert (v = verdictAllow → granted log' key at_ now id ttl) as Hgrant.
  { intros ->. unfold verifyViaProxy in Hp. destruct assigned; [|done]. destruct answer as [resp|]; [|done].
    exists resp. split; [left|exact Hp]. }
  assert (∀ id', verdict_result id v = Ok id' → id' = id ∧ granted log' key at_ now id' ttl) as Hres
    by (intros id' Hid; destruct v; cbn in Hid; try done; injection Hid as ->; auto).
  assert (map_Forall (entry_ok now log') (entries r)) as Hent.
  { intros k e He. eapply entry_ok_mono; [reflexivity|exact Hlog|by apply Hentries]. }
  destruct (recordProxyErrorLocked_keeps now (set_inFlight r (delete key (inFlight r)))) as [Hre Hri].
  assert (∀ id' at', (at' ≤ now)%Z → verdict_result id v = Ok id' → justified log' now key at' id') as Hjust.
  { intros id' at' Hat' Hid. destruct (Hres id' Hid) as [_ Hg]. exists at_, now, ttl. split; [done|]. lia. }
  split; simpl.
  - unfold verify_end. destruct v; apply storeLocked_inv; unfold evictable; rewrite ?Hre; done.
  - unfold verify_end, breakerThreshold in *. destruct v; simpl; try lia. by apply recordProxyErrorLocked_streak.
  - assert (inFlight (verify_end at_ now victim key id ttl v r) = delete key (inFlight r)) as ->
      by (unfold verify_end; destruct v; simpl; rewrite ?Hri; done).
    assert (inFlight r !! key = Some me) as Hfl by (apply Hflight; eauto).
    intros k i. rewrite lookup_delete_Some, Hflight. destruct (decide (i = me)) as [->|Hne].
    + rewrite lookup_insert_eq. split; [|by intros [? ?]]. intros [Hk [t Ht]]. rewrite Hme in Ht. by injection Ht as ->.
    + rewrite lookup_insert_ne by done. split; [by intros [_ ?]|]. intros [t Ht]. split; [|by exists t].
      intros ->. assert (inFlight r !! k = Some i) as Hi by (apply Hflight; eauto). congruence.
  - intros i c. destruct (decide (i = me)) as [->|Hne].
    + rewrite lookup_insert_eq. intros [= <-] id' Hid. by apply Hjust.
    + rewrite lookup_insert_ne by done. intros Hc. apply Hcallers in Hc as Hco. revert Hco.
      apply caller_ok_mono; [done|lia|]. intros k t leader ->. destruct (decide (leader = me)) as [->|Hl].
      * right. destruct (Hcallers i _ Hc) as [Ht [[t' Hl]|(t' & res & Hl & _)]]; rewrite Hme in Hl; [|done].
        injection Hl as -> _. exists at_, (verdict_result id v). rewrite lookup_insert_eq. auto.
      * left. by rewrite lookup_insert_ne.
  - unfold verify_end. destruct v; apply storeLocked_entries; rewrite ?Hre; try done.
    intros _. exists at_, now, ttl. split; [by apply Hgrant|]. split; [done|lia].
Qed.

Lemma auth_step_inv s s' : inv s → step s s' → inv s'.
Proof.
  intros Hi Hst. destruct Hst as [r cs now now' log Hle|r cs now log me key Hme|r cs now log me key at_ b r' Hme Hb
    |r cs now log me key at_ victim assigned answer id ttl v Hme Hv Hp|r cs now log me key at_ leader at' res Hme Hl
    |r cs now log me key at_ leader Hme|r cs now log victim presented Hv].
  - destruct Hi as [H1 H2 H3 H4 H5]. split; try done; simpl in *.
    + intros i c Hc. apply H4 in Hc. revert Hc. apply caller_ok_mono; [done..|]. intros. by left.
    + intros k e He. eapply entry_ok_mono; [exact Hle|done|by apply H5].
  - destruct Hi as [H1 H2 H3 H4 H5]. simpl in *.
    assert (∀ i, i ≠ me → <[ me := Arrived key now ]> cs !! i = cs !! i) as Hsame by (intros; by rewrite lookup_insert_ne).
    split; try done; simpl.
    + apply (flight_update _ cs _ me); [done..|by rewrite Hme|by rewrite lookup_insert_eq].
    + apply (callers_update _ _ cs _ me); [done| |done|].
      * intros [(k & t & Hl)|(k & t & res & Hl)]; by rewrite Hme in Hl.
      * rewrite lookup_insert_eq. intros c [= <-]. cbn. lia.
  - by eapply step_begin_inv.
  - by eapply step_end_inv.
  - destruct Hi as [H1 H2 H3 H4 H5]. simpl in *.
    assert (∀ i, i ≠ me → <[ me := Returned key at_ res ]> cs !! i = cs !! i) as Hsame by (intros; by rewrite lookup_insert_ne).
    split; try done; simpl.
    + apply (flight_update _ cs _ me); [done..|by rewrite Hme|by rewrite lookup_insert_eq].
    + apply (callers_update _ _ cs _ me); [done| |done|].
      * intros [(k & t & Hl')|(k & t & res' & Hl')]; by rewrite Hme in Hl'.
      * rewrite lookup_insert_eq. intros c [= <-]. cbn.
        destruct (H4 me _ Hme) as [_ [[t Hl']|(t & res' & Hl' & Hj)]]; rewrite Hl in Hl'; [done|]. by injection Hl' as <- <-.
  - destruct Hi as [H1 H2 H3 H4 H5]. simpl in *.
    assert (∀ i, i ≠ me → delete me cs !! i = cs !! i) as Hsame by (intros; by rewrite lookup_delete_ne).
    split; try done; simpl.
    + apply (flight_update _ cs _ me); [done..|by rewrite Hme|by rewrite lookup_delete_eq].
    + apply (callers_update _ _ cs _ me); [done| |done|].
      * intros [(k & t & Hl')|(k & t & res' & Hl')]; by rewrite Hme in Hl'.
      * by rewrite lookup_delete_eq.
  - destruct Hi as [H1 H2 H3 H4 H5]. simpl in *. split; try done; simpl.
    + by apply storeLocked_inv.
    + by apply storeLocked_entries.
Qed.

Lemma auth_reachable_inv s : reachable s → inv s.
Proof. induction 1; [apply inv_init|by eapply auth_step_inv]. Qed.

(** ** Bounds of a grant *)

Lemma clamp_ttl_bounds maxAge :
  (minCacheTTL ≤ clamp_ttl opts maxAge ≤ Z.max (resolver_ttl opts) minCacheTTL)%Z ∧
  ((0 < maxAge)%Z → (maxAge * second < 2 ^ 63)%Z → (clamp_ttl opts maxAge ≤ Z.max (maxAge * second) minCacheTTL)%Z).
Proof.
  unfold clamp_ttl. assert (∀ z, (0 ≤ z < 2 ^ 63)%Z → i64 z = z) as Hi by (intros; apply i64_small; lia).
  destruct ((0 <? maxAge)%Z && _) eqn:Hb.
  - apply andb_true_iff in Hb as [Hp%Z.ltb_lt Hlt%Z.ltb_lt]. split.
    + destruct (_ <? minCacheTTL)%Z eqn:Hm; [apply Z.ltb_lt in Hm|apply Z.ltb_ge in Hm]; lia.
    + intros _ Hov. rewrite Hi by (unfold second in *; lia).
      destruct (_ <? minCacheTTL)%Z eqn:Hm; [apply Z.ltb_lt in Hm|apply Z.ltb_ge in Hm]; lia.
  - split; [destruct (_ <? minCacheTTL)%Z eqn:Hm; [apply Z.ltb_lt in Hm|apply Z.ltb_ge in Hm]; lia|].
    intros Hp Hov. apply andb_false_iff in Hb as [Hb%Z.ltb_ge|Hb%Z.ltb_ge]; [lia|].
    rewrite Hi in Hb by (unfold second in *; lia).
    destruct (_ <? minCacheTTL)%Z eqn:Hm; [apply Z.ltb_lt in Hm|apply Z.ltb_ge in Hm]; lia.
Qed.

Lemma granted_ttl log key started ended id ttl :
  granted log key started ended id ttl → (minCacheTTL ≤ ttl ≤ Z.max (resolver_ttl opts) minCacheTTL)%Z.
Proof.
  intros (resp & _ & Hv). unfold verifyViaProxy, clampIdentity in Hv. simpl in Hv.
  destruct (kr_Error resp); [done|]. destruct (kr_Identity resp) as [info|]; [|done].
  injection Hv as _ <-. apply clamp_ttl_bounds.
Qed.

(** C14: Cached admissions are justified.  However calls of Verify, backend
    answers, cancelled waits, short rejections and the clock interleave: the cache
    never holds more than 1024 verdicts, and fewer than five errors are pending; at
    most one caller asks the backend about a credential at a time, and it is the
    one the in-flight table names; a caller that waits, waits for a caller that
    leads its credential or has returned with a result for it; and a caller that
    was told an identity was told one the backend granted for that credential
    after clamping, by a call that was started less than the clamped TTL (at least
    a second, at most the configured time) before the caller read the clock, or
    that was answered after the caller arrived. *)
Theorem cached_admission_justified s :
  reachable s →
  (base.size (entries (s_res s)) ≤ maxAuthCacheEntries ∧
   (0 ≤ consecutiveErrors (s_res s) < breakerThreshold)%Z) ∧
  (∀ key i j at_i at_j, s_callers s !! i = Some (Leading key at_i) → s_callers s !! j = Some (Leading key at_j) →
     i = j ∧ inFlight (s_res s) !! key = Some i) ∧
  (∀ key i at_ leader, s_callers s !! i = Some (Attached key at_ leader) →
     (∃ at', s_callers s !! leader = Some (Leading key at')) ∨
     (∃ at' res, s_callers s !! leader = Some (Returned key at' res))) ∧
  (∀ key i at_ id, s_callers s !! i = Some (Returned key at_ (Ok id)) →
     ∃ started ended ttl, granted (s_log s) key started ended id ttl ∧ (ended ≤ s_now s)%Z ∧
       ((started ≤ ended ∧ at_ < started + ttl)%Z ∨ (at_ ≤ ended)%Z) ∧
       (minCacheTTL ≤ ttl ≤ Z.max (resolver_ttl opts) minCacheTTL)%Z).
Proof.
  intros [H1 H2 H3 H4 H5]%auth_reachable_inv. split_and!; [done|lia|lia| | |].
  - intros key i j ti tj Hi Hj. assert (inFlight (s_res s) !! key = Some i) as Hfi by (apply H3; eauto).
    assert (inFlight (s_res s) !! key = Some j) as Hfj by (apply H3; eauto). split; [congruence|done].
  - intros key i at_ leader Hc. destruct (H4 i _ Hc) as [_ [?|(at' & res & Hl & _)]]; eauto.
  - intros key i at_ id Hc. destruct (H4 i _ Hc id eq_refl) as (started & ended & ttl & Hg & He & Hf).
    exists started, ended, ttl. split_and!; [done..| |]; by apply (granted_ttl _ _ _ _ _ _ Hg).
Qed.

End System.

Section Grants.
Context (opts : apiAuthOptions).

Lemma clamp_namespaces_spec granted ns :
  ns ∈ clamp_namespaces granted ↔
  (ns = "*" ∧ "*" ∈ granted ∧ ∀ m, m ∈ granted → m ≠ "*" → ValidateNamespace m ≠ Ok tt) ∨
  (ns ≠ "*" ∧ ("*" ∉ granted) ∧ ns ∈ granted ∧ ValidateNamespace ns = Ok tt).
Proof.
  assert (∀ m, m ∈ List.filter (λ ns, negb (bool_decide (ns = "*")) && is_ok (ValidateNamespace ns)) granted ↔
    m ∈ granted ∧ m ≠ "*" ∧ ValidateNamespace m = Ok tt) as Hf.
  { intros m. rewrite list_elem_of_In, filter_In, andb_true_iff, negb_true_iff, bool_decide_eq_false, <-list_elem_of_In.
    destruct (ValidateNamespace m) as [[]|]; simpl; naive_solver. }
  unfold clamp_namespaces. destruct granted as [|g granted]; [set_solver|].
  destruct (existsb _ (g :: granted)) eqn:Hw.
  - apply existsb_exists in Hw as (w & Hw%list_elem_of_In & ->%bool_decide_eq_true).
    destruct (List.filter _ _) as [|x l].
    + rewrite list_elem_of_singleton. split; [intros ->; left; split_and!; [done..|]|naive_solver].
      intros m Hm Hne Hok. by apply (not_elem_of_nil m), Hf.
    + split; [set_solver|]. intros [(_ & _ & Hn)|(_ & Hn & _)]; [|done].
      destruct (proj1 (Hf x) ltac:(left)) as (? & ? & ?). by destruct (Hn x).
  - apply existsb_false_Forall in Hw. rewrite Forall_forall in Hw.
    assert ("*" ∉ g :: granted) as Hns by (intros Hin; by apply Hw in Hin).
    rewrite Hf. naive_solver.
Qed.

(** The clamp on a backend's grant is exact.  An identity granted through
    the backend holds a capability bit exactly when the backend named it and
    the node's ceiling has it; a namespace other than "*" exactly when the
    backend listed it, it is well formed, and "*" was not listed; "*" exactly
    when it was listed and no well-formed namespace was; and the verdict is
    cached for at least a second and at most the configured time, and at most
    max_age when that is a second or more. *)
Theorem clamp_exact (info : APIKeyInfo) :
  let '(id, ttl) := clampIdentity opts info in
  (∀ k, (0 ≤ k)%Z → Z.testbit (id_Caps id) k = true ↔
     Z.testbit (Ceiling opts) k = true ∧ ∃ name bit, name ∈ ki_Capabilities info ∧
       ClosedCapabilityNames !! name = Some bit ∧ Z.testbit bit k = true) ∧
  (∀ ns, ns ∈ id_Namespaces id ↔
     (ns = "*" ∧ "*" ∈ ki_Namespaces info ∧
        ∀ m, m ∈ ki_Namespaces info → m ≠ "*" → ValidateNamespace m ≠ Ok tt) ∨
     (ns ≠ "*" ∧ ("*" ∉ ki_Namespaces info) ∧ ns ∈ ki_Namespaces info ∧ ValidateNamespace ns = Ok tt)) ∧
  (minCacheTTL ≤ ttl ≤ Z.max (resolver_ttl opts) minCacheTTL)%Z ∧
  ((0 < ki_MaxAgeSeconds info)%Z → (ki_MaxAgeSeconds info * second < 2 ^ 63)%Z →
   (ttl ≤ Z.max (ki_MaxAgeSeconds info * second) minCacheTTL)%Z).
Proof.
  unfold clampIdentity. simpl. split; [|split; [intros; apply clamp_namespaces_spec|apply clamp_ttl_bounds]].
  intros k Hk. rewrite Z.land_spec, andb_true_iff, ParseCapabilityNames_testbit by done. naive_solver.
Qed.

(** Who gets in.  The handler runs without a verification only for a
    caller without a credential when no static token is configured and
    insecure access is on, or for a credential equal to a static token, however
    short; every other credential reaches the backend only when one is
    assigned, the credential has at least twenty characters and is no static
    token. *)
Theorem admission_exact (assigned : bool) (credential : option string) :
  match intercept opts assigned credential with
  | Admit id =>
      (credential = None ∧ AuthTokens opts = [] ∧ AllowInsecure opts = true ∧
         id = mkIdentity insecureKeyID ["*"] (Ceiling opts)) ∨
      (∃ presented, credential = Some presented ∧ presented ∈ AuthTokens opts ∧
         id = mkIdentity staticTokenKeyID ["*"] (Ceiling opts))
  | VerifyWith presented =>
      credential = Some presented ∧ (presented ∉ AuthTokens opts) ∧ assigned = true ∧
      minProxyKeyChars ≤ String.length presented
  | RefuseShort presented =>
      credential = Some presented ∧ (presented ∉ AuthTokens opts) ∧ assigned = true ∧
      String.length presented < minProxyKeyChars
  | Refuse =>
      (credential = None ∧ (AuthTokens opts ≠ [] ∨ AllowInsecure opts = false)) ∨
      (∃ presented, credential = Some presented ∧ (presented ∉ AuthTokens opts) ∧ assigned = false)
  end.
Proof.
  unfold intercept. destruct credential as [presented|].
  - destruct (existsb _ _) eqn:He.
    { right. exists presented. apply existsb_exists in He as (t & Ht%list_elem_of_In & ->%bool_decide_eq_true). done. }
    assert (presented ∉ AuthTokens opts) as Hn.
    { apply existsb_false_Forall in He. rewrite Forall_forall in He. intros Hin. apply He in Hin.
      by apply bool_decide_eq_false in Hin. }
    destruct assigned; simpl; [|right; by exists presented]. destruct (_ <? _)%nat eqn:Hl.
    + apply Nat.ltb_lt in Hl. done.
    + apply Nat.ltb_ge in Hl. done.
  - destruct (AuthTokens opts) as [|t ts]; simpl; [|left; by split; [|left]].
    destruct (AllowInsecure opts); [by left|left; by split; [|right]].
Qed.

(** Reserved key ids.  A backend that allows a key whose id is
    "static-token" or "insecure" (the id is the backend's display name of the
    key, and is not clamped) gives it the principal "admin" of the static
    tokens, instead of "key:" and its id. *)
Theorem reserved_key_id_is_admin (info : APIKeyInfo) id ttl :
  ki_KeyID info = staticTokenKeyID ∨ ki_KeyID info = insecureKeyID →
  verifyViaProxy opts true (Some (mkKeyResponse false (Some info))) = (id, ttl, verdictAllow) →
  p_UserID (identity_Principal id) = superadminPrincipalUserID.
Proof.
  intros Hk Hv. destruct info as [key nss caps age]. simpl in Hk.
  destruct Hk as [-> | ->]; simpl in Hv; by injection Hv as <- _.
Qed.

(** ** The breaker *)

(** A verification of a credential that is not cached and not in flight, whose
    backend call fails. *)
Definition fail_once (victim : string) (now : Z) (key : string) (r : apiAuthResolver) : apiAuthResolver :=
  let '(id, ttl, v) := verifyViaProxy opts true None in
  verify_end now now victim key id ttl v (verify_begin now now 0 key r).2.

Definition idle (key : string) (r : apiAuthResolver) : Prop := entries r !! key = None ∧ inFlight r !! key = None.

Lemma fail_once_spec victim now key r :
  breakerOpenAt r = None → idle key r →
  let r' := fail_once victim now key r in
  (verify_begin now now 0 key r).1 = Lead ∧
  consecutiveErrors r' = (if (breakerThreshold <=? consecutiveErrors r + 1)%Z then 0 else consecutiveErrors r + 1)%Z ∧
  breakerOpenAt r' = (if (breakerThreshold <=? consecutiveErrors r + 1)%Z then Some now else None) ∧
  (∀ k, k ≠ key → idle k r → idle k r').
Proof.
  intros Hb [He Hf]. unfold fail_once, verify_begin, past_cache, attach_or_lead. cbn -[verify_end]. rewrite He, Hb, Hf.
  cbn [fst snd]. split; [done|]. unfold verify_end, recordProxyErrorLocked. cbn [consecutiveErrors set_inFlight].
  split; [by destruct (_ <=? _)%Z|]. split; [by destruct (_ <=? _)%Z|].
  intros k Hk [Hke Hkf]. split.
  - unfold storeLocked. destruct (breakerThreshold <=? _)%Z; cbn [entries set_entries set_streak set_inFlight].
    all: rewrite lookup_insert_ne by done; case_match; [|done].
    all: destruct (decide (victim = k)) as [->|]; [by rewrite lookup_delete_eq|by rewrite lookup_delete_ne].
  - destruct (breakerThreshold <=? _)%Z; cbn [inFlight storeLocked set_entries set_streak set_inFlight].
    all: by rewrite delete_insert_eq, lookup_delete_ne by done.
Qed.

(** Failed verifications one after the other, each with its own key and clock. *)
Definition fail_all (calls : list (string * Z * string)) (r : apiAuthResolver) : apiAuthResolver :=
  foldl (λ r '(victim, now, key), fail_once victim now key r) r calls.

Lemma fail_all_counts calls : ∀ r,
  breakerOpenAt r = None → (0 ≤ consecutiveErrors r)%Z → NoDup calls.*2 → (∀ k, k ∈ calls.*2 → idle k r) →
  (consecutiveErrors r + Z.of_nat (length calls) < breakerThreshold)%Z →
  breakerOpenAt (fail_all calls r) = None ∧
  consecutiveErrors (fail_all calls r) = (consecutiveErrors r + Z.of_nat (length calls))%Z ∧
  (∀ k, k ∉ calls.*2 → idle k r → idle k (fail_all calls r)).
Proof.
  induction calls as [|[[victim now] key] calls IH]; intros r Hb H0 Hnd Hidle Hlt; [simpl; split_and!; [done|lia|done]|].
  cbn [fail_all foldl] in *. rewrite fmap_cons, NoDup_cons in Hnd. destruct Hnd as [Hni Hnd]. cbn [length snd] in *.
  destruct (fail_once_spec victim now key r Hb (Hidle key ltac:(left))) as (_ & Hc & Hb' & Hk).
  rewrite (proj2 (Z.leb_gt _ _)) in Hc, Hb' by lia.
  destruct (IH (fail_once victim now key r)) as (H1 & H2 & H3); [done|lia|done|..|lia|].
  { intros k Hin. apply Hk; [set_solver|]. apply Hidle. by right. }
  split; [done|]. split; [unfold fail_all in H2; rewrite H2; lia|].
  intros k Hnk Hik. apply H3; [set_solver|]. apply Hk; [set_solver|done].
Qed.

(** Five failed calls lock everyone out.  Whatever made the backend call
    fail (the caller's own cancellation is not told apart from an outage), five
    uncached verifications in a row that fail open the breaker at the fifth's
    time; for the next thirty seconds every credential without a live cached
    verdict is refused as unavailable, and no backend call is made for it. *)
Theorem five_failures_lock_out calls last_victim t key r :
  breakerOpenAt r = None → consecutiveErrors r = 0%Z → length calls = 4 →
  NoDup (key :: calls.*2) → (∀ k, k ∈ key :: calls.*2 → idle k r) →
  let r' := fail_once last_victim t key (fail_all calls r) in
  breakerOpenAt r' = Some t ∧
  ∀ now later me k, (now - t < breakerCooldown)%Z →
    (∀ e, entries r' !! k = Some e → (ce_expireAt e ≤ now)%Z) →
    (verify_begin now later me k r').1 = Decided (Err errProxyUnavailable).
Proof.
  intros Hb Hz Hlen [Hni Hnd]%NoDup_cons Hidle.
  destruct (fail_all_counts calls r) as (Hb' & Hc & Hk);
    [done|by rewrite Hz|done|intros; apply Hidle; by right|rewrite Hz, Hlen; done|].
  destruct (fail_once_spec last_victim t key (fail_all calls r) Hb') as (_ & _ & Ho & _).
  { apply Hk; [done|]. apply Hidle. left. }
  rewrite Hc, Hz, Hlen in Ho. change (breakerThreshold <=? 0 + Z.of_nat 4 + 1)%Z with true in Ho.
  split; [done|]. intros now later me k Hn Hold. unfold verify_begin.
  set (r' := fail_once last_victim t key (fail_all calls r)) in *.
  assert (∀ r'', breakerOpenAt r'' = Some t → (past_cache now me k r'').1 = Decided (Err errProxyUnavailable)) as Hpast.
  { intros r'' Hr''. unfold past_cache. rewrite Hr''. by rewrite (proj2 (Z.ltb_lt _ _)). }
  destruct (entries r' !! k) as [e|] eqn:He; [|by apply Hpast].
  rewrite (proj2 (Z.ltb_ge _ _)) by by apply Hold. by apply Hpast.
Qed.

End Grants.

(** ** A key of the tenant acme *)

Definition opts0 : apiAuthOptions := mkOptions [] false 255%Z 0%Z.

Definition acme : APIKeyInfo := mkKeyInfo "k1" ["acme"; "not valid!"] ["history.read"; "no.such"] 10.

Definition allow : APIKeyResponse := mkKeyResponse false (Some acme).

Definition acme_identity : APIIdentity := fst (clampIdentity opts0 acme).

(** Two calls with one credential: the first leads from 0 on, the second arrives at
    1 and waits, the backend allows it, the second learns the result. *)
Definition asked : apiAuthResolver := (verify_begin 0 0 1 "key" newAPIAuthResolver).2.

Definition waiting : sys := mkSys asked {[ 1 := Leading "key" 0; 2 := Attached "key" 1 1 ]} 1 [].

Definition verified : sys :=
  mkSys (verify_end 0 1 "" "key" acme_identity (10 * second) verdictAllow asked)
    {[ 1 := Returned "key" 0 (Ok acme_identity); 2 := Returned "key" 1 (Ok acme_identity) ]} 1 [("key", 0%Z, 1%Z, allow)].

Lemma waiting_reachable : reachable (λ s, s) opts0 waiting.
Proof.
  assert (reachable (λ s, s) opts0 (mkSys asked {[ 1 := Leading "key" 0 ]} 0 [])) as Hlead.
  { apply (reachable_step _ _ (mkSys newAPIAuthResolver {[ 1 := Arrived "key" 0 ]} 0 [])).
    - apply (reachable_step _ _ (init 0)); [apply reachable_init|]. by apply step_arrive.
    - refine (step_begin _ _ _ _ _ _ 1 "key" 0 Lead _ _ _); reflexivity. }
  apply (reachable_step _ _ (mkSys asked {[ 1 := Leading "key" 0; 2 := Arrived "key" 1 ]} 1 [])).
  - apply (reachable_step _ _ (mkSys asked {[ 1 := Leading "key" 0 ]} 1 [])).
    + eapply reachable_step; [exact Hlead|]. apply step_tick. lia.
    + refine (step_arrive _ _ _ {[ 1 := Leading "key" 0 ]} _ _ 2 "key" _). reflexivity.
  - refine (step_begin _ _ _ {[ 1 := Leading "key" 0; 2 := Arrived "key" 1 ]} _ _ 2 "key" 1 (Attach 1) _ _ _); reflexivity.
Defined.

Lemma verified_reachable : reachable (λ s, s) opts0 verified.
Proof.
  apply (reachable_step _ _ (mkSys (s_res verified) {[ 1 := Returned "key" 0 (Ok acme_identity); 2 := Attached "key" 1 1 ]} 1
    (s_log verified))).
  - eapply reachable_step; [exact waiting_reachable|].
    refine (step_end _ _ _ _ 1 [] 1 "key" 0 "" true (Some allow) acme_identity (10 * second) verdictAllow _ _ _);
      [reflexivity|intros Hs; vm_compute in Hs; lia|vm_compute; reflexivity].
  - refine (step_join _ _ _ {[ 1 := Returned "key" 0 (Ok acme_identity); 2 := Attached "key" 1 1 ]} 1 _ 2 "key" 1 1 0
      (Ok acme_identity) _ _); reflexivity.
Defined.

Lemma cached_admission_justified_witness :
  acme_identity = mkIdentity "k1" ["acme"] CapHistoryRead ∧
  ∃ started ended ttl, granted opts0 (s_log verified) "key" started ended acme_identity ttl ∧ (ended ≤ 1)%Z ∧
    ((started ≤ ended ∧ 1 < started + ttl)%Z ∨ (1 ≤ ended)%Z) ∧
    (minCacheTTL ≤ ttl ≤ Z.max (resolver_ttl opts0) minCacheTTL)%Z.
Proof.
  split; [vm_compute; reflexivity|].
  destruct (cached_admission_justified (λ s, s) opts0 verified verified_reachable) as (_ & _ & _ & Hret).
  apply (Hret "key" 2 1%Z acme_identity). reflexivity.
Defined.

Definition wide : APIKeyInfo := mkKeyInfo "k2" ["*"; "not valid!"] [] 0.

Lemma clamp_exact_witness : "*" ∈ id_Namespaces (fst (clampIdentity opts0 wide)).
Proof.
  apply (proj1 (proj2 (clamp_exact opts0 wide))). left. split; [done|]. split; [left|].
  intros m Hm Hne. apply elem_of_cons in Hm as [->|Hm]; [done|].
  apply list_elem_of_singleton in Hm as ->. vm_compute. discriminate.
Defined.

Lemma reserved_key_id_is_admin_witness :
  p_UserID (identity_Principal (mkIdentity "insecure" ["acme"] 0%Z)) = superadminPrincipalUserID.
Proof.
  apply (reserved_key_id_is_admin opts0 (mkKeyInfo "insecure" ["acme"] [] 0) _ (30 * second));
    [by right|vm_compute; reflexivity].
Defined.

Definition spray : list (string * Z * string) := [("", 1%Z, "a"); ("", 2%Z, "b"); ("", 3%Z, "c"); ("", 4%Z, "d")].

Lemma five_failures_lock_out_witness :
  (verify_begin (20 * second) (20 * second) 7 "honest"
     (fail_once opts0 "" 5 "e" (fail_all opts0 spray newAPIAuthResolver))).1 = Decided (Err errProxyUnavailable).
Proof.
  refine (proj2 (five_failures_lock_out opts0 spray "" 5 "e" newAPIAuthResolver _ _ _ _ _) _ _ 7 "honest" _ _);
    [reflexivity|reflexivity|reflexivity|apply (bool_decide_unpack _); vm_compute; exact I
    |intros k _; split; apply lookup_empty|vm_compute; reflexivity|].
  intros e He. vm_compute in He. discriminate.
Defined.

End ServerAuth.
