(* ===== verification/Survey.v ===== *)
(** * Survey: collecting the answers of a channel's subscribers
      (internal/survey/survey.go, internal/runtime/node.go)

    One survey is written to by the reply handlers of many sessions while its
    owner waits: a reply is stored in a map under the mutex and then offered to
    a bounded channel, which the waiting goroutine drains back into the map
    until the deadline.  The steps below are those pieces, in any order. *)

From S2P Require Import Prelude.

Module Survey.

(** survey.SurveyResult before it is annotated with its node. *)
Record Response := mkResponse { rp_SessionID : string; rp_Payload : string; rp_Error : option string }.

#[export] Instance Response_eq_dec : EqDecision Response.
Proof. solve_decision. Defined.

(** [chan] is responseCh; [done] is closed at the deadline or by Close. *)
Record Survey := mkSurvey {
  expected : gset string;
  responses : gmap string Response;
  chan : list Response;
  done : bool;
}.

Definition chan_capacity : nat := 100.

Definition NewSurvey : Survey := mkSurvey ∅ ∅ [] false.

Definition AddExpectedSession (sid : string) (s : Survey) : Survey :=
  mkSurvey ({[ sid ]} ∪ expected s) (responses s) (chan s) (done s).

Definition IsExpectedSession (sid : string) (s : Survey) : bool := bool_decide (sid ∈ expected s).

Definition store (r : Response) (s : Survey) : Survey :=
  mkSurvey (expected s) (<[ rp_SessionID r := r ]> (responses s)) (chan s) (done s).

(** The select of AddResponse: the send is possible while there is room, the
    other cases drop the copy. *)
Definition offer (r : Response) (s : Survey) : Survey :=
  mkSurvey (expected s) (responses s) (chan s ++ [r]) (done s).

Definition closeDone (s : Survey) : Survey := mkSurvey (expected s) (responses s) (chan s) true.

(** One receive of Wait. *)
Definition receive (s : Survey) : option Survey :=
  match chan s with
  | [] => None
  | r :: rest => Some (store r (mkSurvey (expected s) (responses s) rest (done s)))
  end.

(** What Wait returns once [done] is closed; Results reads the same map. *)
Definition collect (s : Survey) : list Response := (map_to_list (responses s)).*2.

(** Close drains the channel. *)
Definition Close (s : Survey) : Survey := mkSurvey (expected s) (responses s) [] true.

(** ** The registry of a node (node.go) *)

Definition maxActiveSurveys : nat := 1000.

Abbreviation registry := (gmap string Survey).

Definition registerSurvey (id : string) (s : Survey) (reg : registry) : registry * bool :=
  if (maxActiveSurveys <=? base.size reg)%nat then (reg, false) else (<[ id := s ]> reg, true).

Definition unregisterSurvey (id : string) (reg : registry) : registry := delete id reg.

(** The reply of a session, if it may answer: what AddSurveyResponse hands to
    AddResponse. *)
Definition AddSurveyResponse (reg : registry) (id : string) (r : Response) : option Response :=
  match reg !! id with
  | None => None
  | Some s => if IsExpectedSession (rp_SessionID r) s then Some r else None
  end.

(** ** Interleavings *)

(** The survey, the replies stored but not yet offered, and every reply so far,
    newest first. *)
Record sys := mkSys { sv : Survey; offering : list Response; log : list Response }.

Inductive step : sys → sys → Prop :=
| step_store s p l r :
    IsExpectedSession (rp_SessionID r) s = true → step (mkSys s p l) (mkSys (store r s) (r :: p) (r :: l))
| step_offer s p1 r p2 l :
    length (chan s) < chan_capacity → step (mkSys s (p1 ++ r :: p2) l) (mkSys (offer r s) (p1 ++ p2) l)
| step_drop s p1 r p2 l :
    length (chan s) = chan_capacity ∨ done s = true → step (mkSys s (p1 ++ r :: p2) l) (mkSys s (p1 ++ p2) l)
| step_receive s s' p l : receive s = Some s' → step (mkSys s p l) (mkSys s' p l)
| step_deadline s p l : step (mkSys s p l) (mkSys (closeDone s) p l)
| step_close s p l : step (mkSys s p l) (mkSys (Close s) p l).

(** The survey is sent to the subscribers [subs]. *)
Definition sent_to (subs : list string) : Survey := foldr AddExpectedSession NewSurvey subs.

Inductive reachable (subs : list string) : sys → Prop :=
| reachable_init : reachable subs (mkSys (sent_to subs) [] [])
| reachable_step s s' : reachable subs s → step s s' → reachable subs s'.

Lemma sent_to_expected subs sid : sid ∈ expected (sent_to subs) ↔ sid ∈ subs.
Proof. induction subs as [|x subs IH]; simpl; set_solver. Qed.

(** ** What is collected *)

Record inv (subs : list string) (s : sys) : Prop := mkInv {
  inv_expected : expected (sv s) = expected (sent_to subs);
  inv_log : ∀ r, r ∈ log s → rp_SessionID r ∈ subs;
  inv_offering : ∀ r, r ∈ offering s → r ∈ log s;
  inv_chan : ∀ r, r ∈ chan (sv s) → r ∈ log s;
  inv_room : length (chan (sv s)) ≤ chan_capacity;
  inv_stored : ∀ sid r, responses (sv s) !! sid = Some r → r ∈ log s ∧ rp_SessionID r = sid;
  inv_kept : ∀ r, r ∈ log s → is_Some (responses (sv s) !! rp_SessionID r);
}.

Lemma store_lookup r s sid :
  responses (store r s) !! sid = if decide (sid = rp_SessionID r) then Some r else responses s !! sid.
Proof.
  unfold store. simpl. case_decide as Hd; [subst; apply lookup_insert_eq|by rewrite lookup_insert_ne].
Qed.

(** Storing a reply of the log keeps the map covering it. *)
Lemma store_covers (l : list Response) r s :
  (∀ q, q ∈ l → is_Some (responses s !! rp_SessionID q) ∨ q = r) →
  ∀ q, q ∈ l → is_Some (responses (store r s) !! rp_SessionID q).
Proof.
  intros Hl q Hq. rewrite store_lookup. case_decide as Hd; [by eexists|]. by destruct (Hl q Hq) as [?| ->].
Qed.

Lemma store_sound (l : list Response) r s :
  r ∈ l → (∀ sid q, responses s !! sid = Some q → q ∈ l ∧ rp_SessionID q = sid) →
  ∀ sid q, responses (store r s) !! sid = Some q → q ∈ l ∧ rp_SessionID q = sid.
Proof.
  intros Hr Hs sid q. rewrite store_lookup. case_decide as Hd; [|apply Hs]. intros Heq. by injection Heq as <-.
Qed.

Lemma survey_step_inv subs s s' : inv subs s → step s s' → inv subs s'.
Proof.
  intros [He Hl Ho Hc Hm Hs Hk] Hst. destruct Hst as [s p l r Hr|s p1 r p2 l Hlen|s p1 r p2 l _|s s' p l Hrec|s p l|s p l];
    simpl in *.
  - apply bool_decide_eq_true in Hr. rewrite He, sent_to_expected in Hr. split; simpl; try done.
    + intros q [->|Hq]%elem_of_cons; auto.
    + intros q [->|Hq]%elem_of_cons; [left|right; auto].
    + intros q Hq. right. auto.
    + apply (store_sound (r :: l)); [left|]. intros sid q Hq. destruct (Hs sid q Hq). split; [by right|done].
    + apply (store_covers (r :: l)). intros q [->|Hq]%elem_of_cons; [by right|left; auto].
  - split; simpl; try done.
    + set_solver.
    + set_solver.
    + rewrite length_app. simpl. lia.
  - split; simpl; try done. set_solver.
  - unfold receive in Hrec. destruct (chan s) as [|r rest] eqn:Hch; [done|]. injection Hrec as <-.
    split; simpl; try done.
    + set_solver.
    + simpl in Hm. lia.
    + apply (store_sound l r (mkSurvey (expected s) (responses s) rest (done s))); [apply Hc; left|done].
    + apply (store_covers l r (mkSurvey (expected s) (responses s) rest (done s))). auto.
  - by split.
  - split; simpl; try done; [set_solver|unfold chan_capacity; lia].
Qed.

Lemma survey_reachable_inv subs s : reachable subs s → inv subs s.
Proof.
  induction 1; [|by eapply survey_step_inv].
  assert (∀ subs, chan (sent_to subs) = [] ∧ responses (sent_to subs) = ∅) as Hempty by (intros l; by induction l).
  destruct (Hempty subs) as [Hc Hr]. split; simpl; try done; rewrite ?Hc, ?Hr; try set_solver. simpl. unfold chan_capacity. lia.
Qed.

(** C35: What a survey collects.  Whatever the order of replies, receives and
    the deadline: at any time the results hold exactly one response for each
    session that has replied and none for others, each is a reply that very
    session gave, and only sessions the survey was sent to have replied; a full
    or drained channel loses nothing.  A session that replied once is reported
    with that reply. *)
Theorem survey_collects subs s :
  reachable subs s →
  NoDup (rp_SessionID <$> collect (sv s)) ∧
  (∀ sid, sid ∈ (rp_SessionID <$> collect (sv s)) ↔ sid ∈ (rp_SessionID <$> log s)) ∧
  (∀ r, r ∈ collect (sv s) → r ∈ log s ∧ rp_SessionID r ∈ subs) ∧
  (∀ r, r ∈ log s → (∀ q, q ∈ log s → rp_SessionID q = rp_SessionID r → q = r) → r ∈ collect (sv s)).
Proof.
  intros [He Hl Ho Hc Hm Hs Hk]%survey_reachable_inv. unfold collect.
  assert (∀ r, r ∈ (map_to_list (responses (sv s))).*2 ↔ responses (sv s) !! rp_SessionID r = Some r) as Hin.
  { intros r. rewrite list_elem_of_fmap. split.
    - intros ([sid q] & -> & Hq%elem_of_map_to_list). simpl. by destruct (Hs sid q Hq) as [_ ->].
    - intros Hr. exists (rp_SessionID r, r). by rewrite elem_of_map_to_list. }
  split_and!.
  - assert (rp_SessionID <$> (map_to_list (responses (sv s))).*2 = (map_to_list (responses (sv s))).*1) as ->.
    { rewrite <-list_fmap_compose. apply list_fmap_ext. intros i [sid q] Hi%list_elem_of_lookup_2.
      apply elem_of_map_to_list in Hi. simpl. by apply Hs. }
    apply NoDup_fst_map_to_list.
  - intros sid. rewrite !list_elem_of_fmap. split; intros (r & -> & Hr).
    + apply Hin in Hr. exists r. split; [done|]. by apply (Hs (rp_SessionID r)).
    + destruct (Hk r Hr) as [q Hq]. destruct (Hs _ _ Hq) as [_ Heq]. exists q. split; [done|]. apply Hin. by rewrite Heq.
  - intros r Hr%Hin. destruct (Hs _ _ Hr) as [Hlog _]. split; [done|]. by apply Hl.
  - intros r Hr Honly. apply Hin. destruct (Hk r Hr) as [q Hq]. destruct (Hs _ _ Hq) as [Hql Hqs].
    by rewrite Hq, (Honly q Hql Hqs).
Qed.

Definition first_reply : Response := mkResponse "a" "first" None.
Definition second_reply : Response := mkResponse "a" "second" None.

(** An older reply can win.  The comment of Wait says later responses
    overwrite earlier ones; but a reply is offered to the channel after it was
    stored, so when a session replies twice the copies can reach the channel in
    the other order: a run, with no channel overflow, in which the second reply
    was stored last and the survey reports the first. *)
Theorem stale_reply_wins :
  ∃ s, reachable ["a"] s ∧ log s = [second_reply; first_reply] ∧ done (sv s) = true ∧
    offering s = [] ∧ chan (sv s) = [] ∧ collect (sv s) = [first_reply].
Proof.
  pose (s0 := sent_to ["a"]). pose (s1 := store second_reply (store first_reply s0)).
  pose (s2 := offer first_reply (offer second_reply s1)).
  exists (mkSys (closeDone (store first_reply (store second_reply (mkSurvey (expected s2) (responses s2) [] false)))) []
            [second_reply; first_reply]).
  split; [|vm_compute; by split_and!].
  eapply reachable_step; [eapply reachable_step; [eapply reachable_step; [eapply reachable_step;
    [eapply reachable_step; [eapply reachable_step; [eapply reachable_step; [apply reachable_init|]|]|]|]|]|]|].
  - apply (step_store s0 [] [] first_reply). reflexivity.
  - apply (step_store _ _ _ second_reply). reflexivity.
  - apply (step_offer s1 [] second_reply [first_reply]). simpl. unfold chan_capacity. lia.
  - apply (step_offer (offer second_reply s1) [] first_reply []). simpl. unfold chan_capacity. lia.
  - apply step_receive. reflexivity.
  - apply step_receive. reflexivity.
  - apply step_deadline.
Qed.

Lemma survey_collects_witness :
  ∃ s, reachable ["a"; "b"] s ∧ collect (sv s) = [first_reply] ∧ ∀ r, r ∈ collect (sv s) → r ∈ log s ∧ rp_SessionID r ∈ ["a"; "b"].
Proof.
  exists (mkSys (store first_reply (sent_to ["a"; "b"])) [first_reply] [first_reply]).
  assert (reachable ["a"; "b"] (mkSys (store first_reply (sent_to ["a"; "b"])) [first_reply] [first_reply])) as Hr.
  { eapply reachable_step; [apply reachable_init|]. apply step_store. reflexivity. }
  split; [exact Hr|]. split; [vm_compute; reflexivity|].
  exact (proj1 (proj2 (proj2 (survey_collects ["a"; "b"] _ Hr)))).
Defined.

(** ** Replies and the registry *)

Lemma registry_bounded reg id s :
  base.size reg ≤ maxActiveSurveys → base.size (registerSurvey id s reg).1 ≤ maxActiveSurveys ∧
  base.size (unregisterSurvey id reg) ≤ maxActiveSurveys.
Proof.
  intros Hr. split.
  - unfold registerSurvey. destruct (maxActiveSurveys <=? base.size reg)%nat eqn:Hb; [done|].
    apply Nat.leb_gt in Hb. cbn [fst]. rewrite map_size_insert. destruct (reg !! id); cbv [Datatypes.id]; lia.
  - unfold unregisterSurvey. rewrite map_size_delete. destruct (reg !! id); cbv [Datatypes.id]; lia.
Qed.

(** ** The result sent to the asking client (node.go, buildClientSurveyResult) *)

Definition MaxSurveyAnswerBytes : nat := 4096.
Definition MaxSurveyResultBytes : Z := 256 * 1024.

Record SurveyAnswer := mkAnswer {
  an_SessionId : string; an_Payload : option string; an_Error : option (string * string); an_UserId : option string }.

Section Build.
(** The user of a session of the local hub, and the encoded size of a result
    with these answers (the size Go uses when encoding fails is above the cap). *)
Context (user_of : string → option string) (encodedSurveyResultSize : list SurveyAnswer → Z).

Definition surveyTooLargeError (msg : string) : string * string := ("SURVEY_ANSWER_TOO_LARGE", msg).

Definition surveyAnswerFor (r : Response) : SurveyAnswer :=
  match rp_Error r with
  | Some msg => mkAnswer (rp_SessionID r) None (Some ("SURVEY_FAILED", msg)) None
  | None =>
      if (MaxSurveyAnswerBytes <? String.length (rp_Payload r))%nat
      then mkAnswer (rp_SessionID r) None (Some (surveyTooLargeError "answer exceeds size limit")) None
      else mkAnswer (rp_SessionID r) (if bool_decide (rp_Payload r = "") then None else Some (rp_Payload r)) None
             (match user_of (rp_SessionID r) with Some u => if bool_decide (u = "") then None else Some u | None => None end)
  end.

Definition stripped (a : SurveyAnswer) : SurveyAnswer :=
  mkAnswer (an_SessionId a) None
    (match an_Error a with Some e => Some e | None => Some (surveyTooLargeError "survey result exceeds size limit") end)
    (an_UserId a).

Definition build_one (out : list SurveyAnswer) (r : Response) : list SurveyAnswer :=
  let answer := surveyAnswerFor r in
  if (MaxSurveyResultBytes <? encodedSurveyResultSize (out ++ [answer]))%Z then
    if (MaxSurveyResultBytes <? encodedSurveyResultSize (out ++ [stripped answer]))%Z then out
    else out ++ [stripped answer]
  else out ++ [answer].

Definition buildClientSurveyResult (results : list Response) : list SurveyAnswer := foldl build_one [] results.

(** An answer of one result: the payload unchanged, or an error in its place. *)
Definition answers (r : Response) (a : SurveyAnswer) : Prop :=
  an_SessionId a = rp_SessionID r ∧
  match an_Payload a with
  | Some p => p = rp_Payload r ∧ String.length p ≤ MaxSurveyAnswerBytes ∧ an_Error a = None ∧ rp_Error r = None
  | None => an_Error a = None → rp_Payload r = "" ∧ rp_Error r = None
  end.

Lemma surveyAnswerFor_answers r : answers r (surveyAnswerFor r) ∧ answers r (stripped (surveyAnswerFor r)).
Proof.
  unfold surveyAnswerFor. destruct (rp_Error r) eqn:He; [by split|].
  destruct (_ <? _)%nat eqn:Hl; [by split|]. apply Nat.ltb_ge in Hl. unfold answers. simpl.
  case_bool_decide; naive_solver.
Qed.

Lemma build_one_cases out r :
  build_one out r = out ∨
  ∃ a, build_one out r = out ++ [a] ∧ answers r a ∧ (encodedSurveyResultSize (out ++ [a]) ≤ MaxSurveyResultBytes)%Z.
Proof.
  unfold build_one. cbv zeta. destruct (surveyAnswerFor_answers r) as [Ha Hs].
  destruct (MaxSurveyResultBytes <? encodedSurveyResultSize (out ++ [surveyAnswerFor r]))%Z eqn:H1.
  - destruct (MaxSurveyResultBytes <? encodedSurveyResultSize (out ++ [stripped (surveyAnswerFor r)]))%Z eqn:H2; [by left|right]. apply Z.ltb_ge in H2. eexists. split; [done|]. by split.
  - apply Z.ltb_ge in H1. right. eexists. split; [done|]. by split.
Qed.

(** The survey result a client gets is bounded and honest.  If the empty
    result fits the 256 KiB cap, so does the result that is sent; its answers
    are, in order, answers of a subsequence of the collected results, each with
    its payload unchanged and at most 4 KiB, or with an error in its place. *)
Theorem survey_result_bounded (results : list Response) :
  (encodedSurveyResultSize [] ≤ MaxSurveyResultBytes)%Z →
  (encodedSurveyResultSize (buildClientSurveyResult results) ≤ MaxSurveyResultBytes)%Z ∧
  ∃ kept, kept `sublist_of` results ∧ Forall2 answers kept (buildClientSurveyResult results).
Proof.
  intros Hempty. unfold buildClientSurveyResult.
  assert (∀ results seen kept out, (encodedSurveyResultSize out ≤ MaxSurveyResultBytes)%Z →
    kept `sublist_of` seen → Forall2 answers kept out →
    (encodedSurveyResultSize (foldl build_one out results) ≤ MaxSurveyResultBytes)%Z ∧
    ∃ kept', kept' `sublist_of` (seen ++ results) ∧ Forall2 answers kept' (foldl build_one out results)) as Hgen.
  { clear results. intros results. induction results as [|r results IH]; intros seen kept out Hsz Hsub Hall; cbn [foldl].
    { split; [done|]. exists kept. by rewrite app_nil_r. }
    rewrite cons_middle, app_assoc. destruct (build_one_cases out r) as [-> | (a & -> & Ha & Hs)].
    - apply (IH (seen ++ [r]) kept); [done|by apply sublist_inserts_r|done].
    - apply (IH (seen ++ [r]) (kept ++ [r])); [done|apply sublist_app; [done|reflexivity]|].
      apply Forall2_app; [done|]. by constructor. }
  apply (Hgen results [] [] []); [done|done|constructor].
Qed.

End Build.

Lemma survey_result_bounded_witness :
  (Z.of_nat (length (buildClientSurveyResult (λ _, None) (λ l, Z.of_nat (length l)) [first_reply])) ≤ MaxSurveyResultBytes)%Z.
Proof.
  refine (proj1 (survey_result_bounded (λ _, None) (λ l, Z.of_nat (length l)) [first_reply] _)). vm_compute. discriminate.
Defined.

End Survey.
