(* ===== verification/Occupancy.v ===== *)
(** * Occupancy: presence records and occupancy events
      (internal/occupancy, internal/runtime/node.go)

    A session that subscribes to a tracked channel is recorded in the presence
    store and announced to the channel's other subscribers.  Each announcement
    takes the next generation of its channel and travels over the live bus; a
    receiver drops what is not newer than the last event it applied for the
    same channel and session.  The presence store is an interface, as in the
    code: [PresenceStore] are its methods, [PresenceStoreLaws] what a store that
    does not fail promises, and the in-memory store is an instance of both. *)

From stdpp Require Import sorting.
From S2P Require Import Prelude Topics Matcher CSTrie Interest Policy Authz Stream MemoryBroker.
From S2P Require Import HubSubs Effect Handlers ServerApi.
Import Topics Matcher.

Module Occupancy.

Abbreviation SessRef := HubSubs.SessRef.
Abbreviation sr_sid := HubSubs.sr_sid.
Abbreviation PresenceInfo := ServerApi.PresenceInfo.
Abbreviation registry := (gmap (string * string) HubSubs.Subscriber).
Abbreviation Member := Handlers.PresenceMember.

(** ** The presence store *)

(** [false] is an error.  A store without NextOccupancyGen is not an
    OccupancyGenSource. *)
Class PresenceStore (P : Type) := {
  ps_Add : string → PresenceInfo → P → bool * P;
  ps_Remove : string → string → P → bool * P;
  ps_Get : string → P → option (gmap string PresenceInfo);
  ps_NextOccupancyGen : option (string → P → option Z * P);
}.

(** A store that does not fail: [ps_members] is what it holds for a channel,
    [ps_last] the last generation it issued. *)
Class PresenceStoreLaws (P : Type) `{PresenceStore P} := {
  ps_members : P → string → gmap string PresenceInfo;
  ps_last : P → string → Z;
  ps_Add_ok ch i p : ∃ p', ps_Add ch i p = (true, p') ∧
    (∀ x, ps_members p' x =
       if decide (x = ch) then <[ ServerApi.pi_ClientID i := i ]> (ps_members p ch) else ps_members p x) ∧
    (∀ x, ps_last p' x = ps_last p x);
  ps_Remove_ok ch sid p : ∃ p', ps_Remove ch sid p = (true, p') ∧
    (∀ x, ps_members p' x = if decide (x = ch) then delete sid (ps_members p ch) else ps_members p x) ∧
    (∀ x, ps_last p' x = ps_last p x);
  ps_Get_ok ch p : ps_Get ch p = Some (ps_members p ch);
  ps_gen_ok f ch p : ps_NextOccupancyGen = Some f → (0 ≤ ps_last p ch < u64_modulus - 1)%Z →
    ∃ p', f ch p = (Some (ps_last p ch + 1)%Z, p') ∧
      (∀ x, ps_members p' x = ps_members p x) ∧
      (∀ x, ps_last p' x = if decide (x = ch) then ps_last p ch + 1 else ps_last p x)%Z;
}.

(** memoryPresenceStore. *)
Record memoryPresenceStore := mkMemory {
  mp_data : gmap string (gmap string PresenceInfo);
  mp_gens : gmap string Z;
}.

Definition NewMemoryPresenceStore : memoryPresenceStore := mkMemory ∅ ∅.

Definition Add (ch : string) (info : PresenceInfo) (s : memoryPresenceStore) : bool * memoryPresenceStore :=
  (true, mkMemory (<[ ch := <[ ServerApi.pi_ClientID info := info ]> (default ∅ (mp_data s !! ch)) ]> (mp_data s))
           (mp_gens s)).

Definition Remove (ch clientID : string) (s : memoryPresenceStore) : bool * memoryPresenceStore :=
  match mp_data s !! ch with
  | None => (true, s)
  | Some clients =>
    let clients := delete clientID clients in
    (true, mkMemory (if bool_decide (base.size clients = 0) then delete ch (mp_data s)
                     else <[ ch := clients ]> (mp_data s)) (mp_gens s))
  end.

Definition Get (ch : string) (s : memoryPresenceStore) : option (gmap string PresenceInfo) :=
  Some (default ∅ (mp_data s !! ch)).

Definition NextOccupancyGen (ch : string) (s : memoryPresenceStore) : option Z * memoryPresenceStore :=
  let g := u64 (default 0%Z (mp_gens s !! ch) + 1) in
  (Some g, mkMemory (mp_data s) (<[ ch := g ]> (mp_gens s))).

#[export] Instance memory_store : PresenceStore memoryPresenceStore := {
  ps_Add := Add; ps_Remove := Remove; ps_Get := Get; ps_NextOccupancyGen := Some NextOccupancyGen }.

(** ** Events *)

Inductive PresenceAction := PresenceActionJoin | PresenceActionLeave.

(** clientpb.PresenceEvent; a nil info has the empty session ID. *)
Record PresenceEvent := mkEvent {
  pe_Channel : string; pe_Action : PresenceAction; pe_Info : option Member; pe_Gen : Z }.

Record OccupancyEvent := mkOccupancy { oe_Event : option PresenceEvent; oe_Gen : Z }.

#[export] Instance Member_eq_dec : EqDecision Member.
Proof. solve_decision. Defined.
#[export] Instance PresenceAction_eq_dec : EqDecision PresenceAction.
Proof. solve_decision. Defined.
#[export] Instance PresenceEvent_eq_dec : EqDecision PresenceEvent.
Proof. solve_decision. Defined.
#[export] Instance OccupancyEvent_eq_dec : EqDecision OccupancyEvent.
Proof. solve_decision. Defined.

(** The getters of a session that the announcements use. *)
Record Client := mkClient {
  cl_ref : SessRef; cl_UserID : string; cl_ClientID : string; cl_ConnectedAt : Z }.

Definition cl_SessionID (c : Client) : string := sr_sid (cl_ref c).

(** What a call sends: presence events to sessions, and the goroutines that
    publish on the legacy companion channel. *)
Inductive emission :=
| ToSession (r : SessRef) (e : PresenceEvent)
| Companion (a : PresenceAction) (channel clientID userID : string).

Definition GetSessionId (i : option Member) : string := from_option Handlers.pm_SessionId "" i.

(** ** The legacy companion channel *)

Definition presenceChannel (ch : string) : string := ch +:+ "/__presence".

(** occupancy.PresenceEvent, the JSON envelope of the companion channel. *)
Record LegacyEvent := mkLegacy {
  lg_Type : string; lg_Action : PresenceAction; lg_Channel : string; lg_ClientID : string; lg_UserID : string;
  lg_Timestamp : Z }.

Definition NewPresenceEvent (a : PresenceAction) (channel clientID userID : string) (now : Z) : LegacyEvent :=
  mkLegacy "presence" a channel clientID userID now.

(** publishPresenceJoin and publishPresenceLeave, which differ in the action;
    [marshal] is json.Marshal.  Errors are logged. *)
Definition publishPresence {MB} `{Matcher string MB} (marshal : LegacyEvent → option string)
    (a : PresenceAction) (channel clientID userID : string) (now : Z) (b : MemoryBroker.memoryBroker (M:=MB))
    : option (MemoryBroker.memoryBroker (M:=MB)) :=
  match marshal (NewPresenceEvent a channel clientID userID now) with
  | None => Some b
  | Some data =>
    snd <$> MemoryBroker.PublishTransient b (presenceChannel channel)
      (Stream.mkPub "" data Stream.PayloadKindText "" "" ∅ 0 0 0 "" 0 0) now
  end.

Section Node.
Context {M MB P : Type} `{Matcher HubSubs.Subscriber M} `{Matcher string MB} `{PresenceStore P}.

Record Node := mkNode {
  o_presence : P;
  o_lastApplied : gmap string (gmap string Z);
  o_occGens : gmap string Z;
  o_hub : HubSubs.HubSubs (M:=M);
  o_sessions : gmap string Client;                     (* hub.LookupSession *)
  o_broker : MemoryBroker.memoryBroker (M:=MB);
  o_handler : bool;                                    (* SetOccupancyHandler was called *)
  o_authorizer : Authz.Authorizer;
}.

Definition set_presence (n : Node) p := mkNode p (o_lastApplied n) (o_occGens n) (o_hub n) (o_sessions n)
  (o_broker n) (o_handler n) (o_authorizer n).
Definition set_lastApplied (n : Node) l := mkNode (o_presence n) l (o_occGens n) (o_hub n) (o_sessions n)
  (o_broker n) (o_handler n) (o_authorizer n).
Definition set_occGens (n : Node) g := mkNode (o_presence n) (o_lastApplied n) g (o_hub n) (o_sessions n)
  (o_broker n) (o_handler n) (o_authorizer n).

Definition ChannelPolicy (n : Node) (ch : string) : Policy.ChannelPolicy := Authz.Effects (o_authorizer n) ch.

Definition SetPresenceForSession (ch : string) (c : Client) (n : Node) : Node :=
  set_presence n (ps_Add ch (ServerApi.mkInfo (cl_SessionID c) (cl_SessionID c) (cl_ClientID c) (cl_UserID c)
    (cl_ConnectedAt c)) (o_presence n)).2.

Definition shouldTrackPresence (n : Node) (ch : string) (ephemeral : bool) : bool :=
  negb ephemeral && negb (IsWildcard ch) && Policy.Presence (ChannelPolicy n ch).

(** ** Receiving *)

Definition by_sid (a b : SessRef * bool) : Prop := Handlers.str_le (sr_sid a.1) (sr_sid b.1).
#[local] Instance by_sid_dec a b : base.Decision (by_sid a b) := decide (Handlers.str_le _ _).

(** The slice PresenceRecipients returns, sorted by session ID. *)
Definition recipients (pr : gmap string (SessRef * bool)) : list (SessRef * bool) :=
  merge_sort by_sid (map_to_list pr).*2.

(** [None]: the hub lookup panicked.  Up to eight recipients are served in
    order, more of them by concurrent goroutines that are all awaited. *)
Definition deliverPresenceEvent (n : Node) (ch : string) (evt : PresenceEvent) (gen : Z) (exclude : string)
    : option (list emission) :=
  pr ← HubSubs.PresenceRecipients (o_hub n) ch;
  let evt := mkEvent (pe_Channel evt) (pe_Action evt) (pe_Info evt) gen in
  Some ((λ r : SessRef * bool, ToSession r.1 evt) <$>
        filter (λ r : SessRef * bool, ¬ (r.2 = true ∨ sr_sid r.1 = exclude)) (recipients pr)).

(** What became of a received event; [Applied None] is a delivery that
    panicked, which the bus recovers from. *)
Inductive outcome := Invalid | Late | Applied (out : option (list emission)).

Definition applied_gen (n : Node) (ch sid : string) : option Z := o_lastApplied n !! ch ≫= (.!! sid).

Definition onOccupancy (ch : string) (evt : OccupancyEvent) (n : Node) : outcome * Node :=
  match oe_Event evt with
  | None => (Invalid, n)
  | Some e =>
    if bool_decide (oe_Gen evt = 0%Z) then (Invalid, n) else
    let sid := GetSessionId (pe_Info e) in
    if bool_decide (sid = "") then (Invalid, n) else
    let e := mkEvent ch (pe_Action e) (pe_Info e) (pe_Gen e) in
    let bySession := default ∅ (o_lastApplied n !! ch) in
    if match bySession !! sid with Some last => (oe_Gen evt <=? last)%Z | None => false end then (Late, n) else
    let n' := set_lastApplied n (<[ ch := <[ sid := oe_Gen evt ]> bySession ]> (o_lastApplied n)) in
    (Applied (deliverPresenceEvent n' ch e (oe_Gen evt) sid), n')
  end.

(** ** Announcing *)

Definition nextOccupancyGen (ch : string) (n : Node) : Z * Node :=
  match ps_NextOccupancyGen with
  | Some next => let '(g, p) := next ch (o_presence n) in (default 0%Z g, set_presence n p)
  | None =>
    let g := u64 (default 0%Z (o_occGens n !! ch) + 1) in
    (g, set_occGens n (<[ ch := g ]> (o_occGens n)))
  end.

(** With the memory broker the node's own handler runs inside the call; an
    error of the broker is logged.  [None]: the interest lookup panicked. *)
Definition publishOccupancy (ch : string) (evt : PresenceEvent) (n : Node) : option (list emission * Node) :=
  let '(gen, n) := nextOccupancyGen ch n in
  if bool_decide (gen = 0%Z) then Some ([], n) else
  r ← MemoryBroker.PublishOccupancy (o_broker n) (o_handler n) ch;
  match r with
  | Ok true =>
    let '(out, n) := onOccupancy ch (mkOccupancy (Some evt) gen) n in
    Some (match out with Applied (Some l) => l | _ => [] end, n)
  | _ => Some ([], n)
  end.

Definition companion (n : Node) (a : PresenceAction) (ch sid uid : string) : list emission :=
  if Policy.LegacyPresenceChannel (ChannelPolicy n ch) then [Companion a ch sid uid] else [].

Definition presenceJoin (ch : string) (c : option Client) (n : Node) : option (list emission * Node) :=
  match c with
  | None => Some ([], n)
  | Some c =>
    let ephemeral := from_option HubSubs.sb_Ephemeral false (HubSubs.LookupSubscriber (o_hub n) ch (cl_ref c)) in
    if negb (shouldTrackPresence n ch ephemeral) then Some ([], n) else
    let n := SetPresenceForSession ch c n in
    '(out, n) ← publishOccupancy ch (mkEvent ch PresenceActionJoin
      (Some (Handlers.mkMember (cl_SessionID c) (cl_UserID c) (cl_ClientID c) (cl_ConnectedAt c))) 0) n;
    Some (out ++ companion n PresenceActionJoin ch (cl_SessionID c) (cl_UserID c), n)
  end.

Definition leave_info (n : Node) (sessionID userID : string) : Member :=
  match o_sessions n !! sessionID with
  | Some s => Handlers.mkMember sessionID userID (cl_ClientID s) (cl_ConnectedAt s)
  | None => Handlers.mkMember sessionID userID "" 0
  end.

Definition presenceLeave (ch sessionID userID : string) (ephemeral : bool) (n : Node)
    : option (list emission * Node) :=
  if negb (shouldTrackPresence n ch ephemeral) then Some ([], n) else
  let n := set_presence n (ps_Remove ch sessionID (o_presence n)).2 in
  '(out, n) ← publishOccupancy ch
     (mkEvent ch PresenceActionLeave (Some (leave_info n sessionID userID)) 0) n;
  Some (out ++ companion n PresenceActionLeave ch sessionID userID, n).

(** Called by a store that found a member whose record has expired. *)
Definition onSyntheticLeave (ch sessionID : string) (n : Node) : option (list emission * Node) :=
  if bool_decide (sessionID = "") then Some ([], n) else
  publishOccupancy ch (mkEvent ch PresenceActionLeave (Some (Handlers.mkMember sessionID "" "" 0)) 0) n.

(** ** Snapshots *)

Definition i32 (z : Z) : Z := ((z + 2 ^ 31) mod 2 ^ 32 - 2 ^ 31)%Z.

Definition by_session (a b : Member) : Prop := Handlers.str_le (Handlers.pm_SessionId a) (Handlers.pm_SessionId b).
#[local] Instance by_session_dec a b : base.Decision (by_session a b) := decide (Handlers.str_le _ _).

Definition presenceSnapshot (n : Node) (ch : string) : Handlers.PresenceSnapshot :=
  let limit := ServerApi.node_PresenceSnapshotLimit (o_authorizer n) ch in
  match ps_Get ch (o_presence n) with
  | None => Handlers.mkPresence ch [] false 0
  | Some clients =>
    let infos := merge_sort by_session (ServerApi.presence_member <$> (map_to_list clients).*2) in
    let occupancy := i32 (Z.of_nat (length infos)) in
    if (limit <? Z.of_nat (length infos))%Z
    then Handlers.mkPresence ch (take (Z.to_nat limit) infos) true occupancy
    else Handlers.mkPresence ch infos false occupancy
  end.

(** ** Gap notices *)

Record CatchUpGap := mkGap { gp_Channel : string; gp_Reason : Stream.HistoryGapReason; gp_LastGoodOffset : Z }.

(** The values of the wire's GapReason that a notice carries. *)
Inductive NoticeReason := GAP_REASON_UNSPECIFIED | GAP_REASON_MIDDLE | GAP_REASON_REPLAY_TRUNCATED.

Record GapNotice := mkNotice {
  gn_Channel : string; gn_Position : string * option Z; gn_GapReason : NoticeReason }.

Definition gapNoticeReasonV2 (reason : Stream.HistoryGapReason) : NoticeReason :=
  match reason with
  | Stream.HistoryGapMiddle => GAP_REASON_MIDDLE
  | Stream.HistoryGapReplayTruncated => GAP_REASON_REPLAY_TRUNCATED
  | _ => GAP_REASON_UNSPECIFIED
  end.

(** The sends of one catch-up gap, in session order. *)
Definition onGap (n : Node) (gap : CatchUpGap) : option (list (SessRef * GapNotice)) :=
  m ← HubSubs.mergeMatchingSubscribers (o_hub n) (gp_Channel gap);
  let notice := mkNotice (gp_Channel gap)
    (HubSubs.PositionFrom (MemoryBroker.b_epoch (o_broker n)) (gp_LastGoodOffset gap) (0 <? gp_LastGoodOffset gap)%Z)
    (gapNoticeReasonV2 (gp_Reason gap)) in
  Some ((λ r : SessRef * bool, (r.1, notice)) <$> recipients ((λ c, (c, false)) <$> m)).

End Node.
#[global] Arguments Node : clear implicits.

(** ** The memory store keeps its promises *)

#[export] Program Instance memory_store_laws : PresenceStoreLaws memoryPresenceStore := {
  ps_members s ch := default ∅ (mp_data s !! ch);
  ps_last s ch := default 0%Z (mp_gens s !! ch);
}.
Next Obligation.
  intros ch i s. eexists. split; [reflexivity|]. split; [|done]. intros x. simpl. rewrite lookup_insert.
  repeat case_decide; naive_solver.
Qed.
Next Obligation.
  intros ch sid s. unfold ps_Remove, memory_store, Remove.
  destruct (mp_data s !! ch) as [clients|] eqn:Hd; (eexists; split; [reflexivity|]; split; [|done]);
    intros x; simpl; [|case_decide; subst; by rewrite ?Hd, ?delete_empty].
  case_bool_decide as Hz.
  - rewrite lookup_delete. repeat case_decide; subst; try done. symmetry. by apply map_size_empty_inv.
  - rewrite lookup_insert. repeat case_decide; naive_solver.
Qed.
Next Obligation. done. Qed.
Next Obligation.
  intros f ch s [= <-] Hr. simpl in Hr. unfold NextOccupancyGen.
  rewrite u64_small by (unfold is_u64; lia). eexists. split; [reflexivity|].
  split; [done|]. intros x. simpl. rewrite lookup_insert. repeat case_decide; naive_solver.
Qed.

(** The memory store holds no empty channel. *)
Definition store_wf (s : memoryPresenceStore) : Prop := map_Forall (λ _ m, m ≠ ∅) (mp_data s).

Lemma store_wf_preserved ch i sid s :
  store_wf s → store_wf (Add ch i s).2 ∧ store_wf (Remove ch sid s).2 ∧ store_wf (NextOccupancyGen ch s).2.
Proof.
  intros Hwf. split_and!; [|unfold Remove|done].
  - apply map_Forall_insert_2; [apply insert_non_empty|done].
  - destruct (mp_data s !! ch) as [m|] eqn:Hm; [|done]. simpl. case_bool_decide as Hz.
    + by apply map_Forall_delete.
    + apply map_Forall_insert_2; [|done]. intros He. apply Hz. by rewrite He.
Qed.

(** ** Receiving in any order *)

Section Converge.
Context {M MB P : Type} `{Matcher HubSubs.Subscriber M} `{Matcher string MB} `{PresenceStore P}.
Implicit Types (n : Node M MB P) (x : string * OccupancyEvent) (k : string * string).

Definition gen_of (x : string * OccupancyEvent) : Z := oe_Gen x.2.

(** The channel and the session an event is about, unless it is invalid. *)
Definition evt_key (x : string * OccupancyEvent) : option (string * string) :=
  match oe_Event x.2 with
  | None => None
  | Some e =>
    if bool_decide (oe_Gen x.2 = 0%Z) || bool_decide (GetSessionId (pe_Info e) = "") then None
    else Some (x.1, GetSessionId (pe_Info e))
  end.

Abbreviation about k := (λ y : string * OccupancyEvent, evt_key y = Some k).

(** Events received one after the other: those that were applied, in order. *)
Fixpoint receive (evs : list (string * OccupancyEvent)) (n : Node M MB P)
    : list (string * OccupancyEvent) * Node M MB P :=
  match evs with
  | [] => ([], n)
  | x :: evs =>
    let '(o, n) := onOccupancy x.1 x.2 n in
    let '(l, n) := receive evs n in
    (match o with Applied _ => x :: l | _ => l end, n)
  end.

(** Later than what was applied before. *)
Definition newer (g : Z) (last : option Z) : bool := match last with Some l => (l <? g)%Z | None => true end.

Lemma onOccupancy_spec x n :
  match evt_key x with
  | None => onOccupancy x.1 x.2 n = (Invalid, n)
  | Some (ch, sid) =>
    if newer (gen_of x) (applied_gen n ch sid) then
      ∃ out n', onOccupancy x.1 x.2 n = (Applied out, n') ∧
        ∀ ch' sid', applied_gen n' ch' sid' =
          if decide ((ch', sid') = (ch, sid)) then Some (gen_of x) else applied_gen n ch' sid'
    else onOccupancy x.1 x.2 n = (Late, n)
  end.
Proof.
  destruct x as [ch [[e|] g]]; unfold evt_key, onOccupancy, gen_of; cbn [oe_Event oe_Gen fst snd]; [|done].
  case_bool_decide as Hg; [done|]. case_bool_decide as Hs; [done|]. cbn [orb].
  set (sid := GetSessionId _) in *.
  assert (applied_gen n ch sid = default ∅ (o_lastApplied n !! ch) !! sid) as ->.
  { unfold applied_gen. by destruct (o_lastApplied n !! ch). }
  assert (∀ o : option Z, newer g o = negb match o with Some l => (g <=? l)%Z | None => false end) as ->.
  { intros [l|]; simpl; [|done]. destruct (Z.ltb_spec l g), (Z.leb_spec g l); simpl; (lia || done). }
  destruct (match _ !! sid with Some _ => _ | None => _ end); cbn [negb]; [done|].
  do 2 eexists. split; [reflexivity|]. intros ch' sid'. unfold applied_gen. simpl. rewrite lookup_insert.
  destruct (decide (ch = ch')) as [<-|Hc]; simpl; [|case_decide; naive_solver].
  rewrite lookup_insert. repeat case_decide; try naive_solver.
  by destruct (o_lastApplied n !! ch).
Qed.

Lemma receive_cons x evs n :
  ∃ n1, receive (x :: evs) n =
    (match onOccupancy x.1 x.2 n with (Applied _, _) => [x] | _ => [] end ++ (receive evs n1).1, (receive evs n1).2) ∧
  n1 = (onOccupancy x.1 x.2 n).2.
Proof.
  simpl. destruct (onOccupancy _ _ _) as [o n1]. exists n1. split; [|done].
  destruct (receive evs n1), o; done.
Qed.

(** What was applied for one channel and session: ever newer events, the
    newest of all that arrived among them. *)
Lemma receive_spec ch sid evs : ∀ n,
  let l := filter (about (ch, sid)) (receive evs n).1 in
  let last_gen := applied_gen (receive evs n).2 ch sid in
  StronglySorted Z.lt (gen_of <$> l) ∧
  (∀ x, x ∈ l → x ∈ evs ∧ newer (gen_of x) (applied_gen n ch sid) = true) ∧
  last_gen = match last l with Some x => Some (gen_of x) | None => applied_gen n ch sid end ∧
  (∀ x, x ∈ evs → evt_key x = Some (ch, sid) → newer (gen_of x) last_gen = false).
Proof.
  induction evs as [|x evs IH]; intros n; cbn zeta.
  { simpl. split_and!; [constructor|set_solver|done|set_solver]. }
  destruct (receive_cons x evs n) as (n1 & -> & Hn1). cbn [fst snd].
  specialize (IH n1). cbn zeta in IH. destruct IH as (Hs & Hin & Hl & Hmax).
  set (l := filter _ (receive evs n1).1) in *. set (lg := applied_gen (receive evs n1).2 ch sid) in *.
  pose proof (onOccupancy_spec x n) as Hx. rewrite filter_app. fold l.
  destruct (evt_key x) as [[ch' sid']|] eqn:Hk; last first.
  { rewrite Hx in Hn1 |- *. simpl in *. subst n1. split_and!; [done| |done|].
    - intros y Hy. apply Hin in Hy. split; [set_solver|naive_solver].
    - intros y [->|Hy]%elem_of_cons Hky; [congruence|eauto]. }
  destruct (newer (gen_of x) (applied_gen n ch' sid')) eqn:Hnew; last first.
  { rewrite Hx in Hn1 |- *. simpl in *. subst n1. split_and!; [done| |done|].
    - intros y Hy. apply Hin in Hy. split; [set_solver|naive_solver].
    - intros y [->|Hy]%elem_of_cons Hky; [|eauto]. rewrite Hk in Hky. simplify_eq.
      rewrite Hl. destruct (last l) as [z|] eqn:Hz; [|done].
      apply last_Some_elem_of, Hin in Hz as [_ Hz].
      destruct (applied_gen n ch sid) as [g|]; [|done]. simpl in *. apply Z.ltb_ge in Hnew. apply Z.ltb_lt in Hz.
      apply Z.ltb_ge. lia. }
  destruct Hx as (out & n2 & Hx & Hag). rewrite Hx in Hn1 |- *. simpl in Hn1. subst n2.
  rewrite (Hag ch sid) in Hl, Hin. case_decide as Hd.
  - injection Hd as <- <-. rewrite filter_cons_True by done. rewrite filter_nil. cbn [app]. split_and!.
    + simpl. constructor; [done|]. apply Forall_fmap, Forall_forall. intros y Hy. apply Hin in Hy as [_ Hy].
      by apply Z.ltb_lt in Hy.
    + intros y [->|Hy]%elem_of_cons; [split; [set_solver|done]|]. apply Hin in Hy as [Hy Hyn].
      split; [set_solver|]. destruct (applied_gen n ch sid); [|done]. simpl in *.
      apply Z.ltb_lt in Hyn, Hnew. apply Z.ltb_lt. lia.
    + rewrite last_cons, Hl. by destruct (last l).
    + intros y [->|Hy]%elem_of_cons Hky; [|eauto]. rewrite Hl.
      destruct (last l) as [z|] eqn:Hz; simpl; [|apply Z.ltb_irrefl].
      apply last_Some_elem_of, Hin in Hz as [_ Hz]. simpl in Hz. apply Z.ltb_lt in Hz. apply Z.ltb_ge. lia.
  - rewrite filter_cons_False by congruence. rewrite filter_nil. cbn [app]. split_and!; [done| |done|].
    + intros y Hy. apply Hin in Hy. split; [set_solver|naive_solver].
    + intros y [->|Hy]%elem_of_cons Hky; [congruence|eauto].
Qed.

Lemma applied_last ch sid evs n :
  o_lastApplied n = ∅ →
  let l := filter (about (ch, sid)) (receive evs n).1 in
  match last l with
  | Some x => x ∈ evs ∧ evt_key x = Some (ch, sid) ∧
      ∀ y, y ∈ evs → evt_key y = Some (ch, sid) → (gen_of y ≤ gen_of x)%Z
  | None => ∀ y, y ∈ evs → evt_key y ≠ Some (ch, sid)
  end.
Proof.
  intros Hf. destruct (receive_spec ch sid evs n) as (_ & Hin & Hl & Hmax). cbn zeta in *.
  assert (applied_gen n ch sid = None) as Hn by (unfold applied_gen; by rewrite Hf).
  set (l := filter _ _) in *. destruct (last l) as [x|] eqn:Hlast.
  - apply last_Some_elem_of in Hlast. destruct (Hin x Hlast) as [Hx _].
    apply list_elem_of_filter in Hlast as [Hk _]. split_and!; [done..|]. intros y Hy Hky.
    specialize (Hmax y Hy Hky). rewrite Hl in Hmax. by apply Z.ltb_ge in Hmax.
  - intros y Hy Hky. specialize (Hmax y Hy Hky). by rewrite Hl, Hn in Hmax.
Qed.

(** C33: occupancy converges.  Two nodes receive the same occupancy events,
    each in its own order and any number of times.  For every channel and
    session each of them announces ever newer generations, and both end on the
    same event, the newest one: neither a reordered bus nor a replay makes a
    session that left appear present, or the reverse. *)
Theorem occupancy_converges ch sid evs evs' n n' :
  o_lastApplied n = ∅ → o_lastApplied n' = ∅ →
  (∀ x, x ∈ evs ↔ x ∈ evs') →
  (∀ x y, x ∈ evs → y ∈ evs → evt_key x = evt_key y → gen_of x = gen_of y → x = y) →
  let l := filter (about (ch, sid)) (receive evs n).1 in
  let l' := filter (about (ch, sid)) (receive evs' n').1 in
  StronglySorted Z.lt (gen_of <$> l) ∧ StronglySorted Z.lt (gen_of <$> l') ∧
  last l = last l' ∧
  applied_gen (receive evs n).2 ch sid = applied_gen (receive evs' n').2 ch sid ∧
  (∀ x, x ∈ evs → evt_key x = Some (ch, sid) → ∃ y, last l = Some y ∧ (gen_of x ≤ gen_of y)%Z).
Proof.
  intros Hf Hf' Heq Hinj. cbn zeta.
  destruct (receive_spec ch sid evs n) as (Hs & _ & Hl & _).
  destruct (receive_spec ch sid evs' n') as (Hs' & _ & Hl' & _). cbn zeta in *.
  assert (∀ m : Node M MB P, o_lastApplied m = ∅ → applied_gen m ch sid = None) as Hnone.
  { intros m Hm. unfold applied_gen. by rewrite Hm. }
  pose proof (applied_last ch sid evs n Hf) as Ha. pose proof (applied_last ch sid evs' n' Hf') as Ha'.
  cbn zeta in Ha, Ha'. set (l := filter _ (receive evs n).1) in *. set (l' := filter _ (receive evs' n').1) in *.
  assert (last l = last l') as Hlast.
  { destruct (last l) as [x|], (last l') as [y|]; [|naive_solver..].
    destruct Ha as (Hx & Hkx & Hmx), Ha' as (Hy & Hky & Hmy). f_equal.
    apply Hinj; [done|by apply Heq|congruence|]. apply Z.le_antisymm; [apply Hmy|apply Hmx]; naive_solver. }
  split_and!; [done..| |].
  - rewrite Hl, Hl', Hlast. destruct (last l'); [done|]. by rewrite !Hnone.
  - intros x Hx Hkx. destruct (last l) as [y|]; [|by apply Ha in Hkx]. naive_solver.
Qed.

End Converge.

(** ** One node *)

#[local] Existing Instances HubSubs.Subscriber_eq_dec HubSubs.Subscriber_countable.

Section Local.
Context {M MB P : Type} `{Matcher HubSubs.Subscriber M, !MatcherLaws trailing_wildcard HubSubs.Subscriber M}
  `{Matcher string MB} `{PresenceStoreLaws P}.
Implicit Types (n : Node M MB P) (r : registry).

(** The last generation issued for a channel. *)
Definition node_last (n : Node M MB P) (ch : string) : Z :=
  match ps_NextOccupancyGen with
  | Some _ => ps_last (o_presence n) ch
  | None => default 0%Z (o_occGens n !! ch)
  end.

(** No applied event is newer than the generations issued so far. *)
Record occ_inv (n : Node M MB P) : Prop := {
  oi_last : ∀ ch, (0 ≤ node_last n ch)%Z;
  oi_applied : ∀ ch sid g, applied_gen n ch sid = Some g → (g ≤ node_last n ch)%Z;
}.

(** The parts of the node that presence does not touch. *)
Record same_env (n n' : Node M MB P) : Prop := {
  se_hub : o_hub n' = o_hub n;
  se_sessions : o_sessions n' = o_sessions n;
  se_broker : o_broker n' = o_broker n;
  se_handler : o_handler n' = o_handler n;
  se_authorizer : o_authorizer n' = o_authorizer n;
}.

#[local] Instance same_env_trans : Transitive same_env.
Proof. intros n1 n2 n3 [] []. split; congruence. Qed.

(** Each session with a tracked covering subscription, except [sid], is sent [e] once. *)
Definition announced (r : registry) (ch sid : string) (e : PresenceEvent) (out : list emission) : Prop :=
  ∃ refs, out = (λ c, ToSession c e) <$> refs ∧ NoDup (sr_sid <$> refs) ∧
    ∀ sid', sid' ∈ sr_sid <$> refs ↔
      sid' ≠ sid ∧ ∃ sub, HubSubs.covering r ch sid' sub ∧ HubSubs.sb_Ephemeral sub = false.

Lemma recipients_spec pr exclude :
  map_Forall (λ sid (x : SessRef * bool), sr_sid x.1 = sid) pr →
  let refs := (filter (λ x : SessRef * bool, ¬ (x.2 = true ∨ sr_sid x.1 = exclude)) (recipients pr)).*1 in
  NoDup (sr_sid <$> refs) ∧
  ∀ sid, sid ∈ sr_sid <$> refs ↔ sid ≠ exclude ∧ snd <$> pr !! sid = Some false.
Proof.
  intros Hk. cbn zeta.
  assert (recipients pr ≡ₚ (map_to_list pr).*2) as Hp by apply merge_sort_Permutation.
  rewrite <-list_fmap_compose. split.
  - apply NoDup_fmap_filter. rewrite Hp, <-list_fmap_compose.
    assert ((sr_sid ∘ fst ∘ snd) <$> map_to_list pr = (map_to_list pr).*1) as ->; [|apply NoDup_fst_map_to_list].
    apply list_fmap_ext. intros i [sid x] Hx. simpl. apply Hk. by eapply elem_of_map_to_list, list_elem_of_lookup_2.
  - intros sid. rewrite list_elem_of_fmap. setoid_rewrite list_elem_of_filter. setoid_rewrite Hp.
    setoid_rewrite list_elem_of_fmap. split.
    + intros ([c e] & Hsid & Hne & ([sid' x] & Hx & Hin)). simpl in *. subst x. apply elem_of_map_to_list in Hin.
      pose proof (Hk _ _ Hin) as Hsid'. simpl in Hsid'. assert (sid' = sid) as -> by congruence.
      rewrite Hin. simpl. split; [intros Heq; apply Hne; right; congruence|].
      destruct e; [exfalso; apply Hne; by left|done].
    + intros [Hne Hpr]. apply fmap_Some in Hpr as ([c e] & Hpr & He). simpl in He. subst e.
      pose proof (Hk _ _ Hpr) as Hsid. simpl in Hsid. exists (c, false). simpl. split; [done|].
      split; [|exists (sid, (c, false)); split; [done|]; by apply elem_of_map_to_list].
      intros [?|Heq]; [done|]. congruence.
Qed.

Lemma nextOccupancyGen_ok ch n :
  occ_inv n → (node_last n ch < u64_modulus - 1)%Z →
  ∃ n', nextOccupancyGen ch n = (node_last n ch + 1, n')%Z ∧ same_env n n' ∧
    o_lastApplied n' = o_lastApplied n ∧
    (∀ x, ps_members (o_presence n') x = ps_members (o_presence n) x) ∧
    (∀ x, node_last n' x = if decide (x = ch) then node_last n ch + 1 else node_last n x)%Z.
Proof.
  intros Hi Hb. pose proof (oi_last n Hi ch) as Hz. unfold nextOccupancyGen, node_last in *.
  destruct ps_NextOccupancyGen as [f|] eqn:Hg.
  - destruct (ps_gen_ok f ch (o_presence n) Hg) as (p' & -> & Hm & Hl); [lia|].
    eexists. split; [reflexivity|]. done.
  - rewrite u64_small by (unfold is_u64; lia). eexists. split; [reflexivity|]. split_and!; try done.
    intros x. simpl. rewrite lookup_insert. repeat case_decide; naive_solver.
Qed.

(** What one announcement does. *)
Record announces (r : registry) (ch sid : string) (e : PresenceEvent) (handled : bool)
    (n n' : Node M MB P) (out : list emission) : Prop := {
  an_env : same_env n n';
  an_members : ∀ x, ps_members (o_presence n') x = ps_members (o_presence n) x;
  an_gen : ∀ x, (node_last n' x = if decide (x = ch) then node_last n ch + 1 else node_last n x)%Z;
  an_inv : occ_inv n';
  an_out : if handled
           then announced r ch sid (mkEvent ch (pe_Action e) (pe_Info e) (node_last n' ch)) out else out = [];
}.

Lemma publishOccupancy_ok r ch sid i e n handled :
  HubSubs.sim (o_hub n) r → occ_inv n → (node_last n ch < u64_modulus - 1)%Z →
  pe_Info e = Some i → Handlers.pm_SessionId i = sid → sid ≠ "" →
  MemoryBroker.PublishOccupancy (o_broker n) (o_handler n) ch = Some (Ok handled) →
  ∃ out n', publishOccupancy ch e n = Some (out, n') ∧ announces r ch sid e handled n n' out.
Proof.
  intros Hsim Hi Hb Hinfo Hsid Hne Hpub.
  destruct (nextOccupancyGen_ok ch n Hi Hb) as (n1 & Hg & Henv & Hla & Hm & Hl).
  pose proof (oi_last n Hi ch) as Hz. unfold publishOccupancy. rewrite Hg. cbn zeta iota.
  rewrite bool_decide_eq_false_2 by lia.
  rewrite (se_broker _ _ Henv), (se_handler _ _ Henv), Hpub. cbn [mbind option_bind].
  destruct handled; last first.
  { do 2 eexists. split; [reflexivity|]. split; try done. split.
    - intros x. rewrite Hl. pose proof (oi_last n Hi x). case_decide; lia.
    - intros x y g Hx. unfold applied_gen in Hx. rewrite Hla in Hx. apply (oi_applied n Hi) in Hx.
      rewrite Hl. case_decide; subst; lia. }
  pose proof (onOccupancy_spec (ch, mkOccupancy (Some e) (node_last n ch + 1)%Z) n1) as Hx.
  unfold evt_key in Hx. cbn [fst snd oe_Event oe_Gen] in Hx. rewrite Hinfo in Hx. cbn [GetSessionId from_option] in Hx.
  rewrite !bool_decide_eq_false_2 in Hx by (lia || congruence). cbn [orb] in Hx.
  assert (applied_gen n1 = applied_gen n) as Hag by (unfold applied_gen; by rewrite Hla).
  rewrite Hag in Hx. unfold gen_of in Hx. cbn [snd oe_Gen] in Hx.
  assert (newer (node_last n ch + 1) (applied_gen n ch (Handlers.pm_SessionId i)) = true) as Hnew.
  { destruct (applied_gen _ _ _) as [g|] eqn:Hgn; [|done]. apply (oi_applied n Hi) in Hgn. simpl. apply Z.ltb_lt. lia. }
  rewrite Hnew in Hx. destruct Hx as (out & n2 & Hon & Hag2).
  rewrite Hon. revert Hon. unfold onOccupancy. cbn [oe_Event oe_Gen]. rewrite Hinfo. cbn [GetSessionId from_option].
  rewrite !bool_decide_eq_false_2 by (lia || congruence). destruct (match _ !! _ with Some _ => _ | None => _ end); [done|].
  set (n3 := set_lastApplied _ _). intros [= Hout <-].
  assert (o_hub n3 = o_hub n) as Hhub by apply (se_hub _ _ Henv).
  destruct (HubSubs.presence_recipients_covers (o_hub n) r ch Hsim) as (pr & Hpr & Hkeys & Hcov).
  unfold deliverPresenceEvent in Hout. rewrite Hhub, Hpr in Hout. cbn [mbind option_bind] in Hout. subst out.
  do 2 eexists. split; [reflexivity|]. cbn [pe_Channel pe_Action pe_Info].
  assert (∀ x, node_last n3 x = node_last n1 x) as Hl3 by done.
  split; [by destruct Henv; split|done|by intros x; rewrite Hl3| |].
  - split; [intros x; rewrite Hl3, Hl; pose proof (oi_last n Hi x); case_decide; lia|].
    intros x y g. rewrite Hag2, Hl3, Hl. case_decide as Hd.
    + injection Hd as -> ->. intros [= <-]. rewrite decide_True by done. lia.
    + intros Hxy. apply (oi_applied n Hi) in Hxy. case_decide; subst; lia.
  - destruct (recipients_spec pr (Handlers.pm_SessionId i) Hkeys) as [Hnd Helem].
    rewrite Hl3, Hl, decide_True by done. rewrite Hinfo. eexists. split; [|split; [exact Hnd|]].
    + by rewrite <-list_fmap_compose.
    + intros sid'. rewrite Helem. destruct (Hcov sid') as [_ ->]. by rewrite Hsid.
Qed.

Lemma set_presence_inv n p :
  occ_inv n → (∀ x, ps_last p x = ps_last (o_presence n) x) →
  occ_inv (set_presence n p) ∧ ∀ x, node_last (set_presence n p) x = node_last n x.
Proof.
  intros Hi Hp. assert (∀ x, node_last (set_presence n p) x = node_last n x) as Hl.
  { intros x. unfold node_last. destruct ps_NextOccupancyGen; [apply Hp|done]. }
  split; [|done]. split; [intros x; rewrite Hl; apply Hi|].
  intros x y g Hx. rewrite Hl. by apply (oi_applied n Hi) in Hx.
Qed.

Definition join_info (c : Client) : Member :=
  Handlers.mkMember (cl_SessionID c) (cl_UserID c) (cl_ClientID c) (cl_ConnectedAt c).

Definition stored_info (c : Client) : PresenceInfo :=
  ServerApi.mkInfo (cl_SessionID c) (cl_SessionID c) (cl_ClientID c) (cl_UserID c) (cl_ConnectedAt c).

(** The subscription's flag presenceJoin reads. *)
Definition stored_ephemeral (n : Node M MB P) (ch : string) (c : Client) : bool :=
  from_option HubSubs.sb_Ephemeral false (HubSubs.LookupSubscriber (o_hub n) ch (cl_ref c)).

(** What an announced change leaves behind: the channel's members changed by
    [upd], the other channels' untouched, the event sent to its audience. *)
Definition presence_post (r : registry) (ch sid : string) (a : PresenceAction) (i : Member)
    (upd : gmap string PresenceInfo → gmap string PresenceInfo) (handled : bool)
    (n : Node M MB P) (res : option (list emission * Node M MB P)) (uid : string) : Prop :=
  ∃ out n', res = Some (out ++ companion n a ch sid uid, n') ∧ same_env n n' ∧ occ_inv n' ∧
    (∀ x, ps_members (o_presence n') x =
       if decide (x = ch) then upd (ps_members (o_presence n) ch) else ps_members (o_presence n) x) ∧
    (∀ x, node_last n' x = if decide (x = ch) then node_last n ch + 1 else node_last n x)%Z ∧
    if handled then announced r ch sid (mkEvent ch a (Some i) (node_last n ch + 1)) out else out = [].

Lemma announce_change r ch sid a i upd handled uid n p e :
  HubSubs.sim (o_hub n) r → occ_inv n → (node_last n ch < u64_modulus - 1)%Z →
  e = mkEvent ch a (Some i) 0 → Handlers.pm_SessionId i = sid → sid ≠ "" →
  MemoryBroker.PublishOccupancy (o_broker n) (o_handler n) ch = Some (Ok handled) →
  (∀ x, ps_members p x = if decide (x = ch) then upd (ps_members (o_presence n) ch) else ps_members (o_presence n) x) →
  (∀ x, ps_last p x = ps_last (o_presence n) x) →
  presence_post r ch sid a i upd handled n
    ('(out, n1) ← publishOccupancy ch e (set_presence n p); Some (out ++ companion n1 a ch sid uid, n1)) uid.
Proof.
  intros Hsim Hi Hb -> Hsid Hne Hpub Hm Hl. destruct (set_presence_inv n p Hi Hl) as [Hi' Hl'].
  destruct (publishOccupancy_ok r ch sid i (mkEvent ch a (Some i) 0) (set_presence n p) handled)
    as (out & n' & -> & Ha); try done; [by rewrite Hl'|].
  destruct Ha as [Henv Hmem Hgen Hinv Hout]. exists out, n'. cbn [mbind option_bind].
  assert (companion n' a ch sid uid = companion n a ch sid uid) as ->.
  { unfold companion, ChannelPolicy. by rewrite (se_authorizer _ _ Henv). }
  split_and!; [done|by destruct Henv; split|done|..].
  - intros x. rewrite Hmem. apply Hm.
  - intros x. by rewrite Hgen, !Hl'.
  - cbn [pe_Action pe_Info] in Hout. by rewrite Hgen, decide_True, Hl' in Hout.
Qed.

(** C31: presence announcements are exact.  A join or leave that the gate does
    not track changes nothing.  A tracked one updates exactly its own record of
    its own channel, takes the channel's next generation, is never taken for a
    late event by the node that issued it, and sends its event once to every
    session with a tracked subscription covering the channel, exact or
    wildcard, except the session it is about; ephemeral subscribers get
    nothing. *)
Theorem presence_events_exact r n ch c sid uid eph handled :
  HubSubs.sim (o_hub n) r → occ_inv n → (node_last n ch < u64_modulus - 1)%Z →
  cl_SessionID c ≠ "" → sid ≠ "" →
  MemoryBroker.PublishOccupancy (o_broker n) (o_handler n) ch = Some (Ok handled) →
  (if shouldTrackPresence n ch (stored_ephemeral n ch c)
   then presence_post r ch (cl_SessionID c) PresenceActionJoin (join_info c)
          <[ cl_SessionID c := stored_info c ]> handled n (presenceJoin ch (Some c) n) (cl_UserID c)
   else presenceJoin ch (Some c) n = Some ([], n)) ∧
  (if shouldTrackPresence n ch eph
   then presence_post r ch sid PresenceActionLeave (leave_info n sid uid) (delete sid) handled n
          (presenceLeave ch sid uid eph n) uid
   else presenceLeave ch sid uid eph n = Some ([], n)).
Proof.
  intros Hsim Hi Hb Hc Hs Hpub. split.
  - unfold presenceJoin. fold (stored_ephemeral n ch c).
    destruct (shouldTrackPresence n ch (stored_ephemeral n ch c)); [|done]. cbn [negb].
    unfold SetPresenceForSession. fold (stored_info c).
    destruct (ps_Add_ok ch (stored_info c) (o_presence n)) as (p & -> & Hm & Hl).
    by eapply announce_change.
  - unfold presenceLeave. destruct (shouldTrackPresence n ch eph); [|done]. cbn [negb].
    destruct (ps_Remove_ok ch sid (o_presence n)) as (p & -> & Hm & Hl).
    eapply announce_change; try done; unfold leave_info; simpl; by destruct (o_sessions n !! sid).
Qed.

#[local] Instance by_session_total : Total by_session.
Proof. intros a b. apply (total Handlers.str_le). Qed.

Lemma i32_small z : (0 ≤ z < 2 ^ 31)%Z → i32 z = z.
Proof. intros Hz. unfold i32. rewrite Z.mod_small; lia. Qed.

(** Presence snapshots are exact: the members of the channel in session
    order, cut at the policy's cap; the occupancy counts all of them (while the
    count fits 32 bits), and the truncated flag says whether some are missing. *)
Theorem presence_snapshot_exact n ch :
  let m := ps_members (o_presence n) ch in
  let limit := ServerApi.node_PresenceSnapshotLimit (o_authorizer n) ch in
  let s := presenceSnapshot n ch in
  ∃ infos, infos ≡ₚ ServerApi.presence_member <$> (map_to_list m).*2 ∧ Sorted by_session infos ∧
    Handlers.ps_Channel s = ch ∧
    Handlers.ps_Clients s = take (Z.to_nat limit) infos ∧
    (Z.of_nat (length (Handlers.ps_Clients s)) ≤ limit)%Z ∧
    (Handlers.ps_Truncated s = true ↔ (limit < Z.of_nat (base.size m))%Z) ∧
    ((Z.of_nat (base.size m) < 2 ^ 31)%Z → Handlers.ps_Occupancy s = Z.of_nat (base.size m)).
Proof.
  cbn zeta. unfold presenceSnapshot. rewrite ps_Get_ok.
  set (m := ps_members _ _). set (infos := merge_sort by_session _).
  assert (infos ≡ₚ ServerApi.presence_member <$> (map_to_list m).*2) as Hp by apply merge_sort_Permutation.
  assert (length infos = base.size m) as Hlen by (rewrite Hp, !length_fmap; apply length_map_to_list).
  assert (0 < ServerApi.node_PresenceSnapshotLimit (o_authorizer n) ch)%Z as Hpos.
  { unfold ServerApi.node_PresenceSnapshotLimit, ServerApi.MaxPresenceSnapshotClients.
    destruct (Z.ltb_spec 0 (Policy.PresenceSnapshotLimit (Authz.Effects (o_authorizer n) ch))); lia. }
  exists infos. split; [done|]. split; [apply Sorted_merge_sort, _|]. rewrite Hlen.
  destruct (Z.ltb_spec (ServerApi.node_PresenceSnapshotLimit (o_authorizer n) ch) (Z.of_nat (base.size m)));
    cbn [Handlers.ps_Channel Handlers.ps_Clients Handlers.ps_Truncated Handlers.ps_Occupancy];
    (split; [done|]); (split; [by rewrite ?take_ge by lia|]); (split; [rewrite ?length_take; lia|]);
    (split; [split; [intros; lia || done|intros; lia || done]|]); intros; apply i32_small; lia.
Qed.

(** A gap notice reaches every covered session once. *)
Lemma gap_notice_exact r n gap :
  HubSubs.sim (o_hub n) r →
  ∃ l, onGap n gap = Some l ∧ NoDup (sr_sid ∘ fst <$> l) ∧
    ∀ sid, sid ∈ sr_sid ∘ fst <$> l ↔ ∃ sub, HubSubs.covering r (gp_Channel gap) sid sub.
Proof.
  intros Hsim. destruct (HubSubs.merge_covers (o_hub n) r (gp_Channel gap) Hsim) as (m & Hm & Hcov).
  unfold onGap. rewrite Hm. cbn [mbind option_bind]. eexists. split; [reflexivity|].
  rewrite <-list_fmap_compose. set (f := (sr_sid ∘ fst) ∘ _).
  assert (f <$> recipients ((λ c, (c, false)) <$> m) ≡ₚ (map_to_list m).*1) as Hp.
  { unfold recipients. rewrite merge_sort_Permutation, map_to_list_fmap, <-!list_fmap_compose.
    apply reflexive_eq, list_fmap_ext. intros i [sid c] Hx. subst f. simpl.
    by eapply Hcov, elem_of_map_to_list, list_elem_of_lookup_2. }
  split; [rewrite Hp; apply NoDup_fst_map_to_list|]. intros sid. rewrite Hp.
  destruct (Hcov sid) as [<- _]. rewrite list_elem_of_fmap. split.
  - intros ([k c] & -> & Hin%elem_of_map_to_list). simpl. by rewrite Hin.
  - intros [c Hc]. exists (sid, c). by rewrite elem_of_map_to_list.
Qed.

(** The companion events are live only: history is untouched. *)
Lemma companion_no_history marshal a ch cid uid now (b b' : MemoryBroker.memoryBroker (M:=MB)) :
  publishPresence marshal a ch cid uid now b = Some b' →
  MemoryBroker.b_history b' = MemoryBroker.b_history b ∧ MemoryBroker.b_rings b' = MemoryBroker.b_rings b.
Proof.
  unfold publishPresence. destruct (marshal _) as [data|]; [|naive_solver].
  intros ([x y] & Hp & ->)%fmap_Some. revert Hp. unfold MemoryBroker.PublishTransient.
  destruct (ValidateTopic _); [|naive_solver]. intros (w & _ & Hw)%bind_Some. destruct w; [|naive_solver].
  apply bind_Some in Hw as (b2 & Hb2 & [= <- <-]). unfold MemoryBroker.enqueue in Hb2.
  case_bool_decide; naive_solver.
Qed.

End Local.

(** ** Concrete runs *)

Abbreviation sub_trie := (CSTrie.heap (Sub:=HubSubs.Subscriber)).
Abbreviation name_trie := (CSTrie.heap (Sub:=string)).

Definition broker0 : MemoryBroker.memoryBroker (M:=name_trie) :=
  match MemoryBroker.Subscribe (MemoryBroker.NewMemoryBroker 0 "e1") "acme:im.x" with
  | Some (_, b) => b
  | None => MemoryBroker.NewMemoryBroker 0 "e1"
  end.

Definition client0 : Client := mkClient (HubSubs.mkRef 9 "s9") "u9" "web" 1700000000000.

Definition occ_node (h : HubSubs.HubSubs (M:=sub_trie)) : Node sub_trie name_trie memoryPresenceStore :=
  mkNode NewMemoryPresenceStore ∅ ∅ h ∅ broker0 true (Authz.mkAuthorizer Policy.DefaultChannelPolicy []).

Definition occ_evt (a : PresenceAction) (sid : string) (gen : Z) : string * OccupancyEvent :=
  ("acme:im.x", mkOccupancy (Some (mkEvent "acme:im.x" a (Some (Handlers.mkMember sid "" "" 0)) 0)) gen).

(** A join and the later leave arrive swapped, and the join twice. *)
Lemma occupancy_converges_witness :
  let join := occ_evt PresenceActionJoin "s9" 4 in
  let leave := occ_evt PresenceActionLeave "s9" 7 in
  let n := occ_node HubSubs.NewHubSubs in
  last (filter (λ y, evt_key y = Some ("acme:im.x", "s9")) (receive [leave; join; join] n).1) = Some leave ∧
  last (filter (λ y, evt_key y = Some ("acme:im.x", "s9")) (receive [join; leave] n).1) =
  last (filter (λ y, evt_key y = Some ("acme:im.x", "s9")) (receive [leave; join; join] n).1).
Proof.
  cbn zeta. split; [vm_compute; reflexivity|].
  apply (occupancy_converges "acme:im.x" "s9"
    [occ_evt PresenceActionJoin "s9" 4; occ_evt PresenceActionLeave "s9" 7]
    [occ_evt PresenceActionLeave "s9" 7; occ_evt PresenceActionJoin "s9" 4; occ_evt PresenceActionJoin "s9" 4]
    (occ_node HubSubs.NewHubSubs) (occ_node HubSubs.NewHubSubs)); [reflexivity..|set_solver|].
  intros x y Hx Hy _ Hg. rewrite !elem_of_cons in Hx, Hy.
  destruct Hx as [->|[->|Hx]]; [| |by apply not_elem_of_nil in Hx];
  (destruct Hy as [->|[->|Hy]]; [| |by apply not_elem_of_nil in Hy]); (reflexivity || discriminate Hg).
Defined.

Lemma presence_events_exact_witness :
  ∃ h out n' c e, HubSubs.exec HubSubs.ops0 HubSubs.NewHubSubs = Some ((HubSubs.spec_exec HubSubs.ops0 ∅).1, h) ∧
    presenceJoin "acme:im.x" (Some client0) (occ_node h) = Some (out, n') ∧
    ToSession c e ∈ out ∧ sr_sid c = "s1" ∧ pe_Gen e = 1%Z.
Proof.
  destruct (HubSubs.hub_exec_sim (M:=sub_trie) HubSubs.ops0 HubSubs.NewHubSubs ∅ HubSubs.hub_sim_new
    HubSubs.ops0_ok) as (h & Hrun & Hsim).
  destruct (presence_events_exact (HubSubs.spec_exec HubSubs.ops0 ∅).2 (occ_node h) "acme:im.x" client0 "s9" "u9"
    false true) as [Hj _]; [exact Hsim| |reflexivity|discriminate|discriminate|vm_compute; reflexivity|].
  { split; [done|]. intros ch sid g Hg. unfold applied_gen in Hg. simpl in Hg. by rewrite lookup_empty in Hg. }
  assert (shouldTrackPresence (occ_node h) "acme:im.x" (stored_ephemeral (occ_node h) "acme:im.x" client0) = true) as Ht.
  { unfold stored_ephemeral, HubSubs.LookupSubscriber. change (IsWildcard "acme:im.x") with false. cbn iota.
    rewrite (HubSubs.sm_exact _ _ Hsim) by reflexivity. vm_compute. reflexivity. }
  rewrite Ht in Hj. destruct Hj as (out & n' & Hrun' & _ & _ & _ & _ & refs & -> & _ & Helem).
  assert ("s1" ∈ sr_sid <$> refs) as (c & Hc & Hin)%list_elem_of_fmap.
  { apply Helem. split; [discriminate|]. exists (HubSubs.NewSubscriber (HubSubs.mkRef 1 "s1") false).
    split; [|reflexivity]. exists "acme:im.*". split; vm_compute; reflexivity. }
  eexists h, _, n', c, _. split; [exact Hrun|]. split; [exact Hrun'|].
  split; [|split; [symmetry; exact Hc|]].
  - apply elem_of_app. left. apply list_elem_of_fmap. exists c. split; [reflexivity|exact Hin].
  - reflexivity.
Defined.

End Occupancy.
