(* ===== verification/Heartbeat.v ===== *)
(** * Heartbeat: probing idle connections (internal/session/heartbeat.go)

    Durations are nanosecond counts kept at 64 bits.  The first part is the
    arithmetic: how the configured durations are checked (internal/config),
    resolved (NewNode), turned into the transports' read deadline and into the
    cluster lease (internal/runtime/node.go).  The second part is the machine of
    one session: its heartbeat loop, the one-shot deadline armed for each ping,
    inbound frames and local resumes, as labelled steps in any order.  A timer
    that has expired has a callback goroutine that may run at any later time; a
    cancelled loop returns at any time and may take another case before; the idle
    ticker may tick at any time.  The assignment of a created timer to the
    callback's variable is taken to precede the callback. *)

From S2P Require Import Prelude Policy Hmac.
Import Hmac.

Module Heartbeat.

Abbreviation second := Policy.second.

Record HeartbeatConfig := mkConfig { IdleTimeout : Z; PingInterval : Z; PingTimeout : Z }.

(** ** Deadlines *)

(** [if t := x; t > floor { floor = t }] *)
Definition raise (floor t : Z) : Z := if (floor <? t)%Z then t else floor.

Definition ReadDeadline (c : HeartbeatConfig) (configured : Z) : Z :=
  let idle := IdleTimeout c in
  let ping := PingInterval c in
  if (idle =? 0)%Z && (ping =? 0)%Z then
    if (0 <? configured)%Z then configured else 60 * second
  else
    let floor := raise (10 * second) (i64 (2 * idle)) in
    let floor := raise floor (i64 (3 * ping)) in
    if (floor <? configured)%Z then configured else floor.

Definition defaultClusterSessionLeaseTTL : Z := 600 * second.
Definition pingClusterRefreshInterval : Z := 10 * second.

Definition heartbeatIdleAndPing (c : option HeartbeatConfig) : Z * Z :=
  match c with None => (0, 0)%Z | Some c => (IdleTimeout c, PingInterval c) end.

Definition sessionLeaseTTL (c : option HeartbeatConfig) : Z :=
  let '(idle, ping) := heartbeatIdleAndPing c in
  if (idle =? 0)%Z && (ping =? 0)%Z then defaultClusterSessionLeaseTTL
  else
    let ttl := raise (30 * second) (i64 (2 * idle)) in
    let ttl := raise ttl (i64 (3 * ping)) in
    raise ttl (i64 (i64 (idle + pingClusterRefreshInterval) + 10 * second)).

(** ** Configuration *)

(** config.Heartbeat, as written. *)
Record HeartbeatSpec := mkHbSpec { hs_IdleTimeout : string; hs_PingInterval : string; hs_PingTimeout : string }.

Definition DefaultHeartbeatIdleTimeout : Z := 300 * second.

Section Config.
Context (parseDuration : string → option Z).

(** NewNode: the durations the heartbeat manager runs with. *)
Definition resolveHeartbeat (cfg : option HeartbeatSpec) : HeartbeatConfig :=
  let '(idle, ping, timeout) :=
    match cfg with
    | None => (DefaultHeartbeatIdleTimeout, 0, 0)%Z
    | Some cfg =>
      (if bool_decide (hs_IdleTimeout cfg = "") then DefaultHeartbeatIdleTimeout
       else default DefaultHeartbeatIdleTimeout (parseDuration (hs_IdleTimeout cfg)),
       if bool_decide (hs_PingInterval cfg = "") then 0%Z else default 0%Z (parseDuration (hs_PingInterval cfg)),
       if bool_decide (hs_PingTimeout cfg = "") then 0%Z else default 0%Z (parseDuration (hs_PingTimeout cfg)))
    end in
  mkConfig idle ping (if (0 <? ping)%Z && (timeout <=? 0)%Z then ping else timeout).

(** One entry of Validate's heartbeat loop: the parsed value, if it was set. *)
Definition check_duration (value : string) : option (option Z) :=
  if bool_decide (value = "") then Some None
  else d ← parseDuration value;
       if negb (d =? 0)%Z && (d <? second)%Z then None else Some (Some d).

(** The heartbeat checks of Config.Validate; the comparison with the idle
    timeout at the end only logs a warning. *)
Definition validHeartbeat (hb : HeartbeatSpec) : bool :=
  match check_duration (hs_IdleTimeout hb), check_duration (hs_PingInterval hb), check_duration (hs_PingTimeout hb) with
  | Some _, Some interval, Some timeout =>
    negb (bool_decide (0 < default 0 interval)%Z && bool_decide (timeout = Some 0%Z))
  | _, _, _ => false
  end.

End Config.

(** ** One session *)

(** An AfterFunc timer that was not stopped; [tm_expired]: its callback
    goroutine has been started. *)
Record timer := mkTimer { tm_due : Z; tm_expired : bool }.

(** What happened, newest first in the log. *)
Inductive event :=
| LPing (id : nat) (at_ : Z)      (* the deadline of this ping was armed *)
| LInbound (at_ : Z)              (* HandleMessage accepted a frame *)
| LActive (at_ : Z)               (* ResetActivity: a handler, or a loop that starts *)
| LResume (at_ : Z)               (* Detach, then Attach with another connection *)
| LFire (id : nat) (at_ : Z)      (* a deadline callback decided to disconnect *)
| LIdle (at_ : Z).                (* the idle check decided to disconnect *)

Record hb := mkHb {
  now : Z;
  closed : bool;
  lastActivity : Z;
  pingDeadline : option nat;
  timers : gmap nat timer;
  next : nat;
  arming : list (nat * Z);        (* created, not yet stored in pingDeadline *)
  loops : list (option Z);        (* loop goroutines, each with its ping timer if pings are on *)
  calls : nat;                    (* disconnectHeartbeatTimeout, about to run *)
  once : bool;                    (* heartbeatDisconnectOnce *)
  disconnects : nat;              (* heartbeat_idle_disconnects_total *)
  log : list event;
}.

Definition new_session (t : Z) : hb := mkHb t false t None ∅ 0 [] [] 0 false 0 [].

(** [Timer.Stop]: a callback that has started is not stopped. *)
Definition stop (id : nat) (ts : gmap nat timer) : gmap nat timer :=
  match ts !! id with
  | Some tm => if tm_expired tm then ts else delete id ts
  | None => ts
  end.

Definition stop_deadline (s : hb) : gmap nat timer :=
  match pingDeadline s with Some id => stop id (timers s) | None => timers s end.

Inductive label :=
| Tick (d : Z)
| Inbound
| Touch
| Start (jitter : Z)
| Return (i : nat)                (* a loop sees that its context is cancelled *)
| Ping (i : nat) (jitter : Z)     (* the ping case of a loop, up to the creation of the timer *)
| Install                         (* armPingDeadline stores the timer *)
| SendFailed                      (* the ping could not be sent: disarm *)
| Expire (id : nat)
| Callback (id : nat)
| IdleCheck (i : nat)
| RunDisconnect
| CloseOther                      (* Close, Fence *)
| Resume.

Section Machine.
Context (c : HeartbeatConfig).

Definition ping_timer (s : hb) (jitter : Z) : option Z :=
  if (0 <? PingInterval c)%Z then Some (now s + jitter)%Z else None.

(** 0.8 to 1.2 of the interval, as defaultJitter draws it. *)
Definition jitter_ok (jitter : Z) : bool :=
  (4 * PingInterval c <=? 5 * jitter)%Z && (5 * jitter <=? 6 * PingInterval c)%Z.

(** armPingDeadline up to the lock. *)
Definition create_deadline (s : hb) : gmap nat timer * nat * list (nat * Z) :=
  if (PingTimeout c <=? 0)%Z then (timers s, next s, arming s)
  else (<[ next s := mkTimer (now s + PingTimeout c) false ]> (timers s), S (next s), arming s ++ [(next s, now s)]).

(** The callback of armPingDeadline. *)
Definition run_callback (id : nat) (s : hb) : hb :=
  let fired := bool_decide (pingDeadline s = Some id) && negb (closed s) in
  mkHb (now s) (closed s) (lastActivity s) (if fired then None else pingDeadline s) (delete id (timers s)) (next s)
    (arming s) (loops s) (if fired then S (calls s) else calls s) (once s) (disconnects s)
    (if fired then LFire id (now s) :: log s else log s).

Definition exec_label (l : label) (s : hb) : option hb :=
  let 'mkHb now closed act pd ts nx arm lps calls once dis log := s in
  match l with
  | Tick d => guard (0 < d)%Z;; Some (mkHb (now + d) closed act pd ts nx arm lps calls once dis log)
  | Inbound => guard (closed = false);;
      Some (mkHb now closed now None (stop_deadline s) nx arm lps calls once dis (LInbound now :: log))
  | Touch => Some (mkHb now closed now pd ts nx arm lps calls once dis (LActive now :: log))
  | Start j => guard (IdleTimeout c ≠ 0 ∨ PingInterval c ≠ 0)%Z;; guard (jitter_ok j = true);;
      Some (mkHb now closed now pd ts nx arm (lps ++ [ping_timer s j]) calls once dis (LActive now :: log))
  | Return i => Some (mkHb now closed act pd ts nx arm (delete i lps) calls once dis log)
  | Ping i j => guard (jitter_ok j = true);; t ← mjoin (lps !! i); guard (t ≤ now)%Z;;
      if closed then Some (mkHb now closed act pd ts nx arm (delete i lps) calls once dis log)
      else let '(ts', nx', arm') := create_deadline s in
           Some (mkHb now closed act pd ts' nx' arm' (<[ i := ping_timer s j ]> lps) calls once dis log)
  | Install =>
      match arm with
      | [] => None
      | (id, t) :: arm' =>
        Some (mkHb now closed act (Some id) (stop_deadline s) nx arm' lps calls once dis (LPing id t :: log))
      end
  | SendFailed => Some (mkHb now closed act None (stop_deadline s) nx arm lps calls once dis log)
  | Expire id =>
      tm ← ts !! id; guard (tm_expired tm = false);; guard (tm_due tm ≤ now)%Z;;
      Some (mkHb now closed act pd (<[ id := mkTimer (tm_due tm) true ]> ts) nx arm lps calls once dis log)
  | Callback id => tm ← ts !! id; guard (tm_expired tm = true);; Some (run_callback id s)
  | IdleCheck i => _ ← lps !! i; guard (0 < IdleTimeout c < now - act)%Z;;
      Some (mkHb now closed act pd ts nx arm (delete i lps) (S calls) once dis (LIdle now :: log))
  | RunDisconnect =>
      match calls with
      | O => None
      | S calls' =>
        Some (if once then mkHb now closed act pd ts nx arm lps calls' once dis log
              else mkHb now true act pd ts nx arm lps calls' true (S dis) log)
      end
  | CloseOther => Some (mkHb now true act pd ts nx arm lps calls once dis log)
  | Resume => guard (closed = false);;
      Some (mkHb now closed act pd ts nx arm lps calls once dis (LResume now :: log))
  end.

Fixpoint exec (ls : list label) (s : hb) : option hb :=
  match ls with [] => Some s | l :: ls => exec_label l s ≫= exec ls end.

End Machine.

(** ** A disconnect is deserved *)

(** Neither answers a ping nor arms another. *)
Definition quiet (e : event) : Prop := match e with LInbound _ | LPing _ _ => False | _ => True end.

Definition cause (e : event) : Prop := match e with LFire _ _ | LIdle _ => True | _ => False end.

(** The last armed ping, at time [t], has not been answered since. *)
Definition unanswered (id : nat) (t : Z) (l : list event) : Prop :=
  ∃ l1 l2, l = l1 ++ LPing id t :: l2 ∧ Forall quiet l1.

Fixpoint last_active (t0 : Z) (l : list event) : Z :=
  match l with
  | [] => t0
  | LInbound t :: _ | LActive t :: _ => t
  | _ :: l => last_active t0 l
  end.

Lemma unanswered_cons e id t l : quiet e → unanswered id t l → unanswered id t (e :: l).
Proof. intros He (l1 & l2 & -> & Hq). exists (e :: l1), l2. split; [done|by constructor]. Qed.

Lemma stop_lookup id ts k tm : stop id ts !! k = Some tm → ts !! k = Some tm.
Proof.
  unfold stop. destruct (ts !! id) as [x|]; [|done]. destruct (tm_expired x); [done|].
  rewrite lookup_delete_Some. naive_solver.
Qed.

Lemma stop_deadline_lookup s k tm : stop_deadline s !! k = Some tm → timers s !! k = Some tm.
Proof. unfold stop_deadline. destruct (pingDeadline s); [apply stop_lookup|done]. Qed.

Section Justified.
Context (c : HeartbeatConfig) (t0 : Z).

Definition deserved (e : event) (l : list event) : Prop :=
  match e with
  | LFire id t => ∃ a, unanswered id a l ∧ (a + PingTimeout c ≤ t)%Z
  | LIdle t => (0 < IdleTimeout c < t - last_active t0 l)%Z
  | _ => True
  end.

Fixpoint justified (l : list event) : Prop :=
  match l with [] => True | e :: l => deserved e l ∧ justified l end.

Record inv (s : hb) : Prop := mkInv {
  i_log : justified (log s);
  i_act : lastActivity s = last_active t0 (log s);
  i_next : ∀ id tm, timers s !! id = Some tm → id < next s ∧ (tm_expired tm = true → tm_due tm ≤ now s)%Z;
  i_arm : ∀ id a, (id, a) ∈ arming s →
    id < next s ∧ ∀ tm, timers s !! id = Some tm → tm_due tm = (a + PingTimeout c)%Z;
  i_pd : ∀ id, pingDeadline s = Some id →
    id < next s ∧ ∃ a, unanswered id a (log s) ∧ ∀ tm, timers s !! id = Some tm → tm_due tm = (a + PingTimeout c)%Z;
  i_calls : 0 < calls s ∨ once s = true → Exists cause (log s);
  i_once : disconnects s = if once s then 1 else 0;
  i_closed : once s = true → closed s = true;
}.

Lemma inv_new : inv (new_session t0).
Proof. split; simpl; try done; try set_solver. intros [?|?]; [lia|done]. Qed.

(** The shape of most steps: timers and created deadlines only go away, and the
    installed deadline stays only while nothing answers it. *)
Lemma hb_inv_step s s' :
  inv s → (now s ≤ now s')%Z → next s' = next s →
  (∀ id tm, timers s' !! id = Some tm → timers s !! id = Some tm) →
  (∀ x, x ∈ arming s' → x ∈ arming s) →
  pingDeadline s' = None ∨
    pingDeadline s' = pingDeadline s ∧ (log s' = log s ∨ ∃ e, quiet e ∧ log s' = e :: log s) →
  justified (log s') → lastActivity s' = last_active t0 (log s') →
  (0 < calls s' ∨ once s' = true → Exists cause (log s')) →
  disconnects s' = (if once s' then 1 else 0) → (once s' = true → closed s' = true) →
  inv s'.
Proof.
  intros Hi Hnow Hnx Hts Harm Hpd Hj Ha Hc Ho Hcl. split; try done; rewrite ?Hnx.
  - intros id tm Ht. destruct (i_next s Hi id tm (Hts _ _ Ht)) as [Hlt Hd]. split; [done|]. intros He.
    specialize (Hd He). lia.
  - intros id a Hin. destruct (i_arm s Hi id a (Harm _ Hin)) as [Hlt Hd]. split; [done|]. eauto.
  - intros id Hid. destruct Hpd as [Hpd|[Hpd Hl]]; [congruence|]. rewrite Hpd in Hid.
    destruct (i_pd s Hi id Hid) as (Hlt & a & Hu & Hd). split; [done|]. exists a. split; [|eauto].
    destruct Hl as [->|(e & He & ->)]; [done|by apply unanswered_cons].
Qed.

Lemma inv_callback id s tm :
  inv s → timers s !! id = Some tm → tm_expired tm = true → inv (run_callback id s).
Proof.
  intros Hi Ht He. pose proof (i_next s Hi id tm Ht) as [_ Hdue]. specialize (Hdue He).
  assert (∀ k x, delete id (timers s) !! k = Some x → timers s !! k = Some x) as Hsub.
  { intros k x. rewrite lookup_delete_Some. by intros [_ ?]. }
  pose proof (i_log s Hi) as Hlog. pose proof (i_act s Hi) as Hact. pose proof (i_calls s Hi) as Hcalls.
  pose proof (i_once s Hi) as Honce. pose proof (i_closed s Hi) as Hclosed.
  unfold run_callback. case_bool_decide as Hpd; [destruct (closed s) eqn:Hc|]; cbn [negb andb];
    (apply (hb_inv_step s); [done|cbn; lia|done|done|done|..]); cbn; eauto 6; try (intros _; by left).
  destruct (i_pd s Hi id Hpd) as (_ & a & Hu & Hd). split; [|done]. exists a. split; [done|].
  rewrite <-(Hd tm Ht). lia.
Qed.

Lemma inv_create s (lps : list (option Z)) :
  inv s →
  let '(ts, nx, arm) := create_deadline c s in
  inv (mkHb (now s) (closed s) (lastActivity s) (pingDeadline s) ts nx arm lps (calls s) (once s) (disconnects s) (log s)).
Proof.
  intros Hi. unfold create_deadline. destruct (PingTimeout c <=? 0)%Z; [by apply (hb_inv_step s); try apply Hi; eauto|].
  split; cbn; try apply Hi.
  - intros id tm. rewrite lookup_insert. case_decide as Hd.
    + intros [= <-]. subst. split; [lia|done].
    + intros Ht. apply (i_next s Hi) in Ht as [? ?]. split; [lia|done].
  - intros id a [Hin|Hin]%elem_of_app.
    + destruct (i_arm s Hi id a Hin) as [Hlt Hd]. split; [lia|]. intros tm. rewrite lookup_insert_ne by lia. apply Hd.
    + apply list_elem_of_singleton in Hin as [= -> ->]. split; [lia|]. intros tm. rewrite lookup_insert_eq.
      by intros [= <-].
  - intros id Hid. destruct (i_pd s Hi id Hid) as (Hlt & a & Hu & Hd). split; [lia|]. exists a. split; [done|].
    intros tm. rewrite lookup_insert_ne by lia. apply Hd.
Qed.

Lemma inv_install s id a arm :
  inv s → arming s = (id, a) :: arm →
  inv (mkHb (now s) (closed s) (lastActivity s) (Some id) (stop_deadline s) (next s) arm (loops s) (calls s) (once s)
         (disconnects s) (LPing id a :: log s)).
Proof.
  intros Hi Harm. destruct (i_arm s Hi id a) as [Hlt Hd]; [rewrite Harm; by left|]. split; cbn.
  - split; [done|apply Hi].
  - apply Hi.
  - intros k tm Ht%stop_deadline_lookup. by apply (i_next s Hi).
  - intros k b Hin. destruct (i_arm s Hi k b) as [Hlt' Hd']; [rewrite Harm; by right|]. split; [done|].
    intros tm Ht%stop_deadline_lookup. by apply Hd'.
  - intros k [= <-]. split; [done|]. exists a. split; [by exists [], (log s)|].
    intros tm Ht%stop_deadline_lookup. by apply Hd.
  - intros Hx. right. by apply Hi.
  - apply Hi.
  - apply Hi.
Qed.

Lemma inv_expire s id tm :
  inv s → timers s !! id = Some tm → (tm_due tm ≤ now s)%Z →
  inv (mkHb (now s) (closed s) (lastActivity s) (pingDeadline s) (<[ id := mkTimer (tm_due tm) true ]> (timers s))
         (next s) (arming s) (loops s) (calls s) (once s) (disconnects s) (log s)).
Proof.
  intros Hi Ht Hdue.
  assert (∀ k x, <[ id := mkTimer (tm_due tm) true ]> (timers s) !! k = Some x →
    ∃ y, timers s !! k = Some y ∧ tm_due y = tm_due x) as Hsub.
  { intros k x. rewrite lookup_insert. case_decide; [subst; intros [= <-]; eauto|eauto]. }
  split; cbn; try apply Hi.
  - intros k x. rewrite lookup_insert. case_decide as Hd; [|apply (i_next s Hi)].
    subst. intros [= <-]. split; [by eapply (i_next s Hi)|done].
  - intros k a Hin. destruct (i_arm s Hi k a Hin) as [Hlt Hd]. split; [done|].
    intros x (y & Hy & <-)%Hsub. by apply Hd.
  - intros k Hk. destruct (i_pd s Hi k Hk) as (Hlt & a & Hu & Hd). split; [done|]. exists a. split; [done|].
    intros x (y & Hy & <-)%Hsub. by apply Hd.
Qed.

Ltac hb_step :=
  match goal with
  | Hi : inv ?s |- inv _ =>
    apply (hb_inv_step s _ Hi); cbn;
    [lia|reflexivity|first [done|intros ? ?; apply (stop_deadline_lookup s)]|done
    |first [by left|right; split; [reflexivity|]; first [by left|right; eexists; split; [|reflexivity]; exact I]]
    |try first [done|by split]|try done|auto 3|try done|try done]
  end.

Lemma inv_label l s s' : inv s → exec_label c l s = Some s' → inv s'.
Proof.
  intros Hi. pose proof (i_log s Hi) as Hlog. pose proof (i_act s Hi) as Hact. pose proof (i_calls s Hi) as Hcalls.
  pose proof (i_once s Hi) as Honce. pose proof (i_closed s Hi) as Hclosed.
  assert (∀ e, 0 < calls s ∨ once s = true → Exists cause (e :: log s)) as Hcalls' by (intros e Hx; right; auto).
  destruct s as [nw cl act pd ts nx arm lps cls onc dis lg]. cbn in Hlog, Hact, Hcalls, Honce, Hclosed, Hcalls'.
  destruct l; cbn [exec_label]; intros Hx.
  6: { destruct cl; simplify_option_eq; [by hb_step|]. pose proof (inv_create _ (<[ i := ping_timer c (mkHb nw false (last_active t0 lg) pd
         ts nx arm lps cls onc (if onc then 1 else 0) lg) jitter ]> lps) Hi) as Hc.
       destruct (create_deadline c _) as [[ts' nx'] arm']. simplify_eq. exact Hc. }
  6: { destruct arm as [|[id a] arm]; [done|]. simplify_option_eq. exact (inv_install _ id a arm Hi eq_refl). }
  7: { simplify_option_eq. by apply (inv_expire _ _ _ Hi). }
  7: { simplify_option_eq. by eapply inv_callback. }
  7: { simplify_option_eq. hb_step; intros _; by left. }
  7: { destruct cls as [|cls]; [done|]. simplify_option_eq. destruct onc; hb_step; intros; apply Hcalls; left; lia. }
  all: simplify_option_eq; try by hb_step.
Qed.

Lemma inv_exec ls : ∀ s s', inv s → exec c ls s = Some s' → inv s'.
Proof.
  induction ls as [|l ls IH]; intros s s' Hi; simpl; [by intros [= <-]|].
  intros (s1 & Hl & Hx)%bind_Some. eapply IH; [|exact Hx]. by eapply inv_label.
Qed.

Lemma justified_app l1 e l2 : justified (l1 ++ e :: l2) → deserved e l2.
Proof. induction l1 as [|x l1 IH]; simpl; [by intros [? _]|]. intros [_ ?]. by apply IH. Qed.

End Justified.

(** C34: a heartbeat disconnect is deserved, and there is at most one.  However
    the loop, its timers, inbound frames, resumes and closes interleave, a ping
    deadline disconnects a session only at least ping_timeout after that ping
    was armed, with no inbound frame and no newer ping in between; the idle check
    only when the last activity is more than idle_timeout ago; and of all these
    decisions one at most closes the session and is counted. *)
Theorem heartbeat_disconnect_justified c t0 ls s :
  exec c ls (new_session t0) = Some s →
  disconnects s ≤ 1 ∧
  (disconnects s = 1 → closed s = true ∧ Exists cause (log s)) ∧
  (∀ id t l1 l2, log s = l1 ++ LFire id t :: l2 → ∃ a, unanswered id a l2 ∧ (a + PingTimeout c ≤ t)%Z) ∧
  (∀ t l1 l2, log s = l1 ++ LIdle t :: l2 → (0 < IdleTimeout c < t - last_active t0 l2)%Z).
Proof.
  intros Hx. pose proof (inv_exec c t0 ls _ _ (inv_new c t0) Hx) as Hi. split_and!.
  - rewrite (i_once c t0 s Hi). destruct (once s); lia.
  - rewrite (i_once c t0 s Hi). destruct (once s) eqn:Ho; [|done]. intros _.
    split; [by apply (i_closed c t0 s Hi)|]. apply (i_calls c t0 s Hi). by right.
  - intros id t l1 l2 Hl. pose proof (i_log c t0 s Hi) as Hj. rewrite Hl in Hj.
    by apply (justified_app c t0) in Hj.
  - intros t l1 l2 Hl. pose proof (i_log c t0 s Hi) as Hj. rewrite Hl in Hj.
    by apply (justified_app c t0) in Hj.
Qed.

(** ** Deadlines that hit the wrong connection, and deadlines that never fire *)

(** Pings every 30s with the deadline that an empty ping_timeout resolves to. *)
Definition cfg30 : HeartbeatConfig := mkConfig 0 (30 * second) (30 * second).

(** A ping at 30s, a resume at 59s, the old deadline at 60s. *)
Definition resume_run : list label :=
  [Start (30 * second); Tick (30 * second); Ping 0 (30 * second); Install; Tick (29 * second); Resume; Return 0;
   Start (30 * second); Tick second; Expire 0; Callback 0; RunDisconnect].

(** A resumed session inherits the old connection's deadline: Detach and Attach
    leave the armed deadline in place, so a client that resumes after a lost
    connection is disconnected one second later, before its new connection has
    been pinged at all. *)
Theorem resumed_session_inherits_deadline :
  ∃ s, exec cfg30 resume_run (new_session 0) = Some s ∧ closed s = true ∧ disconnects s = 1 ∧
    log s = [LFire 0 (60 * second); LActive (59 * second); LResume (59 * second); LPing 0 (30 * second); LActive 0].
Proof. eexists. split; [vm_compute; reflexivity|]. by split_and!. Qed.

(** Timers fire on time: nothing armed is overdue. *)
Definition prompt (s : hb) : Prop :=
  map_Forall (λ _ tm, tm_expired tm = false → now s ≤ tm_due tm)%Z (timers s) ∧
  Forall (λ p, from_option (λ t, now s ≤ t) True p)%Z (loops s).

Fixpoint prompt_exec (c : HeartbeatConfig) (ls : list label) (s s' : hb) : Prop :=
  prompt s ∧ match ls with
             | [] => s = s'
             | l :: ls => ∃ s1, exec_label c l s = Some s1 ∧ prompt_exec c ls s1 s'
             end.

Definition silent_cycle : list label := [Tick (27 * second); Ping 0 (27 * second); Install].

Fixpoint silent_log (k : nat) : list event :=
  match k with O => [LActive 0] | S j => LPing j (27 * second * Z.of_nat k) :: silent_log j end.

(** The session after [k] pings that nobody answered. *)
Definition silent (k : nat) : hb :=
  mkHb (27 * second * Z.of_nat k) false 0
    match k with O => None | S j => Some j end
    match k with O => ∅ | S j => {[ j := mkTimer (27 * second * Z.of_nat k + 30 * second) false ]} end
    k [] [Some (27 * second * Z.of_nat k + 27 * second)%Z] 0 false 0 (silent_log k).

Ltac hb_cbn := cbn [now timers loops from_option tm_due tm_expired pingDeadline].

Lemma silent_timers k (P : timer → Prop) :
  P (mkTimer (27 * second * Z.of_nat k + 30 * second) false) → map_Forall (λ _, P) (timers (silent k)).
Proof. destruct k; intros HP; [apply map_Forall_empty|by apply map_Forall_singleton]. Qed.

Lemma silent_prompt k : prompt (silent k).
Proof.
  split; [apply (silent_timers k (λ tm, tm_expired tm = false → _)); hb_cbn; unfold silent, second; hb_cbn; lia|].
  unfold silent. hb_cbn. constructor; [hb_cbn; unfold second; lia|done].
Qed.

(** The silent session 27 seconds on, when the next ping is due. *)
Definition silent_due (k : nat) : hb :=
  mkHb (27 * second * Z.of_nat k + 27 * second) false 0 (pingDeadline (silent k)) (timers (silent k)) k []
    (loops (silent k)) 0 false 0 (silent_log k).

(** The next deadline is created, the old one still armed. *)
Definition silent_armed (k : nat) : hb :=
  let t := (27 * second * Z.of_nat k + 27 * second)%Z in
  mkHb t false 0 (pingDeadline (silent k)) (<[ k := mkTimer (t + 30 * second) false ]> (timers (silent k))) (S k)
    [(k, t)] [Some (t + 27 * second)%Z] 0 false 0 (silent_log k).

Lemma silent_due_prompt k : prompt (silent_due k) ∧ prompt (silent_armed k).
Proof.
  assert (∀ m, (m ≤ 27 * second * Z.of_nat k + 30 * second)%Z →
    map_Forall (λ _ tm, tm_expired tm = false → (m ≤ tm_due tm)%Z) (timers (silent k))) as Hts.
  { intros m Hm. by apply (silent_timers k (λ tm, tm_expired tm = false → (m ≤ tm_due tm)%Z)). }
  split; split; unfold silent_due, silent_armed; hb_cbn.
  - apply Hts. unfold second. lia.
  - constructor; [hb_cbn; lia|done].
  - apply map_Forall_insert_2; [hb_cbn; unfold second; lia|]. apply Hts. unfold second. lia.
  - constructor; [hb_cbn; unfold second; lia|done].
Qed.

Lemma silent_stop k :
  stop_deadline (silent_armed k) =
  {[ k := mkTimer (27 * second * Z.of_nat k + 27 * second + 30 * second) false ]}.
Proof.
  unfold stop_deadline, silent_armed. cbn zeta. hb_cbn. destruct k as [|j]; unfold silent; hb_cbn; [by rewrite insert_empty|].
  unfold stop. rewrite lookup_insert_ne, lookup_singleton_eq by lia. hb_cbn. rewrite delete_insert_ne by lia.
  by rewrite delete_singleton_eq, insert_empty.
Qed.

Lemma silent_step k : prompt_exec cfg30 silent_cycle (silent k) (silent (S k)).
Proof.
  assert (27 * second * Z.of_nat (S k) = 27 * second * Z.of_nat k + 27 * second)%Z as Hk by lia.
  destruct (silent_due_prompt k) as [Hp1 Hp2].
  split; [apply silent_prompt|]. exists (silent_due k). split.
  { unfold silent, exec_label. cbn zeta. case_guard; [reflexivity|unfold second in *; lia]. }
  split; [done|]. exists (silent_armed k). split.
  { unfold silent_due, exec_label. case_guard as Hj; [|exfalso; apply Hj; vm_compute; reflexivity].
    change (mjoin (loops (silent k) !! 0)) with (Some (27 * second * Z.of_nat k + 27 * second)%Z).
    cbn [mbind option_bind]. case_guard as Hg; [reflexivity|exfalso; apply Hg; lia]. }
  split; [done|]. exists (silent (S k)). split; [|split; [apply silent_prompt|done]].
  transitivity (Some (mkHb (now (silent_armed k)) false 0 (Some k) (stop_deadline (silent_armed k)) (S k) []
    (loops (silent_armed k)) 0 false 0 (LPing k (now (silent_armed k)) :: silent_log k))); [reflexivity|].
  rewrite silent_stop. unfold silent, silent_armed. cbn zeta. hb_cbn. cbn [silent_log]. by rewrite Hk.
Qed.

Lemma prompt_exec_app c ls1 ls2 s1 s2 s3 :
  prompt_exec c ls1 s1 s2 → prompt_exec c ls2 s2 s3 → prompt_exec c (ls1 ++ ls2) s1 s3.
Proof.
  revert s1. induction ls1 as [|l ls1 IH]; intros s1; simpl; [by intros [_ ->]|].
  intros (Hp & s & Hl & Hx) H2. split; [done|]. exists s. split; [done|]. by apply IH.
Qed.

(** A silent client can outlive any number of pings.  Every deadline is
    replaced by the next ping, and the ping interval is jittered from 0.8 of its
    value: with the deadline an empty ping_timeout resolves to, a client that
    never answers is still connected after any number of pings and any time,
    all timers firing on time. *)
Theorem unanswered_pings_can_starve k :
  resolveHeartbeat (λ v, if bool_decide (v = "0s") then Some 0%Z else Some (30 * second)%Z)
    (Some (mkHbSpec "0s" "30s" "")) = cfg30 ∧
  ∃ ls s, prompt_exec cfg30 (Start (27 * second) :: ls) (new_session 0) s ∧
    now s = (27 * second * Z.of_nat k)%Z ∧ closed s = false ∧ calls s = 0 ∧
    log s = silent_log k ∧ next s = k.
Proof.
  split; [reflexivity|]. exists (concat (replicate k silent_cycle)), (silent k). split; [|done].
  split; [split; [apply map_Forall_empty|constructor]|]. exists (silent 0). split; [reflexivity|].
  induction k as [|k IH]; [split; [apply silent_prompt|done]|].
  rewrite replicate_S_end, concat_app. eapply prompt_exec_app; [exact IH|]. simpl. apply silent_step.
Qed.

(** ** Bounds *)

Lemma raise_max a b : raise a b = Z.max a b.
Proof. unfold raise. destruct (Z.ltb_spec a b); lia. Qed.

(** The read deadline and the session lease leave room for the probes.
    Short of durations of decades, the read deadline is the largest of 10s, twice
    the idle timeout, three ping intervals and the configured value (that value
    or 60s when probing is off); the lease the largest of 30s, twice the idle
    timeout, three ping intervals and the idle timeout plus the refresh window
    and 10s (600s when probing is off), so a session that is merely idle is
    never taken over before the idle check. *)
Theorem deadlines_exact c configured :
  (0 ≤ IdleTimeout c < 2 ^ 60)%Z → (0 ≤ PingInterval c < 2 ^ 60)%Z →
  let idle := IdleTimeout c in
  let ping := PingInterval c in
  let off := bool_decide (idle = 0 ∧ ping = 0)%Z in
  ReadDeadline c configured =
    (if off then if (0 <? configured)%Z then configured else 60 * second
     else Z.max (Z.max (10 * second) (2 * idle)) (Z.max (3 * ping) configured))%Z ∧
  sessionLeaseTTL (Some c) =
    (if off then 600 * second
     else Z.max (Z.max (30 * second) (2 * idle))
            (Z.max (3 * ping) (idle + pingClusterRefreshInterval + 10 * second)))%Z ∧
  (off = false → idle + pingClusterRefreshInterval < sessionLeaseTTL (Some c))%Z.
Proof.
  intros Hi Hp. cbn zeta. unfold ReadDeadline, sessionLeaseTTL. cbn [heartbeatIdleAndPing].
  assert ((IdleTimeout c =? 0)%Z && (PingInterval c =? 0)%Z = bool_decide (IdleTimeout c = 0 ∧ PingInterval c = 0)%Z) as ->.
  { destruct (Z.eqb_spec (IdleTimeout c) 0), (Z.eqb_spec (PingInterval c) 0); case_bool_decide; simpl; (done || tauto). }
  case_bool_decide as Ho; [split_and!; (done || discriminate)|].
  unfold pingClusterRefreshInterval, second. rewrite !i64_small by (rewrite ?i64_small; lia). rewrite !raise_max.
  split; [|split; [|intros _]]; [|lia..]. destruct (Z.ltb_spec (Z.max (Z.max (10 * 1000000000) (2 * IdleTimeout c))
    (3 * PingInterval c)) configured); lia.
Qed.

Lemma check_duration_ok parse value d :
  check_duration parse value = Some d →
  match d with
  | None => value = ""
  | Some d => value ≠ "" ∧ parse value = Some d ∧ (d = 0 ∨ second ≤ d)%Z
  end.
Proof.
  unfold check_duration. case_bool_decide as Hv; [by intros [= <-]|].
  intros (x & Hp & Hx)%bind_Some. destruct (negb (x =? 0)%Z && (x <? second)%Z) eqn:Hc; [done|].
  injection Hx as <-. split; [done|]. split; [done|]. apply andb_false_iff in Hc as [Hc|Hc].
  - left. apply negb_false_iff, Z.eqb_eq in Hc. done.
  - right. by apply Z.ltb_ge.
Qed.

(** A heartbeat block that passes Validate runs with durations that are off or
    at least a second, and with a deadline whenever it pings. *)
Theorem validated_heartbeat_runs parse spec :
  validHeartbeat parse spec = true →
  let c := resolveHeartbeat parse (Some spec) in
  (IdleTimeout c = 0 ∨ second ≤ IdleTimeout c)%Z ∧
  (PingInterval c = 0 ∨ second ≤ PingInterval c)%Z ∧
  (PingInterval c ≠ 0 → second ≤ PingTimeout c)%Z.
Proof.
  unfold validHeartbeat. destruct (check_duration _ (hs_IdleTimeout spec)) as [i|] eqn:Hi; [|done].
  destruct (check_duration _ (hs_PingInterval spec)) as [p|] eqn:Hp; [|done].
  destruct (check_duration _ (hs_PingTimeout spec)) as [t|] eqn:Ht; [|done].
  apply check_duration_ok in Hi, Hp, Ht. intros Hv. unfold resolveHeartbeat, DefaultHeartbeatIdleTimeout. cbn zeta.
  assert (0 < second)%Z as Hsec by done. cbn [IdleTimeout PingInterval PingTimeout].
  split_and!.
  - destruct i as [i|]; [destruct Hi as (Hn & -> & Hi); by rewrite bool_decide_eq_false_2|].
    rewrite bool_decide_eq_true_2 by done. right. unfold second. lia.
  - destruct p as [p|]; [destruct Hp as (Hn & -> & Hp); by rewrite bool_decide_eq_false_2|].
    rewrite bool_decide_eq_true_2 by done. by left.
  - destruct p as [p|]; [|rewrite bool_decide_eq_true_2 by done; done].
    destruct Hp as (Hn & -> & Hp). rewrite bool_decide_eq_false_2 by done. cbn [from_option]. intros Hp0.
    unfold id in *.
    assert (0 < p)%Z as Hpos by lia. rewrite (proj2 (Z.ltb_lt 0 p)) by done.
    destruct t as [t|]; [destruct Ht as (Hnt & -> & Ht); rewrite bool_decide_eq_false_2 by done|].
    + cbn [default from_option]. simpl in Hv. rewrite bool_decide_eq_true_2 in Hv by done. cbn in Hv.
      apply negb_true_iff, bool_decide_eq_false in Hv.
      destruct Ht as [->|Ht]; [done|]. destruct (Z.leb_spec t 0); cbn; lia.
    + rewrite bool_decide_eq_true_2 by done. destruct Hp as [->|Hp]; [done|exact Hp].
Qed.

(** ** Concrete runs *)

Lemma heartbeat_disconnect_justified_witness :
  ∃ s, exec cfg30 resume_run (new_session 0) = Some s ∧
    ∃ a, unanswered 0 a [LActive (59 * second); LResume (59 * second); LPing 0 (30 * second); LActive 0]%Z ∧
         (a + PingTimeout cfg30 ≤ 60 * second)%Z.
Proof.
  eexists. split; [vm_compute; reflexivity|].
  eapply (heartbeat_disconnect_justified cfg30 0 resume_run); [vm_compute; reflexivity|].
  apply (eq_refl : _ = [] ++ LFire 0 (60 * second) :: _).
Defined.

Lemma deadlines_exact_witness :
  ReadDeadline (mkConfig (300 * second) (30 * second) (30 * second)) 0 = (600 * second)%Z ∧
  sessionLeaseTTL (Some (mkConfig (300 * second) (30 * second) (30 * second))) = (600 * second)%Z.
Proof.
  destruct (deadlines_exact (mkConfig (300 * second) (30 * second) (30 * second)) 0) as (H1 & H2 & _);
    [cbn; unfold second; lia..|]. split; [exact H1|exact H2].
Defined.

End Heartbeat.
