(* ===== verification/Redis.v ===== *)
(** * Redis: the interface of the Redis server used by pkg/redisbroker

    The server is not part of the repository: it is a parameter [R] with a
    command interpreter.  [doc] writes down the documented behaviour of the
    commands on values of the right type; the class [Redis] states that the
    server follows it, that XADD generates increasing IDs and trims from the
    head, and that WATCH notices every change of a key.  Commands, Lua scripts
    and MULTI/EXEC pipelines are executed without interleaving, so each is one
    [Block]; the code between them is a [RProg], whose steps interleave with
    those of every other client. *)

From S2P Require Import Prelude Topics Strconv.
Import Topics Strconv.

Module Redis.

(** Keys with the same prefix. *)
Lemma key_inj p a b : p +:+ a = p +:+ b → a = b.
Proof. intros Heq. by apply str_app_inj_len in Heq as [_ ?]. Qed.

(** ** Values and commands *)

Record XMessage := mkX { ID : string; Values : gmap string string }.

Inductive rval :=
| VString (s : string)
| VSet (s : gset string)
| VStream (l : list XMessage).

Abbreviation keyspace := (gmap string rval).

#[export] Instance XMessage_eq_dec : EqDecision XMessage.
Proof. solve_decision. Defined.

#[export] Instance rval_eq_dec : EqDecision rval.
Proof. solve_decision. Defined.

(** Times to live are in milliseconds.  Of XINFO STREAM the ID of the first entry
    is used ([None] also stands for the error on a missing key).  The number of
    receivers of PUBLISH is not used.  [STAMP] is what WATCH makes a connection
    remember of a key. *)
Inductive cmd : Type → Type :=
  | GET (k : string) : cmd (option string)
  | SET (k v : string) (px : Z) : cmd unit
  | DEL (k : string) : cmd unit
  | EXISTS (k : string) : cmd bool
  | INCR (k : string) : cmd Z
  | PEXPIRE (k : string) (px : Z) : cmd unit
  | SADD (k m : string) : cmd unit
  | SREM (k : string) (ms : list string) : cmd unit
  | SMEMBERS (k : string) : cmd (list string)
  | SCARD (k : string) : cmd Z
  | XADD (k : string) (maxLen : Z) (approx : bool) (fields : gmap string string) : cmd string
  | XRANGE (k start : string) (n : Z) : cmd (list XMessage)
  | XREVRANGE1 (k : string) : cmd (list XMessage)
  | XINFO (k : string) : cmd (option string)
  | PUBLISH (k payload : string) : cmd unit
  | STAMP (k : string) : cmd Z.

(** ** Stream IDs *)

(** A stream ID is "ms-seq", both 64-bit numbers. *)
Definition id_string (t : N * N) : string := pretty t.1 +:+ String "-" (pretty t.2).

Definition id_lt (a b : N * N) : Prop := (a.1 < b.1)%N ∨ (a.1 = b.1 ∧ (a.2 < b.2)%N).
Definition id_leb (a b : N * N) : bool := (a.1 <? b.1)%N || ((a.1 =? b.1)%N && (a.2 <=? b.2)%N).

Definition parse_u64 (s : string) : option N :=
  match ParseUint 64 s with (n, None) => Some n | _ => None end.

Definition read_id (s : string) : option (N * N) :=
  '(a, b) ← cut "-" s; x ← parse_u64 a; y ← parse_u64 b; Some (x, y).

(** The start of a range may leave out the sequence number, which is then 0. *)
Definition read_start (s : string) : option (N * N) :=
  match cut "-" s with
  | Some _ => read_id s
  | None => x ← parse_u64 s; Some (x, 0%N)
  end.

Definition entry_id (m : XMessage) : N * N := default (0, 0)%N (read_id (ID m)).

Definition range_from (start : N * N) (l : list XMessage) : list XMessage :=
  List.filter (λ m, id_leb start (entry_id m)) l.

(** ** Documented behaviour *)

(** The answer and the key space after a command; [None]: not described here
    (a value of another type, a counter that overflows).  A set that becomes
    empty is removed, a time to live that is not positive removes the key. *)
Definition doc {X} (c : cmd X) (m : keyspace) : option (X * keyspace) :=
  match c with
  | GET k => match m !! k with
             | None => Some (None, m)
             | Some (VString s) => Some (Some s, m)
             | _ => None
             end
  | SET k v _ => Some (tt, <[k := VString v]> m)
  | DEL k => Some (tt, delete k m)
  | EXISTS k => Some (bool_decide (is_Some (m !! k)), m)
  | INCR k => match m !! k with
              | None => Some (1%Z, <[k := VString (FormatInt 1)]> m)
              | Some (VString s) =>
                  match ParseInt s with
                  | (n, None) => if (n <? 2 ^ 63 - 1)%Z
                                 then Some ((n + 1)%Z, <[k := VString (FormatInt (n + 1))]> m) else None
                  | _ => None
                  end
              | _ => None
              end
  | PEXPIRE k px => Some (tt, if (px <=? 0)%Z then delete k m else m)
  | SADD k x => match m !! k with
                | None => Some (tt, <[k := VSet {[ x ]}]> m)
                | Some (VSet s) => Some (tt, <[k := VSet ({[ x ]} ∪ s)]> m)
                | _ => None
                end
  | SREM k xs => match m !! k with
                 | None => Some (tt, m)
                 | Some (VSet s) =>
                     let s' := s ∖ list_to_set xs in
                     Some (tt, if bool_decide (s' = ∅) then delete k m else <[k := VSet s']> m)
                 | _ => None
                 end
  | SMEMBERS k => match m !! k with
                  | None => Some ([], m)
                  | Some (VSet s) => Some (elements s, m)
                  | _ => None
                  end
  | SCARD k => match m !! k with
               | None => Some (0%Z, m)
               | Some (VSet s) => Some (Z.of_nat (size s), m)
               | _ => None
               end
  | XADD _ _ _ _ => None
  | XRANGE k start n =>
      match read_start start with
      | None => None
      | Some i =>
          match m !! k with
          | None => Some ([], m)
          | Some (VStream l) => Some (take (Z.to_nat n) (range_from i l), m)
          | _ => None
          end
      end
  | XREVRANGE1 k => match m !! k with
                    | None => Some ([], m)
                    | Some (VStream l) => Some (match last l with Some e => [e] | None => [] end, m)
                    | _ => None
                    end
  | XINFO k => match m !! k with
               | None => Some (None, m)
               | Some (VStream l) => Some (ID <$> head l, m)
               | _ => None
               end
  | PUBLISH _ _ => Some (tt, m)
  | STAMP _ => None
  end.

(** The stream after XADD with a generated ID: the entry is appended and the
    head is trimmed to [maxLen] entries, or not quite as far when the trimming
    is approximate. *)
Definition appended (maxLen : Z) (approx : bool) (fields : gmap string string)
    (l : list XMessage) (id : string) (l' : list XMessage) : Prop :=
  ∃ t drops, id = id_string t ∧ (t.1 < 2 ^ 64)%N ∧ (t.2 < 2 ^ 64)%N ∧ t ≠ (0, 0)%N ∧
    (∀ e, e ∈ l → id_lt (entry_id e) t) ∧
    l' = drop drops (l ++ [mkX id fields]) ∧
    (if approx then drops ≤ S (length l) - Z.to_nat maxLen else drops = S (length l) - Z.to_nat maxLen).

Class Redis (R : Type) := {
  r_exec : ∀ X, cmd X → R → X * R;
  r_view : R → keyspace;
  r_stamp : R → string → Z;
  r_doc X (c : cmd X) r x m :
    doc c (r_view r) = Some (x, m) → (r_exec X c r).1 = x ∧ r_view (r_exec X c r).2 = m;
  r_xadd k maxLen approx fields r l :
    r_view r !! k = None ∧ l = [] ∨ r_view r !! k = Some (VStream l) → (0 < maxLen)%Z →
    (∀ e, e ∈ l → (entry_id e).1 < 2 ^ 64 - 1)%N →
    ∃ l', appended maxLen approx fields l (r_exec _ (XADD k maxLen approx fields) r).1 l' ∧
          r_view (r_exec _ (XADD k maxLen approx fields) r).2 = <[k := VStream l']> (r_view r);
  r_stamp_read k r :
    r_exec _ (STAMP k) r = (r_stamp r k, r);
  r_touch X (c : cmd X) r k :
    (r_stamp r k ≤ r_stamp (r_exec X c r).2 k)%Z ∧
    (r_view (r_exec X c r).2 !! k ≠ r_view r !! k →
       (r_stamp r k < r_stamp (r_exec X c r).2 k)%Z);
}.

#[global] Arguments r_exec {R _ X} c r : rename.

(** ** encoding/json *)

Class Json (A : Type) := {
  Marshal : A → option string;
  Unmarshal : string → option A;
}.

(** Records whose strings are valid UTF-8 survive encoding/json; an object is
    never the empty text. *)
Class JsonLaws (A : Type) `{Json A} := {
  json_valid : A → Prop;
  json_roundtrip a s : json_valid a → Marshal a = Some s → Unmarshal s = Some a;
  json_nonempty a s : Marshal a = Some s → s ≠ "";
}.

(** A key holds the JSON of a record, or neither exists. *)
Definition holds {A} `{Json A} (ok : A → Prop) (v : option rval) (a : option A) : Prop :=
  match v, a with
  | None, None => True
  | Some (VString s), Some a => Marshal a = Some s ∧ ok a
  | _, _ => False
  end.

Lemma holds_read {A} `{JsonLaws A} (ok : A → Prop) (m : keyspace) key a :
  (∀ x, ok x → json_valid x) → holds ok (m !! key) a →
  ∃ raw, doc (GET key) m = Some (raw, m) ∧
    match raw with None => a = None | Some s => Unmarshal s = a ∧ is_Some a end.
Proof.
  intros Hok. unfold holds, doc. destruct (m !! key) as [[s| |]|], a as [a|]; try done.
  - intros [Hm Ha]. eexists. split; [done|]. split; [|by eauto]. eapply json_roundtrip; eauto.
  - by eexists.
Qed.

(** ** Programs *)

(** What the server executes as one step: a command, a script or a pipeline in
    MULTI/EXEC. *)
Inductive Block (A : Type) : Type :=
  | BRet (a : A)
  | BCmd {X : Type} (c : cmd X) (k : X → Block A).
#[global] Arguments BRet {A} a.
#[global] Arguments BCmd {A X} c k.

Definition one {X} (c : cmd X) : Block X := BCmd c BRet.

(** What a client does: blocks sent to the server, whose answer may be an error
    ([None]), separated by local computation. *)
Inductive RProg (A : Type) : Type :=
  | RRet (a : A)
  | RDo {X : Type} (b : Block X) (k : option X → RProg A).
#[global] Arguments RRet {A} a.
#[global] Arguments RDo {A X} b k.

Fixpoint rbind {A B} (p : RProg A) (f : A → RProg B) : RProg B :=
  match p with
  | RRet a => f a
  | RDo b k => RDo b (λ x, rbind (k x) f)
  end.

Section Run.
Context {R : Type} `{Redis R}.

Fixpoint run_block {A} (b : Block A) (r : R) : A * R :=
  match b with
  | BRet a => (a, r)
  | BCmd c k => let '(x, r') := r_exec c r in run_block (k x) r'
  end.

(** A request is answered, fails before the server executes it, or is executed
    and its answer lost. *)
Inductive outcome := Answer | Fail | Lost.

Definition step_block {A} (b : Block A) (o : outcome) (r : R) : option A * R :=
  match o with
  | Answer => let '(x, r') := run_block b r in (Some x, r')
  | Fail => (None, r)
  | Lost => (None, (run_block b r).2)
  end.

(** A run without interference; requests beyond the list of outcomes are answered. *)
Fixpoint run_prog {A} (p : RProg A) (outs : list outcome) (r : R) : A * R :=
  match p with
  | RRet a => (a, r)
  | RDo b k => let '(x, r') := step_block b (hd Answer outs) r in run_prog (k x) (tail outs) r'
  end.

(** Several clients, whose requests are answered in the order of a schedule. *)
Definition step_client {A} (i : nat) (s : list (RProg A) * R) : list (RProg A) * R :=
  match s.1 !! i with
  | Some (RDo b k) => let '(x, r') := step_block b Answer s.2 in (<[i := k x]> s.1, r')
  | _ => s
  end.

Definition interleave {A} (clients : list (RProg A)) (sched : list nat) (r : R) : list (RProg A) * R :=
  foldl (λ s i, step_client i s) (clients, r) sched.

(** ** Interference *)

(** What happens to the server between two steps of a client: anything that
    keeps [wf], the other clients' agreement on the key space, and that WATCH
    would notice. *)
Definition rely (wf : keyspace → Prop) (r r' : R) : Prop :=
  (wf (r_view r) → wf (r_view r')) ∧
  ∀ k, (r_stamp r k ≤ r_stamp r' k)%Z ∧
       (r_view r' !! k ≠ r_view r !! k → (r_stamp r k < r_stamp r' k)%Z).

(** The runs of a program among other clients, with its own transitions. *)
Fixpoint runs (wf : keyspace → Prop) {A} (p : RProg A) (r : R) (tr : list (R * R)) (a : A) (r' : R) : Prop :=
  match p with
  | RRet a0 => tr = [] ∧ a = a0 ∧ rely wf r r'
  | RDo b k => ∃ o r1 x r2 tr', tr = (r1, r2) :: tr' ∧ rely wf r r1 ∧ step_block b o r1 = (x, r2) ∧
      runs wf (k x) r2 tr' a r'
  end.

(** ** Lemmas *)

(** A block whose commands are all documented computes on key spaces. *)
Fixpoint doc_block {A} (b : Block A) (m : keyspace) : option (A * keyspace) :=
  match b with
  | BRet a => Some (a, m)
  | BCmd c k => '(x, m') ← doc c m; doc_block (k x) m'
  end.

Lemma run_block_doc {A} (b : Block A) : ∀ r a m,
  doc_block b (r_view r) = Some (a, m) → (run_block b r).1 = a ∧ r_view (run_block b r).2 = m.
Proof.
  induction b as [a|X c k IH]; intros r a' m; cbn [doc_block run_block].
  { intros [= <- <-]. done. }
  intros ([x m'] & Hd & Hb)%bind_Some. apply r_doc in Hd as [H1 H2].
  destruct (r_exec c r) as [x' r'] eqn:He. simpl in H1, H2. subst. by apply IH.
Qed.

Lemma run_block_touch {A} (b : Block A) : ∀ r k,
  (r_stamp r k ≤ r_stamp (run_block b r).2 k)%Z ∧
  (r_view (run_block b r).2 !! k ≠ r_view r !! k → (r_stamp r k < r_stamp (run_block b r).2 k)%Z).
Proof.
  induction b as [a|X c kk IH]; intros r k; cbn [run_block]; [simpl; split; [lia|done]|].
  pose proof (r_touch X c r k) as Ht. destruct (r_exec c r) as [x r'] eqn:He. destruct Ht as [H1 H2]. simpl in H1, H2.
  destruct (IH x r' k) as [H3 H4]. split; [lia|]. intros Hne.
  destruct (decide (r_view r' !! k = r_view r !! k)) as [Heq|Hn]; [|by specialize (H2 Hn); lia].
  rewrite Heq in H4. specialize (H4 Hne). lia.
Qed.

Lemma step_block_touch {A} (b : Block A) o r x r' k :
  step_block b o r = (x, r') →
  (r_stamp r k ≤ r_stamp r' k)%Z ∧ (r_view r' !! k ≠ r_view r !! k → (r_stamp r k < r_stamp r' k)%Z).
Proof.
  pose proof (run_block_touch b r k) as Ht. destruct o; simpl.
  - destruct (run_block b r). intros [= <- <-]. done.
  - intros [= <- <-]. split; [lia|done].
  - intros [= <- <-]. done.
Qed.

(** The three outcomes of a documented block. *)
Lemma step_block_doc {A} (b : Block A) o r x r' a m :
  doc_block b (r_view r) = Some (a, m) → step_block b o r = (x, r') →
  (x = Some a ∧ r_view r' = m) ∨ (x = None ∧ r' = r) ∨ (x = None ∧ r_view r' = m).
Proof.
  intros [H1 H2]%run_block_doc. destruct o; simpl.
  - destruct (run_block b r) as [y r2]. intros [= <- <-]. simpl in *. subst. auto.
  - intros [= <- <-]. auto.
  - intros [= <- <-]. auto.
Qed.

Lemma doc_SET k v px m : doc (SET k v px) m = Some (tt, <[k := VString v]> m).
Proof. done. Qed.

Lemma doc_EXISTS k m : doc (EXISTS k) m = Some (bool_decide (is_Some (m !! k)), m).
Proof. done. Qed.

(** One answered request of a run without interference. *)
Lemma run_one {X A} (c : cmd X) (k : option X → RProg A) r x m :
  doc c (r_view r) = Some (x, m) →
  ∃ r', r_view r' = m ∧ run_prog (RDo (one c) k) [] r = run_prog (k (Some x)) [] r'.
Proof.
  intros [H1 H2]%r_doc. exists (r_exec c r).2. split; [done|]. cbn. destruct (r_exec c r). cbn in *. by subst.
Qed.

Lemma run_prog_bind {A B} (p : RProg A) (f : A → RProg B) : ∀ r,
  run_prog (rbind p f) [] r = run_prog (f (run_prog p [] r).1) [] (run_prog p [] r).2.
Proof.
  induction p as [a|X b k IH]; intros r; [done|]. cbn [rbind run_prog hd tail].
  destruct (step_block b Answer r) as [x r']. apply IH.
Qed.

Lemma rely_refl wf (r : R) : rely wf r r.
Proof. split; [done|]. intros k. split; [lia|done]. Qed.

(** Runs without interference are runs. *)
Lemma run_prog_runs wf {A} (p : RProg A) : ∀ outs (r : R),
  ∃ tr, runs wf p r tr (run_prog p outs r).1 (run_prog p outs r).2.
Proof.
  induction p as [a|X b k IH]; intros outs r; cbn [run_prog runs].
  { exists []. split_and!; [done..|]. apply rely_refl. }
  destruct (step_block b (hd Answer outs) r) as [x r'] eqn:Hs.
  destruct (IH x (tail outs) r') as [tr Htr]. exists ((r, r') :: tr), (hd Answer outs), r, x, r', tr.
  split_and!; [done|apply rely_refl|done..].
Qed.

End Run.

(** Run the next request, whose documented answer is [Hdoc]. *)
Ltac answer_one Hdoc r' Hv :=
  match goal with
  | |- context [run_prog (RDo (one ?c) ?k) [] ?r] => destruct (run_one c k r _ _ Hdoc) as (r' & Hv & ->)
  end.

(** ** A server *)

(** A small server that follows the documentation: it trims exactly, gives every
    entry of a stream its own millisecond, and never expires a key by itself. *)
Record server := mkServer { sv_view : keyspace; sv_writes : Z }.

Definition no_answer {X} (c : cmd X) : X :=
  match c with
  | GET _ => None | SET _ _ _ => tt | DEL _ => tt | EXISTS _ => false | INCR _ => 0%Z
  | PEXPIRE _ _ => tt | SADD _ _ => tt | SREM _ _ => tt | SMEMBERS _ => [] | SCARD _ => 0%Z
  | XADD _ _ _ _ => "" | XRANGE _ _ _ => [] | XREVRANGE1 _ => [] | XINFO _ => None | PUBLISH _ _ => tt | STAMP _ => 0%Z
  end.

Definition next_id (l : list XMessage) : N * N :=
  ((foldr (λ e, N.max (entry_id e).1) 0 l + 1)%N, 0%N).

Definition sv_xadd (k : string) (maxLen : Z) (fields : gmap string string) (m : keyspace) : string * keyspace :=
  let l := match m !! k with Some (VStream l) => l | _ => [] end in
  let e := mkX (id_string (next_id l)) fields in
  (ID e, <[k := VStream (drop (S (length l) - Z.to_nat maxLen) (l ++ [e]))]> m).

Definition sv_write (m : keyspace) (sv : server) : server :=
  mkServer m (if decide (m = sv_view sv) then sv_writes sv else (sv_writes sv + 1)%Z).

Definition sv_exec X (c : cmd X) (sv : server) : X * server :=
  match c in cmd X return X * server with
  | STAMP _ => (sv_writes sv, sv)
  | XADD k maxLen _ fields => let '(id, m) := sv_xadd k maxLen fields (sv_view sv) in (id, sv_write m sv)
  | c => match doc c (sv_view sv) with
         | Some (x, m) => (x, sv_write m sv)
         | None => (no_answer c, sv)
         end
  end.

Lemma next_id_gt l e : e ∈ l → id_lt (entry_id e) (next_id l).
Proof.
  intros He. left. unfold next_id. cbn [fst].
  assert ((entry_id e).1 ≤ foldr (λ e, N.max (entry_id e).1) 0 l)%N; [|lia].
  induction He as [l|e y l _ IH]; cbn; lia.
Qed.

Lemma next_id_bound l : (∀ e, e ∈ l → (entry_id e).1 < 2 ^ 64 - 1)%N → ((next_id l).1 < 2 ^ 64)%N.
Proof.
  intros Hl. unfold next_id. cbn [fst].
  assert (foldr (λ e, N.max (entry_id e).1) 0 l < 2 ^ 64 - 1)%N; [|lia].
  induction l as [|e l IH]; cbn; [lia|]. apply N.max_lub_lt; [apply Hl; by left|].
  apply IH. intros e' He'. apply Hl. by right.
Qed.

#[export] Program Instance server_redis : Redis server := {
  r_exec := sv_exec;
  r_view := sv_view;
  r_stamp sv _ := sv_writes sv;
}.
Next Obligation. intros X c r x m Hd. destruct c; unfold sv_exec; try rewrite Hd; done. Qed.
Next Obligation.
  intros k maxLen approx fields r l Hl Hmax Hb. cbn. unfold sv_xadd.
  replace (match sv_view r !! k with Some (VStream l) => l | _ => [] end) with l
    by (destruct Hl as [[-> ->]| ->]; done).
  eexists. split; [|done]. exists (next_id l), (S (length l) - Z.to_nat maxLen).
  split_and!; [done|by apply next_id_bound|done|unfold next_id; intros [=]; lia|apply next_id_gt|done|].
  by destruct approx.
Qed.
Next Obligation. done. Qed.
Next Obligation.
  intros X c r k. assert (∀ m, (sv_writes r ≤ sv_writes (sv_write m r))%Z ∧
    (sv_view (sv_write m r) !! k ≠ sv_view r !! k → (sv_writes r < sv_writes (sv_write m r))%Z)) as Hw.
  { intros m. unfold sv_write. case_decide as Heq; cbn; [subst; split; [lia|done]|lia]. }
  destruct c; cbn -[doc sv_xadd sv_write]; try (case_match; [case_match|]); cbn -[sv_write]; try apply Hw;
    by split; [lia|].
Qed.

End Redis.
