(* ===== verification/RedisDirectory.v ===== *)
(** * RedisDirectory: the session directory kept in Redis
      (pkg/redisbroker/cluster_directory.go)

    The methods as programs over Redis, with the WATCH transaction and the two
    Lua scripts as the server executes them, and the theorem that they implement
    the directory of Directory.v: among any other clients each call takes effect
    in one step, with the answer the directory would give.  encoding/json and
    Lua's cjson are parameters. *)

From S2P Require Import Prelude Strconv Directory Redis.
Import Directory.

Module RedisDirectory.
Import Redis.

(** ** Keys (options.go, cluster_directory.go) *)

Definition defaultClusterPrefix : string := "ml2:cluster:".
Definition defaultClusterNodePrefix : string := "ml2:cluster:node:".
Definition defaultClusterSessionLeasePrefix : string := "ml2:cluster:session:lease:".
Definition defaultClusterSessionSnapshotPrefix : string := "ml2:cluster:session:snapshot:".

Definition nodeLeaseKey (nodeID incarnationID : string) : string :=
  defaultClusterNodePrefix +:+ nodeID +:+ String ":" incarnationID.

Definition nodeEpochKey (nodeID : string) : string := defaultClusterPrefix +:+ "node_epoch:" +:+ nodeID.

Definition sessionLeaseKey (sessionID : string) : string := defaultClusterSessionLeasePrefix +:+ sessionID.

Definition sessionSnapshotKey (sessionID : string) : string :=
  defaultClusterSessionSnapshotPrefix +:+ sessionID.

Definition userMemberKey (namespace userID sessionID : string) : string :=
  defaultClusterPrefix +:+ "user:member:" +:+ namespace +:+ String ":" (userID +:+ String ":" sessionID).

Definition userSessionsKey (namespace userID : string) : string :=
  defaultClusterPrefix +:+ "user:sessions:" +:+ namespace +:+ String ":" userID.

(** ** JSON *)

(** encoding/json on the stored records, and what cjson.decode makes of the
    fields of a lease the scripts look at.  [num] is the Lua number of a JSON
    integer. *)
Record LuaLease (D : Type) := mkLua {
  lua_session_id : string; lua_node_id : string; lua_incarnation_id : string; lua_lease_version : D;
}.
#[global] Arguments mkLua {D}.
#[global] Arguments lua_session_id {D}.
#[global] Arguments lua_node_id {D}.
#[global] Arguments lua_incarnation_id {D}.
#[global] Arguments lua_lease_version {D}.

Class Cjson (D : Type) `{EqDecision D} := {
  num : Z → D;
  cjson_lease : string → option (LuaLease D);
}.

(** Lua numbers are doubles: integers below 2^53 are exact. *)
Class CjsonLaws (D : Type) `{Cjson D} `{JsonLaws ClusterSessionLease} := {
  num_exact a b : (0 ≤ a < 2 ^ 53)%Z → (0 ≤ b < 2 ^ 53)%Z → num a = num b → a = b;
  cjson_fields l s :
    json_valid l → Marshal l = Some s →
    cjson_lease s = Some (mkLua (l_SessionID l) (l_NodeID l) (l_IncarnationID l) (num (l_LeaseVersion l)));
}.

Section Directory_.
Context {D : Type} `{Json ClusterSessionLease} `{Json ClusterSessionSnapshot} `{Json ClusterNodeLease}.
Context `{EqDecision D} `{!Cjson D}.

(** Answers: [None] is an error of the call. *)
Definition answer {A X} (r : option A) (k : A → RProg (option X)) : RProg (option X) :=
  match r with Some a => k a | None => RRet None end.

(** ** Plain reads and writes *)

Definition setJSON {A} `{Json A} (key : string) (value : A) (ttl : Z) : RProg (option unit) :=
  match Marshal value with
  | None => RRet None
  | Some payload => RDo (one (SET key payload ttl)) (λ r, RRet r)
  end.

(** [Some None]: the key does not exist. *)
Definition getJSON {A} `{Json A} (key : string) : RProg (option (option A)) :=
  RDo (one (GET key)) (λ r, answer r (λ data,
    match data with
    | None => RRet (Some None)
    | Some data => match Unmarshal data with
                   | None => RRet None
                   | Some a => RRet (Some (Some a))
                   end
    end)).

Definition PutNodeLease (lease : option ClusterNodeLease) (ttl : Z) : RProg (option unit) :=
  match lease with
  | None => RRet (Some tt)
  | Some l => if bool_decide (nl_NodeID l = "") || bool_decide (nl_IncarnationID l = "") then RRet (Some tt)
              else setJSON (nodeLeaseKey (nl_NodeID l) (nl_IncarnationID l)) l ttl
  end.

Definition GetNodeLease (nodeID incarnationID : string) : RProg (option (option ClusterNodeLease)) :=
  if bool_decide (nodeID = "") || bool_decide (incarnationID = "") then RRet (Some None)
  else getJSON (nodeLeaseKey nodeID incarnationID).

Definition GetSessionLease (sessionID : string) : RProg (option (option ClusterSessionLease)) :=
  if bool_decide (sessionID = "") then RRet (Some None) else getJSON (sessionLeaseKey sessionID).

Definition PutSessionSnapshot (snapshot : option ClusterSessionSnapshot) (ttl : Z) : RProg (option unit) :=
  match snapshot with
  | None => RRet (Some tt)
  | Some s => if bool_decide (sn_SessionID s = "") then RRet (Some tt)
              else setJSON (sessionSnapshotKey (sn_SessionID s)) s ttl
  end.

Definition GetSessionSnapshot (sessionID : string) : RProg (option (option ClusterSessionSnapshot)) :=
  if bool_decide (sessionID = "") then RRet (Some None) else getJSON (sessionSnapshotKey sessionID).

Definition DeleteSessionSnapshot (sessionID : string) : RProg (option unit) :=
  if bool_decide (sessionID = "") then RRet (Some tt)
  else RDo (one (DEL (sessionSnapshotKey sessionID))) (λ r, RRet r).

(** The first epoch of a node is 1. *)
Definition NextNodeEpoch (nodeID : string) : RProg (option Z) :=
  if bool_decide (nodeID = "") then RRet None
  else RDo (one (INCR (nodeEpochKey nodeID))) (λ r, answer r (λ epoch, RRet (Some (u64 epoch)))).

(** ** The user index *)

Definition AddUserSession (namespace userID sessionID : string) (ttl : Z) : RProg (option unit) :=
  if bool_decide (userID = "") || bool_decide (sessionID = "") then RRet (Some tt)
  else
    let ttl := if (ttl <=? 0)%Z then 1000%Z else ttl in
    RDo (BCmd (SET (userMemberKey namespace userID sessionID) "1" ttl) (λ _,
         BCmd (SADD (userSessionsKey namespace userID) sessionID) BRet)) (λ r, RRet r).

Definition RemoveUserSession (namespace userID sessionID : string) : RProg (option unit) :=
  if bool_decide (userID = "") || bool_decide (sessionID = "") then RRet (Some tt)
  else
    RDo (BCmd (DEL (userMemberKey namespace userID sessionID)) (λ _,
         BCmd (SREM (userSessionsKey namespace userID) [sessionID]) BRet)) (λ r, RRet r).

Definition ListUserSessions (namespace userID : string) : RProg (option (list string)) :=
  if bool_decide (userID = "") then RRet (Some [])
  else RDo (one (SMEMBERS (userSessionsKey namespace userID))) (λ r, RRet r).

(** cluster.SyncUserIndex against this directory. *)
Definition SyncUserIndex (oldLease newLease : option ClusterSessionLease) (ttl : Z) : RProg (option unit) :=
  let sessionID := match newLease, oldLease with
                   | Some l, _ | None, Some l => l_SessionID l
                   | None, None => ""
                   end in
  if bool_decide (sessionID = "") then RRet (Some tt)
  else match newLease with
       | None =>
           match oldLease with
           | Some o => if bool_decide (l_UserID o = "") then RRet (Some tt)
                       else RemoveUserSession (l_Namespace o) (l_UserID o) sessionID
           | None => RRet (Some tt)
           end
       | Some n =>
           let add := if bool_decide (l_UserID n = "") then RRet (Some tt)
                      else AddUserSession (l_Namespace n) (l_UserID n) sessionID ttl in
           match oldLease with
           | Some o =>
               if negb (bool_decide (l_UserID o = "")) &&
                  (negb (bool_decide (l_UserID o = l_UserID n)) ||
                   negb (bool_decide (l_Namespace o = l_Namespace n)))
               then rbind (RemoveUserSession (l_Namespace o) (l_UserID o) sessionID) (λ r,
                      match r with Some _ => add | None => RRet None end)
               else add
           | None => add
           end
       end.

(** A failure is only logged. *)
Definition syncUserIndex (oldLease newLease : option ClusterSessionLease) (ttl : Z) : RProg (option unit) :=
  rbind (SyncUserIndex oldLease newLease ttl) (λ _, RRet (Some tt)).

(** [return true, d.syncUserIndex(...)]. *)
Definition won {X} (x : X) (oldLease newLease : option ClusterSessionLease) (ttl : Z) : RProg (option X) :=
  rbind (syncUserIndex oldLease newLease ttl) (λ r, answer r (λ _, RRet (Some x))).

(** ** Compare and swap *)

(** clusterSessionLeaseEqual is the comparison of sim/directory.go. *)
Definition clusterSessionLeaseEqual (left_ right_ : option ClusterSessionLease) : bool :=
  match left_, right_ with
  | Some l, Some r =>
      bool_decide (l_SessionID l = l_SessionID r) && bool_decide (l_NodeID l = l_NodeID r) &&
      bool_decide (l_IncarnationID l = l_IncarnationID r) && (l_LeaseVersion l =? l_LeaseVersion r)%Z
  | None, None => true
  | _, _ => false
  end.

(** EXEC after WATCH: aborted ([false]) when the key was touched since. *)
Definition exec_unless_touched (key : string) (stamp : Z) (c : cmd unit) : Block bool :=
  BCmd (STAMP key) (λ now, if (now =? stamp)%Z then BCmd c (λ _, BRet true) else BRet false).

Definition CompareAndSwapSessionLease (expected desired : option ClusterSessionLease) (ttl : Z)
    : RProg (option bool) :=
  match desired with
  | None => RRet (Some false)
  | Some desired =>
      if bool_decide (l_SessionID desired = "") then RRet (Some false)
      else
        let key := sessionLeaseKey (l_SessionID desired) in
        RDo (one (STAMP key)) (λ r, answer r (λ stamp,
        RDo (one (GET key)) (λ r, answer r (λ current,
          match (match current with None => Some None | Some raw => Some <$> Unmarshal raw end) with
          | None => RRet None
          | Some currentLease =>
              if negb (clusterSessionLeaseEqual currentLease expected) then RRet (Some false)
              else match Marshal desired with
                   | None => RRet None
                   | Some payload =>
                       RDo (exec_unless_touched key stamp (SET key payload ttl)) (λ r, answer r (λ done,
                         if done : bool then won true expected (Some desired) ttl
                         else RRet (Some false)))
                   end
          end))))
  end.

(** The comparison of the script; [None] is a Lua error (cjson.decode of
    something else). *)
Definition lease_matches (expectedJSON : string) (current : option string) : option bool :=
  if bool_decide (expectedJSON = "") then Some (negb (bool_decide (is_Some current)))
  else match current with
       | None => Some false
       | Some current =>
           cur ← cjson_lease current; exp ← cjson_lease expectedJSON;
           Some (bool_decide (lua_session_id cur = lua_session_id exp) &&
                 bool_decide (lua_node_id cur = lua_node_id exp) &&
                 bool_decide (lua_incarnation_id cur = lua_incarnation_id exp) &&
                 bool_decide (lua_lease_version cur = lua_lease_version exp))
       end.

Definition compareAndSwapSessionStateScript (leaseKey snapshotKey expectedJSON desiredJSON snapshotJSON : string)
    (leasePX snapshotPX : Z) : Block (option Z) :=
  BCmd (GET leaseKey) (λ current,
    match lease_matches expectedJSON current with
    | None => BRet None
    | Some false => BRet (Some 0%Z)
    | Some true =>
        BCmd (SET leaseKey desiredJSON leasePX) (λ _,
          if bool_decide (snapshotJSON = "") then BRet (Some 1%Z)
          else BCmd (SET snapshotKey snapshotJSON snapshotPX) (λ _, BRet (Some 1%Z)))
    end).

Definition ttlMilliseconds (ms : Z) : Z := if (0 <? ms)%Z then ms else 1.

(** The JSON of an optional record, "" for none; [None] is the error. *)
Definition json_or_empty {A} `{Json A} (a : option A) : option string :=
  match a with None => Some "" | Some a => Marshal a end.

Definition CompareAndSwapSessionState (expected desired : option ClusterSessionLease)
    (snapshot : option ClusterSessionSnapshot) (leaseTTL snapshotTTL : Z) : RProg (option bool) :=
  match desired with
  | None => RRet (Some false)
  | Some desired =>
      if bool_decide (l_SessionID desired = "") then RRet (Some false)
      else answer (json_or_empty expected) (λ expectedJSON,
           answer (Marshal desired) (λ desiredJSON,
           answer (json_or_empty (match snapshot with
                                  | Some s => if bool_decide (sn_SessionID s = "") then None else Some s
                                  | None => None
                                  end)) (λ snapshotJSON,
             RDo (compareAndSwapSessionStateScript (sessionLeaseKey (l_SessionID desired))
                    (sessionSnapshotKey (l_SessionID desired)) expectedJSON desiredJSON snapshotJSON
                    (ttlMilliseconds leaseTTL) (ttlMilliseconds snapshotTTL)) (λ r,
               answer (mjoin r) (λ result,
                 if negb (result =? 1)%Z then RRet (Some false)
                 else won true expected (Some desired) leaseTTL)))))
  end.

(** ** Deleting leases *)

Definition DeleteSessionLease (sessionID : string) : RProg (option unit) :=
  if bool_decide (sessionID = "") then RRet (Some tt)
  else rbind (GetSessionLease sessionID) (λ r, answer r (λ lease,
       RDo (one (DEL (sessionLeaseKey sessionID))) (λ r, answer r (λ _,
         syncUserIndex lease None 0)))).

(** [Some None]: Lua false. *)
Definition deleteSessionLeaseIfOwnerScript (leaseKey nodeID incarnationID : string)
    : Block (option (option string)) :=
  BCmd (GET leaseKey) (λ current,
    match current with
    | None => BRet (Some None)
    | Some current =>
        match cjson_lease current with
        | None => BRet None
        | Some cur =>
            if negb (bool_decide (lua_node_id cur = nodeID)) ||
               negb (bool_decide (lua_incarnation_id cur = incarnationID))
            then BRet (Some None)
            else BCmd (DEL leaseKey) (λ _, BRet (Some (Some current)))
        end
    end).

Definition DeleteSessionLeaseIfOwner (sessionID nodeID incarnationID : string) : RProg (option bool) :=
  if bool_decide (sessionID = "") || bool_decide (nodeID = "") || bool_decide (incarnationID = "")
  then RRet (Some false)
  else RDo (deleteSessionLeaseIfOwnerScript (sessionLeaseKey sessionID) nodeID incarnationID) (λ r,
    answer (mjoin r) (λ raw,
      match raw with
      | None => RRet (Some false)
      | Some raw => match Unmarshal raw with
                    | Some lease => won true (Some lease) None 0
                    | None => RRet (Some true)
                    end
      end)).

(** ** The directory calls the nodes make (Directory.v) *)

Inductive implements : ∀ X, call X → RProg (option X) → Prop :=
  | impl_get_lease sid : implements _ (CGetLease sid) (GetSessionLease sid)
  | impl_get_snapshot sid : implements _ (CGetSnapshot sid) (GetSessionSnapshot sid)
  | impl_get_node n i : implements _ (CGetNode n i) (GetNodeLease n i)
  | impl_cas_lease e l ttl : implements _ (CCasLease e l) (CompareAndSwapSessionLease e (Some l) ttl)
  | impl_cas_state e l s ttl sttl :
      implements _ (CCasState e l s) (CompareAndSwapSessionState e (Some l) (Some s) ttl sttl)
  | impl_delete sid n i : implements _ (CDeleteIfOwner sid n i) (DeleteSessionLeaseIfOwner sid n i)
  | impl_put_snapshot s ttl : implements _ (CPutSnapshot s) (PutSessionSnapshot (Some s) ttl)
  | impl_delete_snapshot sid : implements _ (CDeleteSnapshot sid) (DeleteSessionSnapshot sid)
  | impl_add_user ns u sid ttl : implements _ (CAddUser ns u sid) (AddUserSession ns u sid ttl)
  | impl_put_node l ttl : implements _ (CPutNode l) (PutNodeLease (Some l) ttl).

End Directory_.

(** ** What the key space stands for *)

Section Refines.
Context {R : Type} `{Redis R}.
Context {D : Type} `{JsonLaws ClusterSessionLease} `{JsonLaws ClusterSessionSnapshot}
  `{JsonLaws ClusterNodeLease}.
Context `{EqDecision D} `{!Cjson D} `{!CjsonLaws D}.

Definition lease_ok (l : ClusterSessionLease) : Prop :=
  json_valid l ∧ (0 ≤ l_LeaseVersion l < 2 ^ 53)%Z.

(** The key space stores the leases, snapshots and node leases of [d]; the user
    index, which is only a hint, has sets where sets are expected.  Incarnation
    IDs are decimal numerals, without ":". *)
Record rep (m : keyspace) (d : Directory) : Prop := {
  rep_lease sid : sid ≠ "" → holds lease_ok (m !! sessionLeaseKey sid) (d_sessionLeases d !! sid);
  rep_snapshot sid : sid ≠ "" → holds json_valid (m !! sessionSnapshotKey sid) (d_snapshots d !! sid);
  rep_node n i : n ≠ "" → i ≠ "" → has_char ":" i = false →
    holds json_valid (m !! nodeLeaseKey n i) (d_nodeLeases d !! (n, i));
  rep_users ns u : ∃ s : gset string,
    m !! userSessionsKey ns u = None ∨ m !! userSessionsKey ns u = Some (VSet s);
}.

Definition wf (m : keyspace) : Prop := ∃ d, rep m d.

(** The arguments of the calls: IDs are present, records can be encoded, the
    snapshot written beside a lease is the same session's. *)
Definition call_valid {X} (c : call X) : Prop :=
  match c with
  | CGetLease sid | CGetSnapshot sid | CDeleteSnapshot sid => sid ≠ ""
  | CGetNode n i => n ≠ "" ∧ i ≠ "" ∧ has_char ":" i = false
  | CCasLease e l => l_SessionID l ≠ "" ∧ lease_ok l
  | CCasState e l s =>
      l_SessionID l ≠ "" ∧ lease_ok l ∧ from_option lease_ok True e ∧
      sn_SessionID s = l_SessionID l ∧ json_valid s
  | CDeleteIfOwner sid n i => sid ≠ "" ∧ n ≠ "" ∧ i ≠ ""
  | CPutSnapshot s => sn_SessionID s ≠ "" ∧ json_valid s
  | CPutNode l => nl_NodeID l ≠ "" ∧ nl_IncarnationID l ≠ "" ∧ has_char ":" (nl_IncarnationID l) = false ∧
                  json_valid l
  | CAddUser _ u sid => u ≠ "" ∧ sid ≠ ""
  | CListLeases | CListNodes | CTakeover _ => True
  end.

(** A transition of the client that the directory does not see. *)
Definition silent (t : R * R) : Prop := ∀ d, rep (r_view t.1) d → rep (r_view t.2) d.

(** A transition that is the directory's call with outcome [o]. *)
Definition commits {X} (c : call X) (o : Directory.outcome) (x : option X) (t : R * R) : Prop :=
  ∀ d, rep (r_view t.1) d → (step_call c o d).1 = x ∧ rep (r_view t.2) (step_call c o d).2.

(** A lost race for the transaction is answered like a failed comparison. *)
Definition lost_race {X} (c : call X) (x : option X) : Prop :=
  match c in call X return option X → Prop with
  | CCasLease _ _ => λ x, x = Some false
  | _ => λ _, False
  end x.

(** ** Keys never collide *)

Lemma nodeLeaseKey_inj n i n' i' :
  has_char ":" i = false → has_char ":" i' = false → nodeLeaseKey n i = nodeLeaseKey n' i' → n = n' ∧ i = i'.
Proof. intros ?? Heq%key_inj. by apply str_last_sep_inj in Heq. Qed.

Ltac keys_ne := unfold sessionLeaseKey, sessionSnapshotKey, nodeLeaseKey, userSessionsKey, userMemberKey,
  defaultClusterPrefix, defaultClusterNodePrefix, defaultClusterSessionLeasePrefix,
  defaultClusterSessionSnapshotPrefix; discriminate.

(** Writing a key of one family leaves the others alone. *)
Lemma rep_write_lease m d sid v a :
  sid ≠ "" → rep m d → holds lease_ok v a →
  rep (partial_alter (λ _, v) (sessionLeaseKey sid) m)
      (set_leases d (partial_alter (λ _, a) sid (d_sessionLeases d))).
Proof.
  intros Hs [H1' H2' H3' H4'] Hv. split.
  - intros sid' Hs'. simpl. destruct (decide (sid = sid')) as [->|Hne].
    + by rewrite !lookup_partial_alter_eq.
    + rewrite !lookup_partial_alter_ne; [by apply H1'|done|]. intros Heq. by apply key_inj in Heq.
  - intros. rewrite lookup_partial_alter_ne by keys_ne. by apply H2'.
  - intros. rewrite lookup_partial_alter_ne by keys_ne. by apply H3'.
  - intros ns u. rewrite lookup_partial_alter_ne by keys_ne. apply H4'.
Qed.

Lemma rep_write_snapshot m d sid v a :
  sid ≠ "" → rep m d → holds json_valid v a →
  rep (partial_alter (λ _, v) (sessionSnapshotKey sid) m)
      (set_snapshots d (partial_alter (λ _, a) sid (d_snapshots d))).
Proof.
  intros Hs [H1' H2' H3' H4'] Hv. split.
  - intros. rewrite lookup_partial_alter_ne by keys_ne. by apply H1'.
  - intros sid' Hs'. simpl. destruct (decide (sid = sid')) as [->|Hne].
    + by rewrite !lookup_partial_alter_eq.
    + rewrite !lookup_partial_alter_ne; [by apply H2'|done|]. intros Heq. by apply key_inj in Heq.
  - intros. rewrite lookup_partial_alter_ne by keys_ne. by apply H3'.
  - intros ns u. rewrite lookup_partial_alter_ne by keys_ne. apply H4'.
Qed.

Lemma rep_write_node m d n i v a :
  has_char ":" i = false → rep m d → holds json_valid v a →
  rep (partial_alter (λ _, v) (nodeLeaseKey n i) m)
      (set_nodeLeases d (partial_alter (λ _, a) (n, i) (d_nodeLeases d))).
Proof.
  intros Hi [H1' H2' H3' H4'] Hv. split.
  - intros. rewrite lookup_partial_alter_ne by keys_ne. by apply H1'.
  - intros. rewrite lookup_partial_alter_ne by keys_ne. by apply H2'.
  - intros n' i' Hn' Hi' Hc. simpl. destruct (decide ((n, i) = (n', i'))) as [[= -> ->]|Hne].
    + by rewrite !lookup_partial_alter_eq.
    + rewrite !lookup_partial_alter_ne; [by apply H3'|done|].
      intros [-> ->]%nodeLeaseKey_inj; done.
  - intros ns u. rewrite lookup_partial_alter_ne by keys_ne. apply H4'.
Qed.

Lemma rep_other m d k v :
  (∀ x, k ≠ sessionLeaseKey x) → (∀ x, k ≠ sessionSnapshotKey x) → (∀ x y, k ≠ nodeLeaseKey x y) →
  (∀ ns u, k = userSessionsKey ns u → ∃ s, v = None ∨ v = Some (VSet s)) →
  rep m d → rep (partial_alter (λ _, v) k m) d.
Proof.
  intros Hl Hs Hn Hu [H1' H2' H3' H4']. split.
  1-3: intros; rewrite lookup_partial_alter_ne by done; auto.
  intros ns u. destruct (decide (k = userSessionsKey ns u)) as [->|Hne].
  - rewrite lookup_partial_alter_eq. by eapply Hu.
  - rewrite lookup_partial_alter_ne by done. apply H4'.
Qed.

(** ** Steps the directory does not see *)

Definition quiet_block {X} (b : Block X) : Prop :=
  ∀ m d, rep m d → ∃ a m', doc_block b m = Some (a, m') ∧ rep m' d.

(** The program makes quiet steps only and its answer satisfies [P]. *)
Fixpoint quietly {A} (p : RProg A) (P : A → Prop) : Prop :=
  match p with
  | RRet a => P a
  | RDo b k => quiet_block b ∧ ∀ y, quietly (k y) P
  end.

Abbreviation quiet p x := (quietly p (λ a, a = x)).

Lemma quiet_block_silent {X} (b : Block X) o r y r' :
  quiet_block b → step_block b o r = (y, r') → silent (r, r').
Proof.
  intros Hb Hstep d Hd. destruct (Hb _ _ Hd) as (a & m' & Hdoc & Hrep). simpl.
  destruct (step_block_doc _ _ _ _ _ _ _ Hdoc Hstep) as [[_ ->]|[[_ ->]|[_ ->]]]; done.
Qed.

Lemma runs_quiet {A} (p : RProg A) x : ∀ r tr a (r' : R),
  quiet p x → runs wf p r tr a r' → Forall silent tr ∧ a = x.
Proof.
  induction p as [a0|X b k IH]; intros r tr a r'; cbn.
  { intros -> (-> & -> & _). done. }
  intros [Hb Hk] (o & r1 & y & r2 & tr' & -> & _ & Hstep & Hruns).
  destruct (IH y _ _ _ _ (Hk y) Hruns) as [? ->]. split; [|done].
  constructor; [by eapply quiet_block_silent|done].
Qed.

Lemma quietly_bind {A B} (p : RProg A) (f : A → RProg B) P Q :
  quietly p P → (∀ a, P a → quietly (f a) Q) → quietly (rbind p f) Q.
Proof.
  intros Hp Hf. induction p as [a|X b k IH]; cbn in *; [by apply Hf|].
  destruct Hp as [Hb Hk]. split; [done|]. intros y. apply IH, Hk.
Qed.

Lemma quiet_add_user ns u sid ttl :
  quiet_block (BCmd (SET (userMemberKey ns u sid) "1" ttl) (λ _,
               BCmd (SADD (userSessionsKey ns u) sid) BRet)).
Proof.
  intros m d Hd. cbn. assert (rep (<[userMemberKey ns u sid := VString "1"]> m) d) as Hm.
  { apply rep_other; [intros; keys_ne..|done]. }
  destruct (rep_users _ _ Hm ns u) as (s & [Hs|Hs]); rewrite Hs; cbn; (do 2 eexists; split; [done|]).
  all: apply rep_other; [intros; keys_ne..|eauto|done].
Qed.

Lemma quiet_remove_user ns u sid :
  quiet_block (BCmd (DEL (userMemberKey ns u sid)) (λ _,
               BCmd (SREM (userSessionsKey ns u) [sid]) BRet)).
Proof.
  intros m d Hd. cbn. assert (rep (delete (userMemberKey ns u sid) m) d) as Hm.
  { apply rep_other; [intros; keys_ne..|done]. }
  destruct (rep_users _ _ Hm ns u) as (s & [Hs|Hs]); rewrite Hs; cbn; (do 2 eexists; split; [done|]);
    [done|].
  case_bool_decide; (apply rep_other; [intros; keys_ne..| |done]); [by exists ∅; left|by eauto].
Qed.

Lemma quiet_AddUserSession ns u sid ttl : quietly (AddUserSession ns u sid ttl) (λ _, True).
Proof. unfold AddUserSession. case_match; [done|]. split; [apply quiet_add_user|done]. Qed.

Lemma quiet_RemoveUserSession ns u sid : quietly (RemoveUserSession ns u sid) (λ _, True).
Proof. unfold RemoveUserSession. case_match; [done|]. split; [apply quiet_remove_user|done]. Qed.

Lemma quiet_SyncUserIndex o n ttl : quietly (SyncUserIndex o n ttl) (λ _, True).
Proof.
  pose proof quiet_AddUserSession. pose proof quiet_RemoveUserSession. unfold SyncUserIndex.
  destruct n as [n|], o as [o|]; repeat case_match; try done; auto.
  all: eapply quietly_bind; [done|]; intros [[]|] _; done || auto.
Qed.

(** Keeping the user index in step does not change the directory. *)
Lemma quiet_won {X} (x : X) o n ttl : quiet (won x o n ttl) (Some x).
Proof.
  unfold won, syncUserIndex. eapply (quietly_bind _ _ (λ a, a = Some tt)); [|by intros _ ->].
  eapply quietly_bind; [apply quiet_SyncUserIndex|done].
Qed.

(** ** Linearization *)

(** Every transition but one is silent, and that one is the call. *)
Definition linearized {X} (c : call X) (tr : list (R * R)) (x : option X) : Prop :=
  (∃ tr1 t tr2 o, tr = tr1 ++ t :: tr2 ∧ Forall silent tr1 ∧ Forall silent tr2 ∧ commits c o x t) ∨
  (Forall silent tr ∧ (x = None ∨ lost_race c x)).

(** A call whose first request is the call. *)
Lemma linearized_do {X Y} (c : call X) (b : Block Y) k r tr x r' :
  (∀ m d, rep m d → ∃ y m', doc_block b m = Some (y, m') ∧ rep m' (exec_call c d).2 ∧
     quiet (k (Some y)) (Some (exec_call c d).1)) →
  k None = RRet None → wf (r_view r) → runs wf (RDo b k) r tr x r' → linearized c tr x.
Proof.
  intros Hb Hk [d0 Hd0] (o & r1 & y & r2 & tr' & -> & [Hwf _] & Hstep & Hruns).
  destruct Hwf as [d Hd]; [by exists d0|]. destruct (Hb _ _ Hd) as (y' & m' & Hdoc & Hrep & Hq).
  left. exists [], (r1, r2), tr'. cbn.
  destruct (step_block_doc _ _ _ _ _ _ _ Hdoc Hstep) as [[-> Hv]|[[-> ->]|[-> Hv]]].
  2,3: rewrite Hk in Hruns; destruct Hruns as (-> & -> & _).
  - destruct (runs_quiet _ _ _ _ _ _ Hq Hruns) as [Htr ->]. exists Directory.Answer.
    split_and!; [done..|]. intros d' Hd'. destruct (Hb _ _ Hd') as (y2 & m2 & Hdoc' & Hrep' & Hq').
    simpl in Hdoc'. rewrite Hdoc in Hdoc'. injection Hdoc' as <- <-.
    destruct (runs_quiet _ _ _ _ _ _ Hq' Hruns) as [_ Heq]. cbn.
    destruct (exec_call c d') as [z d2]. cbn in *. by rewrite Hv.
  - exists Directory.Fail. split_and!; done.
  - exists Directory.Lost. split_and!; [done..|]. intros d' Hd'. cbn.
    destruct (Hb _ _ Hd') as (y2 & m2 & Hdoc' & Hrep' & Hq'). simpl in Hdoc'. rewrite Hdoc in Hdoc'.
    injection Hdoc' as <- <-. by rewrite Hv.
Qed.

(** ** The calls *)

Lemma getJSON_linearized {A} `{JsonLaws A} (ok : A → Prop) key (c : call (option A)) r tr x r' :
  (∀ a, ok a → json_valid a) →
  (∀ m d, rep m d → holds ok (m !! key) (exec_call c d).1 ∧ (exec_call c d).2 = d) →
  wf (r_view r) → runs wf (getJSON key) r tr x r' → linearized c tr x.
Proof.
  intros Hok Hc. apply linearized_do; [|done]. intros m d Hd.
  destruct (Hc _ _ Hd) as [Hh Heq]. destruct (holds_read _ _ _ _ Hok Hh) as (raw & Hdoc & Hraw).
  exists raw, m. cbn. rewrite Heq. cbn in Hdoc. rewrite Hdoc. split_and!; [done..|].
  destruct raw as [s|]; [|by rewrite Hraw]. destruct Hraw as [-> [a ->]]. done.
Qed.

Lemma setJSON_linearized {A} `{JsonLaws A} key (value : A) ttl (c : call unit) r tr x r' :
  (∀ m d s, rep m d → Marshal value = Some s → rep (<[key := VString s]> m) (exec_call c d).2) →
  wf (r_view r) → runs wf (setJSON key value ttl) r tr x r' → linearized c tr x.
Proof.
  intros Hc Hwf. unfold setJSON. destruct (Marshal value) as [s|].
  - apply linearized_do; [|done..]. intros m d Hd. cbn. do 2 eexists. split_and!; [done|by eapply Hc|].
    by destruct (exec_call c d).1.
  - intros (-> & -> & _). right. by auto.
Qed.

Lemma clusterSessionLeaseEqual_eq a b : clusterSessionLeaseEqual a b = leaseEqual a b.
Proof. by destruct a, b. Qed.

(** The script's comparison is the directory's. *)
Lemma lease_matches_spec m key e ej a raw :
  holds lease_ok (m !! key) a → doc (GET key) m = Some (raw, m) → from_option lease_ok True e →
  json_or_empty e = Some ej → lease_matches ej raw = Some (leaseEqual a e).
Proof.
  unfold holds, lease_matches. cbn. intros Hh Hdoc Heok Hej.
  destruct e as [e|]; cbn in Hej.
  - rewrite (bool_decide_eq_false_2 (ej = "")) by exact (json_nonempty _ _ Hej).
    destruct (m !! key) as [[cj| |]|], a as [c|]; simplify_eq; try done.
    destruct Hh as [Hcj [Hc Hcv]], Heok as [He Hev].
    rewrite (cjson_fields c cj Hc Hcj), (cjson_fields e ej He Hej). cbn. do 2 f_equal.
    apply eq_bool_prop_intro. rewrite bool_decide_spec, Is_true_true, Z.eqb_eq.
    split; [intros Hn; by apply num_exact in Hn|by intros ->].
  - injection Hej as <-. rewrite bool_decide_eq_true_2 by done.
    by destruct (m !! key) as [[cj| |]|], a as [c|]; simplify_eq.
Qed.

Lemma cas_state_linearized e l s ttl sttl r tr x r' :
  call_valid (CCasState e l s) → wf (r_view r) →
  runs wf (CompareAndSwapSessionState e (Some l) (Some s) ttl sttl) r tr x r' →
  linearized (CCasState e l s) tr x.
Proof.
  intros (Hl & Hlok & Heok & Hs & Hsok) Hwf. unfold CompareAndSwapSessionState.
  rewrite bool_decide_eq_false_2, (bool_decide_eq_false_2 (sn_SessionID s = "")) by congruence.
  cbn [json_or_empty].
  destruct (json_or_empty e) as [ej|] eqn:Hej; [|intros (-> & -> & _); right; by auto].
  destruct (Marshal l) as [lj|] eqn:Hlj; [|intros (-> & -> & _); right; by auto].
  destruct (Marshal s) as [sj|] eqn:Hsj; [|intros (-> & -> & _); right; by auto].
  cbn [answer]. apply linearized_do; [|done..]. clear r tr x r' Hwf. intros m d Hd.
  pose proof (rep_lease _ _ Hd _ Hl) as Hh.
  destruct (holds_read _ _ _ _ (λ a, @proj1 _ _) Hh) as (raw & Hdoc & _).
  pose proof (lease_matches_spec _ _ _ _ _ _ Hh Hdoc Heok Hej) as Hm.
  unfold compareAndSwapSessionStateScript. cbn [doc_block]. rewrite Hdoc. cbn [mbind option_bind].
  rewrite Hm. cbn [exec_call]. unfold Directory.CompareAndSwapSessionState.
  destruct (leaseEqual _ _); cbn [negb].
  2: { by exists (Some 0%Z), m. }
  exists (Some 1%Z), (<[sessionSnapshotKey (l_SessionID l) := VString sj]>
                        (<[sessionLeaseKey (l_SessionID l) := VString lj]> m)).
  rewrite (bool_decide_eq_false_2 (sj = "")) by exact (json_nonempty _ _ Hsj).
  split_and!; [done| |apply quiet_won]. rewrite <-Hs.
  apply (rep_write_snapshot _ _ (sn_SessionID s) (Some (VString sj)) (Some s)); [congruence| |done].
  rewrite Hs. by apply (rep_write_lease _ _ (l_SessionID l) (Some (VString lj)) (Some l)).
Qed.

Lemma delete_linearized sid n i r tr x r' :
  call_valid (CDeleteIfOwner sid n i) → wf (r_view r) →
  runs wf (DeleteSessionLeaseIfOwner sid n i) r tr x r' → linearized (CDeleteIfOwner sid n i) tr x.
Proof.
  intros (Hs & Hn & Hi) Hwf. unfold DeleteSessionLeaseIfOwner.
  rewrite !bool_decide_eq_false_2 by done. cbn [orb]. apply linearized_do; [|done..].
  clear r tr x r' Hwf. intros m d Hd. pose proof (rep_lease _ _ Hd _ Hs) as Hh.
  unfold deleteSessionLeaseIfOwnerScript. cbn. unfold Directory.DeleteSessionLeaseIfOwner.
  unfold holds in Hh. destruct (m !! _) as [[raw|vs|vl]|], (d_sessionLeases d !! sid) as [l|] eqn:Hl; try done.
  2: { cbn. by exists (Some None), m. }
  destruct Hh as [Hraw [Hok Hv]]. cbn. rewrite (cjson_fields l raw Hok Hraw). cbn.
  destruct (_ || _); [by exists (Some None), m|]. cbn.
  exists (Some (Some raw)), (delete (sessionLeaseKey sid) m). split; [done|].
  cbn [answer]. rewrite (json_roundtrip _ _ Hok Hraw). split; [|apply quiet_won].
  pose proof (rep_write_lease m d sid None None Hs Hd I) as [R1 R2 R3 R4].
  unfold drop_lease, removeUserSessionLocked. rewrite Hl.
  split; cbn; repeat case_match; cbn; auto.
Qed.

(** Nothing happened to a key whose stamp is the same. *)
Lemma rely_unchanged r r' k :
  rely (R:=R) wf r r' → (r_stamp r k ≤ r_stamp r' k)%Z ∧
  (r_stamp r' k = r_stamp r k → r_view r' !! k = r_view r !! k).
Proof.
  intros [_ Ht]. destruct (Ht k) as [Hle Hne]. split; [done|]. intros Heq.
  destruct (decide (r_view r' !! k = r_view r !! k)) as [|Hn]; [done|]. apply Hne in Hn. lia.
Qed.

Lemma silent_refl r : silent (r, r).
Proof. by intros d. Qed.

Lemma stamp_step key o (r : R) y r' :
  step_block (one (STAMP key)) o r = (y, r') → r' = r ∧ (y = Some (r_stamp r key) ∨ y = None).
Proof. unfold step_block. cbn. rewrite r_stamp_read. destruct o; intros [= <- <-]; auto. Qed.

Lemma exec_step key st payload ttl o (r : R) y r' :
  step_block (exec_unless_touched key st (SET key payload ttl)) o r = (y, r') →
  (y = Some true ∨ y = None) ∧ r_stamp r key = st ∧ r_view r' = <[key := VString payload]> (r_view r) ∨
  (y = Some false ∨ y = None) ∧ r' = r.
Proof.
  unfold step_block, exec_unless_touched. cbn. rewrite r_stamp_read.
  destruct (Z.eqb_spec (r_stamp r key) st) as [Heq|Hne]; cbn.
  - destruct (r_doc _ (SET key payload ttl) r tt _ eq_refl) as [_ Hv].
    destruct (r_exec _ r) as [u r2]. destruct o; intros [= <- <-]; auto.
  - destruct o; intros [= <- <-]; auto.
Qed.

(** The last request of the transaction, when the lease read under WATCH was [c]. *)
Lemma cas_exec_linearized e l ttl payload raw c (r1 r4 : R) tr x r' :
  let key := sessionLeaseKey (l_SessionID l) in
  l_SessionID l ≠ "" → lease_ok l → Marshal l = Some payload →
  (match raw with None => Some None | Some raw => Some <$> Unmarshal raw end) = Some c →
  leaseEqual c e = true →
  (r_stamp r1 key ≤ r_stamp r4 key)%Z →
  (r_stamp r4 key = r_stamp r1 key → r_view r4 !! key = VString <$> raw) →
  runs wf (RDo (exec_unless_touched key (r_stamp r1 key) (SET key payload ttl)) (λ r, answer r (λ done : bool,
    if done then won true e (Some l) ttl else RRet (Some false)))) r4 tr x r' →
  linearized (CCasLease e l) tr x.
Proof.
  intros key Hl Hlok Hp Hc Heq Hle Hsame (o & r5 & y & r6 & tr' & -> & Hrely & Hstep & Hruns).
  apply (rely_unchanged _ _ key) in Hrely as [Hle' Hsame'].
  assert (∀ o, r_stamp r5 key = r_stamp r1 key → r_view r6 = <[key := VString payload]> (r_view r5) →
    o ≠ Directory.Fail → commits (CCasLease e l) o
      (match o with Directory.Answer => Some true | _ => None end) (r5, r6)) as Hcommit.
  { intros o' Hst Hv Ho d Hd. cbn in Hd. pose proof (rep_lease _ _ Hd _ Hl) as Hh.
    unfold key in *. rewrite Hsame', Hsame in Hh by lia.
    assert (d_sessionLeases d !! l_SessionID l = c) as Hdc.
    { destruct raw as [raw|], (d_sessionLeases d !! l_SessionID l) as [a|]; cbn in Hh; try done.
      - destruct Hh as [Hm [Hok _]]. rewrite (json_roundtrip _ _ Hok Hm) in Hc. by injection Hc.
      - by injection Hc. }
    assert (exec_call (CCasLease e l) d =
      (true, set_leases d (<[l_SessionID l := l]> (d_sessionLeases d)))) as Hx.
    { cbn. unfold Directory.CompareAndSwapSessionLease. by rewrite Hdc, Heq. }
    assert (rep (r_view r6) (set_leases d (<[l_SessionID l := l]> (d_sessionLeases d)))) as Hrep.
    { rewrite Hv. by apply (rep_write_lease _ _ _ (Some (VString payload)) (Some l)). }
    destruct o'; cbn [step_call]; rewrite ?Hx; done. }
  destruct (exec_step _ _ _ _ _ _ _ _ Hstep) as [([-> | ->] & Hst & Hv)|[[-> | ->] ->]]; cbn [answer] in Hruns.
  - destruct (runs_quiet _ _ _ _ _ _ (quiet_won _ _ _ _) Hruns) as [Htr ->].
    left. exists [], (r5, r6), tr', Directory.Answer. split_and!; [done..|]. by apply (Hcommit Directory.Answer).
  - destruct Hruns as (-> & -> & _). left. exists [], (r5, r6), [], Directory.Lost.
    split_and!; [done..|]. by apply (Hcommit Directory.Lost).
  - destruct Hruns as (-> & -> & _). right. split; [by apply Forall_singleton, silent_refl|by right].
  - destruct Hruns as (-> & -> & _). right. split; [by apply Forall_singleton, silent_refl|by left].
Qed.

Lemma linearized_cons {X} (c : call X) t tr x : silent t → linearized c tr x → linearized c (t :: tr) x.
Proof.
  intros Ht [(tr1 & t' & tr2 & o & -> & ? & ? & ?)|[? ?]].
  - left. exists (t :: tr1), t', tr2, o. split_and!; auto.
  - right. auto.
Qed.

(** The transaction: WATCH, read, compare, write unless touched. *)
Lemma cas_lease_linearized e l ttl r tr x r' :
  call_valid (CCasLease e l) → wf (r_view r) →
  runs wf (CompareAndSwapSessionLease e (Some l) ttl) r tr x r' → linearized (CCasLease e l) tr x.
Proof.
  intros (Hl & Hlok) Hwf. unfold CompareAndSwapSessionLease. rewrite bool_decide_eq_false_2 by done.
  set (key := sessionLeaseKey (l_SessionID l)).
  intros (o1 & r1 & y1 & r2 & tr1 & -> & [Hwf1 _] & Hs1 & Hruns). apply linearized_cons.
  { apply stamp_step in Hs1 as [-> _]. apply silent_refl. }
  destruct (stamp_step _ _ _ _ _ Hs1) as [-> [-> | ->]]; cbn [answer] in Hruns.
  2: { destruct Hruns as (-> & -> & _). right. auto. }
  destruct Hruns as (o2 & r3 & y2 & r4 & tr2 & -> & Hrely & Hs2 & Hruns).
  destruct (proj1 Hrely) as [d3 Hd3]; [by apply Hwf1|].
  destruct (holds_read _ _ _ _ (λ a, @proj1 _ _) (rep_lease _ _ Hd3 _ Hl)) as (raw & Hdoc & Hraw).
  assert (doc_block (one (GET key)) (r_view r3) = Some (raw, r_view r3)) as Hblock
    by (cbn [doc_block one]; fold key in Hdoc; by rewrite Hdoc).
  assert (silent (r3, r4)) as Hsil.
  { intros d Hd. cbn [fst snd] in *. by destruct (step_block_doc _ _ _ _ _ _ _ Hblock Hs2) as [[_ ->]|[[_ ->]|[_ ->]]]. }
  destruct (step_block_doc _ _ _ _ _ _ _ Hblock Hs2) as [[-> Hv]|Hnone]; cbn [answer] in Hruns.
  2: { assert (y2 = None) as -> by (by destruct Hnone as [[-> _]|[-> _]]).
       destruct Hruns as (-> & -> & _). right. split; [by constructor|by left]. }
  destruct (match raw with None => Some None | Some raw => Some <$> Unmarshal raw end) as [c|] eqn:Hc.
  2: { destruct Hruns as (-> & -> & _). right. split; [by constructor|by left]. }
  assert (∀ d, rep (r_view r3) d → d_sessionLeases d !! l_SessionID l = c) as Hdc.
  { intros d Hd. destruct (holds_read _ _ _ _ (λ a, @proj1 _ _) (rep_lease _ _ Hd _ Hl)) as (raw' & Hdoc' & Hraw').
    rewrite Hdoc in Hdoc'. injection Hdoc' as <-. destruct raw as [raw|].
    - destruct Hraw' as [Hu [a Ha]]. rewrite Hu, Ha in Hc. injection Hc as <-. done.
    - injection Hc as <-. done. }
  rewrite clusterSessionLeaseEqual_eq in Hruns. destruct (leaseEqual c e) eqn:Heq; cbn [negb] in Hruns.
  2: { destruct Hruns as (-> & -> & _). left. exists [], (r3, r4), [], Directory.Answer.
       split_and!; [done..|]. intros d Hd. cbn. unfold Directory.CompareAndSwapSessionLease.
       rewrite (Hdc d Hd), Heq. cbn. split; [done|]. by apply Hsil. }
  destruct (Marshal l) as [payload|] eqn:Hp.
  2: { destruct Hruns as (-> & -> & _). right. split; [by constructor|by left]. }
  apply linearized_cons; [done|].
  eapply (cas_exec_linearized e l ttl payload raw c r1 r4); [done..| | |exact Hruns].
  - destruct (rely_unchanged _ _ key Hrely), (step_block_touch _ _ _ _ _ key Hs2). fold key. lia.
  - intros _. fold key. rewrite Hv. cbn in Hdoc. fold key in Hdoc.
    by destruct (r_view r3 !! key) as [[]|]; simplify_eq/=.
Qed.

(** C7: The directory kept in Redis implements the directory the nodes are proved
    against.  Take any directory call with valid arguments, and any run of its
    Redis program: any interference by other clients that keeps the stored
    records well-formed (expiry included), any request failing, any answer lost.
    Then every step of the program but one leaves the directory as it is, and
    that one step has exactly the effect and the answer of the directory's call
    (or of the call whose answer was lost); or no step changes the directory and
    the call returns an error, or reports a compare-and-swap as lost because
    another client touched the lease. *)
Theorem redis_directory_linearizable X (c : call X) p r tr x r' :
  implements X c p → call_valid c → wf (r_view r) → runs wf p r tr x r' → linearized c tr x.
Proof.
  intros Himpl Hc Hwf. destruct Himpl; cbn in Hc.
  - unfold GetSessionLease. rewrite bool_decide_eq_false_2 by done.
    apply (getJSON_linearized lease_ok); [by intros a []| |done]. intros m d Hd. split; [|done].
    by apply (rep_lease _ _ Hd).
  - unfold GetSessionSnapshot. rewrite bool_decide_eq_false_2 by done.
    apply (getJSON_linearized json_valid); [done| |done]. intros m d Hd. split; [|done].
    by apply (rep_snapshot _ _ Hd).
  - destruct Hc as (Hn & Hi & Hcol). unfold GetNodeLease. rewrite !bool_decide_eq_false_2 by done.
    apply (getJSON_linearized json_valid); [done| |done]. intros m d Hd. split; [|done].
    by apply (rep_node _ _ Hd).
  - by apply cas_lease_linearized.
  - by apply cas_state_linearized.
  - by apply delete_linearized.
  - destruct Hc as [Hs Hok]. unfold PutSessionSnapshot. rewrite bool_decide_eq_false_2 by done.
    apply setJSON_linearized; [|done]. intros m d s' Hd Hm.
    by apply (rep_write_snapshot _ _ _ (Some (VString s')) (Some s)).
  - unfold DeleteSessionSnapshot. rewrite bool_decide_eq_false_2 by done. apply linearized_do; [|done..].
    intros m d Hd. cbn. do 2 eexists. split_and!; [done| |done].
    by apply (rep_write_snapshot _ _ _ None None).
  - destruct Hc as [Hu Hs]. unfold AddUserSession. rewrite !bool_decide_eq_false_2 by done.
    apply linearized_do; [|done..]. intros m d Hd.
    destruct (quiet_add_user ns u sid (if (ttl <=? 0)%Z then 1000%Z else ttl) _ _ Hd) as ([] & m' & Hdoc & Hrep).
    exists tt, m'. split_and!; [done| |done]. cbn. unfold Directory.AddUserSession.
    rewrite !bool_decide_eq_false_2 by done. by destruct Hrep.
  - destruct Hc as (Hn & Hi & Hcol & Hok). unfold PutNodeLease. rewrite !bool_decide_eq_false_2 by done.
    apply setJSON_linearized; [|done]. intros m d s' Hd Hm.
    by apply (rep_write_node _ _ _ _ (Some (VString s')) (Some l)).
Qed.

End Refines.

(** ** An instance *)

Definition L0 : ClusterSessionLease := mkLease "s1" "a" "1" "u" "acme" "c" 1 true 0 0 100.

#[local] Instance sample_lease_json : Json ClusterSessionLease := {
  Marshal l := if decide (l = L0) then Some "L0" else None;
  Unmarshal s := if decide (s = "L0") then Some L0 else None;
}.
#[local, refine] Instance sample_lease_laws : JsonLaws ClusterSessionLease := { json_valid _ := True }.
Proof.
  - intros a s _. cbn. case_decide; [|done]. intros [= <-]. by subst.
  - intros a s. cbn. case_decide; [|done]. by intros [= <-].
Defined.

#[local] Instance sample_snapshot_json : Json ClusterSessionSnapshot := {
  Marshal _ := None; Unmarshal _ := None }.
#[local, refine] Instance sample_snapshot_laws : JsonLaws ClusterSessionSnapshot := { json_valid _ := True }.
Proof. all: done. Defined.

#[local] Instance sample_node_json : Json ClusterNodeLease := { Marshal _ := None; Unmarshal _ := None }.
#[local, refine] Instance sample_node_laws : JsonLaws ClusterNodeLease := { json_valid _ := True }.
Proof. all: done. Defined.

#[local] Instance sample_cjson : Cjson Z := {
  num z := z;
  cjson_lease s := if decide (s = "L0") then Some (mkLua "s1" "a" "1" 1%Z) else None;
}.
#[local, refine] Instance sample_cjson_laws : CjsonLaws Z := {}.
Proof.
  - done.
  - intros l s _. cbn. case_decide; [|done]. intros [= <-]. subst. by rewrite decide_True.
Defined.

Lemma rep_empty : rep ∅ NewDirectory.
Proof. split; intros; rewrite ?lookup_empty; try done. exists ∅. by left. Qed.

Lemma redis_directory_linearizable_witness :
  ∃ tr : list (server * server),
    linearized (CCasLease None L0) tr (Some true) ∧
    (run_prog (CompareAndSwapSessionLease None (Some L0) 1000) [] (mkServer ∅ 0)).1 = Some true.
Proof.
  destruct (run_prog_runs wf (CompareAndSwapSessionLease None (Some L0) 1000) [] (mkServer ∅ 0)) as [tr Htr].
  exists tr. split; [|vm_compute; reflexivity].
  change (Some true) with (run_prog (CompareAndSwapSessionLease None (Some L0) 1000) [] (mkServer ∅ 0)).1.
  refine (redis_directory_linearizable _ _ _ _ _ _ _ (impl_cas_lease None L0 1000) _ _ Htr).
  - repeat split; done.
  - exists NewDirectory. apply rep_empty.
Defined.

End RedisDirectory.
