(* ===== verification/RedisHistory.v ===== *)
(** * RedisHistory: publishing to and reading from the history streams
      (pkg/redisbroker/redis.go, history.go, message.go)

    A publication gets its dense sequence number and its stream entry in one Lua
    script; the marker of the oldest retained entry and the live message follow
    in requests of their own.  Offsets are the stream IDs packed into 64 bits.
    encoding/json is a parameter. *)

From S2P Require Import Prelude Strconv Topics Stream Redis.
Import Strconv Topics Stream Redis.

Module RedisHistory.

(** ** Offsets (history.go) *)

(** The zero offset is the beginning of the stream. *)
Definition streamStartID (sinceOffset : Z) : string :=
  if (sinceOffset =? 0)%Z then "0"
  else FormatUint (Z.to_N (Z.shiftr sinceOffset 20)) +:+
       String "-" (FormatUint (Z.to_N (Z.land sinceOffset (Z.ones 20)))).

Definition parseStreamOffset (id : string) : Z :=
  match cut "-" id with
  | None => 0
  | Some (a, b) =>
      match ParseUint 64 a, ParseUint 64 b with
      | (ts, None), (seq, None) => Z.lor (u64 (Z.shiftl (Z.of_N ts) 20)) (Z.of_N seq)
      | _, _ => 0
      end
  end.

Definition streamEntrySeq (m : XMessage) : Z :=
  match Values m !! "s" with
  | None => 0
  | Some s => match ParseUint 64 s with (seq, None) => Z.of_N seq | _ => 0 end
  end.

(** ** Envelopes (message.go) *)

Definition messageTypePublication : string := "pub".
Definition messageTypeOccupancy : string := "occupancy".

Record redisMessage := mkMessage {
  m_Type : string;
  m_Channel : string;
  m_Payload : string;
  m_IsText : bool;
  m_Kind : PayloadKind;
  m_ContentType : string;
  m_Id : string;
  m_Metadata : gmap string string;
  m_Time : Z;
  m_Offset : Z;
  m_Seq : Z;
  m_Epoch : string;
}.

Definition set_kind (m : redisMessage) (k : PayloadKind) : redisMessage :=
  mkMessage (m_Type m) (m_Channel m) (m_Payload m) (m_IsText m) k (m_ContentType m) (m_Id m)
    (m_Metadata m) (m_Time m) (m_Offset m) (m_Seq m) (m_Epoch m).

Section Broker.
Context `{Json redisMessage}.

Definition serializeMessage (msg : redisMessage) : option string := Marshal msg.

(** Entries older than the kind field say text or binary by [isText] only. *)
Definition deserializeMessage (data : string) : option redisMessage :=
  match Unmarshal data with
  | None => None
  | Some msg =>
      Some (if bool_decide (m_Type msg = messageTypePublication) && bool_decide (m_Kind msg = PayloadKindBinary)
            then set_kind msg (if m_IsText msg then PayloadKindText else PayloadKindBinary)
            else msg)
  end.

Definition messageToPublication (now : Z) (channelName : string) (msg : redisMessage) (offset : Z) : Publication :=
  mkPub channelName (m_Payload msg) (m_Kind msg) (m_ContentType msg) (m_Id msg) (m_Metadata msg)
    offset (m_Seq msg) (if (m_Time msg =? 0)%Z then now else m_Time msg) (m_Epoch msg) 0 0.

(** ** Publishing (redis.go) *)

(** The options used here; durations are in nanoseconds. *)
Record Options := mkOpts { StreamMaxLength : Z; StreamApproximate : bool; HistoryTTL : Z }.

Definition defaultStreamPrefix : string := "ml2:stream:".
Definition defaultPubSubPrefix : string := "ml2:pubsub:".

Definition streamKey (ch : string) : string := defaultStreamPrefix +:+ ch.
Definition seqKey (ch : string) : string := defaultStreamPrefix +:+ "seq:" +:+ ch.
Definition retainedKey (ch : string) : string := defaultStreamPrefix +:+ "retained:" +:+ ch.

Definition publishScript (seqKey streamKey : string) (maxLen : Z) (data : string) (px : Z) (approx : bool)
    : Block (Z * string) :=
  BCmd (INCR seqKey) (λ seq,
  BCmd (XADD streamKey maxLen approx (<["s" := FormatInt seq]> {[ "data" := data ]})) (λ id,
  BCmd (PEXPIRE seqKey px) (λ _,
  BCmd (PEXPIRE streamKey px) (λ _, BRet (seq, id))))).

Definition Milliseconds (d : Z) : Z := Z.quot d 1000000.

(** XINFO is unavailable or reports no first entry: write only a missing marker. *)
Definition mark_fallback (ch : string) (fallback ttl : Z) : RProg unit :=
  RDo (one (EXISTS (retainedKey ch))) (λ r,
    match r with
    | Some false =>
        RDo (one (SET (retainedKey ch) (FormatUint (Z.to_N fallback)) (Milliseconds ttl))) (λ _, RRet tt)
    | _ => RRet tt
    end).

Definition updateFirstRetained (ch : string) (fallback ttl : Z) : RProg unit :=
  RDo (one (XINFO (streamKey ch))) (λ r,
    let first := match mjoin r with
                 | Some id => if bool_decide (id = "") then 0%Z else parseStreamOffset id
                 | None => 0%Z
                 end in
    if (0 <? first)%Z
    then RDo (one (SET (retainedKey ch) (FormatUint (Z.to_N first)) (Milliseconds ttl))) (λ _, RRet tt)
    else mark_fallback ch fallback ttl).

Inductive PublishError := PTopic (e : TopicError) | PSerialize | PRedis.

Definition envelope (ch epoch : string) (now offset seq : Z) (pub : Publication) : redisMessage :=
  mkMessage messageTypePublication ch (Payload pub) false (Kind pub) (ContentType pub) (Id pub)
    (Metadata pub) now offset seq epoch.

(** [pub.Offset, pub.Seq, pub.Time = ...]. *)
Definition set_position (pub : Publication) (offset seq now : Z) : Publication :=
  mkPub (Channel pub) (Payload pub) (Kind pub) (ContentType pub) (Id pub) (Metadata pub) offset seq now
    (Epoch pub) (pub_HistorySize pub) (pub_HistoryTTL pub).

(** The answer and the caller's publication, which Publish writes to; [now1] and
    [now2] are the two readings of the clock. *)
Definition Publish (opts : Options) (epoch : string) (now1 now2 : Z) (ch : string) (pub : Publication)
    : RProg (result PublishError Z * Publication) :=
  match ValidateTopic ch with
  | Err e => RRet (Err (PTopic e), pub)
  | Ok _ =>
      match serializeMessage (envelope ch epoch now1 0 0 pub) with
      | None => RRet (Err PSerialize, pub)
      | Some streamData =>
          let maxLen := if (0 <? pub_HistorySize pub)%Z then pub_HistorySize pub else StreamMaxLength opts in
          let ttl := if (0 <? pub_HistoryTTL pub)%Z then pub_HistoryTTL pub else HistoryTTL opts in
          RDo (publishScript (seqKey ch) (streamKey ch) maxLen streamData (Milliseconds ttl)
                 (StreamApproximate opts)) (λ r,
            match r with
            | None => RRet (Err PRedis, pub)
            | Some (seq, id) =>
                let offset := parseStreamOffset id in
                let pub' := set_position pub offset (u64 seq) now2 in
                match serializeMessage (envelope ch epoch now2 offset (u64 seq) pub) with
                | None => RRet (Err PSerialize, pub')
                | Some pubSubData =>
                    rbind (updateFirstRetained ch offset ttl) (λ _,
                      RDo (one (PUBLISH (defaultPubSubPrefix +:+ ch) pubSubData)) (λ _,
                        RRet (Ok offset, pub')))
                end
            end)
      end
  end.

Definition PublishTransient (epoch : string) (now : Z) (ch : string) (pub : Publication)
    : RProg (result PublishError unit) :=
  match ValidateTopic ch with
  | Err e => RRet (Err (PTopic e))
  | Ok _ =>
      match serializeMessage (envelope ch epoch now 0 0 pub) with
      | None => RRet (Err PSerialize)
      | Some pubSubData =>
          RDo (one (PUBLISH (defaultPubSubPrefix +:+ ch) pubSubData)) (λ r,
            RRet (match r with Some _ => Ok tt | None => Err PRedis end))
      end
  end.

(** ** Reading (history.go) *)

(** The publication of a stream entry, unless the entry is malformed. *)
Definition entry_publication (now : Z) (ch : string) (m : XMessage) : option Publication :=
  data ← Values m !! "data";
  msg ← deserializeMessage data;
  if bool_decide (m_Type msg = messageTypePublication) then
    Some (mkPub ch (m_Payload msg) (m_Kind msg) (m_ContentType msg) (m_Id msg) (m_Metadata msg)
            (parseStreamOffset (ID m)) (streamEntrySeq m)
            (if (m_Time msg =? 0)%Z then now else m_Time msg) (m_Epoch msg) 0 0)
  else None.

(** Some adjacent entries have known sequence numbers that do not follow. *)
Fixpoint middle_gap (pubs : list Publication) : bool :=
  match pubs with
  | prev :: ((cur :: _) as rest) =>
      ((0 <? Seq prev)%Z && (0 <? Seq cur)%Z && negb (Seq cur =? u64 (Seq prev + 1))%Z) || middle_gap rest
  | _ => false
  end.

(** The page built from the two replies; [marker] is 0 when it is missing. *)
Definition history_page (now : Z) (ch : string) (sinceOffset limit : Z) (messages : list XMessage)
    (marker : Z) : HistoryPage :=
  let pubs := omap (entry_publication now ch) messages in
  let firstRetained :=
    if (marker =? 0)%Z then match messages with m :: _ => parseStreamOffset (ID m) | [] => 0%Z end
    else marker in
  let truncated := (0 <? limit)%Z && (Z.of_nat (length pubs) =? limit)%Z in
  let head :=
    if (0 <? sinceOffset)%Z then
      if bool_decide (length pubs = 0) then Some HistoryGapEmptyExpired
      else if (sinceOffset <? firstRetained)%Z then Some HistoryGapHeadTrimmed else None
    else None in
  match head with
  | Some reason => mkPage pubs truncated true reason firstRetained
  | None => if middle_gap pubs then mkPage pubs truncated true HistoryGapMiddle firstRetained
            else mkPage pubs truncated false HistoryGapNone firstRetained
  end.

Definition getHistory (now : Z) (ch : string) (sinceOffset limit : Z) : RProg (option HistoryPage) :=
  let limit := if (limit <=? 0)%Z then DefaultHistoryLimit else limit in
  RDo (one (XRANGE (streamKey ch) (streamStartID sinceOffset) limit)) (λ r,
    match r with
    | None => RRet None
    | Some messages =>
        RDo (one (GET (retainedKey ch))) (λ r,
          let marker := match mjoin r with Some raw => Z.of_N (fst (ParseUint 64 raw)) | None => 0%Z end in
          RRet (Some (history_page now ch sinceOffset limit messages marker)))
    end).

Definition History := getHistory.

End Broker.

(** ** Offsets and IDs *)

(** The IDs that fit: milliseconds below 2^44 (until the year 2527) and fewer
    than 2^20 entries in a millisecond. *)
Definition small_id (t : N * N) : Prop := (t.1 < 2 ^ 44)%N ∧ (t.2 < 2 ^ 20)%N.

Definition offset_of (t : N * N) : Z := (Z.of_N t.1 * 2 ^ 20 + Z.of_N t.2)%Z.

Lemma lor_shiftl a b n : (0 ≤ n)%Z → (0 ≤ b < 2 ^ n)%Z → Z.lor (Z.shiftl a n) b = (a * 2 ^ n + b)%Z.
Proof.
  intros Hn Hb. rewrite <-Z.shiftl_mul_pow2 by done. symmetry.
  assert (Z.land (Z.shiftl a n) b = 0%Z) as Hl.
  { apply Z.bits_inj'. intros i Hi. rewrite Z.land_spec, Z.bits_0.
    destruct (Z.lt_ge_cases i n).
    - by rewrite Z.shiftl_spec_low by done.
    - destruct (decide (b = 0%Z)) as [->|]; [by rewrite Z.bits_0, andb_false_r|].
      rewrite (Z.bits_above_log2 b i), andb_false_r; [done|lia|].
      apply Z.log2_lt_pow2; [lia|]. apply Z.lt_le_trans with (2 ^ n)%Z; [lia|].
      by apply Z.pow_le_mono_r. }
  by apply Z.add_nocarry_lor.
Qed.

Lemma read_id_string t : (t.1 < 2 ^ 64)%N → (t.2 < 2 ^ 64)%N → read_id (id_string t) = Some t.
Proof.
  intros H1 H2. destruct t as [a b]. unfold read_id, id_string. cbn [fst snd] in *.
  rewrite (proj2 (cut_spec "-" _ (pretty a) (pretty b))).
  - unfold parse_u64. cbn [mbind option_bind].
    pose proof (ParseUint_Format 64 a H1) as Ha. pose proof (ParseUint_Format 64 b H2) as Hb.
    unfold FormatUint in *. by rewrite Ha, Hb.
  - split; [done|]. by apply pretty_N_no_char.
Qed.

Lemma parse_id_string t : small_id t → parseStreamOffset (id_string t) = offset_of t.
Proof.
  intros [H1 H2]. destruct t as [a b]. unfold parseStreamOffset, id_string. cbn [fst snd] in *.
  rewrite (proj2 (cut_spec "-" _ (pretty a) (pretty b))) by (split; [done|by apply pretty_N_no_char]).
  pose proof (ParseUint_Format 64 a ltac:(lia)) as Ha. pose proof (ParseUint_Format 64 b ltac:(lia)) as Hb.
  unfold FormatUint in *. rewrite Ha, Hb. rewrite u64_small.
  - apply lor_shiftl; lia.
  - unfold is_u64, u64_modulus. rewrite Z.shiftl_mul_pow2 by lia. lia.
Qed.

(** The start of a range is the offset's ID. *)
Lemma read_start_offset off :
  is_u64 off → ∃ t, small_id t ∧ offset_of t = off ∧ read_start (streamStartID off) = Some t.
Proof.
  intros [H0 H1]. unfold u64_modulus in H1. exists (Z.to_N (off / 2 ^ 20), Z.to_N (off mod 2 ^ 20)).
  pose proof (Z.mod_pos_bound off (2 ^ 20) ltac:(lia)). pose proof (Z.div_mod off (2 ^ 20) ltac:(lia)).
  assert (off / 2 ^ 20 < 2 ^ 44)%Z by (apply Z.div_lt_upper_bound; lia).
  assert (0 ≤ off / 2 ^ 20)%Z by (apply Z.div_pos; lia).
  assert (small_id (Z.to_N (off / 2 ^ 20), Z.to_N (off mod 2 ^ 20))) as Hs by (split; cbn [fst snd]; lia).
  split_and!; [done|unfold offset_of; cbn [fst snd]; lia|].
  unfold streamStartID. destruct (Z.eqb_spec off 0) as [->|Hne]; [reflexivity|].
  rewrite Z.shiftr_div_pow2, Z.land_ones by lia.
  change (read_start (id_string (Z.to_N (off / 2 ^ 20), Z.to_N (off mod 2 ^ 20))) =
          Some (Z.to_N (off / 2 ^ 20), Z.to_N (off mod 2 ^ 20))).
  unfold read_start. rewrite read_id_string by (cbn [fst snd]; lia).
  unfold id_string. by rewrite (proj2 (cut_spec "-" _ _ _)) by (split; [done|by apply pretty_N_no_char]).
Qed.

Lemma id_leb_offset a b : small_id a → small_id b → id_leb a b = (offset_of a <=? offset_of b)%Z.
Proof.
  intros [Ha1 Ha2] [Hb1 Hb2]. unfold id_leb, offset_of. apply eq_bool_prop_intro.
  rewrite !Is_true_true, orb_true_iff, andb_true_iff, N.ltb_lt, N.eqb_eq, N.leb_le, Z.leb_le. nia.
Qed.

(** ** The log of a channel *)

Section Log.
Context {R : Type} `{Redis R} `{JsonLaws redisMessage}.

(** Everything published to a channel, oldest first: increasing IDs that fit,
    dense sequence numbers, entries that decode. *)
Record log_ok (ch : string) (log : list XMessage) : Prop := {
  lo_id i e : log !! i = Some e → ∃ t, ID e = id_string t ∧ small_id t;
  lo_sorted i j e e' : log !! i = Some e → log !! j = Some e' → i < j →
    (parseStreamOffset (ID e) < parseStreamOffset (ID e'))%Z;
  lo_seq i e : log !! i = Some e → streamEntrySeq e = Z.of_nat (S i);
  lo_data now i e : log !! i = Some e → is_Some (entry_publication now ch e);
}.

(** The key space holds the log of [ch] without its first [k] entries. *)
Record stores (m : keyspace) (ch : string) (log : list XMessage) (k : nat) : Prop := {
  st_log : log_ok ch log;
  st_stream : m !! streamKey ch = None ∧ log = [] ∧ k = 0 ∨
    m !! streamKey ch = Some (VStream (drop k log)) ∧ k < length log;
  st_seq : m !! seqKey ch = None ∧ log = [] ∨ m !! seqKey ch = Some (VString (FormatInt (Z.of_nat (length log))));
}.

(** What a reader finds of the log: the stream without the first [k] entries, or
    no stream at all, when nothing was published or all of it expired. *)
Record retains (m : keyspace) (ch : string) (log : list XMessage) (k : nat) : Prop := {
  re_log : log_ok ch log;
  re_stream : m !! streamKey ch = None ∧ k = length log ∨
    m !! streamKey ch = Some (VStream (drop k log)) ∧ k < length log;
}.

Lemma stores_retains m ch log k : stores m ch log k → retains m ch log k.
Proof. intros [Hlog Hs _]. split; [done|]. destruct Hs as [(? & -> & ->)|?]; [by left|by right]. Qed.

Definition pubs_of (now : Z) (ch : string) (l : list XMessage) : list Publication :=
  omap (entry_publication now ch) l.

Definition since_filter (since : Z) (l : list XMessage) : list XMessage :=
  List.filter (λ e, (since <=? parseStreamOffset (ID e))%Z) l.

Lemma entry_offset now ch e p : entry_publication now ch e = Some p →
  Offset p = parseStreamOffset (ID e) ∧ Seq p = streamEntrySeq e.
Proof.
  unfold entry_publication. intros (data & _ & (msg & _ & Hm)%bind_Some)%bind_Some.
  case_bool_decide; [|done]. by injection Hm as <-.
Qed.

Lemma pubs_of_filter now ch since l :
  Forall (λ e, is_Some (entry_publication now ch e)) l →
  pubs_of now ch (since_filter since l) = List.filter (λ p, (since <=? Offset p)%Z) (pubs_of now ch l).
Proof.
  induction 1 as [|e l [p Hp] _ IH]; [done|]. unfold pubs_of, since_filter in *. cbn.
  rewrite Hp. cbn. rewrite (proj1 (entry_offset _ _ _ _ Hp)).
  destruct (since <=? _)%Z; cbn; rewrite ?Hp, IH; done.
Qed.

Lemma pubs_of_take now ch n l :
  Forall (λ e, is_Some (entry_publication now ch e)) l →
  pubs_of now ch (take n l) = take n (pubs_of now ch l).
Proof.
  intros Hl. revert n. induction Hl as [|e l [p Hp] _ IH]; intros [|n]; try done.
  unfold pubs_of in *. cbn. rewrite Hp, IH. done.
Qed.

Lemma log_decodes now ch log k : log_ok ch log → Forall (λ e, is_Some (entry_publication now ch e)) (drop k log).
Proof.
  intros Hlog. apply Forall_lookup. intros i e He. rewrite lookup_drop in He. by eapply (lo_data _ _ Hlog).
Qed.

(** Reading from an offset is skipping a prefix. *)
Lemma since_filter_drop since l :
  (∀ i j e e', l !! i = Some e → l !! j = Some e' → i < j →
     (parseStreamOffset (ID e) < parseStreamOffset (ID e'))%Z) →
  ∃ j, since_filter since l = drop j l ∧ ∀ i e, l !! i = Some e → i < j →
    (parseStreamOffset (ID e) < since)%Z.
Proof.
  induction l as [|e l IH]; intros Hs; [by exists 0|]. unfold since_filter in *. cbn.
  destruct (since <=? parseStreamOffset (ID e))%Z eqn:He.
  - exists 0. split; [|lia]. cbn. f_equal. apply Z.leb_le in He.
    assert (∀ x, x ∈ l → (since <=? parseStreamOffset (ID x))%Z = true) as Hall.
    { intros x [i Hi]%list_elem_of_lookup. apply Z.leb_le.
      pose proof (Hs 0 (S i) e x eq_refl Hi ltac:(lia)). lia. }
    clear -Hall. induction l as [|x l IH]; [done|]. cbn. rewrite Hall by (by left). f_equal.
    apply IH. intros y Hy. apply Hall. by right.
  - apply Z.leb_gt in He. destruct IH as (j & Hj & Hlt).
    { intros i j a b Ha Hb Hij. apply (Hs (S i) (S j)); [done..|lia]. }
    exists (S j). split; [done|]. intros [|i] x Hx Hi; [by injection Hx as <-|].
    eapply Hlt; [done|lia].
Qed.

Lemma range_since ch log k since t :
  log_ok ch log → small_id t → offset_of t = since →
  range_from t (drop k log) = since_filter since (drop k log).
Proof.
  intros Hlog Ht Hoff. unfold range_from, since_filter. apply List.filter_ext_in.
  intros e He%list_elem_of_In. apply list_elem_of_lookup in He as [i Hi]. rewrite lookup_drop in Hi.
  destruct (lo_id _ _ Hlog _ _ Hi) as (t' & Hid & Hsm).
  unfold entry_id. rewrite Hid, read_id_string by (destruct Hsm; lia). cbn.
  rewrite id_leb_offset, parse_id_string by done. by rewrite Hoff.
Qed.

(** The entries that were trimmed are older than any that is left. *)
Lemma trimmed_below ch log k since e :
  log_ok ch log → e ∈ drop k log → (parseStreamOffset (ID e) ≤ since)%Z →
  since_filter since log = since_filter since (drop k log).
Proof.
  intros Hlog [j Hj]%list_elem_of_lookup Hle. rewrite lookup_drop in Hj.
  rewrite <-(take_drop k log) at 1. unfold since_filter. rewrite List.filter_app.
  rewrite filter_none; [done|]. apply Forall_lookup. intros i x Hx. apply Z.leb_gt.
  apply lookup_take_Some in Hx as [Hx Hi].
  pose proof (lo_sorted _ _ Hlog i (k + j) x e Hx Hj ltac:(lia)). lia.
Qed.

Lemma pubs_seq now ch l : ∀ b,
  (∀ i e, l !! i = Some e → streamEntrySeq e = Z.of_nat (S (b + i)) ∧ is_Some (entry_publication now ch e)) →
  ∀ i p, pubs_of now ch l !! i = Some p → Seq p = Z.of_nat (S (b + i)) ∧ i < length l.
Proof.
  induction l as [|e l IH]; intros b Hl i p; [done|]. unfold pubs_of in *. cbn.
  destruct (Hl 0 e eq_refl) as [Hs [q Hq]]. rewrite Hq. destruct i as [|i]; cbn.
  - intros [= <-]. rewrite (proj2 (entry_offset _ _ _ _ Hq)), Hs. split; [done|lia].
  - intros Hp. destruct (IH (S b) ltac:(intros j x Hx; rewrite <-Nat.add_succ_r; by apply Hl) _ _ Hp) as [-> ?].
    split; [f_equal; lia|lia].
Qed.

Lemma middle_gap_cons p q l : middle_gap (p :: q :: l) =
  ((0 <? Seq p)%Z && (0 <? Seq q)%Z && negb (Seq q =? u64 (Seq p + 1))%Z) || middle_gap (q :: l).
Proof. done. Qed.

Lemma consecutive_no_middle l n : ∀ a,
  (Z.of_nat n < u64_modulus - 1)%Z →
  (∀ i p, l !! i = Some p → Seq p = Z.of_nat (S (a + i)) ∧ a + i < n) → middle_gap l = false.
Proof.
  induction l as [|p [|q l] IH]; intros a Hn Hseq; [done..|]. rewrite middle_gap_cons.
  destruct (Hseq 0 p eq_refl) as [Hp _]. destruct (Hseq 1 q eq_refl) as [Hq Hlt].
  rewrite (IH (S a)); [|done|].
  - rewrite Hp, Hq, u64_small by (unfold is_u64; lia).
    replace (Z.of_nat (S (a + 0)) + 1)%Z with (Z.of_nat (S (a + 1))) by lia.
    by rewrite Z.eqb_refl, andb_false_r.
  - intros i x Hx. replace (S a + i) with (a + S i) by lia. by apply Hseq.
Qed.

Lemma dense_no_middle now ch log n a :
  log_ok ch log → (Z.of_nat (length log) < u64_modulus - 1)%Z →
  middle_gap (pubs_of now ch (take n (drop a log))) = false.
Proof.
  intros Hlog Hlen. apply (consecutive_no_middle _ (length log) a); [done|].
  rewrite pubs_of_take by (by apply log_decodes). intros i p [Hi _]%lookup_take_Some.
  destruct (pubs_seq now ch (drop a log) a) with (i := i) (p := p) as [Hs Hl]; [|done|].
  - intros j e He. rewrite lookup_drop in He. split; [by apply (lo_seq _ _ Hlog)|by apply (lo_data _ _ Hlog now _ _ He)].
  - rewrite length_drop in Hl. split; [done|lia].
Qed.

(** ** Reading a page *)

(** The marker, as a reader sees it, is not behind the entries it read. *)
Definition not_behind (marker : Z) (kept : list XMessage) : Prop :=
  marker = 0%Z ∨ ∀ e, kept !! 0 = Some e → (parseStreamOffset (ID e) ≤ marker)%Z.

Definition marker_ok (m : keyspace) (ch : string) (kept : list XMessage) : Prop :=
  m !! retainedKey ch = None ∨
  ∃ raw, m !! retainedKey ch = Some (VString raw) ∧ not_behind (Z.of_N (fst (ParseUint 64 raw))) kept.

(** Whatever happens to the request for the marker. *)
Lemma marker_read r2 ch kept o x r2' :
  marker_ok (r_view r2) ch kept → step_block (one (GET (retainedKey ch))) o r2 = (x, r2') →
  not_behind (match mjoin x with Some raw => Z.of_N (fst (ParseUint 64 raw)) | None => 0%Z end) kept.
Proof.
  intros Hm Hs. assert (∃ raw, doc_block (one (GET (retainedKey ch))) (r_view r2) = Some (raw, r_view r2) ∧
    not_behind (match raw with Some raw => Z.of_N (fst (ParseUint 64 raw)) | None => 0%Z end) kept) as (raw & Hdoc & Hnb).
  { destruct Hm as [Hm|(raw & Hm & Hok)]; cbn; rewrite Hm; eexists; (split; [done|]); [by left|done]. }
  destruct (step_block_doc _ _ _ _ _ _ _ Hdoc Hs) as [[-> _]|[[-> _]|[-> _]]]; [done|by left..].
Qed.

(** A page that does not report a gap starts where the reader asked. *)
Lemma page_no_loss now ch log k since lim marker :
  log_ok ch log → (0 < since)%Z →
  not_behind marker (drop k log) →
  Gap (history_page now ch since lim (take (Z.to_nat lim) (since_filter since (drop k log))) marker) = false →
  since_filter since log = since_filter since (drop k log).
Proof.
  intros Hlog Hs Hmark. unfold history_page. rewrite (proj2 (Z.ltb_lt 0 since)) by done.
  set (messages := take _ _). fold (pubs_of now ch messages).
  case_bool_decide as Hlen; [done|]. set (first := if (marker =? 0)%Z then _ else _).
  destruct (since <? first)%Z eqn:Hf; [done|]. intros _. apply Z.ltb_ge in Hf.
  assert (∃ e, e ∈ drop k log ∧ (parseStreamOffset (ID e) ≤ since)%Z) as (e & He & Hle);
    [|by eapply trimmed_below].
  destruct messages as [|m0 ms] eqn:Hmsgs; [done|].
  assert (m0 ∈ since_filter since (drop k log)) as Hm0.
  { assert (m0 ∈ messages) as Hin by (rewrite Hmsgs; by left). unfold messages in Hin.
    apply elem_of_take in Hin as (i & Hi & _). by eapply list_elem_of_lookup_2. }
  assert (m0 ∈ drop k log) as Hin by (by apply list_elem_of_In, List.filter_In in Hm0 as [?%list_elem_of_In _]).
  unfold first in Hf. destruct (Z.eqb_spec marker 0) as [->|Hne]; [by exists m0|].
  destruct Hmark as [|Hmark]; [done|]. destruct (drop k log) as [|h rest] eqn:Hd; [by apply not_elem_of_nil in Hin|].
  exists h. split; [by left|]. specialize (Hmark h eq_refl). lia.
Qed.

(** The reply of XRANGE: the retained entries from the offset on. *)
Lemma range_reply m ch log k since n :
  retains m ch log k → is_u64 since →
  doc (XRANGE (streamKey ch) (streamStartID since) n) m =
  Some (take (Z.to_nat n) (since_filter since (drop k log)), m).
Proof.
  intros [Hlog Hstream] Hs. destruct (read_start_offset since Hs) as (t & Ht & Hoff & Hread).
  cbn. rewrite Hread. destruct Hstream as [(-> & ->)|[-> _]].
  - rewrite drop_all. by destruct (Z.to_nat n).
  - by rewrite (range_since ch log k since t).
Qed.

Lemma page_publications now ch since lim messages marker :
  let page := history_page now ch since lim messages marker in
  Publications page = pubs_of now ch messages ∧
  Truncated page = ((0 <? lim)%Z && (Z.of_nat (length (pubs_of now ch messages)) =? lim)%Z).
Proof. unfold history_page. repeat case_match; done. Qed.

Lemma sorted_drop ch log k i j e e' :
  log_ok ch log → drop k log !! i = Some e → drop k log !! j = Some e' → i < j →
  (parseStreamOffset (ID e) < parseStreamOffset (ID e'))%Z.
Proof. intros Hlog. rewrite !lookup_drop. intros ???. eapply (lo_sorted _ _ Hlog); [done..|lia]. Qed.

Lemma getHistory_answers now ch since limit (r : R) :
  is_Some (run_prog (getHistory now ch since limit) [] r).1.
Proof.
  unfold getHistory. cbn [run_prog hd tail step_block run_block one].
  destruct (r_exec _ r) as [x r1]. cbn [run_prog hd tail step_block run_block one].
  destruct (r_exec (GET (retainedKey ch)) r1). by eexists.
Qed.

(** A run of getHistory among other clients: the page is built from what the two
    requests found, unless the first failed. *)
Lemma getHistory_runs wf r tr res r' ch log k now since limit :
  runs wf (getHistory now ch since limit) r tr res r' → is_u64 since →
  (∀ r1 r1', tr !! 0 = Some (r1, r1') → retains (r_view r1) ch log k) →
  let lim := if (limit <=? 0)%Z then DefaultHistoryLimit else limit in
  res = None ∧ length tr = 1 ∨
  ∃ marker, res = Some (history_page now ch since lim (take (Z.to_nat lim) (since_filter since (drop k log))) marker) ∧
    ((∀ r2 r2', tr !! 1 = Some (r2, r2') → marker_ok (r_view r2) ch (drop k log)) → not_behind marker (drop k log)).
Proof.
  intros (o & r1 & x & r1' & tr' & -> & _ & Hs1 & Hrest) Hs Hret lim. fold lim in Hs1, Hrest.
  pose proof (range_reply _ _ log k since lim (Hret _ _ eq_refl) Hs) as Hrange.
  assert (doc_block (one (XRANGE (streamKey ch) (streamStartID since) lim)) (r_view r1) =
    Some (take (Z.to_nat lim) (since_filter since (drop k log)), r_view r1)) as Hdoc
    by (unfold one; cbn [doc_block]; rewrite Hrange; done).
  destruct (step_block_doc _ _ _ _ _ _ _ Hdoc Hs1) as [[-> _]|[[-> _]|[-> _]]].
  2,3: destruct Hrest as (-> & -> & _); by left.
  destruct Hrest as (o2 & r2 & x2 & r2' & tr2 & -> & _ & Hs2 & (_ & -> & _)).
  right. eexists. split; [reflexivity|]. intros Hm. eapply marker_read; [by apply (Hm r2 r2')|done].
Qed.

(** The page's publications, in terms of the log. *)
Lemma pubs_from now ch log k since lim :
  log_ok ch log →
  pubs_of now ch (take lim (since_filter since (drop k log))) =
    take lim (List.filter (λ p, (since <=? Offset p)%Z) (pubs_of now ch (drop k log))) ∧
  ∃ a, since_filter since (drop k log) = drop a log.
Proof.
  intros Hlog. destruct (since_filter_drop since (drop k log)) as (j & Hj & _).
  { intros a b x y Hx Hy. by eapply sorted_drop. }
  split; [|exists (k + j); by rewrite Hj, drop_drop].
  rewrite pubs_of_take, pubs_of_filter; [done|by apply log_decodes|].
  rewrite Hj, drop_drop. by apply log_decodes.
Qed.

(** C22: History pages read from Redis are exact, and a page hides a loss only when
    the marker is behind.  Consider a read among any other clients' requests, some
    of its own possibly failing, whose first request finds the log of the channel
    without a trimmed head (or expired altogether).  If that request fails, the
    read answers with an error.  Otherwise the page holds exactly the retained
    publications from the requested offset on, up to the limit, and says whether
    it was cut; a page read from the start reports no gap; a page read from an
    offset that is empty reports a gap; and if the marker, where the second
    request finds one, is not behind the oldest entry the first request saw, a
    page that reports no gap is the page of the log from which nothing was ever
    trimmed.  Undisturbed requests never fail.  ([marker_refreshed]: a publication
    leaves the marker right; [stale_marker_hides_trim]: two publications at the
    same time may not, and then a loss is not reported.) *)
Theorem redis_history_exact wf r tr res r' ch log k now since limit :
  runs wf (getHistory now ch since limit) r tr res r' →
  (∀ r1 r1', tr !! 0 = Some (r1, r1') → retains (r_view r1) ch log k) →
  is_u64 since → (Z.of_nat (length log) < u64_modulus - 1)%Z →
  let lim := if (limit <=? 0)%Z then DefaultHistoryLimit else limit in
  let from l := take (Z.to_nat lim) (List.filter (λ p, (since <=? Offset p)%Z) (pubs_of now ch l)) in
  is_Some (run_prog (getHistory now ch since limit) [] r).1 ∧
  match res with
  | None => length tr = 1
  | Some page =>
      Publications page = from (drop k log) ∧
      Truncated page = (Z.of_nat (length (Publications page)) =? lim)%Z ∧
      (since = 0%Z → Gap page = false) ∧
      ((0 < since)%Z → Publications page = [] → Gap page = true) ∧
      ((0 < since)%Z → Gap page = false →
       (∀ r2 r2', tr !! 1 = Some (r2, r2') → marker_ok (r_view r2) ch (drop k log)) →
       Publications page = from log)
  end.
Proof.
  intros Hruns Hret Hs Hlen lim from. split; [apply getHistory_answers|].
  assert (log_ok ch log) as Hlog.
  { destruct Hruns as (o & r1 & x & r1' & tr' & -> & _). apply (re_log _ _ _ _ (Hret r1 r1' eq_refl)). }
  assert (0 < lim)%Z as Hlim by (unfold lim, DefaultHistoryLimit; destruct (limit <=? 0)%Z eqn:?; lia).
  destruct (getHistory_runs _ _ _ _ _ _ log k _ _ _ Hruns Hs Hret) as [[-> ?]|(marker & -> & Hmk)]; [done|].
  fold lim. set (msgs := take (Z.to_nat lim) (since_filter since (drop k log))) in *.
  destruct (page_publications now ch since lim msgs marker) as [Hp Ht].
  destruct (pubs_from now ch log k since (Z.to_nat lim) Hlog) as [Hfrom [a Ha]]. fold msgs in Hfrom.
  split_and!.
  - by rewrite Hp, Hfrom.
  - by rewrite Hp, Ht, (proj2 (Z.ltb_lt 0 lim)).
  - intros ->. unfold history_page. cbn [Z.ltb Z.compare]. fold (pubs_of now ch msgs).
    unfold msgs. by rewrite Ha, dense_no_middle.
  - rewrite Hp. intros Hpos Hnil. unfold history_page. rewrite (proj2 (Z.ltb_lt 0 since)) by done.
    fold (pubs_of now ch msgs). by rewrite Hnil.
  - intros Hpos Hgap Hok. rewrite Hp. unfold msgs.
    rewrite <-(page_no_loss _ _ _ _ _ _ _ Hlog Hpos (Hmk Hok) Hgap).
    pose proof (pubs_from now ch log 0 since (Z.to_nat lim) Hlog) as [Hall _]. by rewrite drop_0 in Hall.
Qed.

(** ** Publishing *)

Definition entry_fields (seq : Z) (data : string) : gmap string string :=
  <["s" := FormatInt seq]> {[ "data" := data ]}.

Lemma stream_seq_ne ch : streamKey ch ≠ seqKey ch.
Proof.
  unfold streamKey, seqKey. intros Heq. apply str_app_inj_len in Heq as [_ Heq]; [|done].
  apply (f_equal String.length) in Heq. rewrite str_length_app in Heq. simpl in Heq. lia.
Qed.

(** What the script does to the counter and the stream. *)
Lemma publishScript_run r ch l n maxLen data px approx :
  (r_view r !! streamKey ch = None ∧ l = [] ∨ r_view r !! streamKey ch = Some (VStream l)) →
  (r_view r !! seqKey ch = None ∧ n = 0%Z ∨ r_view r !! seqKey ch = Some (VString (FormatInt n))) →
  (0 ≤ n < 2 ^ 63 - 1)%Z → (0 < maxLen)%Z → (0 < px)%Z → (∀ e, e ∈ l → (entry_id e).1 < 2 ^ 64 - 1)%N →
  let '((seq, id), r') := run_block (publishScript (seqKey ch) (streamKey ch) maxLen data px approx) r in
  seq = (n + 1)%Z ∧
  ∃ l', appended maxLen approx (entry_fields (n + 1) data) l id l' ∧
    r_view r' = <[streamKey ch := VStream l']> (<[seqKey ch := VString (FormatInt (n + 1))]> (r_view r)).
Proof.
  intros Hl Hn Hr Hmax Hpx Hids. unfold publishScript. cbn [run_block].
  assert (doc (INCR (seqKey ch)) (r_view r) =
    Some ((n + 1)%Z, <[seqKey ch := VString (FormatInt (n + 1))]> (r_view r))) as Hincr.
  { cbn. destruct Hn as [[-> ->]| ->]; [done|]. rewrite ParseInt_Format by lia.
    by rewrite (proj2 (Z.ltb_lt n _)) by lia. }
  apply r_doc in Hincr as [H1' H2']. destruct (r_exec (INCR _) r) as [seq r1]. cbn in H1', H2'. subst seq.
  destruct (r_xadd (streamKey ch) maxLen approx (entry_fields (n + 1) data) r1 l) as (l' & Happ & Hv);
    [|done..|].
  { rewrite H2'. rewrite lookup_insert_ne by (symmetry; apply stream_seq_ne). done. }
  fold (entry_fields (n + 1) data). destruct (r_exec (XADD _ _ _ _) r1) as [id r2]. cbn in Happ, Hv.
  assert (∀ k r', doc (PEXPIRE k px) (r_view r') = Some (tt, r_view r')) as Hpe.
  { intros k r'. cbn. by rewrite (proj2 (Z.leb_gt px 0)). }
  destruct (r_doc _ _ _ _ _ (Hpe (seqKey ch) r2)) as [_ Hv3]. destruct (r_exec (PEXPIRE _ _) r2) as [[] r3].
  destruct (r_doc _ _ _ _ _ (Hpe (streamKey ch) r3)) as [_ Hv4].
  destruct (r_exec (PEXPIRE (streamKey ch) px) r3) as [[] r4]. cbn in *.
  split; [done|]. exists l'. split; [done|]. by rewrite Hv4, Hv3, Hv, H2'.
Qed.

Lemma FormatInt_uint z : (0 ≤ z)%Z → FormatInt z = FormatUint (Z.to_N z).
Proof. intros Hz. destruct z; done || lia. Qed.

(** A published entry decodes to what was published, with its number. *)
Lemma entry_decodes now ch epoch t0 pub data seq id :
  json_valid (envelope ch epoch t0 0 0 pub) → Marshal (envelope ch epoch t0 0 0 pub) = Some data →
  (0 ≤ seq < 2 ^ 64)%Z →
  entry_publication now ch (mkX id (entry_fields seq data)) =
  Some (mkPub ch (Payload pub) (Kind pub) (ContentType pub) (Id pub) (Metadata pub) (parseStreamOffset id)
          seq (if (t0 =? 0)%Z then now else t0) epoch 0 0).
Proof.
  intros Hj Hm Hseq. unfold entry_publication, entry_fields. cbn [Values].
  rewrite lookup_insert_ne, lookup_singleton_eq by done. cbn [mbind option_bind].
  unfold deserializeMessage. rewrite (json_roundtrip _ _ Hj Hm). cbn.
  assert (streamEntrySeq (mkX id (<["s" := FormatInt seq]> {[ "data" := data ]})) = seq) as ->.
  { unfold streamEntrySeq. cbn [Values]. rewrite lookup_insert_eq, FormatInt_uint by lia.
    rewrite ParseUint_Format by lia. by rewrite Z2N.id by lia. }
  rewrite (bool_decide_eq_true_2 (messageTypePublication = messageTypePublication)) by done.
  destruct (bool_decide_reflect (Kind pub = PayloadKindBinary)) as [Hk|Hk]; cbn; [by rewrite Hk|done].
Qed.

Lemma log_ok_snoc ch log e t :
  log_ok ch log → ID e = id_string t → small_id t →
  (∀ x, last log = Some x → (parseStreamOffset (ID x) < parseStreamOffset (ID e))%Z) →
  streamEntrySeq e = Z.of_nat (S (length log)) → (∀ now, is_Some (entry_publication now ch e)) →
  log_ok ch (log ++ [e]).
Proof.
  intros Hlog Hid Ht Hlast Hseq Hdata.
  assert (∀ i x, (log ++ [e]) !! i = Some x → log !! i = Some x ∨ i = length log ∧ x = e) as Hcase.
  { intros i x [?|[Hi Hx]]%lookup_app_Some; [by left|]. apply list_lookup_singleton_Some in Hx as [Hi' <-].
    right. split; [lia|done]. }
  split.
  - intros i x [Hx|[_ ->]]%Hcase; [by eapply (lo_id _ _ Hlog)|by exists t].
  - intros i j x y Hx Hy Hij. apply Hcase in Hx as [Hx|[-> ->]], Hy as [Hy|[-> ->]].
    + by eapply (lo_sorted _ _ Hlog).
    + destruct (last_snoc_inv log) as [->|(l & z & Heq)]; [done|].
      assert (parseStreamOffset (ID z) < parseStreamOffset (ID e))%Z as Hz by (apply Hlast; by rewrite Heq, last_snoc).
      destruct (decide (i = length l)) as [->|Hne].
      * rewrite Heq, lookup_app_r, Nat.sub_diag in Hx by lia. by injection Hx as <-.
      * transitivity (parseStreamOffset (ID z)); [|done].
        apply (lo_sorted _ _ Hlog i (length l)); [done| |].
        -- rewrite Heq, lookup_app_r by lia. by rewrite Nat.sub_diag.
        -- rewrite Heq, length_app in Hij. cbn in Hij. lia.
    + apply lookup_lt_Some in Hy. lia.
    + lia.
  - intros i x [Hx|[-> ->]]%Hcase; [by apply (lo_seq _ _ Hlog)|done].
  - intros now i x [Hx|[_ ->]]%Hcase; [by eapply (lo_data _ _ Hlog)|done].
Qed.

Lemma log_entry_id ch log k e :
  log_ok ch log → e ∈ drop k log →
  ∃ t, ID e = id_string t ∧ small_id t ∧ entry_id e = t ∧ parseStreamOffset (ID e) = offset_of t.
Proof.
  intros Hlog [i Hi]%list_elem_of_lookup. rewrite lookup_drop in Hi.
  destruct (lo_id _ _ Hlog _ _ Hi) as (t & Hid & Hs). exists t. unfold entry_id.
  rewrite Hid, read_id_string by (destruct Hs; lia). by rewrite parse_id_string.
Qed.

(** An ID above the retained entries is above the whole log. *)
Lemma newer_than_log ch log k t x :
  log_ok ch log → k < length log → (∀ e, e ∈ drop k log → id_lt (entry_id e) t) → small_id t →
  last log = Some x → (parseStreamOffset (ID x) < offset_of t)%Z.
Proof.
  intros Hlog Hk Hgt [Ht1 Ht2] Hx. assert (x ∈ drop k log) as Hin.
  { rewrite last_lookup in Hx. apply (list_elem_of_lookup_2 _ (pred (length log) - k)).
    rewrite lookup_drop, <-Hx. f_equal. lia. }
  specialize (Hgt x Hin). destruct (log_entry_id _ _ _ _ Hlog Hin) as (tx & _ & [Hx1 Hx2] & Hid & ->).
  rewrite Hid in Hgt. unfold offset_of. destruct Hgt as [|[]]; nia.
Qed.

(** Publishing extends the log by exactly the publication.  From a state in
    which Redis holds the log of a channel without a trimmed head, the script run
    by Publish (with a positive length and time to live) issues the next dense
    number, appends one entry that decodes to the published message under the
    offset it returns, keeps every older entry except a trimmed head, and never
    trims below the maximal length. *)
Theorem redis_publish_extends r ch log k pub epoch t0 data maxLen px approx :
  stores (r_view r) ch log k →
  json_valid (envelope ch epoch t0 0 0 pub) → serializeMessage (envelope ch epoch t0 0 0 pub) = Some data →
  (0 < maxLen)%Z → (0 < px)%Z → (Z.of_nat (length log) < 2 ^ 63 - 1)%Z →
  let '((seq, id), r') := run_block (publishScript (seqKey ch) (streamKey ch) maxLen data px approx) r in
  (∃ t, id = id_string t ∧ small_id t) →
  seq = Z.of_nat (S (length log)) ∧
  ∃ e k', ID e = id ∧ stores (r_view r') ch (log ++ [e]) k' ∧ k ≤ k' ∧
    (Z.min maxLen (Z.of_nat (S (length log) - k)) ≤ Z.of_nat (S (length log) - k'))%Z ∧
    ∀ now, entry_publication now ch e =
      Some (mkPub ch (Payload pub) (Kind pub) (ContentType pub) (Id pub) (Metadata pub)
              (parseStreamOffset id) seq (if (t0 =? 0)%Z then now else t0) epoch 0 0).
Proof.
  intros [Hlog Hstream Hseq] Hj Hm Hmax Hpx Hlen.
  pose proof (publishScript_run r ch (drop k log) (Z.of_nat (length log)) maxLen data px approx) as Hrun.
  replace (Z.of_nat (length log) + 1)%Z with (Z.of_nat (S (length log))) in Hrun by lia.
  destruct (run_block _ r) as [[seq id] r']. intros (t & Hid & Hsmall).
  destruct Hrun as (-> & l' & (t' & drops & Hid' & Ht1 & Ht2 & _ & Hgt & Hl' & Hdrops) & Hv); [| |lia|done..| |].
  { destruct Hstream as [(Hn & -> & _)|[Hs _]]; [left; by rewrite drop_nil|by right]. }
  { destruct Hseq as [[Hn ->]|Hs]; [by left|by right]. }
  { intros x Hx. destruct (log_entry_id _ _ _ _ Hlog Hx) as (tx & _ & [??] & -> & _). lia. }
  assert (t' = t) as ->.
  { pose proof (read_id_string t' Ht1 Ht2) as Hr. rewrite <-Hid', Hid, read_id_string in Hr by (destruct Hsmall; lia).
    by injection Hr. }
  set (e := mkX id (entry_fields (Z.of_nat (S (length log))) data)) in *.
  pose proof (λ now, entry_decodes now ch epoch t0 pub data (Z.of_nat (S (length log))) id Hj Hm ltac:(lia)) as Hdec.
  fold e in Hdec. rewrite length_drop in Hdrops.
  split; [done|]. exists e, (k + drops). split_and!; [done| |lia| |exact Hdec].
  2: { destruct approx; lia. }
  split.
  - apply (log_ok_snoc _ _ _ t); [done..| | |by eauto].
    + intros x Hx. cbn [ID e]. rewrite Hid, parse_id_string by done.
      destruct Hstream as [(_ & -> & _)|[_ Hk]]; [done|]. by eapply newer_than_log.
    + destruct (entry_offset _ _ _ _ (Hdec 0%Z)) as [_ <-]. done.
  - right. rewrite Hv, lookup_insert_eq, length_app. cbn [length]. split.
    + rewrite Hl', <-drop_drop. do 3 f_equal. symmetry. destruct Hstream as [(_ & -> & ->)|[_ Hk]]; [done|].
      by rewrite drop_app_le by lia.
    + destruct Hstream as [(_ & -> & ->)|[_ Hk]]; cbn in *; destruct approx; lia.
  - right. rewrite Hv, lookup_insert_ne by apply stream_seq_ne. rewrite lookup_insert_eq, length_app.
    cbn [length]. do 4 f_equal. lia.
Qed.

(** ** The marker *)

Lemma retained_ne ch : retainedKey ch ≠ streamKey ch ∧ retainedKey ch ≠ seqKey ch.
Proof.
  split; [|discriminate]. unfold retainedKey, streamKey. intros Heq.
  apply str_app_inj_len in Heq as [_ Heq]; [|done].
  apply (f_equal String.length) in Heq. rewrite str_length_app in Heq. simpl in Heq. lia.
Qed.

Lemma stores_marker m ch log k v : stores m ch log k → stores (<[retainedKey ch := v]> m) ch log k.
Proof.
  destruct (retained_ne ch). intros [Hlog Hs Hq]. split; [done|by rewrite lookup_insert_ne..].
Qed.

Lemma mark_fallback_run r ch fallback ttl :
  let m := r_view (run_prog (mark_fallback ch fallback ttl) [] r).2 in
  m = r_view r ∨ ∃ s, m = <[retainedKey ch := VString s]> (r_view r).
Proof.
  unfold mark_fallback.
  pose proof (doc_EXISTS (retainedKey ch) (r_view r)) as Hex.
  answer_one Hex r1 Hv1. case_bool_decide; [by left|].
  pose proof (doc_SET (retainedKey ch) (FormatUint (Z.to_N fallback)) (Milliseconds ttl) (r_view r1)) as Hset.
  answer_one Hset r2 Hv2. right. eexists. cbn [run_prog snd]. by rewrite Hv2, Hv1.
Qed.

(** It writes the marker at most. *)
Lemma updateFirstRetained_run r ch fallback ttl :
  let m := r_view (run_prog (updateFirstRetained ch fallback ttl) [] r).2 in
  (∃ l, r_view r !! streamKey ch = Some (VStream l)) →
  m = r_view r ∨ ∃ s, m = <[retainedKey ch := VString s]> (r_view r).
Proof.
  cbn zeta. intros [l Hl]. unfold updateFirstRetained.
  assert (doc (XINFO (streamKey ch)) (r_view r) = Some (ID <$> list.head l, r_view r)) as Hinfo by (cbn; by rewrite Hl).
  answer_one Hinfo r1 Hv1.
  set (first := match mjoin (Some _) with Some id => _ | None => _ end). destruct (0 <? first)%Z.
  - pose proof (doc_SET (retainedKey ch) (FormatUint (Z.to_N first)) (Milliseconds ttl) (r_view r1)) as Hset.
    answer_one Hset r2 Hv2. right. eexists. cbn [run_prog snd]. by rewrite Hv2, Hv1.
  - destruct (mark_fallback_run r1 ch fallback ttl) as [->|[s ->]]; rewrite Hv1; eauto.
Qed.

(** Undisturbed, the marker is right after every publication. *)
Theorem marker_refreshed r ch log k fallback ttl :
  stores (r_view r) ch log k →
  (r_view r !! retainedKey ch = None ∨ ∃ s, r_view r !! retainedKey ch = Some (VString s)) →
  let r' := (run_prog (updateFirstRetained ch fallback ttl) [] r).2 in
  stores (r_view r') ch log k ∧ marker_ok (r_view r') ch (drop k log).
Proof.
  intros Hst Hty. unfold updateFirstRetained.
  assert (doc (XINFO (streamKey ch)) (r_view r) = Some (ID <$> drop k log !! 0, r_view r)) as Hinfo.
  { cbn. destruct (st_stream _ _ _ _ Hst) as [(-> & -> & ->)|[-> _]]; [done|]. by destruct (drop k log). }
  answer_one Hinfo r1 Hv1.
  set (first := match mjoin (Some _) with Some id => _ | None => _ end).
  assert (∀ e, drop k log !! 0 = Some e → parseStreamOffset (ID e) = first ∧ is_u64 first) as Hfirst.
  { intros e He. unfold first. rewrite He. cbn. destruct (log_entry_id ch log k e) as (t & Hid & [Ht1 Ht2] & _ & Hoff);
      [by apply (st_log _ _ _ _ Hst)|by eapply list_elem_of_lookup_2|].
    rewrite bool_decide_eq_false_2 by (rewrite Hid; unfold id_string; by destruct (pretty t.1)).
    split; [done|]. rewrite Hoff. unfold is_u64, u64_modulus, offset_of. lia. }
  destruct (0 <? first)%Z eqn:Hpos.
  - pose proof (doc_SET (retainedKey ch) (FormatUint (Z.to_N first)) (Milliseconds ttl) (r_view r1)) as Hset.
    answer_one Hset r2 Hv2. cbn [run_prog snd]. rewrite Hv2, Hv1.
    split; [by apply stores_marker|]. right. eexists. rewrite lookup_insert_eq. split; [done|]. right.
    intros e He. destruct (Hfirst e He) as [-> [? Hlt]]. unfold u64_modulus in Hlt.
    rewrite ParseUint_Format by lia. cbn. lia.
  - apply Z.ltb_ge in Hpos. assert (∀ m, (m !! retainedKey ch = None ∨ ∃ s, m !! retainedKey ch = Some (VString s)) →
        marker_ok m ch (drop k log)) as Hok.
    { intros m [?|[s ?]]; [by left|]. right. exists s. split; [done|]. right. intros e He.
      destruct (Hfirst e He) as [-> _]. lia. }
    destruct (mark_fallback_run r1 ch fallback ttl) as [->|[s ->]]; rewrite Hv1; [by auto|].
    split; [by apply stores_marker|]. apply Hok. right. eexists. by rewrite lookup_insert_eq.
Qed.

(** ** Channels do not disturb each other *)

(** No channel of a namespace is a control key of another channel. *)
Lemma control_apart (control ch ch' : string) :
  has_char ":" control = false → is_Some (splitNamespace ch) → is_Some (splitNamespace ch') →
  ch ≠ control +:+ String ":" ch'.
Proof.
  intros Hc [[ns topic] (-> & Hns & Ht)%splitNamespace_spec] [[ns' topic'] (-> & _ & _)%splitNamespace_spec] Heq.
  apply str_sep_inj in Heq as [-> ->]; [|done..].
  rewrite has_char_app in Ht. cbn in Ht. by rewrite orb_true_r in Ht.
Qed.

Lemma channel_keys_apart ch ch' key key' :
  is_Some (splitNamespace ch) → is_Some (splitNamespace ch') → ch ≠ ch' →
  key ∈ [streamKey ch; seqKey ch; retainedKey ch] → key' ∈ [streamKey ch'; seqKey ch'; retainedKey ch'] →
  key ≠ key'.
Proof.
  intros Hc1 Hc2 Hne Hk Hk' ->. rewrite !elem_of_cons in Hk, Hk'.
  destruct Hk as [->|[->|[->|[]%elem_of_nil]]]; destruct Hk' as [Hk|[Hk|[Hk|[]%elem_of_nil]]];
    unfold streamKey, seqKey, retainedKey in Hk;
    apply str_app_inj_len in Hk as [_ Hk]; try done; try (by injection Hk);
    (by apply (control_apart "seq") in Hk) || (by apply (control_apart "retained") in Hk) ||
    (symmetry in Hk; by apply (control_apart "seq") in Hk) || (symmetry in Hk; by apply (control_apart "retained") in Hk).
Qed.

(** Publishing on one channel leaves the history of another channel as it was,
    whatever the two are called: the log, its trimmed head and the marker. *)
Theorem other_history_kept r ch ch' l n log k maxLen data px approx fallback ttl :
  is_Some (splitNamespace ch) → is_Some (splitNamespace ch') → ch ≠ ch' →
  (r_view r !! streamKey ch = None ∧ l = [] ∨ r_view r !! streamKey ch = Some (VStream l)) →
  (r_view r !! seqKey ch = None ∧ n = 0%Z ∨ r_view r !! seqKey ch = Some (VString (FormatInt n))) →
  (0 ≤ n < 2 ^ 63 - 1)%Z → (0 < maxLen)%Z → (0 < px)%Z → (∀ e, e ∈ l → (entry_id e).1 < 2 ^ 64 - 1)%N →
  stores (r_view r) ch' log k → marker_ok (r_view r) ch' (drop k log) →
  let r1 := (run_block (publishScript (seqKey ch) (streamKey ch) maxLen data px approx) r).2 in
  let r2 := (run_prog (updateFirstRetained ch fallback ttl) [] r1).2 in
  stores (r_view r2) ch' log k ∧ marker_ok (r_view r2) ch' (drop k log).
Proof.
  intros Hc1 Hc2 Hne Hl Hn Hr Hmax Hpx Hids [Hlog Hs Hq] Hm r1 r2.
  pose proof (publishScript_run r ch l n maxLen data px approx Hl Hn Hr Hmax Hpx Hids) as Hrun.
  destruct (run_block _ r) as [[seq id] r1'] eqn:He. destruct Hrun as (_ & l' & _ & Hv).
  assert (∀ key, key ∈ [streamKey ch'; seqKey ch'; retainedKey ch'] → r_view r2 !! key = r_view r !! key) as Hkeep.
  { intros key Hk. assert (∀ k', k' ∈ [streamKey ch; seqKey ch; retainedKey ch] → k' ≠ key) as Hap
      by (intros; by apply (channel_keys_apart ch ch')).
    assert (r_view r1 !! key = r_view r !! key) as Hr1.
    { unfold r1. cbn [snd]. rewrite Hv, !lookup_insert_ne by (apply Hap; rewrite !elem_of_cons; auto). done. }
    destruct (updateFirstRetained_run r1 ch fallback ttl) as [Hv2|[s Hv2]]; [|fold r2 in Hv2; by rewrite Hv2|].
    { exists l'. unfold r1. cbn [snd]. by rewrite Hv, lookup_insert_eq. }
    fold r2 in Hv2. rewrite Hv2.
    by rewrite lookup_insert_ne by (apply Hap; rewrite !elem_of_cons; auto). }
  split; [split; [done|by rewrite Hkeep by (rewrite !elem_of_cons; auto)..]|].
  unfold marker_ok. by rewrite Hkeep by (rewrite !elem_of_cons; auto).
Qed.

End Log.

(** ** An instance *)

Definition sample_pub (p : string) : Publication := mkPub "" p PayloadKindText "" "" ∅ 0 0 0 "" 0 0.
Definition sample_capped (p : string) : Publication := mkPub "" p PayloadKindText "" "" ∅ 0 0 0 "" 1 0.
Definition sample_ch : string := "acme:im".
Definition sample_env (p : string) : redisMessage := envelope sample_ch "e" 7 0 0 (sample_pub p).

#[local] Instance sample_message_json : Json redisMessage := {
  Marshal m := Some (String "{" (m_Payload m));
  Unmarshal s := match s with String "{" p => Some (sample_env p) | _ => None end;
}.
#[local, refine] Instance sample_message_laws : JsonLaws redisMessage := {
  json_valid m := m = sample_env (m_Payload m) }.
Proof.
  - intros m s Hm [= <-]. cbn. by rewrite <-Hm.
  - by intros m s [= <-].
Defined.

Definition sample_opts : Options := mkOpts 3 false 86400000000000.
Definition sample_publish (pub : Publication) := Publish sample_opts "e" 7 7 sample_ch pub.

(** The server after a sequence of undisturbed publications. *)
Definition published (pubs : list Publication) : server :=
  foldl (λ r pub, (run_prog (sample_publish pub) [] r).2) (mkServer ∅ 0) pubs.

Definition payloads (r : server) (since : Z) : option (list string * bool) :=
  page ← (run_prog (getHistory 9 sample_ch since 10) [] r).1;
  Some (Payload <$> Publications page, Gap page).

Definition off (n : Z) : Z := (n * 2 ^ 20)%Z.

(** Five publications, three retained: a reader who saw the second misses
    nothing, a reader who saw the first is told. *)
Example trimmed_reads :
  let r := published (sample_pub <$> ["m1"; "m2"; "m3"; "m4"; "m5"]) in
  payloads r (off 3 + 1) = Some (["m4"; "m5"], false) ∧
  payloads r (off 1 + 1) = Some (["m3"; "m4"; "m5"], true) ∧
  payloads r 0 = Some (["m3"; "m4"; "m5"], false).
Proof. vm_compute. done. Qed.

Definition sample_entry (n : N) (p : string) : XMessage :=
  mkX (id_string (n, 0%N)) (entry_fields (Z.of_N n) (String "{" p)).
Definition sample_log : list XMessage :=
  [sample_entry 1 "m1"; sample_entry 2 "m2"; sample_entry 3 "m3"; sample_entry 4 "m4"].

Lemma sample_log_ok : log_ok sample_ch sample_log.
Proof.
  assert (∀ i e, sample_log !! i = Some e → ∃ p, i < 4 ∧ e = sample_entry (N.of_nat (S i)) p) as Hcase.
  { intros i e He. do 4 (destruct i as [|i]; [injection He as <-; eexists; split; [lia|reflexivity]|]). done. }
  split.
  - intros i e (p & Hi & ->)%Hcase. eexists. split; [reflexivity|]. split; cbn [fst snd]; lia.
  - intros i j e e' (p & Hi & ->)%Hcase (p' & Hj & ->)%Hcase Hij. cbn [sample_entry ID].
    rewrite !parse_id_string by (split; cbn [fst snd]; lia). unfold offset_of. cbn [fst snd]. lia.
  - intros i e (p & Hi & ->)%Hcase. destruct i as [|[|[|[|i]]]]; [reflexivity..|lia].
  - intros now i e (p & Hi & ->)%Hcase. unfold sample_entry.
    rewrite (entry_decodes now sample_ch "e" 7 (sample_pub p)) by (done || lia). by eexists.
Qed.

Definition sample_server : server := published (sample_pub <$> ["m1"; "m2"; "m3"; "m4"]).

Lemma sample_stores : stores (r_view sample_server) sample_ch sample_log 1.
Proof.
  split; [apply sample_log_ok|right; split; [vm_compute; reflexivity|cbn; lia]|right; vm_compute; reflexivity].
Qed.

(** A client's undisturbed run is interference for the others. *)
Lemma run_prog_rely {R} `{Redis R} {A} (p : RProg A) : ∀ outs (r : R), rely (λ _, True) r (run_prog p outs r).2.
Proof.
  induction p as [a|X b k IH]; intros outs r; cbn [run_prog]; [apply rely_refl|].
  destruct (step_block b (hd Answer outs) r) as [x r1] eqn:Hs. destruct (IH x (tail outs) r1) as [_ Hr].
  split; [done|]. intros key. destruct (step_block_touch _ _ _ _ _ key Hs) as [H1 H2], (Hr key) as [H3 H4].
  split; [lia|]. intros Hne. destruct (decide (r_view r1 !! key = r_view r !! key)) as [Heq|Hn].
  - rewrite <-Heq in Hne. specialize (H4 Hne). lia.
  - specialize (H2 Hn). lia.
Qed.

Lemma runs_one {R} `{Redis R} wf {X A} (c : cmd X) (k : option X → RProg A) (r r1 : R) x m tr a r' :
  doc c (r_view r1) = Some (x, m) → rely wf r r1 → runs wf (k (Some x)) (r_exec c r1).2 tr a r' →
  runs wf (RDo (one c) k) r ((r1, (r_exec c r1).2) :: tr) a r'.
Proof.
  intros [Hx _]%r_doc Hr Hk. eexists Answer, r1, (Some x), _, tr. split; [done|]. split; [done|]. split; [|done].
  cbn. destruct (r_exec c r1). cbn in Hx |- *. by subst.
Qed.

(** Another node publishes "m5" between the two requests of a read, and trims "m2". *)
Definition sample_range : cmd (list XMessage) := XRANGE (streamKey sample_ch) (streamStartID (off 3)) 10.
Definition sample_read1 : server := (r_exec sample_range sample_server).2.
Definition sample_later : server := (run_prog (sample_publish (sample_pub "m5")) [] sample_read1).2.
Definition sample_read2 : server := (r_exec (GET (retainedKey sample_ch)) sample_later).2.

Lemma same_start {A} (a a' b b' : A) : Some (a, b) = Some (a', b') → a = a'.
Proof. by intros [= ->]. Qed.

Lemma redis_history_exact_witness :
  ∃ page, runs (λ _, True) (getHistory 9 sample_ch (off 3) 10) sample_server
      [(sample_server, sample_read1); (sample_later, sample_read2)] (Some page) sample_read2 ∧
    Payload <$> Publications page = ["m3"; "m4"] ∧
    Publications page = take 10 (List.filter (λ p, (off 3 <=? Offset p)%Z) (pubs_of 9 sample_ch sample_log)).
Proof.
  assert (∃ page, Gap page = false ∧ runs (λ _, True) (getHistory 9 sample_ch (off 3) 10) sample_server
      [(sample_server, sample_read1); (sample_later, sample_read2)] (Some page) sample_read2) as (page & Hgap & Hruns).
  { eexists (history_page 9 sample_ch (off 3) 10 [sample_entry 3 "m3"; sample_entry 4 "m4"] (off 3)).
    split; [vm_compute; reflexivity|].
    eapply runs_one; [vm_compute; reflexivity|apply rely_refl|].
    eapply runs_one; [vm_compute; reflexivity|apply run_prog_rely|].
    split; [reflexivity|]. split; [vm_compute; reflexivity|apply rely_refl]. }
  exists page. split; [exact Hruns|].
  destruct (redis_history_exact _ _ _ _ _ _ sample_log 1 _ _ _ Hruns) as (_ & Hpubs & _ & _ & _ & Hall).
  - intros r1 r1' <-%same_start. apply stores_retains, sample_stores.
  - vm_compute. split; congruence.
  - vm_compute. reflexivity.
  - split; [rewrite Hpubs; vm_compute; reflexivity|].
    apply Hall; [vm_compute; reflexivity|exact Hgap|].
    intros r2 r2' <-%same_start. right. eexists. split; [vm_compute; reflexivity|]. right.
    intros e [= <-]. vm_compute. discriminate.
Defined.

Lemma redis_publish_extends_witness :
  ∃ r' e k', stores (r_view r') sample_ch (sample_log ++ [e]) k' ∧
    (run_block (publishScript (seqKey sample_ch) (streamKey sample_ch) 3 "{m5" 1000 false) sample_server).1.1 = 5%Z.
Proof.
  pose proof (redis_publish_extends sample_server sample_ch sample_log 1 (sample_pub "m5") "e" 7 "{m5" 3 1000 false
    sample_stores eq_refl eq_refl ltac:(lia) ltac:(lia) ltac:(vm_compute; reflexivity)) as Hext.
  destruct (run_block _ sample_server) as [[seq id] r'] eqn:Hrun.
  destruct Hext as (-> & e & k' & _ & Hst & _).
  - exists (5, 0)%N. split; [|split; vm_compute; reflexivity].
    vm_compute in Hrun. injection Hrun as _ <- _. reflexivity.
  - exists r', e, k'. split; [exact Hst|reflexivity].
Defined.

(** The marker can be behind the stream, and then a loss is not reported.  Two
    publications run at the same time: the first reads the oldest entry, the
    second trims the stream and writes the marker, then the first writes the
    older marker over it.  A reader who has seen "m2" and asks for what follows
    gets "m5" and no gap, although "m3" and "m4" were published in between. *)
Theorem stale_marker_hides_trim :
  let r0 := published (sample_pub <$> ["m1"; "m2"; "m3"]) in
  let r1 := (interleave [sample_publish (sample_pub "m4"); sample_publish (sample_capped "m5")]
               [0; 0; 1; 1; 1; 1; 0; 0] r0).2 in
  payloads r0 (off 2 + 1) = Some (["m3"], false) ∧
  payloads r1 (off 2 + 1) = Some (["m5"], false) ∧
  (r_view r1 !! retainedKey sample_ch = Some (VString (FormatUint (Z.to_N (off 2))))).
Proof. vm_compute. done. Qed.

End RedisHistory.
