(* ===== verification/RedisPresence.v ===== *)
(** * RedisPresence: the presence store kept in Redis
      (pkg/redisbroker/presence_redis.go)

    One key with a time to live per membership and one set per channel that
    indexes them.  Pipelines are sequences of requests, scripts are blocks.  The
    undisturbed operations are those of the in-memory store of Occupancy.v; one
    theorem shows what a read that prunes an expired member does to a member
    that comes back at the same time. *)

From S2P Require Import Prelude Strconv ServerApi Occupancy Redis.
Import Strconv Redis.

Module RedisPresence.

Abbreviation PresenceInfo := ServerApi.PresenceInfo.

Definition defaultPresencePrefix : string := "ml2:presence:".

Definition indexKey (ch : string) : string := defaultPresencePrefix +:+ "idx:" +:+ ch.

Definition memberKey (ch clientID : string) : string :=
  defaultPresencePrefix +:+ "member:" +:+ ch +:+ String ":" clientID.

Definition occupancyGenKey (ch : string) : string := defaultPresencePrefix +:+ "occ:gen:" +:+ ch.

Section Store.
Context `{Json PresenceInfo} (presenceTTL : Z).

(** The generation is a cluster-wide counter that never expires; [None]: error. *)
Definition NextOccupancyGen (ch : string) : RProg (option Z) :=
  RDo (one (INCR (occupancyGenKey ch))) (λ r,
    RRet (match r with Some gen => if (gen <=? 0)%Z then None else Some (u64 gen) | None => None end)).

Definition presenceRemoveScript (index member client_id : string) : Block Z :=
  BCmd (DEL member) (λ _,
  BCmd (SREM index [client_id]) (λ _,
  BCmd (SCARD index) (λ n,
    if (n =? 0)%Z then BCmd (DEL index) (λ _, BRet 1%Z) else BRet 0%Z))).

(** A pipeline of three requests; [false]: one of them failed, or the record
    could not be encoded. *)
Definition Add (ch : string) (info : PresenceInfo) : RProg bool :=
  match Marshal info with
  | None => RRet false
  | Some data =>
      RDo (one (SET (memberKey ch (ServerApi.pi_ClientID info)) data presenceTTL)) (λ r1,
      RDo (one (SADD (indexKey ch) (ServerApi.pi_ClientID info))) (λ r2,
      RDo (one (PEXPIRE (indexKey ch) presenceTTL)) (λ r3,
        RRet (match r1, r2, r3 with Some _, Some _, Some _ => true | _, _, _ => false end))))
  end.

Definition Remove (ch clientID : string) : RProg bool :=
  RDo (presenceRemoveScript (indexKey ch) (memberKey ch clientID) clientID) (λ r,
    RRet (match r with Some _ => true | None => false end)).

(** The pipeline of GETs: the values of the member keys, unless one failed. *)
Fixpoint fetch (ch : string) (clientIDs : list string) : RProg (option (list (string * option string))) :=
  match clientIDs with
  | [] => RRet (Some [])
  | clientID :: rest =>
      RDo (one (GET (memberKey ch clientID))) (λ r,
        rbind (fetch ch rest) (λ rs,
          RRet (match r, rs with Some v, Some l => Some ((clientID, v) :: l) | _, _ => None end)))
  end.

(** The record of a reply; [None]: expired, or not a record. *)
Definition info_of (reply : string * option string) : option PresenceInfo := reply.2 ≫= Unmarshal.

(** The members, and the pruned client IDs, for which the synthetic-leave hook
    is called. *)
Definition Get (ch : string) : RProg (option (gmap string PresenceInfo) * list string) :=
  RDo (one (SMEMBERS (indexKey ch))) (λ r,
    match r with
    | None => RRet (None, [])
    | Some [] => RRet (Some ∅, [])
    | Some clientIDs =>
        rbind (fetch ch clientIDs) (λ replies,
          match replies with
          | None => RRet (None, [])
          | Some replies =>
              let result := list_to_map (omap (λ x, (λ i, (x.1, i)) <$> info_of x) replies) in
              let stale := omap (λ x, match info_of x with None => Some x.1 | Some _ => None end) replies in
              if bool_decide (stale = []) then RRet (Some result, [])
              else RDo (one (SREM (indexKey ch) stale)) (λ _, RRet (Some result, stale))
          end)
    end).

End Store.

(** ** What the keys stand for *)

Section Refines.
Context {R : Type} `{Redis R} `{JsonLaws PresenceInfo} (presenceTTL : Z).

(** Client IDs have no ":". *)
Definition plain (id : string) : Prop := has_char ":" id = false.

(** [mem]: the members of each channel, [last]: the last generation of each.
    The index may name members that expired; it never misses one. *)
Record shows (m : keyspace) (mem : string → gmap string PresenceInfo) (last : string → Z) : Prop := {
  sh_index ch : ∃ idx : gset string,
    (m !! indexKey ch = None ∧ idx = ∅ ∨ m !! indexKey ch = Some (VSet idx)) ∧
    dom (mem ch) ⊆ idx ∧ ∀ id, id ∈ idx → plain id;
  sh_member ch id : plain id → holds json_valid (m !! memberKey ch id) (mem ch !! id);
  sh_gen ch : m !! occupancyGenKey ch = None ∧ last ch = 0%Z ∨
    (0 ≤ last ch < 2 ^ 63)%Z ∧ m !! occupancyGenKey ch = Some (VString (FormatInt (last ch)));
}.

Lemma memberKey_inj ch id ch' id' :
  plain id → plain id' → memberKey ch id = memberKey ch' id' → ch = ch' ∧ id = id'.
Proof. intros ?? Heq%key_inj%key_inj. by apply str_last_sep_inj in Heq. Qed.

(** Replacing the index of a channel and one of its member keys. *)
Lemma shows_update m mem last ch id mv iv a mem' last' :
  shows m mem last → plain id → holds json_valid mv a →
  (∃ idx, (iv = None ∧ idx = ∅ ∨ iv = Some (VSet idx)) ∧
     dom (partial_alter (λ _, a) id (mem ch)) ⊆ idx ∧ ∀ x, x ∈ idx → plain x) →
  (∀ x, mem' x = if decide (x = ch) then partial_alter (λ _, a) id (mem ch) else mem x) →
  (∀ x, last' x = last x) →
  shows (partial_alter (λ _, iv) (indexKey ch) (partial_alter (λ _, mv) (memberKey ch id) m)) mem' last'.
Proof.
  intros [Hi Hm Hg] Hid Hh Hidx Hmem Hlast. split.
  - intros x. rewrite Hmem. destruct (decide (x = ch)) as [->|Hne].
    + by rewrite lookup_partial_alter_eq.
    + rewrite !lookup_partial_alter_ne; [by apply Hi|discriminate|].
      intros Heq. by apply key_inj, key_inj in Heq.
  - intros x y Hy. rewrite Hmem. rewrite lookup_partial_alter_ne by discriminate.
    destruct (decide (memberKey ch id = memberKey x y)) as [Heq|Hne].
    + destruct (memberKey_inj _ _ _ _ Hid Hy Heq) as [-> ->]. rewrite decide_True by done.
      by rewrite !lookup_partial_alter_eq.
    + rewrite lookup_partial_alter_ne by done. destruct (decide (x = ch)) as [->|Hc]; [|by apply Hm].
      rewrite lookup_partial_alter_ne by (intros ->; done). by apply Hm.
  - intros x. rewrite !lookup_partial_alter_ne by discriminate. rewrite Hlast. apply Hg.
Qed.

(** Replacing the index alone. *)
Lemma shows_index m mem last ch iv :
  shows m mem last →
  (∃ idx, (iv = None ∧ idx = ∅ ∨ iv = Some (VSet idx)) ∧
     dom (mem ch) ⊆ idx ∧ ∀ x, x ∈ idx → plain x) →
  shows (partial_alter (λ _, iv) (indexKey ch) m) mem last.
Proof.
  intros [Hi Hm Hg] Hidx. split.
  - intros x. destruct (decide (x = ch)) as [->|Hne]; [by rewrite lookup_partial_alter_eq|].
    rewrite lookup_partial_alter_ne; [by apply Hi|]. intros Heq. by apply key_inj, key_inj in Heq.
  - intros x y Hy. rewrite lookup_partial_alter_ne by discriminate. by apply Hm.
  - intros x. rewrite lookup_partial_alter_ne by discriminate. apply Hg.
Qed.

(** A member's key expires. *)
Lemma shows_expire m mem last ch id mem' last' :
  shows m mem last → plain id →
  (∀ x, mem' x = if decide (x = ch) then delete id (mem ch) else mem x) → (∀ x, last' x = last x) →
  shows (delete (memberKey ch id) m) mem' last'.
Proof.
  intros Hs Hid Hmem Hlast. destruct (sh_index _ _ _ Hs ch) as (idx & Hidx & Hdom & Hplain).
  rewrite <-(partial_alter_id (λ _, m !! indexKey ch) (delete (memberKey ch id) m) (indexKey ch))
    by (by rewrite lookup_delete_ne by discriminate).
  apply (shows_update _ mem last ch id None _ None); [done..| |done|done].
  exists idx. split_and!; [done| |done].
  change (partial_alter (λ _, None) id (mem ch)) with (delete id (mem ch)). rewrite dom_delete_L. set_solver.
Qed.

(** ** The operations, undisturbed *)

Lemma Add_run r mem last ch info mem' last' :
  shows (r_view r) mem last → plain (ServerApi.pi_ClientID info) → json_valid info →
  is_Some (Marshal info) → (0 < presenceTTL)%Z →
  (∀ x, mem' x = if decide (x = ch) then <[ServerApi.pi_ClientID info := info]> (mem ch) else mem x) →
  (∀ x, last' x = last x) →
  let '(ok, r') := run_prog (Add presenceTTL ch info) [] r in ok = true ∧ shows (r_view r') mem' last'.
Proof.
  intros Hs Hid Hj [data Hdata] Httl Hmem Hlast. unfold Add. rewrite Hdata.
  set (id := ServerApi.pi_ClientID info) in *.
  pose proof (doc_SET (memberKey ch id) data presenceTTL (r_view r)) as H1'. answer_one H1' r1 Hv1.
  destruct (sh_index _ _ _ Hs ch) as (idx & Hidx & Hdom & Hplain).
  assert (doc (SADD (indexKey ch) id) (r_view r1) =
          Some (tt, <[indexKey ch := VSet ({[ id ]} ∪ idx)]> (r_view r1))) as H2'.
  { cbn. rewrite Hv1, lookup_insert_ne by discriminate.
    destruct Hidx as [[-> ->]| ->]; [by rewrite union_empty_r_L|done]. }
  answer_one H2' r2 Hv2.
  assert (doc (PEXPIRE (indexKey ch) presenceTTL) (r_view r2) = Some (tt, r_view r2)) as H3'.
  { cbn. by rewrite (proj2 (Z.leb_gt _ _)). }
  answer_one H3' r3 Hv3. cbn [run_prog]. split; [done|]. rewrite Hv3, Hv2, Hv1.
  apply (shows_update _ mem last ch id (Some (VString data)) (Some (VSet ({[ id ]} ∪ idx))) (Some info)); [done..| |done|done].
  exists ({[ id ]} ∪ idx). split; [by right|]. split.
  - change (partial_alter (λ _, Some info) id (mem ch)) with (<[id := info]> (mem ch)). rewrite dom_insert_L.
    set_solver.
  - intros x [->%elem_of_singleton|Hx]%elem_of_union; [done|by apply Hplain].
Qed.

(** The script: the member key goes, and the index without its last member. *)
Lemma script_run m ch id idx :
  m !! indexKey ch = None ∧ idx = ∅ ∨ m !! indexKey ch = Some (VSet idx) →
  let idx' := idx ∖ {[ id ]} in
  ∃ n, doc_block (presenceRemoveScript (indexKey ch) (memberKey ch id) id) m =
    Some (n, partial_alter (λ _, if decide (idx' = ∅) then None else Some (VSet idx')) (indexKey ch)
               (delete (memberKey ch id) m)).
Proof.
  intros Hidx idx'. assert (indexKey ch ≠ memberKey ch id) as Hne by discriminate.
  cbn [presenceRemoveScript doc_block doc mbind option_bind]. rewrite lookup_delete_ne by done.
  destruct Hidx as [[Hn ->]|Hs].
  - rewrite Hn. cbn. rewrite lookup_delete_ne, Hn by done. cbn. eexists.
    rewrite decide_True by (unfold idx'; set_solver). done.
  - rewrite Hs. replace (idx ∖ list_to_set [id]) with idx' by (unfold idx'; set_solver).
    destruct (decide (idx' = ∅)) as [He|He].
    + rewrite bool_decide_eq_true_2 by done. cbn [doc_block doc mbind option_bind].
      rewrite lookup_delete_eq. cbn. eexists. by rewrite delete_delete_eq.
    + rewrite bool_decide_eq_false_2 by done. cbn [doc_block doc mbind option_bind].
      rewrite lookup_insert_eq. cbn. rewrite (proj2 (Z.eqb_neq _ 0)); [by eexists|].
      intros Hz. apply He. apply leibniz_equiv, size_empty_inv. lia.
Qed.

Lemma Remove_run r mem last ch id mem' last' :
  shows (r_view r) mem last → plain id →
  (∀ x, mem' x = if decide (x = ch) then delete id (mem ch) else mem x) → (∀ x, last' x = last x) →
  let '(ok, r') := run_prog (Remove ch id) [] r in ok = true ∧ shows (r_view r') mem' last'.
Proof.
  intros Hs Hid Hmem Hlast. unfold Remove. cbn [run_prog hd tail step_block].
  destruct (sh_index _ _ _ Hs ch) as (idx & Hidx & Hdom & Hplain).
  destruct (script_run _ ch id idx Hidx) as [n Hdoc].
  destruct (run_block_doc _ _ _ _ Hdoc) as [Ha Hv]. destruct (run_block _ r) as [x r']. cbn in Ha, Hv. subst x.
  split; [done|]. rewrite Hv.
  eapply (shows_update _ mem last ch id None _ None); [done..| |done|done].
  exists (idx ∖ {[ id ]}). split; [case_decide; auto|]. split.
  - change (partial_alter (λ _, None) id (mem ch)) with (delete id (mem ch)). rewrite dom_delete_L. set_solver.
  - intros x Hx. apply Hplain. set_solver.
Qed.

Definition value (m : keyspace) (ch id : string) : option string :=
  match m !! memberKey ch id with Some (VString s) => Some s | _ => None end.

Lemma value_info m mem last ch id :
  shows m mem last → plain id →
  doc (GET (memberKey ch id)) m = Some (value m ch id, m) ∧ info_of (id, value m ch id) = mem ch !! id.
Proof.
  intros Hs Hid. pose proof (sh_member _ _ _ Hs ch id Hid) as Hh.
  destruct (holds_read _ _ _ _ (λ x Hx, Hx) Hh) as (raw & Hdoc & Hraw).
  assert (value m ch id = raw) as ->.
  { unfold value. cbn in Hdoc. by destruct (m !! memberKey ch id) as [[]|]; simplify_eq. }
  split; [done|]. unfold info_of. cbn. destruct raw as [raw|]; [by destruct Hraw|done].
Qed.

Lemma fetch_run ch ids : ∀ r,
  (∀ id, id ∈ ids → doc (GET (memberKey ch id)) (r_view r) = Some (value (r_view r) ch id, r_view r)) →
  ∃ r', run_prog (fetch ch ids) [] r = (Some ((λ id, (id, value (r_view r) ch id)) <$> ids), r') ∧
    r_view r' = r_view r.
Proof.
  induction ids as [|id ids IH]; intros r Hdoc; [by exists r|]. cbn [fetch].
  pose proof (Hdoc id ltac:(by left)) as H1'. answer_one H1' r1 Hv1. rewrite run_prog_bind.
  destruct (IH r1) as (r2 & -> & Hv2).
  { intros x Hx. rewrite Hv1. apply Hdoc. by right. }
  exists r2. cbn. rewrite Hv1 in *. done.
Qed.

Lemma restrict_lookup (m : gmap string PresenceInfo) l i :
  (list_to_map (omap (λ id, (λ a, (id, a)) <$> m !! id) l) : gmap string PresenceInfo) !! i =
  if decide (i ∈ l) then m !! i else None.
Proof.
  induction l as [|x l IH]; [done|]. cbn. destruct (m !! x) as [a|] eqn:Hx; cbn.
  - destruct (decide (x = i)) as [->|Hne].
    + rewrite lookup_insert_eq, decide_True by (by left). done.
    + rewrite lookup_insert_ne, IH by done. repeat case_decide; set_solver.
  - rewrite IH. destruct (decide (i = x)) as [->|Hne]; repeat case_decide; set_solver.
Qed.

(** The two halves of the replies. *)
Lemma replies_split m mem last ch (ids : list string) :
  shows m mem last → (∀ id, id ∈ ids → plain id) →
  let replies := (λ id, (id, value m ch id)) <$> ids in
  omap (λ x, (λ i, (x.1, i)) <$> info_of x) replies = omap (λ id, (λ a, (id, a)) <$> mem ch !! id) ids ∧
  ∀ id, id ∈ omap (λ x, match info_of x with None => Some x.1 | Some _ => None end) replies ↔
    id ∈ ids ∧ mem ch !! id = None.
Proof.
  intros Hs. induction ids as [|x ids IH]; intros Hpl; [split; [done|set_solver]|].
  destruct IH as [IH1 IH2]; [intros; apply Hpl; by right|].
  destruct (value_info _ _ _ ch x Hs ltac:(apply Hpl; by left)) as [_ Hx].
  rewrite fmap_cons. split; cbn [omap list_omap]; rewrite Hx; cbn [fst].
  { destruct (mem ch !! x); cbn [fmap option_fmap option_map]; by rewrite IH1. }
  intros id. destruct (mem ch !! x) as [a|] eqn:Hm; [|set_solver].
  rewrite IH2, elem_of_cons. split; [by intros []; auto|]. intros [[->|] ?]; [congruence|done].
Qed.

Lemma Get_run r mem last ch idx :
  shows (r_view r) mem last →
  r_view r !! indexKey ch = None ∧ idx = ∅ ∨ r_view r !! indexKey ch = Some (VSet idx) →
  ∃ stale r', run_prog (Get ch) [] r = ((Some (mem ch), stale), r') ∧ shows (r_view r') mem last ∧
    ∀ id, id ∈ stale ↔ id ∈ idx ∧ mem ch !! id = None.
Proof.
  intros Hs Hidx. destruct (sh_index _ _ _ Hs ch) as (idx' & Hidx' & Hdom & Hplain).
  assert (idx' = idx) as ->. { destruct Hidx as [[Hn ->]|Hn], Hidx' as [[Hn' ->]|Hn']; congruence. }
  assert (doc (SMEMBERS (indexKey ch)) (r_view r) = Some (elements idx, r_view r)) as H1'.
  { cbn. by destruct Hidx as [[-> ->]| ->]. }
  unfold Get. answer_one H1' r1 Hv1.
  assert (∀ id, id ∈ elements idx → plain id) as Hpl by (intros id Hid%elem_of_elements; by apply Hplain).
  destruct (elements idx) as [|id0 ids] eqn:Hel.
  { assert (idx = ∅) as -> by (by apply leibniz_equiv, elements_empty_iff, Permutation_nil_r; rewrite Hel).
    exists [], r1. rewrite Hv1. assert (mem ch = ∅) as -> by (apply dom_empty_inv_L; set_solver).
    split_and!; [done..|set_solver]. }
  rewrite <-Hel in *. clear id0 ids Hel. rewrite run_prog_bind.
  destruct (fetch_run ch (elements idx) r1) as (r2 & -> & Hv2).
  { intros id Hid. rewrite Hv1. by apply (value_info _ mem last); auto. }
  cbn [fst snd]. rewrite Hv1.
  destruct (replies_split _ _ _ ch (elements idx) Hs Hpl) as [-> Hstale].
  set (stale := omap _ _) in *. set (result := list_to_map _).
  assert (result = mem ch) as ->.
  { apply map_eq. intros i. unfold result. rewrite restrict_lookup. case_decide as Hi; [done|].
    symmetry. apply not_elem_of_dom. rewrite elem_of_elements in Hi. set_solver. }
  setoid_rewrite elem_of_elements in Hstale. rewrite <-Hv1, <-Hv2 in Hs.
  case_bool_decide as He; [exists stale, r2; rewrite He in *; by split_and!|].
  assert (doc (SREM (indexKey ch) stale) (r_view r2) = Some (tt,
    partial_alter (λ _, if decide (idx ∖ list_to_set stale = ∅) then None
                        else Some (VSet (idx ∖ list_to_set stale))) (indexKey ch) (r_view r2))) as H2'.
  { rewrite Hv2, Hv1. cbn. destruct Hidx as [[Hn ->]|Hn]; rewrite Hn.
    - exfalso. apply He. apply elem_of_nil_inv. intros x [? _]%Hstale. set_solver.
    - destruct (decide (idx ∖ list_to_set stale = ∅));
        [rewrite bool_decide_eq_true_2 by done|rewrite bool_decide_eq_false_2 by done]; done. }
  answer_one H2' r3 Hv3. exists stale, r3. split_and!; [done| |done]. rewrite Hv3.
  apply shows_index; [done|]. exists (idx ∖ list_to_set stale).
  split; [case_decide; [by left|by right]|]. split; [|set_solver].
  intros x Hx. apply elem_of_difference. split; [by apply Hdom|].
  intros [_ Hn]%elem_of_list_to_set%Hstale. by apply not_elem_of_dom in Hn.
Qed.

Lemma Gen_run r mem last ch last' :
  shows (r_view r) mem last → (last ch < 2 ^ 63 - 1)%Z →
  (∀ x, last' x = if decide (x = ch) then last ch + 1 else last x)%Z →
  let '(gen, r') := run_prog (NextOccupancyGen ch) [] r in
  gen = Some (last ch + 1)%Z ∧ shows (r_view r') mem last'.
Proof.
  intros Hs Hlt Hlast. destruct Hs as [Hi Hm Hg]. unfold NextOccupancyGen.
  assert (0 ≤ last ch)%Z as Hpos by (destruct (Hg ch) as [[_ ->]|[? _]]; lia).
  assert (doc (INCR (occupancyGenKey ch)) (r_view r) =
    Some ((last ch + 1)%Z, <[occupancyGenKey ch := VString (FormatInt (last ch + 1))]> (r_view r))) as Hincr.
  { cbn. destruct (Hg ch) as [[-> ->]|[? ->]]; [done|]. rewrite ParseInt_Format by lia.
    by rewrite (proj2 (Z.ltb_lt _ _)) by lia. }
  answer_one Hincr r1 Hv1. cbn [run_prog]. rewrite (proj2 (Z.leb_gt _ _)) by lia.
  rewrite u64_small by (unfold is_u64, u64_modulus; lia). split; [done|]. rewrite Hv1. split.
  - intros x. rewrite lookup_insert_ne by discriminate. apply Hi.
  - intros x y Hy. rewrite lookup_insert_ne by discriminate. by apply Hm.
  - intros x. rewrite Hlast. case_decide as Hx.
    + subst x. rewrite lookup_insert_eq. right. split; [lia|done].
    + rewrite lookup_insert_ne; [apply Hg|]. intros Heq. by apply key_inj, key_inj in Heq.
Qed.

(** C32: The presence store in Redis is a presence store.  Let [p] be any store
    that keeps the promises of the interface (the in-memory store is one), and
    let the Redis keys show the same members and generations.  Then the
    undisturbed operations on Redis give the answers of [p] and leave the keys
    showing what [p] then holds: adding, removing, issuing a generation; a read
    returns exactly the members of the channel, prunes exactly the expired ones
    from the index and changes nothing else; and the expiry of a member's key is
    its removal. *)
Theorem redis_presence_refines {P} `{Occupancy.PresenceStoreLaws P} (p : P) r :
  shows (r_view r) (Occupancy.ps_members p) (Occupancy.ps_last p) →
  (∀ ch info, plain (ServerApi.pi_ClientID info) → json_valid info → is_Some (Marshal info) →
     (0 < presenceTTL)%Z →
     let '(ok, r') := run_prog (Add presenceTTL ch info) [] r in
     let '(ok', p') := Occupancy.ps_Add ch info p in
     ok = ok' ∧ shows (r_view r') (Occupancy.ps_members p') (Occupancy.ps_last p')) ∧
  (∀ ch id, plain id →
     let '(ok, r') := run_prog (Remove ch id) [] r in
     let '(ok', p') := Occupancy.ps_Remove ch id p in
     ok = ok' ∧ shows (r_view r') (Occupancy.ps_members p') (Occupancy.ps_last p') ∧
     shows (delete (memberKey ch id) (r_view r)) (Occupancy.ps_members p') (Occupancy.ps_last p')) ∧
  (∀ ch idx, r_view r !! indexKey ch = None ∧ idx = ∅ ∨ r_view r !! indexKey ch = Some (VSet idx) →
     ∃ stale r', run_prog (Get ch) [] r = ((Occupancy.ps_Get ch p, stale), r') ∧
       shows (r_view r') (Occupancy.ps_members p) (Occupancy.ps_last p) ∧
       ∀ id, id ∈ stale ↔ id ∈ idx ∧ Occupancy.ps_members p ch !! id = None) ∧
  (∀ f ch, Occupancy.ps_NextOccupancyGen = Some f → (Occupancy.ps_last p ch < 2 ^ 63 - 1)%Z →
     let '(gen, r') := run_prog (NextOccupancyGen ch) [] r in
     let '(gen', p') := f ch p in
     gen = gen' ∧ shows (r_view r') (Occupancy.ps_members p') (Occupancy.ps_last p')).
Proof.
  intros Hs. split_and!.
  - intros ch info Hid Hj Hm Httl.
    destruct (Occupancy.ps_Add_ok ch info p) as (p' & -> & Hmem & Hlast).
    pose proof (Add_run r _ _ ch info _ _ Hs Hid Hj Hm Httl Hmem Hlast) as Hrun.
    by destruct (run_prog _ [] r).
  - intros ch id Hid. destruct (Occupancy.ps_Remove_ok ch id p) as (p' & -> & Hmem & Hlast).
    pose proof (Remove_run r _ _ ch id _ _ Hs Hid Hmem Hlast) as Hrun.
    destruct (run_prog _ [] r) as [ok r']. destruct Hrun as [-> Hrun]. split_and!; [done..|].
    by eapply shows_expire.
  - intros ch idx Hidx. rewrite Occupancy.ps_Get_ok. by apply Get_run.
  - intros f ch Hf Hlt. assert (0 ≤ Occupancy.ps_last p ch)%Z as Hpos
      by (destruct (sh_gen _ _ _ Hs ch) as [[_ ->]|[? _]]; lia).
    destruct (Occupancy.ps_gen_ok f ch p) as (p' & -> & Hmem & Hlast); [done|unfold u64_modulus; lia|].
    pose proof (Gen_run r _ _ ch _ Hs Hlt Hlast) as Hrun. destruct (run_prog _ [] r) as [g r'].
    destruct Hrun as [-> [Hi Hm Hg]]. split; [done|]. split; [|intros x y; rewrite Hmem; apply Hm|done].
    intros x. rewrite Hmem. apply Hi.
Qed.

End Refines.

(** ** An instance *)

Definition sample_info : PresenceInfo := ServerApi.mkInfo "s1" "s1" "c" "u" 7.

#[local] Instance sample_info_json : Json PresenceInfo := {
  Marshal i := Some (String "{" (ServerApi.pi_ClientID i));
  Unmarshal s := match s with String "{" _ => Some sample_info | _ => None end;
}.
#[local, refine] Instance sample_info_laws : JsonLaws PresenceInfo := { json_valid i := i = sample_info }.
Proof.
  - intros i s -> [= <-]. done.
  - by intros i s [= <-].
Defined.

#[local] Existing Instance Occupancy.memory_store.
#[local] Existing Instance Occupancy.memory_store_laws.

Lemma shows_empty : shows ∅ (λ _, ∅) (λ _, 0%Z).
Proof.
  split; [|by intros..|by left]. intros ch. exists ∅. split_and!; [by left|set_solver..].
Qed.

Definition added_server : server := (run_prog (Add 60000 "acme:im" sample_info) [] (mkServer ∅ 0)).2.

Lemma redis_presence_refines_witness :
  let '(ok, r') := run_prog (Add 60000 "acme:im" sample_info) [] (mkServer ∅ 0) in
  ok = true ∧
  (run_prog (Get "acme:im") [] r').1 = (Some {[ "s1" := sample_info ]}, []) ∧
  shows (r_view r')
    (Occupancy.ps_members (Occupancy.Add "acme:im" sample_info Occupancy.NewMemoryPresenceStore).2)
    (Occupancy.ps_last (Occupancy.Add "acme:im" sample_info Occupancy.NewMemoryPresenceStore).2).
Proof.
  destruct (redis_presence_refines 60000 Occupancy.NewMemoryPresenceStore (mkServer ∅ 0)) as [Hadd _].
  { apply shows_empty. }
  specialize (Hadd "acme:im" sample_info eq_refl eq_refl ltac:(by eexists) ltac:(lia)).
  destruct (run_prog (Add 60000 "acme:im" sample_info) [] (mkServer ∅ 0)) as [ok r'] eqn:Hrun.
  destruct Hadd as [-> Hs]. split; [reflexivity|]. split; [|exact Hs].
  vm_compute in Hrun. injection Hrun as <-. vm_compute. reflexivity.
Defined.

(** A read that prunes an expired member can hide a member that has just come
    back.  The read finds the member's key expired; before it prunes the index,
    the session's refresh writes the key and the index entry again; the prune
    removes the entry.  The member's key is there, no later read returns the
    member, and its leave has been announced. *)
Theorem prune_hides_member :
  let r0 := mkServer (delete (memberKey "acme:im" "s1") (r_view added_server)) 0 in
  let reader := rbind (Get "acme:im") (λ a, RRet a.2) in
  let refresh := rbind (Add 60000 "acme:im" sample_info) (λ ok, RRet (if ok : bool then [] else ["failed"])) in
  let '(clients, r1) := interleave [reader; refresh] [0; 0; 1; 1; 1; 0] r0 in
  (match clients with [RRet stale; RRet failed] => (stale, failed) | _ => ([], ["running"]) end) = (["s1"], []) ∧
  r_view r1 !! memberKey "acme:im" "s1" = Some (VString "{s1") ∧
  (run_prog (Get "acme:im") [] r1).1 = (Some ∅, []).
Proof. vm_compute. done. Qed.

End RedisPresence.
