(* ===== verification/RedisBus.v ===== *)
(** * RedisBus: the live bus of the Redis broker
      (pkg/redisbroker/pubsub.go, redis.go)

    A node's subscriptions become subscriptions of its pub/sub connection through
    a bounded queue of changes; live publications and the catch-up after a
    reconnect are delivered once per offset; gaps in the dense sequence numbers
    are reported.  The connection is the set of names it is subscribed to; what
    Redis answers to the catch-up reads is an argument. *)

From stdpp Require Import sorting.
From S2P Require Import Prelude Topics Matcher Interest Stream CSTrie MemoryBroker Occupancy Redis RedisHistory.
Import Topics Matcher Interest Stream Redis RedisHistory.

Module RedisBus.

Abbreviation cnt := MemoryBroker.cnt.

Definition liveOpsBufferSize : nat := 256.
Definition deliveryWorkers : Z := 16.
Definition deliveryQueueSize : nat := 256.
Definition liveControlChannel : string := "__live__".

(** A queued change; whether it is a pattern follows from the name. *)
Record liveOp := mkOp { op_add : bool; op_pattern : bool; op_channel : string }.

(** The envelope of an occupancy event (message.go). *)
Record redisOccupancy := mkOccMessage {
  ro_Type : string; ro_Channel : string; ro_Gen : Z; ro_Event : string }.

Record CatchUpGap := mkGap {
  g_Channel : string; g_Reason : HistoryGapReason; g_LastGoodSeq : Z; g_LastGoodOffset : Z }.

(** A queued handler invocation. *)
Inductive delivery := DPub (pub : Publication) | DOcc (evt : Occupancy.OccupancyEvent).

(** [fnv32a] of the channel name, as deliveryWorkerIndex writes it out. *)
Fixpoint fnv32a (h : Z) (s : string) : Z :=
  match s with
  | "" => h
  | String c s' => fnv32a (Z.lxor h (Z.of_N (N_of_ascii c)) * 16777619 mod 2 ^ 32) s'
  end.

Definition deliveryWorkerIndex (channel : string) : Z := (fnv32a 2166136261 channel mod deliveryWorkers)%Z.

Section Bus.
Context {M : Type} `{Matcher string M}.

Record redisBroker := mkBroker {
  subscribed : gmap string nat;
  wcCounts : gmap string nat;
  wcHandles : gset string;
  matcher : M;
  lastOffsets : gmap string Z;
  lastSeqs : gmap string Z;
  liveOps : list liveOp;
  liveDesired : gset string;
  liveActive : gset string;
  liveOpsDropped : nat;
  conn : option (gset string);           (* the active connection's subscriptions *)
  deliverChans : gmap Z (list (string * delivery));
  degraded : gset string;
  liveDropTotal : Z;
  catchUpGaps : nat;
  occupancyFailures : nat;
}.

Definition New : redisBroker :=
  mkBroker ∅ ∅ ∅ m_new ∅ ∅ [] ∅ ∅ 0 None ∅ ∅ 0 0 0.

(** ** Field updates *)

Definition set_interest (b : redisBroker) subs wc handles m : redisBroker :=
  mkBroker subs wc handles m (lastOffsets b) (lastSeqs b) (liveOps b) (liveDesired b) (liveActive b)
    (liveOpsDropped b) (conn b) (deliverChans b) (degraded b) (liveDropTotal b) (catchUpGaps b) (occupancyFailures b).
Definition set_baseline (b : redisBroker) offs seqs : redisBroker :=
  mkBroker (subscribed b) (wcCounts b) (wcHandles b) (matcher b) offs seqs (liveOps b) (liveDesired b)
    (liveActive b) (liveOpsDropped b) (conn b) (deliverChans b) (degraded b) (liveDropTotal b) (catchUpGaps b) (occupancyFailures b).
Definition set_desired (b : redisBroker) desired : redisBroker :=
  mkBroker (subscribed b) (wcCounts b) (wcHandles b) (matcher b) (lastOffsets b) (lastSeqs b) (liveOps b)
    desired (liveActive b) (liveOpsDropped b) (conn b) (deliverChans b) (degraded b) (liveDropTotal b)
    (catchUpGaps b) (occupancyFailures b).
Definition set_ops (b : redisBroker) ops dropped : redisBroker :=
  mkBroker (subscribed b) (wcCounts b) (wcHandles b) (matcher b) (lastOffsets b) (lastSeqs b) ops
    (liveDesired b) (liveActive b) dropped (conn b) (deliverChans b) (degraded b) (liveDropTotal b)
    (catchUpGaps b) (occupancyFailures b).
Definition set_conn (b : redisBroker) active c : redisBroker :=
  mkBroker (subscribed b) (wcCounts b) (wcHandles b) (matcher b) (lastOffsets b) (lastSeqs b) (liveOps b)
    (liveDesired b) active (liveOpsDropped b) c (deliverChans b) (degraded b) (liveDropTotal b)
    (catchUpGaps b) (occupancyFailures b).
Definition set_queues (b : redisBroker) q : redisBroker :=
  mkBroker (subscribed b) (wcCounts b) (wcHandles b) (matcher b) (lastOffsets b) (lastSeqs b) (liveOps b)
    (liveDesired b) (liveActive b) (liveOpsDropped b) (conn b) q (degraded b) (liveDropTotal b) (catchUpGaps b) (occupancyFailures b).
Definition set_pressure (b : redisBroker) d n : redisBroker :=
  mkBroker (subscribed b) (wcCounts b) (wcHandles b) (matcher b) (lastOffsets b) (lastSeqs b) (liveOps b)
    (liveDesired b) (liveActive b) (liveOpsDropped b) (conn b) (deliverChans b) d n (catchUpGaps b) (occupancyFailures b).
Definition set_gaps (b : redisBroker) n : redisBroker :=
  mkBroker (subscribed b) (wcCounts b) (wcHandles b) (matcher b) (lastOffsets b) (lastSeqs b) (liveOps b)
    (liveDesired b) (liveActive b) (liveOpsDropped b) (conn b) (deliverChans b) (degraded b)
    (liveDropTotal b) n (occupancyFailures b).

Definition count_occupancy_failure (b : redisBroker) : redisBroker :=
  mkBroker (subscribed b) (wcCounts b) (wcHandles b) (matcher b) (lastOffsets b) (lastSeqs b) (liveOps b)
    (liveDesired b) (liveActive b) (liveOpsDropped b) (conn b) (deliverChans b) (degraded b)
    (liveDropTotal b) (catchUpGaps b) (S (occupancyFailures b)).

(** ** The names a node needs *)

Definition exact_names (ch : string) : list string :=
  match CompileInterest ch with
  | Some (Ok ci) => if bool_decide (ci_Exact ci = "") then [] else [defaultPubSubPrefix +:+ ci_Exact ci]
  | _ => []
  end.

Definition pattern_names (key : string) : list string :=
  match CompileInterest key with
  | Some (Ok ci) =>
      (if bool_decide (ci_Pattern ci = "") then [] else [defaultPubSubPrefix +:+ ci_Pattern ci]) ++
      (if bool_decide (ci_AlsoExact ci = "") then [] else [defaultPubSubPrefix +:+ ci_AlsoExact ci])
  | _ => []
  end.

Definition liveDesiredLocked (b : redisBroker) : gset string :=
  list_to_set (elements (dom (subscribed b)) ≫= exact_names) ∪
  list_to_set (elements (dom (wcCounts b)) ≫= pattern_names).

Definition op_of (add : bool) (name : string) : liveOp := mkOp add (has_char "*" name) name.

Definition liveDiffLocked (b : redisBroker) : list liveOp * redisBroker :=
  let desired := liveDesiredLocked b in
  ((op_of true <$> elements (desired ∖ liveDesired b)) ++
   (op_of false <$> elements (liveDesired b ∖ desired)),
   set_desired b desired).

(** ** Subscribing *)

Inductive BusError := EInterest (e : InterestError) | ETopic (e : TopicError).

(** The part under the lock: the answer, the changes to enqueue and the state.
    [None]: the matcher does not return. *)
Definition subscribe_locked (b : redisBroker) (ch : string)
    : option (result BusError (list liveOp) * redisBroker) :=
  match CompileInterest ch with
  | None => None
  | Some (Err e) => Some (Err (EInterest e), b)
  | Some (Ok _) =>
      if IsWildcard ch then
        let counts := <[ch := S (cnt (wcCounts b) ch)]> (wcCounts b) in
        if bool_decide (cnt counts ch = 1) then
          match m_Subscribe ch ch (matcher b) with
          | None => None
          | Some (Err e, m') =>
              Some (Err (ETopic e), set_interest b (subscribed b) (delete ch counts) (wcHandles b) m')
          | Some (Ok _, m') =>
              let '(ops, b') := liveDiffLocked
                (set_interest b (subscribed b) counts ({[ ch ]} ∪ wcHandles b) m') in
              Some (Ok ops, b')
          end
        else Some (Ok [], set_interest b (subscribed b) counts (wcHandles b) (matcher b))
      else
        let subs := <[ch := S (cnt (subscribed b) ch)]> (subscribed b) in
        let b1 := set_interest b subs (wcCounts b) (wcHandles b) (matcher b) in
        if bool_decide (cnt subs ch = 1)
        then let '(ops, b') := liveDiffLocked b1 in Some (Ok ops, b')
        else Some (Ok [], b1)
  end.

Definition unsubscribe_locked (b : redisBroker) (ch : string) : option (list liveOp * redisBroker) :=
  if IsWildcard ch then
    if bool_decide (0 < cnt (wcCounts b) ch) then
      let n := cnt (wcCounts b) ch - 1 in
      if bool_decide (n = 0) then
        let counts := delete ch (wcCounts b) in
        if bool_decide (ch ∈ wcHandles b) then
          match m_Unsubscribe ch ch (matcher b) with
          | None => None
          | Some m' => Some (liveDiffLocked (set_interest b (subscribed b) counts (wcHandles b ∖ {[ ch ]}) m'))
          end
        else Some (liveDiffLocked (set_interest b (subscribed b) counts (wcHandles b) (matcher b)))
      else Some ([], set_interest b (subscribed b) (<[ch := n]> (wcCounts b)) (wcHandles b) (matcher b))
    else Some ([], b)
  else
    if bool_decide (0 < cnt (subscribed b) ch) then
      let n := cnt (subscribed b) ch - 1 in
      if bool_decide (n = 0) then
        let b1 := set_interest b (delete ch (subscribed b)) (wcCounts b) (wcHandles b) (matcher b) in
        Some (liveDiffLocked (set_baseline b1 (delete ch (lastOffsets b)) (delete ch (lastSeqs b))))
      else Some ([], set_interest b (<[ch := n]> (subscribed b)) (wcCounts b) (wcHandles b) (matcher b))
    else Some ([], b).

(** One turn of the loop of enqueueLiveOps: a full queue drops the change. *)
Definition enqueueLiveOp (b : redisBroker) (op : liveOp) : redisBroker :=
  if bool_decide (length (liveOps b) < liveOpsBufferSize)
  then set_ops b (liveOps b ++ [op]) (liveOpsDropped b)
  else set_ops b (liveOps b) (S (liveOpsDropped b)).

Definition enqueueLiveOps (b : redisBroker) (ops : list liveOp) : redisBroker := foldl enqueueLiveOp b ops.

Definition Subscribe (b : redisBroker) (ch : string) : option (result BusError unit * redisBroker) :=
  '(r, b') ← subscribe_locked b ch;
  Some (match r with
        | Err e => (Err e, b')
        | Ok ops => (Ok tt, enqueueLiveOps b' ops)
        end).

Definition Unsubscribe (b : redisBroker) (ch : string) : option redisBroker :=
  '(ops, b') ← unsubscribe_locked b ch; Some (enqueueLiveOps b' ops).

Definition interested (b : redisBroker) (ch : string) : option bool :=
  if bool_decide (0 < cnt (subscribed b) ch) then Some true
  else l ← m_Lookup ch (matcher b); Some (existsb (λ key, MatchAfterCompile key ch) l).

(** ** The connection *)

(** One queued change on the active connection; [ok]: Redis accepted it. *)
Definition applyLiveOp (b : redisBroker) (op : liveOp) (ok : bool) : redisBroker :=
  match conn b with
  | None => b
  | Some c =>
      if op_add op && bool_decide (op_channel op ∈ liveActive b) then b
      else if negb ok then b
      else if op_add op
           then set_conn b ({[ op_channel op ]} ∪ liveActive b) (Some ({[ op_channel op ]} ∪ c))
           else set_conn b (liveActive b ∖ {[ op_channel op ]}) (Some (c ∖ {[ op_channel op ]}))
  end.

(** The consumer takes the oldest change. *)
Definition consume (b : redisBroker) (ok : bool) : option redisBroker :=
  match liveOps b with
  | [] => None
  | op :: rest => Some (applyLiveOp (set_ops b rest (liveOpsDropped b)) op ok)
  end.

Definition clearAllDegraded (b : redisBroker) : redisBroker := set_pressure b ∅ (liveDropTotal b).

(** A new connection starts with the control channel only. *)
Definition setActivePubSub (b : redisBroker) : redisBroker :=
  clearAllDegraded (set_conn b ∅ (Some {[ defaultPubSubPrefix +:+ liveControlChannel ]})).

Definition clearActivePubSub (b : redisBroker) : redisBroker := set_conn b ∅ None.

(** Subscribing to the names one after the other, until one is refused. *)
Fixpoint rebuild_loop (b : redisBroker) (names : list string) (accepted : string → bool) : bool * redisBroker :=
  match names, conn b with
  | name :: rest, Some c =>
      if accepted name
      then rebuild_loop (set_conn b ({[ name ]} ∪ liveActive b) (Some ({[ name ]} ∪ c))) rest accepted
      else (false, b)
  | _, _ => (true, b)
  end.

(** The names are read under the lock; whether all were accepted. *)
Definition rebuildLiveSubs (b : redisBroker) (accepted : string → bool) : bool * redisBroker :=
  rebuild_loop b (elements (liveDesiredLocked b)) accepted.

(** The head of runPubSub: a refused name gives the connection up. *)
Definition connect (b : redisBroker) (accepted : string → bool) : bool * redisBroker :=
  let '(ok, b') := rebuildLiveSubs (setActivePubSub b) accepted in
  if ok then (true, b') else (false, clearActivePubSub b').

(** ** Delivery *)

Definition clearDegraded (b : redisBroker) (ch : string) : redisBroker :=
  set_pressure b (degraded b ∖ {[ ch ]}) (liveDropTotal b).

Definition markDegraded (b : redisBroker) (ch : string) : redisBroker :=
  set_pressure b ({[ ch ]} ∪ degraded b) (liveDropTotal b).

(** [None]: the worker's queue is full and the caller blocks. *)
Definition dispatch (b : redisBroker) (ch : string) (pub : Publication) : option redisBroker :=
  let i := deliveryWorkerIndex ch in
  let q := default [] (deliverChans b !! i) in
  if bool_decide (length q < deliveryQueueSize)
  then Some (clearDegraded (set_queues b (<[i := q ++ [(ch, DPub pub)]]> (deliverChans b))) ch)
  else None.

(** A full queue drops the event. *)
Definition dispatchOccupancy (metrics : bool) (b : redisBroker) (ch : string) (evt : Occupancy.OccupancyEvent)
    : redisBroker :=
  let i := deliveryWorkerIndex ch in
  let q := default [] (deliverChans b !! i) in
  if bool_decide (length q < deliveryQueueSize)
  then clearDegraded (set_queues b (<[i := q ++ [(ch, DOcc evt)]]> (deliverChans b))) ch
  else markDegraded (set_pressure b (degraded b) (if metrics then liveDropTotal b + 1 else liveDropTotal b)) ch.

(** A worker takes the oldest delivery of its queue. *)
Definition worker (b : redisBroker) (i : Z) : option ((string * delivery) * redisBroker) :=
  match deliverChans b !! i with
  | Some (d :: rest) => Some (d, set_queues b (<[i := rest]> (deliverChans b)))
  | _ => None
  end.

Definition deliverOnce (b : redisBroker) (ch : string) (pub : Publication) : option redisBroker :=
  if (Offset pub =? 0)%Z then dispatch b ch pub
  else
    let seen := match lastOffsets b !! ch with Some last => (Offset pub <=? last)%Z | None => false end in
    if seen then Some b
    else
      dispatch (set_baseline b (<[ch := Offset pub]> (lastOffsets b))
                  (if (0 <? Seq pub)%Z then <[ch := Seq pub]> (lastSeqs b) else lastSeqs b)) ch pub.

(** [metrics]: a metrics object is wired. *)
Definition noteLiveSeqGap (metrics : bool) (b : redisBroker) (ch : string) (seq : Z) : redisBroker :=
  if (seq =? 0)%Z || negb metrics then b
  else
    let last := default 0%Z (lastSeqs b !! ch) in
    if (0 <? last)%Z && (u64 (last + 1) <? seq)%Z
    then markDegraded (set_pressure b (degraded b) (liveDropTotal b + u64 (seq - last - 1))) ch
    else b.

(** ** Messages of the connection *)

(** [protojson] is protojson.Unmarshal of a presence event. *)
Section Inbound.
Context `{Json redisMessage} `{Json redisOccupancy} (protojson : string → option Occupancy.PresenceEvent).

Definition set_channel (e : Occupancy.PresenceEvent) (ch : string) : Occupancy.PresenceEvent :=
  Occupancy.mkEvent ch (Occupancy.pe_Action e) (Occupancy.pe_Info e) (Occupancy.pe_Gen e).

Definition deserializeOccupancy (data : string) : option Occupancy.OccupancyEvent :=
  m ← Unmarshal data;
  if negb (bool_decide (ro_Type m = messageTypeOccupancy)) || (ro_Gen m =? 0)%Z ||
     bool_decide (String.length (ro_Event m) = 0) then None
  else
    evt ← protojson (ro_Event m);
    let evt := if negb (bool_decide (ro_Channel m = "")) && bool_decide (Occupancy.pe_Channel evt = "")
               then set_channel evt (ro_Channel m) else evt in
    Some (Occupancy.mkOccupancy (Some evt) (ro_Gen m)).

Definition onMessage (metrics : bool) (now : Z) (b : redisBroker) (name payload : string) : option redisBroker :=
  if bool_decide (String.length name ≤ String.length defaultPubSubPrefix) then Some b
  else
    let channelName :=
      if String.prefix defaultPubSubPrefix name
      then String.substring (String.length defaultPubSubPrefix)
             (String.length name - String.length defaultPubSubPrefix) name
      else name in
    if bool_decide (channelName = liveControlChannel) then Some b
    else
      i ← interested b channelName;
      if negb i then Some b
      else match deserializeMessage payload with
           | None => Some b
           | Some msg =>
               if bool_decide (m_Type msg = messageTypePublication)
               then deliverOnce (noteLiveSeqGap metrics b channelName (m_Seq msg)) channelName
                      (messageToPublication now channelName msg (m_Offset msg))
               else if bool_decide (m_Type msg = messageTypeOccupancy)
               then match deserializeOccupancy payload with
                    | None => Some (count_occupancy_failure b)
                    | Some occ => Some (dispatchOccupancy metrics b channelName occ)
                    end
               else Some b
           end.

(** ** Catching up after a reconnect *)

Definition set_seq (pub : Publication) (seq : Z) : Publication :=
  mkPub (Channel pub) (Payload pub) (Kind pub) (ContentType pub) (Id pub) (Metadata pub) (Offset pub) seq
    (Time pub) (Epoch pub) (pub_HistorySize pub) (pub_HistoryTTL pub).

(** The publication of a replayed entry. *)
Definition replayed (now : Z) (ch : string) (m : XMessage) : option Publication :=
  data ← Values m !! "data";
  msg ← deserializeMessage data;
  if bool_decide (m_Type msg = messageTypePublication)
  then Some (set_seq (messageToPublication now ch msg (parseStreamOffset (ID m))) (streamEntrySeq m))
  else None.

Fixpoint replay (now : Z) (ch : string) (msgs : list XMessage) (b : redisBroker) : option redisBroker :=
  match msgs with
  | [] => Some b
  | m :: rest =>
      match replayed now ch m with
      | None => replay now ch rest b
      | Some pub => b' ← deliverOnce b ch pub; replay now ch rest b'
      end
  end.

(** The notification, if any, and the number of holes. *)
Fixpoint seq_gaps (ch : string) (msgs : list XMessage) (prev prevOffset : Z) (notified : option CatchUpGap)
    (holes : nat) : option CatchUpGap * nat :=
  match msgs with
  | [] => (notified, holes)
  | m :: rest =>
      let seq := streamEntrySeq m in
      if (seq =? 0)%Z then seq_gaps ch rest 0 0 notified holes
      else
        let hole := (0 <? prev)%Z && negb (seq =? u64 (prev + 1))%Z in
        let notified' :=
          match notified with
          | Some g => Some g
          | None => if hole then Some (mkGap ch HistoryGapMiddle prev prevOffset) else None
          end in
        seq_gaps ch rest seq (parseStreamOffset (ID m)) notified' (if hole then S holes else holes)
  end.

Definition checkCatchUpSeqGap (ch : string) (msgs : list XMessage) (baseline baselineOffset : Z)
    : option CatchUpGap * nat := seq_gaps ch msgs baseline baselineOffset None 0.

(** [newest]: the answer of newestStreamOffset, [None] an error. *)
Definition checkCatchUpGap (maxLen : Z) (ch : string) (msgs : list XMessage) (last : Z) (notified : bool)
    (newest : option Z) : option CatchUpGap * nat :=
  if (Z.of_nat (length msgs) <? maxLen)%Z then (None, 0)
  else
    let deliveredTail := match list.last msgs with Some m => parseStreamOffset (ID m) | None => last end in
    match newest with
    | None => (None, 0)
    | Some newest =>
        if (deliveredTail <? newest)%Z
        then (if notified then None else Some (mkGap ch HistoryGapReplayTruncated 0 deliveredTail), 1)
        else (None, 0)
    end.

Definition newestStreamOffset (reply : list XMessage) : Z :=
  match reply with [] => 0 | m :: _ => parseStreamOffset (ID m) end.

(** One channel of catchUpMissed: [msgs] is the answer of XRANGE from the
    baseline on ([None]: error), [newest] that of XREVRANGE.  The second result
    is what the gap handler is told. *)
Definition catchUpChannel (maxLen now : Z) (ch : string) (msgs : option (list XMessage))
    (newest : option (list XMessage)) (b : redisBroker) : option (redisBroker * list CatchUpGap) :=
  let last := default 0%Z (lastOffsets b !! ch) in
  let seq := default 0%Z (lastSeqs b !! ch) in
  if (last =? 0)%Z then Some (b, [])
  else match msgs with
       | None => Some (b, [])
       | Some msgs =>
           b' ← replay now ch msgs b;
           let '(g1, n1) := checkCatchUpSeqGap ch msgs seq last in
           let '(g2, n2) := checkCatchUpGap maxLen ch msgs last (bool_decide (is_Some g1))
                              (newestStreamOffset <$> newest) in
           Some (set_gaps b' (catchUpGaps b' + n1 + n2), option_list g1 ++ option_list g2)
       end.

(** The whole pass, over the exact channels; [msgs] and [newest] are Redis'
    answers for each of them. *)
Definition catchUpMissed (maxLen now : Z) (msgs newest : string → option (list XMessage)) (b : redisBroker)
    : option (redisBroker * list CatchUpGap) :=
  foldl (λ acc ch,
    '(b, gaps) ← acc;
    '(b', gaps') ← catchUpChannel maxLen now ch (msgs ch) (newest ch) b;
    Some (b', gaps ++ gaps')) (Some (b, [])) (elements (dom (subscribed b))).

End Inbound.

(** ** Delivery, once and in order *)

(** The publications of [ch] that wait for its worker. *)
Definition queued (b : redisBroker) (ch : string) : list Publication :=
  omap (λ d, match d.2 with
             | DPub pub => if bool_decide (d.1 = ch) then Some pub else None
             | DOcc _ => None
             end) (default [] (deliverChans b !! deliveryWorkerIndex ch)).

(** What is new to a reader at [last]: publications without an offset, and those
    beyond everything before them. *)
Fixpoint fresh (last : option Z) (pubs : list Publication) : list Publication :=
  match pubs with
  | [] => []
  | pub :: rest =>
      if (Offset pub =? 0)%Z then pub :: fresh last rest
      else if match last with Some l => (Offset pub <=? l)%Z | None => false end then fresh last rest
      else pub :: fresh (Some (Offset pub)) rest
  end.

Fixpoint deliver_all (b : redisBroker) (ch : string) (pubs : list Publication) : option redisBroker :=
  match pubs with
  | [] => Some b
  | pub :: rest => b' ← deliverOnce b ch pub; deliver_all b' ch rest
  end.





(** Whatever arrives, what is fresh has increasing offsets. *)
Lemma fresh_increasing pubs : ∀ last,
  let offs := List.filter (λ o, negb (o =? 0)%Z) (Offset <$> fresh last pubs) in
  StronglySorted Z.lt offs ∧ ∀ l o, last = Some l → o ∈ offs → (l < o)%Z.
Proof.
  induction pubs as [|p pubs IH]; intros last; [split; [constructor|set_solver]|]. cbn [fresh].
  destruct (Z.eqb_spec (Offset p) 0) as [Hz|Hz].
  - cbn. rewrite Hz. apply IH.
  - destruct (match last with Some l => (Offset p <=? l)%Z | None => false end) eqn:Hle; [apply IH|].
    cbn. rewrite (proj2 (Z.eqb_neq _ _)) by done. cbn. destruct (IH (Some (Offset p))) as [Hs Hl].
    split.
    + constructor; [done|]. apply Forall_forall. intros o Ho. by eapply Hl.
    + intros l o -> [->|Ho]%elem_of_cons; [by apply Z.leb_gt in Hle|].
      apply Z.leb_gt in Hle. specialize (Hl (Offset p) o eq_refl Ho). lia.
Qed.

(** ** Catching up *)

Section CatchUp.
Context `{JsonLaws redisMessage}.

(** Catch-up and history decode an entry the same way. *)
Lemma replayed_entry now ch m : replayed now ch m = entry_publication now ch m.
Proof.
  unfold replayed, entry_publication. destruct (Values m !! "data") as [data|]; [|done]. cbn.
  destruct (deserializeMessage data) as [msg|]; [|done]. cbn. by case_bool_decide.
Qed.

Lemma replay_deliver now ch msgs : ∀ b, replay now ch msgs b = deliver_all b ch (pubs_of now ch msgs).
Proof.
  induction msgs as [|m msgs IH]; intros b; [done|]. cbn [replay]. rewrite replayed_entry.
  unfold pubs_of. cbn [omap list_omap]. destruct (entry_publication now ch m); [|apply IH].
  cbn [deliver_all]. destruct (deliverOnce b ch _); [apply IH|done].
Qed.













(** With room in the worker's queue the catch-up does not block. *)
Lemma catch_up_returns maxLen now ch msgs newest b :
  length (default [] (deliverChans b !! deliveryWorkerIndex ch)) + length msgs ≤ deliveryQueueSize →
  is_Some (catchUpChannel maxLen now ch (Some msgs) newest b).
Proof.
  intros Hroom. unfold catchUpChannel. case_match; [by eexists|].
  assert (is_Some (deliver_all b ch (pubs_of now ch msgs))) as [b' Hb'].
  { assert (length (pubs_of now ch msgs) ≤ length msgs) as Hle by apply length_omap_le. clear -Hroom Hle.
    assert (length (default [] (deliverChans b !! deliveryWorkerIndex ch)) + length (pubs_of now ch msgs)
            ≤ deliveryQueueSize) as Hr by lia. clear Hroom Hle. revert b Hr.
    generalize (pubs_of now ch msgs) as pubs. induction pubs as [|p pubs IH]; intros b Hr; [by eexists|].
    cbn [deliver_all length] in *.
    assert (∀ b1, deliverChans b1 = deliverChans b → ∃ b2, dispatch b1 ch p = Some b2 ∧
      length (default [] (deliverChans b2 !! deliveryWorkerIndex ch)) + length pubs ≤ deliveryQueueSize) as Hd.
    { intros b1 Hb1. unfold dispatch. rewrite Hb1, bool_decide_eq_true_2 by lia. eexists. split; [done|].
      cbn. rewrite lookup_insert_eq. cbn. rewrite length_app. cbn. lia. }
    unfold deliverOnce. case_match; [|case_match].
    - destruct (Hd b eq_refl) as (b2 & -> & ?). cbn. by apply IH.
    - cbn. apply IH. lia.
    - destruct (Hd (set_baseline b (<[ch := Offset p]> (lastOffsets b))
        (if (0 <? Seq p)%Z then <[ch := Seq p]> (lastSeqs b) else lastSeqs b)) eq_refl) as (b2 & -> & ?).
      cbn. by apply IH. }
  rewrite replay_deliver, Hb'. cbn. repeat case_match; by eexists.
Qed.

End CatchUp.

(** ** The connection follows the interest *)

(** Where the goroutine of the connection is: between connections, subscribed to
    the control channel, subscribing to the names it read, or in its loop. *)
Inductive phase := Down | Opened | Rebuilding (todo : gset string) | Live.

(** [refused]: the names whose last change on this connection Redis refused. *)
Record bus_sys := mkSys { sys_b : redisBroker; sys_phase : phase; refused : gset string }.

Definition New_sys : bus_sys := mkSys New Down ∅.

Inductive busop :=
  | BSub (ch : string) | BUnsub (ch : string)          (* a call of the broker *)
  | BOpen | BSnapshot | BRebuild (name : string) (ok : bool) | BRebuilt   (* connect, step by step *)
  | BConsume (ok : bool)                               (* the loop takes a change *)
  | BClose.

(** What the consumer learns of a change: refused, or the connection agrees. *)
Definition refusal (b : redisBroker) (ok : bool) (r : gset string) : gset string :=
  match liveOps b with
  | [] => r
  | op :: _ =>
      if negb ok && negb (op_add op && bool_decide (op_channel op ∈ liveActive b))
      then {[ op_channel op ]} ∪ r else r ∖ {[ op_channel op ]}
  end.

(** The calls come one after the other, each with its changes queued; the steps of
    the connection, whose order of names and answers are Redis' and the map's
    choice, come in between.  [None]: not a step here. *)
Definition exec_bus (s : bus_sys) (o : busop) : option bus_sys :=
  let b := sys_b s in
  match o, sys_phase s with
  | BSub ch, ph => '(_, b') ← Subscribe b ch; Some (mkSys b' ph (refused s))
  | BUnsub ch, ph => b' ← Unsubscribe b ch; Some (mkSys b' ph (refused s))
  | BOpen, Down => Some (mkSys (setActivePubSub b) Opened ∅)
  | BSnapshot, Opened => Some (mkSys b (Rebuilding (liveDesiredLocked b)) (refused s))
  | BRebuild name ok, Rebuilding todo =>
      if bool_decide (name ∈ todo) then
        let '(ok', b') := rebuild_loop b [name] (λ _, ok) in
        Some (if ok' then mkSys b' (Rebuilding (todo ∖ {[ name ]})) (refused s)
              else mkSys (clearActivePubSub b') Down ∅)
      else None
  | BRebuilt, Rebuilding todo => if bool_decide (todo = ∅) then Some (mkSys b Live (refused s)) else None
  | BConsume ok, Live => b' ← consume b ok; Some (mkSys b' Live (refusal b ok (refused s)))
  | BClose, Opened | BClose, Rebuilding _ | BClose, Live => Some (mkSys (clearActivePubSub b) Down ∅)
  | _, _ => None
  end.

Definition exec_ops (ops : list busop) (s : bus_sys) : option bus_sys :=
  foldl (λ acc o, s ← acc; exec_bus s o) (Some s) ops.

(** The last queued change of a name. *)
Fixpoint last_op (q : list liveOp) (name : string) : option liveOp :=
  match q with
  | [] => None
  | op :: rest =>
      match last_op rest name with
      | Some o => Some o
      | None => if bool_decide (op_channel op = name) then Some op else None
      end
  end.

Lemma last_op_app a b name :
  last_op (a ++ b) name = match last_op b name with Some o => Some o | None => last_op a name end.
Proof. induction a as [|op a IH]; cbn; [by case_match|]. rewrite IH. by destruct (last_op b name). Qed.

Lemma last_op_names t l name :
  last_op (op_of t <$> l) name = if decide (name ∈ l) then Some (op_of t name) else None.
Proof.
  induction l as [|x l IH]; [done|]. cbn. rewrite IH. case_decide as Hin.
  - rewrite decide_True by (by right). done.
  - case_bool_decide as Hx; [subst; rewrite decide_True by (by left); done|].
    rewrite decide_False by (intros [->|]%elem_of_cons; done). done.
Qed.

(** The keys with a count: compiled, exact or wildcard, and the count positive. *)
Definition entry_ok (wildcard : bool) (ch : string) (n : nat) : Prop :=
  0 < n ∧ IsWildcard ch = wildcard ∧ ∃ ci, CompileInterest ch = Some (Ok ci).

(** The connection has the name exactly when it is wanted, or will have when the
    names that were read are subscribed to. *)
Definition synced (ph : phase) (active desired : gset string) (name : string) : Prop :=
  match ph with
  | Down | Opened => True
  | Rebuilding todo => name ∈ active ∪ todo ↔ name ∈ desired
  | Live => name ∈ active ↔ name ∈ desired
  end.

(** What the queue and the connection promise while no change was dropped. *)
Record bus_inv (b : redisBroker) (ph : phase) (refused : gset string) : Prop := {
  bi_subs ch n : subscribed b !! ch = Some n → entry_ok false ch n;
  bi_wc ch n : wcCounts b !! ch = Some n → entry_ok true ch n;
  bi_desired : liveDesired b = liveDesiredLocked b;
  bi_queue name : liveOpsDropped b = 0 →
    match last_op (liveOps b) name with
    | Some op => op_add op = bool_decide (name ∈ liveDesired b)
    | None => name ∉ refused → synced ph (liveActive b) (liveDesired b) name
    end;
  bi_phase : conn b = None ↔ ph = Down;
  bi_opened : ph = Opened → liveActive b = ∅;
  bi_conn c : conn b = Some c →
    liveActive b ⊆ c ∧ ∀ name, name ∈ c → name ∈ liveActive b ∨ name = defaultPubSubPrefix +:+ liveControlChannel;
}.

Lemma synced_desired ph active d d' name :
  (name ∈ d ↔ name ∈ d') → synced ph active d name → synced ph active d' name.
Proof. intros Heq. destruct ph; cbn; by rewrite ?Heq. Qed.

Lemma enqueue_fields ops : ∀ b,
  let b' := enqueueLiveOps b ops in
  subscribed b' = subscribed b ∧ wcCounts b' = wcCounts b ∧ liveDesired b' = liveDesired b ∧
  liveActive b' = liveActive b ∧ conn b' = conn b ∧ liveOpsDropped b ≤ liveOpsDropped b' ∧
  (liveOpsDropped b' = 0 → liveOps b' = liveOps b ++ ops).
Proof.
  induction ops as [|op ops IH]; intros b; [cbn; by rewrite app_nil_r|]. cbn.
  specialize (IH (enqueueLiveOp b op)). cbn in IH. fold (enqueueLiveOps (enqueueLiveOp b op) ops).
  destruct IH as (-> & -> & -> & -> & -> & Hle & Hq). unfold enqueueLiveOp in *.
  case_bool_decide; cbn in *; split_and!; try done; try lia.
  intros Hz. rewrite Hq by done. by rewrite <-app_assoc.
Qed.

(** The locked part followed by the queueing of its changes. *)
Lemma bus_inv_diff b b1 ph rf :
  bus_inv b ph rf → liveOps b1 = liveOps b → liveDesired b1 = liveDesired b → liveActive b1 = liveActive b →
  conn b1 = conn b → liveOpsDropped b1 = liveOpsDropped b →
  (∀ ch n, subscribed b1 !! ch = Some n → entry_ok false ch n) →
  (∀ ch n, wcCounts b1 !! ch = Some n → entry_ok true ch n) →
  let '(ops, b2) := liveDiffLocked b1 in bus_inv (enqueueLiveOps b2 ops) ph rf.
Proof.
  intros [_ _ Hd Hq Hp Hop Hc] Ho Hde Ha Hco Hdr Hs Hw. unfold liveDiffLocked.
  set (desired := liveDesiredLocked b1). set (ops := _ ++ _).
  destruct (enqueue_fields ops (set_desired b1 desired)) as (Es & Ew & Ed & Ea & Ec & Hle & Hops).
  cbn in Es, Ew, Ed, Ea, Ec, Hle, Hops. split.
  - by rewrite Es.
  - by rewrite Ew.
  - rewrite Ed. unfold liveDesiredLocked. by rewrite Es, Ew.
  - intros name Hz. rewrite Hops by done. rewrite Ed, Ea, Ha, Ho.
    assert (liveOpsDropped b = 0) as Hz' by lia. specialize (Hq name Hz').
    unfold ops. rewrite last_op_app, last_op_app, !last_op_names, Hde.
    destruct (decide (name ∈ elements (liveDesired b ∖ desired))) as [H1|H1].
    { cbn. symmetry. apply bool_decide_eq_false. set_solver. }
    destruct (decide (name ∈ elements (desired ∖ liveDesired b))) as [H2|H2].
    { cbn. symmetry. apply bool_decide_eq_true. set_solver. }
    rewrite elem_of_elements, elem_of_difference in H1, H2.
    assert (name ∈ desired ↔ name ∈ liveDesired b) as Heq.
    { destruct (decide (name ∈ desired)), (decide (name ∈ liveDesired b)); naive_solver. }
    destruct (last_op (liveOps b) name) as [op|]; [rewrite Hq; by apply bool_decide_ext|].
    intros Hr. eapply synced_desired; [|by apply Hq]. done.
  - by rewrite Ec, Hco.
  - by rewrite Ea, Ha.
  - intros c. rewrite Ec, Ea, Hco, Ha. apply Hc.
Qed.

(** Counts that stay positive do not change what is desired. *)
Lemma bus_inv_counts b ph rf subs wc handles m :
  bus_inv b ph rf → dom subs = dom (subscribed b) → dom wc = dom (wcCounts b) →
  (∀ ch n, subs !! ch = Some n → entry_ok false ch n) → (∀ ch n, wc !! ch = Some n → entry_ok true ch n) →
  bus_inv (set_interest b subs wc handles m) ph rf.
Proof.
  intros [_ _ Hd Hq Hp Hop Hc] Hs Hw Hsp Hwp. split; cbn; try done.
  rewrite Hd. unfold liveDesiredLocked. cbn. by rewrite Hs, Hw.
Qed.

Lemma insert_ok w (m : gmap string nat) ch n :
  (∀ x k, m !! x = Some k → entry_ok w x k) → entry_ok w ch n →
  ∀ x k, <[ch := n]> m !! x = Some k → entry_ok w x k.
Proof. intros Hm Hn x k [[<- <-]|[_ ?]]%lookup_insert_Some; [done|by eapply Hm]. Qed.

Lemma delete_ok w (m : gmap string nat) ch :
  (∀ x k, m !! x = Some k → entry_ok w x k) → ∀ x k, delete ch m !! x = Some k → entry_ok w x k.
Proof. intros Hm x k [_ ?]%lookup_delete_Some. by eapply Hm. Qed.

Lemma cnt_dom (m : gmap string nat) ch : 0 < cnt m ch → ch ∈ dom m.
Proof. unfold MemoryBroker.cnt. intros Hn. apply elem_of_dom. destruct (m !! ch); [by eexists|cbn in Hn; lia]. Qed.

Lemma cnt_entry w (m : gmap string nat) ch :
  (∀ x k, m !! x = Some k → entry_ok w x k) → 0 < cnt m ch → entry_ok w ch (cnt m ch).
Proof.
  unfold MemoryBroker.cnt. intros Hm Hn. destruct (m !! ch) as [k|] eqn:Hk; [by apply Hm|cbn in Hn; lia].
Qed.

Lemma Subscribe_bus b ph rf ch r b' : bus_inv b ph rf → Subscribe b ch = Some (r, b') → bus_inv b' ph rf.
Proof.
  intros Hi. unfold Subscribe, subscribe_locked. intros ([r1 b1] & Hl & Hr)%bind_Some.
  assert (b' = match r1 with Err _ => b1 | Ok ops => enqueueLiveOps b1 ops end) as ->
    by (destruct r1; by injection Hr). clear Hr.
  assert (∀ m, cnt (<[ch := S (cnt m ch)]> m) ch ≠ 1 → dom (<[ch := S (cnt m ch)]> m) = dom m) as Hdom.
  { intros m Hne. rewrite MemoryBroker.cnt_insert, decide_True in Hne by done.
    rewrite dom_insert_L. pose proof (cnt_dom m ch ltac:(lia)). set_solver. }
  destruct (CompileInterest ch) as [[ci|err]|] eqn:Hci; [|by injection Hl as <- <-|done].
  destruct (IsWildcard ch) eqn:Hwild.
  1: pose proof (insert_ok true (wcCounts b) ch (S (cnt (wcCounts b) ch)) (bi_wc _ _ _ Hi)
       (conj (Nat.lt_0_succ _) (conj Hwild (ex_intro _ ci Hci)))) as Hwp.
  2: pose proof (insert_ok false (subscribed b) ch (S (cnt (subscribed b) ch)) (bi_subs _ _ _ Hi)
       (conj (Nat.lt_0_succ _) (conj Hwild (ex_intro _ ci Hci)))) as Hsp.
  - case_bool_decide as Hone.
    + destruct (m_Subscribe ch ch (matcher b)) as [[[|err] m']|]; [| |done].
      * pose proof (bus_inv_diff b (set_interest b (subscribed b)
          (<[ch := S (cnt (wcCounts b) ch)]> (wcCounts b)) ({[ch]} ∪ wcHandles b) m') ph rf Hi) as Hdiff.
        destruct (liveDiffLocked _) as [ops b2]. injection Hl as <- <-.
        apply Hdiff; [done..|exact (bi_subs _ _ _ Hi)|exact Hwp].
      * injection Hl as <- <-.
        apply bus_inv_counts; [done|done| |exact (bi_subs _ _ _ Hi)|by apply delete_ok].
        rewrite MemoryBroker.cnt_insert, decide_True in Hone by done.
        rewrite dom_delete_L, dom_insert_L.
        assert (ch ∉ dom (wcCounts b)); [|set_solver]. intros [n Hn]%elem_of_dom.
        pose proof (bi_wc _ _ _ Hi _ _ Hn) as [? _]. unfold MemoryBroker.cnt in Hone. rewrite Hn in Hone. cbn in Hone. lia.
    + injection Hl as <- <-. apply bus_inv_counts; [done|done|by apply Hdom|exact (bi_subs _ _ _ Hi)|exact Hwp].
  - case_bool_decide as Hone.
    + pose proof (bus_inv_diff b (set_interest b (<[ch := S (cnt (subscribed b) ch)]> (subscribed b))
        (wcCounts b) (wcHandles b) (matcher b)) ph rf Hi) as Hdiff.
      destruct (liveDiffLocked _) as [ops b2]. injection Hl as <- <-.
      apply Hdiff; [done..|exact Hsp|exact (bi_wc _ _ _ Hi)].
    + injection Hl as <- <-. apply bus_inv_counts; [done|by apply Hdom|done|exact Hsp|exact (bi_wc _ _ _ Hi)].
Qed.

Lemma Unsubscribe_bus b ph rf ch b' : bus_inv b ph rf → Unsubscribe b ch = Some b' → bus_inv b' ph rf.
Proof.
  intros Hi. unfold Unsubscribe, unsubscribe_locked. intros ([ops b1] & Hl & [= <-])%bind_Some.
  assert (∀ m : gmap string nat, 0 < cnt m ch → dom (<[ch := cnt m ch - 1]> m) = dom m) as Hdom.
  { intros m Hn%cnt_dom. rewrite dom_insert_L. set_solver. }
  assert (∀ b1, liveOps b1 = liveOps b → liveDesired b1 = liveDesired b → liveActive b1 = liveActive b →
    conn b1 = conn b → liveOpsDropped b1 = liveOpsDropped b →
    (∀ ch n, subscribed b1 !! ch = Some n → entry_ok false ch n) →
  (∀ ch n, wcCounts b1 !! ch = Some n → entry_ok true ch n) →
    ∀ ops b2, liveDiffLocked b1 = (ops, b2) → bus_inv (enqueueLiveOps b2 ops) ph rf) as Hdiff.
  { intros b2 E1 E2 E3 E4 E5 E6 E7 ops' b3 Heq. pose proof (bus_inv_diff b b2 ph rf Hi E1 E2 E3 E4 E5 E6 E7) as Hd.
    by rewrite Heq in Hd. }
  pose proof (delete_ok true (wcCounts b) ch (bi_wc _ _ _ Hi)) as Hwd.
  pose proof (delete_ok false (subscribed b) ch (bi_subs _ _ _ Hi)) as Hsd.
  destruct (IsWildcard ch).
  - case_bool_decide as Hpos; [|by injection Hl as <- <-]. case_bool_decide as Hz.
    + case_bool_decide; [destruct (m_Unsubscribe ch ch (matcher b)); [|done]|];
        apply (inj Some) in Hl; (eapply Hdiff; [..|exact Hl]; [done..|exact (bi_subs _ _ _ Hi)|exact Hwd]).
    + injection Hl as <- <-.
      apply bus_inv_counts; [done|done|by apply Hdom|exact (bi_subs _ _ _ Hi)|].
      apply insert_ok; [exact (bi_wc _ _ _ Hi)|]. destruct (cnt_entry _ _ _ (bi_wc _ _ _ Hi) Hpos) as (_ & ? & ?).
      split; [lia|done].
  - case_bool_decide as Hpos; [|by injection Hl as <- <-]. case_bool_decide as Hz.
    + apply (inj Some) in Hl. eapply Hdiff; [..|exact Hl]; [done..|exact Hsd|exact (bi_wc _ _ _ Hi)].
    + injection Hl as <- <-.
      apply bus_inv_counts; [done|by apply Hdom|done| |exact (bi_wc _ _ _ Hi)].
      apply insert_ok; [exact (bi_subs _ _ _ Hi)|]. destruct (cnt_entry _ _ _ (bi_subs _ _ _ Hi) Hpos) as (_ & ? & ?).
      split; [lia|done].
Qed.

(** The consumer on a live connection, whatever Redis answers. *)
Lemma consume_bus b rf ok b' : bus_inv b Live rf → consume b ok = Some b' → bus_inv b' Live (refusal b ok rf).
Proof.
  intros Hi. pose proof Hi as [Hs Hw Hd Hq Hp _ Hcn]. unfold consume, refusal.
  destruct (liveOps b) as [|op rest] eqn:Hops; [done|]. intros [= <-].
  destruct (conn b) as [c|] eqn:Hc; [|by destruct Hp as [Hp _]; specialize (Hp eq_refl)].
  destruct (Hcn c eq_refl) as [Hsub Hctl].
  set (rf' := if negb ok && _ then _ else _).
  assert (∀ active' c', (∀ name, name ≠ op_channel op → name ∈ active' ↔ name ∈ liveActive b) →
    (op_channel op ∉ rf' → op_channel op ∈ active' ↔ op_add op = true) →
    active' ⊆ c' ∧ (∀ name, name ∈ c' → name ∈ active' ∨ name = defaultPubSubPrefix +:+ liveControlChannel) →
    bus_inv (set_conn (set_ops b rest (liveOpsDropped b)) active' (Some c')) Live rf') as Hgoal.
  { intros active' c' Hother Hthis Hc'. split; cbn; try done; [|by intros c2 [= <-]].
    intros name Hz. specialize (Hq name Hz). cbn in Hq. destruct (last_op rest name) as [o|]; [done|].
    case_bool_decide as Hn.
    - subst name. intros Hr. rewrite Hthis, Hq by done. by rewrite bool_decide_eq_true.
    - intros Hr. rewrite Hother by done. apply Hq. unfold rf' in Hr. destruct (negb ok && _); set_solver. }
  assert (set_conn (set_ops b rest (liveOpsDropped b)) (liveActive b) (Some c) = set_ops b rest (liveOpsDropped b)) as Hsame
    by (unfold set_conn, set_ops; cbn; by rewrite <-Hc).
  unfold applyLiveOp. cbn. rewrite Hc. unfold rf' in *. clear rf'. destruct (op_add op) eqn:Hadd; cbn [andb] in *.
  - case_bool_decide as Hin; [rewrite <-Hsame; by apply Hgoal|]. destruct ok; cbn [negb] in *.
    + apply Hgoal; [set_solver|set_solver|]. split; [set_solver|]. intros name. set_solver.
    + rewrite <-Hsame. apply Hgoal; [done|set_solver|done].
  - destruct ok; cbn [negb] in *.
    + apply Hgoal; [set_solver|set_solver|]. split; [set_solver|]. intros name [Hn1 Hn2]%elem_of_difference.
      destruct (Hctl name Hn1); [left; set_solver|by right].
    + rewrite <-Hsame. apply Hgoal; [done|set_solver|done].
Qed.

(** The connection goes away. *)
Lemma close_bus b ph rf : bus_inv b ph rf → bus_inv (clearActivePubSub b) Down ∅.
Proof.
  intros [Hs Hw Hd Hq Hp Hop Hc]. split; cbn; try done.
  intros name Hz. specialize (Hq name Hz). by destruct (last_op _ _).
Qed.

(** Connecting, step by step. *)
Lemma open_bus b rf : bus_inv b Down rf → bus_inv (setActivePubSub b) Opened ∅.
Proof.
  intros [Hs Hw Hd Hq Hp Hop Hc]. split; cbn; try done.
  - intros name Hz. specialize (Hq name Hz). by destruct (last_op _ _).
  - intros c [= <-]. split; [set_solver|]. intros name. set_solver.
Qed.

Lemma snapshot_bus b rf : bus_inv b Opened rf → bus_inv b (Rebuilding (liveDesiredLocked b)) rf.
Proof.
  intros [Hs Hw Hd Hq Hp Hop Hc]. split; try done.
  - intros name Hz. specialize (Hq name Hz). destruct (last_op _ _); [done|]. intros _. cbn.
    rewrite (Hop eq_refl), Hd. set_solver.
  - split; [|done]. intros Hn. by apply Hp in Hn.
Qed.

Lemma rebuild_bus b rf todo name ok :
  bus_inv b (Rebuilding todo) rf → name ∈ todo →
  let '(ok', b') := rebuild_loop b [name] (λ _, ok) in
  if ok' then bus_inv b' (Rebuilding (todo ∖ {[ name ]})) rf else b' = b.
Proof.
  intros [Hs Hw Hd Hq Hp Hop Hc] Hin. cbn [rebuild_loop].
  destruct (conn b) as [c|] eqn:Hcon; [|by destruct Hp as [Hp _]; specialize (Hp eq_refl)].
  destruct ok; [|done]. destruct (Hc c eq_refl) as [H1 H2]. split; cbn; try done.
  - intros x Hz. specialize (Hq x Hz). destruct (last_op _ _); [done|]. intros Hr. specialize (Hq Hr). cbn in Hq |- *. rewrite <-Hq.
    destruct (decide (x = name)) as [->|]; set_solver.
  - intros c' [= <-]. split; [set_solver|]. intros x. set_solver.
Qed.

Lemma rebuilt_bus b rf : bus_inv b (Rebuilding ∅) rf → bus_inv b Live rf.
Proof.
  intros [Hs Hw Hd Hq Hp Hop Hc]. split; try done.
  - intros name Hz. specialize (Hq name Hz). destruct (last_op _ _); [done|]. intros Hr.
    specialize (Hq Hr). cbn in *. set_solver.
  - split; [|done]. intros Hn. by apply Hp in Hn.
Qed.

Definition sys_inv (s : bus_sys) : Prop := bus_inv (sys_b s) (sys_phase s) (refused s).

Lemma exec_bus_inv s o s' : sys_inv s → exec_bus s o = Some s' → sys_inv s'.
Proof.
  unfold sys_inv. destruct s as [b ph rf]. cbn. intros Hi.
  destruct o as [ch|ch| | |name ok| |ok|]; cbn -[rebuild_loop].
  - intros ([r b1] & Hs & [= <-])%bind_Some. by eapply Subscribe_bus.
  - intros (b1 & Hs & [= <-])%bind_Some. by eapply Unsubscribe_bus.
  - destruct ph; [|done..]. intros [= <-]. by eapply open_bus.
  - destruct ph; try done. intros [= <-]. by apply snapshot_bus.
  - destruct ph as [| |todo|]; try done. case_bool_decide as Hin; [|done].
    pose proof (rebuild_bus b rf todo name ok Hi Hin) as Hr. destruct (rebuild_loop b [name] _) as [ok' b'].
    destruct ok'; intros [= <-]; cbn; [done|]. subst b'. by eapply close_bus.
  - destruct ph as [| |todo|]; try done. case_bool_decide; [|done]. subst todo. intros [= <-]. by apply rebuilt_bus.
  - destruct ph; try done. intros (b1 & Hc & [= <-])%bind_Some. by eapply consume_bus.
  - destruct ph; try done; intros [= <-]; by eapply close_bus.
Qed.

Lemma New_bus : sys_inv New_sys.
Proof. split; cbn; by intros. Qed.

Lemma exec_ops_inv ops : ∀ s s', sys_inv s → exec_ops ops s = Some s' → sys_inv s'.
Proof.
  unfold exec_ops. induction ops as [|o ops IH]; intros s s' Hi; cbn; [by intros [= <-]|].
  destruct (exec_bus s o) as [s1|] eqn:Ho.
  - apply IH. by eapply exec_bus_inv.
  - assert (foldl (λ acc o, s ← acc; exec_bus s o) None ops = None) as ->; [|done].
    clear. by induction ops.
Qed.

(** The steps of a connect, undisturbed, are the connect. *)
Lemma rebuild_steps names : ∀ b rf,
  NoDup names → conn b ≠ None →
  exec_ops ((λ n, BRebuild n true) <$> names) (mkSys b (Rebuilding (list_to_set names)) rf) =
  Some (mkSys (rebuild_loop b names (λ _, true)).2 (Rebuilding ∅) rf).
Proof.
  induction names as [|n names IH]; intros b rf Hnd Hc; [done|]. apply NoDup_cons in Hnd as [Hn Hnd].
  destruct (conn b) as [c|] eqn:Hcon; [|done]. cbn [fmap list_fmap rebuild_loop]. rewrite Hcon.
  rewrite <-(IH (set_conn b ({[ n ]} ∪ liveActive b) (Some ({[ n ]} ∪ c))) rf) by done.
  unfold exec_ops. cbn [foldl mbind option_bind exec_bus sys_b sys_phase].
  rewrite bool_decide_eq_true_2 by set_solver. cbn [rebuild_loop]. rewrite Hcon. cbn [sys_b refused].
  do 4 f_equal. cbn. set_solver.
Qed.

Lemma connect_steps b rf :
  exec_ops ([BOpen; BSnapshot] ++ ((λ n, BRebuild n true) <$> elements (liveDesiredLocked (setActivePubSub b))) ++
    [BRebuilt]) (mkSys b Down rf) = Some (mkSys (connect b (λ _, true)).2 Live ∅).
Proof.
  unfold exec_ops. rewrite !foldl_app. cbn [foldl mbind option_bind exec_bus sys_b sys_phase refused].
  pose proof (rebuild_steps (elements (liveDesiredLocked (setActivePubSub b))) (setActivePubSub b) ∅
    (NoDup_elements _)) as Hr. rewrite list_to_set_elements_L in Hr. unfold exec_ops in Hr.
  rewrite Hr by done. cbn. unfold connect, rebuildLiveSubs.
  assert (∀ names b, (rebuild_loop b names (λ _, true)).1 = true) as Hok.
  { clear. induction names as [|n names IH]; intros b; [done|]. cbn. destruct (conn b); [apply IH|done]. }
  specialize (Hok (elements (liveDesiredLocked (setActivePubSub b))) (setActivePubSub b)).
  destruct (rebuild_loop _ _ _) as [ok b']. cbn in Hok. by subst ok.
Qed.

(** The loop empties the queue, whatever Redis answers. *)
Lemma drain_queue oks : ∀ s,
  sys_phase s = Live → length oks = length (liveOps (sys_b s)) →
  ∃ s', exec_ops (BConsume <$> oks) s = Some s' ∧ sys_phase s' = Live ∧ liveOps (sys_b s') = [] ∧
    liveOpsDropped (sys_b s') = liveOpsDropped (sys_b s) ∧ subscribed (sys_b s') = subscribed (sys_b s) ∧
    wcCounts (sys_b s') = wcCounts (sys_b s).
Proof.
  induction oks as [|ok oks IH]; intros [b ph rf] Hph Hlen; cbn in Hph, Hlen; subst ph.
  { exists (mkSys b Live rf). split_and!; try done. cbn. by destruct (liveOps b). }
  destruct (liveOps b) as [|op rest] eqn:Hops; [done|]. injection Hlen as Hlen.
  set (b1 := applyLiveOp (set_ops b rest (liveOpsDropped b)) op ok).
  assert (liveOps b1 = rest ∧ liveOpsDropped b1 = liveOpsDropped b ∧ subscribed b1 = subscribed b ∧ wcCounts b1 = wcCounts b)
    as (H1 & H2 & H3 & H4) by (unfold b1, applyLiveOp; repeat case_match; done).
  destruct (IH (mkSys b1 Live (refusal b ok rf))) as (s' & Hrun & Hrest); [done|cbn; by rewrite H1|].
  exists s'. split; [|cbn in Hrest; by rewrite H2, H3, H4 in Hrest].
  unfold exec_ops in *. cbn. unfold consume. rewrite Hops. cbn. exact Hrun.
Qed.

(** Redis patterns under the prefix of the pub/sub names. *)
Lemma prefix_cancel p a b : String.prefix (p +:+ a) (p +:+ b) = String.prefix a b.
Proof.
  induction p as [|c p IH]; [done|]. rewrite !str_app_cons. cbn. by destruct (ascii_dec c c).
Qed.

Lemma prefixed_glob glob :
  literal_prefix_glob glob →
  literal_prefix_glob (λ p c, glob (defaultPubSubPrefix +:+ p) (defaultPubSubPrefix +:+ c)).
Proof.
  intros Hglob lit ch (H1 & H2 & H3 & H4). rewrite <-str_app_assoc, Hglob; [apply prefix_cancel|].
  unfold no_glob_meta. rewrite !has_char_app. split_and!; done.
Qed.

(** A name that carries the messages of [ch]. *)
Definition carries (glob : string → string → bool) (name ch : string) : Prop :=
  name = defaultPubSubPrefix +:+ ch ∨ glob name (defaultPubSubPrefix +:+ ch) = true.

(** Every key the node holds has a name for each channel it covers. *)
Lemma desired_covers glob b ph rf key ch :
  literal_prefix_glob glob → bus_inv b ph rf →
  (key ∈ dom (subscribed b) ∧ key = ch ∨ key ∈ dom (wcCounts b) ∧ Match key ch = true) →
  ValidateChannel key = Ok tt → key_no_glob_meta key → ValidateChannel ch = Ok tt →
  ∃ name, name ∈ liveDesiredLocked b ∧ carries glob name ch.
Proof.
  intros Hglob Hi Hkey Hvk Hmeta Hvc. unfold liveDesiredLocked.
  destruct Hkey as [[[n Hn]%elem_of_dom ->]|[[n Hn]%elem_of_dom Hm]].
  - destruct (bi_subs _ _ _ Hi _ _ Hn) as (_ & Hw & ci & Hci). exists (defaultPubSubPrefix +:+ ch).
    split; [|by left]. apply elem_of_union_l, elem_of_list_to_set, list_elem_of_bind. exists ch.
    split; [|apply elem_of_elements, elem_of_dom; by eexists]. unfold exact_names. rewrite Hci.
    destruct (MemoryBroker.compiled_wildcard _ _ Hci) as [Hv _]. rewrite compile_exact in Hci by done.
    injection Hci as <-. cbn. rewrite bool_decide_eq_false_2; [by left|]. intros ->. done.
  - destruct (bi_wc _ _ _ Hi _ _ Hn) as (_ & Hw & ci & Hci).
    pose proof (interest_covers _ key ci ch (prefixed_glob _ Hglob) Hvk Hmeta Hci Hvc Hm) as Hcov.
    assert (∀ name, name ∈ pattern_names key → name ∈ list_to_set (C := gset string)
      (elements (dom (subscribed b)) ≫= exact_names) ∪ list_to_set (elements (dom (wcCounts b)) ≫= pattern_names)) as Hin.
    { intros name Hname. apply elem_of_union_r, elem_of_list_to_set, list_elem_of_bind. exists key.
      split; [done|]. apply elem_of_elements, elem_of_dom. by eexists. }
    destruct Hcov as [[Hne Heq]|[[Hne Hg]|[Hne Heq]]].
    + exfalso. destruct (compile_cases key) as [[_ ?]|[(Hv & [?|(lit & w & Hs & Hl & Hw' & Hno)] & _)|(_ & _ & _ & ?)]];
        [congruence|unfold IsWildcard in Hw; congruence| |congruence].
      destruct (compile_wildcard key lit w) as (pre & sep & _ & _ & Hci'); [done..|].
      rewrite Hci' in Hci. by injection Hci as <-.
    + exists (defaultPubSubPrefix +:+ ci_Pattern ci). split; [|by right]. apply Hin. unfold pattern_names.
      rewrite Hci, bool_decide_eq_false_2 by done. by left.
    + exists (defaultPubSubPrefix +:+ ci_AlsoExact ci). split; [|left; by rewrite Heq]. apply Hin.
      unfold pattern_names. rewrite Hci, (bool_decide_eq_false_2 (ci_AlsoExact ci = "")) by done.
      apply elem_of_app. right. by left.
Qed.

(** C24: The pub/sub connection converges to the node's interest, up to the changes
    Redis refused.  Take any sequence of subscriptions and unsubscriptions (each
    queued before the next begins), interleaved with connects (name by name, given
    up at the first refused name), losses of the connection and changes taken from
    the queue and accepted or refused, in which no change was dropped from a full
    queue.  On a live connection the loop then empties the queue whatever Redis
    answers, and after that: for every name whose last change on this connection
    was not refused, the connection has the name exactly when it is compiled from a
    key the node holds; and for every valid channel that is covered by one of those
    keys, the key being free of Redis' pattern characters, a name that carries its
    messages is on the connection or was refused.  Without a refusal the connection
    has exactly the names of the interest (and the control channel). *)
Theorem live_subs_converge glob ops s oks :
  literal_prefix_glob glob → exec_ops ops New_sys = Some s → liveOpsDropped (sys_b s) = 0 →
  sys_phase s = Live → length oks = length (liveOps (sys_b s)) →
  ∃ s' c, exec_ops (BConsume <$> oks) s = Some s' ∧ liveOps (sys_b s') = [] ∧ conn (sys_b s') = Some c ∧
    subscribed (sys_b s') = subscribed (sys_b s) ∧ wcCounts (sys_b s') = wcCounts (sys_b s) ∧
    (∀ name, name ∉ refused s' → name ≠ defaultPubSubPrefix +:+ liveControlChannel →
       name ∈ c ↔ name ∈ liveDesiredLocked (sys_b s')) ∧
    (refused s' = ∅ → liveActive (sys_b s') = liveDesiredLocked (sys_b s')) ∧
    (∀ key ch,
       (key ∈ dom (subscribed (sys_b s)) ∧ key = ch ∨ key ∈ dom (wcCounts (sys_b s)) ∧ Match key ch = true) →
       ValidateChannel key = Ok tt → key_no_glob_meta key → ValidateChannel ch = Ok tt →
       ∃ name, (name ∈ c ∨ name ∈ refused s') ∧ carries glob name ch).
Proof.
  intros Hglob Hrun Hdrop Hlive Hlen.
  destruct (drain_queue oks s Hlive Hlen) as (s' & Hdrain & Hlive' & Hempty & Hdrop' & Hsub & Hwc).
  pose proof (exec_ops_inv _ _ _ (exec_ops_inv _ _ _ New_bus Hrun) Hdrain) as Hi. unfold sys_inv in Hi.
  rewrite Hlive' in Hi. destruct (conn (sys_b s')) as [c|] eqn:Hc; [|by apply (bi_phase _ _ _ Hi) in Hc].
  destruct (bi_conn _ _ _ Hi c Hc) as [Hact Hctl].
  assert (∀ name, name ∉ refused s' → name ∈ liveActive (sys_b s') ↔ name ∈ liveDesiredLocked (sys_b s')) as Hsync.
  { intros name Hr. pose proof (bi_queue _ _ _ Hi name ltac:(congruence)) as Hq. rewrite Hempty in Hq.
    rewrite <-(bi_desired _ _ _ Hi). by apply Hq. }
  exists s', c. split_and!; try done.
  - intros name Hr Hne. rewrite <-Hsync by done. split; [|apply Hact]. intros Hin. by destruct (Hctl name Hin).
  - intros Hnone. apply set_eq. intros name. apply Hsync. rewrite Hnone. set_solver.
  - rewrite <-Hsub, <-Hwc. intros key ch Hkey Hvk Hmeta Hvc.
    destruct (desired_covers glob _ _ _ key ch Hglob Hi Hkey Hvk Hmeta Hvc) as (name & Hin & Hcar).
    exists name. split; [|done]. destruct (decide (name ∈ refused s')) as [|Hr]; [by right|left].
    apply Hact. by apply Hsync.
Qed.

End Bus.

(** ** Runs, with the trie as matcher *)

Abbreviation trie := (CSTrie.heap (Sub:=string)).
Abbreviation bus := (redisBroker (M:=trie)).

#[local] Existing Instance sample_message_json.
#[local] Existing Instance sample_message_laws.

Definition name_of (ch : string) : string := defaultPubSubPrefix +:+ ch.

Definition after (ops : list busop) : bus_sys (M:=trie) := default New_sys (exec_ops ops New_sys).

(** A connect whose names are all accepted. *)
Definition connected (names : list string) : list busop :=
  [BOpen; BSnapshot] ++ ((λ n, BRebuild (name_of n) true) <$> names) ++ [BRebuilt].

(** Two keys, a connection, a third key, an outage with an unsubscription and a new
    key, a reconnect during which another key arrives, and a refused addition. *)
Definition sample_ops : list busop :=
  [BSub "acme:im.**"] ++ connected ["acme:im.*"; "acme:im"] ++ [BSub "acme:x"; BConsume true; BConsume true; BConsume true;
   BClose; BUnsub "acme:x"; BSub "acme:y"; BOpen; BSnapshot; BRebuild (name_of "acme:y") true; BSub "acme:z";
   BRebuild (name_of "acme:im") true; BRebuild (name_of "acme:im.*") true; BRebuilt; BSub "acme:w"].

(** The changes left are of "acme:x", "acme:y", "acme:z" and "acme:w"; Redis
    refuses the last one. *)
Lemma live_subs_converge_witness :
  ∃ s' c, exec_ops (BConsume <$> [true; true; true; false]) (after sample_ops) = Some s' ∧ conn (sys_b s') = Some c ∧
    name_of "acme:y" ∈ c ∧ name_of "acme:z" ∈ c ∧ ¬ (name_of "acme:x" ∈ c) ∧
    (∃ name, (name ∈ c ∨ name ∈ refused s') ∧ carries star_glob name "acme:im.room.1") ∧
    refused s' = {[ name_of "acme:w" ]}.
Proof.
  destruct (live_subs_converge star_glob sample_ops (after sample_ops) [true; true; true; false])
    as (s' & c & Hrun & _ & Hc & _ & _ & Hnames & _ & Hcover);
    [exact star_glob_literal|vm_compute; reflexivity..|].
  assert (s' = default New_sys (exec_ops (BConsume <$> [true; true; true; false]) (after sample_ops))) as Hs
    by (by rewrite Hrun).
  exists s', c. split; [exact Hrun|]. split; [exact Hc|].
  assert (∀ n, bool_decide (name_of n ∈ refused s') = false → name_of n ≠ name_of liveControlChannel →
    bool_decide (name_of n ∈ c) = bool_decide (name_of n ∈ liveDesiredLocked (sys_b s'))) as Hn.
  { intros n Hr Hne. apply bool_decide_ext, Hnames; [by apply bool_decide_eq_false in Hr|exact Hne]. }
  rewrite Hs in Hn. split_and!.
  1,2: eapply bool_decide_eq_true_1; rewrite Hn; [|vm_compute; congruence..]; vm_compute; reflexivity.
  - eapply bool_decide_eq_false_1; rewrite Hn; [|vm_compute; congruence..]; vm_compute; reflexivity.
  - apply (Hcover "acme:im.**"); [right; split| |repeat split|]; [|vm_compute; reflexivity..].
    apply (bool_decide_unpack _). vm_compute. exact I.
  - rewrite Hs. apply (bool_decide_unpack _). vm_compute. exact I.
Defined.

(** A refused change is not tried again on a live connection: the node holds the
    channel, nothing is queued or dropped, and the connection does not have it. *)
Theorem refused_change_loses_interest :
  let s := after (connected [] ++ [BSub "acme:x"; BConsume false]) in
  sys_phase s = Live ∧ liveOps (sys_b s) = [] ∧ liveOpsDropped (sys_b s) = 0 ∧ interested (sys_b s) "acme:x" = Some true ∧
  bool_decide (name_of "acme:x" ∈ liveDesiredLocked (sys_b s)) = true ∧
  bool_decide (name_of "acme:x" ∈ default ∅ (conn (sys_b s))) = false ∧
  bool_decide (refused s = {[ name_of "acme:x" ]}) = true.
Proof. vm_compute. done. Qed.

(** Changes are queued after the lock is released, so they can be queued in the
    other order: an unsubscription computes its removal, a subscription of the
    same channel computes its addition, the addition is queued and applied first
    (the name is still active, so nothing happens), then the removal.  The node
    holds the channel, the connection does not, and the queue is empty. *)
Theorem reordered_changes_lose_interest :
  let b0 := sys_b (after (connected [] ++ [BSub "acme:x"; BConsume true])) in
  match unsubscribe_locked b0 "acme:x" with
  | Some (ops1, b1) =>
      match subscribe_locked b1 "acme:x" with
      | Some (Ok ops2, b2) =>
          let b3 := enqueueLiveOps (enqueueLiveOps b2 ops2) ops1 in
          let b4 := default b3 (b ← consume b3 true; consume b true) in
          liveOps b4 = [] ∧ liveOpsDropped b4 = 0 ∧ interested b4 "acme:x" = Some true ∧
          bool_decide (name_of "acme:x" ∈ liveDesiredLocked b4) = true ∧
          bool_decide (name_of "acme:x" ∈ default ∅ (conn b4)) = false
      | _ => False
      end
  | None => False
  end.
Proof. vm_compute. done. Qed.

(** The outage: the channel is left, 255 changes of another channel fill the
    queue, and the channel is joined again. *)
Definition outage : list busop :=
  connected [] ++ [BSub "acme:x"; BConsume true; BClose; BUnsub "acme:x"] ++
  mjoin (replicate 127 [BSub "acme:y"; BUnsub "acme:y"]) ++ [BSub "acme:y"; BSub "acme:x"] ++
  connected ["acme:x"; "acme:y"] ++ replicate 256 (BConsume true).

(** A change dropped from a full queue is not always made good by the rebuild of
    the next connection.  While the connection is down the channel is left (a
    removal is queued), other changes fill the queue, and the channel is joined
    again (the addition is dropped).  The new connection subscribes to it, and
    then the queued removal is applied: the node holds the channel, the
    connection does not, and nothing is left to repair it. *)
Theorem dropped_change_loses_interest :
  let b := sys_b (after outage) in
  liveOps b = [] ∧ liveOpsDropped b = 1 ∧ interested b "acme:x" = Some true ∧
  bool_decide (name_of "acme:x" ∈ liveDesiredLocked b) = true ∧
  bool_decide (name_of "acme:x" ∈ default ∅ (conn b)) = false.
Proof. vm_compute. done. Qed.

(** The sample log of RedisHistory.v, as the node delivered its first entry. *)
Definition at_first : bus := set_baseline New {[ sample_ch := off 1 ]} {[ sample_ch := 1%Z ]}.

Definition sample_read (since : Z) : list XMessage * list XMessage :=
  (from_option fst [] (doc (XRANGE (streamKey sample_ch) (streamStartID since) 3) (r_view sample_server)),
   from_option fst [] (doc (XREVRANGE1 (streamKey sample_ch)) (r_view sample_server))).


(** A stream that expired while the connection was down: the node has delivered
    "m1" of four publications, the reads are answered from an empty key space, and
    the catch-up delivers nothing and reports nothing. *)
Theorem expired_stream_is_silent :
  doc (XRANGE (streamKey sample_ch) (streamStartID (off 1 + 1)) 3) ∅ = Some ([], ∅) ∧
  (λ x, (queued x.1 sample_ch, x.2, catchUpGaps x.1)) <$> catchUpChannel 3 9 sample_ch (Some []) (Some []) at_first =
    Some ([], [], 0).
Proof. vm_compute. done. Qed.

(** The counter expires with the stream, so the numbers start again, and they can
    meet the node's baseline: the node has delivered number 3 when the stream
    expires, six publications follow (numbers 1 to 6, of which 4 to 6 are
    retained), and the catch-up finds number 4 next: the loss of the first three
    is not reported. *)
Theorem restarted_numbers_hide_loss :
  let entry id seq p := mkX (id_string (id, 0%N)) (entry_fields seq (String "{" p)) in
  let msgs := [entry 14%N 4%Z "n4"; entry 15%N 5%Z "n5"; entry 16%N 6%Z "n6"] in
  let b : bus := set_baseline New {[ sample_ch := off 3 ]} {[ sample_ch := 3%Z ]} in
  (λ x, (Payload <$> queued x.1 sample_ch, x.2)) <$>
    catchUpChannel 3 9 sample_ch (Some msgs) (Some (option_list (list.last msgs))) b = Some (["n4"; "n5"; "n6"], []).
Proof. vm_compute. done. Qed.

(** Publications of two publishers can reach the live bus in the other order than
    their offsets; the one with the lower offset is then dropped, and a later
    catch-up starts behind it: it is never delivered. *)
Theorem late_publication_lost :
  let pub n p := mkPub sample_ch p PayloadKindText "" "" ∅ (off n) n 7 "e" 0 0 in
  let b := default New (deliver_all (New : bus) sample_ch [pub 2%Z "m2"; pub 1%Z "m1"]) in
  let b' := catchUpChannel 3 9 sample_ch (Some (sample_read (off 2 + 1)).1) (Some (sample_read (off 2 + 1)).2) b in
  Payload <$> queued b sample_ch = ["m2"] ∧
  (λ x, (Payload <$> queued x.1 sample_ch, x.2)) <$> b' = Some (["m2"; "m3"; "m4"], []).
Proof. vm_compute. done. Qed.

End RedisBus.
