(* ===== verification/Config.v ===== *)
(** * Config: the server configuration and its validation (internal/config/config.go)

    The parsed configuration, [Validate] with its three helpers, and the
    resolution of the batching settings and of the cluster key.  An error is the
    text of its message without the formatted values.  time.ParseDuration, the
    test for a loopback IP and the file system are arguments. *)

From S2P Require Import Prelude Topics Policy Authz Batcher Heartbeat.

Module Config.

(** ** The configuration *)

Record TLSConfig := mkTLS { CertFile : string; KeyFile : string }.

Record WebSocketTransport := mkWebSocket {
  ws_Addr : string; ws_Path : string; ws_ReadTimeout : string; ws_WriteTimeout : string; ws_TLS : TLSConfig }.

Record GRPCTransport := mkGRPC { grpc_Addr : string; grpc_WriteTimeout : string; grpc_TLS : TLSConfig }.

Record QUICTransport := mkQUIC {
  quic_Addr : string; quic_WriteTimeout : string; quic_ReadTimeout : string; quic_Insecure : bool; quic_TLS : TLSConfig }.

Record KCPTransport := mkKCP {
  kcp_Addr : string; kcp_WriteTimeout : string; kcp_ReadTimeout : string; kcp_DataShards : Z; kcp_ParityShards : Z;
  kcp_Insecure : bool; kcp_TLS : TLSConfig }.

Record Transport := mkTransport {
  WebSocket : WebSocketTransport; GRPC : GRPCTransport; QUIC : QUICTransport; KCP : KCPTransport }.

Record HttpServer := mkHttp { http_Addr : string; http_AuthToken : string }.

Record ServerAPI := mkAPI {
  api_Addr : string; api_TLS : TLSConfig; AuthTokens : list string; AuthCacheTTL : string; AllowInsecure : bool;
  Capabilities : list string }.

Record BatchingConfig := mkBatching {
  bc_MaxDelay : string; bc_MaxMessages : Z; bc_MaxBatchBytes : Z; bc_MinSubscribers : Z; bc_IdleReap : string }.

(** Of the removed blocks Validate reads whether they are present. *)
Record Server := mkServer {
  Http : HttpServer; API : ServerAPI; HeartbeatCfg : Heartbeat.HeartbeatSpec; RPCTimeout : string;
  MaxMessageSize : Z; RequireAuth : bool; Namespace : string; Authorizer : Authz.AuthorizerConfig;
  Broadcast : option BatchingConfig; ClusterEmit : option bool; ACLRules : nat; ChannelPolicies : nat;
  ChannelDefault : Policy.ChannelPolicySpec }.

Record RedisConfig := mkRedis {
  rd_Addr : string; rd_Password : string; rd_DB : Z; rd_PoolSize : Z; rd_MinIdleConns : Z; rd_DialTimeout : string;
  rd_ReadTimeout : string; rd_WriteTimeout : string; StreamApproximate : bool; ConsumerGroup : string }.

Record BrokerConfig := mkBroker { Type_ : string; Redis : RedisConfig }.

Record ClusterConfig := mkCluster { cl_Enabled : bool; HMACKey : string; HMACKeyFile : string }.

Record RegistryRedisConfig := mkRegRedis {
  rr_Addr : string; rr_Password : string; rr_DB : Z; rr_PoolSize : Z; rr_MinIdleConns : Z; rr_DialTimeout : string;
  rr_ReadTimeout : string; rr_WriteTimeout : string; KeyPrefix : string }.

Record RegistryConfig := mkRegistry { rg_Enabled : bool; Backend : string; rg_Redis : RegistryRedisConfig }.

Record ProxyConfig := mkProxy { px_Name : string; px_Service : string; APIAuth : bool }.

Record Config := mkConf {
  cf_Server : Server; cf_Transport : Transport; cf_Broker : BrokerConfig; cf_Cluster : ClusterConfig;
  cf_Registry : RegistryConfig; cf_Proxy : list ProxyConfig }.

(** The closed set of capability names, a copy of the authorizer's. *)
Definition CapabilityNames : gset string :=
  list_to_set ["presence.large_snapshot"; "survey.bypass_gate"; "history.read"; "presence.read"; "channels.list";
               "session.act"; "user.fanout"; "subscribe.any"; "pattern.global"].

Definition minAPIAuthTokenChars : nat := 20.
Definition minClusterHMACKeyBytes : nat := 32.
Definition defaultMaxMessageSize : Z := 64 * 1024.
Definition batchFrameInflationFactor : Z := 2.
Definition minBatchMaxBytes : Z := 1024.
Definition millisecond : Z := 1000000.
Definition maxBatchMaxDelay : Z := 500 * millisecond.
Definition DefaultRegistryKeyPrefix : string := "ml2:registry/".

(** ** Checks *)

Definition check (bad : bool) (e : string) : option string := if bad then Some e else None.

(** The first error. *)
Fixpoint first (l : list (option string)) : option string :=
  match l with [] => None | Some e :: _ => Some e | None :: l => first l end.

Abbreviation empty s := (bool_decide (s = "")).

(** ** net.SplitHostPort *)

Fixpoint index (c : ascii) (s : string) : option nat :=
  match s with
  | EmptyString => None
  | String x s => if bool_decide (x = c) then Some 0 else S <$> index c s
  end.

Fixpoint last_index (c : ascii) (s : string) : option nat :=
  match s with
  | EmptyString => None
  | String x s =>
    match last_index c s with
    | Some i => Some (S i)
    | None => if bool_decide (x = c) then Some 0 else None
    end
  end.

Definition slice (i j : nat) (s : string) : string := String.substring i (j - i) s.
Definition from (i : nat) (s : string) : string := String.substring i (String.length s - i) s.

(** [None]: an error.  The result is the host. *)
Definition SplitHostPort (hostport : string) : option string :=
  match last_index ":" hostport with
  | None => None
  | Some i =>
    let finish host j k :=
      if has_char "[" (from j hostport) || has_char "]" (from k hostport) then None else Some host in
    if bool_decide (String.get 0 hostport = Some "["%char) then
      match index "]" hostport with
      | None => None
      | Some e => if bool_decide (e + 1 = String.length hostport) then None
                  else if bool_decide (e + 1 = i) then finish (slice 1 e hostport) 1 (e + 1)
                  else None
      end
    else
      let host := slice 0 i hostport in
      if has_char ":" host then None else finish host 0 0
  end.

(** ** Validation *)

Section Validate.
Context (parseDuration : string → option Z) (loopbackIP : string → bool) (readFile : string → option string).

Definition isLoopbackAddr (addr : string) : bool :=
  let host := default addr (SplitHostPort addr) in
  if empty host then true else loopbackIP host.

Definition bad_duration (value : string) : bool := negb (empty value) && bool_decide (parseDuration value = None).

(** An explicit write timeout that is not positive. *)
Definition zero_timeout (value : string) : bool :=
  match parseDuration value with Some d => (d <=? 0)%Z | None => false end.

Definition half_pair (t : TLSConfig) : bool := xorb (empty (CertFile t)) (empty (KeyFile t)).
Definition no_cert (t : TLSConfig) : bool := empty (CertFile t) && empty (KeyFile t).

Definition EffectiveMaxMessageSize (c : Config) : Z :=
  if (0 <? MaxMessageSize (cf_Server c))%Z then MaxMessageSize (cf_Server c) else defaultMaxMessageSize.

(** The settings the batcher uses, with the collection window. *)
Definition Resolve (b : BatchingConfig) : result string (Batcher.BatchingSettings * Z) :=
  let duration value dflt := if empty value then Some dflt else parseDuration value in
  match duration (bc_MaxDelay b) (8 * millisecond)%Z with
  | None => Err "invalid duration for broadcast.batching.max_delay"
  | Some delay =>
    match duration (bc_IdleReap b) (30 * Policy.second)%Z with
    | None => Err "invalid duration for broadcast.batching.idle_reap"
    | Some _ =>
      let messages := if (0 <? bc_MaxMessages b)%Z then bc_MaxMessages b else 32%Z in
      let bytes := if (0 <? bc_MaxBatchBytes b)%Z then bc_MaxBatchBytes b else (16 * 1024)%Z in
      if (delay <=? 0)%Z || (maxBatchMaxDelay <? delay)%Z then Err "broadcast.batching.max_delay out of range"
      else if (messages <? 2)%Z then Err "broadcast.batching.max_messages must be >= 2"
      else if (bytes <? minBatchMaxBytes)%Z then Err "broadcast.batching.max_batch_bytes too small"
      else Ok (Batcher.mkSettings messages bytes, delay)
    end
  end.

(** One trailing newline, then one carriage return. *)
Definition trim_suffix (c : ascii) (s : string) : string :=
  match last_index c s with
  | Some i => if bool_decide (i + 1 = String.length s) then slice 0 i s else s
  | None => s
  end.

Definition ResolveHMACKey (c : ClusterConfig) : result string string :=
  if negb (empty (HMACKey c)) && negb (empty (HMACKeyFile c)) then Err "only one of hmac_key or hmac_key_file may be set" else
  let long key := if bool_decide (String.length key < minClusterHMACKeyBytes)
                  then Err "cluster hmac key must be at least 32 bytes" else Ok key in
  if negb (empty (HMACKey c)) then long (HMACKey c)
  else if negb (empty (HMACKeyFile c)) then
    match readFile (HMACKeyFile c) with
    | None => Err "read cluster.hmac_key_file"
    | Some data => long (trim_suffix "013" (trim_suffix "010" data))
    end
  else Err "cluster.hmac_key is required when cluster is enabled".

Definition assigned (c : Config) : nat := length (filter (λ p, APIAuth p = true) (cf_Proxy c)).

Definition validateAPIAuth (c : Config) : option string :=
  let ga := API (cf_Server c) in
  let http := Http (cf_Server c) in
  first [
    check (existsb (λ t, bool_decide (String.length t < minAPIAuthTokenChars)) (AuthTokens ga))
      "server.api.auth_tokens too short";
    (if empty (AuthCacheTTL ga) then None else
     match parseDuration (AuthCacheTTL ga) with
     | None => Some "invalid duration for server.api.auth_cache_ttl"
     | Some d => check (d <=? 0)%Z "server.api.auth_cache_ttl must be positive"
     end);
    check (existsb (λ p, APIAuth p && empty (px_Name p)) (cf_Proxy c)) "proxy.api_auth requires a name";
    check (bool_decide (1 < assigned c)) "proxy.api_auth must be assigned to exactly one proxy entry";
    check (negb (empty (api_Addr ga)) && AllowInsecure ga && negb (isLoopbackAddr (api_Addr ga)))
      "server.api.allow_insecure requires a loopback server.api.addr";
    check (negb (empty (http_Addr http)) && negb (isLoopbackAddr (http_Addr http)) && empty (http_AuthToken http))
      "server.http.addr is a non-loopback bind and requires server.http.auth_token";
    check (negb (empty (api_Addr ga)) && bool_decide (AuthTokens ga = []) && bool_decide (assigned c = 0) &&
           negb (AllowInsecure ga)) "server.api requires auth_tokens, api_auth or allow_insecure"].

Definition or_else (s dflt : string) : string := if empty s then dflt else s.
Definition or_else_Z (z dflt : Z) : Z := if (z =? 0)%Z then dflt else z.

(** The registry's section with what it inherits from the broker's. *)
Definition inherit (r : RegistryRedisConfig) (b : RedisConfig) : RegistryRedisConfig :=
  mkRegRedis (or_else (rr_Addr r) (rd_Addr b)) (or_else (rr_Password r) (rd_Password b)) (or_else_Z (rr_DB r) (rd_DB b))
    (or_else_Z (rr_PoolSize r) (rd_PoolSize b)) (or_else_Z (rr_MinIdleConns r) (rd_MinIdleConns b))
    (or_else (rr_DialTimeout r) (rd_DialTimeout b)) (or_else (rr_ReadTimeout r) (rd_ReadTimeout b))
    (or_else (rr_WriteTimeout r) (rd_WriteTimeout b)) (KeyPrefix r).

Definition set_registry (c : Config) (r : RegistryRedisConfig) : Config :=
  mkConf (cf_Server c) (cf_Transport c) (cf_Broker c) (cf_Cluster c)
    (mkRegistry (rg_Enabled (cf_Registry c)) (Backend (cf_Registry c)) r) (cf_Proxy c).

(** The error, and the configuration with the registry section normalised. *)
Definition validateRegistry (c : Config) : option string * Config :=
  let reg := cf_Registry c in
  if negb (rg_Enabled reg) then
    (check (existsb (λ p, negb (empty (px_Service p))) (cf_Proxy c)) "proxy uses service discovery", c)
  else if empty (Backend reg) then (Some "registry.backend is required when registry is enabled", c)
  else if bool_decide (Backend reg = "consul") then (Some "registry.backend=consul is not supported", c)
  else if negb (bool_decide (Backend reg = "redis")) then (Some "unknown registry.backend", c)
  else
    let r := inherit (rg_Redis reg) (Redis (cf_Broker c)) in
    match first [check (empty (rr_Addr r)) "registry.redis.addr is required";
                 check (bad_duration (rr_DialTimeout r)) "invalid duration for registry.redis.dial_timeout";
                 check (bad_duration (rr_ReadTimeout r)) "invalid duration for registry.redis.read_timeout";
                 check (bad_duration (rr_WriteTimeout r)) "invalid duration for registry.redis.write_timeout"] with
    | Some e => (Some e, set_registry c r)
    | None => (None, set_registry c (mkRegRedis (rr_Addr r) (rr_Password r) (rr_DB r) (rr_PoolSize r) (rr_MinIdleConns r)
                 (rr_DialTimeout r) (rr_ReadTimeout r) (rr_WriteTimeout r) (or_else (KeyPrefix r) DefaultRegistryKeyPrefix)))
    end.

Definition channelPolicySpecSet (s : Policy.ChannelPolicySpec) : bool :=
  negb (bool_decide (Policy.s_History s = None)) || negb (bool_decide (Policy.s_HistorySize s = None)) ||
  negb (empty (Policy.s_HistoryTTL s)) || negb (bool_decide (Policy.s_Presence s = None)) ||
  negb (bool_decide (Policy.s_Recover s = None)) || negb (bool_decide (Policy.s_Survey s = None)) ||
  negb (bool_decide (Policy.s_TransientOnly s = None)) || negb (bool_decide (Policy.s_RecoverLimit s = None)) ||
  negb (bool_decide (Policy.s_MaxSurveySubscribers s = None)) || negb (empty (Policy.s_MaxSurveyTimeout s)) ||
  negb (bool_decide (Policy.s_LegacyPresenceChannel s = None)) ||
  negb (bool_decide (Policy.s_PresenceSnapshotLimit s = None)) || negb (bool_decide (Policy.s_Batching s = None)).

Definition validateChannelPolicySpec (s : Policy.ChannelPolicySpec) : option string :=
  first [check (match Policy.s_HistorySize s with Some n => (n <? 0)%Z | None => false end) "history_size must be >= 0";
         check (bad_duration (Policy.s_HistoryTTL s)) "invalid duration for history_ttl";
         check (bad_duration (Policy.s_MaxSurveyTimeout s)) "invalid duration for max_survey_timeout"].

Definition validate_rule (r : Authz.AuthorizerRule) : option string :=
  first [check (empty (Authz.ar_Pattern r)) "server.authorizer.rules.pattern is required";
         check (negb (is_ok (Authz.validateAuthorizerPattern (Authz.ar_Pattern r)))) "server.authorizer.rules.pattern";
         validateChannelPolicySpec (Authz.ar_Spec r)].

Definition validate_transport (t : Transport) : option string :=
  let q := QUIC t in
  let k := KCP t in
  first [
    check (empty (ws_Addr (WebSocket t))) "transport.websocket.addr is required";
    check (empty (ws_Path (WebSocket t))) "transport.websocket.path is required";
    check (empty (grpc_Addr (GRPC t))) "transport.grpc.addr is required";
    check (negb (empty (quic_Addr q)) && (negb (quic_Insecure q) && no_cert (quic_TLS q))) "transport.quic requires tls";
    (if empty (kcp_Addr k) then None else
     first [check (negb (kcp_Insecure k) && no_cert (kcp_TLS k)) "transport.kcp requires tls";
            check ((kcp_DataShards k <? 0)%Z || (kcp_ParityShards k <? 0)%Z) "transport.kcp shards must be >= 0";
            check ((0 <? kcp_ParityShards k)%Z && (kcp_DataShards k <=? 0)%Z) "transport.kcp.parity_shards requires data_shards"])].

Definition durations (c : Config) : list string :=
  let s := cf_Server c in
  let t := cf_Transport c in
  [Heartbeat.hs_IdleTimeout (HeartbeatCfg s); Heartbeat.hs_PingInterval (HeartbeatCfg s);
   Heartbeat.hs_PingTimeout (HeartbeatCfg s); RPCTimeout s; ws_ReadTimeout (WebSocket t); ws_WriteTimeout (WebSocket t);
   grpc_WriteTimeout (GRPC t); quic_WriteTimeout (QUIC t); quic_ReadTimeout (QUIC t); kcp_WriteTimeout (KCP t);
   kcp_ReadTimeout (KCP t)].

Definition write_timeouts (t : Transport) : list string :=
  [ws_WriteTimeout (WebSocket t); grpc_WriteTimeout (GRPC t); quic_WriteTimeout (QUIC t); kcp_WriteTimeout (KCP t)].

Definition tls_pairs (c : Config) : list TLSConfig :=
  let t := cf_Transport c in
  [api_TLS (API (cf_Server c)); ws_TLS (WebSocket t); grpc_TLS (GRPC t); quic_TLS (QUIC t); kcp_TLS (KCP t)].

Definition validate_broker (b : BrokerConfig) : option string :=
  if empty (Type_ b) || bool_decide (Type_ b = "memory") then None
  else if bool_decide (Type_ b = "redis") then
    first [check (empty (rd_Addr (Redis b))) "broker.redis.addr is required when broker.type is redis";
           check (negb (empty (ConsumerGroup (Redis b)))) "broker.redis.consumer_group is not implemented";
           check (negb (StreamApproximate (Redis b))) "broker.redis.stream_approximate must be set to true explicitly"]
  else Some "unknown broker.type".

Definition validate_cluster (c : Config) : option string :=
  let cl := cf_Cluster c in
  if negb (cl_Enabled cl) then None else
  first [
    check (negb (bool_decide (Type_ (cf_Broker c) = "redis"))) "cluster requires broker.type=redis";
    check (empty (HMACKey cl) && empty (HMACKeyFile cl)) "cluster.hmac_key is required when cluster is enabled";
    check (negb (empty (HMACKey cl)) && negb (empty (HMACKeyFile cl))) "only one of hmac_key or hmac_key_file may be set";
    check (negb (empty (HMACKey cl)) && bool_decide (String.length (HMACKey cl) < minClusterHMACKeyBytes))
      "cluster.hmac_key must be at least 32 bytes"].

Definition validate_broadcast (c : Config) : option string :=
  match Broadcast (cf_Server c) with
  | None => None
  | Some b =>
    match Resolve b with
    | Err e => Some e
    | Ok (s, _) => check (EffectiveMaxMessageSize c <? i64 (batchFrameInflationFactor * Batcher.MaxBatchBytes s))%Z
                     "broadcast.batching.max_batch_bytes exceeds server.limits.max_message_size"
    end
  end.

Definition validate_namespace (s : Server) : option string :=
  if negb (empty (Namespace s)) then
    check (negb (is_ok (Topics.ValidateNamespace (Namespace s)))) "server.namespace"
  else check (negb (RequireAuth s)) "server.namespace is required when server.require_auth is disabled".

(** The checks before validateRegistry, and those after it. *)
Definition checks_before (c : Config) : option string :=
  first [
    validate_transport (cf_Transport c);
    check (existsb bad_duration (durations c)) "invalid duration";
    check (existsb zero_timeout (write_timeouts (cf_Transport c))) "write_timeout must be positive";
    check (negb (Heartbeat.validHeartbeat parseDuration (HeartbeatCfg (cf_Server c)))) "server.heartbeat";
    check (existsb half_pair (tls_pairs c)) "cert_file and key_file must both be set or both be empty";
    validateAPIAuth c;
    validate_broker (cf_Broker c)].

Definition checks_after (c : Config) : option string :=
  let s := cf_Server c in
  first ([
    validate_cluster c;
    check (existsb (λ n, negb (bool_decide (n ∈ CapabilityNames))) (Capabilities (API s)))
      "server.api.capabilities: unknown capability";
    validate_broadcast c;
    check (bool_decide (0 < ACLRules s)) "server.acl is removed";
    check (bool_decide (0 < ChannelPolicies s) || channelPolicySpecSet (ChannelDefault s)) "server.channels is removed";
    check (negb (bool_decide (ClusterEmit s = None))) "server.presence.cluster_emit is removed";
    validateChannelPolicySpec (Authz.ac_Default (Authorizer s))] ++
    (validate_rule <$> Authz.ac_Rules (Authorizer s)) ++
    [validate_namespace s; check (empty (api_Addr (API s))) "server.api.addr is required"]).

Definition Validate (c : Config) : option string * Config :=
  match checks_before c with
  | Some e => (Some e, c)
  | None =>
    match validateRegistry c with
    | (Some e, c) => (Some e, c)
    | (None, c) => (checks_after c, c)
    end
  end.

(** ** Proofs *)

Lemma first_None l : first l = None ↔ Forall (λ x, x = None) l.
Proof.
  induction l as [|[e|] l IH]; cbn; [by split|split; [done|by intros [? _]%Forall_cons]|].
  rewrite IH, Forall_cons. naive_solver.
Qed.

Lemma check_None b e : check b e = None ↔ b = false.
Proof. by destruct b. Qed.

Lemma existsb_false {B} (f : B → bool) l : existsb f l = false ↔ ∀ x, x ∈ l → f x = false.
Proof.
  induction l as [|y l IH]; cbn; [set_solver|]. rewrite orb_false_iff, IH. set_solver.
Qed.

(** Turns the success of a sequence of checks into the failure of each test. *)
Ltac checks H := repeat first [rewrite first_None in H|rewrite !Forall_cons in H|rewrite !check_None in H].

Lemma CapabilityNames_closed n : n ∈ CapabilityNames → is_Some (Authz.ClosedCapabilityNames !! n).
Proof.
  unfold CapabilityNames. rewrite elem_of_list_to_set. intros Hn.
  repeat (apply elem_of_cons in Hn as [->|Hn]; [vm_compute; by eexists|]). by apply elem_of_nil in Hn.
Qed.

Lemma empty_spec (s : string) : empty s = false ↔ s ≠ "".
Proof. by rewrite bool_decide_eq_false. Qed.

Lemma or_else_same a b : or_else (or_else a b) b = or_else a b.
Proof. unfold or_else. by repeat case_bool_decide. Qed.

Lemma or_else_nonempty a b : b ≠ "" → or_else a b ≠ "".
Proof. unfold or_else. by case_bool_decide. Qed.

Lemma or_else_Z_same a b : or_else_Z (or_else_Z a b) b = or_else_Z a b.
Proof. unfold or_else_Z. destruct (Z.eqb_spec a 0) as [->|Hne]; [by destruct (b =? 0)%Z|]. by rewrite (proj2 (Z.eqb_neq _ _)). Qed.

Lemma Validate_parts c c' :
  Validate c = (None, c') → checks_before c = None ∧ validateRegistry c = (None, c') ∧ checks_after c' = None.
Proof.
  unfold Validate. destruct (checks_before c); [done|]. destruct (validateRegistry c) as [[e|] c1]; [done|].
  intros Heq. injection Heq as Ha <-. done.
Qed.

Lemma validateRegistry_frame c :
  let c' := (validateRegistry c).2 in
  cf_Server c' = cf_Server c ∧ cf_Transport c' = cf_Transport c ∧ cf_Broker c' = cf_Broker c ∧
  cf_Cluster c' = cf_Cluster c ∧ cf_Proxy c' = cf_Proxy c ∧ rg_Enabled (cf_Registry c') = rg_Enabled (cf_Registry c).
Proof.
  unfold validateRegistry. destruct (rg_Enabled (cf_Registry c)) eqn:He; cbn [negb]; [|done].
  repeat case_bool_decide; cbn [negb snd]; try done. destruct (first _); cbn; by rewrite He.
Qed.

(** Validating a valid configuration again changes nothing. *)
Theorem validate_idempotent c c' : Validate c = (None, c') → Validate c' = (None, c').
Proof.
  intros Hv. apply Validate_parts in Hv as (Hb & Hr & Ha).
  assert (checks_before c' = None ∧ validateRegistry c' = (None, c')) as [Hb' Hr'];
    [|unfold Validate; by rewrite Hb', Hr', Ha].
  unfold validateRegistry in Hr. destruct (rg_Enabled (cf_Registry c)) eqn:He; cbn [negb] in Hr.
  2:{ injection Hr as Hr <-. split; [done|]. unfold validateRegistry. rewrite He. cbn. by rewrite Hr. }
  destruct (empty (Backend (cf_Registry c))) eqn:E1; [done|].
  destruct (bool_decide (Backend (cf_Registry c) = "consul")) eqn:E2; [done|].
  destruct (bool_decide (Backend (cf_Registry c) = "redis")) eqn:E3; [|done]. cbn [negb] in Hr.
  destruct (first _) as [e|] eqn:Hf; [done|]. injection Hr as <-. split; [exact Hb|].
  unfold validateRegistry, inherit, set_registry. unfold inherit in Hf.
  cbn [cf_Registry cf_Broker cf_Server cf_Transport cf_Cluster cf_Proxy rg_Enabled Backend rg_Redis inherit
    rr_Addr rr_Password rr_DB rr_PoolSize rr_MinIdleConns rr_DialTimeout rr_ReadTimeout rr_WriteTimeout KeyPrefix] in Hf |- *.
  rewrite He, E1, E2, E3. cbn [negb]. rewrite !or_else_same, !or_else_Z_same, Hf.
  do 3 f_equal.
Qed.

(** *** What a valid configuration guarantees *)

Lemma valid_api c : validateAPIAuth c = None → api_Addr (API (cf_Server c)) ≠ "" →
  let ga := API (cf_Server c) in
  (AuthTokens ga ≠ [] ∨ assigned c = 1 ∨ AllowInsecure ga = true) ∧
  Forall (λ t, 20 ≤ String.length t) (AuthTokens ga) ∧
  (AllowInsecure ga = true → isLoopbackAddr (api_Addr ga) = true) ∧
  (∀ p, p ∈ cf_Proxy c → APIAuth p = true → px_Name p ≠ "").
Proof.
  intros H Haddr. unfold validateAPIAuth in H. checks H. destruct H as (H1 & _ & H3 & H4 & H5 & _ & H7 & _).
  rewrite (proj2 (empty_spec _) Haddr) in H5, H7. cbn [negb andb] in H5, H7. cbn zeta. split_and!.
  - destruct (decide (AuthTokens (API (cf_Server c)) = [])) as [He|]; [|by left]. right.
    rewrite (bool_decide_eq_true_2 _ He) in H7. cbn [andb] in H7. apply bool_decide_eq_false in H4.
    destruct (AllowInsecure _); [by right|left]. rewrite andb_true_r in H7. apply bool_decide_eq_false in H7. lia.
  - apply Forall_forall. intros t Ht. rewrite existsb_false in H1. apply H1, bool_decide_eq_false in Ht.
    unfold minAPIAuthTokenChars in Ht. lia.
  - intros Hi. rewrite Hi in H5. by destruct (isLoopbackAddr _).
  - intros p Hp Ha. rewrite existsb_false in H3. apply H3 in Hp. rewrite Ha in Hp. by apply empty_spec in Hp.
Qed.

Lemma ResolveHMACKey_long c key : ResolveHMACKey c = Ok key → 32 ≤ String.length key.
Proof.
  unfold ResolveHMACKey, minClusterHMACKeyBytes. repeat case_match; intros; simplify_eq; bool_hyps; lia.
Qed.

Lemma valid_cluster c : validate_broker (cf_Broker c) = None → validate_cluster c = None →
  cl_Enabled (cf_Cluster c) = true →
  Type_ (cf_Broker c) = "redis" ∧ rd_Addr (Redis (cf_Broker c)) ≠ "" ∧
  (HMACKeyFile (cf_Cluster c) = "" → 32 ≤ String.length (HMACKey (cf_Cluster c)) ∧
     ResolveHMACKey (cf_Cluster c) = Ok (HMACKey (cf_Cluster c))) ∧
  (∀ key, ResolveHMACKey (cf_Cluster c) = Ok key → 32 ≤ String.length key).
Proof.
  intros Hb Hc He. unfold validate_cluster in Hc. rewrite He in Hc. cbn [negb] in Hc. checks Hc.
  destruct Hc as (H1 & H2 & _ & H4 & _). apply negb_false_iff, bool_decide_eq_true in H1. split; [done|].
  unfold validate_broker in Hb. rewrite H1 in Hb.
  change (empty "redis" || bool_decide ("redis" = "memory")) with false in Hb.
  change (bool_decide ("redis" = "redis")) with true in Hb. cbv iota in Hb. checks Hb. destruct Hb as (Hb & _).
  split; [by apply empty_spec|]. split; [|apply ResolveHMACKey_long].
  intros Hf. unfold ResolveHMACKey. rewrite Hf in H2 |- *.
  rewrite (bool_decide_eq_true_2 ("" = "")), andb_true_r in H2 by done. rewrite H2 in H4 |- *. cbn [negb andb] in H4 |- *.
  rewrite (bool_decide_eq_true_2 ("" = "")) by done. cbn [negb]. rewrite H4.
  apply bool_decide_eq_false in H4. unfold minClusterHMACKeyBytes in H4. split; [lia|done].
Qed.

Lemma valid_broadcast c b : validate_broadcast c = None → Broadcast (cf_Server c) = Some b →
  ∃ settings delay, Resolve b = Ok (settings, delay) ∧ (0 < delay ≤ maxBatchMaxDelay)%Z ∧
    (2 ≤ Batcher.MaxMessages settings)%Z ∧ (1024 ≤ Batcher.MaxBatchBytes settings)%Z ∧
    ((Batcher.MaxBatchBytes settings < 2 ^ 62)%Z →
     2 * Batcher.MaxBatchBytes settings ≤ EffectiveMaxMessageSize c)%Z.
Proof.
  intros Hv Hb. unfold validate_broadcast in Hv. rewrite Hb in Hv.
  destruct (Resolve b) as [[settings delay]|] eqn:Hr; [|done]. apply check_None, Z.ltb_ge in Hv.
  exists settings, delay. split; [done|]. unfold Resolve in Hr. cbv zeta in Hr. repeat case_match; try done; simplify_eq;
  cbn [Batcher.MaxMessages Batcher.MaxBatchBytes] in *; unfold batchFrameInflationFactor, minBatchMaxBytes in *;
  repeat match goal with
  | H : _ || _ = false |- _ => apply orb_false_iff in H as [? ?]
  | H : (_ <? _)%Z = false |- _ => apply Z.ltb_ge in H
  | H : (_ <=? _)%Z = false |- _ => apply Z.leb_gt in H
  end; (split_and!; [lia..|]); intros Hbig; by rewrite i64_small in Hv by lia.
Qed.

Lemma valid_tls t addr insecure :
  half_pair t = false → negb (empty addr) && (negb insecure && no_cert t) = false →
  addr ≠ "" → insecure = true ∨ (CertFile t ≠ "" ∧ KeyFile t ≠ "").
Proof.
  intros Hp Hn Ha. rewrite (proj2 (empty_spec _) Ha) in Hn. cbn in Hn. destruct insecure; [by left|right].
  unfold half_pair, no_cert in *. cbn in Hn. by repeat case_bool_decide.
Qed.

Lemma valid_registry c c' : validateRegistry c = (None, c') →
  if rg_Enabled (cf_Registry c') then rr_Addr (rg_Redis (cf_Registry c')) ≠ "" ∧ KeyPrefix (rg_Redis (cf_Registry c')) ≠ ""
  else ∀ p, p ∈ cf_Proxy c' → px_Service p = "".
Proof.
  intros Hr. pose proof (validateRegistry_frame c) as (_ & _ & _ & _ & _ & He). rewrite Hr in He. cbn in He.
  unfold validateRegistry in Hr. rewrite He. destruct (rg_Enabled (cf_Registry c)); cbn [negb] in Hr.
  - destruct (empty _); [done|]. destruct (bool_decide _); [done|]. destruct (bool_decide _); [|done]. cbn [negb] in Hr.
    destruct (first _) eqn:Hf; [done|]. injection Hr as <-. checks Hf. destruct Hf as (Ha & _).
    cbn [cf_Registry set_registry rg_Redis rr_Addr KeyPrefix inherit] in Ha |- *.
    split; [by apply empty_spec|]. by apply or_else_nonempty.
  - injection Hr as Hs <-. apply check_None in Hs. intros p Hp. rewrite existsb_false in Hs. apply Hs in Hp.
    by apply negb_false_iff, bool_decide_eq_true in Hp.
Qed.

Lemma valid_authorizer cfg :
  Forall (λ x, x = None) (validate_rule <$> Authz.ac_Rules cfg) → is_ok (Authz.NewAuthorizer parseDuration cfg) = true.
Proof.
  intros Hr. apply Authz.validated_config_builds. rewrite Forall_fmap in Hr.
  eapply Forall_impl; [exact Hr|]. intros r Hv. cbv beta in Hv. unfold compose, validate_rule in Hv. checks Hv.
  destruct Hv as (_ & Hp & _). by destruct (Authz.validateAuthorizerPattern _) as [[]|].
Qed.

(** C39: a configuration that validates is safe to start with.  Only the registry
    section was normalised.  The server API has an address and a credential path
    (tokens of at least 20 characters, one named api_auth proxy, or the explicit
    opt-out, which needs an address that counts as loopback); a cluster has the
    redis broker, an inline key has at least 32 bytes and is the key that
    ResolveHMACKey returns, and a key file, which Validate does not read, yields a
    key of at least 32 bytes or an error; the authorizer builds; every capability
    name is one the authorizer knows; twice a batch's bytes fit the frame limit,
    when that product fits an int (see [batch_budget_overflows] for larger
    settings); sessions without an auth proxy get a valid
    namespace; an enabled QUIC or KCP listener has a key pair or is explicitly
    insecure; the registry has an address. *)
Theorem validated_config_safe c c' :
  Validate c = (None, c') →
  let s := cf_Server c' in let ga := API s in let t := cf_Transport c' in
  (s = cf_Server c ∧ t = cf_Transport c ∧ cf_Broker c' = cf_Broker c ∧ cf_Cluster c' = cf_Cluster c ∧
   cf_Proxy c' = cf_Proxy c) ∧
  (api_Addr ga ≠ "" ∧ (AuthTokens ga ≠ [] ∨ assigned c' = 1 ∨ AllowInsecure ga = true) ∧
   Forall (λ t, 20 ≤ String.length t) (AuthTokens ga) ∧
   (AllowInsecure ga = true → isLoopbackAddr (api_Addr ga) = true) ∧
   (∀ p, p ∈ cf_Proxy c' → APIAuth p = true → px_Name p ≠ "")) ∧
  (cl_Enabled (cf_Cluster c') = true →
     Type_ (cf_Broker c') = "redis" ∧ rd_Addr (Redis (cf_Broker c')) ≠ "" ∧
     (HMACKeyFile (cf_Cluster c') = "" → 32 ≤ String.length (HMACKey (cf_Cluster c')) ∧
        ResolveHMACKey (cf_Cluster c') = Ok (HMACKey (cf_Cluster c'))) ∧
     (∀ key, ResolveHMACKey (cf_Cluster c') = Ok key → 32 ≤ String.length key)) ∧
  is_ok (Authz.NewAuthorizer parseDuration (Authorizer s)) = true ∧
  (∀ n, n ∈ Capabilities ga → is_Some (Authz.ClosedCapabilityNames !! n)) ∧
  (∀ b, Broadcast s = Some b → ∃ settings delay, Resolve b = Ok (settings, delay) ∧
     (0 < delay ≤ maxBatchMaxDelay)%Z ∧ (2 ≤ Batcher.MaxMessages settings)%Z ∧
     (1024 ≤ Batcher.MaxBatchBytes settings)%Z ∧
     ((Batcher.MaxBatchBytes settings < 2 ^ 62)%Z →
      2 * Batcher.MaxBatchBytes settings ≤ EffectiveMaxMessageSize c')%Z) ∧
  (Namespace s = "" → RequireAuth s = true) ∧ (Namespace s ≠ "" → Topics.validNamespace (Namespace s) = true) ∧
  (quic_Addr (QUIC t) ≠ "" →
     quic_Insecure (QUIC t) = true ∨ (CertFile (quic_TLS (QUIC t)) ≠ "" ∧ KeyFile (quic_TLS (QUIC t)) ≠ "")) ∧
  (kcp_Addr (KCP t) ≠ "" →
     kcp_Insecure (KCP t) = true ∨ (CertFile (kcp_TLS (KCP t)) ≠ "" ∧ KeyFile (kcp_TLS (KCP t)) ≠ "")) ∧
  (if rg_Enabled (cf_Registry c') then rr_Addr (rg_Redis (cf_Registry c')) ≠ "" ∧ KeyPrefix (rg_Redis (cf_Registry c')) ≠ ""
   else ∀ p, p ∈ cf_Proxy c' → px_Service p = "").
Proof.
  intros Hv. cbn zeta. pose proof (validate_idempotent c c' Hv) as Hi.
  apply Validate_parts in Hv as (_ & Hr & _). apply Validate_parts in Hi as (Hb & _ & Ha).
  pose proof (validateRegistry_frame c) as Hfr. rewrite Hr in Hfr. cbn in Hfr. destruct Hfr as (F1 & F2 & F3 & F4 & F5 & _).
  unfold checks_before in Hb. rewrite first_None, !Forall_cons, !check_None in Hb.
  destruct Hb as (Htr & _ & _ & _ & Htls & Hapi & Hbr & _).
  unfold checks_after in Ha. rewrite first_None, !Forall_app, !Forall_cons, !check_None in Ha.
  destruct Ha as ((Hcl & Hcap & Hbc & _) & Hrules & (Hns & Haddr & _)). apply empty_spec in Haddr.
  unfold validate_transport in Htr. rewrite first_None, !Forall_cons, !check_None in Htr.
  destruct Htr as (_ & _ & _ & Hq & Hk & _). rewrite existsb_false in Htls.
  destruct (valid_api c' Hapi Haddr) as (A1 & A2 & A3 & A4). split_and!; try done.
  - by apply valid_cluster.
  - by apply valid_authorizer.
  - intros n Hn. rewrite existsb_false in Hcap. apply Hcap, negb_false_iff, bool_decide_eq_true in Hn.
    by apply CapabilityNames_closed.
  - intros b Hbb. by apply valid_broadcast.
  - unfold validate_namespace in Hns. intros He. rewrite He in Hns. cbn in Hns. by destruct (RequireAuth _).
  - unfold validate_namespace in Hns. intros He. rewrite (proj2 (empty_spec _) He) in Hns.
    unfold Topics.ValidateNamespace in Hns. by destruct (Topics.validNamespace _).
  - apply valid_tls; [apply Htls; unfold tls_pairs; set_solver|done].
  - intros Hne. apply (valid_tls _ (kcp_Addr (KCP (cf_Transport c')))); [apply Htls; unfold tls_pairs; set_solver| |done].
    rewrite (proj2 (empty_spec _) Hne) in Hk |- *. cbn [negb andb]. rewrite first_None, !Forall_cons, !check_None in Hk.
    by destruct Hk.
  - by eapply valid_registry.
Qed.

Lemma last_index_none c s : has_char c s = false → last_index c s = None.
Proof.
  induction s as [|x s IH]; cbn; [done|]. rewrite orb_false_iff. intros [-> Hs]. by rewrite IH.
Qed.

Lemma substring_all s : String.substring 0 (String.length s) s = s.
Proof. induction s as [|x s IH]; cbn; [done|]. by rewrite IH. Qed.

(** An address without a host counts as loopback. *)
Lemma no_host_is_loopback port :
  has_char ":" port = false → has_char "[" port = false → has_char "]" port = false →
  isLoopbackAddr (String ":" port) = true.
Proof.
  intros H1 H2 H3. unfold isLoopbackAddr.
  assert (SplitHostPort (String ":" port) = Some "") as ->; [|done]. unfold SplitHostPort.
  assert (last_index ":" (String ":" port) = Some 0) as -> by (cbn [last_index]; by rewrite last_index_none).
  cbn [String.get]. change (bool_decide (Some ":"%char = Some "["%char)) with false. cbv iota zeta.
  change (slice 0 0 (String ":" port)) with "". unfold from. rewrite Nat.sub_0_r, substring_all.
  cbn [has_char]. by rewrite H2, H3.
Qed.

End Validate.

(** ** Concrete configurations *)

Definition no_tls : TLSConfig := mkTLS "" "".
Definition empty_spec0 : Policy.ChannelPolicySpec :=
  Policy.mkSpec None None "" None None None None None None "" None None None.

Definition small_config (api : ServerAPI) : Config :=
  mkConf (mkServer (mkHttp "" "") api (Heartbeat.mkHbSpec "" "" "") "" 0 false "acme"
            (Authz.mkConfig empty_spec0 []) (Some (mkBatching "" 0 0 0 "")) None 0 0 empty_spec0)
    (mkTransport (mkWebSocket ":8080" "/ws" "" "" no_tls) (mkGRPC ":8081" "" no_tls) (mkQUIC "" "" "" false no_tls)
       (mkKCP "" "" "" 0 0 false no_tls))
    (mkBroker "memory" (mkRedis "" "" 0 0 0 "" "" "" false "")) (mkCluster false "" "")
    (mkRegistry false "" (mkRegRedis "" "" 0 0 0 "" "" "" "")) [].

Definition token_api : ServerAPI := mkAPI "0.0.0.0:9090" no_tls ["0123456789abcdef0123"] "" false ["history.read"].

(** The gate of allow_insecure does not cover an address without a host, on which
    the listener binds every interface: whatever the loopback test says of IPs, the
    server API without authentication on ":9090" validates, while on "0.0.0.0:9090"
    it does not. *)
Theorem insecure_on_every_interface :
  let validate addr := Validate (λ _, None) (λ ip, bool_decide (ip = "127.0.0.1"))
    (small_config (mkAPI addr no_tls [] "" true [])) in
  (validate ":9090").1 = None ∧ (validate "127.0.0.1:9090").1 = None ∧
  (validate "0.0.0.0:9090").1 = Some "server.api.allow_insecure requires a loopback server.api.addr".
Proof. split_and!; vm_compute; reflexivity. Qed.

(** The budget of a batch is computed in an int: with max_batch_bytes at 2^62 it
    wraps to a negative number, and the configuration validates although a full
    batch exceeds every frame limit; at 2^30 the same configuration is refused. *)
Definition batching_config (bytes : Z) : Config :=
  mkConf (mkServer (mkHttp "" "") token_api (Heartbeat.mkHbSpec "" "" "") "" 0 false "acme"
            (Authz.mkConfig empty_spec0 []) (Some (mkBatching "" 0 bytes 0 "")) None 0 0 empty_spec0)
    (cf_Transport (small_config token_api)) (cf_Broker (small_config token_api)) (cf_Cluster (small_config token_api))
    (cf_Registry (small_config token_api)) [].

Theorem batch_budget_overflows :
  (Validate (λ _, None) (λ _, false) (batching_config (2 ^ 62))).1 = None ∧
  (Validate (λ _, None) (λ _, false) (batching_config (2 ^ 30))).1 =
    Some "broadcast.batching.max_batch_bytes exceeds server.limits.max_message_size".
Proof. split; vm_compute; reflexivity. Qed.

Lemma validated_config_safe_witness :
  Validate (λ _, None) (λ _, false) (small_config token_api) = (None, small_config token_api) ∧
  is_ok (Authz.NewAuthorizer (λ _, None) (Authorizer (cf_Server (small_config token_api)))) = true.
Proof.
  assert (Validate (λ _, None) (λ _, false) (small_config token_api) = (None, small_config token_api)) as Hv
    by (vm_compute; reflexivity).
  split; [exact Hv|].
  destruct (validated_config_safe (λ _, None) (λ _, false) (λ _, None) _ _ Hv) as (_ & _ & _ & Ha & _). exact Ha.
Defined.

End Config.
