(* ===== verification/Proxy.v ===== *)
(** * Proxy: routing to backends and the pool of discovered backends
      (internal/proxy/router.go, proxy.go, service.go)

    The router's table of globs and names, the validation of a proxy's
    configuration, the choice of the routing key, and the connection pool of a
    service proxy as the interleaved critical sections of its calls.  The glob
    library, the resolver's snapshots and the picker are arguments. *)

From S2P Require Import Prelude.

Module Proxy.

(** ** The router *)

(** A proxy object: its identity and its Name(). *)
Record Proxy := mkProxy { px_id : nat; px_Name : string }.

#[export] Instance Proxy_eq_dec : EqDecision Proxy.
Proof. solve_decision. Defined.

Section Router.
Context {Glob : Type} (Compile : string → option Glob) (GlobMatch : Glob → string → bool).

Record route := mkRoute { rt_proxy : Proxy; rt_channel : Glob; rt_method : Glob }.

(** [byName = None] is the nil map Close leaves. *)
Record Router := mkRouter { routes : list route; byName : option (gmap string Proxy) }.

Definition NewRouter : Router := mkRouter [] (Some ∅).

Inductive outcome := Refused | Panics | Done.

(** A write to the nil map panics. *)
Definition registerName (p : Proxy) (r : Router) : outcome * Router :=
  if bool_decide (px_Name p = "") then (Done, r) else
  if bool_decide (is_Some (m ← byName r; m !! px_Name p)) then (Done, r) else
  match byName r with
  | None => (Panics, r)
  | Some m => (Done, mkRouter (routes r) (Some (<[ px_Name p := p ]> m)))
  end.

Definition Add (p : Proxy) (channelPattern methodPattern : string) (r : Router) : outcome * Router :=
  match Compile channelPattern, Compile methodPattern with
  | Some cg, Some mg => registerName p (mkRouter (routes r ++ [mkRoute p cg mg]) (byName r))
  | _, _ => (Refused, r)
  end.

Definition compile_route (cfg : string * string) : option (Glob * Glob) :=
  cg ← Compile cfg.1; mg ← Compile cfg.2; Some (cg, mg).

Definition AddFromConfig (p : Proxy) (cfg : list (string * string)) (r : Router) : outcome * Router :=
  match mapM compile_route cfg with
  | None => (Refused, r)
  | Some compiled =>
    registerName p (mkRouter (routes r ++ ((λ g, mkRoute p g.1 g.2) <$> compiled)) (byName r))
  end.

Definition route_matches (channel method : string) (rt : route) : bool :=
  GlobMatch (rt_channel rt) channel && GlobMatch (rt_method rt) method.

Definition Match (r : Router) (channel method : string) : option Proxy :=
  rt_proxy <$> List.find (route_matches channel method) (routes r).

Definition ByName (r : Router) (name : string) : option Proxy :=
  if bool_decide (name = "") then None else m ← byName r; m !! name.

(** The proxies whose Close is called, in order. *)
Definition Close (r : Router) : list Proxy * Router := (rt_proxy <$> routes r, mkRouter [] None).

(** *** What was registered *)

Inductive op := OAdd (p : Proxy) (channel method : string) | OConfig (p : Proxy) (cfg : list (string * string)).

Definition exec_op (o : op) (r : Router) : outcome * Router :=
  match o with
  | OAdd p c m => Add p c m r
  | OConfig p cfg => AddFromConfig p cfg r
  end.

Fixpoint exec (os : list op) (r : Router) : list outcome * Router :=
  match os with
  | [] => ([], r)
  | o :: os => let '(x, r) := exec_op o r in let '(xs, r) := exec os r in (x :: xs, r)
  end.

(** The registrations a list of operations asks for: each proxy with its
    routes, if all its patterns compile. *)
Definition registration (o : op) : option (Proxy * list (Glob * Glob)) :=
  match o with
  | OAdd p c m => (λ g, (p, [g])) <$> compile_route (c, m)
  | OConfig p cfg => (λ gs, (p, gs)) <$> mapM compile_route cfg
  end.

Definition table (regs : list (Proxy * list (Glob * Glob))) : list route :=
  reg ← regs; (λ g, mkRoute reg.1 g.1 g.2) <$> reg.2.

Definition named (name : string) (regs : list (Proxy * list (Glob * Glob))) : option Proxy :=
  fst <$> List.find (λ reg : Proxy * list (Glob * Glob), bool_decide (px_Name reg.1 = name)) regs.

Record router_inv (regs : list (Proxy * list (Glob * Glob))) (r : Router) : Prop := {
  ro_routes : routes r = table regs;
  ro_names : ∃ m, byName r = Some m ∧ ∀ name, name ≠ "" → m !! name = named name regs;
}.

Lemma table_app a b : table (a ++ b) = table a ++ table b.
Proof. apply bind_app. Qed.

Lemma named_app name regs p gs :
  named name (regs ++ [(p, gs)]) =
    match named name regs with Some q => Some q | None => if bool_decide (px_Name p = name) then Some p else None end.
Proof.
  unfold named. induction regs as [|[q hs] regs IH]; cbn [List.find app fst]; [by case_bool_decide|].
  destruct (bool_decide (px_Name q = name)); [done|exact IH].
Qed.

Lemma registerName_inv p gs regs r :
  router_inv regs r →
  ∃ r', registerName p (mkRouter (routes r ++ ((λ g, mkRoute p g.1 g.2) <$> gs)) (byName r)) = (Done, r') ∧
    router_inv (regs ++ [(p, gs)]) r'.
Proof.
  intros [Hr (m & Hm & Hn)]. unfold registerName. cbn [byName routes]. rewrite Hm. cbn [mbind option_bind].
  assert (routes r ++ ((λ g, mkRoute p g.1 g.2) <$> gs) = table (regs ++ [(p, gs)])) as Ht
    by (rewrite table_app, Hr; cbn; by rewrite app_nil_r).
  case_bool_decide as Hp; [|case_bool_decide as Hs]; eexists; (split; [reflexivity|]); (split; [exact Ht|]);
    eexists; (split; [reflexivity|]); intros name Hne; rewrite named_app.
  - rewrite Hn by done. rewrite bool_decide_eq_false_2 by congruence. by destruct (named name regs).
  - rewrite Hn by done. case_bool_decide as Heq; [subst name|by destruct (named name regs)].
    rewrite Hn in Hs by done. destruct Hs as [q ->]. done.
  - destruct (decide (px_Name p = name)) as [<-|Hd].
    + rewrite lookup_insert_eq, bool_decide_eq_true_2 by done.
      apply eq_None_not_Some in Hs. rewrite Hn in Hs by done. by rewrite Hs.
    + rewrite lookup_insert_ne, Hn, bool_decide_eq_false_2 by done. by destruct (named name regs).
Qed.

Lemma router_op_inv o regs r :
  router_inv regs r →
  match registration o with
  | Some reg => ∃ r', exec_op o r = (Done, r') ∧ router_inv (regs ++ [reg]) r'
  | None => exec_op o r = (Refused, r)
  end.
Proof.
  intros Hi. destruct o as [p c m|p cfg]; cbn [registration exec_op].
  - unfold compile_route, Add. cbn. destruct (Compile c) as [cg|]; cbn; [|done]. destruct (Compile m) as [mg|]; cbn; [|done].
    apply (registerName_inv p [(cg, mg)] regs r Hi).
  - unfold AddFromConfig. destruct (mapM compile_route cfg) as [gs|]; cbn; [|done]. by apply registerName_inv.
Qed.

Lemma router_exec_inv os : ∀ regs r, router_inv regs r →
  let '(xs, r') := exec os r in
  xs = ((λ o, match registration o with Some _ => Done | None => Refused end) <$> os) ∧
  router_inv (regs ++ omap registration os) r'.
Proof.
  induction os as [|o os IH]; intros regs r Hi; cbn [exec]; [by rewrite app_nil_r|].
  pose proof (router_op_inv o regs r Hi) as Ho. cbn [omap list_omap fmap list_fmap].
  destruct (registration o) as [reg|] eqn:Hreg.
  - destruct Ho as (r1 & -> & Hi1). specialize (IH _ r1 Hi1). destruct (exec os r1) as [xs r2].
    destruct IH as [-> Hi2]. rewrite <-app_assoc in Hi2. done.
  - rewrite Ho. specialize (IH _ r Hi). destruct (exec os r) as [xs r2]. destruct IH as [-> Hi2]. done.
Qed.

(** Routing is first match over what was registered.  After any sequence of
    registrations, a request goes to the proxy of the first route, in
    registration order, whose two patterns match; a name resolves to the first
    proxy registered under it, with or without routes; and a registration with a
    pattern that does not compile is refused and leaves no trace. *)
Theorem router_exact os :
  let regs := omap registration os in
  let '(xs, r) := exec os NewRouter in
  xs = ((λ o, match registration o with Some _ => Done | None => Refused end) <$> os) ∧
  (∀ channel method, Match r channel method =
     rt_proxy <$> List.find (route_matches channel method) (table regs)) ∧
  (∀ name, ByName r name = if bool_decide (name = "") then None else named name regs).
Proof.
  cbn zeta. assert (router_inv [] NewRouter) as Hi by (split; [done|]; by exists ∅).
  pose proof (router_exec_inv os [] NewRouter Hi) as He. destruct (exec os NewRouter) as [xs r].
  destruct He as [-> [Hr (m & Hm & Hn)]]. split_and!; [done|..].
  - intros channel method. unfold Match. by rewrite Hr.
  - intros name. unfold ByName. case_bool_decide; [done|]. rewrite Hm. cbn. by apply Hn.
Qed.

(** Close calls a proxy's Close once per route of it. *)
Lemma close_calls os : (Close (exec os NewRouter).2).1 = rt_proxy <$> table (omap registration os).
Proof.
  assert (router_inv [] NewRouter) as Hi by (split; [done|]; by exists ∅).
  pose proof (router_exec_inv os [] NewRouter Hi) as He. destruct (exec os NewRouter) as [xs r].
  destruct He as [_ [Hr _]]. cbn. by rewrite Hr.
Qed.

End Router.

(** A proxy with two routes is closed twice; one that is reachable only by name
    is never closed, and after Close it cannot be found any more. *)
Theorem close_misses_and_repeats :
  let a := mkProxy 0 "a" in let b := mkProxy 1 "b" in
  let '(_, r) := exec (Some : string → option string) [OConfig a [("x", "*"); ("y", "*")]; OConfig b []] NewRouter in
  ByName r "b" = Some b ∧ (Close r).1 = [a; a] ∧ ByName (Close r).2 "b" = None ∧
  (Add (Some : string → option string) b "z" "*" (Close r).2).1 = Panics.
Proof. vm_compute. done. Qed.

(** ** Configuration *)

Inductive Strategy := ConsistentHash | RoundRobin | Random.

Definition RoutingKeyChannel : string := "channel".
Definition RoutingKeyMetadataPrefix : string := "metadata:".

Record RoutingConfig := mkRouting { rc_Strategy : string; rc_Key : string }.

Record ProxyConfig := mkProxyConfig { pc_Name : string; pc_Endpoint : string; pc_Service : string; pc_Routing : RoutingConfig }.

(** strings.CutPrefix. *)
Fixpoint cut_prefix (pre s : string) : option string :=
  match pre, s with
  | EmptyString, _ => Some s
  | String a pre, String b s => if bool_decide (a = b) then cut_prefix pre s else None
  | String _ _, EmptyString => None
  end.

(** The strategies NewServiceProxy knows, and whether they are keyed. *)
Definition parse_strategy (s : string) : option Strategy :=
  if bool_decide (s = "") || bool_decide (s = "consistent_hash") then Some ConsistentHash
  else if bool_decide (s = "round_robin") then Some RoundRobin
  else if bool_decide (s = "random") then Some Random
  else None.

Definition routing_valid (r : RoutingConfig) : bool :=
  match parse_strategy (rc_Strategy r) with
  | None => false                                      (* sticky and unknown *)
  | Some strategy =>
    if bool_decide (rc_Key r = "") then true
    else match strategy with
         | ConsistentHash =>
           if bool_decide (rc_Key r = RoutingKeyChannel) then true
           else match cut_prefix RoutingKeyMetadataPrefix (rc_Key r) with
                | Some meta => negb (bool_decide (meta = ""))
                | None => false
                end
         | _ => false
         end
  end.

Definition Validate (c : ProxyConfig) : bool :=
  if negb (bool_decide (pc_Endpoint c = "")) && negb (bool_decide (pc_Service c = "")) then false
  else if bool_decide (pc_Endpoint c = "") && bool_decide (pc_Service c = "") then false
  else routing_valid (pc_Routing c).

(** [meta = None] is a request without metadata. *)
Definition extractKey (r : RoutingConfig) (meta : option (gmap string string)) (channel : string) : string :=
  match cut_prefix RoutingKeyMetadataPrefix (rc_Key r) with
  | Some name =>
    match (m ← meta; m !! name) with
    | Some v => if bool_decide (v = "") then channel else v
    | None => channel
    end
  | None => channel
  end.

(** The routing key of a request on a channel is never empty. *)
Lemma extractKey_nonempty r meta channel : channel ≠ "" → extractKey r meta channel ≠ "".
Proof. intros Hc. unfold extractKey. repeat case_match; try done. by case_bool_decide. Qed.

(** ** The connection pool of a service proxy *)

(** An instance is its ID.  A call holds the instance it picked, then either the
    pooled connection or the one it dialled and has not installed yet. *)
Inductive call :=
| Picked (inst : string)
| Dialled (inst : string) (conn : nat)
| Using (inst : string) (conn : nat)
| NoInstance.

Record pool := mkPool {
  conns : gmap string nat;
  dialled : nat;                  (* connections opened so far: 0 ... dialled - 1 *)
  closing : list nat;             (* taken out of the map under the lock, not closed yet *)
  closed : list nat;
  calls : gmap nat call;
}.

Definition new_pool : pool := mkPool ∅ 0 [] [] ∅.

(** pruneConns up to the unlock: what stays and what is to be closed. *)
Definition pruneConns (current : list string) (p : gmap string nat) : gmap string nat * list nat :=
  (filter (λ x : string * nat, x.1 ∈ current) p,
   (filter (λ x : string * nat, x.1 ∉ current) (map_to_list p)).*2).

Inductive label :=
| Begin (c : nat) (snapshot : list string) (pick : list string → option string)
| Lookup (c : nat)
| Dial (c : nat)
| Install (c : nat)
| CloseOne
| CloseProxy.

Definition set_call (p : pool) (c : nat) (x : call) : gmap nat call := <[ c := x ]> (calls p).

Definition exec_label (l : label) (p : pool) : option pool :=
  match l with
  | Begin c snapshot pick =>
    guard (calls p !! c = None);;
    match snapshot with
    | [] => Some (mkPool (conns p) (dialled p) (closing p) (closed p) (set_call p c NoInstance))
    | _ =>
      let '(kept, stale) := pruneConns snapshot (conns p) in
      let x := match pick snapshot with Some i => Picked i | None => NoInstance end in
      Some (mkPool kept (dialled p) (closing p ++ stale) (closed p) (set_call p c x))
    end
  | Lookup c =>
    x ← calls p !! c;
    match x with
    | Picked i => conn ← conns p !! i; Some (mkPool (conns p) (dialled p) (closing p) (closed p) (set_call p c (Using i conn)))
    | _ => None
    end
  | Dial c =>
    x ← calls p !! c;
    match x with
    | Picked i => Some (mkPool (conns p) (S (dialled p)) (closing p) (closed p) (set_call p c (Dialled i (dialled p))))
    | _ => None
    end
  | Install c =>
    x ← calls p !! c;
    match x with
    | Dialled i conn =>
      match conns p !! i with
      | Some existing => Some (mkPool (conns p) (dialled p) (closing p) (conn :: closed p) (set_call p c (Using i existing)))
      | None => Some (mkPool (<[ i := conn ]> (conns p)) (dialled p) (closing p) (closed p) (set_call p c (Using i conn)))
      end
    | _ => None
    end
  | CloseOne =>
    match closing p with
    | [] => None
    | x :: l => Some (mkPool (conns p) (dialled p) l (x :: closed p) (calls p))
    end
  | CloseProxy => Some (mkPool ∅ (dialled p) (closing p ++ (map_to_list (conns p)).*2) (closed p) (calls p))
  end.

Fixpoint exec_pool (ls : list label) (p : pool) : option pool :=
  match ls with [] => Some p | l :: ls => exec_label l p ≫= exec_pool ls end.

Definition held (cs : gmap nat call) : list nat :=
  omap (λ x : nat * call, match x.2 with Dialled _ conn => Some conn | _ => None end) (map_to_list cs).

(** Every connection is accounted for. *)
Definition conserved (p : pool) : Prop :=
  (map_to_list (conns p)).*2 ++ closing p ++ held (calls p) ++ closed p ≡ₚ seq 0 (dialled p).

Lemma held_insert cs c x :
  held (<[ c := x ]> cs) ≡ₚ
  (match x with Dialled _ conn => [conn] | _ => [] end) ++ held (delete c cs).
Proof.
  unfold held. rewrite <-insert_delete_eq, map_to_list_insert by apply lookup_delete_eq. cbn. by destruct x.
Qed.

Lemma held_lookup cs c x : cs !! c = Some x →
  held cs ≡ₚ (match x with Dialled _ conn => [conn] | _ => [] end) ++ held (delete c cs).
Proof. intros Hx. rewrite <-held_insert. by rewrite insert_id. Qed.

Lemma pruneConns_values current p :
  (map_to_list p).*2 ≡ₚ (map_to_list (pruneConns current p).1).*2 ++ (pruneConns current p).2.
Proof.
  unfold pruneConns. cbn [fst snd]. rewrite map_filter_alt, map_to_list_to_map.
  - rewrite <-fmap_app. apply fmap_Permutation. symmetry. apply filter_app_complement.
  - apply NoDup_fmap_filter, NoDup_fst_map_to_list.
Qed.

Lemma conserved_step l p p' : exec_label l p = Some p' → conserved p → conserved p'.
Proof.
  unfold conserved. destruct p as [cs n cl cd calls]. intros He Hc.
  cbn [conns dialled closing closed Proxy.calls] in Hc. destruct l as [c snap pick|c|c|c| |]; cbn in He.
  - destruct (calls !! c) eqn:Hx; [done|]. rewrite option_guard_True in He by done. cbn in He.
    assert (∀ x, (∀ i conn, x ≠ Dialled i conn) → held (<[ c := x ]> calls) ≡ₚ held calls) as Hh.
    { intros x Hne. rewrite held_insert, delete_id by done. destruct x; try done. by destruct (Hne inst conn). }
    destruct snap as [|i0 snap]; [simplify_eq; unfold set_call; cbn [conns dialled closing closed Proxy.calls]; by rewrite Hh|].
    pose proof (pruneConns_values (i0 :: snap) cs) as Hp. unfold pruneConns in Hp. cbn [fst snd] in Hp.
    simplify_eq. unfold set_call; cbn [conns dialled closing closed Proxy.calls]. rewrite Hh by (by destruct (pick _)).
    rewrite <-Hc, Hp. solve_Permutation.
  - destruct (calls !! c) as [[i| | |]|] eqn:Hx; try done. cbn in He. destruct (cs !! i) as [conn|]; [|done].
    injection He as <-. unfold set_call; cbn [conns dialled closing closed Proxy.calls]. rewrite held_insert.
    rewrite (held_lookup _ _ _ Hx) in Hc. exact Hc.
  - destruct (calls !! c) as [[i| | |]|] eqn:Hx; try done. injection He as <-.
    unfold set_call; cbn [conns dialled closing closed Proxy.calls]. rewrite held_insert.
    rewrite (held_lookup _ _ _ Hx) in Hc. cbn [app] in Hc. rewrite seq_S, <-Hc. cbn [Nat.add]. solve_Permutation.
  - destruct (calls !! c) as [[|i conn| |]|] eqn:Hx; try done. cbn in He. rewrite (held_lookup _ _ _ Hx) in Hc.
    destruct (cs !! i) as [ex|] eqn:Hi; injection He as <-; unfold set_call; cbn [conns dialled closing closed Proxy.calls];
      rewrite held_insert, <-Hc; cbn [app]; [solve_Permutation|].
    rewrite map_to_list_insert by done. cbn. solve_Permutation.
  - destruct cl as [|x cl]; [done|]. injection He as <-. cbn [conns dialled closing closed Proxy.calls].
    rewrite <-Hc. solve_Permutation.
  - injection He as <-. cbn [conns dialled closing closed Proxy.calls]. rewrite map_to_list_empty, <-Hc. solve_Permutation.
Qed.

(** No connection of a service proxy is lost or closed twice.  In every
    interleaving of calls, membership changes and Close, each connection that was
    dialled is exactly one of: pooled under one instance, taken out of the pool
    and about to be closed, held by the call that dialled it, or closed, and that
    once; a pooled connection is not closed. *)
Theorem pool_conserves ls p :
  exec_pool ls new_pool = Some p →
  conserved p ∧ NoDup (closed p) ∧ NoDup ((map_to_list (conns p)).*2) ∧
  (∀ i conn, conns p !! i = Some conn → (conn ∉ closing p) ∧ conn ∉ closed p).
Proof.
  intros He. assert (conserved p) as Hc.
  { assert (conserved new_pool) as Hi by (vm_compute; constructor). revert He Hi. generalize new_pool.
    induction ls as [|l ls IH]; intros p0 He Hi; cbn in He; [by simplify_eq|].
    destruct (exec_label l p0) as [p1|] eqn:Hl; [|done]. cbn in He. eapply IH; [exact He|].
    by eapply conserved_step. }
  split; [done|]. assert (NoDup ((map_to_list (conns p)).*2 ++ closing p ++ held (calls p) ++ closed p)) as Hnd
    by (pose proof Hc as Hc'; unfold conserved in Hc'; rewrite Hc'; apply NoDup_seq).
  apply NoDup_app in Hnd as (H1 & H2 & H3). apply NoDup_app in H3 as (_ & _ & H3). apply NoDup_app in H3 as (_ & _ & H3).
  split_and!; [done..|]. intros i conn Hi.
  assert (conn ∈ (map_to_list (conns p)).*2) as Hin
    by (apply list_elem_of_fmap; exists (i, conn); split; [done|by apply elem_of_map_to_list]).
  apply H2 in Hin. set_solver.
Qed.

(** A call that dialled before Close installs its connection afterwards; nothing
    closes it any more. *)
Theorem close_leaves_connection :
  ∃ p, exec_pool [Begin 0 ["a"] head; Dial 0; CloseProxy; Install 0] new_pool = Some p ∧
    conns p !! "a" = Some 0 ∧ closed p = [] ∧ closing p = [].
Proof. eexists. split; [vm_compute; reflexivity|]. vm_compute. done. Qed.

Lemma pool_conserves_witness : ∃ p,
  exec_pool [Begin 0 ["a"] head; Begin 1 ["a"] head; Dial 0; Dial 1; Install 1; Install 0; Begin 2 ["b"] head; CloseOne]
    new_pool = Some p ∧ closed p = [1; 0] ∧ NoDup (closed p).
Proof.
  eexists. split; [vm_compute; reflexivity|]. split; [reflexivity|].
  eapply (pool_conserves [Begin 0 ["a"] head; Begin 1 ["a"] head; Dial 0; Dial 1; Install 1; Install 0; Begin 2 ["b"] head;
    CloseOne]). vm_compute. reflexivity.
Defined.

End Proxy.
