(* ===== verification/SdkMessage.v ===== *)
(** * SdkMessage: the Go SDK's message type (sdks/go/message.go)

    [A] is a JSON object as a Go map, [J] a structpb.Struct; [newStruct] is
    structpb.NewStruct, [asMap] is AsMap.  The operations that assert the dynamic
    type of a message's value return [None] when the assertion panics. *)

From S2P Require Import Prelude Stream HubSubs.

Module SdkMessage.

(** ** Content types *)

(** strings.ToLower, on the letters that matter for the prefixes below. *)
Definition lower (c : ascii) : ascii :=
  let n := nat_of_ascii c in if (65 <=? n) && (n <=? 90) then ascii_of_nat (n + 32) else c.

Fixpoint to_lower (s : string) : string :=
  match s with EmptyString => EmptyString | String c s' => String (lower c) (to_lower s') end.

Fixpoint contains (sub s : string) : bool :=
  String.prefix sub s || match s with EmptyString => false | String _ s' => contains sub s' end.

Definition isJSON (contentType : string) : bool :=
  let ct := to_lower contentType in String.prefix "application/json" ct || contains "json" ct.

Definition isBinary (contentType : string) : bool :=
  negb (String.prefix "text/" (to_lower contentType)) && negb (isJSON contentType).

Definition isText (contentType : string) : bool := String.prefix "text/" (to_lower contentType).

Section Message.
Context {A J : Type} (newStruct : A → option J) (asMap : J → A).

(** The [any] inside Data, as far as the SDK builds it. *)
Inductive value := VNil | VMap (m : A) | VBytes (b : string) | VString (s : string).

Record Data := mkData { d_contentType : string; d_value : value }.

Record Message := mkMessage { m_ID : string; m_Type : string; m_Data : Data; m_Metadata : gmap string string }.

(** ** Reading: a failed type assertion is a panic *)

(** The result is the map, [None] inside for a nil map. *)
Definition AsJSON (d : Data) : option (option A) :=
  if isJSON (d_contentType d) then
    match d_value d with VNil => Some None | VMap m => Some (Some m) | _ => None end
  else Some None.

Definition AsBinary (d : Data) : option string :=
  if isBinary (d_contentType d) then
    match d_value d with VNil => Some "" | VBytes b => Some b | _ => None end
  else Some "".

Definition AsText (d : Data) : option string :=
  if isText (d_contentType d) then
    match d_value d with VNil => Some "" | VString s => Some s | _ => None end
  else Some "".

(** ** Building *)

Definition NewJSONData (m : A) : Data := mkData "application/json" (VMap m).
Definition NewBinaryData (b : string) : Data := mkData "application/octet-stream" (VBytes b).
Definition NewTextData (t : string) : Data := mkData "text/plain" (VString t).

(** [viaJSON] is json.Marshal followed by json.Unmarshal into a map; [None] is
    an error. *)
Definition NewData (viaJSON : value → option A) (contentType : string) (data : value) : option Data :=
  match data with
  | VNil => Some (mkData contentType VNil)
  | _ =>
    if isJSON contentType then
      match data with
      | VMap m => Some (mkData contentType (VMap m))
      | _ => m ← viaJSON data; Some (mkData contentType (VMap m))
      end
    else if isText contentType then
      match data with
      | VString s | VBytes s => Some (mkData contentType (VString s))
      | _ => None
      end
    else match data with
         | VString s | VBytes s => Some (mkData contentType (VBytes s))
         | _ => None
         end
  end.

Definition NewMessage (uuid typ : string) : Message := mkMessage uuid typ (mkData "" VNil) ∅.

Definition SetData (viaJSON : value → option A) (contentType : string) (data : value) (m : Message) : option Message :=
  d ← NewData viaJSON contentType data; Some (mkMessage (m_ID m) (m_Type m) d (m_Metadata m)).

Definition SetMetadata (k v : string) (m : Message) : Message :=
  mkMessage (m_ID m) (m_Type m) (m_Data m) (<[ k := v ]> (m_Metadata m)).

Definition GetMetadata (k : string) (m : Message) : string := default "" (m_Metadata m !! k).

(** ** The wire *)

Inductive payload_result := Panics | PayloadError | PayloadOk (p : Stream.PayloadV2 J).

(** The empty map is what NewStruct makes of a nil map. *)
Definition ToPayload (nilStruct : J) (d : Data) : payload_result :=
  let ct := d_contentType d in
  let wrap x := PayloadOk (Stream.mkPayloadV2 ct (Some x)) in
  if isJSON ct then
    match AsJSON d with
    | None => Panics
    | Some None => wrap (Stream.Payload_Json nilStruct)
    | Some (Some m) => match newStruct m with None => PayloadError | Some j => wrap (Stream.Payload_Json j) end
    end
  else if isBinary ct then match AsBinary d with None => Panics | Some b => wrap (Stream.Payload_Binary b) end
  else match AsText d with None => Panics | Some t => wrap (Stream.Payload_Text t) end.

Definition orDefault (ct dflt : string) : string := if bool_decide (ct = "") then dflt else ct.

Definition PayloadToMessage (uuid : string) (payload : option (Stream.PayloadV2 J)) (id : string) : Message :=
  let id := if bool_decide (id = "") then uuid else id in
  let data :=
    match payload with
    | None => mkData "" VNil
    | Some p =>
      let ct := Stream.pv_ContentType p in
      match Stream.pv_Data p with
      | None => mkData ct VNil
      | Some (Stream.Payload_Json j) => mkData (orDefault ct "application/json") (VMap (asMap j))
      | Some (Stream.Payload_Binary b) => mkData (orDefault ct "application/octet-stream") (VBytes b)
      | Some (Stream.Payload_Text t) => mkData (orDefault ct "text/plain") (VString t)
      end
    end in
  mkMessage id "messageloop.message" data ∅.

(** ** Round trips *)

(** The value is of the type its content type announces. *)
Definition well_labelled (d : Data) : bool :=
  match d_value d with
  | VNil => true
  | VMap _ => isJSON (d_contentType d)
  | VBytes _ => isBinary (d_contentType d)
  | VString _ => isText (d_contentType d) && negb (isJSON (d_contentType d))
  end.

Lemma labels_exclusive ct :
  (isJSON ct = true → isBinary ct = false) ∧ (isText ct = true → isBinary ct = false) ∧
  (isJSON ct = false → isBinary ct = false → isText ct = true).
Proof. unfold isBinary, isText. destruct (isJSON ct), (String.prefix "text/" (to_lower ct)); auto. Qed.

Lemma NewData_labelled viaJSON ct data d : NewData viaJSON ct data = Some d → well_labelled d = true.
Proof.
  pose proof (labels_exclusive ct) as (H1 & H2 & H3). unfold NewData, well_labelled.
  destruct data as [|m|b|t]; [by intros [= <-]|..];
    destruct (isJSON ct) eqn:Hj; cbn [mbind option_bind]; try (intros (m' & _ & [= <-])%bind_Some; exact Hj);
    try (intros [= <-]; exact Hj);
    destruct (isText ct) eqn:Ht; intros [= <-]; cbn [d_value d_contentType];
    rewrite ?Ht, ?Hj; try done; unfold isBinary; rewrite Hj; unfold isText in Ht; by rewrite Ht.
Qed.

Lemma ToPayload_panics nilStruct d :
  ToPayload nilStruct d = Panics →
  match d_value d with
  | VNil => False
  | VMap _ => isJSON (d_contentType d) = false
  | VBytes _ => isBinary (d_contentType d) = false
  | VString _ => isBinary (d_contentType d) = true ∨ isJSON (d_contentType d) = true
  end.
Proof.
  pose proof (labels_exclusive (d_contentType d)) as (H1 & H2 & H3). unfold ToPayload, AsJSON, AsBinary, AsText.
  destruct (isJSON (d_contentType d)) eqn:Hj, (isBinary (d_contentType d)) eqn:Hb; try (by rewrite H1 in Hb);
    rewrite ?H3 by done; destruct (d_value d); try done; auto; by destruct (newStruct _).
Qed.

(** Payloads round trip and well-labelled data never panics.  Data built with
    NewData, NewJSONData, NewBinaryData or NewTextData converts to a payload
    (unless the struct conversion fails) that decodes to the same content type
    and value. *)
Theorem sdk_payload_roundtrip nilStruct uuid id d :
  (∀ m j, newStruct m = Some j → asMap j = m) →
  well_labelled d = true → d_contentType d ≠ "" → d_value d ≠ VNil →
  match ToPayload nilStruct d with
  | Panics => False
  | PayloadError => ∃ m, d_value d = VMap m ∧ newStruct m = None
  | PayloadOk p => m_Data (PayloadToMessage uuid (Some p) id) = d
  end.
Proof.
  intros Hrt Hw Hct Hv. pose proof (labels_exclusive (d_contentType d)) as (H1 & H2 & H3).
  unfold ToPayload, AsJSON, AsBinary, AsText, well_labelled in *.
  destruct d as [ct v]. cbn [d_contentType d_value] in *.
  assert (∀ x, orDefault ct x = ct) as Hor by (intros x; unfold orDefault; by rewrite bool_decide_eq_false_2).
  destruct v as [|m|b|t]; [done|..].
  - rewrite Hw. destruct (newStruct m) as [j|] eqn:Hj; [|eauto]. cbn. by rewrite Hor, (Hrt m j).
  - rewrite Hw. destruct (isJSON ct) eqn:Hj; [by rewrite H1 in Hw|]. cbn. by rewrite Hor.
  - apply andb_true_iff in Hw as [Ht Hj]. apply negb_true_iff in Hj. rewrite Hj, (H2 Ht), Ht. cbn. by rewrite Hor.
Qed.

(** A text payload labelled as JSON makes the readers panic: PayloadToMessage
    keeps the sender's content type beside the decoded value. *)
Theorem mislabelled_payload_panics nilStruct uuid id ct t :
  isJSON ct = true →
  let m := PayloadToMessage uuid (Some (Stream.mkPayloadV2 ct (Some (Stream.Payload_Text t)))) id in
  AsJSON (m_Data m) = None ∧ ToPayload nilStruct (m_Data m) = Panics.
Proof.
  intros Hj. cbn zeta. assert (ct ≠ "") as Hne by (intros ->; done).
  unfold PayloadToMessage, orDefault. cbn. rewrite (bool_decide_eq_false_2 _ Hne).
  unfold ToPayload, AsJSON. cbn [d_contentType d_value]. by rewrite Hj.
Qed.

End Message.

#[global] Arguments value : clear implicits.
#[global] Arguments Data : clear implicits.
#[global] Arguments Message : clear implicits.

Lemma mislabelled_payload_panics_witness :
  AsJSON (A:=string) (m_Data (PayloadToMessage (fun j => j) "u"
    (Some (Stream.mkPayloadV2 "application/json" (Some (Stream.Payload_Text "[1]")))) "id")) = None.
Proof.
  exact (proj1 (mislabelled_payload_panics (A:=string) (J:=string) (fun m => Some m) (fun j => j) "" "u" "id"
    "application/json" "[1]" eq_refl)).
Defined.

End SdkMessage.
