(* ===== verification/SdkClient.v ===== *)
(** * SdkClient: the Go SDK's client (sdks/go/client.go)

    The client keeps a table of calls that wait for a reply, the subscriptions it
    restores after a reconnect and a recovery cursor per channel.  Each handler is
    a function on that state which returns the effects it has: callbacks into the
    application, messages sent, calls settled.  The six maps of waiting calls are
    one map keyed by kind and request id (a waiting survey also records its
    request_id).  A waiting call gives up (context or timeout) as an event of its
    own.  The frames the server sends reach these handlers in SdkRecovery. *)

From S2P Require Import Prelude Topics Policy Stream HubSubs Recover Effect Handlers Occupancy SdkMessage.

Module SdkClient.

Abbreviation Subscription := Handlers.Subscription.

(** ** Waiting calls *)

Inductive kind := KRpc | KAck | KPresence | KSurvey | KSub | KUnsub.

#[export] Instance kind_eq_dec : EqDecision kind.
Proof. solve_decision. Defined.
#[export] Instance kind_countable : Countable kind.
Proof.
  refine (inj_countable' (λ k, match k with KRpc => 0 | KAck => 1 | KPresence => 2 | KSurvey => 3 | KSub => 4 | KUnsub => 5 end)
    (λ n, match n with 0 => KRpc | 1 => KAck | 2 => KPresence | 3 => KSurvey | 4 => KSub | _ => KUnsub end) _).
  by intros [].
Defined.

Record subscriptionState := mkState { ss_ephemeral : bool; ss_token : string }.

Section Client.
Context {J A : Type}.

(** ** What the server sends *)

(** clientpb.Message; the position is optional and so is its offset. *)
Record WireMessage := mkWireMessage {
  wm_Channel : string; wm_Id : string; wm_Position : option (option Z); wm_Payload : option (Stream.PayloadV2 J);
  wm_Replay : bool }.

Record SurveyResult := mkSurveyResult {
  sv_RequestId : string; sv_Answers : list Handlers.SurveyAnswer; sv_Error : option Handlers.SharedError }.

(** The oneof of an outbound message.  [dcode] is the number under
    disconnect_code in the error's metadata. *)
Inductive Envelope :=
| EvConnected (session epoch : string) (subs : list Subscription)
| EvError (e : Handlers.SharedError) (dcode : option Z)
| EvSubscribeAck (subs : list Subscription) (presence : list Handlers.PresenceSnapshot)
| EvUnsubscribeAck (subs : list Subscription)
| EvPublication (msgs : list WireMessage)
| EvRpcReply (payload : option (Stream.PayloadV2 J)) (e : option Handlers.SharedError)
| EvPublishAck (id : string) (position : option (option Z))
| EvPong
| EvPing
| EvPresenceEvent (e : Occupancy.PresenceEvent)
| EvPresence (s : Handlers.PresenceSnapshot)
| EvRecoverComplete (channel : string) (position : option (option Z))
| EvGapNotice (n : Occupancy.GapNotice)
| EvSurveyResult (r : SurveyResult)
| EvSubRefreshAck
| EvSurveyRequest (requestID channel : string) (payload : option (Stream.PayloadV2 J))
| EvSurveyReply.

Record ServerMessage := mkServerMessage { sm_Id : string; sm_Envelope : Envelope }.

Abbreviation InboundMessage := (@Handlers.InboundMessage J).
Abbreviation InEnvelope := (@Handlers.InEnvelope J).
Abbreviation Message := (SdkMessage.Message A).

(** How a waiting call ends. *)
Inductive settled :=
| GotMessage (m : ServerMessage)
| GotOffset (o : Z)
| GotAck
| GotSurvey (r : SurveyResult)
| Rejected (e : Handlers.SharedError)
| Lost
| ClientClosed.

Inductive error :=
| ErrDisconnect (code : Z) (reason : list Handlers.part)
| ErrServer (e : Handlers.SharedError)
| ErrReceive.

Inductive effect :=
| Settle (k : kind) (id : string) (v : settled)
| OnMessage (msgs : list Message)
| OnError (e : error) (handshake : bool)
| OnConnected (session : string)
| OnReconnected (session : string)
| OnPresence (e : Occupancy.PresenceEvent)
| OnPresenceSnapshot (s : Handlers.PresenceSnapshot)
| OnGapNotice (n : Occupancy.GapNotice)
| SendTo (trans : nat) (m : InboundMessage)
| PongSeen
| SpawnReconnect
| CloseTransport (trans : nat)
| Crash.

(** ** The client *)

Record Options := mkOptions {
  o_ClientID : string; o_ClientType : string; o_Token : string; o_Version : string;
  o_AutoSubscribe : list string; o_PingInterval : Z; o_AutoReconnect : bool }.

Record client := mkClient {
  c_sessionID : string;
  c_epoch : string;
  c_connected : bool;
  c_closed : bool;
  c_reconnecting : bool;
  c_generation : N;
  c_transport : nat;
  c_pending : gmap (kind * string) string;
  c_nextMsgID : N;
  c_subscriptions : gmap string subscriptionState;
  c_channelOffsets : gmap string Z;
  c_pingCancel : bool;              (* pingCancel is not nil *)
  c_pingLoop : bool;                (* a ping loop is running *)
}.

Definition newClient (trans : nat) : client :=
  mkClient "" "" false false false 0 trans ∅ 0 ∅ ∅ false false.

Definition set_pending (c : client) p := mkClient (c_sessionID c) (c_epoch c) (c_connected c) (c_closed c)
  (c_reconnecting c) (c_generation c) (c_transport c) p (c_nextMsgID c) (c_subscriptions c) (c_channelOffsets c)
  (c_pingCancel c) (c_pingLoop c).
Definition set_subs (c : client) s := mkClient (c_sessionID c) (c_epoch c) (c_connected c) (c_closed c)
  (c_reconnecting c) (c_generation c) (c_transport c) (c_pending c) (c_nextMsgID c) s (c_channelOffsets c)
  (c_pingCancel c) (c_pingLoop c).
Definition set_offsets (c : client) o := mkClient (c_sessionID c) (c_epoch c) (c_connected c) (c_closed c)
  (c_reconnecting c) (c_generation c) (c_transport c) (c_pending c) (c_nextMsgID c) (c_subscriptions c) o
  (c_pingCancel c) (c_pingLoop c).
Definition set_ping (c : client) pc pl := mkClient (c_sessionID c) (c_epoch c) (c_connected c) (c_closed c)
  (c_reconnecting c) (c_generation c) (c_transport c) (c_pending c) (c_nextMsgID c) (c_subscriptions c)
  (c_channelOffsets c) pc pl.
Definition set_flags (c : client) connected closed reconnecting := mkClient (c_sessionID c) (c_epoch c) connected
  closed reconnecting (c_generation c) (c_transport c) (c_pending c) (c_nextMsgID c) (c_subscriptions c)
  (c_channelOffsets c) (c_pingCancel c) (c_pingLoop c).

(** [fmt.Sprintf("%d-%d", now, counter)] *)
Definition msg_id (now counter : N) : string := pretty now +:+ String "-"%char (pretty counter).

Definition generateID (now : N) (c : client) : string * client :=
  let k := (c_nextMsgID c + 1)%N in
  (msg_id now k, mkClient (c_sessionID c) (c_epoch c) (c_connected c) (c_closed c) (c_reconnecting c)
     (c_generation c) (c_transport c) (c_pending c) k (c_subscriptions c) (c_channelOffsets c) (c_pingCancel c)
     (c_pingLoop c)).

Definition posOffset (p : option (option Z)) : option Z := match p with Some o => o | None => None end.

(** ** Requests *)

(** A request without a reply the SDK waits for: sendSubscribe, PublishWith,
    Publish, UnsubscribeAsync, SubRefresh, SendSurveyReply.  [None]: an error. *)
Definition send_only (now : N) (env : InEnvelope) (c : client) : option effect * client :=
  if negb (c_connected c) then (None, c) else
  let '(id, c) := generateID now c in
  (Some (SendTo (c_transport c) (Handlers.mkIn id 0 (Some env))), c).

(** A call up to its wait: RPC, PublishWithAck, Presence, Survey,
    sendSubscribeAndWait, Unsubscribe.  The call is registered before the request
    is sent and unregistered when the send fails. *)
Definition begin_call (k : kind) (requestID : string) (now : N) (env : InEnvelope) (sendOk : bool) (c : client)
    : option (string * effect) * client :=
  if negb (c_connected c) then (None, c) else
  let '(id, c) := generateID now c in
  let reg := set_pending c (<[ (k, id) := requestID ]> (c_pending c)) in
  if sendOk then (Some (id, SendTo (c_transport c) (Handlers.mkIn id 0 (Some env))), reg)
  else (None, set_pending reg (delete (k, id) (c_pending reg))).

(** The deferred cleanup of a call whose context is done. *)
Definition abandon (k : kind) (id : string) (c : client) : client :=
  set_pending c (delete (k, id) (c_pending c)).

Definition isEphemeral (c : client) (ch : string) : bool := from_option ss_ephemeral false (c_subscriptions c !! ch).
Definition subToken (c : client) (ch : string) : string := from_option ss_token "" (c_subscriptions c !! ch).

Definition subscribe_list (channels : list string) : list Subscription :=
  (λ ch, Handlers.mkSubscription ch false "" false None false) <$> channels.

Definition unsubscribe_list (c : client) (channels : list string) : list Subscription :=
  (λ ch, Handlers.mkSubscription ch (isEphemeral c ch) (subToken c ch) false None false) <$> channels.

(** ** Settling calls *)

(** Remove the call with this id, if it waits: deliverPending, rejectPendingAck,
    rejectPendingSubAck, rejectPendingUnsubAck, deliverPresence,
    resolvePendingSubAck, resolvePendingUnsubAck. *)
Definition settle_call (k : kind) (id : string) (v : settled) (c : client) : option (list effect * client) :=
  if bool_decide (id = "") then None
  else match c_pending c !! (k, id) with
       | None => None
       | Some _ => Some ([Settle k id v], set_pending c (delete (k, id) (c_pending c)))
       end.

Definition or_ignore (o : option (list effect * client)) (c : client) : list effect * client :=
  default ([], c) o.

Definition waiting (k : kind) (c : client) : gmap (kind * string) string :=
  filter (λ x : (kind * string) * string, x.1.1 = k) (c_pending c).

(** Every waiting call of one kind: rejectPendingAcks and its siblings. *)
Definition settle_all (k : kind) (v : settled) (c : client) : list effect * client :=
  ((λ x : (kind * string) * string, Settle k x.1.2 v) <$> map_to_list (waiting k c),
   set_pending c (filter (λ x : (kind * string) * string, x.1.1 ≠ k) (c_pending c))).

Fixpoint settle_kinds (ks : list kind) (v : settled) (c : client) : list effect * client :=
  match ks with
  | [] => ([], c)
  | k :: ks =>
    let '(e, c) := settle_all k v c in
    let '(es, c) := settle_kinds ks v c in (e ++ es, c)
  end.

Definition surveyRejectCodes : list string :=
  ["SURVEY_DISABLED"; "SURVEY_TOO_MANY_SUBSCRIBERS"; "BAD_REQUEST"; "PERMISSION_DENIED"; "RATE_LIMITED"; "INTERNAL_ERROR"].

Definition deliverSurveyError (id : string) (e : Handlers.SharedError) (c : client) : option (list effect * client) :=
  if negb (bool_decide (id = "")) then settle_call KSurvey id (Rejected e) c
  else if bool_decide (base.size (waiting KSurvey c) = 1) && bool_decide (Handlers.er_Code e ∈ surveyRejectCodes)
  then Some (settle_all KSurvey (Rejected e) c) else None.

Definition handleSurveyResult (r : SurveyResult) (c : client) : list effect * client :=
  match List.find (λ x : (kind * string) * string, bool_decide (x.2 = sv_RequestId r)) (map_to_list (waiting KSurvey c)) with
  | Some ((k, id), _) => ([Settle k id (GotSurvey r)], set_pending c (delete (k, id) (c_pending c)))
  | None => ([], c)
  end.

Definition disconnectFromError (e : Handlers.SharedError) (dcode : option Z) : option error :=
  match dcode with
  | Some code => if bool_decide (code = 0%Z) then None else Some (ErrDisconnect code (Handlers.er_Message e))
  | None => None
  end.

(** The error branch of handleMessage. *)
Definition handle_error_envelope (id : string) (e : Handlers.SharedError) (dcode : option Z) (c : client)
    : list effect * client :=
  let msg := mkServerMessage id (EvError e dcode) in
  let first := fix first (l : list (option (list effect * client))) :=
    match l with [] => None | Some r :: _ => Some r | None :: l => first l end in
  match first [settle_call KRpc id (GotMessage msg) c; settle_call KAck id (Rejected e) c;
               settle_call KSub id (Rejected e) c; settle_call KUnsub id (Rejected e) c;
               settle_call KPresence id (GotMessage msg) c; deliverSurveyError id e c] with
  | Some r => r
  | None => ([OnError (default (ErrServer e) (disconnectFromError e dcode)) (negb (c_connected c))], c)
  end.

(** ** Subscriptions and cursors *)

(** The state written back for one subscription of the server's list. *)
Definition merge_state (old : option subscriptionState) (sub : Subscription) : subscriptionState :=
  let st := default (mkState false "") old in
  mkState (Handlers.sb_Ephemeral sub)
    (if bool_decide (Handlers.sb_Token sub = "") then ss_token st else Handlers.sb_Token sub).

Definition write_back (subs : list Subscription) (m : gmap string subscriptionState) : gmap string subscriptionState :=
  foldl (λ m sub, <[ Handlers.sb_Channel sub := merge_state (m !! Handlers.sb_Channel sub) sub ]> m) m subs.

Definition startPingLoop (o : Options) (c : client) : client :=
  if (o_PingInterval o <=? 0)%Z then c
  else if c_pingCancel c then c else set_ping c true true.

Definition handleConnected (o : Options) (session epoch : string) (subs : list Subscription) (gen : N) (c : client)
    : list effect * client :=
  if c_closed c || negb (bool_decide (c_generation c = gen)) then ([], c) else
  let was := c_reconnecting c in
  let listed : gset string := list_to_set (Handlers.sb_Channel <$> subs) in
  let merged := filter (λ x : string * subscriptionState, x.1 ∈ listed) (write_back subs (c_subscriptions c)) in
  let c := mkClient session epoch true (c_closed c) false (c_generation c) (c_transport c) (c_pending c)
             (c_nextMsgID c) merged (c_channelOffsets c) (c_pingCancel c) (c_pingLoop c) in
  ((if was then [OnReconnected session] else []) ++ [OnConnected session], startPingLoop o c).

Definition handleSubscribeAck (subs : list Subscription) (presence : list Handlers.PresenceSnapshot) (c : client)
    : list effect * client :=
  (OnPresenceSnapshot <$> presence, set_subs c (write_back subs (c_subscriptions c))).

Definition handleUnsubscribeAck (subs : list Subscription) (c : client) : client :=
  let gone := Handlers.sb_Channel <$> subs in
  set_offsets (set_subs c (foldl (λ m ch, delete ch m) (c_subscriptions c) gone))
    (foldl (λ m ch, delete ch m) (c_channelOffsets c) gone).

Definition write_offset (ch : string) (pos : option (option Z)) (m : gmap string Z) : gmap string Z :=
  match posOffset pos with Some off => <[ ch := off ]> m | None => m end.

Definition handleRecoverComplete (ch : string) (pos : option (option Z)) (c : client) : client :=
  if bool_decide (ch = "") then c else set_offsets c (write_offset ch pos (c_channelOffsets c)).

Context (newStruct : A → option J) (asMap : J → A) (nilStruct : J).

(** A uuid is drawn for a message without an id; it is an argument. *)
Definition messageFromEnv (uuid : string) (m : WireMessage) : Message :=
  let msg := SdkMessage.PayloadToMessage asMap uuid (wm_Payload m) (wm_Id m) in
  let msg := SdkMessage.SetMetadata "channel" (wm_Channel m) msg in
  match posOffset (wm_Position m) with
  | Some off => SdkMessage.SetMetadata "offset" (pretty (Z.to_N off)) msg
  | None => msg
  end.

Definition advance (m : gmap string Z) (w : WireMessage) : gmap string Z :=
  if wm_Replay w then m else write_offset (wm_Channel w) (wm_Position w) m.

Definition handlePublication (uuid : string) (msgs : list WireMessage) (c : client) : list effect * client :=
  let c := set_offsets c (foldl advance (c_channelOffsets c) msgs) in
  match msgs with [] => ([], c) | _ => ([OnMessage (messageFromEnv uuid <$> msgs)], c) end.

(** ** Pings and surveys *)

Definition handleServerPing (id : string) (c : client) : list effect :=
  [SendTo (c_transport c) (Handlers.mkIn id 0 (Some Handlers.InPong)); PongSeen].

(** The application's survey handlers; an error is its text. *)
Record SurveyHandlers := mkSurveyHandlers {
  onSurveyRequest : option (string → string → Message → result string (option Message));
  onSurvey : option (string → Message → result string (option Message)) }.

Definition SendSurveyReply (now : N) (requestID : string) (reply : option Message) (replyErr : option string) (c : client)
    : list effect * client :=
  if negb (c_connected c) then ([], c) else
  let send p :=
    let '(e, c) := send_only now (Handlers.InSurveyReply (Handlers.mkSurveyReply requestID p
       ((λ t, Handlers.mkErr "SURVEY_REPLY_ERROR" "survey_error" [Handlers.Txt t] []) <$> replyErr))) c in
    (match e with Some e => [e] | None => [] end, c) in
  match reply with
  | None => send None
  | Some m =>
    match SdkMessage.ToPayload newStruct nilStruct (SdkMessage.m_Data m) with
    | SdkMessage.Panics => ([Crash], c)
    | SdkMessage.PayloadError => ([], c)
    | SdkMessage.PayloadOk p => send (Some p)
    end
  end.

Definition handleSurveyRequest (h : SurveyHandlers) (uuid : string) (now : N) (requestID channel : string)
    (payload : option (Stream.PayloadV2 J)) (c : client) : list effect * client :=
  let req := SdkMessage.PayloadToMessage asMap uuid payload "" in
  let reply r := match r with
                 | Err e => SendSurveyReply now requestID None (Some e) c
                 | Ok m => SendSurveyReply now requestID m None c
                 end in
  match onSurveyRequest h, onSurvey h with
  | Some f, _ => reply (f requestID channel req)
  | None, Some f => reply (f requestID req)
  | None, None => SendSurveyReply now requestID (Some req) None c
  end.

(** ** Dispatch *)

Definition handleMessage (o : Options) (h : SurveyHandlers) (uuid : string) (now : N) (msg : ServerMessage) (gen : N)
    (c : client) : list effect * client :=
  let id := sm_Id msg in
  match sm_Envelope msg with
  | EvConnected session epoch subs => handleConnected o session epoch subs gen c
  | EvError e dcode => handle_error_envelope id e dcode c
  | EvSubscribeAck subs presence =>
      let '(e1, c) := or_ignore (settle_call KSub id GotAck c) c in
      let '(e2, c) := handleSubscribeAck subs presence c in (e1 ++ e2, c)
  | EvUnsubscribeAck subs =>
      let '(e1, c) := or_ignore (settle_call KUnsub id GotAck c) c in (e1, handleUnsubscribeAck subs c)
  | EvPublication msgs => handlePublication uuid msgs c
  | EvRpcReply _ _ => or_ignore (settle_call KRpc id (GotMessage msg) c) c
  | EvPublishAck aid pos =>
      or_ignore (settle_call KAck (if bool_decide (aid = "") then id else aid)
                   (GotOffset (default 0%Z (posOffset pos))) c) c
  | EvPong => ([PongSeen], c)
  | EvPing => (handleServerPing id c, c)
  | EvPresenceEvent e => ([OnPresence e], c)
  | EvPresence s => default ([OnPresenceSnapshot s], c) (settle_call KPresence id (GotMessage msg) c)
  | EvRecoverComplete ch pos => ([], handleRecoverComplete ch pos c)
  | EvGapNotice n => ([OnGapNotice n], c)
  | EvSurveyResult r => handleSurveyResult r c
  | EvSurveyRequest rid ch p => handleSurveyRequest h uuid now rid ch p c
  | EvSubRefreshAck | EvSurveyReply => ([], c)
  end.

(** ** Losing, closing and re-establishing the connection *)

(** The error branch of receiveLoop: the calls that can no longer complete are
    failed, except RPCs. *)
Definition receive_error (o : Options) (trans : nat) (c : client) : list effect * client :=
  if c_closed c || negb (bool_decide (c_transport c = trans)) then ([], c) else
  let handshake := negb (c_connected c) in
  let c := set_flags c false (c_closed c) (c_reconnecting c) in
  let '(es, c) := settle_kinds [KAck; KSurvey; KPresence; KSub; KUnsub] Lost c in
  ([OnError ErrReceive handshake] ++ es ++ (if o_AutoReconnect o then [SpawnReconnect] else []), c).

Definition Close (c : client) : list effect * client :=
  let c := set_ping (set_flags c false true (c_reconnecting c)) false false in
  let '(es, c) := settle_kinds [KRpc; KPresence; KSurvey; KAck; KSub; KUnsub] ClientClosed c in
  (es ++ [CloseTransport (c_transport c)], c).

(** The cursor of the position the SDK sends: the server reads its offset. *)
Definition resumeSubscriptions (c : client) : list Subscription :=
  (λ x : string * subscriptionState,
     Handlers.mkSubscription x.1 (ss_ephemeral x.2) (ss_token x.2) true
       ((λ off, Some off) <$> c_channelOffsets c !! x.1) false) <$> map_to_list (c_subscriptions c).

Definition connect_body (o : Options) (subs : list Subscription) (session : string) : InEnvelope :=
  Handlers.InConnect (Handlers.mkConnect (o_ClientID o) (o_ClientType o) (o_Token o) (o_Version o) subs session []).

Definition buildConnectMessage (o : Options) (now : N) (resume : bool) (c : client) : InboundMessage * client :=
  let '(id, c) := generateID now c in
  (Handlers.mkIn id 0 (Some
     (if resume then connect_body o (resumeSubscriptions c) (c_sessionID c)
      else connect_body o (subscribe_list (o_AutoSubscribe o)) "")), c).

(** A new attempt on a transport: the generation advances and Connect is sent. *)
Definition begin_attempt (o : Options) (now : N) (trans : nat) (resume : bool) (c : client) : effect * client :=
  let c := mkClient (c_sessionID c) (c_epoch c) (c_connected c) (c_closed c) (c_reconnecting c) (c_generation c + 1)
             trans (c_pending c) (c_nextMsgID c) (c_subscriptions c) (c_channelOffsets c) (c_pingCancel c) (c_pingLoop c) in
  let '(m, c) := buildConnectMessage o now resume c in (SendTo trans m, c).

(** Connect resumes from the second attempt on. *)
Definition Connect (o : Options) (now : N) (trans : nat) (c : client) : effect * client :=
  begin_attempt o now trans (1 <? c_generation c + 1)%N c.

Definition reconnect (o : Options) (now : N) (trans : nat) (c : client) : effect * client :=
  begin_attempt o now trans true c.

(** The start of reconnectLoop: one loop at a time, and the ping loop stops. *)
Definition begin_reconnect (c : client) : option client :=
  if c_reconnecting c then None
  else Some (set_ping (set_flags c (c_connected c) (c_closed c) true) false false).

(** The ping loop returns: its deadline passed, or a tick found the client
    disconnected.  pingCancel stays set. *)
Definition ping_loop_returns (c : client) : client := set_ping c (c_pingCancel c) false.

(** What happens to one iteration of reconnectLoop. *)
Inductive attempt := AClosed | ACancelled | AFailed | AConnected.
Inductive loop_end := Stopped | GaveUp | Connected | Running.

(** [scale] is the multiplication of a delay by the backoff factor.  The result
    lists the attempts with their delays. *)
Fixpoint reconnectLoop (scale : Z → Z) (maxDelay maxAttempts : Z) (n : nat) (delay : Z) (outcomes : list attempt)
    : list (nat * Z) * loop_end :=
  match outcomes with
  | [] => ([], Running)
  | AClosed :: _ => ([], Stopped)
  | o :: rest =>
    if (0 <? maxAttempts)%Z && (maxAttempts <? Z.of_nat n)%Z then ([], GaveUp) else
    match o with
    | ACancelled => ([], Stopped)
    | AConnected => ([(n, delay)], Connected)
    | _ =>
      let delay' := scale delay in
      let delay' := if (maxDelay <? delay')%Z then maxDelay else delay' in
      let '(l, e) := reconnectLoop scale maxDelay maxAttempts (S n) delay' rest in ((n, delay) :: l, e)
    end
  end.

(** ** Every call ends at most once *)

Definition settled_key (e : effect) : option (kind * string) :=
  match e with Settle k id _ => Some (k, id) | _ => None end.

Abbreviation settled_keys := (omap settled_key).

(** A handler settles waiting calls, each once, and nothing else leaves or
    enters the table. *)
Record settles (c : client) (es : list effect) (c' : client) : Prop := {
  st_nodup : NoDup (settled_keys es);
  st_waiting : ∀ key, key ∈ settled_keys es → is_Some (c_pending c !! key);
  st_pending : ∀ key, c_pending c' !! key =
    if bool_decide (key ∈ settled_keys es) then None else c_pending c !! key;
  st_counter : (c_nextMsgID c ≤ c_nextMsgID c')%N;
}.

Lemma settles_none c es c' :
  settled_keys es = [] → c_pending c' = c_pending c → (c_nextMsgID c ≤ c_nextMsgID c')%N → settles c es c'.
Proof.
  intros He Hp Hn. split; rewrite ?He; [constructor|set_solver| |done].
  intros key. by rewrite bool_decide_eq_false_2, Hp by set_solver.
Qed.

Lemma settles_one c k id v x c' :
  c_pending c !! (k, id) = Some x → c_pending c' = delete (k, id) (c_pending c) →
  (c_nextMsgID c ≤ c_nextMsgID c')%N → settles c [Settle k id v] c'.
Proof.
  intros Hx Hp Hn. split; cbn; [apply NoDup_singleton| | |done].
  - intros key ->%list_elem_of_singleton. by eexists.
  - intros key. rewrite Hp, lookup_delete. case_bool_decide as Hin; case_decide as Hd; set_solver.
Qed.

Lemma settles_app c1 es1 c2 es2 c3 :
  settles c1 es1 c2 → settles c2 es2 c3 → settles c1 (es1 ++ es2) c3.
Proof.
  intros [N1 W1 P1 C1] [N2 W2 P2 C2].
  assert (∀ key, key ∈ settled_keys es2 → (key ∉ settled_keys es1) ∧ is_Some (c_pending c1 !! key)) as Hnew.
  { intros key Hk. apply W2 in Hk. rewrite P1 in Hk. case_bool_decide; [by destruct Hk|done]. }
  split; rewrite ?omap_app.
  - apply NoDup_app. split_and!; [done| |done]. intros key H1 H2. by apply Hnew in H2 as [].
  - intros key [Hk|Hk]%elem_of_app; [by apply W1|by apply Hnew].
  - intros key. rewrite P2, P1. repeat case_bool_decide; set_solver.
  - by transitivity (c_nextMsgID c2).
Qed.

Lemma settles_same c es c1 c2 :
  settles c es c1 → c_pending c2 = c_pending c1 → (c_nextMsgID c1 ≤ c_nextMsgID c2)%N → settles c es c2.
Proof. intros [? ? Hp Hn] E1 E2. split; try done; [intros key; by rewrite E1, Hp|lia]. Qed.

Lemma settle_call_settles k id v c r : settle_call k id v c = Some r → settles c r.1 r.2.
Proof.
  unfold settle_call. case_bool_decide; [done|]. destruct (c_pending c !! (k, id)) as [x|] eqn:Hx; [|done].
  intros [= <-]. by eapply settles_one.
Qed.

Lemma or_ignore_settles k id v c : let r := or_ignore (settle_call k id v c) c in settles c r.1 r.2.
Proof.
  unfold or_ignore. destruct (settle_call k id v c) as [r|] eqn:Hr; simpl; [by eapply settle_call_settles|].
  by apply settles_none.
Qed.

Lemma settled_keys_Settle k v (l : list ((kind * string) * string)) :
  settled_keys ((λ x : (kind * string) * string, Settle k x.1.2 v) <$> l) = (λ x : (kind * string) * string, (k, x.1.2)) <$> l.
Proof. induction l as [|x l IH]; [done|]. cbn. f_equal. exact IH. Qed.

Lemma waiting_elem k c key :
  key ∈ (λ x : (kind * string) * string, (k, x.1.2)) <$> map_to_list (waiting k c) ↔
  key.1 = k ∧ is_Some (c_pending c !! key).
Proof.
  rewrite list_elem_of_fmap. unfold waiting. split.
  - intros ([[k' id] x] & -> & Hin%elem_of_map_to_list). apply map_lookup_filter_Some in Hin as [Hx Hk].
    simpl in *. subst k'. split; [done|by eexists].
  - destruct key as [k' id]. simpl. intros [-> [x Hx]]. exists (k, id, x). split; [done|].
    apply elem_of_map_to_list, map_lookup_filter_Some. done.
Qed.

Lemma settle_all_settles k v c : let r := settle_all k v c in settles c r.1 r.2.
Proof.
  cbn zeta. split; cbn [settle_all fst snd]; rewrite ?settled_keys_Settle.
  - assert ((λ x : (kind * string) * string, (k, x.1.2)) <$> map_to_list (waiting k c) = (map_to_list (waiting k c)).*1) as ->;
      [|apply NoDup_fst_map_to_list].
    apply list_fmap_ext. intros i [[k' id] x] Hx. simpl. apply list_elem_of_lookup_2, elem_of_map_to_list in Hx.
    apply map_lookup_filter_Some in Hx as [_ Hx]. simpl in Hx. by subst.
  - intros key [_ ?]%waiting_elem. done.
  - intros key. cbn [c_pending set_pending]. case_bool_decide as Hin; rewrite waiting_elem in Hin.
    + apply map_lookup_filter_None. right. intros x _. simpl. tauto.
    + destruct (c_pending c !! key) as [x|] eqn:Hx.
      * apply map_lookup_filter_Some. split; [done|]. simpl. intros Hk. apply Hin. split; [done|by eexists].
      * apply map_lookup_filter_None. by left.
  - done.
Qed.

Lemma settle_all_clears k v c key : key.1 = k → c_pending (settle_all k v c).2 !! key = None.
Proof. intros Hk. cbn. apply map_lookup_filter_None. right. intros x _. simpl. tauto. Qed.

Lemma settle_all_other k v c key : key.1 ≠ k → c_pending (settle_all k v c).2 !! key = c_pending c !! key.
Proof.
  intros Hk. cbn. destruct (c_pending c !! key) as [x|] eqn:Hx.
  - apply map_lookup_filter_Some. done.
  - apply map_lookup_filter_None. by left.
Qed.

Lemma survey_error_settles id e c r : deliverSurveyError id e c = Some r → settles c r.1 r.2.
Proof.
  unfold deliverSurveyError. case_bool_decide; simpl; [|by apply settle_call_settles].
  destruct (_ && _); [|done]. intros [= <-]. apply settle_all_settles.
Qed.

Lemma survey_result_settles r c : let x := handleSurveyResult r c in settles c x.1 x.2.
Proof.
  unfold handleSurveyResult. destruct (List.find _ _) as [[[k id] x]|] eqn:Hf; simpl; [|by apply settles_none].
  apply List.find_some in Hf as [Hin _]. apply list_elem_of_In, elem_of_map_to_list in Hin.
  apply map_lookup_filter_Some in Hin as [Hin _]. by eapply settles_one.
Qed.

Lemma error_envelope_settles id e dcode c :
  let r := handle_error_envelope id e dcode c in settles c r.1 r.2.
Proof.
  unfold handle_error_envelope. cbn zeta.
  repeat match goal with
  | |- context [settle_call ?k id ?v c] =>
      let H := fresh in destruct (settle_call k id v c) as [r|] eqn:H; [by apply settle_call_settles in H|clear H]
  end.
  destruct (deliverSurveyError id e c) as [r|] eqn:Hs; [by apply survey_error_settles in Hs|].
  by apply settles_none.
Qed.

Lemma send_only_quiet now env c :
  let r := send_only now env c in c_pending r.2 = c_pending c ∧ (c_nextMsgID c ≤ c_nextMsgID r.2)%N ∧
    ∀ e, r.1 = Some e → settled_key e = None.
Proof. unfold send_only. destruct (c_connected c); cbn; split_and!; (done || lia || naive_solver). Qed.

Lemma survey_reply_settles now rid reply err c :
  let r := SendSurveyReply now rid reply err c in settles c r.1 r.2.
Proof.
  unfold SendSurveyReply. cbn zeta. destruct (c_connected c) eqn:Hc; [|by apply settles_none]. cbn [negb].
  assert (∀ p : option (Stream.PayloadV2 J), let r := (let '(e, c) := send_only now (Handlers.InSurveyReply
    (Handlers.mkSurveyReply rid p ((λ t, Handlers.mkErr "SURVEY_REPLY_ERROR" "survey_error" [Handlers.Txt t] []) <$> err))) c in
    (match e with Some e => [e] | None => [] end, c)) in settles c r.1 r.2) as Hsend.
  { intros p. cbn zeta. match goal with |- context [send_only now ?env c] =>
      destruct (send_only_quiet now env c) as (Hp & Hn & He); destruct (send_only now env c) as [[e|] c'] end;
    cbn in *; apply settles_none; cbn; try done. by rewrite (He e eq_refl). }
  destruct reply as [m|]; [|apply Hsend]. destruct (SdkMessage.ToPayload _ _ _); [by apply settles_none..|apply Hsend].
Qed.

Lemma connected_settles o session epoch subs gen c :
  let r := handleConnected o session epoch subs gen c in settles c r.1 r.2.
Proof.
  unfold handleConnected. cbn zeta. destruct (c_closed c || _); [by apply settles_none|].
  apply settles_none; cbn [fst snd]; [by destruct (c_reconnecting c)|..];
    unfold startPingLoop; destruct (_ <=? _)%Z; try done; cbn [c_pingCancel]; destruct (c_pingCancel c); done.
Qed.

Lemma omap_fmap_none {B} (f : B → effect) (l : list B) :
  (∀ x, settled_key (f x) = None) → settled_keys (f <$> l) = [].
Proof. intros Hf. induction l as [|x l IH]; [done|]. cbn. by rewrite Hf. Qed.

Lemma sdk_message_settles o h uuid now msg gen c :
  let r := handleMessage o h uuid now msg gen c in settles c r.1 r.2.
Proof.
  unfold handleMessage. cbn zeta. destruct (sm_Envelope msg) eqn:He; try by apply settles_none.
  - apply connected_settles.
  - apply error_envelope_settles.
  - pose proof (or_ignore_settles KSub (sm_Id msg) GotAck c) as Hs. destruct (or_ignore _ _) as [e1 c1]. cbn in Hs |- *.
    eapply settles_app; [exact Hs|]. apply settles_none; [by apply omap_fmap_none|done..].
  - pose proof (or_ignore_settles KUnsub (sm_Id msg) GotAck c) as Hs. destruct (or_ignore _ _) as [e1 c1].
    by eapply settles_same.
  - unfold handlePublication. destruct msgs; by apply settles_none.
  - apply or_ignore_settles.
  - apply or_ignore_settles.
  - destruct (settle_call KPresence _ _ c) as [r|] eqn:Hr; [by apply settle_call_settles in Hr|by apply settles_none].
  - unfold handleRecoverComplete. case_bool_decide; by apply settles_none.
  - apply survey_result_settles.
  - unfold handleSurveyRequest. cbn zeta. destruct (onSurveyRequest h) as [f|].
    + destruct (f _ _ _); apply survey_reply_settles.
    + destruct (onSurvey h) as [f|]; [destruct (f _ _)|]; apply survey_reply_settles.
Qed.

Lemma settle_kinds_settles ks v : ∀ c, let r := settle_kinds ks v c in settles c r.1 r.2.
Proof.
  induction ks as [|k ks IH]; intros c; [by apply settles_none|]. cbn [settle_kinds].
  pose proof (settle_all_settles k v c) as Hs. destruct (settle_all k v c) as [e c1]. cbn in Hs.
  specialize (IH c1). destruct (settle_kinds ks v c1) as [es c2]. cbn in *. by eapply settles_app.
Qed.

Lemma settle_kinds_spec ks v : ∀ c key x, c_pending c !! key = Some x →
  if bool_decide (key.1 ∈ ks)
  then Settle key.1 key.2 v ∈ (settle_kinds ks v c).1 ∧ c_pending (settle_kinds ks v c).2 !! key = None
  else c_pending (settle_kinds ks v c).2 !! key = Some x.
Proof.
  induction ks as [|k ks IH]; intros c key x Hx; [by rewrite bool_decide_eq_false_2 by set_solver|].
  cbn [settle_kinds]. destruct (decide (key.1 = k)) as [Hk|Hk].
  - rewrite bool_decide_eq_true_2 by set_solver. pose proof (settle_all_clears k v c key Hk) as Hn.
    assert (Settle key.1 key.2 v ∈ (settle_all k v c).1) as Hin.
    { cbn. apply list_elem_of_fmap. exists (key, x). split; [cbn; by rewrite Hk|].
      apply elem_of_map_to_list, map_lookup_filter_Some. done. }
    destruct (settle_all k v c) as [e c1]. cbn in Hn, Hin. pose proof (settle_kinds_settles ks v c1) as Hs.
    destruct (settle_kinds ks v c1) as [es c2]. cbn in *. split; [apply elem_of_app; by left|].
    rewrite (st_pending _ _ _ Hs), Hn. by case_bool_decide.
  - pose proof (settle_all_other k v c key Hk) as Hn. destruct (settle_all k v c) as [e c1]. cbn in Hn.
    rewrite Hx in Hn. specialize (IH c1 key x Hn). destruct (settle_kinds ks v c1) as [es c2]. cbn in *.
    case_bool_decide as Hin; [rewrite bool_decide_eq_true_2 by set_solver|rewrite bool_decide_eq_false_2 by set_solver; done].
    destruct IH as [Hs Hp]. split; [apply elem_of_app; by right|done].
Qed.

Lemma receive_error_settles o trans c : let r := receive_error o trans c in settles c r.1 r.2.
Proof.
  unfold receive_error. cbn zeta. destruct (c_closed c || _); [by apply settles_none|].
  set (c0 := set_flags _ _ _ _). pose proof (settle_kinds_settles [KAck; KSurvey; KPresence; KSub; KUnsub] Lost c0) as Hs.
  destruct (settle_kinds _ _ c0) as [es c1]. cbn [fst snd] in *.
  eapply (settles_app c [_] c0); [by apply settles_none|]. eapply settles_app; [exact Hs|].
  apply settles_none; [by destruct (o_AutoReconnect o)|done..].
Qed.

Lemma Close_settles c : let r := Close c in settles c r.1 r.2.
Proof.
  unfold Close. cbn zeta. set (c0 := set_ping _ _ _).
  pose proof (settle_kinds_settles [KRpc; KPresence; KSurvey; KAck; KSub; KUnsub] ClientClosed c0) as Hs.
  destruct (settle_kinds _ _ c0) as [es c1]. cbn [fst snd] in *.
  eapply (settles_app c [] c0); [by apply settles_none|]. eapply settles_app; [exact Hs|]. by apply settles_none.
Qed.

(** ** Runs *)

Inductive event :=
| ESend (now : N) (env : InEnvelope)
| ECall (k : kind) (requestID : string) (now : N) (env : InEnvelope) (sendOk : bool)
| EAbandon (k : kind) (id : string)
| EReceive (uuid : string) (now : N) (msg : ServerMessage) (gen : N)
| ELost (trans : nat)
| EClose
| EConnect (now : N) (trans : nat)
| EBeginReconnect
| EReconnect (now : N) (trans : nat)
| EPingReturns.

(** The calls that began, and the effects. *)
Inductive obs := Began (key : kind * string) | Did (e : effect).

Context (o : Options) (h : SurveyHandlers).

Definition step (e : event) (c : client) : list obs * client :=
  match e with
  | ESend now env => let '(r, c) := send_only now env c in (match r with Some e => [Did e] | None => [] end, c)
  | ECall k rid now env ok =>
      let '(r, c) := begin_call k rid now env ok c in
      (match r with Some (id, e) => [Began (k, id); Did e] | None => [] end, c)
  | EAbandon k id => ([], abandon k id c)
  | EReceive uuid now msg gen => let '(es, c) := handleMessage o h uuid now msg gen c in (Did <$> es, c)
  | ELost trans => let '(es, c) := receive_error o trans c in (Did <$> es, c)
  | EClose => let '(es, c) := Close c in (Did <$> es, c)
  | EConnect now trans => let '(e, c) := Connect o now trans c in ([Did e], c)
  | EBeginReconnect => ([], default c (begin_reconnect c))
  | EReconnect now trans => let '(e, c) := reconnect o now trans c in ([Did e], c)
  | EPingReturns => ([], ping_loop_returns c)
  end.

Fixpoint run (es : list event) (c : client) : list obs * client :=
  match es with
  | [] => ([], c)
  | e :: es => let '(l1, c) := step e c in let '(l2, c) := run es c in (l1 ++ l2, c)
  end.

Definition began (l : list obs) : list (kind * string) :=
  omap (λ x, match x with Began key => Some key | Did _ => None end) l.
Definition ended (l : list obs) : list (kind * string) :=
  omap (λ x, match x with Did e => settled_key e | Began _ => None end) l.

Lemma began_Did es : began (Did <$> es) = [].
Proof. induction es as [|e es IH]; [done|]. exact IH. Qed.

Lemma ended_Did es : ended (Did <$> es) = settled_keys es.
Proof. induction es as [|e es IH]; [done|]. cbn. destruct (settled_key e); [by f_equal|]. exact IH. Qed.

Lemma msg_id_inj t k t' k' : msg_id t k = msg_id t' k' → k = k'.
Proof.
  intros Heq. apply str_sep_inj in Heq as [_ Hk]; [by apply (inj pretty)|by apply pretty_N_no_char..].
Qed.

Record run_inv (l : list obs) (c : client) : Prop := {
  ri_once : NoDup (ended l);
  ri_began : ∀ key, key ∈ ended l → key ∈ began l;
  ri_unique : NoDup (began l);
  ri_waiting : ∀ key x, c_pending c !! key = Some x → key ∈ began l ∧ (key ∉ ended l);
  ri_ids : ∀ key, key ∈ began l → ∃ t k, key.2 = msg_id t k ∧ (k ≤ c_nextMsgID c)%N;
}.

Lemma run_inv_settles l c es c' : run_inv l c → settles c es c' → run_inv (l ++ (Did <$> es)) c'.
Proof.
  intros [Ho Hb Hu Hw Hi] [N W P C].
  assert (began (l ++ (Did <$> es)) = began l) as Hbeg.
  { unfold began. rewrite omap_app. fold (began (Did <$> es)). by rewrite began_Did, app_nil_r. }
  assert (ended (l ++ (Did <$> es)) = ended l ++ settled_keys es) as Hend.
  { unfold ended. rewrite omap_app. fold (ended (Did <$> es)). by rewrite ended_Did. }
  split; rewrite ?Hbeg, ?Hend; [|..|done| |].
  - apply NoDup_app. split_and!; [done| |done]. intros key Hk1 Hk2. apply W in Hk2 as [x Hx]. by apply Hw in Hx as [_ ?].
  - intros key [Hk|Hk]%elem_of_app; [by apply Hb|]. apply W in Hk as [x Hx]. by apply Hw in Hx as [? _].
  - intros key x. rewrite P. case_bool_decide; [done|]. intros Hx. apply Hw in Hx as [? ?]. split; [done|].
    rewrite elem_of_app. tauto.
  - intros key Hk. destruct (Hi key Hk) as (t & k & ? & ?). exists t, k. split; [done|lia].
Qed.

Lemma run_inv_call l c k rid now env ok :
  run_inv l c → run_inv (l ++ (step (ECall k rid now env ok) c).1) (step (ECall k rid now env ok) c).2.
Proof.
  intros [Ho Hb Hu Hw Hi]. cbn [step]. unfold begin_call.
  destruct (c_connected c); cbn [negb]; [|cbn; by rewrite app_nil_r].
  set (key := (k, msg_id now (c_nextMsgID c + 1)%N)).
  assert (key ∉ began l) as Hfresh.
  { intros Hk. destruct (Hi key Hk) as (t & m & Heq & Hm). apply msg_id_inj in Heq. lia. }
  assert (c_pending c !! key = None) as Hnone.
  { destruct (c_pending c !! key) eqn:Hx; [|done]. by apply Hw in Hx as [? _]. }
  unfold generateID. destruct ok; cbn.
  - match goal with |- run_inv (l ++ ?x) _ =>
      assert (began (l ++ x) = began l ++ [key]) as Hbeg by (unfold began; by rewrite omap_app);
      assert (ended (l ++ x) = ended l) as Hend by (unfold ended; by rewrite omap_app, app_nil_r) end.
    split; rewrite ?Hbeg, ?Hend; cbn.
    + done.
    + intros x Hx. apply elem_of_app. left. by apply Hb.
    + apply NoDup_app. split_and!; [done|set_solver|apply NoDup_singleton].
    + intros x y. fold key. rewrite lookup_insert. case_decide as Hd.
      * intros _. subst x. split; [set_solver|]. intros Hx. by apply Hb in Hx.
      * intros Hx. apply Hw in Hx as [? ?]. split; [set_solver|done].
    + intros x [Hx|Hx]%elem_of_app.
      * destruct (Hi x Hx) as (t & m & ? & ?). exists t, m. split; [done|lia].
      * apply list_elem_of_singleton in Hx as ->. exists now, (c_nextMsgID c + 1)%N. split; [done|lia].
  - rewrite app_nil_r. fold key. rewrite delete_insert_id by done. split; cbn; try done.
    intros x Hx. destruct (Hi x Hx) as (t & m & ? & ?). exists t, m. split; [done|lia].
Qed.

Lemma run_inv_step e l c : run_inv l c → run_inv (l ++ (step e c).1) (step e c).2.
Proof.
  intros Hi. assert (∀ es c', settles c es c' → run_inv (l ++ (Did <$> es)) c') as Hs by eauto using run_inv_settles.
  destruct e as [now env|k rid now env ok|k id|uuid now msg gen|trans| |now trans| |now trans|]; cbn [step].
  - destruct (send_only_quiet now env c) as (Hp & Hn & He). destruct (send_only now env c) as [[e|] c']; cbn in *.
    + apply (Hs [e]), settles_none; [cbn; by rewrite (He e eq_refl)|done..].
    + apply (Hs []). by apply settles_none.
  - by apply run_inv_call.
  - destruct Hi as [Ho Hb Hu Hw Hid]. cbn. rewrite app_nil_r. split; cbn; try done.
    intros key x. rewrite lookup_delete_Some. intros [_ Hx]. by eapply Hw.
  - pose proof (sdk_message_settles o h uuid now msg gen c) as Hm.
    destruct (handleMessage o h uuid now msg gen c) as [es c']. by apply Hs.
  - pose proof (receive_error_settles o trans c) as Hm. destruct (receive_error o trans c) as [es c']. by apply Hs.
  - pose proof (Close_settles c) as Hm. destruct (Close c) as [es c']. by apply Hs.
  - apply (Hs [_]), settles_none; [done..|]. cbn. lia.
  - apply (Hs []). unfold begin_reconnect. destruct (c_reconnecting c); by apply settles_none.
  - apply (Hs [_]), settles_none; [done..|]. cbn. lia.
  - apply (Hs []). by apply settles_none.
Qed.

Lemma run_inv_run es : ∀ l c, run_inv l c → run_inv (l ++ (run es c).1) (run es c).2.
Proof.
  induction es as [|e es IH]; intros l c Hi; cbn [run]; [by rewrite app_nil_r|].
  pose proof (run_inv_step e l c Hi) as H1. destruct (step e c) as [l1 c1]. cbn in H1.
  specialize (IH (l ++ l1) c1 H1). destruct (run es c1) as [l2 c2]. cbn in *. by rewrite app_assoc.
Qed.

(** C30: every call of the SDK ends at most once, with its own reply.  In any run
    of calls, inbound messages, lost connections, reconnects and Close, request
    ids are never reused, a call is settled at most once and only while it waits;
    when the current connection is lost every waiting call except the RPCs is
    settled as lost, and when the client is closed every waiting call is. *)
Theorem calls_settle_once es trans :
  let '(l, c) := run es (newClient trans) in
  NoDup (began l) ∧ NoDup (ended l) ∧
  (∀ key, key ∈ ended l → key ∈ began l) ∧
  (∀ key x, c_pending c !! key = Some x →
     key ∈ began l ∧ (key ∉ ended l) ∧
     (c_closed c = false → key.1 ≠ KRpc →
        Settle key.1 key.2 Lost ∈ (receive_error o (c_transport c) c).1 ∧
        c_pending (receive_error o (c_transport c) c).2 !! key = None) ∧
     Settle key.1 key.2 ClientClosed ∈ (Close c).1 ∧ c_pending (Close c).2 !! key = None).
Proof.
  pose proof (run_inv_run es [] (newClient trans)) as Hi. destruct (run es (newClient trans)) as [l c].
  destruct Hi as [Ho Hb Hu Hw _]; [split; try constructor; set_solver|].
  split_and!; [done..|]. intros key x Hx. destruct (Hw key x Hx) as [Hk1 Hk2]. split_and!; [done..| | |].
  - intros Hc Hk. unfold receive_error. rewrite Hc, bool_decide_eq_true_2 by done. cbn [negb orb].
    match goal with |- context [settle_kinds ?ks Lost ?c0] =>
      pose proof (settle_kinds_spec ks Lost c0 key x Hx) as Hs; destruct (settle_kinds ks Lost c0) as [es1 c1] end.
    rewrite bool_decide_eq_true_2 in Hs by (destruct key as [[] ?]; set_solver). cbn in *.
    destruct Hs as [Hin Hn]. split; [|done]. right. apply elem_of_app. by left.
  - unfold Close. match goal with |- context [settle_kinds ?ks ClientClosed ?c0] =>
      pose proof (settle_kinds_spec ks ClientClosed c0 key x Hx) as Hs; destruct (settle_kinds ks ClientClosed c0) as [es1 c1] end.
    rewrite bool_decide_eq_true_2 in Hs by (destruct key as [[] ?]; set_solver). cbn in *.
    destruct Hs as [Hin Hn]. apply elem_of_app. by left.
  - unfold Close. match goal with |- context [settle_kinds ?ks ClientClosed ?c0] =>
      pose proof (settle_kinds_spec ks ClientClosed c0 key x Hx) as Hs; destruct (settle_kinds ks ClientClosed c0) as [es1 c1] end.
    rewrite bool_decide_eq_true_2 in Hs by (destruct key as [[] ?]; set_solver). cbn in *. by destruct Hs.
Qed.

(** ** Subscriptions *)

Lemma write_back_lookup subs : ∀ m ch,
  NoDup (Handlers.sb_Channel <$> subs) →
  write_back subs m !! ch =
  match List.find (λ sub, bool_decide (Handlers.sb_Channel sub = ch)) subs with
  | Some sub => Some (merge_state (m !! ch) sub)
  | None => m !! ch
  end.
Proof.
  induction subs as [|sub subs IH]; intros m ch Hnd; [done|].
  rewrite fmap_cons in Hnd. apply NoDup_cons in Hnd as [Hni Hnd]. cbn [write_back foldl List.find].
  fold (write_back subs (<[Handlers.sb_Channel sub := merge_state (m !! Handlers.sb_Channel sub) sub]> m)).
  rewrite IH by done. rewrite lookup_insert. case_bool_decide as Hc; [rewrite decide_True by done|by rewrite decide_False].
  destruct (List.find _ subs) as [sub'|] eqn:Hf; [|by rewrite <-Hc].
  apply List.find_some in Hf as [Hin Hb]. apply bool_decide_eq_true in Hb. exfalso. apply Hni.
  rewrite Hc, <-Hb. apply list_elem_of_fmap_2. by apply list_elem_of_In.
Qed.

(** A Connected frame resynchronises the subscriptions.  A frame of a
    superseded connection, or after Close, changes nothing.  Otherwise the client
    is subscribed to exactly the channels the server lists, with the server's
    ephemeral flags and, unless the server sends one, its own tokens; and the
    next resume request names each of those channels once, asks for its recovery
    and carries its cursor if there is one. *)
Theorem connected_resyncs session epoch subs gen c :
  NoDup (Handlers.sb_Channel <$> subs) →
  let c' := (handleConnected o session epoch subs gen c).2 in
  if c_closed c || negb (bool_decide (c_generation c = gen)) then c' = c
  else
    (∀ ch, c_subscriptions c' !! ch =
       merge_state (c_subscriptions c !! ch) <$>
         List.find (λ sub, bool_decide (Handlers.sb_Channel sub = ch)) subs) ∧
    c_connected c' = true ∧ c_reconnecting c' = false ∧ c_sessionID c' = session ∧ c_epoch c' = epoch ∧
    NoDup (Handlers.sb_Channel <$> resumeSubscriptions c') ∧
    ∀ sub, sub ∈ resumeSubscriptions c' ↔ ∃ st, c_subscriptions c' !! Handlers.sb_Channel sub = Some st ∧
      sub = Handlers.mkSubscription (Handlers.sb_Channel sub) (ss_ephemeral st) (ss_token st) true
              (Some <$> c_channelOffsets c !! Handlers.sb_Channel sub) false.
Proof.
  intros Hnd. cbn zeta. unfold handleConnected. destruct (c_closed c || _); [done|].
  match goal with |- context [startPingLoop o ?x] => set (c1 := x) end. cbn [snd].
  assert (c_subscriptions (startPingLoop o c1) = c_subscriptions c1 ∧ c_channelOffsets (startPingLoop o c1) = c_channelOffsets c ∧
    c_connected (startPingLoop o c1) = true ∧ c_reconnecting (startPingLoop o c1) = false ∧
    c_sessionID (startPingLoop o c1) = session ∧ c_epoch (startPingLoop o c1) = epoch) as (E1 & E2 & E3 & E4 & E5 & E6).
  { unfold startPingLoop. destruct (_ <=? _)%Z; [done|]. destruct (c_pingCancel c1); done. }
  split_and!; [|done..| |].
  - intros ch. rewrite E1. cbn [c_subscriptions c1].
    destruct (List.find (λ sub, bool_decide (Handlers.sb_Channel sub = ch)) subs) as [sub|] eqn:Hf.
    + cbn [fmap option_fmap option_map]. apply map_lookup_filter_Some. rewrite write_back_lookup, Hf by done. split; [done|].
      cbn. apply List.find_some in Hf as [Hin Hb]. apply bool_decide_eq_true in Hb. subst ch.
      apply elem_of_list_to_set, list_elem_of_fmap_2. by apply list_elem_of_In.
    + cbn. apply map_lookup_filter_None. right. intros st _. cbn.
      intros Hin%elem_of_list_to_set%list_elem_of_fmap. destruct Hin as (sub & -> & Hin%list_elem_of_In).
      pose proof (List.find_none _ _ Hf sub Hin) as Hn. cbv beta in Hn. by apply bool_decide_eq_false in Hn.
  - unfold resumeSubscriptions. rewrite <-list_fmap_compose. rewrite E1.
    match goal with |- NoDup (?f <$> map_to_list ?m) => assert (f <$> map_to_list m = (map_to_list m).*1) as -> by done end.
    apply NoDup_fst_map_to_list.
  - intros sub. unfold resumeSubscriptions. rewrite list_elem_of_fmap, E2. split.
    + intros ([ch st] & -> & Hin%elem_of_map_to_list). by exists st.
    + intros (st & Hst & ->). exists (Handlers.sb_Channel sub, st). split; [done|]. by apply elem_of_map_to_list.
Qed.

(** The server reports every subscription as not ephemeral, so one reconnect
    makes the ephemeral subscriptions of the client persistent. *)
Theorem resume_forgets_ephemeral session epoch chs gen c :
  NoDup chs → c_closed c = false → c_generation c = gen →
  let c' := (handleConnected o session epoch (subscribe_list chs) gen c).2 in
  ∀ ch st, c_subscriptions c' !! ch = Some st → ss_ephemeral st = false.
Proof.
  intros Hnd Hc Hg. cbn zeta. intros ch st. unfold handleConnected. rewrite Hc, bool_decide_eq_true_2 by done.
  cbn [negb orb snd]. match goal with |- context [startPingLoop o ?x] => set (c1 := x) end.
  assert (c_subscriptions (startPingLoop o c1) = c_subscriptions c1) as ->.
  { unfold startPingLoop. destruct (_ <=? _)%Z; [done|]. destruct (c_pingCancel c1); done. }
  cbn [c_subscriptions c1]. intros [Hst Hin]%map_lookup_filter_Some. cbn in Hin.
  rewrite write_back_lookup in Hst by (unfold subscribe_list; rewrite <-list_fmap_compose; by rewrite list_fmap_id).
  destruct (List.find _ _) as [sub|] eqn:Hf.
  - apply List.find_some in Hf as [Hsub _]. apply list_elem_of_In, list_elem_of_fmap in Hsub as (x & -> & _).
    by injection Hst as <-.
  - exfalso. apply elem_of_list_to_set, list_elem_of_fmap in Hin as (sub & -> & Hin%list_elem_of_In).
    pose proof (List.find_none _ _ Hf sub Hin) as Hn. cbv beta in Hn. by apply bool_decide_eq_false in Hn.
Qed.

(** ** Pings *)

(** A client that connects again by hand after its ping loop has returned (the
    connection was half open) is connected without a ping loop: only the
    automatic reconnect clears pingCancel. *)
Theorem manual_reconnect_loses_pings session epoch uuid now trans1 trans2 :
  (0 < o_PingInterval o)%Z → o_AutoReconnect o = false →
  let hello g := EReceive uuid now (mkServerMessage "" (EvConnected session epoch [])) g in
  let c := (run [EConnect now trans1; hello 1%N; EPingReturns; ELost trans1; EConnect now trans2; hello 2%N]
              (newClient trans1)).2 in
  c_connected c = true ∧ c_pingCancel c = true ∧ c_pingLoop c = false.
Proof.
  intros Hp Ha. cbn zeta.
  assert ((o_PingInterval o <=? 0)%Z = false) as Hp' by (apply Z.leb_gt; lia).
  cbn [run step]. unfold Connect, begin_attempt, handleMessage, receive_error, handleConnected, startPingLoop.
  repeat first [progress cbn|rewrite Hp'|rewrite bool_decide_eq_true_2 by done]; done.
Qed.

(** ** Backoff *)

Lemma reconnectLoop_spec scale maxDelay maxAttempts : ∀ outcomes n delay,
  let l := (reconnectLoop scale maxDelay maxAttempts n delay outcomes).1 in
  l.*1 = seq n (length l) ∧ (∀ d, head l.*2 = Some d → d = delay) ∧
  Forall (λ d, d ≤ maxDelay)%Z (tail l.*2) ∧
  ((0 < maxAttempts)%Z → l = [] ∨ Z.of_nat (n + length l) ≤ maxAttempts + 1)%Z.
Proof.
  induction outcomes as [|x outcomes IH]; intros n delay; cbn zeta; [simpl; naive_solver|].
  cbn [reconnectLoop]. destruct x; [simpl; naive_solver|..];
    (destruct ((0 <? maxAttempts)%Z && (maxAttempts <? Z.of_nat n)%Z) eqn:Hm; [simpl; naive_solver|]).
  - simpl. naive_solver.
  - set (delay' := if (_ <? _)%Z then _ else _). specialize (IH (S n) delay').
    destruct (reconnectLoop _ _ _ (S n) delay' outcomes) as [l e]. cbn [fst] in *. cbn zeta in IH.
    destruct IH as (H1 & H2 & H3 & H4). cbn [fmap list_fmap fst snd length seq head tail]. split_and!.
    + f_equal. exact H1.
    + by intros d [= <-].
    + destruct l as [|[m d] l]; [constructor|]. cbn in *. constructor; [|done].
      rewrite (H2 d eq_refl). subst delay'. destruct (Z.ltb_spec maxDelay (scale delay)); lia.
    + intros Hpos. right. destruct (H4 Hpos) as [->|Hl]; [|cbn in *; lia].
      apply andb_false_iff in Hm as [Hm|Hm]; [apply Z.ltb_ge in Hm; lia|apply Z.ltb_ge in Hm]. cbn. lia.
  - cbn. split_and!; [done|by intros d [= <-]|constructor|]. intros Hpos. right.
    apply andb_false_iff in Hm as [Hm|Hm]; apply Z.ltb_ge in Hm; lia.
Qed.

Lemma reconnectLoop_gives_up scale maxDelay maxAttempts : ∀ k n delay,
  (0 < maxAttempts)%Z → (Z.of_nat (n + k) = maxAttempts + 1)%Z →
  let '(l, e) := reconnectLoop scale maxDelay maxAttempts n delay (replicate (S k) AFailed) in
  e = GaveUp ∧ length l = k.
Proof.
  induction k as [|k IH]; intros n delay Hpos Hn.
  - cbn. rewrite (proj2 (Z.ltb_lt 0 _)), (proj2 (Z.ltb_lt maxAttempts (Z.of_nat n))) by lia. done.
  - change (replicate (S (S k)) AFailed) with (AFailed :: replicate (S k) AFailed). cbn [reconnectLoop].
    rewrite (proj2 (Z.ltb_ge maxAttempts (Z.of_nat n))), andb_false_r by lia.
    set (d := if (maxDelay <? scale delay)%Z then maxDelay else scale delay).
    specialize (IH (S n) d Hpos ltac:(lia)).
    destruct (reconnectLoop _ _ _ (S n) d _) as [l e]. destruct IH as [-> <-]. done.
Qed.

(** Reconnecting is bounded.  The first attempt waits the initial delay, every
    later one at most the maximal delay; attempts are numbered from one; with a
    maximal number of attempts the loop makes no more than that many and, when
    they all fail, gives up. *)
Theorem reconnect_bounded scale maxDelay maxAttempts delay outcomes :
  let '(l, e) := reconnectLoop scale maxDelay maxAttempts 1 delay outcomes in
  l.*1 = seq 1 (length l) ∧
  (∀ d, head l.*2 = Some d → d = delay) ∧
  Forall (λ d, d ≤ maxDelay)%Z (tail l.*2) ∧
  ((0 < maxAttempts)%Z → Z.of_nat (length l) ≤ maxAttempts)%Z ∧
  ((0 < maxAttempts)%Z → outcomes = replicate (S (Z.to_nat maxAttempts)) AFailed →
     e = GaveUp ∧ Z.of_nat (length l) = maxAttempts).
Proof.
  pose proof (reconnectLoop_spec scale maxDelay maxAttempts outcomes 1 delay) as Hs.
  pose proof (reconnectLoop_gives_up scale maxDelay maxAttempts (Z.to_nat maxAttempts) 1 delay) as Hg.
  destruct (reconnectLoop _ _ _ 1 delay outcomes) as [l e] eqn:Hl. cbn zeta in Hs. cbn [fst] in Hs.
  destruct Hs as (H1 & H2 & H3 & H4). split_and!; [done..| |].
  - intros Hpos. destruct (H4 Hpos) as [->|?]; cbn; lia.
  - intros Hpos ->. rewrite Hl in Hg. destruct Hg as [-> Hlen]; [done|lia|]. split; [done|]. lia.
Qed.

End Client.

(** ** A concrete run *)

(** The server lists one of the client's two channels and a new one. *)
Definition resync_options : Options := mkOptions "c" "t" "" "" [] 0 true.
Definition resync_client : client :=
  mkClient "s" "e" false false true 2 1 ∅ 3 {[ "a:x" := mkState true "tok"; "a:y" := mkState false "" ]}
    {[ "a:x" := 4%Z ]} false false.
Definition resync_list : list Subscription := subscribe_list ["a:x"; "a:z"].

Lemma connected_resyncs_witness :
  NoDup (Handlers.sb_Channel <$> resync_list) ∧
  let c' := (handleConnected (J:=string) (A:=string) resync_options "s" "e" resync_list 2 resync_client).2 in
  c_subscriptions c' !! "a:x" = Some (mkState false "tok") ∧ c_subscriptions c' !! "a:y" = None.
Proof.
  assert (NoDup (Handlers.sb_Channel <$> resync_list)) as Hnd
    by (refine (proj1 (bool_decide_eq_true _) _); vm_compute; reflexivity).
  split; [exact Hnd|]. destruct (connected_resyncs (J:=string) (A:=string) resync_options "s" "e" resync_list 2 resync_client Hnd) as (Hs & _).
  cbn zeta. rewrite !Hs. split; vm_compute; reflexivity.
Defined.

End SdkClient.
