(* ===== verification/SdkCalls.v ===== *)
(** * SdkCalls: the operations of the Go SDK's client (sdks/go/client.go)

    Each operation is the request it sends and, for a call that waits, what it
    returns when the call is settled.  The clock, the outcome of the send and the
    uuid of a survey are arguments.  The operations are steps of the client's
    runs, so what SdkClient shows of runs holds of them. *)

From S2P Require Import Prelude Stream Handlers Occupancy SdkMessage SdkClient.
Import SdkClient.

Module SdkCalls.

Section Calls.
Context {J A : Type} (newStruct : A → option J) (asMap : J → A) (nilStruct : J).

Abbreviation Message := (SdkMessage.Message A).

(** ** Options *)

Inductive SubscribeOption :=
| WithEphemeral (ephemeral : bool)
| WithSubscriptionToken (token : string)
| WithRecover (cursor : option (option Z))
| WithFresh.

Definition apply_option (s : Subscription) (o : SubscribeOption) : Subscription :=
  let 'Handlers.mkSubscription ch eph tok rec cur fresh := s in
  match o with
  | WithEphemeral e => Handlers.mkSubscription ch e tok rec cur fresh
  | WithSubscriptionToken t => Handlers.mkSubscription ch eph t rec cur fresh
  | WithRecover cur => Handlers.mkSubscription ch eph tok true cur fresh
  | WithFresh => Handlers.mkSubscription ch eph tok true cur true
  end.

(** The only publish option is the token; the last one counts. *)
Definition WithPublishToken (p : Handlers.PublishMsg (J:=J)) (token : string) : Handlers.PublishMsg (J:=J) :=
  Handlers.mkPublish (Handlers.pb_Channel p) (Handlers.pb_Payload p) (Handlers.pb_Metadata p) token
    (Handlers.pb_Transient p).

(** ** Requests *)

Inductive call_error := NotConnected | ConvertFailed | SendFailed.

(** How an operation starts: an error, a panic, or a request on the wire.  For a
    call that waits, [id] is the call. *)
Inductive begun := Failed (e : call_error) | Panicked | Sent (id : string) (e : effect (J:=J) (A:=A)).

Section Operations.
Context (now : N) (sendOk : bool).

Definition send (env : Handlers.InEnvelope (J:=J)) (c : client) : begun * client :=
  if negb (c_connected c) then (Failed NotConnected, c) else
  match send_only now env c with
  | (Some e, c) => (if sendOk then Sent (msg_id now (c_nextMsgID c)) e else Failed SendFailed, c)
  | (None, c) => (Failed NotConnected, c)
  end.

Definition call (k : kind) (requestID : string) (env : Handlers.InEnvelope (J:=J)) (c : client) : begun * client :=
  if negb (c_connected c) then (Failed NotConnected, c) else
  match begin_call k requestID now env sendOk c with
  | (Some (id, e), c) => (Sent id e, c)
  | (None, c) => (Failed SendFailed, c)
  end.

(** The payload is converted after the connection is checked and before an id is
    drawn. *)
Definition with_payload (m : Message) (c : client) (k : Stream.PayloadV2 J → begun * client) : begun * client :=
  if negb (c_connected c) then (Failed NotConnected, c) else
  match SdkMessage.ToPayload newStruct nilStruct (SdkMessage.m_Data m) with
  | SdkMessage.Panics => (Panicked, c)
  | SdkMessage.PayloadError => (Failed ConvertFailed, c)
  | SdkMessage.PayloadOk p => k p
  end.

Definition sendSubscribe (subs : list Subscription) : client → begun * client := send (Handlers.InSubscribe subs).

Definition sendSubscribeAndWait (subs : list Subscription) : client → begun * client :=
  call KSub "" (Handlers.InSubscribe subs).

Definition Subscribe (channels : list string) : client → begun * client :=
  sendSubscribeAndWait (subscribe_list channels).

Definition SubscribeAsync (channels : list string) : client → begun * client :=
  sendSubscribe (subscribe_list channels).

Definition SubscribeWith (channel : string) (opts : list SubscribeOption) : client → begun * client :=
  sendSubscribeAndWait [foldl apply_option (Handlers.mkSubscription channel false "" false None false) opts].

Definition Unsubscribe (channels : list string) (c : client) : begun * client :=
  call KUnsub "" (Handlers.InUnsubscribe (unsubscribe_list c channels)) c.

Definition UnsubscribeAsync (channels : list string) (c : client) : begun * client :=
  send (Handlers.InUnsubscribe (unsubscribe_list c channels)) c.

Definition PublishWith (channel : string) (m : Message) (tokens : list string) (c : client) : begun * client :=
  with_payload m c (λ p, send (Handlers.InPublish
    (foldl WithPublishToken (Handlers.mkPublish channel (Some p) None "" false) tokens)) c).

Definition PublishWithAck (channel : string) (m : Message) (tokens : list string) (c : client) : begun * client :=
  with_payload m c (λ p, call KAck "" (Handlers.InPublish
    (foldl WithPublishToken (Handlers.mkPublish channel (Some p) None "" false) tokens)) c).

Definition Publish (channel : string) (m : Message) (transient : list bool) (c : client) : begun * client :=
  with_payload m c (λ p, send (Handlers.InPublish
    (Handlers.mkPublish channel (Some p) None "" (default false (head transient)))) c).

Definition RPC (channel method : string) (req : Message) (c : client) : begun * client :=
  with_payload req c (λ p, call KRpc "" (Handlers.InRpcRequest (Handlers.mkRpc channel method (Some p) None)) c).

Definition SubRefresh (channels : list string) : client → begun * client := send (Handlers.InSubRefresh channels).

Definition Presence (channel : string) : client → begun * client := call KPresence "" (Handlers.InPresenceQuery channel).

(** [int32(timeout.Milliseconds())]; the timeout is in nanoseconds. *)
Definition timeout_ms (timeout : Z) : Z :=
  if (0 <? timeout)%Z then Occupancy.i32 (timeout ÷ 1000000) else 0%Z.

Definition Survey (requestID channel : string) (payload : option Message) (timeout : Z) (c : client) : begun * client :=
  let k p := call KSurvey requestID
    (Handlers.InSurveyRequest (Handlers.mkSurveyRequest requestID p channel (timeout_ms timeout))) c in
  if negb (c_connected c) then (Failed NotConnected, c) else
  match payload with
  | None => k None
  | Some m => with_payload m c (λ p, k (Some p))
  end.

End Operations.

(** ** What a waiting call returns *)

Abbreviation settled := (SdkClient.settled (J:=J)).

Inductive call_result (R : Type) :=
| Returns (r : R)
| ServerError (e : Handlers.SharedError)
| ConnectionLost
| ClosedFirst          (* the client was closed *)
| NoReply.             (* a message that is no reply to this call *)

(** Subscribe and Unsubscribe. *)
Definition ack_result (v : settled) : call_result () :=
  match v with
  | GotAck => Returns _ ()
  | Rejected e => ServerError _ e
  | Lost => ConnectionLost _
  | ClientClosed => ClosedFirst _
  | _ => NoReply _
  end.

Definition publish_result (v : settled) : call_result Z :=
  match v with
  | GotOffset off => Returns _ off
  | Rejected e => ServerError _ e
  | Lost => ConnectionLost _
  | ClientClosed => ClosedFirst _
  | _ => NoReply _
  end.

(** The reply's payload, if any, is copied into the caller's response. *)
Definition rpc_result (uuid : string) (v : settled) : call_result (option Message) :=
  match v with
  | GotMessage m =>
    match sm_Envelope m with
    | EvError e _ => ServerError _ e
    | EvRpcReply _ (Some e) => ServerError _ e
    | EvRpcReply p None => Returns _ ((λ p, SdkMessage.PayloadToMessage asMap uuid (Some p) "") <$> p)
    | _ => NoReply _
    end
  | Lost => ConnectionLost _
  | ClientClosed => ClosedFirst _
  | _ => NoReply _
  end.

(** A snapshot also reaches the OnPresenceSnapshot handler. *)
Definition presence_result (v : settled) : call_result Handlers.PresenceSnapshot * list (effect (J:=J) (A:=A)) :=
  match v with
  | GotMessage m =>
    match sm_Envelope m with
    | EvError e _ => (ServerError _ e, [])
    | EvPresence s => (Returns _ s, [OnPresenceSnapshot s])
    | _ => (NoReply _, [])
    end
  | Lost => (ConnectionLost _, [])
  | ClientClosed => (ClosedFirst _, [])
  | _ => (NoReply _, [])
  end.

(** The answers come with the error of the result, if it has one. *)
Definition survey_result (v : settled) : call_result (list Handlers.SurveyAnswer * option Handlers.SharedError) :=
  match v with
  | GotSurvey r => Returns _ (sv_Answers r, sv_Error r)
  | Rejected e => ServerError _ e
  | Lost => ConnectionLost _
  | ClientClosed => ClosedFirst _
  | _ => NoReply _
  end.

(** ** The operations are steps of a run *)

Section Runs.
Context (o : Options) (h : SurveyHandlers (A:=A)).

Abbreviation step := (SdkClient.step newStruct asMap nilStruct o h).
Abbreviation run := (SdkClient.run newStruct asMap nilStruct o h).

(** What an operation that waits does to a run. *)
Definition is_call (k : kind) (rid : string) (now : N) (env : Handlers.InEnvelope (J:=J)) (ok : bool)
    (r : begun * client) (c : client) : Prop :=
  step (ECall k rid now env ok) c =
    (match r.1 with Sent id e => [Began (k, id); Did e] | _ => [] end, r.2) ∧
  (∀ id e, r.1 = Sent id e → e = SendTo (c_transport c) (Handlers.mkIn id 0 (Some env)) ∧
     id = msg_id now (c_nextMsgID r.2) ∧ c_pending r.2 = <[ (k, id) := rid ]> (c_pending c)).

Lemma call_is_call k rid now env ok c : is_call k rid now env ok (call now ok k rid env c) c.
Proof.
  unfold is_call, call. cbn [SdkClient.step]. unfold begin_call, generateID.
  destruct (c_connected c) eqn:Hc; cbn; rewrite ?Hc; cbn; [|done].
  destruct ok; cbn; (split; [done|]); [|done]. by intros id e [= <- <-].
Qed.

Lemma call_pending k rid now env ok c id e :
  (call now ok k rid env c).1 = Sent id e → c_pending (call now ok k rid env c).2 = <[ (k, id) := rid ]> (c_pending c).
Proof. intros Hs. by destruct (proj2 (call_is_call k rid now env ok c) id e Hs) as (_ & _ & ?). Qed.

Lemma call_frame k rid now env ok c :
  let c' := (call now ok k rid env c).2 in
  c_subscriptions c' = c_subscriptions c ∧ c_channelOffsets c' = c_channelOffsets c.
Proof. unfold call, begin_call, generateID. destruct (c_connected c) eqn:Hc; cbn; rewrite ?Hc; by destruct ok. Qed.

Lemma msg_id_nonempty now k : msg_id now k ≠ "".
Proof. unfold msg_id. intros Heq. by destruct (pretty now). Qed.

Lemma settle_waiting k id v x (c : client) :
  id ≠ "" → c_pending c !! (k, id) = Some x →
  or_ignore (settle_call (J:=J) (A:=A) k id v c) c = ([Settle k id v], set_pending c (delete (k, id) (c_pending c))).
Proof. intros Hid Hx. unfold settle_call. by rewrite bool_decide_eq_false_2, Hx by done. Qed.

(** ** Acknowledged subscriptions *)

Lemma call_sent k rid now env c id e c1 :
  call now true k rid env c = (Sent id e, c1) →
  id ≠ "" ∧ c_pending c1 = <[ (k, id) := rid ]> (c_pending c) ∧
  c_subscriptions c1 = c_subscriptions c ∧ c_channelOffsets c1 = c_channelOffsets c.
Proof.
  intros Hc. pose proof (call_is_call k rid now env true c) as [_ H1]. pose proof (call_frame k rid now env true c) as H2.
  rewrite Hc in H1, H2. destruct (H1 id e eq_refl) as (_ & -> & ?). by split; [apply msg_id_nonempty|].
Qed.

Lemma write_back_dom subs : ∀ m ch,
  is_Some (write_back subs m !! ch) ↔ is_Some (m !! ch) ∨ ch ∈ Handlers.sb_Channel <$> subs.
Proof.
  unfold write_back. induction subs as [|s subs IH]; intros m ch; cbn [foldl fmap list_fmap]; [set_solver|].
  rewrite IH, elem_of_cons. destruct (decide (Handlers.sb_Channel s = ch)) as [<-|Hne].
  - rewrite lookup_insert_eq. naive_solver.
  - rewrite lookup_insert_ne by done. naive_solver.
Qed.

Lemma delete_all_lookup {B} (chs : list string) : ∀ (m : gmap string B) ch,
  foldl (λ m ch, delete ch m) m chs !! ch = if bool_decide (ch ∈ chs) then None else m !! ch.
Proof.
  induction chs as [|x chs IH]; intros m ch; cbn [foldl]; [by rewrite bool_decide_eq_false_2 by set_solver|].
  rewrite IH. destruct (decide (x = ch)) as [<-|Hne].
  - rewrite lookup_delete_eq, (bool_decide_eq_true_2 (x ∈ x :: chs)) by set_solver. by case_bool_decide.
  - rewrite lookup_delete_ne by done. by rewrite (bool_decide_ext (ch ∈ x :: chs) (ch ∈ chs)) by set_solver.
Qed.

Lemma resume_names (c : client) ch :
  is_Some (c_subscriptions c !! ch) → ch ∈ Handlers.sb_Channel <$> resumeSubscriptions c.
Proof.
  intros [st Hst]. unfold resumeSubscriptions. rewrite <-list_fmap_compose. apply list_elem_of_fmap.
  exists (ch, st). split; [done|]. by apply elem_of_map_to_list.
Qed.

(** An acknowledged subscribe or unsubscribe has taken effect.  The
    acknowledgement that echoes the request's id ends the call with success.
    After a subscribe the client is subscribed to exactly the channels it was
    and those of the acknowledgement, which the next resume request names; after
    an unsubscribe neither a subscription nor a recovery cursor of the
    acknowledged channels is left, and no other one is lost. *)
Theorem acked_calls_take_effect uuid now gen subs presence c :
  (∀ channels id e c1, Subscribe now true channels c = (Sent id e, c1) →
     let '(es, c2) := handleMessage newStruct asMap nilStruct o h uuid now
       (mkServerMessage id (EvSubscribeAck subs presence)) gen c1 in
     Settle KSub id GotAck ∈ es ∧ c_pending c2 !! (KSub, id) = None ∧
     (∀ ch, is_Some (c_subscriptions c2 !! ch) ↔
        is_Some (c_subscriptions c !! ch) ∨ ch ∈ Handlers.sb_Channel <$> subs) ∧
     (∀ ch, ch ∈ Handlers.sb_Channel <$> subs → ch ∈ Handlers.sb_Channel <$> resumeSubscriptions c2)) ∧
  (∀ channels id e c1, Unsubscribe now true channels c = (Sent id e, c1) →
     let '(es, c2) := handleMessage newStruct asMap nilStruct o h uuid now
       (mkServerMessage id (EvUnsubscribeAck subs)) gen c1 in
     es = [Settle KUnsub id GotAck] ∧ c_pending c2 !! (KUnsub, id) = None ∧
     (∀ ch, (c_subscriptions c2 !! ch, c_channelOffsets c2 !! ch) =
        if bool_decide (ch ∈ Handlers.sb_Channel <$> subs) then (None, None)
        else (c_subscriptions c !! ch, c_channelOffsets c !! ch))).
Proof.
  split; intros channels id e c1 Hcall.
  - apply call_sent in Hcall as (Hid & Hp & Hsub & _). cbn [handleMessage sm_Id sm_Envelope].
    rewrite (settle_waiting KSub id GotAck "") by (done || by rewrite Hp, lookup_insert_eq).
    cbn [handleSubscribeAck set_subs set_pending c_pending c_subscriptions]. split_and!.
    + by left.
    + by rewrite lookup_delete_eq.
    + intros ch. by rewrite write_back_dom, Hsub.
    + intros ch Hin. apply resume_names. cbn. apply write_back_dom. by right.
  - apply call_sent in Hcall as (Hid & Hp & Hsub & Hoff). cbn [handleMessage sm_Id sm_Envelope].
    rewrite (settle_waiting KUnsub id GotAck "") by (done || by rewrite Hp, lookup_insert_eq).
    cbn [handleUnsubscribeAck set_subs set_pending set_offsets c_pending c_subscriptions c_channelOffsets].
    split_and!; [done|by rewrite lookup_delete_eq|].
    intros ch. rewrite !delete_all_lookup, Hsub, Hoff. by case_bool_decide.
Qed.

(** ** Calls get their own kind of reply *)

(** The ways a call of each kind can end. *)
Definition fits (k : kind) (v : settled) : bool :=
  match k, v with
  | _, ClientClosed => true
  | KRpc, GotMessage m => match sm_Envelope m with EvError _ _ | EvRpcReply _ _ => true | _ => false end
  | KPresence, GotMessage m => match sm_Envelope m with EvError _ _ | EvPresence _ => true | _ => false end
  | KAck, GotOffset _ | KSub, GotAck | KUnsub, GotAck | KSurvey, GotSurvey _ => true
  | (KAck | KSub | KUnsub | KSurvey), Rejected _ => true
  | (KAck | KSub | KUnsub | KSurvey | KPresence), Lost => true
  | _, _ => false
  end.

Definition effect_fits (e : effect (J:=J) (A:=A)) : Prop :=
  match e with Settle k _ v => fits k v = true | _ => True end.

Lemma settle_call_fits k id v (c : client) r :
  fits k v = true → settle_call (J:=J) (A:=A) k id v c = Some r → Forall effect_fits r.1.
Proof.
  intros Hf. unfold settle_call. case_bool_decide; [done|]. destruct (c_pending c !! _); [|done].
  intros [= <-]. by repeat constructor.
Qed.

Lemma or_ignore_fits k id v (c : client) :
  fits k v = true → Forall effect_fits (or_ignore (settle_call (J:=J) (A:=A) k id v c) c).1.
Proof.
  intros Hf. destruct (settle_call k id v c) as [r|] eqn:Hr; cbn; [by eapply settle_call_fits|constructor].
Qed.

Lemma settle_all_fits k v (c : client) : fits k v = true → Forall effect_fits (settle_all (J:=J) (A:=A) k v c).1.
Proof. intros Hf. cbn. apply Forall_fmap, Forall_true. by intros x. Qed.

Lemma settle_kinds_fits ks v : ∀ c : client,
  Forall (λ k, fits k v = true) ks → Forall effect_fits (settle_kinds (J:=J) (A:=A) ks v c).1.
Proof.
  induction ks as [|k ks IH]; intros c Hf; cbn [settle_kinds]; [constructor|]. apply Forall_cons in Hf as [Hk Hks].
  pose proof (settle_all_fits k v c Hk) as H1. destruct (settle_all k v c) as [e c1].
  specialize (IH c1 Hks). destruct (settle_kinds ks v c1). by apply Forall_app.
Qed.

Lemma error_envelope_fits id e dcode (c : client) :
  Forall effect_fits (handle_error_envelope (J:=J) (A:=A) id e dcode c).1.
Proof.
  unfold handle_error_envelope. cbn zeta.
  repeat match goal with
  | |- context [settle_call ?k id ?v c] =>
      let H := fresh in destruct (settle_call k id v c) as [r|] eqn:H; [by apply settle_call_fits in H|clear H]
  end.
  unfold deliverSurveyError. case_bool_decide; cbn [negb].
  - destruct (_ && _); [|by repeat constructor]. by apply settle_all_fits.
  - destruct (settle_call KSurvey id _ c) as [r|] eqn:Hr; [by apply settle_call_fits in Hr|by repeat constructor].
Qed.

Lemma survey_reply_fits now rid reply err (c : client) :
  Forall effect_fits (SendSurveyReply newStruct nilStruct now rid reply err c).1.
Proof.
  unfold SendSurveyReply, send_only. destruct (c_connected c) eqn:Hc; [|constructor]. cbn [negb].
  destruct reply as [m|]; [destruct (SdkMessage.ToPayload _ _ _)|]; cbn; rewrite ?Hc; by repeat constructor.
Qed.

Lemma handleMessage_fits uuid now msg gen (c : client) :
  Forall effect_fits (handleMessage newStruct asMap nilStruct o h uuid now msg gen c).1.
Proof.
  unfold handleMessage. cbn zeta. destruct (sm_Envelope msg) eqn:He; try by repeat constructor.
  - unfold handleConnected. destruct (_ || _); [constructor|]. destruct (c_reconnecting c); by repeat constructor.
  - apply error_envelope_fits.
  - pose proof (or_ignore_fits KSub (sm_Id msg) GotAck c eq_refl) as Hs. destruct (or_ignore _ _) as [e1 c1]. cbn in Hs |- *.
    apply Forall_app. split; [done|]. apply Forall_fmap, Forall_true. by intros x.
  - pose proof (or_ignore_fits KUnsub (sm_Id msg) GotAck c eq_refl) as Hs. by destruct (or_ignore _ _).
  - unfold handlePublication. destruct msgs; by repeat constructor.
  - apply or_ignore_fits. cbn. by rewrite He.
  - by apply or_ignore_fits.
  - destruct (settle_call KPresence _ _ c) as [r|] eqn:Hr; [|by repeat constructor].
    apply settle_call_fits in Hr; [done|]. cbn. by rewrite He.
  - unfold handleSurveyResult. destruct (List.find _ _) as [[[k id] x]|] eqn:Hf; [|constructor].
    apply List.find_some in Hf as [Hin _]. apply list_elem_of_In, elem_of_map_to_list in Hin.
    apply map_lookup_filter_Some in Hin as [_ Hk]. cbn in Hk. subst k. by repeat constructor.
  - unfold handleSurveyRequest. cbn zeta. destruct (onSurveyRequest h) as [f|].
    + destruct (f _ _ _); apply survey_reply_fits.
    + destruct (onSurvey h) as [f|]; [destruct (f _ _)|]; apply survey_reply_fits.
Qed.

Lemma step_fits e (c : client) :
  Forall (λ x, match x with Did e => effect_fits e | Began _ => True end) (step e c).1.
Proof.
  assert (∀ es, Forall effect_fits es → Forall (λ x, match x with Did e => effect_fits e | Began _ => True end) (Did <$> es))
    as Hdid by (intros es Hes; by apply Forall_fmap).
  destruct e; cbn [SdkClient.step].
  - unfold send_only. destruct (c_connected c); by repeat constructor.
  - unfold begin_call. destruct (c_connected c); cbn; [destruct sendOk|]; by repeat constructor.
  - constructor.
  - pose proof (handleMessage_fits uuid now msg gen c) as Hm. destruct (handleMessage _ _ _ _ _ _ _ _ _ _). by apply Hdid.
  - unfold receive_error. destruct (_ || _); [constructor|].
    pose proof (settle_kinds_fits [KAck; KSurvey; KPresence; KSub; KUnsub] Lost
      (set_flags c false (c_closed c) (c_reconnecting c)) ltac:(by repeat constructor)) as Hk.
    destruct (settle_kinds _ _ _) as [es c1]. apply Hdid. apply Forall_app; split; [by repeat constructor|].
    apply Forall_app; split; [done|]. destruct (o_AutoReconnect o); by repeat constructor.
  - unfold Close. pose proof (settle_kinds_fits [KRpc; KPresence; KSurvey; KAck; KSub; KUnsub] ClientClosed
      (set_ping (set_flags c false true (c_reconnecting c)) false false) ltac:(by repeat constructor)) as Hk.
    destruct (settle_kinds _ _ _) as [es c1]. apply Hdid. apply Forall_app; split; [done|by repeat constructor].
  - unfold Connect, begin_attempt, buildConnectMessage. by repeat constructor.
  - constructor.
  - unfold reconnect, begin_attempt, buildConnectMessage. by repeat constructor.
  - constructor.
Qed.

(** A call gets a reply of its own kind.  In any run of the client, whatever
    the server sends under whatever ids, a settled RPC returns a reply, an error,
    or fails because the client was closed; a publish returns an offset, a
    subscribe and an unsubscribe an acknowledgement, a presence query a snapshot,
    a survey its answers, or one of the failures: no call ends with a message
    that is no reply to it. *)
Theorem call_outcomes es (c : client) k id v :
  Did (Settle k id v) ∈ (run es c).1 →
  match k with
  | KRpc => ∀ uuid, rpc_result uuid v ≠ NoReply _ ∧ rpc_result uuid v ≠ ConnectionLost _
  | KAck => publish_result v ≠ NoReply _
  | KSub | KUnsub => ack_result v ≠ NoReply _
  | KPresence => (presence_result v).1 ≠ NoReply _
  | KSurvey => survey_result v ≠ NoReply _
  end.
Proof.
  intros Hin. assert (fits k v = true) as Hf.
  { revert c Hin. induction es as [|e es IH]; intros c; cbn [SdkClient.run]; [set_solver|].
    pose proof (step_fits e c) as Hs. destruct (step e c) as [l1 c1]. specialize (IH c1).
    destruct (run es c1) as [l2 c2]. cbn [fst]. intros [Hin|Hin]%elem_of_app; [|by apply IH].
    by apply (proj1 (Forall_forall _ _) Hs) in Hin. }
  destruct k, v; try done; cbn in Hf |- *; destruct (sm_Envelope m); try done.
  by destruct e.
Qed.

End Runs.
End Calls.

(** ** A concrete run *)

(** A client connects, calls an RPC and is answered. *)
Definition rpc_reply : ServerMessage (J:=string) :=
  mkServerMessage "7-2" (EvRpcReply (Some (Stream.mkPayloadV2 "text/plain" (Some (Stream.Payload_Text "ok")))) None).

Definition rpc_run : list (SdkClient.event (J:=string)) :=
  [EConnect 7 0; EReceive "u" 7 (mkServerMessage "" (EvConnected "s" "e" [])) 1;
   ECall KRpc "" 7 (Handlers.InRpcRequest (Handlers.mkRpc "a:x" "m" None None)) true; EReceive "u" 7 rpc_reply 1].

Lemma call_outcomes_witness :
  let l := (SdkClient.run (Some : string → option string) id "" (mkOptions "c" "t" "" "" [] 0 false)
    (mkSurveyHandlers None None) rpc_run (newClient 0)).1 in
  Did (Settle KRpc "7-2" (GotMessage rpc_reply)) ∈ l ∧
  rpc_result id "u" (GotMessage rpc_reply) ≠ NoReply _.
Proof.
  assert (Did (Settle KRpc "7-2" (GotMessage rpc_reply)) ∈ (SdkClient.run (Some : string → option string) id ""
    (mkOptions "c" "t" "" "" [] 0 false) (mkSurveyHandlers None None) rpc_run (newClient 0)).1) as Hin
    by (vm_compute; repeat (first [left|right])).
  split; [exact Hin|]. exact (proj1 (call_outcomes _ _ _ _ _ _ _ _ _ _ Hin "u")).
Defined.

End SdkCalls.
