(* ===== verification/SdkRecovery.v ===== *)
(** * SdkRecovery: the Go SDK against the server's recovery stream
      (sdks/go/client.go, internal/runtime/recover.go, internal/session/hub.go)

    The frames of the recovery stream and of the hub are given to the SDK's
    handlers, and the subscriptions of the SDK's resume request to the server's
    recovery: what the application sees of a lost connection. *)

From stdpp Require Import sorting.
From S2P Require Import Prelude Topics Policy Stream HubSubs MemoryBroker Directory Recover Effect Handlers SdkMessage SdkClient.
Import SdkClient.

Module SdkRecovery.

(** The publications after a cursor. *)
Abbreviation newer off := (List.filter (λ p, (off <? Stream.Offset p)%Z)).

Section Composition.
Context {J A : Type} (unmarshal : string → option J) (newStruct : A → option J) (asMap : J → A) (nilStruct : J).
Context (o : Options) (h : SurveyHandlers (A:=A)) (uuid : string) (now gen : N).

(** ** The server's frames as the SDK reads them *)

Definition publicationToClient (ch : string) (pub : Stream.Publication) (replay : bool) : WireMessage (J:=J) :=
  mkWireMessage ch (HubSubs.publicationID ch (Stream.Offset pub)) (Some (Some (Stream.Offset pub)))
    (Stream.PayloadProtoV2 unmarshal (Some pub)) replay.

Definition of_recovery (f : Recover.frame) : ServerMessage (J:=J) :=
  mkServerMessage ""
    match f with
    | Recover.FReplay ch pub => EvPublication [publicationToClient ch pub true]
    | Recover.FComplete c => EvRecoverComplete (Recover.rc_Channel c) (Some (snd (Recover.rc_Position c)))
    end.

(** A message of the hub's fan-out: live frames leave replay unset. *)
Definition of_live (m : HubSubs.Message J) : WireMessage (J:=J) :=
  mkWireMessage (HubSubs.msg_Channel m) (HubSubs.msg_Id m) (Some (snd (HubSubs.msg_Position m)))
    (HubSubs.msg_Payload m) false.

Fixpoint feed (msgs : list (ServerMessage (J:=J))) (c : client) : list (effect (J:=J) (A:=A)) * client :=
  match msgs with
  | [] => ([], c)
  | m :: msgs =>
    let '(e, c) := handleMessage newStruct asMap nilStruct o h uuid now m gen c in
    let '(es, c) := feed msgs c in (e ++ es, c)
  end.

Lemma feed_app a b c :
  feed (a ++ b) c = let '(e1, c1) := feed a c in let '(e2, c2) := feed b c1 in (e1 ++ e2, c2).
Proof.
  revert c. induction a as [|m a IH]; intros c; cbn [app feed]; [by destruct (feed b c)|].
  destruct (handleMessage _ _ _ _ _ _ _ _ _ _) as [e c1]. rewrite IH.
  destruct (feed a c1) as [e1 c2]. destruct (feed b c2). by rewrite app_assoc.
Qed.

(** What the application gets of a replayed publication. *)
Definition replayed (ch : string) (p : Stream.Publication) : effect (J:=J) (A:=A) :=
  OnMessage [messageFromEnv asMap uuid (publicationToClient ch p true)].

Lemma set_offsets_same (c : client) : set_offsets c (c_channelOffsets c) = c.
Proof. by destruct c. Qed.

Lemma feed_replays ch pubs c :
  feed (of_recovery <$> (Recover.FReplay ch <$> pubs)) c = (replayed ch <$> pubs, c).
Proof.
  induction pubs as [|p pubs IH]; [done|]. cbn [fmap list_fmap feed].
  assert (handleMessage newStruct asMap nilStruct o h uuid now (of_recovery (Recover.FReplay ch p)) gen c =
    ([replayed ch p], c)) as -> by (cbn; by rewrite set_offsets_same).
  by rewrite IH.
Qed.

(** ** One resume *)

(** The cursor after a replay. *)
Definition cursor_after (off : Z) (pubs : list Stream.Publication) : Z :=
  default off (Recover.last_offset (Some off) pubs).

Section Resume.
Context (policy : string → Policy.ChannelPolicy) (epoch : string) (delivered : string → Z).

(** One channel of a resume request, recovered by the server and received by the
    client: the callbacks, the client afterwards and the complete frames.  A resume
    on another node has the session's snapshot. *)
Definition resume (snapshot : option Directory.ClusterSessionSnapshot) (history : string → Z → Z → option Stream.HistoryPage) (send : Stream.Publication → bool)
    (quota : Z) (ch : string) (c : client)
    : option (list (effect (J:=J) (A:=A)) * client * list Recover.RecoverComplete) :=
  sub ← List.find (λ sub, bool_decide (Handlers.sb_Channel sub = ch)) (resumeSubscriptions c);
  let fs := fst (fst (Recover.recoverSubscription policy history send epoch delivered (Handlers.to_recover sub) snapshot quota)) in
  Some (feed (of_recovery <$> fs) c, Recover.completes fs).

(** Where the server starts: the client's cursor, or what the snapshot records for
    the channel, unless the history started over since. *)
Definition starts_at (snapshot : option Directory.ClusterSessionSnapshot) (ch : string) (cursor : Z) : option Z :=
  match snapshot with
  | None => Some cursor
  | Some s =>
      if negb (bool_decide (Directory.sn_BrokerEpoch s = "")) && negb (bool_decide (epoch = "")) &&
         negb (bool_decide (Directory.sn_BrokerEpoch s = epoch)) then None
      else Directory.sn_ChannelOffsets s !! ch
  end.

Definition recoverable (ch : string) : Prop :=
  ch ≠ "" ∧ Topics.IsWildcard ch = false ∧ Policy.Recover (policy ch) = true ∧
  Policy.History (policy ch) = true ∧ Policy.TransientOnly (policy ch) = false.

Lemma resume_find (c : client) ch st :
  c_subscriptions c !! ch = Some st →
  List.find (λ sub, bool_decide (Handlers.sb_Channel sub = ch)) (resumeSubscriptions c) =
    Some (Handlers.mkSubscription ch (ss_ephemeral st) (ss_token st) true (Some <$> c_channelOffsets c !! ch) false).
Proof.
  intros Hst. destruct (List.find _ _) as [sub|] eqn:Hf.
  - apply List.find_some in Hf as [Hin Hch]. apply bool_decide_eq_true in Hch.
    apply list_elem_of_In, list_elem_of_fmap in Hin as ([ch' st'] & -> & Hin%elem_of_map_to_list).
    cbn in Hch |- *. by simplify_eq.
  - exfalso.
    assert (Handlers.mkSubscription ch (ss_ephemeral st) (ss_token st) true (Some <$> c_channelOffsets c !! ch) false
      ∈ resumeSubscriptions c) as Hin%list_elem_of_In.
    { apply list_elem_of_fmap. exists (ch, st). split; [done|]. by apply elem_of_map_to_list. }
    pose proof (List.find_none _ _ Hf _ Hin) as Hn. by apply bool_decide_eq_false in Hn.
Qed.

(** A channel with a cursor: the application gets the publications after the
    server's start and the cursor moves over them. *)
Lemma resume_one snapshot history log `{!Recover.HistoryContract history log} send quota ch st cursor off (c : client) :
  recoverable ch → starts_at snapshot ch cursor = Some off → (0 ≤ off)%Z → (off + 1 < u64_modulus)%Z → (0 < Recover.recover_limit policy ch quota)%Z →
  (∀ p, p ∈ log ch → send p = true) →
  c_subscriptions c !! ch = Some st → c_channelOffsets c !! ch = Some cursor →
  ∃ pubs done,
    resume snapshot history send quota ch c =
      Some (replayed ch <$> pubs, set_offsets c (<[ ch := cursor_after off pubs ]> (c_channelOffsets c)), [done]) ∧
    (Recover.rc_Gap done = false → pubs `prefix_of` newer off (log ch)) ∧
    (Recover.rc_Gap done = false → Recover.rc_Truncated done = false → pubs = newer off (log ch)).
Proof.
  intros (Hch & Hw & Hr & Hh & Ht) Hstart H0 H64 Hlim Hsend Hst Hoff.
  unfold resume. rewrite (resume_find c ch st Hst), Hoff. cbn [mbind option_bind fmap option_fmap option_map].
  set (sub := Handlers.mkSubscription ch (ss_ephemeral st) (ss_token st) true (Some (Some cursor)) false).
  destruct (Recover.recoverSubscription_from policy history send epoch delivered log (Handlers.to_recover sub) snapshot
    quota off) as (pubs & gap & reason & status & Hrec & Hst' & Hgap & Hfull); [done| | |done..|].
  { unfold Recover.recoverySkip. cbn [Handlers.to_recover sub Recover.su_Recover Recover.su_Channel Recover.su_Fresh
      Recover.su_Cursor Handlers.sb_Channel Handlers.sb_Recover Handlers.sb_Cursor Handlers.sb_Fresh negb].
    rewrite Hw, Hr, Hh, Ht. cbn [negb orb]. destruct snapshot as [s|]; [|done]. unfold starts_at in Hstart.
    destruct (_ && _ && _); [done|]. by rewrite bool_decide_eq_true_2 by (by rewrite Hstart). }
  { unfold Recover.recoveryCursor. cbn [Handlers.to_recover sub Recover.su_Channel Recover.su_Fresh
      Recover.su_Cursor Handlers.sb_Channel Handlers.sb_Cursor Handlers.sb_Fresh]. unfold starts_at in Hstart.
    destruct snapshot as [s|]; [|by injection Hstart as ->]. destruct (_ && _ && _); [done|]. by rewrite Hstart. }
  rewrite Hrec. cbn [fst]. eexists pubs, _. split; [|split].
  - rewrite Recover.completes_app, Recover.completes_fmap, fmap_app, feed_app, feed_replays.
    cbn [fmap list_fmap feed of_recovery Recover.finishRecovery handleMessage sm_Envelope].
    unfold handleRecoverComplete. cbn [Recover.rc_Channel Recover.rc_Position snd].
    rewrite bool_decide_eq_false_2 by done. cbn [app]. rewrite app_nil_r.
    assert (∀ m, write_offset ch (Some (Recover.last_offset (Some off) pubs)) m = <[ ch := cursor_after off pubs ]> m)
      as Hw' by (intros m; unfold cursor_after, Recover.last_offset; by destruct (last pubs)).
    change (Recover.su_Channel (Handlers.to_recover sub)) with ch. by rewrite Hw'.
  - intros Hg. rewrite (Hgap Hg). apply prefix_take.
  - intros Hg Htr. apply Hfull; [exact Hg|]. destruct Hst' as [Hok| ->]; [exact Hok|discriminate Htr].
Qed.

(** ** Consecutive resumes *)

Abbreviation before := (λ p q : Stream.Publication, (Stream.Offset p < Stream.Offset q)%Z).

Lemma newer_sorted off l : StronglySorted before l → StronglySorted before (newer off l).
Proof.
  induction 1 as [|p l Hs IH Hall]; [constructor|]. cbn. destruct (_ <? _)%Z; [|done].
  constructor; [done|]. apply Forall_forall. intros q [Hq _]%list_elem_of_In%List.filter_In.
  rewrite Forall_forall in Hall. by apply Hall, list_elem_of_In.
Qed.

Lemma newer_newer off off' l : (off ≤ off')%Z → newer off' l = newer off' (newer off l).
Proof.
  intros Hle. induction l as [|p l IH]; [done|]. cbn [List.filter].
  destruct (Z.ltb_spec off (Stream.Offset p)); cbn [List.filter]; [by rewrite IH|].
  by rewrite (proj2 (Z.ltb_ge off' _)) by lia.
Qed.

Lemma newer_none off l : Forall (λ p, Stream.Offset p ≤ off)%Z l → newer off l = [].
Proof. induction 1 as [|p l Hp _ IH]; [done|]. cbn. by rewrite (proj2 (Z.ltb_ge _ _)) by lia. Qed.

Lemma newer_all off l : Forall (λ p, off < Stream.Offset p)%Z l → newer off l = l.
Proof. induction 1 as [|p l Hp _ IH]; [done|]. cbn. by rewrite (proj2 (Z.ltb_lt _ _)), IH by lia. Qed.

(** The publications after a cursor are those already replayed, followed by
    those after the cursor the replay leaves. *)
Lemma newer_split off l pubs :
  StronglySorted before l → pubs `prefix_of` newer off l →
  newer off l = pubs ++ newer (cursor_after off pubs) l.
Proof.
  intros Hs [rest Hr]. unfold cursor_after, Recover.last_offset.
  destruct (last pubs) as [x|] eqn:Hx; [|by apply last_None in Hx as ->].
  apply last_Some in Hx as [pubs' ->]. change (default off (Some (Stream.Offset x))) with (Stream.Offset x).
  assert (x ∈ newer off l) as [_ Hb]%list_elem_of_In%List.filter_In by (rewrite Hr; set_solver).
  apply (newer_sorted off) in Hs. rewrite (newer_newer off (Stream.Offset x)) by lia. rewrite Hr in Hs |- *. f_equal.
  rewrite List.filter_app. rewrite StronglySorted_app in Hs. destruct Hs as (Hx & Hl & _).
  rewrite StronglySorted_app in Hl. destruct Hl as (Hl & _).
  rewrite newer_none, newer_all; [done|..]; apply Forall_forall; intros q Hq.
  - apply Hx; set_solver.
  - apply elem_of_app in Hq as [Hq|Hq%list_elem_of_singleton]; [|by subst].
    apply Z.lt_le_incl, Hl; set_solver.
Qed.

Lemma cursor_after_app off a b : cursor_after off (a ++ b) = cursor_after (cursor_after off a) b.
Proof. unfold cursor_after, Recover.last_offset. rewrite last_app. destruct (last b); [done|]. by destruct (last a). Qed.

Lemma cursor_after_bounds off l pubs :
  pubs `prefix_of` newer off l → (0 ≤ off)%Z → (off + 1 < u64_modulus)%Z →
  (∀ p, p ∈ l → (Stream.Offset p + 1 < u64_modulus)%Z) →
  (0 ≤ cursor_after off pubs)%Z ∧ (cursor_after off pubs + 1 < u64_modulus)%Z.
Proof.
  intros [rest Hr] H0 H64 Hall. unfold cursor_after, Recover.last_offset.
  destruct (last pubs) as [x|] eqn:Hx; [|done]. apply last_Some in Hx as [pubs' ->].
  assert (x ∈ newer off l) as [Hin Hb]%list_elem_of_In%List.filter_In by (rewrite Hr; set_solver).
  apply list_elem_of_In, Hall in Hin. cbn. lia.
Qed.

(** C29: what consecutive reconnects deliver.  A client with a cursor on a channel
    reconnects twice, and publications are appended to the channel in between; all
    sends of the server succeed.  Each recovery starts at the client's cursor, or,
    when the resume is on another node, at the offset the session's snapshot
    records.  Unless the server reports a gap, each recovery delivers to the
    application, each once and in log order, a prefix of the publications after
    its start (all of them unless the recovery is truncated), and the cursor becomes
    the offset of the last one (the start, if there was none).  If the second
    recovery starts at the cursor the first one left (always so on the same node),
    then both together deliver a prefix of the publications after the first start,
    nothing twice and nothing skipped, and all of them if the second one is not
    truncated, even if the first was cut by the limit. *)
Theorem resumes_tile snap1 snap2 history1 history2 log1 log2 `{!Recover.HistoryContract history1 log1}
    `{!Recover.HistoryContract history2 log2} send1 send2 quota1 quota2 ch st cursor off extra (c : client) :
  recoverable ch → starts_at snap1 ch cursor = Some off → (0 ≤ off)%Z →
  c_subscriptions c !! ch = Some st → c_channelOffsets c !! ch = Some cursor →
  log2 ch = log1 ch ++ extra → StronglySorted before (log2 ch) →
  (off + 1 < u64_modulus)%Z → (∀ p, p ∈ log2 ch → (Stream.Offset p + 1 < u64_modulus)%Z) →
  (∀ p, p ∈ log1 ch → send1 p = true) → (∀ p, p ∈ log2 ch → send2 p = true) →
  (0 < Recover.recover_limit policy ch quota1)%Z → (0 < Recover.recover_limit policy ch quota2)%Z →
  ∃ es1 c1 done1,
    resume snap1 history1 send1 quota1 ch c = Some (es1, c1, [done1]) ∧
    (Recover.rc_Gap done1 = false → ∃ pubs1,
       es1 = replayed ch <$> pubs1 ∧ pubs1 `prefix_of` newer off (log1 ch) ∧
       (Recover.rc_Truncated done1 = false → pubs1 = newer off (log1 ch)) ∧
       ∀ off2, starts_at snap2 ch (cursor_after off pubs1) = Some off2 → (0 ≤ off2)%Z → (off2 + 1 < u64_modulus)%Z →
       ∃ es2 c2 done2,
         resume snap2 history2 send2 quota2 ch c1 = Some (es2, c2, [done2]) ∧
         (Recover.rc_Gap done2 = false → ∃ pubs2,
            es2 = replayed ch <$> pubs2 ∧ pubs2 `prefix_of` newer off2 (log2 ch) ∧
            c2 = set_offsets c (<[ ch := cursor_after off2 pubs2 ]> (c_channelOffsets c)) ∧
            (Recover.rc_Truncated done2 = false → pubs2 = newer off2 (log2 ch)) ∧
            (off2 = cursor_after off pubs1 →
               (pubs1 ++ pubs2) `prefix_of` newer off (log2 ch) ∧
               (Recover.rc_Truncated done2 = false → pubs1 ++ pubs2 = newer off (log2 ch))))).
Proof.
  intros Hrec Hstart Hnn Hst Hoff Hlog Hsort H64 Hall64 Hs1 Hs2 Hl1 Hl2.
  destruct (resume_one snap1 history1 log1 send1 quota1 ch st cursor off c) as (pubs1 & d1 & -> & Hp1 & Hf1); [done..|].
  eexists _, _, d1. split; [reflexivity|]. intros Hg1. specialize (Hp1 Hg1). exists pubs1.
  split; [done|]. split; [done|]. split; [by apply Hf1|]. intros off2 Hstart2 H02 H642.
  assert (pubs1 `prefix_of` newer off (log2 ch)) as Hp
    by (rewrite Hlog, List.filter_app; by apply prefix_app_r).
  pose proof (newer_split off (log2 ch) pubs1 Hsort Hp) as Hsplit.
  destruct (resume_one snap2 history2 log2 send2 quota2 ch st (cursor_after off pubs1) off2
    (set_offsets c (<[ ch := cursor_after off pubs1 ]> (c_channelOffsets c)))) as (pubs2 & d2 & -> & Hp2 & Hf2);
    [done..|by cbn; rewrite lookup_insert_eq|].
  eexists _, _, d2. split; [reflexivity|]. intros Hg2. exists pubs2. split; [done|]. split; [by apply Hp2|].
  split; [destruct c; unfold set_offsets; cbn; by rewrite insert_insert_eq|]. split; [by apply Hf2|].
  intros ->. rewrite Hsplit. split; [by apply prefix_app, Hp2|]. intros Ht. by rewrite Hf2.
Qed.

(** ** Transient publications *)

(** C40: a transient publication rewinds the cursor.  The hub sends it with
    offset 0 set, and the SDK takes that for its position: whatever the cursor
    was, the next resume asks for the history from its start and, without gap
    or truncation, every publication of the log is delivered again. *)
Theorem transient_rewinds_cursor {Enc : Type} (w : HubSubs.Wire J Enc) history log
    `{!Recover.HistoryContract history log} send quota ch st pub fresh (c : client) :
  recoverable ch → c_subscriptions c !! ch = Some st → Stream.Offset pub = 0%Z →
  (∀ p, p ∈ log ch → (0 < Stream.Offset p)%Z ∧ send p = true) → (0 < Recover.recover_limit policy ch quota)%Z →
  let live := mkServerMessage "" (EvPublication [of_live (HubSubs.makeMessage w ch pub fresh)]) in
  let c' := (feed [live] c).2 in
  c_channelOffsets c' !! ch = Some 0%Z ∧
  ∃ es c'' done, resume None history send quota ch c' = Some (es, c'', [done]) ∧
    (Recover.rc_Gap done = false → Recover.rc_Truncated done = false → es = replayed ch <$> log ch).
Proof.
  intros Hrec Hst Hpub Hlog Hlim. cbn zeta. cbn [feed handleMessage sm_Envelope handlePublication snd fst].
  assert (c_channelOffsets (set_offsets c (foldl advance (c_channelOffsets c)
    [of_live (HubSubs.makeMessage w ch pub fresh)])) !! ch = Some 0%Z) as Hoff
    by (cbn; unfold write_offset; cbn; by rewrite Hpub, lookup_insert_eq).
  split; [exact Hoff|].
  destruct (resume_one None history log send quota ch st 0 0 (set_offsets c (foldl advance (c_channelOffsets c)
    [of_live (HubSubs.makeMessage w ch pub fresh)]))) as (pubs & d & Hres & _ & Hf);
    [exact Hrec|done|done|done|exact Hlim|intros p Hp; by apply Hlog|exact Hst|exact Hoff|].
  eexists _, _, d. split; [exact Hres|]. intros Hg Ht. rewrite (Hf Hg Ht), newer_all; [done|].
  apply Forall_forall. naive_solver.
Qed.

End Resume.
End Composition.

(** ** Concrete runs *)

Definition run_options : Options := mkOptions "c" "t" "" "" [] 0 true.
Definition run_handlers : SurveyHandlers (A:=string) := mkSurveyHandlers None None.

(** A client with cursor 1 on the channel of [Recover.recover_ops]. *)
Definition run_client : client :=
  mkClient "s" "e" false false true 1 0 ∅ 0 {[ "acme:im.x" := mkState false "" ]} {[ "acme:im.x" := 1%Z ]} false false.

Abbreviation run_resume_with := (resume (λ _, None) (Some : string → option string) id "" run_options run_handlers "u" 0 1
  Recover.all_default "e" (λ _, 0%Z)).
Abbreviation run_resume := (run_resume_with None).

(** The channel when the connection was lost: two of the three publications. *)
Definition lost_ops : list MemoryBroker.op := take 2 Recover.recover_ops.

#[local] Instance lost_contract : Recover.HistoryContract (MemoryBroker.History (Recover.broker_after lost_ops))
    (MemoryBroker.log_of (Recover.spec_after lost_ops)).
Proof.
  apply (Recover.memory_history_contract 16 eq_refl "e").
  - apply Recover.broker_after_sim. vm_compute. by eexists.
  - intros ch. apply Recover.small_logs. vm_compute. reflexivity.
Qed.

#[local] Existing Instance Recover.recover_contract.

Definition text_wire : HubSubs.Wire string unit :=
  HubSubs.mkWire (λ _, tt) (λ _, false) (λ _ _, None) (λ _ _ _, true) (λ _, None) "" (λ _, false) id.

Definition transient_pub : Stream.Publication := Stream.emptyPub "" ∅.

(** Gap and truncation as the complete frame of a resume reports them. *)
Definition report {X : Type} (r : option (X * list Recover.RecoverComplete)) : option (bool * bool) :=
  r ← r; (λ d, (Recover.rc_Gap d, Recover.rc_Truncated d)) <$> head r.2.

Lemma default_recoverable : recoverable Recover.all_default "acme:im.x".
Proof. split_and!; [discriminate|vm_compute; reflexivity..]. Qed.

(** Cursor 1, and the second resume on another node, whose snapshot records that
    offset 2 was delivered. *)
Definition moved_snapshot : Directory.ClusterSessionSnapshot :=
  Directory.mkSnapshot "s" "u" "acme" "c" true "" 0 [Directory.mkSubSnap "acme:im.x" false] {[ "acme:im.x" := 2%Z ]} "e" ∅ 0.

Lemma resumes_tile_witness : ∃ es1 c1 es2 c2 done1 done2 pubs,
  run_resume (MemoryBroker.History (Recover.broker_after lost_ops)) (λ _, true) 1000 "acme:im.x" run_client =
    Some (es1, c1, [done1]) ∧
  run_resume_with (Some moved_snapshot) (MemoryBroker.History Recover.recover_broker) (λ _, true) 1000 "acme:im.x" c1 =
    Some (es2, c2, [done2]) ∧
  es1 ++ es2 = replayed (λ _, None) (id : string → string) "u" "acme:im.x" <$> pubs ∧
  pubs = newer 1 (MemoryBroker.log_of Recover.recover_spec "acme:im.x").
Proof.
  destruct (resumes_tile (λ _, None) (Some : string → option string) id "" run_options run_handlers "u" 0 1
    Recover.all_default "e" (λ _, 0%Z) None (Some moved_snapshot) (MemoryBroker.History (Recover.broker_after lost_ops))
    (MemoryBroker.History Recover.recover_broker) (MemoryBroker.log_of (Recover.spec_after lost_ops))
    (MemoryBroker.log_of Recover.recover_spec) (λ _, true) (λ _, true) 1000 1000 "acme:im.x" (mkState false "") 1 1
    (drop 2 (MemoryBroker.log_of Recover.recover_spec "acme:im.x")) run_client) as (es1 & c1 & d1 & H1 & H2).
  - exact default_recoverable.
  - reflexivity.
  - lia.
  - vm_compute. reflexivity.
  - vm_compute. reflexivity.
  - vm_compute. reflexivity.
  - vm_compute. repeat constructor.
  - vm_compute. reflexivity.
  - apply Forall_forall. refine (proj1 (bool_decide_eq_true _) _). vm_compute. reflexivity.
  - reflexivity.
  - reflexivity.
  - vm_compute. reflexivity.
  - vm_compute. reflexivity.
  - assert (report (Some (es1, c1, [d1])) = Some (false, false)) as [= Hg1 Ht1] by (rewrite <-H1; vm_compute; reflexivity).
    destruct (H2 Hg1) as (pubs1 & Hes1 & _ & Hall1 & Hnext). specialize (Hall1 Ht1).
    assert (cursor_after 1 pubs1 = 2%Z) as Hcur by (rewrite Hall1; vm_compute; reflexivity).
    destruct (Hnext 2%Z) as (es2 & c2 & d2 & H3 & H4); [rewrite Hcur; vm_compute; reflexivity|lia|vm_compute; reflexivity|].
    assert (report (r ← Some (es1, c1, [d1]);
      run_resume_with (Some moved_snapshot) (MemoryBroker.History Recover.recover_broker) (λ _, true) 1000 "acme:im.x" r.1.2) =
      Some (false, false)) as Hg2 by (rewrite <-H1; vm_compute; reflexivity).
    cbn [mbind option_bind fst snd] in Hg2. rewrite H3 in Hg2. injection Hg2 as Hg2 Ht2.
    destruct (H4 Hg2) as (pubs2 & Hes2 & _ & _ & _ & Htile).
    exists es1, c1, es2, c2, d1, d2, (pubs1 ++ pubs2). split; [exact H1|]. split; [exact H3|].
    split; [by rewrite fmap_app, Hes1, Hes2|]. apply Htile; [symmetry; exact Hcur|exact Ht2].
Defined.

Lemma transient_rewinds_cursor_witness :
  let live := mkServerMessage "" (EvPublication [of_live (HubSubs.makeMessage text_wire "acme:im.x" transient_pub "u2")]) in
  let c := (feed (Some : string → option string) id "" run_options run_handlers "u" 0 1 [live] run_client).2 in
  ∃ es c' done, run_resume (MemoryBroker.History Recover.recover_broker) (λ _, true) 1000 "acme:im.x" c =
    Some (es, c', [done]) ∧ c_channelOffsets c !! "acme:im.x" = Some 0%Z.
Proof.
  destruct (transient_rewinds_cursor (λ _, None) (Some : string → option string) id "" run_options run_handlers "u" 0 1
    Recover.all_default "e" (λ _, 0%Z) text_wire (MemoryBroker.History Recover.recover_broker)
    (MemoryBroker.log_of Recover.recover_spec) (λ _, true) 1000 "acme:im.x" (mkState false "") transient_pub "u2"
    run_client) as (H1 & es & c' & d & H2 & _).
  - exact default_recoverable.
  - vm_compute. reflexivity.
  - reflexivity.
  - intros p Hp. split; [|reflexivity]. revert p Hp. apply Forall_forall. vm_compute. repeat constructor.
  - vm_compute. reflexivity.
  - exists es, c', d. auto.
Defined.

End SdkRecovery.
