(* ===== verification/SdkPing.v ===== *)
(** * SdkPing: the ping loop of the Go SDK (sdks/go/client.go)

    The loop, the pongs the receive loop records and the timers as interleaved
    steps with explicit time (nanoseconds).  A step of the loop is one case of
    its select. *)

From S2P Require Import Prelude.

Module SdkPing.

Inductive status := Running | Returned | TransportClosed.

#[export] Instance status_eq_dec : EqDecision status.
Proof. solve_decision. Defined.

(** What happened, newest first. *)
Inductive event := PingSent (at_ : Z) | PongSeen (at_ : Z) | HalfOpen (at_ : Z).

Record loop := mkLoop {
  now : Z;
  ticker : Z;               (* when the next tick is due *)
  timerCh : option Z;       (* when the deadline is due; None: nil, or its value was taken *)
  armedAt : option Z;       (* None: the zero time *)
  lastPong : Z;
  pongCh : bool;            (* the channel of capacity one is full *)
  connected : bool;
  state : status;
  log : list event;
}.

Inductive label :=
| Elapse (d : Z)
| Pong                      (* handlePong stores the time *)
| Signal                    (* handlePong sends on pongCh, or drops *)
| Lost                      (* the receive loop clears connected *)
| Cancel                    (* the loop sees its context cancelled *)
| TakePong
| Deadline
| Tick (sendOk : bool).

Section Loop.
Context (PingInterval PingTimeout : Z).

(** startPingLoop: lastPong starts at the current time. *)
Definition start (t : Z) : loop := mkLoop t (t + PingInterval) None None t false true Running [].

Definition arm (s : loop) : option Z * option Z :=
  if (PingTimeout <=? 0)%Z then (None, None) else (Some (now s + PingTimeout)%Z, Some (now s)).

(** Ticks the loop was too slow for are dropped. *)
Definition next_tick (s : loop) : Z :=
  (ticker s + PingInterval * (1 + (now s - ticker s) / PingInterval))%Z.

Definition answered (s : loop) : bool :=
  match armedAt s with None => true | Some a => (a <=? lastPong s)%Z end.

Definition exec_label (l : label) (s : loop) : option loop :=
  let 'mkLoop t tk ch at_ pong pc conn st lg := s in
  match l with
  | Elapse d => guard (0 < d)%Z;; Some (mkLoop (t + d) tk ch at_ pong pc conn st lg)
  | Pong => Some (mkLoop t tk ch at_ t pc conn st (PongSeen t :: lg))
  | Signal => Some (mkLoop t tk ch at_ pong true conn st lg)
  | Lost => Some (mkLoop t tk ch at_ pong pc false st lg)
  | Cancel => guard (st = Running);; Some (mkLoop t tk ch at_ pong pc conn Returned lg)
  | TakePong => guard (st = Running);; guard (pc = true);; Some (mkLoop t tk None None pong false conn st lg)
  | Deadline => guard (st = Running);; due ← ch; guard (due ≤ t)%Z;;
      if answered s then Some (mkLoop t tk None at_ pong pc conn st lg)
      else Some (mkLoop t tk None at_ pong pc conn TransportClosed (HalfOpen t :: lg))
  | Tick ok => guard (st = Running);; guard (tk ≤ t)%Z;;
      if negb conn then Some (mkLoop t (next_tick s) ch at_ pong pc conn Returned lg)
      else if ok then
        let '(ch, at_) := arm s in
        Some (mkLoop t (next_tick s) ch at_ pong pc conn st (PingSent t :: lg))
      else Some (mkLoop t (next_tick s) ch at_ pong pc conn st lg)
  end.

Fixpoint exec (ls : list label) (s : loop) : option loop :=
  match ls with [] => Some s | l :: ls => exec_label l s ≫= exec ls end.

Lemma exec_app a b s : exec (a ++ b) s = exec a s ≫= exec b.
Proof.
  revert s. induction a as [|l a IH]; intros s; [done|]. cbn. destruct (exec_label l s); [apply IH|done].
Qed.

(** ** Only a half-open connection is closed *)

(** The newest ping of a log was sent at [a], and no pong was recorded since. *)
Fixpoint unanswered_since (a : Z) (lg : list event) : Prop :=
  match lg with
  | [] => False
  | PingSent t :: _ => t = a
  | PongSeen t :: lg => (t < a)%Z ∧ unanswered_since a lg
  | HalfOpen _ :: lg => unanswered_since a lg
  end.

Fixpoint justified (lg : list event) : Prop :=
  match lg with
  | [] => True
  | HalfOpen t :: lg => (∃ a, unanswered_since a lg ∧ (a + PingTimeout ≤ t)%Z) ∧ justified lg
  | _ :: lg => justified lg
  end.

Fixpoint last_ping (lg : list event) : option Z :=
  match lg with [] => None | PingSent t :: _ => Some t | _ :: lg => last_ping lg end.

Record ping_inv (s : loop) : Prop := {
  pi_past : ∀ a, last_ping (log s) = Some a → (a ≤ now s)%Z;
  pi_pong : (lastPong s ≤ now s)%Z;
  pi_armed : ∀ a, armedAt s = Some a → last_ping (log s) = Some a ∧
    ((lastPong s < a)%Z → unanswered_since a (log s));
  pi_due : ∀ d, timerCh s = Some d → ∃ a, armedAt s = Some a ∧ d = (a + PingTimeout)%Z;
  pi_log : justified (log s);
}.

Lemma ping_inv_step l s s' : exec_label l s = Some s' → ping_inv s → ping_inv s'.
Proof.
  destruct s as [t tk ch at_ pong pc conn st lg]. intros He [H1 H2 H3 H4 H5].
  cbn [now lastPong armedAt timerCh log] in *.
  destruct l; cbn [exec_label] in He; simplify_option_eq.
  - split; cbn; try done; intros; [by etrans; [apply H1|lia]|lia].
  - split; cbn; try done. intros a Ha. apply H3 in Ha as [Hl Hu]. split; [done|]. intros Hlt.
    by apply H1 in Hl; lia.
  - by split.
  - by split.
  - by split.
  - by split.
  - destruct (answered _) eqn:Ha; simplify_eq; split; cbn; try done.
    destruct (H4 _ eq_refl) as (a & -> & ->). unfold answered in Ha. cbn in Ha. apply Z.leb_gt in Ha.
    split; [|done]. exists a. split; [by apply H3|lia].
  - destruct conn; cbn in He; simplify_eq; [|by split]. destruct sendOk; simplify_eq; [|by split].
    unfold arm in He. cbn in He. destruct (Z.leb_spec PingTimeout 0); simplify_eq; split; cbn; try done.
    + intros a [= <-]. lia.
    + intros a [= <-]. lia.
    + intros a [= <-]. done.
    + intros d [= <-]. by eexists.
Qed.

(** The ping loop closes only half-open connections.  In every interleaving
    of the loop, the receive loop and the timers, when the loop closes the
    transport a full ping timeout has passed since its newest ping and no pong
    was recorded at or after that ping. *)
Theorem ping_close_justified ls t s :
  exec ls (start t) = Some s → justified (log s).
Proof.
  intros He. cut (ping_inv s); [by intros []|].
  assert (ping_inv (start t)) as Hi by (split; cbn; done || lia).
  revert He Hi. generalize (start t). induction ls as [|l ls IH]; intros s0 He Hi; cbn in He; [by simplify_eq|].
  destruct (exec_label l s0) as [s1|] eqn:Hl; [|done]. cbn in He. eapply IH; [exact He|].
  by eapply ping_inv_step.
Qed.

(** ** When a half-open connection is noticed *)

(** A ping was just sent, and nothing is heard any more. *)
Definition silent_at (a : Z) (s : loop) : Prop :=
  ∃ pong lg, s = mkLoop a (a + PingInterval) (Some (a + PingTimeout)%Z) (Some a) pong false true Running lg ∧ (pong < a)%Z.

Definition ping_cycle : list label := [Elapse PingInterval; Tick true].

Ltac enabled := repeat (rewrite option_guard_True by (done || lia); cbn).

Lemma ping_cycle_silent a s :
  (0 < PingInterval)%Z → (0 < PingTimeout)%Z → silent_at a s →
  ∃ s', exec ping_cycle s = Some s' ∧ silent_at (a + PingInterval) s'.
Proof.
  intros HI HT (pong & lg & -> & Hp). cbn. enabled. unfold arm. rewrite (proj2 (Z.leb_gt PingTimeout 0)) by done. cbn.
  eexists. split; [reflexivity|]. unfold silent_at. exists pong, (PingSent (a + PingInterval) :: lg). split; [|lia].
  f_equal. unfold next_tick. cbn. rewrite Z.sub_diag, Z.div_0_l by lia. lia.
Qed.

(** A half-open connection is noticed if and only if the ping timeout is
    shorter than the interval.  After a ping that is never answered: with a
    shorter timeout the deadline is due before the next tick and closes the
    transport; with a longer one every ping replaces the deadline before it is
    due, for any number of pings, and the transport is never closed. *)
Theorem half_open_detection a s :
  (0 < PingInterval)%Z → (0 < PingTimeout)%Z → silent_at a s →
  ((PingTimeout < PingInterval)%Z →
     (∀ d ok, (0 < d ≤ PingTimeout)%Z → exec [Elapse d; Tick ok] s = None) ∧
     ∃ s', exec [Elapse PingTimeout; Deadline] s = Some s' ∧ state s' = TransportClosed) ∧
  ((PingInterval < PingTimeout)%Z → ∀ n, ∃ s',
     exec (mjoin (replicate n ping_cycle)) s = Some s' ∧ silent_at (a + Z.of_nat n * PingInterval) s' ∧
     ∀ d, (0 < d ≤ PingInterval)%Z → exec [Elapse d; Deadline] s' = None).
Proof.
  intros HI HT Hs. split; intros Hlt.
  - destruct Hs as (pong & lg & -> & Hp). split.
    + intros d ok Hd. cbn. enabled. by rewrite option_guard_False by lia.
    + cbn. enabled. rewrite (proj2 (Z.leb_gt a pong)) by done. by eexists.
  - intros n. revert a s Hs. induction n as [|n IH]; intros a s Hs.
    + exists s. rewrite Z.add_0_r. split_and!; [done|done|]. destruct Hs as (pong & lg & -> & Hp). intros d Hd.
      cbn. enabled. by rewrite option_guard_False by lia.
    + destruct (ping_cycle_silent a s HI HT Hs) as (s1 & H1 & Hs1). destruct (IH _ _ Hs1) as (s2 & H2 & Hs2 & Hd).
      exists s2. split_and!; [|by replace (a + Z.of_nat (S n) * PingInterval)%Z with
        (a + PingInterval + Z.of_nat n * PingInterval)%Z by lia|done].
      change (mjoin (replicate (S n) ping_cycle)) with (ping_cycle ++ mjoin (replicate n ping_cycle)).
      by rewrite exec_app, H1.
Qed.

End Loop.

Lemma ping_close_justified_witness : ∃ s,
  exec 30 10 [Elapse 30; Tick true; Elapse 10; Deadline] (start 30 0) = Some s ∧ state s = TransportClosed ∧
  justified 10 (log s).
Proof.
  eexists. split; [vm_compute; reflexivity|]. split; [reflexivity|].
  apply (ping_close_justified 30 10 [Elapse 30; Tick true; Elapse 10; Deadline] 0). vm_compute. reflexivity.
Defined.

(** The SDK's defaults, in seconds. *)
Lemma half_open_detection_witness : ∃ s s',
  exec 30 10 [Elapse 30; Tick true] (start 30 0) = Some s ∧
  exec 30 10 [Elapse 10; Deadline] s = Some s' ∧ state s' = TransportClosed.
Proof.
  eexists. destruct (half_open_detection 30 10 30
    (mkLoop 30 60 (Some 40%Z) (Some 30%Z) 0 false true Running [PingSent 30])) as [H1 _].
  - lia.
  - lia.
  - exists 0%Z, [PingSent 30]. split; [reflexivity|lia].
  - destruct (H1 ltac:(lia)) as (_ & s' & H2 & H3). exists s'. split; [vm_compute; reflexivity|]. split; [exact H2|exact H3].
Defined.

End SdkPing.
